(* ===== verification/_CoqProject ===== *)
-Q . S2P
Prelude.v
Contract.v
Text.v
Validation.v
Topology.v
Kernel.v
Errors.v
Arbiter.v
Executors.v
PolicyCheck.v
Requirements.v
State.v
Assess.v
Fairness.v
Admission.v
Memory.v
Observe.v
Governor.v
Policies.v
Plan.v
Build.v
Builds.v
Ingress.v
Books.v
Custody.v
Ledger.v
Moves.v
Reads.v
Invariant.v
Steps.v
Selection.v
Ring.v
Dispatch.v
Sections.v
Progress.v
Lifecycle.v
Trace.v
System.v
Queues.v
Wakes.v
Runs.v
Fifo.v
Consistency.v
Cycles.v
Numbers.v
Fates.v
Grips.v
Total.v
Contracts.v
Calls.v
Churn.v
Decision.v
Identities.v
Gates.v
Refinement.v
Snapshots.v
Owned.v
Watched.v
Health.v
Retained.v
Client.v
Metered.v
Budget.v
ChurnPolicy.v
ChurnOrigins.v
ChurnCheck.v
ChurnSteps.v
ChurnSafe.v
Tasks.v
Host.v
Acquire.v
HostRuns.v
Holding.v
Acquired.v
Threads.v
Submit.v
Paths.v
Workers.v
Detached.v
Drain.v
