(* ===== verification/Prelude.v ===== *)
(** * taskmesh: a verification development

    taskmesh is a governed execution control plane: callers ask for a permit to
    run a task of some class, the engine admits, queues or refuses the request
    against declared limits, and every permit is accounted for until it is
    released.  This library models crates/taskmesh-contract (the vocabulary:
    policies, resources, tasks, topology, verdicts, snapshots),
    crates/taskmesh-engine (the governor) and the host crates crates/taskmesh and
    crates/taskmesh-rayon: building a runtime, planning a submission, strict
    ingress, and the asynchronous part, in which a submission acquires a permit,
    runs under a lease on one of the run paths, and a runtime drains; and one client
    of the engine, the stress target fuzz/fuzz_targets/admission_churn.rs.

    ** How the program is put together

    A host declares policies and pools on a [Builder] (builder.rs), which builds a
    [TokioRuntime]: a [PolicySet] (shared/mod.rs), a [Governor] over it
    (engine/governor.rs), a physical domain and a data-parallel executor.  The
    governor keeps one [GovernedState] (engine/state.rs) under one mutex, three
    atomic sequence counters outside it, and calls the host's wakers after the lock
    is dropped.  The feature modules are functions over that state: admission (may
    this request run now, wait, or be refused), admission/pending (the capacity
    resolver), fairness (who is dispatched next), memory (measured charges and
    leaks), composite (stages of a task).  A submission is planned
    (execution_plan.rs), which fixes its dispatch path and the pools it charges,
    then admitted by the governor, and held to its cancel token, timeout and
    deadline by the arbiter (executor/cancel.rs) until it holds a permit
    (runtime/acquisition.rs).  From then on an [ExecutionLease] (runtime.rs) owns the
    permit: the caller's future holds it on the polled paths ([run_io], [run_local]);
    on the detached ones (runtime/synchronous.rs, runtime/detached.rs, the
    requested-stack path) it moves with the job into a worker and comes back in the
    completion message.  A drain (runtime/drain.rs) closes the governor's gate and
    waits until nothing is charged.

    ** Files

    Every definition has the name of the item it models where Rocq allows it; a
    method of a second type is prefixed by its type.

    - [Prelude]: machine integers with wrap-around written out, the error monad,
      derived orderings, ordered maps, sums over maps and lists, automation.
    - [Contract], [Text], [Validation], [Topology]: taskmesh-contract (policy.rs,
      resource.rs, task.rs, verdict.rs, snapshot.rs; strings as UTF-8 bytes;
      validation.rs; topology.rs).  [Errors]: the rendered error messages.
    - [Kernel], [PolicyCheck]: shared/mod.rs, features/inventory and
      engine/governor/validation.rs.
    - [State]: engine/state.rs and engine/state/transition.rs.
    - [Assess]: features/admission/pending.rs; [Fairness]: features/fairness;
      [Admission]: features/admission/mod.rs and features/composite;
      [Memory]: features/memory.
    - [Governor], [Observe]: engine/governor.rs,
      governor/memory_governance.rs, governor/observation.rs.  Each critical
      section of the source is one definition (.._section); a public method is a
      sequence of sections, and other callers' sections run between them.
    - [Arbiter]: executor/cancel.rs; [Executors]: the executor ports and
      taskmesh-rayon; [Plan]: execution_plan.rs and the preflight of runtime.rs;
      [Build]: builder.rs; [Ingress]: ingress.rs, the JSON scanner and the
      conversion of documents included; [Builds]: built runtimes plan.
    - [System]: the governor as a transition system, its steps labelled by the
      section and the identities it was called with; [Runs]: the same steps as a
      function of a label, and a concrete run the theorems are instantiated at.
    - [Requirements], [Policies]: facts about requirement sets and about the
      policies that can be built.
    - [Books], [Custody], [Ledger], [Moves], [Reads], [Invariant], [Steps],
      [Selection], [Dispatch], [Sections], [Progress], [Lifecycle]: the
      invariant, one preservation lemma per transition, per section and per step,
      and what selection and promotion achieve.
    - [Trace]: every section as a sequence of primitive transitions, and
      what a step may do to the permits and tickets it was not called with
      ([Grips]); [Wakes]: a section that takes a request out of its queue hands its
      waker over.
    - [Tasks]: asynchronous functions as trees of calls that can be dropped where
      they wait, their steps, and a rely-guarantee logic for them ([wp]); [Threads]:
      two such tasks, a caller and its worker, interleaved.
    - [Host]: what the asynchronous paths call and what those calls may do, on a
      state that holds the governor's world, the clock, the cancelled tokens, the
      notifiers, the worker and its channel; [HostRuns]: one executable behaviour of
      it, for concrete runs.
    - [Acquire]: the governor's public calls as the host makes them, the execution
      lease of runtime.rs and runtime/acquisition.rs; [Submit]: every run path of
      runtime.rs and runtime/synchronous.rs, and the bodies of their workers
      (runtime/detached.rs, the requested-stack thread).
    - [Owned], [Watched], [Holding]: the situations of a submission's own permit and
      of its queued request, stable under everybody else's steps, and what each call
      makes of them; [Acquired], [Paths], [Workers], [Detached]: what acquisition, the
      polled paths and the detached ones guarantee.
    - [Drain]: runtime/drain.rs, its model and its guarantees.
    - [Calls]: the public methods of the governor as one thread that is alone with it
      calls them, each its sections and then the drain loop; they return.
    - [Churn]: the stress target, its harness, operations and assertions.  What it
      relies on: [Health] (accounting, budget and kept answers between calls), [Client]
      (a caller that holds everything there is, and the answer of each call it makes),
      [Metered] (its measurements and admissions).  What it makes of it:
      [ChurnPolicy], [ChurnOrigins], [ChurnCheck], [ChurnSteps], [ChurnSafe] (its
      policies, its notes of who submitted what, its checks, its steps, the whole
      target).
    - [Queues], [Fifo], [Cycles], [Ring], [Numbers], [Fates], [Total], [Contracts],
      [Decision], [Identities], [Gates], [Refinement], [Consistency], [Snapshots],
      [Retained], [Budget]: the properties, one subject each.

    ** Modelling choices

    Unsigned integers are [N] at their width: a plain addition wraps, checked and
    saturating operations are named.  A BTreeMap or HashMap is a [gmap]; where the
    source iterates a BTreeMap, the model folds over the map sorted by the derived
    order ([btree]).  A panic of a release build ([expect], an index) is [None] of
    an option; debug assertions are not compiled in and appear as the oracle
    [assert_consistent], a theorem.  Closures handed to the engine (wakers, the
    clock) are values: a waker is an opaque number collected in
    [TransitionEffects], a clock reading is the [sampled] argument of a section,
    arbitrary and not even monotone.

    A step of [System] is one critical section of one caller, so [reachable]
    ranges over every interleaving of public calls.  Its side conditions are what
    types give in Rust: identities come from [fresh_ids], requirement sets from
    [from_resolved].  One premise is quantitative ([room]): a step is taken while
    the live permits, with the 64 a promotion may add, are fewer than 2^32, the
    width of the inflight counters.  That no counter then wraps is proved
    ([Numbers.reachable_widths]).

    A host path is run by [Tasks] one call at a time, with any number of steps of
    everybody else between two calls ([interferes]: other callers' sections on
    identities of their own, time, cancellations, notifications), and can be dropped
    where the source awaits; destructors are calls of their own, run where Rust runs
    them.  Tokio, the executors, the channels and the caller's work are relations:
    each allows every behaviour its documentation does (a select may take any arm
    that is ready; a spawned job may run at any later time or be dropped; work may
    return or panic).  What the model takes from that documentation is stated at
    [acts] (Host) and at the start relations of [Detached].

    The stress target is a sequential program over the governor and is modelled as
    one: [Calls] gives each public method as a function, and a failed assertion, index
    or call is [None].  The counters a process shares between governors are arguments;
    lease nonces are counted from one in its single governor.

    JSON text is out of scope of [Ingress] (serde_json tokenizes it): a document is
    the tree of the tokens in their order, repeated keys included, and the scanner,
    the limits and the typed conversion are the source's.

    ** Fuel

    [chain_fuel] is the number of live permits plus two: [cycle_witness] stops at
    the first ancestor it has seen before, and [Cycles.wait_cycle_sound] proves that
    with this fuel, or more, it returns the totals of the whole chain.
    [promote_loop] runs [PROMOTION_BUDGET] rounds because the source does.
    [drain] takes its passes as an argument; [Total.drain_settles] proves one more
    than the queued requests enough, and
    [drain_call] (Calls) runs with two more than there are when the call begins.  The
    stress target makes at most 256 calls, so it never meets the bounds of its engine: 2^32
    permits ([roomy]) and 4096 retained tickets ([Health]).  A loop of
    a host path ([Tasks]) has no fuel: its rule asks for a measure that falls from round
    to round while nobody interferes, and [wp_finishes] concludes that the path ends
    when it is left alone.

    ** What the theorems show

    - the governor as a whole: [Refinement.governor_refines_spec] (every section
      refines an abstract governor of live permits and queues),
      [Total.sections_total] (no section panics), [Calls.public_calls_return] (every
      public method of a thread that is left alone returns), [Numbers.reachable_widths],
      [Retained.reachable_retention] (bounds of its memory).
    - a client of it: [ChurnSafe.churn_never_panics] (no input makes the stress target
      fail: the engine keeps every promise the target tests, for all inputs).
    - every run keeps its books: [Consistency.reachable_consistent] (all totals
      equal their recomputation), [Consistency.reachable_within_limits] (no limit
      is ever exceeded), [Budget.memory_within_budget] (only a measurement takes the
      memory held past its budget), [Consistency.reachable_tickets] (a ticket is in
      exactly one place), [Consistency.reachable_identities_fresh],
      [Identities.reachable_one_holder].
    - admission and scheduling: [Decision.admission_immediate],
      [Fates.domain_fifo], [Fifo.reachable_queue_index],
      [Dispatch.select_dispatches], [Ring.drr_walk_agrees],
      [Total.drain_settles], [Cycles.wait_cycle_sound].
    - the life of identities: [Fates.permit_fate], [Fates.ticket_fate],
      [Gates.switches_one_way].
    - contracts of single calls: [Contracts.release_contract],
      [Contracts.claim_round_trip], [Numbers.reconcile_exact],
      [Numbers.stage_release_exact], [Numbers.retry_after_exact].
    - a submission leaks nothing: [Acquired.wp_acquire] behind
      [Paths.acquire_settles], [Paths.polled_settles], [Detached.detached_settles] and
      [Detached.requested_stack_settles]: work runs only under its own permit, a
      caller sees its result only once the permit is back, and when call and worker
      are over, however they ended, nothing of the submission is left.
      At every point each thread, left alone, ends or comes to a place where it may
      wait ([lively], [may_wait] of Holding); [Paths.acquire_wakes]: an acquisition
      spins never and sleeps through nothing.
      [Drain.drain_correct]: a drain's answers are true and it loses no wake-up.
      [Submit.thread_name_safe]: worker names can always be built.
    - observation is truthful: [Snapshots.snapshot_conserves],
      [Snapshots.snapshot_matches_ledgers].
    - construction is fail-closed and complete: [Policies.Governor_new_correct]
      (the policies accepted are exactly the well-formed ones),
      [Policies.PolicySet_new_correct], [Policies.declared_requirements_total],
      [Builds.build_faithful] and [Builds.built_plans] (a built runtime is what
      was declared, and plans exactly the acceptable submissions),
      [Ingress.parse_task_spec_exact], [Ingress.parse_runtime_config_exact].
    - values decide their declarative contracts: [Requirements.from_resolved_correct],
      [Requirements.intersects_correct], [Validation.ValidatedTaskPlan_correct],
      [Topology.try_resolved_cpu_workers_correct],
      [Topology.physical_domain_resolves], [Arbiter.arbiter_enforces].

    ** Not modelled

    The benchmark harness (crates/taskmesh-bench: measurement programs, whose results
    are the machine's), the tools and the other fuzz targets (they assert that a parser
    or a constructor returns), the messages of the stress target's assertions and its
    progress log (fuzz_targets/support); Display,
    Debug, Error and serde implementations beyond the messages of [Errors]; lock and
    thread shims (sync.rs, runtime.rs of the contract), port traits (ports.rs).  A
    waker's behaviour when called is arbitrary host code for the engine, whose
    reaction to its panic is modelled as the compensation sections; the host's own
    notifier ([TokioPermitWaker]) does not panic.  Of the run paths: a panic of a
    future the caller polls itself, which unwinds the caller's task through the same
    destructors as dropping it, and a panic of [tokio::task::spawn_blocking].
    Liveness is progress of a thread that is left alone, and the absence of lost
    wake-ups; that callers which never pause cannot starve one another is not stated. *)

From Stdlib Require Ascii String.
From stdpp Require Export base numbers sorting option strings countable fin_maps gmap list.

#[export] Set Warnings "-clear-no-such-hyp".
#[global] Open Scope N_scope.

(** ** Machine integers

    Unsigned machine integers are [N].  The widths the program uses are written
    out: a plain [+] or [+=] of the source is [wadd] (release arithmetic wraps),
    [checked_add], [saturating_add] and their subtractions are the named
    functions below. *)

Definition U8_MAX : N := 255.
Definition U32_MAX : N := 4294967295.
Definition U64_MAX : N := 18446744073709551615.
Definition U128_MAX : N := 340282366920938463463374607431768211455.

(** [a + b] on an unsigned type whose greatest value is [mx]: wraps. *)
Definition wadd (mx a b : N) : N := (a + b) `mod` (mx + 1).

(** [a * b]: wraps. *)
Definition wmul (mx a b : N) : N := (a * b) `mod` (mx + 1).

Definition checked_add (mx a b : N) : option N :=
  if decide (a + b ≤ mx) then Some (a + b) else None.

Definition checked_sub (a b : N) : option N :=
  if decide (b ≤ a) then Some (a - b) else None.

Definition saturating_add (mx a b : N) : N := N.min (a + b) mx.

Definition saturating_mul (mx a b : N) : N := N.min (a * b) mx.

(** [N.sub] truncates at zero, which is [saturating_sub]. *)
Definition saturating_sub (a b : N) : N := a - b.

(** [u64::div_ceil] (the divisor is checked non-zero by the callers). *)
Definition div_ceil (a b : N) : N :=
  let d := a / b in
  if decide (a `mod` b = 0) then d else d + 1.

Ltac unfold_widths := unfold U8_MAX, U32_MAX, U64_MAX, U128_MAX in *.

(** Linear arithmetic with the width constants unfolded. *)
Ltac ulia := unfold_widths; lia.

Create HintDb taskmesh.

Lemma div_ceil_le a b n : b ≠ 0 → div_ceil a b ≤ n ↔ a ≤ n * b.
Proof.
  intros Hb. unfold div_ceil. pose proof (N.div_mod a b Hb) as E.
  pose proof (N.mod_lt a b Hb) as Hlt. set (d := a / b) in *. set (m := a `mod` b) in *.
  case_decide; split; intros H'; nia.
Qed.

Lemma wadd_small mx a b : a + b ≤ mx → wadd mx a b = a + b.
Proof. intros. unfold wadd. apply N.mod_small. lia. Qed.

Lemma wmul_small mx a b : a * b ≤ mx → wmul mx a b = a * b.
Proof. intros. unfold wmul. apply N.mod_small. lia. Qed.

Lemma wadd_le mx a b : wadd mx a b ≤ mx.
Proof. unfold wadd. pose proof (N.mod_lt (a + b) (mx + 1)). lia. Qed.

Lemma saturating_add_small mx a b : a + b ≤ mx → saturating_add mx a b = a + b.
Proof. unfold saturating_add. lia. Qed.

Lemma saturating_add_le mx a b : saturating_add mx a b ≤ mx.
Proof. unfold saturating_add. lia. Qed.

Lemma checked_add_Some mx a b c :
  checked_add mx a b = Some c ↔ c = a + b ∧ a + b ≤ mx.
Proof. unfold checked_add. case_decide; split; intros; simplify_eq; auto; naive_solver. Qed.

Lemma checked_add_None mx a b : checked_add mx a b = None ↔ mx < a + b.
Proof. unfold checked_add. case_decide; split; intros; try done; lia. Qed.

Lemma div_ceil_spec a b q :
  b ≠ 0 → div_ceil a b = q → b * q < a + b ∧ a ≤ b * q.
Proof.
  intros Hb <-. unfold div_ceil.
  pose proof (N.div_mod a b Hb) as E. pose proof (N.mod_lt a b Hb) as L.
  revert E L. generalize (a `mod` b) (a / b). intros m d E L.
  case_decide; nia.
Qed.


(** ** [Result]

    [Result<A, E>] is [E + A], with [?] as the monadic bind. *)

#[export] Instance result_ret {E} : MRet (sum E) := λ A x, inr x.
#[export] Instance result_bind {E} : MBind (sum E) := λ A B f m,
  match m with inl e => inl e | inr x => f x end.

Lemma result_bind_inr {E A B} (m : E + A) (f : A → E + B) y :
  m ≫= f = inr y ↔ ∃ x, m = inr x ∧ f x = inr y.
Proof. destruct m; cbn; naive_solver. Qed.

(** ** Rust's [Ord]

    The program keys its ordered maps ([BTreeMap], [BTreeSet]) by types with a
    derived or hand-written [Ord].  [RustOrd] is [Ord::cmp]; [RustOrdLaws] is
    the contract of a total order the standard collections rely on. *)

Class RustOrd (A : Type) := rcmp : A → A → comparison.

Class RustOrdLaws (A : Type) `{RustOrd A} := {
  rcmp_eq (x y : A) : rcmp x y = Eq ↔ x = y;
  rcmp_flip (x y : A) : rcmp y x = CompOpp (rcmp x y);
  rcmp_lt_trans (x y z : A) : rcmp x y = Lt → rcmp y z = Lt → rcmp x z = Lt;
}.

Definition rle {A} `{RustOrd A} (x y : A) : Prop := rcmp x y ≠ Gt.
Definition rlt {A} `{RustOrd A} (x y : A) : Prop := rcmp x y = Lt.

#[export] Instance rle_dec {A} `{RustOrd A} (x y : A) : Decision (rle x y).
Proof. unfold rle. solve_decision. Defined.
#[export] Instance rlt_dec {A} `{RustOrd A} (x y : A) : Decision (rlt x y).
Proof. unfold rlt. solve_decision. Defined.

Section ord_laws.
Context {A : Type} `{RustOrdLaws A}.
Implicit Types x y z : A.

Lemma rcmp_refl x : rcmp x x = Eq.
Proof. by apply rcmp_eq. Qed.

Lemma rlt_irrefl x : ¬ rlt x x.
Proof. unfold rlt. by rewrite rcmp_refl. Qed.

Lemma rle_lteq x y : rle x y ↔ rlt x y ∨ x = y.
Proof.
  unfold rle, rlt. rewrite <-rcmp_eq. destruct (rcmp x y); naive_solver.
Qed.

Lemma rle_not_lt x y : rle x y ↔ ¬ rlt y x.
Proof.
  unfold rle, rlt. rewrite (rcmp_flip x y). destruct (rcmp x y); naive_solver.
Qed.

#[export] Instance rle_reflexive : Reflexive (rle (A:=A)).
Proof. intros x. unfold rle. by rewrite rcmp_refl. Qed.

#[export] Instance rle_transitive : Transitive (rle (A:=A)).
Proof.
  intros x y z. rewrite !rle_lteq. intros [Hxy| ->] [Hyz| ->]; eauto.
  left. by eapply rcmp_lt_trans.
Qed.

#[export] Instance rle_total : Total (rle (A:=A)).
Proof.
  intros x y. unfold rle. rewrite (rcmp_flip x y). destruct (rcmp x y); naive_solver.
Qed.

#[export] Instance rle_antisymm : AntiSymm (=) (rle (A:=A)).
Proof.
  intros x y. unfold rle. rewrite (rcmp_flip x y).
  destruct (rcmp x y) eqn:E; try naive_solver. intros _ _. by apply rcmp_eq.
Qed.

Lemma rlt_trichotomy x y : rlt x y ∨ x = y ∨ rlt y x.
Proof.
  unfold rlt. rewrite (rcmp_flip x y), <-rcmp_eq. destruct (rcmp x y); naive_solver.
Qed.
End ord_laws.

#[export] Instance N_rustord : RustOrd N := N.compare.
#[export] Instance N_rustord_laws : RustOrdLaws N.
Proof.
  split; unfold rcmp, N_rustord.
  - apply N.compare_eq_iff.
  - intros. apply N.compare_antisym.
  - intros ???. rewrite !N.compare_lt_iff. lia.
Qed.

(** [str] compares by bytes. *)
#[export] Instance string_rustord : RustOrd string := String.compare.

Lemma ascii_compare_N (a b : Ascii.ascii) :
  Ascii.compare a b = N.compare (Ascii.N_of_ascii a) (Ascii.N_of_ascii b).
Proof. done. Qed.

Lemma string_compare_refl s : String.compare s s = Eq.
Proof.
  induction s as [|a s IH]; [done|]. simpl.
  by rewrite ascii_compare_N, N.compare_refl.
Qed.

Lemma string_compare_lt_trans (x y z : string) :
  String.compare x y = Lt → String.compare y z = Lt → String.compare x z = Lt.
Proof.
  revert y z. induction x as [|a x IH]; intros [|b y] [|c z]; simpl; try done.
  rewrite !ascii_compare_N.
  destruct (N.compare_spec (Ascii.N_of_ascii a) (Ascii.N_of_ascii b)) as [Eab|?|?];
  destruct (N.compare_spec (Ascii.N_of_ascii b) (Ascii.N_of_ascii c)) as [Ebc|?|?];
    try done; intros ??.
  - rewrite Eab, Ebc, N.compare_refl. eauto.
  - rewrite Eab. by rewrite (proj2 (N.compare_lt_iff _ _)) by lia.
  - rewrite <-Ebc. by rewrite (proj2 (N.compare_lt_iff _ _)) by lia.
  - by rewrite (proj2 (N.compare_lt_iff _ _)) by lia.
Qed.

#[export] Instance string_rustord_laws : RustOrdLaws string.
Proof.
  split; unfold rcmp, string_rustord.
  - intros x y. split; [apply String.compare_eq_iff|].
    intros ->. apply string_compare_refl.
  - intros. apply String.compare_antisym.
  - apply string_compare_lt_trans.
Qed.

(** A derived [Ord] compares the fields in declaration order. *)
#[export] Instance prod_rustord {A B} `{RustOrd A, RustOrd B} : RustOrd (A * B) :=
  λ p q, match rcmp p.1 q.1 with Eq => rcmp p.2 q.2 | c => c end.
#[export] Instance prod_rustord_laws {A B} `{RustOrdLaws A, RustOrdLaws B} :
  RustOrdLaws (A * B).
Proof.
  split; unfold rcmp, prod_rustord.
  - intros [x1 y1] [x2 y2]; simpl. destruct (rcmp x1 x2) eqn:E.
    + apply rcmp_eq in E as ->. rewrite rcmp_eq. naive_solver.
    + split; [done|]. intros [= -> ->]. by rewrite rcmp_refl in E.
    + split; [done|]. intros [= -> ->]. by rewrite rcmp_refl in E.
  - intros [x1 y1] [x2 y2]; simpl. rewrite (rcmp_flip x1 x2).
    destruct (rcmp x1 x2); simpl; try done. apply rcmp_flip.
  - intros [x1 y1] [x2 y2] [x3 y3]; simpl.
    destruct (rcmp x1 x2) eqn:E12; destruct (rcmp x2 x3) eqn:E23; try done; intros H1' H2'.
    + apply rcmp_eq in E12 as ->. rewrite E23. by eapply rcmp_lt_trans.
    + apply rcmp_eq in E12 as ->. by rewrite E23.
    + apply rcmp_eq in E23 as <-. by rewrite E12.
    + by rewrite (rcmp_lt_trans _ _ _ E12 E23).
Qed.

(** An [Ord] pulled back along an injection, for the two-field handles. *)
Lemma rustord_laws_inj {A B} `{RustOrd A, RustOrdLaws B} (f : A → B) :
  Inj (=) (=) f → (∀ x y, rcmp x y = rcmp (f x) (f y)) → RustOrdLaws A.
Proof.
  intros Hinj E. split.
  - intros x y. rewrite E, rcmp_eq. split; [apply (inj f)|by intros ->].
  - intros x y. rewrite !E. apply rcmp_flip.
  - intros x y z. rewrite !E. apply rcmp_lt_trans.
Qed.

(** ** Ordered maps and sets

    [BTreeMap] and [BTreeSet] are [gmap] and [gset]; where the program iterates,
    it visits the keys in ascending order. *)

Section btree.
Context {K : Type} `{Countable K, RustOrdLaws K}.

Definition btree_to_list {A} (m : gmap K A) : list (K * A) :=
  merge_sort (λ p q, rle p.1 q.1) (map_to_list m).

Definition btree_values {A} (m : gmap K A) : list A := (btree_to_list m).*2.
Definition btree_keys {A} (m : gmap K A) : list K := (btree_to_list m).*1.

Definition btree_set_to_list (X : gset K) : list K := merge_sort rle (elements X).

(** [BTreeSet::first] / [BTreeMap::iter().next()]. *)
Definition btree_set_first (X : gset K) : option K := head (btree_set_to_list X).
Definition btree_first {A} (m : gmap K A) : option (K * A) := head (btree_to_list m).

Lemma btree_to_list_perm {A} (m : gmap K A) : btree_to_list m ≡ₚ map_to_list m.
Proof. apply merge_sort_Permutation. Qed.

Lemma elem_of_btree_to_list {A} (m : gmap K A) k x :
  (k, x) ∈ btree_to_list m ↔ m !! k = Some x.
Proof. by rewrite btree_to_list_perm, elem_of_map_to_list. Qed.

Lemma btree_to_list_sorted {A} (m : gmap K A) :
  StronglySorted (λ p q, rle p.1 q.1) (btree_to_list m).
Proof.
  apply StronglySorted_merge_sort.
  - intros ???. by etrans.
  - intros p q. apply (total rle).
Qed.

Lemma btree_to_list_NoDup {A} (m : gmap K A) : NoDup (btree_to_list m).*1.
Proof. rewrite btree_to_list_perm. apply NoDup_fst_map_to_list. Qed.

Lemma elem_of_btree_set (X : gset K) x : x ∈ btree_set_to_list X ↔ x ∈ X.
Proof. unfold btree_set_to_list. by rewrite merge_sort_Permutation, elem_of_elements. Qed.

Lemma btree_set_sorted (X : gset K) : StronglySorted rle (btree_set_to_list X).
Proof. apply StronglySorted_merge_sort; apply _. Qed.

Lemma btree_set_first_None X : btree_set_first X = None ↔ X = ∅.
Proof.
  unfold btree_set_first. split.
  - intros E. apply set_eq. intros x. rewrite <-elem_of_btree_set.
    destruct (btree_set_to_list X); [|done]. set_solver.
  - intros ->. unfold btree_set_to_list. by rewrite elements_empty.
Qed.

Lemma btree_set_first_Some X x :
  btree_set_first X = Some x ↔ x ∈ X ∧ ∀ y, y ∈ X → rle x y.
Proof.
  unfold btree_set_first. setoid_rewrite <-elem_of_btree_set.
  pose proof (btree_set_sorted X) as Hs. destruct (btree_set_to_list X) as [|z l]; simpl.
  { split; [done|]. intros [Hx _]. by apply not_elem_of_nil in Hx. }
  apply StronglySorted_cons in Hs as [Hz _]. rewrite Forall_forall in Hz. split.
  - intros [= ->]. split; [by left|]. intros y [->|Hy]%elem_of_cons; [|by apply Hz].
    apply rle_lteq; auto.
  - intros [[->|Hx]%elem_of_cons Hmin]; [done|]. f_equal.
    apply (anti_symm rle); [by apply Hz|]. apply Hmin. by left.
Qed.

Lemma btree_first_Some {A} (m : gmap K A) k x :
  btree_first m = Some (k, x) → m !! k = Some x ∧ ∀ k', is_Some (m !! k') → rle k k'.
Proof.
  unfold btree_first. pose proof (btree_to_list_sorted m) as Hs.
  pose proof (elem_of_btree_to_list m) as He.
  destruct (btree_to_list m) as [|[k0 x0] l]; simpl; [done|]. intros [= -> ->].
  apply StronglySorted_cons in Hs as [Hz _]. rewrite Forall_forall in Hz. split.
  - apply He. by left.
  - intros k' [y Hy]. apply He in Hy as [[= -> ->]|Hy]%elem_of_cons.
    + apply rle_lteq; auto.
    + by apply (Hz (k', y)).
Qed.
End btree.

(** ** Lists with a key *)

Section keyed_lists.
Context {A B : Type} (f : A → B).
Implicit Types (l : list A) (x y : A).

Lemma NoDup_fmap_delete l i : NoDup (f <$> l) → NoDup (f <$> delete i l).
Proof.
  rewrite list_fmap_delete. intros H. eapply sublist_NoDup; [apply H|]. apply sublist_delete.
Qed.

(** Deleting an element leaves exactly the elements with another key. *)
Lemma elem_of_delete_keyed l i x y :
  NoDup (f <$> l) → l !! i = Some x → y ∈ delete i l ↔ y ∈ l ∧ f y ≠ f x.
Proof.
  intros Hnd (l1 & l2 & -> & ->)%list_elem_of_split_length. rewrite delete_middle.
  rewrite fmap_app, fmap_cons, NoDup_app, NoDup_cons in Hnd. destruct Hnd as (_ & Hd & Hx & _).
  rewrite !elem_of_app, elem_of_cons. split.
  - intros [H|H].
    + split; [by left|]. intros Ef. apply (Hd (f y)); [by apply list_elem_of_fmap_2|].
      rewrite Ef. by left.
    + split; [by right; right|]. intros Ef. apply Hx. rewrite <-Ef.
      by apply list_elem_of_fmap_2.
  - intros [[H|[->|H]] Hne]; [by left|done|by right].
Qed.

Lemma elem_of_fmap_delete_keyed l i x k :
  NoDup (f <$> l) → l !! i = Some x → k ∈ f <$> delete i l ↔ k ∈ f <$> l ∧ k ≠ f x.
Proof.
  intros Hnd Hi. rewrite !list_elem_of_fmap. setoid_rewrite (elem_of_delete_keyed l i x _ Hnd Hi).
  naive_solver.
Qed.

Lemma NoDup_fmap_inj l x y : NoDup (f <$> l) → x ∈ l → y ∈ l → f x = f y → x = y.
Proof.
  intros Hnd [i Hi]%list_elem_of_lookup [j Hj]%list_elem_of_lookup E.
  enough (i = j) by congruence. eapply NoDup_lookup; [apply Hnd| |];
    rewrite list_lookup_fmap, ?Hi, ?Hj; simpl; [done|by rewrite E].
Qed.
End keyed_lists.

(** ** Sums over a map

    [msum f m] adds [f] over the values of [m]: the independent recomputation
    every incrementally maintained total of the program is compared with. *)

Definition msum {K} `{Countable K} {A} (f : A → N) (m : gmap K A) : N :=
  map_fold (λ _ x acc, f x + acc) 0 m.

Section msum.
Context {K : Type} `{Countable K} {A : Type}.
Implicit Types (m : gmap K A) (f g : A → N).

Lemma msum_empty f : msum f (∅ : gmap K A) = 0.
Proof. apply map_fold_empty. Qed.

Lemma msum_insert f m k x : m !! k = None → msum f (<[k:=x]> m) = f x + msum f m.
Proof.
  intros Hk. unfold msum. rewrite (map_fold_insert_L _ _ k x m); [done| |done].
  intros; simpl; lia.
Qed.

Lemma msum_delete f m k x : m !! k = Some x → msum f m = f x + msum f (delete k m).
Proof.
  intros Hk. rewrite <-(insert_delete_id m k x Hk) at 1.
  by rewrite msum_insert by apply lookup_delete_eq.
Qed.

Lemma msum_update f m k x y :
  m !! k = Some y → msum f (<[k:=x]> m) + f y = msum f m + f x.
Proof.
  intros Hk. rewrite (msum_delete f m k y Hk), <-insert_delete_eq.
  rewrite msum_insert by apply lookup_delete_eq. lia.
Qed.

Lemma msum_lookup_le f m k x : m !! k = Some x → f x ≤ msum f m.
Proof. intros Hk. rewrite (msum_delete f m k x Hk). lia. Qed.

Lemma msum_ext f g m :
  (∀ k x, m !! k = Some x → f x = g x) → msum f m = msum g m.
Proof.
  induction m as [|k x m Hk IH] using map_ind; intros E.
  { by rewrite !msum_empty. }
  rewrite !msum_insert by done. rewrite (E k x) by apply lookup_insert_eq.
  f_equal. apply IH. intros k' x' Hk'. apply (E k').
  rewrite lookup_insert_ne; [done|]. congruence.
Qed.

Lemma msum_bound f m b :
  (∀ k x, m !! k = Some x → f x ≤ b) → msum f m ≤ N.of_nat (size m) * b.
Proof.
  induction m as [|k x m Hk IH] using map_ind; intros Hb.
  { rewrite msum_empty. lia. }
  rewrite msum_insert, map_size_insert_None by done.
  pose proof (Hb k x (lookup_insert_eq m k x)).
  assert (msum f m ≤ N.of_nat (size m) * b); [|lia].
  apply IH. intros k' x' Hk'. apply (Hb k').
  rewrite lookup_insert_ne; [done|]. congruence.
Qed.

Lemma msum_zero f m : (∀ k x, m !! k = Some x → f x = 0) → msum f m = 0.
Proof.
  intros E. enough (msum f m ≤ N.of_nat (size m) * 0) by lia.
  apply msum_bound. intros k x Hk. by rewrite (E k x Hk).
Qed.

Lemma msum_pos f m : 0 < msum f m → ∃ k x, m !! k = Some x ∧ 0 < f x.
Proof.
  induction m as [|k x m Hk IH] using map_ind.
  { rewrite msum_empty. lia. }
  rewrite msum_insert by done. intros Hpos.
  destruct (decide (0 < f x)) as [Hx|Hx].
  { exists k, x. by rewrite lookup_insert_eq. }
  destruct IH as (k' & x' & Hk' & ?); [lia|]. exists k', x'.
  rewrite lookup_insert_ne; [done|]. congruence.
Qed.

Lemma msum_plus f g m : msum (λ x, f x + g x) m = msum f m + msum g m.
Proof.
  induction m as [|k x m Hk IH] using map_ind.
  { by rewrite !msum_empty. }
  rewrite !msum_insert by done. lia.
Qed.

Lemma msum_mono f g m :
  (∀ k x, m !! k = Some x → f x ≤ g x) → msum f m ≤ msum g m.
Proof.
  induction m as [|k x m Hk IH] using map_ind; intros Hle.
  { by rewrite !msum_empty. }
  rewrite !msum_insert by done.
  pose proof (Hle k x (lookup_insert_eq m k x)).
  assert (msum f m ≤ msum g m); [|lia].
  apply IH. intros k' x' Hk'. apply (Hle k').
  rewrite lookup_insert_ne; [done|]. congruence.
Qed.
End msum.

(** A sum over a map split by a key: over any duplicate-free list of keys that
    covers the entries, the sums per key add up to the whole. *)

Fixpoint lsum {A} (f : A → N) (l : list A) : N :=
  match l with [] => 0 | x :: l' => f x + lsum f l' end.

Lemma lsum_perm {A} (f : A → N) l l' : l ≡ₚ l' → lsum f l = lsum f l'.
Proof. induction 1; cbn; lia. Qed.

Lemma lsum_map {A B} (g : B → A) (f : A → N) l : lsum f (map g l) = lsum (λ x, f (g x)) l.
Proof. induction l as [|x l IH]; cbn; [done|]. by rewrite IH. Qed.

(** ** Maps read with a default

    A missing key counts as an entry that weighs nothing. *)

Section defaults.
Context {K : Type} `{Countable K} {A : Type}.

Lemma msum_default_le (f : A → N) (d : A) (m m' : gmap K A) :
  f d = 0 → (∀ k, f (default d (m !! k)) ≤ f (default d (m' !! k))) → msum f m ≤ msum f m'.
Proof.
  intros Hd. revert m'. induction m as [|k x m Hk IH] using map_ind; intros m' E.
  - rewrite msum_empty. lia.
  - rewrite msum_insert by done. pose proof (E k) as Ek. rewrite lookup_insert_eq in Ek. cbn in Ek.
    assert (∀ k', k' ≠ k → f (default d (m !! k')) ≤ f (default d (m' !! k'))) as Ene.
    { intros k' Hne. specialize (E k'). by rewrite lookup_insert_ne in E by done. }
    destruct (m' !! k) as [y|] eqn:Ey; cbn in Ek.
    + rewrite (msum_delete f m' k y Ey). apply N.add_le_mono; [done|]. apply IH. intros k'.
      destruct (decide (k' = k)) as [->|Hne]; [by rewrite Hk, lookup_delete_eq|].
      rewrite lookup_delete_ne by done. by apply Ene.
    + rewrite Hd in Ek. assert (msum f m ≤ msum f m') as Hm; [|lia]. apply IH. intros k'.
      destruct (decide (k' = k)) as [->|Hne]; [by rewrite Hk, Ey|by apply Ene].
Qed.

Lemma msum_default (f : A → N) (d : A) (m m' : gmap K A) :
  f d = 0 → (∀ k, f (default d (m !! k)) = f (default d (m' !! k))) → msum f m = msum f m'.
Proof.
  intros Hd E. apply N.le_antisymm; apply (msum_default_le f d); try done;
    intros k; rewrite E; lia.
Qed.

Lemma msum_insert_default (f : A → N) (d : A) (m : gmap K A) k x n :
  f d = 0 → f x = f (default d (m !! k)) + n → msum f (<[k := x]> m) = msum f m + n.
Proof.
  intros Hd E. destruct (m !! k) as [y|] eqn:Ey; cbn in E.
  - pose proof (msum_update f m k x y Ey). lia.
  - rewrite msum_insert by done. lia.
Qed.
End defaults.

Section partition.
Context {K : Type} `{Countable K} {A C : Type} `{EqDecision C}.
Implicit Types (m : gmap K A) (f : A → N) (key : A → C).

Lemma msum_lsum f m : msum f m = lsum (λ p, f p.2) (map_to_list m).
Proof.
  unfold msum. rewrite map_fold_foldr. induction (map_to_list m) as [|[k x] l IH]; [done|].
  cbn. by rewrite IH.
Qed.

Lemma lsum_values `{RustOrd K} f m : lsum f (btree_values m) = msum f m.
Proof.
  unfold btree_values. rewrite msum_lsum, <-(lsum_perm _ _ _ (btree_to_list_perm m)).
  apply lsum_map.
Qed.

Lemma lsum_ext {B} (f g : B → N) l : (∀ x, x ∈ l → f x = g x) → lsum f l = lsum g l.
Proof.
  induction l as [|x l IH]; intros E; [done|]. cbn. rewrite E by (by left). f_equal.
  apply IH. intros y Hy. apply E. by right.
Qed.

Lemma lsum_plus {B} (f g : B → N) l : lsum (λ x, f x + g x) l = lsum f l + lsum g l.
Proof. induction l as [|x l IH]; [done|]. cbn. lia. Qed.

Lemma lsum_zero {B} (l : list B) : lsum (λ _, 0) l = 0.
Proof. induction l as [|x l IH]; [done|]. by cbn. Qed.

Lemma lsum_single (c : C) (v : N) ks :
  NoDup ks → lsum (λ k, if decide (c = k) then v else 0) ks = if decide (c ∈ ks) then v else 0.
Proof.
  induction 1 as [|k ks Hk _ IH]; [done|]. cbn. rewrite IH.
  destruct (decide (c = k)) as [->|Hne].
  - rewrite (decide_True (P := k ∈ k :: ks)), decide_False by (done || by left). lia.
  - destruct (decide (c ∈ ks)).
    + rewrite decide_True by (by right). lia.
    + rewrite decide_False by (by rewrite elem_of_cons; intros [?|?]). lia.
Qed.

Lemma msum_partition f key m ks :
  NoDup ks → (∀ k x, m !! k = Some x → key x ∈ ks) →
  lsum (λ c, msum (λ x, if decide (key x = c) then f x else 0) m) ks = msum f m.
Proof.
  intros Hks. induction m as [|k x m Hk IH] using map_ind; intros Hin.
  - rewrite msum_empty. rewrite <-(lsum_zero ks). apply lsum_ext. intros. by rewrite msum_empty.
  - rewrite msum_insert by done.
    rewrite <-IH.
    + rewrite <-(decide_True (P := key x ∈ ks) (f x) 0)
        by (by apply (Hin k); rewrite lookup_insert_eq).
      rewrite <-lsum_single, <-lsum_plus by done. apply lsum_ext. intros c _.
      by rewrite msum_insert.
    + intros k' y Hy. apply (Hin k'). rewrite lookup_insert_ne; [done|]. congruence.
Qed.
End partition.
