(* ===== verification/Contract.v ===== *)
(** * The contract vocabulary

    The data of crates/taskmesh-contract: class policies (policy.rs), resource
    budgets and unit conversion (resource.rs), tasks and scopes (task.rs),
    verdicts and errors (verdict.rs), execution phases (snapshot.rs) and the
    substrate vocabulary (the part of topology.rs the engine reads).  Strings are
    Rocq strings, one [ascii] per UTF-8 byte. *)

From S2P Require Import Prelude.

(** The newtypes over a borrowed-or-owned string. *)
Abbreviation TaskClass := string (only parsing).
Abbreviation TaskStage := string (only parsing).
Abbreviation PlanSource := string (only parsing).

(** ** Resources: resource.rs *)

Inductive ResourceConversionError :=
  | UnscaledMemoryUnits
  | MemoryUnitsOverflow (bytes bytes_per_unit : N).
#[export] Instance ResourceConversionError_eq_dec : EqDecision ResourceConversionError.
Proof. solve_decision. Defined.

Record PermitCost := mkPermitCost { pc_cpu_units : N; pc_memory_units : N }.
#[export] Instance PermitCost_eq_dec : EqDecision PermitCost.
Proof. solve_decision. Defined.

Record MemoryUnitScale := mkMemoryUnitScale { bytes_per_unit : N }.
#[export] Instance MemoryUnitScale_eq_dec : EqDecision MemoryUnitScale.
Proof. solve_decision. Defined.

Definition MemoryUnitScale_default : MemoryUnitScale := mkMemoryUnitScale 1.

(** [MemoryUnitScale::units_for]: bytes to units, rounding up, checked on both
    edges. *)
Definition units_for (scale : MemoryUnitScale) (bytes : N) : ResourceConversionError + N :=
  if decide (bytes_per_unit scale = 0) then inl UnscaledMemoryUnits
  else
    let units := div_ceil bytes (bytes_per_unit scale) in
    if decide (units ≤ U32_MAX) then inr units
    else inl (MemoryUnitsOverflow bytes (bytes_per_unit scale)).

Record ResourceBudget := mkResourceBudget {
  max_cpu_units : N;
  max_memory_units : N;
  per_request_max_cpu_units : N;
  per_request_max_memory_units : N;
  memory_unit_scale : MemoryUnitScale;
}.

Definition ResourceBudget_new : ResourceBudget :=
  mkResourceBudget 0 0 0 0 MemoryUnitScale_default.

(** ** Policies: policy.rs *)

Inductive FairnessPolicy :=
  | Fifo
  | WeightedFairQueue (weight burst : N)
  | DeficitRoundRobin (quantum : N)
  | DeadlineAware (slack_ms : N)
  | BestEffortScavenger.
#[export] Instance FairnessPolicy_eq_dec : EqDecision FairnessPolicy.
Proof. solve_decision. Defined.

Inductive MemoryPermitMode := Estimated | Measured | Hybrid.
#[export] Instance MemoryPermitMode_eq_dec : EqDecision MemoryPermitMode.
Proof. solve_decision. Defined.

Inductive MemoryReleasePolicy := OnTaskCompletion | OnStageBoundary | LeakDetecting.
#[export] Instance MemoryReleasePolicy_eq_dec : EqDecision MemoryReleasePolicy.
Proof. solve_decision. Defined.

Inductive MemoryOvercommitPolicy :=
  | OvercommitReject
  | OvercommitQueue
  | DegradeToLight (fallback_class : TaskClass).
#[export] Instance MemoryOvercommitPolicy_eq_dec : EqDecision MemoryOvercommitPolicy.
Proof. solve_decision. Defined.

Record CheckpointPolicy := mkCheckpointPolicy {
  every_n_work_items : option N;
  before_fan_out : bool;
  before_large_allocation : bool;
  before_stage_boundary : bool;
  before_reduce : bool;
}.

Definition CheckpointPolicy_default : CheckpointPolicy :=
  mkCheckpointPolicy None true true true true.

Inductive DuplicateMergePolicy := KeepFirstStable | KeepLastStable | StableFold.
Inductive TieBreakPolicy := StableInputOrder | Lexicographic | DeterministicHash.
Inductive ErrorAggregationPolicy := FirstStable | AllStable.
Inductive PartialResultOrdering := StableSortKey | StableStageOrder.
#[export] Instance DuplicateMergePolicy_eq_dec : EqDecision DuplicateMergePolicy.
Proof. solve_decision. Defined.
#[export] Instance TieBreakPolicy_eq_dec : EqDecision TieBreakPolicy.
Proof. solve_decision. Defined.
#[export] Instance ErrorAggregationPolicy_eq_dec : EqDecision ErrorAggregationPolicy.
Proof. solve_decision. Defined.
#[export] Instance PartialResultOrdering_eq_dec : EqDecision PartialResultOrdering.
Proof. solve_decision. Defined.

Record DeterministicReducePolicy := mkReducePolicy {
  stable_sort_key : string;
  duplicate_merge : DuplicateMergePolicy;
  tie_break : TieBreakPolicy;
  error_aggregation : ErrorAggregationPolicy;
  partial_result_ordering : PartialResultOrdering;
}.
#[export] Instance DeterministicReducePolicy_eq_dec : EqDecision DeterministicReducePolicy.
Proof. solve_decision. Defined.

(** [DeterministicReducePolicy::keyed]. *)
Definition reduce_keyed (key : string) : DeterministicReducePolicy :=
  mkReducePolicy key KeepFirstStable StableInputOrder FirstStable StableSortKey.

Inductive OverflowPolicy := OverflowReject | QueueWithinDepth | DropBestEffort.
#[export] Instance OverflowPolicy_eq_dec : EqDecision OverflowPolicy.
Proof. solve_decision. Defined.

(** [OverflowPolicy::is_queueable]. *)
Definition is_queueable (p : OverflowPolicy) : bool :=
  match p with QueueWithinDepth => true | _ => false end.

Inductive RetryAfterPolicy := RetryNone | FixedMs (value : N) | Adaptive.
Inductive CancellationPolicy := PreSubmitOnly | Cooperative | CooperativeWithDeadline.
#[export] Instance RetryAfterPolicy_eq_dec : EqDecision RetryAfterPolicy.
Proof. solve_decision. Defined.
#[export] Instance CancellationPolicy_eq_dec : EqDecision CancellationPolicy.
Proof. solve_decision. Defined.

Record ClassPolicy := mkClassPolicy {
  max_inflight : N;
  max_queue_depth : N;
  permit_cost : PermitCost;
  fairness : FairnessPolicy;
  memory_permit_mode : MemoryPermitMode;
  memory_release_policy : MemoryReleasePolicy;
  memory_overcommit_policy : MemoryOvercommitPolicy;
  overflow_policy : OverflowPolicy;
  retry_after_policy : RetryAfterPolicy;
  cancellation_policy : CancellationPolicy;
  checkpoint_policy : CheckpointPolicy;
  best_effort : bool;
}.

Definition ClassPolicy_default : ClassPolicy := {|
  max_inflight := U32_MAX;
  max_queue_depth := 0;
  permit_cost := mkPermitCost 0 0;
  fairness := Fifo;
  memory_permit_mode := Estimated;
  memory_release_policy := OnTaskCompletion;
  memory_overcommit_policy := OvercommitReject;
  overflow_policy := OverflowReject;
  retry_after_policy := RetryNone;
  cancellation_policy := PreSubmitOnly;
  checkpoint_policy := CheckpointPolicy_default;
  best_effort := false;
|}.

(** [ClassPolicy::is_disabled]: the class admits nothing. *)
Definition is_disabled (p : ClassPolicy) : bool := bool_decide (max_inflight p = 0).

(** The widths of the fields: what the Rust types guarantee of any value. *)
Record policy_typed (p : ClassPolicy) : Prop := {
  typed_max_inflight : max_inflight p ≤ U32_MAX;
  typed_max_queue_depth : max_queue_depth p ≤ U32_MAX;
  typed_cpu_units : pc_cpu_units (permit_cost p) ≤ U32_MAX;
  typed_memory_units : pc_memory_units (permit_cost p) ≤ U32_MAX;
  typed_fairness :
    match fairness p with
    | WeightedFairQueue w b => w ≤ U32_MAX ∧ b ≤ U32_MAX
    | DeficitRoundRobin q => q ≤ U32_MAX
    | DeadlineAware s => s ≤ U64_MAX
    | _ => True
    end;
}.

(** ** Substrates: topology.rs *)

Inductive SubstrateKind :=
  | AuthorityOnly | CompetingExecution | MaintenanceOnly | RetireOrMigrate.
#[export] Instance SubstrateKind_eq_dec : EqDecision SubstrateKind.
Proof. solve_decision. Defined.

Inductive SubstrateHint :=
  | AsyncIo | BlockingPool | SharedCpuExecutor | LargeStackCapability
  | LocalRuntime | BackgroundOnly.
#[export] Instance SubstrateHint_eq_dec : EqDecision SubstrateHint.
Proof. solve_decision. Defined.

(** [SubstrateHint::capability_pool]: the built-in pool of a hint. *)
Definition hint_capability_pool (h : SubstrateHint) : option string :=
  match h with
  | AsyncIo => None
  | BlockingPool => Some "blocking"
  | SharedCpuExecutor => Some "cpu"
  | LargeStackCapability => Some "large_stack"
  | LocalRuntime => Some "local_runtime"
  | BackgroundOnly => Some "maintenance"
  end%string.

Record SubstrateRecord := mkSubstrateRecord {
  sr_name : string;
  sr_kind : SubstrateKind;
  sr_capability_pool : option string;
}.
#[export] Instance SubstrateRecord_eq_dec : EqDecision SubstrateRecord.
Proof. solve_decision. Defined.

(** ** Tasks: task.rs *)

Inductive ClassificationRationale :=
  | ExplicitMapping | DerivedFromRequestKind | DerivedFromStageMap.
#[export] Instance ClassificationRationale_eq_dec : EqDecision ClassificationRationale.
Proof. solve_decision. Defined.

Inductive TaskScope :=
  | Root
  | Child (parent_operation_id : string) (parent_stage : TaskStage) (parent_awaits : bool).
#[export] Instance TaskScope_eq_dec : EqDecision TaskScope.
Proof. solve_decision. Defined.

(** [matches!(scope, TaskScope::Child { .. })] and, for the second,
    [TaskScope::Child { parent_awaits: true, .. }]. *)
Definition is_child (sc : TaskScope) : bool :=
  match sc with Child _ _ _ => true | Root => false end.
Definition is_awaited_child (sc : TaskScope) : bool :=
  match sc with Child _ _ true => true | _ => false end.

Record StageDescriptor := mkStage {
  sd_class : TaskClass;
  sd_stage : TaskStage;
  sd_substrate_hint : SubstrateHint;
  sd_fan_out : bool;
  sd_reduce_policy : option DeterministicReducePolicy;
}.
#[export] Instance StageDescriptor_eq_dec : EqDecision StageDescriptor.
Proof. solve_decision. Defined.

Record TaskSpec := mkTaskSpec {
  ts_class : TaskClass;
  ts_operation : string;
  ts_root_operation_id : string;
  ts_source : PlanSource;
  ts_reason : ClassificationRationale;
  ts_scope : TaskScope;
  ts_stack_size_bytes : option N;
  ts_stages : list StageDescriptor;
}.

(** [TaskSpec::base] and the named constructors. *)
Definition bootstrap_stage (hint : SubstrateHint) : TaskStage :=
  match hint with
  | AsyncIo => "io"
  | BlockingPool => "blocking"
  | SharedCpuExecutor => "cpu"
  | LargeStackCapability => "large_stack"
  | LocalRuntime => "local_runtime"
  | BackgroundOnly => "background"
  end%string.

Definition task_base (class : TaskClass) (hint : SubstrateHint) : TaskSpec := {|
  ts_class := class;
  ts_operation := "";
  ts_root_operation_id := "";
  ts_source := "internal";
  ts_reason := ExplicitMapping;
  ts_scope := Root;
  ts_stack_size_bytes := None;
  ts_stages := [mkStage class (bootstrap_stage hint) hint false None];
|}.

(** [TaskSpec::operation]: names the operation, and re-roots a root task only. *)
Definition with_operation (name : string) (t : TaskSpec) : TaskSpec := {|
  ts_class := ts_class t;
  ts_operation := name;
  ts_root_operation_id :=
    match ts_scope t with Root => name | Child _ _ _ => ts_root_operation_id t end;
  ts_source := ts_source t;
  ts_reason := ts_reason t;
  ts_scope := ts_scope t;
  ts_stack_size_bytes := ts_stack_size_bytes t;
  ts_stages := ts_stages t;
|}.

Definition with_scope (root parent : string) (stage : TaskStage) (awaits : bool)
    (t : TaskSpec) : TaskSpec := {|
  ts_class := ts_class t;
  ts_operation := ts_operation t;
  ts_root_operation_id := root;
  ts_source := ts_source t;
  ts_reason := ts_reason t;
  ts_scope := Child parent stage awaits;
  ts_stack_size_bytes := ts_stack_size_bytes t;
  ts_stages := ts_stages t;
|}.

(** [TaskSpec::child_of] and [TaskSpec::awaited_child_of]. *)
Definition child_of (root parent : string) (stage : TaskStage) : TaskSpec → TaskSpec :=
  with_scope root parent stage false.
Definition awaited_child_of (root parent : string) (stage : TaskStage) : TaskSpec → TaskSpec :=
  with_scope root parent stage true.

Definition push_stage (sd : StageDescriptor) (t : TaskSpec) : TaskSpec := {|
  ts_class := ts_class t;
  ts_operation := ts_operation t;
  ts_root_operation_id := ts_root_operation_id t;
  ts_source := ts_source t;
  ts_reason := ts_reason t;
  ts_scope := ts_scope t;
  ts_stack_size_bytes := ts_stack_size_bytes t;
  ts_stages := ts_stages t ++ [sd];
|}.

(** [TaskSpec::stage], [TaskSpec::reduce_stage] and [TaskSpec::fan_out_stage]. *)
Definition add_stage (stage : TaskStage) (hint : SubstrateHint) (t : TaskSpec) : TaskSpec :=
  push_stage (mkStage (ts_class t) stage hint false None) t.
Definition add_reduce_stage (stage : TaskStage) (hint : SubstrateHint)
    (p : DeterministicReducePolicy) (t : TaskSpec) : TaskSpec :=
  push_stage (mkStage (ts_class t) stage hint true (Some p)) t.
Definition add_fan_out_stage (stage : TaskStage) (hint : SubstrateHint) (t : TaskSpec) : TaskSpec :=
  push_stage (mkStage (ts_class t) stage hint true None) t.

(** [TaskSpec::primary_substrate_hint]. *)
Definition primary_substrate_hint (t : TaskSpec) : SubstrateHint :=
  match ts_stages t with [] => AsyncIo | s :: _ => sd_substrate_hint s end.

(** ** Phases: snapshot.rs *)

Inductive ExecutionPhase := DispatchReserved | Accepted | Running | CleanupPending.
#[export] Instance ExecutionPhase_eq_dec : EqDecision ExecutionPhase.
Proof. solve_decision. Defined.

(** [ExecutionPhase::rank] and [ExecutionPhase::has_started]. *)
Definition rank (p : ExecutionPhase) : N :=
  match p with DispatchReserved => 0 | Accepted => 1 | Running => 2 | CleanupPending => 3 end.
Definition has_started (p : ExecutionPhase) : bool :=
  match p with Running | CleanupPending => true | _ => false end.

(** ** Verdicts: verdict.rs *)

Inductive HeldCapacity :=
  | ClassInflight (class : TaskClass)
  | CapabilityPool (pool : string)
  | CpuBudget
  | MemoryBudget.
#[export] Instance HeldCapacity_eq_dec : EqDecision HeldCapacity.
Proof. solve_decision. Defined.

Inductive AdmissionVerdict :=
  | VAdmitted
  | QueueFull (retry_after_ms : option N)
  | CpuSaturated (retry_after_ms : option N)
  | MemorySaturated (retry_after_ms : option N)
  | ClassDisabled
  | UnknownClass (class : TaskClass)
  | RuntimeUnavailable
  | ClassificationFailed
  | PermitAcquireTimedOut (retry_after_ms : option N)
  | CancelledBeforeSubmit
  | DeadlineExpiredBeforeSubmit
  | RecursiveAdmission
  | MalformedTask
  | SubstrateMismatch
  | SubstratePoolTimedOut (retry_after_ms : option N)
  | SubstrateSaturated (retry_after_ms : option N)
  | NestedWaitCycle (held_by_root : HeldCapacity)
  | IdentityExhausted.
#[export] Instance AdmissionVerdict_eq_dec : EqDecision AdmissionVerdict.
Proof. solve_decision. Defined.

(** [AdmissionVerdict::retry_after_ms]. *)
Definition verdict_retry_after_ms (v : AdmissionVerdict) : option N :=
  match v with
  | QueueFull r | CpuSaturated r | MemorySaturated r | PermitAcquireTimedOut r
  | SubstratePoolTimedOut r | SubstrateSaturated r => r
  | _ => None
  end.

Inductive TerminalReason :=
  | Reclaimed
  | Released
  | Abandoned
  | ClaimDeliveryFailed
  | IrreversibleWaitCycleTerminal (held_by_parent : HeldCapacity)
  | AccountingFaultTerminal.
#[export] Instance TerminalReason_eq_dec : EqDecision TerminalReason.
Proof. solve_decision. Defined.

(** ** Facts *)

Lemma units_for_inr scale bytes u :
  units_for scale bytes = inr u →
  bytes_per_unit scale ≠ 0 ∧ u = div_ceil bytes (bytes_per_unit scale) ∧ u ≤ U32_MAX.
Proof. unfold units_for. repeat case_decide; naive_solver. Qed.

Lemma rank_inj p q : rank p = rank q → p = q.
Proof. by destruct p, q. Qed.

Lemma has_started_mono p q : has_started p = true → rank p ≤ rank q → has_started q = true.
Proof. by destruct p, q. Qed.
