(* ===== verification/Text.v ===== *)
(** * Text: what the program does with [str]

    [str::char_indices], [str::trim] and [char::is_ascii_alphanumeric] over
    strings held as UTF-8 bytes.  Rust guarantees that a [str] is valid UTF-8, so
    what [chars_from] yields on a truncated sequence is never observed. *)

From S2P Require Import Prelude.

Definition byte_of (a : Ascii.ascii) : N := Ascii.N_of_ascii a.

(** [char_indices]: byte offset and scalar value of each character. *)
Fixpoint chars_from (off : N) (s : string) : list (N * N) :=
  match s with
  | EmptyString => []
  | String a s1 =>
    let b0 := byte_of a in
    if decide (b0 < 128) then (off, b0) :: chars_from (off + 1) s1
    else match s1 with
    | EmptyString => [(off, 65533)]
    | String a1 s2 =>
      let c1 := byte_of a1 `mod` 64 in
      if decide (b0 < 224) then (off, (b0 `mod` 32) * 64 + c1) :: chars_from (off + 2) s2
      else match s2 with
      | EmptyString => [(off, 65533)]
      | String a2 s3 =>
        let c2 := byte_of a2 `mod` 64 in
        if decide (b0 < 240) then
          (off, (b0 `mod` 16) * 4096 + c1 * 64 + c2) :: chars_from (off + 3) s3
        else match s3 with
        | EmptyString => [(off, 65533)]
        | String a3 s4 =>
          let c3 := byte_of a3 `mod` 64 in
          (off, (b0 `mod` 8) * 262144 + c1 * 4096 + c2 * 64 + c3) :: chars_from (off + 4) s4
        end
      end
    end
  end.

Definition char_indices (s : string) : list (N * N) := chars_from 0 s.
Definition chars (s : string) : list N := (char_indices s).*2.

(** [str::len]: bytes. *)
Definition str_len (s : string) : N := N.of_nat (String.length s).

(** [char::is_whitespace]: the Unicode [White_Space] property. *)
Definition is_whitespace (c : N) : bool :=
  bool_decide (9 ≤ c ∧ c ≤ 13) || (c =? 32) || (c =? 133) || (c =? 160) || (c =? 5760)
  || bool_decide (8192 ≤ c ∧ c ≤ 8202) || (c =? 8232) || (c =? 8233) || (c =? 8239)
  || (c =? 8287) || (c =? 12288).

(** [char::is_ascii_alphanumeric]. *)
Definition is_ascii_alphanumeric (c : N) : bool :=
  bool_decide (48 ≤ c ∧ c ≤ 57) || bool_decide (65 ≤ c ∧ c ≤ 90)
  || bool_decide (97 ≤ c ∧ c ≤ 122).

Fixpoint drop_while {A} (f : A → bool) (l : list A) : list A :=
  match l with
  | [] => []
  | x :: l' => if f x then drop_while f l' else l
  end.

(** [str::trim], on the characters of the string. *)
Definition trim (l : list N) : list N :=
  reverse (drop_while is_whitespace (reverse (drop_while is_whitespace l))).

(** [s.trim().is_empty()]. *)
Definition is_blank (s : string) : bool := bool_decide (trim (chars s) = []).

(** ** Facts *)

Lemma drop_while_id {A} (f : A → bool) l :
  Forall (λ x, f x = false) l → drop_while f l = l.
Proof. destruct 1 as [|x l Hx _]; simpl; [done|]. by rewrite Hx. Qed.

(** Text without white space is its own trim. *)
Lemma trim_id l : Forall (λ c, is_whitespace c = false) l → trim l = l.
Proof.
  intros Hl. unfold trim. rewrite (drop_while_id _ l Hl).
  rewrite (drop_while_id _ (reverse l)) by (by apply Forall_reverse).
  apply reverse_involutive.
Qed.

Lemma drop_while_nil {A} (f : A → bool) l :
  drop_while f l = [] ↔ Forall (λ x, f x = true) l.
Proof.
  induction l as [|x l IH]; simpl; [done|]. rewrite Forall_cons.
  destruct (f x) eqn:E; [rewrite IH; naive_solver|naive_solver].
Qed.

Lemma drop_while_head {A} (f : A → bool) l x l' :
  drop_while f l = x :: l' → f x = false.
Proof.
  induction l as [|y l IH]; simpl; [done|]. destruct (f y) eqn:E; [done|]. naive_solver.
Qed.

(** The blank strings are exactly the ones made of white space. *)
Lemma trim_nil l : trim l = [] ↔ Forall (λ c, is_whitespace c = true) l.
Proof.
  unfold trim. rewrite <-(drop_while_nil is_whitespace l).
  destruct (drop_while is_whitespace l) as [|x l'] eqn:E; [done|].
  split; [|done]. intros Hr.
  apply (f_equal reverse) in Hr. rewrite reverse_involutive in Hr.
  change (reverse []) with (@nil N) in Hr.
  apply drop_while_nil, Forall_reverse in Hr.
  rewrite reverse_involutive in Hr.
  apply Forall_cons in Hr as [Hx _]. apply drop_while_head in E. congruence.
Qed.
