(* ===== verification/Validation.v ===== *)
(** * Task plans: validation.rs

    crates/taskmesh-contract/src/validation.rs: the identifier rule, the validator
    of raw task plans and the type of validated plans.  [plan_wf] is the contract
    a plan has to meet, stated without the order in which the validator looks. *)

From S2P Require Import Prelude Contract Text.

Definition MAX_TASK_IDENTIFIER_LEN : N := 128.

(** ** Errors *)

Inductive TaskIdentifierField :=
  | FieldPlanSource
  | FieldClass
  | FieldOperation
  | FieldRootOperationId
  | FieldParentOperationId
  | FieldParentStage
  | FieldStage (index : nat)
  | FieldReduceKey (index : nat).

Inductive IdentifierViolation :=
  | IdentifierEmpty
  | SurroundingWhitespace
  | TooLong (actual max : N)
  | InvalidCharacter (byte_offset character : N).

Inductive TaskPlanError :=
  | InvalidIdentifier (field : TaskIdentifierField) (violation : IdentifierViolation)
  | NoStages
  | RootIdentityMismatch
  | ChildOperationMatchesRoot
  | ParentOperationMatchesChild
  | DuplicateStage (stage : TaskStage)
  | ConflictingStage (stage : TaskStage)
  | StageClassMismatch (stage : TaskStage)
  | MissingReducePolicy (stage : TaskStage)
  | UnexpectedReducePolicy (stage : TaskStage).

(** ** Identifiers *)

(** [is_identifier_character]: ASCII alphanumerics and [- _ . : /]. *)
Definition is_identifier_character (c : N) : bool :=
  is_ascii_alphanumeric c || (c =? 45) || (c =? 95) || (c =? 46) || (c =? 58) || (c =? 47).

(** The violation [validate_identifier] computes, if any. *)
Definition identifier_violation (value : string) : option IdentifierViolation :=
  if decide (value = ""%string) then Some IdentifierEmpty
  else if negb (bool_decide (trim (chars value) = chars value)) then Some SurroundingWhitespace
  else if decide (MAX_TASK_IDENTIFIER_LEN < str_len value)
  then Some (TooLong (str_len value) MAX_TASK_IDENTIFIER_LEN)
  else (λ '(byte_offset, character), InvalidCharacter byte_offset character) <$>
    List.find (λ '(_, character), negb (is_identifier_character character)) (char_indices value).

(** [validate_identifier]. *)
Definition validate_identifier (field : TaskIdentifierField) (value : string)
  : TaskPlanError + () :=
  match identifier_violation value with
  | Some violation => inl (InvalidIdentifier field violation)
  | None => inr ()
  end.

(** [TaskClass::validate] and [PlanSource::new]. *)
Definition class_validate (class : TaskClass) : TaskPlanError + () :=
  validate_identifier FieldClass class.
Definition PlanSource_new (value : string) : TaskPlanError + PlanSource :=
  _ ← validate_identifier FieldPlanSource value; inr value.

(** ** Plans *)

(** The scope part of [validate_task_spec]. *)
Definition validate_scope (spec : TaskSpec) : TaskPlanError + () :=
  match ts_scope spec with
  | Root =>
    if decide (ts_operation spec = ts_root_operation_id spec) then inr ()
    else inl RootIdentityMismatch
  | Child parent_operation_id parent_stage _ =>
    _ ← validate_identifier FieldParentOperationId parent_operation_id;
    _ ← validate_identifier FieldParentStage parent_stage;
    if decide (ts_operation spec = ts_root_operation_id spec) then inl ChildOperationMatchesRoot
    else if decide (ts_operation spec = parent_operation_id)
    then inl ParentOperationMatchesChild
    else inr ()
  end.

(** The reduce part of one stage: a policy exactly on a fan-out, its key valid. *)
Definition validate_stage_reduce (index : nat) (d : StageDescriptor) : TaskPlanError + () :=
  match sd_fan_out d, sd_reduce_policy d with
  | true, None => inl (MissingReducePolicy (sd_stage d))
  | false, Some _ => inl (UnexpectedReducePolicy (sd_stage d))
  | _, Some policy => validate_identifier (FieldReduceKey index) (stable_sort_key policy)
  | false, None => inr ()
  end.

(** The stage loop, from [index] on, with the descriptors already seen. *)
Fixpoint validate_stages (class : TaskClass) (index : nat)
    (stages : gmap string StageDescriptor) (ds : list StageDescriptor) : TaskPlanError + () :=
  match ds with
  | [] => inr ()
  | d :: ds' =>
    _ ← validate_identifier (FieldStage index) (sd_stage d);
    match stages !! sd_stage d with
    | Some previous =>
      if decide (previous = d) then inl (DuplicateStage (sd_stage d))
      else inl (ConflictingStage (sd_stage d))
    | None =>
      if decide (sd_class d = class) then
        _ ← validate_stage_reduce index d;
        validate_stages class (S index) (<[sd_stage d := d]> stages) ds'
      else inl (StageClassMismatch (sd_stage d))
    end
  end.

(** [validate_task_spec]. *)
Definition validate_task_spec (spec : TaskSpec) : TaskPlanError + () :=
  _ ← validate_identifier FieldClass (ts_class spec);
  _ ← validate_identifier FieldOperation (ts_operation spec);
  _ ← validate_identifier FieldRootOperationId (ts_root_operation_id spec);
  _ ← validate_scope spec;
  if decide (ts_stages spec = []) then inl NoStages
  else validate_stages (ts_class spec) 0 ∅ (ts_stages spec).

(** [TaskSpec::validate_borrowed], and [ValidatedTaskPlan::try_from], the only
    constructor of a [ValidatedTaskPlan]. *)
Definition validate_borrowed (spec : TaskSpec) : TaskPlanError + () := validate_task_spec spec.

Record ValidatedTaskPlan := mkValidated { as_spec : TaskSpec }.

Definition ValidatedTaskPlan_try_from (spec : TaskSpec) : TaskPlanError + ValidatedTaskPlan :=
  _ ← validate_task_spec spec; inr (mkValidated spec).

(** ** The identifier rule *)

Definition identifier (value : string) : Prop :=
  value ≠ ""%string ∧ str_len value ≤ MAX_TASK_IDENTIFIER_LEN ∧
  Forall (λ c, is_identifier_character c = true) (chars value).

Lemma identifier_character_not_space c :
  is_identifier_character c = true → is_whitespace c = false.
Proof.
  unfold is_identifier_character, is_ascii_alphanumeric, is_whitespace.
  rewrite !orb_true_iff, !bool_decide_eq_true, !N.eqb_eq. intros H.
  rewrite !orb_false_iff, !bool_decide_eq_false, !N.eqb_neq. lia.
Qed.

Lemma list_find_none {A} (f : A → bool) (l : list A) :
  List.find f l = None ↔ Forall (λ x, f x = false) l.
Proof.
  induction l as [|x l IH]; cbn; [done|]. rewrite Forall_cons.
  destruct (f x) eqn:E; naive_solver.
Qed.

Lemma identifier_violation_none value : identifier_violation value = None ↔ identifier value.
Proof.
  unfold identifier_violation, identifier.
  case_decide as He; [naive_solver|].
  destruct (bool_decide_reflect (trim (chars value) = chars value)) as [Et|Et]; cbn.
  - case_decide as Hl.
    { split; [done|]. intros (_ & H & _). lia. }
    rewrite fmap_None, list_find_none.
    unfold chars. rewrite Forall_fmap.
    assert (∀ P Q : Prop, (P ↔ Q) → (P ↔ value ≠ ""%string ∧ str_len value ≤
      MAX_TASK_IDENTIFIER_LEN ∧ Q)) as Hx by (intros; split; [|naive_solver]; intros; split_and!; [done|lia|naive_solver]).
    apply Hx. apply Forall_iff. intros [off c]. cbn. by rewrite negb_false_iff.
  - split; [done|]. intros (_ & _ & Hc). destruct Et.
    apply trim_id. eapply Forall_impl; [done|]. intros c. apply identifier_character_not_space.
Qed.

Lemma validate_identifier_inr field value :
  validate_identifier field value = inr () ↔ identifier value.
Proof.
  rewrite <-identifier_violation_none. unfold validate_identifier.
  destruct (identifier_violation value); naive_solver.
Qed.

#[export] Instance identifier_dec value : Decision (identifier value).
Proof. unfold identifier. apply _. Defined.

(** ** The contract of a plan *)

Definition scope_wf (spec : TaskSpec) : Prop :=
  match ts_scope spec with
  | Root => ts_operation spec = ts_root_operation_id spec
  | Child parent_operation_id parent_stage _ =>
    identifier parent_operation_id ∧ identifier parent_stage ∧
    ts_operation spec ≠ ts_root_operation_id spec ∧ ts_operation spec ≠ parent_operation_id
  end.

Definition stage_wf (class : TaskClass) (d : StageDescriptor) : Prop :=
  identifier (sd_stage d) ∧ sd_class d = class ∧
  (sd_fan_out d = true ↔ is_Some (sd_reduce_policy d)) ∧
  (∀ p, sd_reduce_policy d = Some p → identifier (stable_sort_key p)).

Record plan_wf (spec : TaskSpec) : Prop := {
  plan_class : identifier (ts_class spec);
  plan_operation : identifier (ts_operation spec);
  plan_root : identifier (ts_root_operation_id spec);
  plan_scope : scope_wf spec;
  plan_some_stage : ts_stages spec ≠ [];
  plan_stages : Forall (stage_wf (ts_class spec)) (ts_stages spec);
  plan_distinct : NoDup (map sd_stage (ts_stages spec));
}.

Lemma validate_scope_inr spec : validate_scope spec = inr () ↔ scope_wf spec.
Proof.
  unfold validate_scope, scope_wf. destruct (ts_scope spec) as [|parent stage awaits].
  { case_decide; naive_solver. }
  rewrite <-(validate_identifier_inr FieldParentOperationId parent).
  rewrite <-(validate_identifier_inr FieldParentStage stage).
  destruct (validate_identifier _ parent) as [|[]]; cbn; [naive_solver|].
  destruct (validate_identifier _ stage) as [|[]]; cbn; [naive_solver|].
  repeat case_decide; naive_solver.
Qed.

Lemma validate_stage_reduce_inr index d :
  validate_stage_reduce index d = inr () ↔
  (sd_fan_out d = true ↔ is_Some (sd_reduce_policy d)) ∧
  (∀ p, sd_reduce_policy d = Some p → identifier (stable_sort_key p)).
Proof.
  unfold validate_stage_reduce.
  destruct (sd_fan_out d), (sd_reduce_policy d) as [p|];
    rewrite ?validate_identifier_inr, ?is_Some_alt; naive_solver.
Qed.

Lemma validate_stages_inr class index stages ds :
  validate_stages class index stages ds = inr () ↔
  Forall (stage_wf class) ds ∧ NoDup (map sd_stage ds) ∧
  Forall (λ d, stages !! sd_stage d = None) ds.
Proof.
  revert index stages. induction ds as [|d ds IH]; intros index stages; cbn.
  { split; [|done]. intros _. split_and!; constructor. }
  rewrite !Forall_cons, NoDup_cons. unfold stage_wf at 1.
  rewrite <-(validate_identifier_inr (FieldStage index) (sd_stage d)).
  destruct (validate_identifier _ _) as [|[]]; cbn; [naive_solver|].
  destruct (stages !! sd_stage d) as [previous|] eqn:E; [case_decide; naive_solver|].
  case_decide as Hc; [|naive_solver].
  rewrite <-(validate_stage_reduce_inr index d).
  destruct (validate_stage_reduce index d) as [|[]]; cbn; [naive_solver|].
  rewrite IH.
  assert (Forall (λ d', <[sd_stage d:=d]> stages !! sd_stage d' = None) ds ↔
    sd_stage d ∉ map sd_stage ds ∧ Forall (λ d', stages !! sd_stage d' = None) ds) as ->;
    [|naive_solver].
  rewrite !Forall_forall, list_elem_of_fmap. setoid_rewrite lookup_insert_None. naive_solver.
Qed.

Lemma validate_task_spec_inr spec : validate_task_spec spec = inr () ↔ plan_wf spec.
Proof.
  unfold validate_task_spec. rewrite !result_bind_inr.
  split.
  - intros ([] & H1 & H). rewrite result_bind_inr in H. destruct H as ([] & H2 & H).
    rewrite result_bind_inr in H. destruct H as ([] & H3 & H).
    rewrite result_bind_inr in H. destruct H as ([] & H4 & H).
    case_decide as Hs; [done|]. apply validate_stages_inr in H as (? & ? & _).
    split; try done; by rewrite <-?validate_scope_inr, <-?validate_identifier_inr.
  - intros [H1 H2 H3 H4 H5 H6 H7]. exists (). split; [by apply validate_identifier_inr|].
    rewrite (proj2 (validate_identifier_inr _ _) H2), (proj2 (validate_identifier_inr _ _) H3).
    cbn. rewrite (proj2 (validate_scope_inr _) H4). cbn. rewrite decide_False by done.
    apply validate_stages_inr. split_and!; [done..|]. by apply Forall_true.
Qed.

(** ** The properties *)

(** [validate_identifier] accepts exactly the non-empty strings of at most 128
    bytes over the identifier alphabet; a refusal names the field asked about and
    what is wrong: in particular the first offending character, with its byte
    offset. *)
Theorem validate_identifier_correct field value :
  match validate_identifier field value with
  | inr () => identifier value
  | inl (InvalidIdentifier field' violation) =>
    field' = field ∧ ¬ identifier value ∧
    match violation with
    | IdentifierEmpty => value = ""%string
    | SurroundingWhitespace => trim (chars value) ≠ chars value
    | TooLong actual max =>
      actual = str_len value ∧ max = MAX_TASK_IDENTIFIER_LEN ∧ max < actual
    | InvalidCharacter byte_offset character =>
      is_identifier_character character = false ∧
      ∃ before after, char_indices value = before ++ (byte_offset, character) :: after ∧
        Forall (λ p, is_identifier_character p.2 = true) before
    end
  | inl _ => False
  end.
Proof.
  destruct (validate_identifier field value) as [e|[]] eqn:E;
    [|by apply validate_identifier_inr in E].
  assert (¬ identifier value) as Hn.
  { intros H. rewrite (proj2 (validate_identifier_inr field value) H) in E. done. }
  unfold validate_identifier, identifier_violation in E. case_decide; [by simplify_eq|].
  destruct (bool_decide_reflect (trim (chars value) = chars value)); [|by simplify_eq/=].
  cbn in E. case_decide; [by simplify_eq|].
  destruct (List.find _ _) as [[off c]|] eqn:Ef; [|done]. cbn in E. simplify_eq.
  split; [done|]. split; [done|]. clear -Ef. induction (char_indices value) as [|[o d] l IH]; cbn in Ef; [done|].
  destruct (is_identifier_character d) eqn:Ed; cbn in Ef.
  - destruct (IH Ef) as (Hc & before & after & -> & Hb). split; [done|].
    exists ((o, d) :: before), after. split; [done|]. by constructor.
  - simplify_eq. split; [done|]. by exists [], l.
Qed.

(** A [ValidatedTaskPlan] exists for exactly the specs that meet the plan
    contract, and holds that spec unchanged: the validator neither admits a
    malformed plan nor refuses a well-formed one. *)
Theorem ValidatedTaskPlan_correct spec :
  (∀ plan, ValidatedTaskPlan_try_from spec = inr plan → as_spec plan = spec ∧ plan_wf spec) ∧
  (plan_wf spec → ValidatedTaskPlan_try_from spec = inr (mkValidated spec)).
Proof.
  unfold ValidatedTaskPlan_try_from. split.
  - intros plan ([] & H%validate_task_spec_inr & [= <-])%result_bind_inr. done.
  - intros H. apply result_bind_inr. exists (). split; [by apply validate_task_spec_inr|done].
Qed.
