(* ===== verification/Topology.v ===== *)
(** * Worker topology: topology.rs

    crates/taskmesh-contract/src/topology.rs: the declared worker topology, its
    fail-closed validation and the resolvers that turn it into capability limits.
    A [usize] is a 64-bit integer here. *)

From S2P Require Import Prelude Contract.

Definition USIZE_MAX : N := U64_MAX.

Definition MAX_CAPABILITY_SLOTS : N := U32_MAX.

(** ** Data *)

Inductive CpuMode := CpuAuto | CpuFixed (n : N).
#[export] Instance CpuMode_eq_dec : EqDecision CpuMode.
Proof. solve_decision. Defined.

Inductive PhysicalDomainMode := DomainAuto | DomainFixed (workers : N).

Definition PHYSICAL_SHARED_BLOCKING : string := "physical.shared_blocking".
Definition PHYSICAL_CPU : string := "physical.cpu".
Definition PHYSICAL_DEDICATED : string := "physical.dedicated".

Record PhysicalDomainTopology := mkDomains {
  shared_blocking : PhysicalDomainMode;
  dedicated : PhysicalDomainMode;
}.
Definition PhysicalDomainTopology_default : PhysicalDomainTopology :=
  mkDomains DomainAuto DomainAuto.

Record CpuPoolConfig := mkCpuPool {
  cpu_mode : CpuMode;
  reserve_cores : N;
  min_workers : N;
  max_workers : N;
}.
Definition CpuPoolConfig_default : CpuPoolConfig := mkCpuPool CpuAuto 0 1 USIZE_MAX.

Record TopologyConfig := mkTopology {
  tc_cpu : CpuPoolConfig;
  blocking_threads : N;
  large_stack_slots : N;
  maintenance_workers : N;
  local_runtime_slots : N;
  physical_domains : PhysicalDomainTopology;
}.
Definition TopologyConfig_new : TopologyConfig :=
  mkTopology CpuPoolConfig_default 0 0 0 0 PhysicalDomainTopology_default.

(** The executor errors are the host builder's; nothing constructs
    [ExecutorDeclaresFewerWorkers]. *)
Inductive TopologyError :=
  | InvertedCpuWorkerBounds (min_workers max_workers : N)
  | SlotCountTooLarge (pool : string) (slots max : N)
  | ZeroFixedCpuWorkers
  | ExecutorDeclaresFewerWorkers (declared resolved : N)
  | ExecutorSubmissionMayBlock
  | ExecutorPhysicalDomainUnknown
  | ExecutorWorkerCountUnknown
  | UnknownExecutorPhysicalDomain (domain : string)
  | ZeroFixedPhysicalDomain (domain : string)
  | ExecutorWorkerCountMismatch (declared resolved : N) (domain : string).

(** ** Validation *)

(** One entry of the physical-domain loop. *)
Definition validate_domain (domain : string) (mode : PhysicalDomainMode) : TopologyError + () :=
  match mode with
  | DomainAuto => inr ()
  | DomainFixed workers =>
    if decide (workers = 0) then inl (ZeroFixedPhysicalDomain domain)
    else if decide (MAX_CAPABILITY_SLOTS < workers)
    then inl (SlotCountTooLarge domain workers MAX_CAPABILITY_SLOTS)
    else inr ()
  end.

(** [declared_slots]. *)
Definition declared_slots (t : TopologyConfig) : list (string * N) := [
  ("blocking", blocking_threads t);
  ("large_stack", large_stack_slots t);
  ("maintenance", maintenance_workers t);
  ("local_runtime", local_runtime_slots t)
]%string.

Fixpoint validate_slots (slots : list (string * N)) : TopologyError + () :=
  match slots with
  | [] => inr ()
  | (pool, n) :: slots' =>
    if decide (MAX_CAPABILITY_SLOTS < n)
    then inl (SlotCountTooLarge pool n MAX_CAPABILITY_SLOTS)
    else validate_slots slots'
  end.

(** [TopologyConfig::validate]. *)
Definition topology_validate (t : TopologyConfig) : TopologyError + () :=
  let min := N.max (min_workers (tc_cpu t)) 1 in
  let max := N.max (max_workers (tc_cpu t)) 1 in
  if decide (max < min)
  then inl (InvertedCpuWorkerBounds (min_workers (tc_cpu t)) (max_workers (tc_cpu t)))
  else if decide (cpu_mode (tc_cpu t) = CpuFixed 0) then inl ZeroFixedCpuWorkers
  else
    _ ← validate_domain PHYSICAL_SHARED_BLOCKING (shared_blocking (physical_domains t));
    _ ← validate_domain PHYSICAL_DEDICATED (dedicated (physical_domains t));
    validate_slots (declared_slots t).

(** ** Resolution *)

(** [resolve_cpu_workers_unchecked], the body of [resolved_cpu_workers]. *)
Definition resolved_cpu_workers (t : TopologyConfig) (available : N) : N :=
  let base := match cpu_mode (tc_cpu t) with
              | CpuFixed n => n
              | CpuAuto => saturating_sub available (reserve_cores (tc_cpu t))
              end in
  let lo := N.max (min_workers (tc_cpu t)) 1 in
  let hi := N.max (max_workers (tc_cpu t)) 1 in
  N.min (N.max base lo) (N.max hi lo).

(** [try_resolved_cpu_workers]. *)
Definition try_resolved_cpu_workers (t : TopologyConfig) (available : N) : TopologyError + N :=
  _ ← topology_validate t;
  let workers := resolved_cpu_workers t available in
  if decide (MAX_CAPABILITY_SLOTS < workers)
  then inl (SlotCountTooLarge "cpu" workers MAX_CAPABILITY_SLOTS)
  else inr workers.

(** [try_resolved_physical_domain]. *)
Definition try_resolved_physical_domain (t : TopologyConfig) (domain : string) (available : N)
  : TopologyError + N :=
  _ ← topology_validate t;
  if decide (domain = PHYSICAL_CPU) then try_resolved_cpu_workers t available
  else
    mode ← (if decide (domain = PHYSICAL_SHARED_BLOCKING)
            then inr (shared_blocking (physical_domains t))
            else if decide (domain = PHYSICAL_DEDICATED)
            then inr (dedicated (physical_domains t))
            else inl (UnknownExecutorPhysicalDomain domain));
    let workers := match mode with
                   | DomainAuto => N.max available 1
                   | DomainFixed workers => workers
                   end in
    if decide (MAX_CAPABILITY_SLOTS < workers)
    then inl (SlotCountTooLarge domain workers MAX_CAPABILITY_SLOTS)
    else inr workers.

(** ** The contract *)

Definition domain_wf (mode : PhysicalDomainMode) : Prop :=
  match mode with DomainAuto => True | DomainFixed n => 1 ≤ n ≤ MAX_CAPABILITY_SLOTS end.

Record topology_wf (t : TopologyConfig) : Prop := {
  topo_window : N.max (min_workers (tc_cpu t)) 1 ≤ N.max (max_workers (tc_cpu t)) 1;
  topo_fixed : cpu_mode (tc_cpu t) ≠ CpuFixed 0;
  topo_blocking : domain_wf (shared_blocking (physical_domains t));
  topo_dedicated : domain_wf (dedicated (physical_domains t));
  topo_slots : Forall (λ p, p.2 ≤ MAX_CAPABILITY_SLOTS) (declared_slots t);
}.

Lemma validate_domain_inr domain mode : validate_domain domain mode = inr () ↔ domain_wf mode.
Proof.
  destruct mode as [|n]; cbn; [done|]. repeat case_decide; split; intros; try done; lia.
Qed.

Lemma validate_slots_inr slots :
  validate_slots slots = inr () ↔ Forall (λ p, p.2 ≤ MAX_CAPABILITY_SLOTS) slots.
Proof.
  induction slots as [|[pool n] slots IH]; cbn; [done|]. rewrite Forall_cons. cbn.
  case_decide; [|rewrite IH; naive_solver lia].
  split; [done|]. intros [? _]. lia.
Qed.

Lemma topology_validate_inr t : topology_validate t = inr () ↔ topology_wf t.
Proof.
  unfold topology_validate. case_decide as Hw.
  { split; [done|]. intros [? _ _ _ _]. lia. }
  case_decide as Hf; [split; [done|]; by intros [_ ? _ _ _]|].
  split.
  - intros ([] & H1%validate_domain_inr & H2)%result_bind_inr.
    apply result_bind_inr in H2 as ([] & H2%validate_domain_inr & H3%validate_slots_inr).
    split; [lia|done..].
  - intros [_ _ H1 H2 H3]. apply result_bind_inr. exists (). split; [by apply validate_domain_inr|].
    apply result_bind_inr. exists (). split; [by apply validate_domain_inr|].
    by apply validate_slots_inr.
Qed.

(** The clamp never leaves its window, even an inverted one. *)
Lemma resolved_cpu_workers_window t available :
  N.max (min_workers (tc_cpu t)) 1 ≤ resolved_cpu_workers t available ∧
  (resolved_cpu_workers t available ≤ N.max (max_workers (tc_cpu t)) 1 ∨
   resolved_cpu_workers t available = N.max (min_workers (tc_cpu t)) 1).
Proof. unfold resolved_cpu_workers. lia. Qed.

(** The CPU resolver answers exactly on a valid topology whose clamped worker
    count is representable as a capability limit, and the answer is positive,
    inside the declared worker window and at most [MAX_CAPABILITY_SLOTS]; when the
    unclamped request lies in the window, it is granted as it is. *)
Theorem try_resolved_cpu_workers_correct t available n :
  try_resolved_cpu_workers t available = inr n ↔
  topology_wf t ∧ n ≤ MAX_CAPABILITY_SLOTS ∧
  n = N.min (N.max (match cpu_mode (tc_cpu t) with
                    | CpuFixed n => n
                    | CpuAuto => available - reserve_cores (tc_cpu t)
                    end) (N.max 1 (min_workers (tc_cpu t))))
        (N.max 1 (max_workers (tc_cpu t))).
Proof.
  unfold try_resolved_cpu_workers. rewrite result_bind_inr. split.
  - intros ([] & Hv%topology_validate_inr & H). case_decide as Hm; [done|]. simplify_eq.
    split; [done|]. destruct Hv as [Hw _ _ _ _]. unfold resolved_cpu_workers, saturating_sub in *.
    destruct (cpu_mode (tc_cpu t)); lia.
  - intros (Hv & Hn & E). exists (). split; [by apply topology_validate_inr|].
    destruct Hv as [Hw _ _ _ _].
    assert (resolved_cpu_workers t available = n) as ->; [|by rewrite decide_False by lia].
    unfold resolved_cpu_workers, saturating_sub. destruct (cpu_mode (tc_cpu t)); lia.
Qed.

(** Every domain that resolves is a finite non-empty pool. *)
Lemma physical_domain_bounded t domain available n :
  try_resolved_physical_domain t domain available = inr n → 1 ≤ n ≤ MAX_CAPABILITY_SLOTS.
Proof.
  unfold try_resolved_physical_domain.
  intros ([] & [Hw _ Hb Hd _]%topology_validate_inr & H)%result_bind_inr.
  case_decide as E.
  - unfold try_resolved_cpu_workers in H. apply result_bind_inr in H as ([] & _ & H).
    case_decide; [done|]. simplify_eq.
    pose proof (resolved_cpu_workers_window t available). lia.
  - apply result_bind_inr in H as (mode & Hmode & H).
    case_decide; [done|]. simplify_eq.
    destruct mode as [|w]; [lia|]. split; [|lia].
    repeat case_decide; simplify_eq; [rewrite Hmode in Hb|rewrite Hmode in Hd]; cbn in *; lia.
Qed.

Lemma cpu_workers_bounded t available n :
  try_resolved_cpu_workers t available = inr n →
  topology_wf t ∧ n = resolved_cpu_workers t available ∧ 1 ≤ n ≤ MAX_CAPABILITY_SLOTS.
Proof.
  unfold try_resolved_cpu_workers. intros ([] & Hw%topology_validate_inr & H)%result_bind_inr.
  case_decide; [done|]. simplify_eq. pose proof (resolved_cpu_workers_window t available).
  split_and!; [done..|lia|lia].
Qed.

(** A physical domain that resolves has between one and
    [MAX_CAPABILITY_SLOTS] workers; and on a valid topology the two host-owned
    domains do resolve for any parallelism that fits a limit, to the fixed size
    when one is declared and to the parallelism otherwise. *)
Theorem physical_domain_resolves t domain available :
  (∀ n, try_resolved_physical_domain t domain available = inr n → 1 ≤ n ≤ MAX_CAPABILITY_SLOTS) ∧
  (topology_wf t ∧ available ≤ MAX_CAPABILITY_SLOTS →
   try_resolved_physical_domain t PHYSICAL_SHARED_BLOCKING available =
     inr (match shared_blocking (physical_domains t) with
          | DomainFixed n => n | DomainAuto => N.max available 1 end) ∧
   try_resolved_physical_domain t PHYSICAL_DEDICATED available =
     inr (match dedicated (physical_domains t) with
          | DomainFixed n => n | DomainAuto => N.max available 1 end)).
Proof.
  split; [apply physical_domain_bounded|]. unfold try_resolved_physical_domain.
  intros [Hwf Ha]. rewrite (proj2 (topology_validate_inr t) Hwf). destruct Hwf as [_ _ Hb Hd _].
    cbn -[decide].
    split; rewrite ?(decide_False (P := PHYSICAL_DEDICATED = _)), ?(decide_False (P := _ = PHYSICAL_CPU)), ?decide_True by done; cbn -[decide];
      [destruct (shared_blocking _) as [|n]|destruct (dedicated _) as [|n]]; cbn in *;
      (rewrite decide_False; [done|unfold MAX_CAPABILITY_SLOTS, U32_MAX in *; lia]).
Qed.
