(* ===== verification/Kernel.v ===== *)
(** * The shared kernel: identities, capabilities and the policy set

    crates/taskmesh-engine/src/shared/mod.rs and the substrate inventory of
    features/inventory/mod.rs: permit and ticket handles bound to the governor
    that issued them, capability identities bound to the policy set that
    registered them, the bounded requirement set of a request, and the resolved
    policy set a governor runs against. *)

From S2P Require Import Prelude Contract Text.

(** ** Handles *)

(** A permit handle: the issuing governor's authority and a local sequence. *)
Record PermitId := mkPermitId { permit_authority : N; permit_sequence : N }.
#[export] Instance PermitId_eq_dec : EqDecision PermitId.
Proof. solve_decision. Defined.
#[export] Instance PermitId_countable : Countable PermitId :=
  inj_countable' (λ p, (permit_authority p, permit_sequence p))
    (λ p, mkPermitId p.1 p.2) (λ p, match p with mkPermitId _ _ => eq_refl end).
#[export] Instance PermitId_rustord : RustOrd PermitId :=
  λ p q, rcmp (permit_authority p, permit_sequence p) (permit_authority q, permit_sequence q).
#[export] Instance PermitId_rustord_laws : RustOrdLaws PermitId.
Proof.
  apply (rustord_laws_inj (λ p, (permit_authority p, permit_sequence p))); [|done].
  intros [] []; naive_solver.
Qed.

(** A ticket handle, same shape. *)
Record Ticket := mkTicket { ticket_authority : N; ticket_sequence : N }.
#[export] Instance Ticket_eq_dec : EqDecision Ticket.
Proof. solve_decision. Defined.
#[export] Instance Ticket_countable : Countable Ticket :=
  inj_countable' (λ p, (ticket_authority p, ticket_sequence p))
    (λ p, mkTicket p.1 p.2) (λ p, match p with mkTicket _ _ => eq_refl end).
#[export] Instance Ticket_rustord : RustOrd Ticket :=
  λ p q, rcmp (ticket_authority p, ticket_sequence p) (ticket_authority q, ticket_sequence q).
#[export] Instance Ticket_rustord_laws : RustOrdLaws Ticket.
Proof.
  apply (rustord_laws_inj (λ p, (ticket_authority p, ticket_sequence p))); [|done].
  intros [] []; naive_solver.
Qed.

(** ** Capabilities *)

(** A capability identity: its name and the [Arc] of the registry that issued
    it; [cap_authority] is the address [Arc::ptr_eq] and [Arc::as_ptr] observe. *)
Record CapabilityId := mkCapabilityId { cap_name : string; cap_authority : N }.
#[export] Instance CapabilityId_eq_dec : EqDecision CapabilityId.
Proof. solve_decision. Defined.
#[export] Instance CapabilityId_countable : Countable CapabilityId :=
  inj_countable' (λ c, (cap_name c, cap_authority c))
    (λ p, mkCapabilityId p.1 p.2) (λ p, match p with mkCapabilityId _ _ => eq_refl end).
#[export] Instance CapabilityId_rustord : RustOrd CapabilityId :=
  λ c d, rcmp (cap_name c, cap_authority c) (cap_name d, cap_authority d).
#[export] Instance CapabilityId_rustord_laws : RustOrdLaws CapabilityId.
Proof.
  apply (rustord_laws_inj (λ c, (cap_name c, cap_authority c))); [|done].
  intros [] []; naive_solver.
Qed.

Inductive ResolvedCapability := Ungated | Registered (id : CapabilityId).

Inductive CapabilityCapacity := Bounded (limit : N) | ExplicitUnbounded.
#[export] Instance CapabilityCapacity_eq_dec : EqDecision CapabilityCapacity.
Proof. solve_decision. Defined.

(** [CapabilityCapacity::limit]. *)
Definition capacity_limit (c : CapabilityCapacity) : N :=
  match c with Bounded limit => limit | ExplicitUnbounded => 0 end.

Record CapabilityRecord := mkCapabilityRecord {
  cr_id : CapabilityId;
  cr_capacity : CapabilityCapacity;
}.
#[export] Instance CapabilityRecord_eq_dec : EqDecision CapabilityRecord.
Proof. solve_decision. Defined.

Inductive CapabilityResolutionError :=
  | EmptyName
  | UnknownName (name : string)
  | ForeignId
  | TooManyRequirements (max : N).

Definition MAX_CAPABILITY_REQUIREMENTS : N := 32.

(** ** Requirement sets: a sorted, duplicate-free vector *)

Abbreviation CapabilityRequirementSet := (list CapabilityId) (only parsing).

(** [slice::binary_search] on a sorted vector: [inr] is [Ok], the index of the
    element; [inl] is [Err], the index that keeps the vector sorted. *)
Fixpoint binary_search_from (i : nat) (x : CapabilityId) (l : list CapabilityId) : nat + nat :=
  match l with
  | [] => inl i
  | y :: l' =>
    match rcmp y x with
    | Lt => binary_search_from (S i) x l'
    | Eq => inr i
    | Gt => inl i
    end
  end.
Definition binary_search (x : CapabilityId) (l : list CapabilityId) : nat + nat :=
  binary_search_from 0 x l.

(** [Vec::insert]. *)
Definition vec_insert {A} (i : nat) (x : A) (l : list A) : list A :=
  take i l ++ x :: drop i l.

Fixpoint from_resolved_loop (ids : list CapabilityId) (caps : list ResolvedCapability)
  : CapabilityResolutionError + CapabilityRequirementSet :=
  match caps with
  | [] => inr ids
  | Ungated :: caps' => from_resolved_loop ids caps'
  | Registered id :: caps' =>
    let ids' := match binary_search id ids with
                | inr _ => ids
                | inl index => vec_insert index id ids
                end in
    if decide (MAX_CAPABILITY_REQUIREMENTS < N.of_nat (length ids'))
    then inl (TooManyRequirements MAX_CAPABILITY_REQUIREMENTS)
    else from_resolved_loop ids' caps'
  end.

(** [CapabilityRequirementSet::from_resolved]. *)
Definition from_resolved (caps : list ResolvedCapability)
  : CapabilityResolutionError + CapabilityRequirementSet :=
  from_resolved_loop [] caps.

Definition crs_is_empty (c : CapabilityRequirementSet) : bool :=
  match c with [] => true | _ => false end.

(** [CapabilityRequirementSet::intersects]. *)
Definition intersects (c d : CapabilityRequirementSet) : bool :=
  if crs_is_empty c && crs_is_empty d then true
  else existsb (λ id, match binary_search id d with inr _ => true | inl _ => false end) c.

(** ** Value types *)

Record ResolvedCost := mkCost { rc_cpu_units : N; rc_memory_units : N }.
#[export] Instance ResolvedCost_eq_dec : EqDecision ResolvedCost.
Proof. solve_decision. Defined.

Record Provenance := mkProvenance { pv_source : PlanSource; pv_reason : ClassificationRationale }.
#[export] Instance Provenance_eq_dec : EqDecision Provenance.
Proof. solve_decision. Defined.

(** [Provenance::of]. *)
Definition provenance_of (t : TaskSpec) : Provenance := mkProvenance (ts_source t) (ts_reason t).

Record LeakSweepReport := mkSweep {
  reclaimed_permits : N;
  suspected_leaks : N;
  retained_active : N;
}.

Inductive StageReleaseOutcome :=
  | StageReleased (freed_units : N)
  | StagePolicyForbids (policy : MemoryReleasePolicy)
  | StageUnknownPermit
  | StageStaleSequence (current_sequence : N).

Inductive AdmissionDecision :=
  | AdmittedPermit (permit_id : PermitId)
  | Queued (ticket : Ticket)
  | Rejected (verdict : AdmissionVerdict).

(** ** Policy violations

    [GovernorError::PolicyViolation] carries a formatted message; the message is
    represented by its cause, one constructor per message of the source. *)

Inductive Violation :=
  | SubstrateNameEmpty
  | SubstratePoolRequired (name : string)
  | DuplicateSubstrate (name : string)
  | CapabilityNameEmpty
  | CapabilityLimitUnregistered (pool : string)
  | ReduceKeyEmpty
  | ReducePolicyRequired (stage : TaskStage)
  | InvalidPolicyClass (class : TaskClass)
  | PerRequestCpuExceeded (class : TaskClass)
  | PerRequestMemoryExceeded (class : TaskClass)
  | GlobalCpuExceeded (class : TaskClass)
  | GlobalMemoryExceeded (class : TaskClass)
  | UnscaledMeasuredMode (class : TaskClass)
  | QueueableWithoutDepth (class : TaskClass)
  | ScavengerNotBestEffort (class : TaskClass)
  | ZeroWeight (class : TaskClass)
  | ZeroQuantum (class : TaskClass)
  | OvercommitQueueWithoutDepth (class : TaskClass)
  | DegradesToItself (class : TaskClass)
  | DegradesToUnknown (class fallback : TaskClass)
  | DegradesToDisabled (class fallback : TaskClass)
  | DegradeChains (class fallback : TaskClass)
  | MixedFairness (class : TaskClass)
  | RegistryKeyMismatch (key name : string)
  | MissingBuiltin (name : string)
  | NonCanonicalBuiltin (name : string)
  | UnprovidedCapability (pool : string)
  | SubstrateWithoutAuthority (name pool : string).

Abbreviation Checked := (sum Violation).


(** ** Inventory: features/inventory/mod.rs *)

Definition BUILTIN_SUBSTRATES : list string :=
  ["cpu"; "blocking"; "large_stack"; "maintenance"; "local_runtime"]%string.

(** [validate_record]: a name, and a non-empty pool unless authority-only. *)
Definition validate_record (r : SubstrateRecord) : Checked () :=
  if is_blank (sr_name r) then inl SubstrateNameEmpty
  else if decide (sr_kind r = AuthorityOnly) then inr ()
  else
    let pool_ok := match sr_capability_pool r with
                   | Some p => negb (is_blank p)
                   | None => false
                   end in
    if pool_ok then inr () else inl (SubstratePoolRequired (sr_name r)).

Definition builtin_records : list SubstrateRecord := [
  mkSubstrateRecord "cpu" CompetingExecution (Some "cpu");
  mkSubstrateRecord "blocking" CompetingExecution (Some "blocking");
  mkSubstrateRecord "large_stack" CompetingExecution (Some "large_stack");
  mkSubstrateRecord "maintenance" MaintenanceOnly (Some "maintenance");
  mkSubstrateRecord "local_runtime" CompetingExecution (Some "local_runtime")
]%string.

Definition provides_capability (r : SubstrateRecord) (capability : string) : bool :=
  match sr_kind r with
  | AuthorityOnly => false
  | _ => bool_decide (sr_capability_pool r = Some capability)
  end.

(** [register]: duplicates and invalid records are rejected. *)
Definition register (registry : gmap string SubstrateRecord) (r : SubstrateRecord)
  : Checked (gmap string SubstrateRecord) :=
  _ ← validate_record r;
  match registry !! sr_name r with
  | Some _ => inl (DuplicateSubstrate (sr_name r))
  | None => inr (<[sr_name r := r]> registry)
  end.

Fixpoint register_all (registry : gmap string SubstrateRecord) (rs : list SubstrateRecord)
  : Checked (gmap string SubstrateRecord) :=
  match rs with
  | [] => inr registry
  | r :: rs' => registry' ← register registry r; register_all registry' rs'
  end.

(** [inventory::snapshot]: the records, in name order. *)
Definition inventory_snapshot (registry : gmap string SubstrateRecord) : list SubstrateRecord :=
  btree_values registry.

(** ** The policy set *)

Record PolicySet := mkPolicySet {
  ps_resources : ResourceBudget;
  ps_classes : gmap string ClassPolicy;
  ps_substrates : gmap string SubstrateRecord;
  ps_capabilities : gmap CapabilityId CapabilityRecord;
  ps_capability_authority : N;
}.

(** [builtin_capability_records]: one unbounded record per pool named by a
    substrate; the first record of a pool stays. *)
Definition add_builtin_capability (authority : N) (r : SubstrateRecord)
    (caps : gmap CapabilityId CapabilityRecord) : gmap CapabilityId CapabilityRecord :=
  match sr_capability_pool r with
  | None => caps
  | Some pool =>
    let id := mkCapabilityId pool authority in
    match caps !! id with
    | Some _ => caps
    | None => <[id := mkCapabilityRecord id ExplicitUnbounded]> caps
    end
  end.
Definition builtin_capability_records (substrates : gmap string SubstrateRecord) (authority : N)
  : gmap CapabilityId CapabilityRecord :=
  foldl (λ caps r, add_builtin_capability authority r caps) ∅ (btree_values substrates).

(** [PolicySet::new], for the fresh registry authority [authority].  [None] is
    the panic of its [expect]. *)
Definition PolicySet_new (authority : N) (resources : ResourceBudget)
    (classes : gmap string ClassPolicy) : option PolicySet :=
  match register_all ∅ builtin_records with
  | inl _ => None
  | inr substrates =>
    Some (mkPolicySet resources classes substrates
            (builtin_capability_records substrates authority) authority)
  end.

(** [PolicySet::with_substrates]. *)
Definition with_substrates (rs : list SubstrateRecord) (p : PolicySet) : Checked PolicySet :=
  substrates ← register_all (ps_substrates p) rs;
  inr (mkPolicySet (ps_resources p) (ps_classes p) substrates (ps_capabilities p)
         (ps_capability_authority p)).

(** [.capabilities.keys().find(|id| id.as_str() == pool)]. *)
Definition find_capability (p : PolicySet) (pool : string) : option CapabilityId :=
  List.find (λ id, bool_decide (cap_name id = pool)) (btree_keys (ps_capabilities p)).

Definition with_capabilities (caps : gmap CapabilityId CapabilityRecord) (p : PolicySet) : PolicySet :=
  mkPolicySet (ps_resources p) (ps_classes p) (ps_substrates p) caps (ps_capability_authority p).

(** [PolicySet::with_capability_limits]: one step per declared limit, in name
    order. *)
Definition declare_limit (pool : string) (limit : N) (p : PolicySet) : Checked PolicySet :=
  if is_blank pool then inl CapabilityNameEmpty
  else
    let executing := existsb (λ r,
        negb (bool_decide (sr_kind r = AuthorityOnly))
        && bool_decide (sr_capability_pool r = Some pool)) (btree_values (ps_substrates p)) in
    if negb executing then inl (CapabilityLimitUnregistered pool)
    else
      let id := match find_capability p pool with
                | Some id => id
                | None => mkCapabilityId pool (ps_capability_authority p)
                end in
      let capacity := if decide (limit = 0) then ExplicitUnbounded else Bounded limit in
      inr (with_capabilities (<[id := mkCapabilityRecord id capacity]> (ps_capabilities p)) p).

Fixpoint declare_limits (limits : list (string * N)) (p : PolicySet) : Checked PolicySet :=
  match limits with
  | [] => inr p
  | (pool, limit) :: limits' => p' ← declare_limit pool limit p; declare_limits limits' p'
  end.
Definition with_capability_limits (limits : gmap string N) (p : PolicySet) : Checked PolicySet :=
  declare_limits (btree_to_list limits) p.

(** [PolicySet::resolve_capability]. *)
Definition resolve_capability (p : PolicySet) (pool : string)
  : CapabilityResolutionError + ResolvedCapability :=
  if is_blank pool then inl EmptyName
  else match find_capability p pool with
       | Some id => inr (Registered id)
       | None => inl (UnknownName pool)
       end.

(** [PolicySet::validate_resolved_capability]. *)
Definition validate_resolved_capability (p : PolicySet) (c : ResolvedCapability)
  : CapabilityResolutionError + () :=
  match c with
  | Ungated => inr ()
  | Registered id =>
    match ps_capabilities p !! id with Some _ => inr () | None => inl ForeignId end
  end.

(** [PolicySet::validate_requirements]. *)
Definition validate_requirements (p : PolicySet) (c : CapabilityRequirementSet)
  : CapabilityResolutionError + () :=
  if forallb (λ id, bool_decide (is_Some (ps_capabilities p !! id))) c
  then inr () else inl ForeignId.

(** [PolicySet::resolved_capability_name]. *)
Definition resolved_capability_name (p : PolicySet) (c : ResolvedCapability) : option string :=
  match c with
  | Ungated => None
  | Registered id => (λ r, cap_name (cr_id r)) <$> ps_capabilities p !! id
  end.

(** [PolicySet::capability_record], [PolicySet::class]. *)
Definition capability_record (p : PolicySet) (id : CapabilityId) : option CapabilityRecord :=
  ps_capabilities p !! id.
Definition ps_class (p : PolicySet) (c : TaskClass) : option ClassPolicy := ps_classes p !! c.

(** [PolicySet::capability_capacity]. *)
Definition capability_capacity (p : PolicySet) (pool : string) : option CapabilityCapacity :=
  cr_capacity <$> List.find (λ r, bool_decide (cap_name (cr_id r) = pool))
    (btree_values (ps_capabilities p)).
