(* ===== verification/Errors.v ===== *)
(** * Errors of the host

    crates/taskmesh-contract/src/verdict.rs: the errors a governed call reports,
    the split between a governor failure and the task's own error, and their
    accessors; with the texts the host composes.  A [PolicyViolation] carries text:
    one the engine composes is represented by its cause (Kernel.v), one the host
    composes by its text. *)

From stdpp Require Import pretty.
From S2P Require Import Prelude Contract Text Topology Kernel.

(** ** The governor's errors *)

Inductive Message :=
  | EngineMessage (cause : Violation)
  | HostMessage (text : string).

Module GovernorError.
Inductive t :=
  | Rejected (verdict : AdmissionVerdict)
  | TicketClaimTerminated (ticket : N) (reason : TerminalReason)
  | InvalidTicketClaim (ticket : N)
  | LocalRuntimeUnavailable
  | PolicyViolation (message : Message)
  | InvalidTopology (error : TopologyError)
  | IdentityAuthorityExhausted
  | Cancelled
  | DeadlineExceeded
  | DeadlineUnsupported (class : TaskClass) (policy : CancellationPolicy)
  | LeaseReclaimed (permit_id : N)
  | WorkerUnavailable (context detail : string)
  | WorkerPanicked (context : string)
  | JobAbandoned (context : string).

(** [GovernorError::as_verdict] and [GovernorError::retry_after_ms]. *)
Definition as_verdict (e : t) : option AdmissionVerdict :=
  match e with Rejected verdict => Some verdict | _ => None end.
Definition retry_after_ms (e : t) : option N :=
  match e with Rejected verdict => verdict_retry_after_ms verdict | _ => None end.
End GovernorError.
Abbreviation GovernorError := GovernorError.t.

(** A host-composed policy violation. *)
Definition policy_violation (text : string) : GovernorError :=
  GovernorError.PolicyViolation (HostMessage text).

(** [?] on a topology error: [From<TopologyError> for GovernorError]. *)
Definition topology_result {A} (r : TopologyError + A) : GovernorError + A :=
  match r with inl e => inl (GovernorError.InvalidTopology e) | inr x => inr x end.

(** [?] on an engine policy violation. *)
Definition policy_result {A} (r : Checked A) : GovernorError + A :=
  match r with
  | inl v => inl (GovernorError.PolicyViolation (EngineMessage v))
  | inr x => inr x
  end.

(** ** Governor failure or task failure *)

Module RunError.
Inductive t (E : Type) :=
  | Governor (error : GovernorError)
  | Task (error : E).
Arguments Governor {E} error.
Arguments Task {E} error.

Section accessors.
Context {E : Type}.
Implicit Types e : t E.

Definition is_governor e : bool := match e with Governor _ => true | Task _ => false end.
Definition is_task e : bool := match e with Task _ => true | Governor _ => false end.
Definition governor e : option GovernorError :=
  match e with Governor err => Some err | Task _ => None end.
Definition task e : option E := match e with Task err => Some err | Governor _ => None end.
Definition as_verdict e : option AdmissionVerdict := governor e ≫= GovernorError.as_verdict.
Definition retry_after_ms e : option N := governor e ≫= GovernorError.retry_after_ms.
End accessors.
End RunError.
Abbreviation RunError := RunError.t.

(** ** Texts *)

(** [Display for PermitId]. *)
Definition permit_text (p : PermitId) : string :=
  pretty (permit_authority p) +:+ ":" +:+ pretty (permit_sequence p).

(** [Display for CapabilityResolutionError]. *)
Definition resolution_text (e : CapabilityResolutionError) : string :=
  match e with
  | EmptyName => "capability name must be non-empty"
  | UnknownName name => "unknown capability: " +:+ name
  | ForeignId => "capability id is not registered by this policy"
  | TooManyRequirements max =>
    "capability requirement count exceeds bounded maximum " +:+ pretty max
  end.

(** [Display for TopologyError]. *)
Definition topology_text (e : TopologyError) : string :=
  match e with
  | InvertedCpuWorkerBounds min_workers max_workers =>
    "topology cpu.min_workers (" +:+ pretty min_workers +:+ ") exceeds cpu.max_workers (" +:+
    pretty max_workers +:+ ")"
  | SlotCountTooLarge pool slots max =>
    "topology pool " +:+ pool +:+ " declares " +:+ pretty slots +:+
    " slots, above the governed maximum " +:+ pretty max
  | ExecutorDeclaresFewerWorkers declared resolved =>
    "cpu executor declares " +:+ pretty declared +:+ " worker(s) but the topology resolved " +:+
    pretty resolved +:+ "; the cpu gate cannot exceed the executor"
  | ZeroFixedCpuWorkers => "topology cpu.mode = Fixed(0) cannot execute any work"
  | ExecutorSubmissionMayBlock => "cpu executor submission must be nonblocking"
  | ExecutorPhysicalDomainUnknown => "cpu executor must declare its physical domain"
  | ExecutorWorkerCountUnknown => "cpu executor must declare its physical worker count"
  | UnknownExecutorPhysicalDomain domain =>
    "cpu executor declares unknown physical domain " +:+ domain
  | ZeroFixedPhysicalDomain domain =>
    "physical domain " +:+ domain +:+ " cannot resolve to zero workers"
  | ExecutorWorkerCountMismatch declared resolved domain =>
    "cpu executor declares " +:+ pretty declared +:+ " worker(s) for physical domain " +:+ domain +:+
    ", but the domain resolved " +:+ pretty resolved
  end.

(** [Debug for ExecutionPhase]. *)
Definition phase_text (p : ExecutionPhase) : string :=
  match p with
  | DispatchReserved => "DispatchReserved"
  | Accepted => "Accepted"
  | Running => "Running"
  | CleanupPending => "CleanupPending"
  end.
