(* ===== verification/Arbiter.v ===== *)
(** * Cancellation, deadlines and acquisition budgets

    crates/taskmesh/src/executor/cancel.rs: the options of a submission and the
    arbiter that decides, before dispatch, whether a submission may still start.  A
    cancellation token is the identity of a shared flag; whether it has fired is
    asked of the function [fired].  Instants and durations are nanoseconds; the
    greatest instant is that of a 64-bit second count. *)

From S2P Require Import Prelude Contract Text Topology Kernel Errors.

Abbreviation Instant := N (only parsing).
Abbreviation Duration := N (only parsing).
Abbreviation CancellationToken := N (only parsing).

Definition NANOS_PER_SEC : N := 1000000000.
Definition INSTANT_MAX : N := 9223372036854775807 * NANOS_PER_SEC + (NANOS_PER_SEC - 1).

(** [Instant::checked_add]. *)
Definition instant_add (i d : N) : option Instant := checked_add INSTANT_MAX i d.

(** ** Options *)

Inductive SubmissionDeadline :=
  | RunFor (budget : Duration)
  | CompleteBy (instant : Instant).

Record SubmitOptions := mkSubmitOptions {
  so_cancel : option CancellationToken;
  so_acquire_timeout : option Duration;
  so_deadline : option SubmissionDeadline;
}.

(** [SubmitOptions::unbounded] and the [with_*] builders. *)
Definition unbounded : SubmitOptions := mkSubmitOptions None None None.
Definition with_cancel (token : CancellationToken) (o : SubmitOptions) : SubmitOptions :=
  mkSubmitOptions (Some token) (so_acquire_timeout o) (so_deadline o).
Definition with_acquire_timeout (timeout : Duration) (o : SubmitOptions) : SubmitOptions :=
  mkSubmitOptions (so_cancel o) (Some timeout) (so_deadline o).
Definition with_deadline (deadline : Duration) (o : SubmitOptions) : SubmitOptions :=
  mkSubmitOptions (so_cancel o) (so_acquire_timeout o) (Some (RunFor deadline)).
Definition with_absolute_deadline (deadline : Instant) (o : SubmitOptions) : SubmitOptions :=
  mkSubmitOptions (so_cancel o) (so_acquire_timeout o) (Some (CompleteBy deadline)).

(** ** The arbiter *)

Inductive RelativeAcquisitionBudget := Unbounded | TryOnce | At (deadline : Instant).

Inductive AcquisitionRejection :=
  | RejectCancelled | RejectAbsoluteDeadline | RejectRelativeTimeout.

Record AcquisitionArbiter := mkArbiter {
  arb_cancel : option CancellationToken;
  arb_absolute_deadline : option Instant;
  arb_relative : RelativeAcquisitionBudget;
}.

(** [AcquisitionArbiter::new]; [now] is its reading of the clock. *)
Definition AcquisitionArbiter_new (opts : SubmitOptions) (absolute_deadline : option Instant)
    (now : Instant) : GovernorError + AcquisitionArbiter :=
  relative ← (match so_acquire_timeout opts with
              | None => inr Unbounded
              | Some timeout =>
                if decide (timeout = 0) then inr TryOnce
                else match instant_add now timeout with
                     | Some deadline => inr (At deadline)
                     | None => inl (policy_violation "acquire timeout exceeds Instant range")
                     end
              end);
  inr (mkArbiter (so_cancel opts) absolute_deadline relative).

(** [wake_deadline]. *)
Definition wake_deadline (a : AcquisitionArbiter) : option Instant :=
  let relative := match arb_relative a with
                  | At deadline => Some deadline
                  | TryOnce | Unbounded => None
                  end in
  match arb_absolute_deadline a, relative with
  | Some absolute, Some relative => Some (N.min absolute relative)
  | Some deadline, None | None, Some deadline => Some deadline
  | None, None => None
  end.

(** An optional token that has fired; an optional instant that has come. *)
Definition is_cancelled (fired : CancellationToken → bool) (token : option CancellationToken)
  : bool :=
  match token with Some token => fired token | None => false end.
Definition has_passed (now : Instant) (deadline : option Instant) : bool :=
  match deadline with Some deadline => bool_decide (deadline ≤ now) | None => false end.

(** [rejection]. *)
Definition rejection (fired : CancellationToken → bool) (a : AcquisitionArbiter) (now : Instant)
    (queued : bool) : option AcquisitionRejection :=
  if is_cancelled fired (arb_cancel a) then Some RejectCancelled
  else if has_passed now (arb_absolute_deadline a) then Some RejectAbsoluteDeadline
  else match arb_relative a with
       | TryOnce => if queued then Some RejectRelativeTimeout else None
       | At deadline =>
         if decide (deadline ≤ now) then Some RejectRelativeTimeout else None
       | Unbounded => None
       end.

(** [to_governor_error]. *)
Definition to_governor_error (r : AcquisitionRejection) (capability_blocked : bool)
  : GovernorError :=
  match r with
  | RejectCancelled => GovernorError.Rejected CancelledBeforeSubmit
  | RejectAbsoluteDeadline => GovernorError.DeadlineExceeded
  | RejectRelativeTimeout =>
    GovernorError.Rejected
      (if capability_blocked then SubstratePoolTimedOut None else PermitAcquireTimedOut None)
  end.

(** ** Facts *)

Lemma has_passed_Some now deadline :
  has_passed now deadline = true ↔ ∃ d, deadline = Some d ∧ d ≤ now.
Proof. destruct deadline; cbn; rewrite ?bool_decide_eq_true; naive_solver. Qed.

Lemma is_cancelled_Some fired token :
  is_cancelled fired token = true ↔ ∃ t, token = Some t ∧ fired t = true.
Proof. destruct token; cbn; naive_solver. Qed.

(** A budget that was out stays out. *)
(** The instant an acquisition sleeps until is one its next look rejects. *)
Lemma wake_deadline_rejects fired a now :
  has_passed now (wake_deadline a) = true → rejection fired a now true ≠ None.
Proof.
  unfold rejection, wake_deadline. destruct (is_cancelled _ _); [done|].
  destruct (arb_absolute_deadline a) as [d|], (arb_relative a) as [|d'|]; cbn;
    repeat case_bool_decide; repeat case_decide; try done; lia.
Qed.

Lemma rejection_fired fired fired' a now queued :
  (∀ token, arb_cancel a = Some token → fired token = fired' token) →
  rejection fired a now queued = rejection fired' a now queued.
Proof.
  intros H. unfold rejection. replace (is_cancelled fired (arb_cancel a)) with (is_cancelled fired' (arb_cancel a));
    [done|]. destruct (arb_cancel a) as [token|]; [symmetry; by apply H|done].
Qed.

Lemma rejection_mono fired fired' a now now' queued :
  (∀ t, fired t = true → fired' t = true) → now ≤ now' →
  is_Some (rejection fired a now queued) → is_Some (rejection fired' a now' queued).
Proof.
  intros Hf Hn. unfold rejection.
  destruct (is_cancelled fired' _) eqn:Ec; [by eexists|].
  destruct (is_cancelled fired _) eqn:Ec0.
  { apply is_cancelled_Some in Ec0 as (t & Et & Ht). rewrite Et in Ec. cbn in Ec.
    by rewrite Hf in Ec. }
  destruct (has_passed now' _) eqn:Ed; [by eexists|].
  destruct (has_passed now _) eqn:Ed0.
  { apply has_passed_Some in Ed0 as (d & E & Hd). rewrite E in Ed. cbn in Ed.
    apply bool_decide_eq_false in Ed. lia. }
  destruct (arb_relative a); [done|by destruct queued|].
  repeat case_decide; [by eexists|lia|by intros [? ?]|done].
Qed.

(** What the constructor makes of the options. *)
Lemma arbiter_fields opts absolute start a :
  AcquisitionArbiter_new opts absolute start = inr a →
  arb_cancel a = so_cancel opts ∧ arb_absolute_deadline a = absolute ∧
  arb_relative a = match so_acquire_timeout opts with
                   | None => Unbounded
                   | Some timeout => if decide (timeout = 0) then TryOnce else At (start + timeout)
                   end ∧
  ∀ timeout, so_acquire_timeout opts = Some timeout → timeout = 0 ∨ start + timeout ≤ INSTANT_MAX.
Proof.
  unfold AcquisitionArbiter_new. intros (relative & Hr & [= <-])%result_bind_inr. cbn.
  destruct (so_acquire_timeout opts) as [timeout|]; [|by simplify_eq].
  case_decide; [simplify_eq; split_and!; [done..|]; intros ? [= <-]; by left|].
  destruct (instant_add start timeout) as [d|] eqn:Ed; [|done].
  apply checked_add_Some in Ed as [-> Hle]. simplify_eq. split_and!; [done..|].
  intros ? [= <-]. by right.
Qed.

Lemma arbiter_refused opts absolute start err :
  AcquisitionArbiter_new opts absolute start = inl err →
  ∃ timeout, so_acquire_timeout opts = Some timeout ∧ timeout ≠ 0 ∧ INSTANT_MAX < start + timeout.
Proof.
  unfold AcquisitionArbiter_new. destruct (so_acquire_timeout opts) as [timeout|]; [|done].
  case_decide; [done|]. unfold instant_add, checked_add. case_decide as Hd; [done|].
  intros _. exists timeout. split_and!; [done..|lia].
Qed.

(** ** The contract *)

(** What the options of a submission say at an instant: its token has fired, the
    completion deadline it was planned with has come, its timeout is over. *)
Definition cancel_fired (fired : CancellationToken → bool) (opts : SubmitOptions) : Prop :=
  ∃ t, so_cancel opts = Some t ∧ fired t = true.
Definition completion_expired (absolute : option Instant) (now : Instant) : Prop :=
  ∃ d, absolute = Some d ∧ d ≤ now.
Definition timed_out (opts : SubmitOptions) (start now : Instant) (queued : bool) : Prop :=
  ∃ timeout, so_acquire_timeout opts = Some timeout ∧
    if decide (timeout = 0) then queued = true else start + timeout ≤ now.

(** C37: The arbiter of a submission enforces its options exactly.  It exists unless
    the timeout ends beyond the clock.  It refuses a submission as cancelled exactly
    when the token of the options has fired; as past its deadline exactly when not
    cancelled and the completion deadline it was planned with has come; as timed out
    exactly when neither is so and the timeout of the options is over, which for a zero
    timeout means that it had to queue and otherwise that [start + timeout] has come; and
    in no other case.  The instant a waiter sleeps to is exactly the first one at which
    an uncancelled waiter that may wait is refused. *)
Theorem arbiter_enforces opts absolute start :
  match AcquisitionArbiter_new opts absolute start with
  | inl _ => ∃ timeout, so_acquire_timeout opts = Some timeout ∧ timeout ≠ 0 ∧
      INSTANT_MAX < start + timeout
  | inr a =>
    (∀ timeout, so_acquire_timeout opts = Some timeout → timeout = 0 ∨ start + timeout ≤ INSTANT_MAX) ∧
    ∀ fired now queued,
      (∀ r, rejection fired a now queued = Some r ↔
        match r with
        | RejectCancelled => cancel_fired fired opts
        | RejectAbsoluteDeadline => ¬ cancel_fired fired opts ∧ completion_expired absolute now
        | RejectRelativeTimeout =>
          ¬ cancel_fired fired opts ∧ ¬ completion_expired absolute now ∧
          timed_out opts start now queued
        end) ∧
      (so_acquire_timeout opts ≠ Some 0 → ¬ cancel_fired fired opts →
       is_Some (rejection fired a now queued) ↔ ∃ d, wake_deadline a = Some d ∧ d ≤ now)
  end.
Proof.
  destruct (AcquisitionArbiter_new opts absolute start) as [err|a] eqn:Ea.
  { by eapply arbiter_refused. }
  apply arbiter_fields in Ea as (Ec & Eabs & Erel & Hmax). split; [done|]. intros fired now queued.
  assert (is_cancelled fired (arb_cancel a) = true ↔ cancel_fired fired opts) as Hc
    by (rewrite Ec; apply is_cancelled_Some).
  assert (has_passed now (arb_absolute_deadline a) = true ↔ completion_expired absolute now) as Hd
    by (rewrite Eabs; apply has_passed_Some).
  assert (match arb_relative a with
          | TryOnce => queued = true | At d => d ≤ now | Unbounded => False
          end ↔ timed_out opts start now queued) as Ht.
  { unfold timed_out. rewrite Erel. destruct (so_acquire_timeout opts) as [timeout|]; [|naive_solver].
    split; [intros H; exists timeout; split; [done|]|intros (? & [= <-] & H)]; by case_decide. }
  revert Hc Hd Ht. generalize (cancel_fired fired opts) (completion_expired absolute now)
    (timed_out opts start now queued). intros C D T Hc Hd Ht. unfold rejection.
  split.
  - destruct (is_cancelled _ _); [intros []; naive_solver|].
    destruct (has_passed _ _); [intros []; naive_solver|].
    destruct (arb_relative a); [|destruct queued|case_decide]; intros []; naive_solver.
  - intros H0 HC. destruct (is_cancelled _ _); [naive_solver|].
    assert (arb_relative a ≠ TryOnce) as Hr.
    { rewrite Erel. destruct (so_acquire_timeout opts); [case_decide; congruence|done]. }
    unfold wake_deadline. clear Hc Hd Ht Erel.
    destruct (arb_absolute_deadline a) as [d|], (arb_relative a) as [| |d']; try done; cbn [has_passed];
      repeat (case_bool_decide || case_decide);
      split; first [done | by intros [? [=]] | by intros (? & [=] & _)
        | intros (d1 & [= <-] & ?); first [done | lia | by eexists]
        | intros _; eexists; split; [done|lia]].
Qed.

(** A token, a timeout of 5 ns set at instant 100, and a deadline at 103. *)
Lemma arbiter_enforces_witness :
  let opts := with_cancel 7 (with_acquire_timeout 5 unbounded) in
  ∃ a, AcquisitionArbiter_new opts (Some 103) 100 = inr a ∧
    rejection (λ t, bool_decide (t = 7)) a 104 true = Some RejectCancelled ∧
    rejection (λ _, false) a 104 true = Some RejectAbsoluteDeadline.
Proof.
  exists (mkArbiter (Some 7) (Some 103) (At 105)). split; [reflexivity|].
  destruct (arbiter_enforces (with_cancel 7 (with_acquire_timeout 5 unbounded)) (Some 103) 100) as [_ H].
  split.
  - apply (proj1 (H (λ t, bool_decide (t = 7)) 104 true) RejectCancelled).
    exists 7. split; reflexivity.
  - apply (proj1 (H (λ _, false) 104 true) RejectAbsoluteDeadline). split.
    + intros (t & _ & Ht). discriminate Ht.
    + exists 103. split; [reflexivity|]. intros E. discriminate E.
Defined.
