(* ===== verification/Executors.v ===== *)
(** * Driven ports and CPU executors

    crates/taskmesh-contract/src/ports.rs (the clocks and the declaration an
    executor makes), crates/taskmesh/src/executor/tokio_exec.rs (the default
    executor) and crates/taskmesh-rayon/src/lib.rs (the Rayon adapter).  An executor
    is what it declares: running the work is the adapter's library, and the waker
    ports are traits without code.  The Rayon thread pool is a parameter. *)

From S2P Require Import Prelude Contract Text Topology Kernel Errors.

(** ** Clocks *)

(** [SystemClock::now_ms], for the wall clock's distance from the epoch in
    nanoseconds; [None] is a clock before the epoch. *)
Definition SystemClock_now_ms (since_epoch : option N) : N :=
  let millis := default 0 since_epoch / 1000000 in
  if decide (millis ≤ U64_MAX) then millis else U64_MAX.

(** [ManualClock]: its atomic cell.  [fetch_add] wraps. *)
Record ManualClock := mkManualClock { manual_now_ms : N }.
Definition ManualClock_new (now_ms : N) : ManualClock := mkManualClock now_ms.
Definition ManualClock_set (now_ms : N) (c : ManualClock) : ManualClock := mkManualClock now_ms.
Definition ManualClock_advance (by_ms : N) (c : ManualClock) : ManualClock :=
  mkManualClock (wadd U64_MAX (manual_now_ms c) by_ms).

(** ** What an executor declares *)

Record ExecutorCapabilities := mkExecutor {
  ec_nonblocking_submit : bool;
  ec_declared_workers : option N;
  ec_exclusive_pool : bool;
  ec_physical_domain : option string;
  ec_requires_tokio_context : bool;
}.

(** [ExecutorCapabilities::legacy] and the builders. *)
Definition legacy : ExecutorCapabilities := mkExecutor false None false None false.
Definition nonblocking_submit (value : bool) (c : ExecutorCapabilities) : ExecutorCapabilities :=
  mkExecutor value (ec_declared_workers c) (ec_exclusive_pool c) (ec_physical_domain c)
    (ec_requires_tokio_context c).
Definition declared_workers (value : N) (c : ExecutorCapabilities) : ExecutorCapabilities :=
  mkExecutor (ec_nonblocking_submit c) (Some value) (ec_exclusive_pool c) (ec_physical_domain c)
    (ec_requires_tokio_context c).
Definition exclusive_pool (value : bool) (c : ExecutorCapabilities) : ExecutorCapabilities :=
  mkExecutor (ec_nonblocking_submit c) (ec_declared_workers c) value (ec_physical_domain c)
    (ec_requires_tokio_context c).
Definition physical_domain (value : string) (c : ExecutorCapabilities) : ExecutorCapabilities :=
  mkExecutor (ec_nonblocking_submit c) (ec_declared_workers c) (ec_exclusive_pool c) (Some value)
    (ec_requires_tokio_context c).
Definition requires_tokio_context (value : bool) (c : ExecutorCapabilities)
  : ExecutorCapabilities :=
  mkExecutor (ec_nonblocking_submit c) (ec_declared_workers c) (ec_exclusive_pool c)
    (ec_physical_domain c) value.

(** ** The default executor: tokio_exec.rs *)

(** [BlockingPoolCpuExecutor::capabilities]. *)
Definition BlockingPool_capabilities (physical_workers : N) : ExecutorCapabilities :=
  requires_tokio_context true (physical_domain PHYSICAL_SHARED_BLOCKING
    (exclusive_pool false (declared_workers physical_workers (nonblocking_submit true legacy)))).

(** ** The Rayon adapter *)

Section rayon.
(** [rayon::ThreadPool]: built for a number of threads, asked for that number. *)
Context {ThreadPool ThreadPoolBuildError : Type}.
Context (build_pool : N → ThreadPoolBuildError + ThreadPool) (current_num_threads : ThreadPool → N).

Inductive RayonBuildError :=
  | ZeroWorkers
  | RayonInvalidTopology (error : TopologyError)
  | Pool (error : ThreadPoolBuildError).

(** [Display for RayonBuildError], given that of the pool's error. *)
Definition rayon_error_text (pool_error_text : ThreadPoolBuildError → string) (e : RayonBuildError)
  : string :=
  match e with
  | ZeroWorkers => "rayon worker count must be nonzero"
  | RayonInvalidTopology error => "invalid rayon topology: " +:+ topology_text error
  | Pool error => "rayon pool construction failed: " +:+ pool_error_text error
  end.

Record RayonCpuExecutor := mkRayon { rayon_pool : ThreadPool; rayon_exclusive : bool }.

Definition RayonCpuExecutor_try_new (workers : N) : RayonBuildError + RayonCpuExecutor :=
  if decide (workers = 0) then inl ZeroWorkers
  else match build_pool workers with
       | inl error => inl (Pool error)
       | inr pool => inr (mkRayon pool true)
       end.

Definition RayonCpuExecutor_try_from_topology (t : TopologyConfig) (available : N)
  : RayonBuildError + RayonCpuExecutor :=
  match try_resolved_cpu_workers t available with
  | inl error => inl (RayonInvalidTopology error)
  | inr workers => RayonCpuExecutor_try_new workers
  end.

Definition RayonCpuExecutor_with_pool (pool : ThreadPool) : RayonCpuExecutor := mkRayon pool false.
Definition worker_count (e : RayonCpuExecutor) : N := current_num_threads (rayon_pool e).

Definition Rayon_capabilities (e : RayonCpuExecutor) : ExecutorCapabilities :=
  let workers := if decide (worker_count e ≤ U32_MAX) then worker_count e else U32_MAX in
  physical_domain PHYSICAL_CPU (exclusive_pool (rayon_exclusive e)
    (declared_workers workers (nonblocking_submit true legacy))).
End rayon.
