(* ===== verification/PolicyCheck.v ===== *)
(** * Policy validation: governor/validation.rs

    crates/taskmesh-engine/src/engine/governor/validation.rs: the fail-closed
    check a policy passes before a governor exists.  [policy_wf] is what the check
    promises, free of the order in which it looks. *)

From S2P Require Import Prelude Contract Text Validation Kernel.

(** [std::mem::discriminant] of a fairness policy. *)
Definition discriminant (f : FairnessPolicy) : N :=
  match f with
  | Fifo => 0
  | WeightedFairQueue _ _ => 1
  | DeficitRoundRobin _ => 2
  | DeadlineAware _ => 3
  | BestEffortScavenger => 4
  end.

(** [if condition { return Err(violation) }]. *)
Definition reject_if (b : bool) (v : Violation) : Checked () := if b then inl v else inr ().

(** [budget != 0 && cost > budget]. *)
Definition exceeds (budget cost : N) : bool :=
  negb (bool_decide (budget = 0)) && bool_decide (budget < cost).

(** ** The inventory: [validate_inventory] *)

Fixpoint validate_registry_keys (entries : list (string * SubstrateRecord)) : Checked () :=
  match entries with
  | [] => inr ()
  | (key, record) :: entries' =>
    _ ← validate_record record;
    _ ← reject_if (negb (bool_decide (key = sr_name record)))
          (RegistryKeyMismatch key (sr_name record));
    validate_registry_keys entries'
  end.

Fixpoint validate_builtins (registry : gmap string SubstrateRecord) (rs : list SubstrateRecord)
  : Checked () :=
  match rs with
  | [] => inr ()
  | expected :: rs' =>
    match registry !! sr_name expected with
    | None => inl (MissingBuiltin (sr_name expected))
    | Some found =>
      _ ← reject_if (negb (bool_decide (sr_kind found = sr_kind expected))
                     || negb (bool_decide (sr_capability_pool found = sr_capability_pool expected)))
            (NonCanonicalBuiltin (sr_name expected));
      validate_builtins registry rs'
    end
  end.

Fixpoint validate_capability_records (P : PolicySet) (rs : list CapabilityRecord) : Checked () :=
  match rs with
  | [] => inr ()
  | r :: rs' =>
    let name := cap_name (cr_id r) in
    _ ← reject_if (negb (existsb (λ s, provides_capability s name) (btree_values (ps_substrates P))))
          (UnprovidedCapability name);
    validate_capability_records P rs'
  end.

Fixpoint validate_authorities (P : PolicySet) (rs : list SubstrateRecord) : Checked () :=
  match rs with
  | [] => inr ()
  | r :: rs' =>
    _ ← (if decide (sr_kind r = AuthorityOnly) then inr ()
         else match sr_capability_pool r with
              | None => inr ()
              | Some pool =>
                match resolve_capability P pool with
                | inl _ => inl (SubstrateWithoutAuthority (sr_name r) pool)
                | inr _ => inr ()
                end
              end);
    validate_authorities P rs'
  end.

Definition validate_inventory (P : PolicySet) : Checked () :=
  _ ← validate_registry_keys (btree_to_list (ps_substrates P));
  _ ← validate_builtins (ps_substrates P) builtin_records;
  _ ← validate_capability_records P (btree_values (ps_capabilities P));
  validate_authorities P (btree_values (ps_substrates P)).

(** ** One class of [validate_policy] *)

(** The degrade part: a hop to a live class that does not itself degrade. *)
Definition validate_degrade (P : PolicySet) (class : TaskClass) (p : ClassPolicy) : Checked () :=
  match memory_overcommit_policy p with
  | DegradeToLight fallback_class =>
    _ ← reject_if (bool_decide (fallback_class = class)) (DegradesToItself class);
    match ps_classes P !! fallback_class with
    | None => inl (DegradesToUnknown class fallback_class)
    | Some fallback =>
      _ ← reject_if (is_disabled fallback) (DegradesToDisabled class fallback_class);
      reject_if (match memory_overcommit_policy fallback with
                 | DegradeToLight _ => true
                 | _ => false
                 end) (DegradeChains class fallback_class)
    end
  | _ => inr ()
  end.

Definition validate_class (P : PolicySet) (class : TaskClass) (p : ClassPolicy) : Checked () :=
  let budget := ps_resources P in
  let cost := permit_cost p in
  _ ← match class_validate class with
      | inl _ => inl (InvalidPolicyClass class)
      | inr _ => inr ()
      end;
  _ ← reject_if (exceeds (per_request_max_cpu_units budget) (pc_cpu_units cost))
        (PerRequestCpuExceeded class);
  _ ← reject_if (exceeds (per_request_max_memory_units budget) (pc_memory_units cost))
        (PerRequestMemoryExceeded class);
  _ ← reject_if (exceeds (max_cpu_units budget) (pc_cpu_units cost)) (GlobalCpuExceeded class);
  _ ← reject_if (exceeds (max_memory_units budget) (pc_memory_units cost))
        (GlobalMemoryExceeded class);
  _ ← reject_if (match memory_permit_mode p with
                 | Measured | Hybrid =>
                   bool_decide (bytes_per_unit (memory_unit_scale budget) = 0)
                 | Estimated => false
                 end) (UnscaledMeasuredMode class);
  _ ← reject_if (bool_decide (overflow_policy p = QueueWithinDepth)
                 && bool_decide (max_queue_depth p = 0)) (QueueableWithoutDepth class);
  _ ← reject_if (bool_decide (fairness p = BestEffortScavenger) && negb (best_effort p))
        (ScavengerNotBestEffort class);
  _ ← reject_if (match fairness p with
                 | WeightedFairQueue weight _ => bool_decide (weight = 0)
                 | _ => false
                 end) (ZeroWeight class);
  _ ← reject_if (bool_decide (fairness p = DeficitRoundRobin 0)) (ZeroQuantum class);
  _ ← reject_if (bool_decide (memory_overcommit_policy p = OvercommitQueue)
                 && bool_decide (max_queue_depth p = 0)) (OvercommitQueueWithoutDepth class);
  validate_degrade P class p.

Fixpoint validate_classes (P : PolicySet) (entries : list (TaskClass * ClassPolicy)) : Checked () :=
  match entries with
  | [] => inr ()
  | (class, p) :: entries' => _ ← validate_class P class p; validate_classes P entries'
  end.

(** The tier loop: one discipline kind per scheduling tier, disabled classes
    exempt. *)
Fixpoint validate_tiers (primary_kind best_effort_kind : option N)
    (entries : list (TaskClass * ClassPolicy)) : Checked () :=
  match entries with
  | [] => inr ()
  | (class, p) :: entries' =>
    if is_disabled p then validate_tiers primary_kind best_effort_kind entries'
    else
      let kind := discriminant (fairness p) in
      let tier := if best_effort p then best_effort_kind else primary_kind in
      match tier with
      | None =>
        if best_effort p then validate_tiers primary_kind (Some kind) entries'
        else validate_tiers (Some kind) best_effort_kind entries'
      | Some existing =>
        if decide (existing = kind) then validate_tiers primary_kind best_effort_kind entries'
        else inl (MixedFairness class)
      end
  end.

(** [validate_policy]. *)
Definition validate_policy (P : PolicySet) : Checked () :=
  _ ← validate_inventory P;
  _ ← validate_classes P (btree_to_list (ps_classes P));
  validate_tiers None None (btree_to_list (ps_classes P)).

(** ** What a validated policy satisfies *)

Definition affords (budget cost : N) : Prop := budget = 0 ∨ cost ≤ budget.

Definition degrade_wf (P : PolicySet) (class : TaskClass) (p : ClassPolicy) : Prop :=
  ∀ fallback_class, memory_overcommit_policy p = DegradeToLight fallback_class →
    fallback_class ≠ class ∧
    ∃ fallback, ps_class P fallback_class = Some fallback ∧ max_inflight fallback ≠ 0 ∧
      ∀ c, memory_overcommit_policy fallback ≠ DegradeToLight c.

Record class_wf (P : PolicySet) (class : TaskClass) (p : ClassPolicy) : Prop := {
  cw_name : identifier class;
  cw_request_cpu : affords (per_request_max_cpu_units (ps_resources P)) (pc_cpu_units (permit_cost p));
  cw_request_memory :
    affords (per_request_max_memory_units (ps_resources P)) (pc_memory_units (permit_cost p));
  cw_cpu : affords (max_cpu_units (ps_resources P)) (pc_cpu_units (permit_cost p));
  cw_memory : affords (max_memory_units (ps_resources P)) (pc_memory_units (permit_cost p));
  cw_scale :
    memory_permit_mode p ≠ Estimated → bytes_per_unit (memory_unit_scale (ps_resources P)) ≠ 0;
  cw_depth : overflow_policy p = QueueWithinDepth → max_queue_depth p ≠ 0;
  cw_overcommit_depth : memory_overcommit_policy p = OvercommitQueue → max_queue_depth p ≠ 0;
  cw_scavenger : fairness p = BestEffortScavenger → best_effort p = true;
  cw_weight weight burst : fairness p = WeightedFairQueue weight burst → weight ≠ 0;
  cw_quantum quantum : fairness p = DeficitRoundRobin quantum → quantum ≠ 0;
  cw_degrade : degrade_wf P class p;
}.

(** The live classes of one tier share their discipline. *)
Definition tiers_agree (entries : list (TaskClass * ClassPolicy)) : Prop :=
  ∀ c1 p1 c2 p2, (c1, p1) ∈ entries → (c2, p2) ∈ entries →
    is_disabled p1 = false → is_disabled p2 = false → best_effort p1 = best_effort p2 →
    discriminant (fairness p1) = discriminant (fairness p2).

Record inventory_wf (P : PolicySet) : Prop := {
  iw_keys key r : ps_substrates P !! key = Some r → validate_record r = inr () ∧ sr_name r = key;
  iw_builtins : Forall (λ r, ps_substrates P !! sr_name r = Some r) builtin_records;
  iw_capabilities id r : ps_capabilities P !! id = Some r →
    ∃ name s, ps_substrates P !! name = Some s ∧ provides_capability s (cap_name (cr_id r)) = true;
  iw_authorities name s pool : ps_substrates P !! name = Some s → sr_kind s ≠ AuthorityOnly →
    sr_capability_pool s = Some pool → ∃ c, resolve_capability P pool = inr c;
}.

Record policy_wf (P : PolicySet) : Prop := {
  pw_inventory : inventory_wf P;
  pw_classes class p : ps_class P class = Some p → class_wf P class p;
  pw_tiers : tiers_agree (btree_to_list (ps_classes P));
}.

(** ** The check is exactly its promise *)

Lemma reject_if_inr b v : reject_if b v = inr () ↔ b = false.
Proof. by destruct b. Qed.

(** A guarded step of a validator. *)
Lemma reject_if_bind b v (k : () → Checked ()) :
  (reject_if b v ≫= k) = inr () ↔ b = false ∧ k () = inr ().
Proof. destruct b; cbn; naive_solver. Qed.

Lemma step_bind (m : Checked ()) (k : () → Checked ()) :
  (m ≫= k) = inr () ↔ m = inr () ∧ k () = inr ().
Proof. destruct m as [|[]]; cbn; naive_solver. Qed.

Lemma exceeds_false budget cost : exceeds budget cost = false ↔ affords budget cost.
Proof.
  unfold exceeds, affords. rewrite andb_false_iff, negb_false_iff, bool_decide_eq_true,
    bool_decide_eq_false. split; intros [?|?]; (by left) || (right; lia).
Qed.

Lemma validate_registry_keys_inr entries :
  validate_registry_keys entries = inr () ↔
  ∀ key r, (key, r) ∈ entries → validate_record r = inr () ∧ sr_name r = key.
Proof.
  induction entries as [|[key r] entries IH]; cbn [validate_registry_keys].
  { split; [|done]. intros _ key r H. by apply elem_of_nil in H. }
  rewrite step_bind, reject_if_bind, IH, negb_false_iff, bool_decide_eq_true.
  setoid_rewrite elem_of_cons. naive_solver.
Qed.

Lemma validate_builtins_inr registry rs :
  validate_builtins registry rs = inr () ↔
  Forall (λ e, ∃ r, registry !! sr_name e = Some r ∧ sr_kind r = sr_kind e ∧
                    sr_capability_pool r = sr_capability_pool e) rs.
Proof.
  induction rs as [|e rs IH]; cbn [validate_builtins]; [done|]. rewrite Forall_cons.
  destruct (registry !! sr_name e) as [r|]; [|naive_solver].
  rewrite reject_if_bind, IH, orb_false_iff, !negb_false_iff, !bool_decide_eq_true. naive_solver.
Qed.

Lemma validate_capability_records_inr P rs :
  validate_capability_records P rs = inr () ↔
  Forall (λ r, ∃ name s, ps_substrates P !! name = Some s ∧
                         provides_capability s (cap_name (cr_id r)) = true) rs.
Proof.
  induction rs as [|r rs IH]; cbn [validate_capability_records]; [done|].
  rewrite Forall_cons, reject_if_bind, IH, negb_false_iff, existsb_exists.
  setoid_rewrite <-list_elem_of_In. unfold btree_values. setoid_rewrite list_elem_of_fmap.
  assert ((∃ x, (∃ y, x = y.2 ∧ y ∈ btree_to_list (ps_substrates P)) ∧
                provides_capability x (cap_name (cr_id r)) = true) ↔
          (∃ name s, ps_substrates P !! name = Some s ∧
                     provides_capability s (cap_name (cr_id r)) = true)) as ->; [|done].
  setoid_rewrite <-elem_of_btree_to_list. split.
  - intros (s & ([name s'] & -> & Hin) & H). by exists name, s'.
  - intros (name & s & Hin & H). exists s. split; [by exists (name, s)|done].
Qed.

Lemma validate_authorities_inr P rs :
  validate_authorities P rs = inr () ↔
  Forall (λ s, ∀ pool, sr_kind s ≠ AuthorityOnly → sr_capability_pool s = Some pool →
                 ∃ c, resolve_capability P pool = inr c) rs.
Proof.
  induction rs as [|s rs IH]; cbn [validate_authorities]; [done|].
  rewrite Forall_cons, step_bind, IH. case_decide; [naive_solver|].
  destruct (sr_capability_pool s) as [pool|]; [|naive_solver].
  destruct (resolve_capability P pool) as [x|c] eqn:E.
  - split; [by intros []|]. intros [Ha _]. destruct (Ha pool) as [c Hc]; congruence.
  - split; [|naive_solver]. intros [_ Ha]. split; [|done]. intros pool' _ [= <-]. by exists c.
Qed.

Lemma validate_inventory_inr P : validate_inventory P = inr () ↔ inventory_wf P.
Proof.
  unfold validate_inventory.
  rewrite !step_bind, validate_registry_keys_inr, validate_builtins_inr,
    validate_capability_records_inr, validate_authorities_inr.
  unfold btree_values. rewrite !Forall_fmap.
  setoid_rewrite elem_of_btree_to_list. rewrite !(Forall_forall _ (btree_to_list _)).
  split.
  - intros (H1 & H2 & H3 & H4). split; [done| | |].
    + apply Forall_forall. intros e He. rewrite Forall_forall in H2.
      destruct (H2 e He) as (r & Hr & Hk & Hp). destruct (H1 _ _ Hr) as [_ Hn].
      rewrite Hr. f_equal. destruct r, e. cbn in *. by simplify_eq.
    + intros id r Hr. apply (H3 (id, r)). by apply elem_of_btree_to_list.
    + intros name s pool Hs. apply (H4 (name, s)). by apply elem_of_btree_to_list.
  - intros [H1 H2 H3 H4]. split_and!; [done| | |].
    + eapply Forall_impl; [exact H2|]. intros e He. by exists e.
    + intros [id r] Hr%elem_of_btree_to_list. by apply (H3 id).
    + intros [name s] Hs%elem_of_btree_to_list pool. by apply (H4 name).
Qed.

Lemma validate_degrade_inr P class p : validate_degrade P class p = inr () ↔ degrade_wf P class p.
Proof.
  unfold validate_degrade, degrade_wf, ps_class.
  destruct (memory_overcommit_policy p) as [| |fb] eqn:E; [naive_solver..|].
  rewrite reject_if_bind, bool_decide_eq_false.
  destruct (ps_classes P !! fb) as [f|] eqn:Ef.
  - rewrite reject_if_bind, reject_if_inr. unfold is_disabled. rewrite bool_decide_eq_false.
    destruct (memory_overcommit_policy f) as [| |fb2] eqn:Eo; split.
    all: try (intros (H1 & H2 & H3) c [= <-]; split; [done|]; exists f; by rewrite Eo).
    all: intros H; destruct (H fb eq_refl) as (H1 & f' & H2 & H3 & H4); simplify_eq.
    all: split_and!; try done. by destruct (H4 fb2).
  - split; [naive_solver|]. intros H. destruct (H fb eq_refl) as (_ & f & Hf & _). congruence.
Qed.

Lemma validate_class_inr P class p : validate_class P class p = inr () ↔ class_wf P class p.
Proof.
  unfold validate_class.
  rewrite step_bind, !reject_if_bind, !exceeds_false, validate_degrade_inr.
  rewrite !andb_false_iff, !bool_decide_eq_false, negb_false_iff.
  assert (match class_validate class with
          | inl _ => inl (InvalidPolicyClass class) | inr _ => inr () end = inr () ↔
          identifier class) as ->.
  { rewrite <-(validate_identifier_inr FieldClass class). unfold class_validate.
    destruct (validate_identifier _ _) as [|[]]; naive_solver. }
  split.
  - intros (H1 & H2 & H3 & H4 & H5 & H6 & H7 & H8 & H9 & H10 & H11 & H12). split; try done.
    + destruct (memory_permit_mode p); rewrite ?bool_decide_eq_false in H6; naive_solver.
    + naive_solver.
    + naive_solver.
    + naive_solver.
    + intros w b E. rewrite E, bool_decide_eq_false in H9. done.
    + intros q E ->. naive_solver.
  - intros [H1 H2 H3 H4 H5 H6 H7 H8 H9 H10 H11 H12]. split_and!; try done.
    + destruct (memory_permit_mode p); rewrite ?bool_decide_eq_false; naive_solver.
    + destruct (decide (overflow_policy p = QueueWithinDepth)); naive_solver.
    + destruct (decide (fairness p = BestEffortScavenger)); naive_solver.
    + destruct (fairness p) eqn:E; try done. rewrite bool_decide_eq_false. by eapply H10.
    + intros E. by destruct (H11 _ E).
    + destruct (decide (memory_overcommit_policy p = OvercommitQueue)); naive_solver.
Qed.

Lemma validate_classes_inr P entries :
  validate_classes P entries = inr () ↔ ∀ class p, (class, p) ∈ entries → class_wf P class p.
Proof.
  induction entries as [|[class p] entries IH]; cbn [validate_classes].
  { split; [|done]. intros _ class p H. by apply elem_of_nil in H. }
  rewrite step_bind, IH, validate_class_inr. setoid_rewrite elem_of_cons. naive_solver.
Qed.

(** The kinds recorded so far agree with every later live class of their tier. *)
Definition tier_kind (primary_kind best_effort_kind : option N) (p : ClassPolicy) : option N :=
  if best_effort p then best_effort_kind else primary_kind.

Lemma tiers_agree_cons c p entries :
  tiers_agree ((c, p) :: entries) ↔
  tiers_agree entries ∧
  ∀ c' p', (c', p') ∈ entries → is_disabled p = false → is_disabled p' = false →
    best_effort p = best_effort p' → discriminant (fairness p) = discriminant (fairness p').
Proof.
  unfold tiers_agree. setoid_rewrite elem_of_cons. split; [naive_solver|].
  intros [H1 H2] c1 p1 c2 p2 [?|?] [?|?] ???; simplify_eq; [done|naive_solver| |by eapply H1].
  symmetry. naive_solver.
Qed.

Definition tiers_compatible (pk bk : option N) (entries : list (TaskClass * ClassPolicy)) : Prop :=
  ∀ c p k, (c, p) ∈ entries → is_disabled p = false → tier_kind pk bk p = Some k →
    k = discriminant (fairness p).

Lemma tiers_compatible_cons pk bk c p entries :
  tiers_compatible pk bk ((c, p) :: entries) ↔
  (is_disabled p = false → ∀ k, tier_kind pk bk p = Some k → k = discriminant (fairness p)) ∧
  tiers_compatible pk bk entries.
Proof.
  unfold tiers_compatible. setoid_rewrite elem_of_cons. split.
  - intros H. split; [intros Hd k; apply (H c p k); auto|intros c' p' k Hin; apply (H c'); auto].
  - intros [H1 H2] c' p' k [?|?]; simplify_eq; eauto.
Qed.

(** Recording the kind of an unclaimed tier asks the later classes of that tier
    to agree with it. *)
Lemma tiers_compatible_claim pk bk p entries :
  tier_kind pk bk p = None → is_disabled p = false →
  let kind := Some (discriminant (fairness p)) in
  tiers_compatible (if best_effort p then pk else kind) (if best_effort p then kind else bk) entries ↔
  tiers_compatible pk bk entries ∧
  ∀ c' p', (c', p') ∈ entries → is_disabled p = false → is_disabled p' = false →
    best_effort p = best_effort p' → discriminant (fairness p) = discriminant (fairness p').
Proof.
  intros Hn Hd. cbn. unfold tiers_compatible, tier_kind in *. split.
  - intros H. split.
    + intros c' p' k Hin Hd' Hk. eapply H; [done..|].
      destruct (best_effort p), (best_effort p'); congruence.
    + intros c' p' Hin _ Hd' Hb. eapply H; [done..|]. rewrite <-Hb. by destruct (best_effort p).
  - intros [H1 H2] c' p' k Hin Hd' Hk.
    destruct (decide (best_effort p = best_effort p')) as [Hb|Hb].
    + rewrite <-Hb in Hk. rewrite <-(H2 c' p') by done. destruct (best_effort p); congruence.
    + eapply H1; [done..|]. destruct (best_effort p), (best_effort p'); congruence.
Qed.

Lemma validate_tiers_inr pk bk entries :
  validate_tiers pk bk entries = inr () ↔ tiers_agree entries ∧ tiers_compatible pk bk entries.
Proof.
  revert pk bk. induction entries as [|[c p] entries IH]; intros pk bk; cbn [validate_tiers].
  { split; [|done]. intros _. split; [intros ???? H|intros ??? H]; by apply elem_of_nil in H. }
  rewrite tiers_agree_cons, tiers_compatible_cons.
  destruct (is_disabled p) eqn:Ed.
  { rewrite IH. split; [intros [H1 H2]|by intros [[H1 _] [_ H2]]]. by split_and!. }
  fold (tier_kind pk bk p). destruct (tier_kind pk bk p) as [k|] eqn:Ek.
  - case_decide as Hk; [|split; [done|]; intros (_ & H & _); by destruct Hk; apply H].
    rewrite IH. split; [intros [H1 H2]|by intros [[H1 _] [_ H2]]].
    split_and!; try done; [|by intros _ k' [= <-]].
    intros c' p' Hin _ Hd Hb. rewrite <-Hk. eapply H2; [done..|].
    unfold tier_kind in *. by rewrite <-Hb.
  - pose proof (tiers_compatible_claim pk bk p entries Ek Ed) as Hc. cbn in Hc.
    destruct (best_effort p); rewrite IH, Hc; split; intros H; repeat destruct H as [H ?];
      split_and!; try done; naive_solver.
Qed.

Lemma validate_policy_inr P : validate_policy P = inr () ↔ policy_wf P.
Proof.
  unfold validate_policy.
  rewrite !step_bind, validate_inventory_inr, validate_classes_inr, validate_tiers_inr.
  setoid_rewrite elem_of_btree_to_list. split.
  - intros (H1 & H2 & H3 & _). by split.
  - intros [H1 H2 H3]. split_and!; try done. intros c p k _ _. unfold tier_kind.
    by destruct (best_effort p).
Qed.
