(* ===== verification/Requirements.v ===== *)
(** * Capability requirement sets

    Facts about [from_resolved] and [intersects] of Kernel.v: the vector kept
    sorted by binary search is a set, and the intersection test is the one of
    sets. *)

From S2P Require Import Prelude Contract Text Kernel.

(** ** Sorted vectors *)

Lemma binary_search_from_inr k x l i :
  binary_search_from k x l = inr i → x ∈ l.
Proof.
  revert k. induction l as [|y l IH]; intros k; cbn; [done|]. destruct (rcmp y x) eqn:E; [| |done].
  - intros _. apply rcmp_eq in E as ->. by left.
  - intros H. right. by eapply IH.
Qed.

Lemma binary_search_inr x l i : binary_search x l = inr i → x ∈ l.
Proof. apply binary_search_from_inr. Qed.

Lemma binary_search_from_inl k x l i :
  StronglySorted rlt l → binary_search_from k x l = inl i →
  ∃ l1 l2, l = l1 ++ l2 ∧ i = (k + length l1)%nat ∧
    Forall (λ y, rlt y x) l1 ∧ Forall (λ y, rlt x y) l2.
Proof.
  revert k. induction l as [|y l IH]; intros k Hs; cbn.
  { intros [= <-]. exists [], []. split_and!; try done; cbn; lia. }
  apply StronglySorted_cons in Hs as [Hy Hs]. destruct (rcmp y x) eqn:E; [done| |].
  - intros (l1 & l2 & -> & -> & H1 & H2)%IH; [|done].
    exists (y :: l1), l2. split_and!; [done|cbn; lia| |done]. by constructor.
  - intros [= <-]. exists [], (y :: l). split_and!; [done|cbn; lia|done|].
    assert (rlt x y) as Hxy by (unfold rlt; rewrite (rcmp_flip y x), E; done).
    constructor; [done|]. eapply Forall_impl; [exact Hy|]. intros z Hz. by eapply rcmp_lt_trans.
Qed.

Lemma vec_insert_app {A} (x : A) l1 l2 : vec_insert (length l1) x (l1 ++ l2) = l1 ++ x :: l2.
Proof. unfold vec_insert. by rewrite take_app_length, drop_app_length. Qed.

Lemma sorted_insert (x : CapabilityId) l1 l2 :
  StronglySorted rlt (l1 ++ l2) → Forall (λ y, rlt y x) l1 → Forall (λ y, rlt x y) l2 →
  StronglySorted rlt (l1 ++ x :: l2).
Proof.
  induction l1 as [|y l1 IH]; cbn; intros Hs H1 H2.
  - by apply StronglySorted_cons.
  - apply StronglySorted_cons in Hs as [Hy Hs]. apply Forall_cons in H1 as [Hyx H1].
    apply StronglySorted_cons. split; [|by apply IH].
    apply Forall_app in Hy as [??]. apply Forall_app. split; [done|]. by constructor.
Qed.

Lemma from_resolved_loop_sorted ids caps ids' :
  StronglySorted rlt ids → from_resolved_loop ids caps = inr ids' → StronglySorted rlt ids'.
Proof.
  revert ids. induction caps as [|[|id] caps IH]; intros ids Hs; cbn; [by intros [= <-]|by apply IH|].
  case_decide; [done|]. apply IH.
  destruct (binary_search id ids) as [i|i] eqn:E; [|done].
  apply binary_search_from_inl in E as (l1 & l2 & -> & -> & H1 & H2); [|done].
  rewrite Nat.add_0_l, vec_insert_app. by apply sorted_insert.
Qed.

Lemma sorted_rlt_NoDup (l : list CapabilityId) : StronglySorted rlt l → NoDup l.
Proof.
  induction l as [|x l IH]; intros Hs; [constructor|].
  apply StronglySorted_cons in Hs as [Hx Hs]. constructor; [|by apply IH].
  intros Hin. rewrite Forall_forall in Hx. by apply (rlt_irrefl x), Hx.
Qed.

Lemma from_resolved_NoDup caps ids : from_resolved caps = inr ids → NoDup ids.
Proof.
  intros H. apply sorted_rlt_NoDup. eapply from_resolved_loop_sorted; [|done]. constructor.
Qed.

(** What the loop of [from_resolved] holds after one more capability. *)
Lemma from_resolved_step id ids :
  StronglySorted rlt ids →
  let ids' := match binary_search id ids with
              | inr _ => ids | inl index => vec_insert index id ids end in
  StronglySorted rlt ids' ∧ ∀ id', id' ∈ ids' ↔ id' = id ∨ id' ∈ ids.
Proof.
  intros Hs. cbn. destruct (binary_search id ids) as [i|i] eqn:E.
  - apply binary_search_from_inl in E as (l1 & l2 & -> & -> & H1 & H2); [|done].
    rewrite Nat.add_0_l, vec_insert_app. split; [by apply sorted_insert|]. set_solver.
  - split; [done|]. intros id'. split; [by right|]. intros [->|]; [|done].
    by eapply binary_search_inr.
Qed.

(** ** What a requirement set is *)

Definition registered (c : ResolvedCapability) : option CapabilityId :=
  match c with Ungated => None | Registered id => Some id end.

(** The distinct registered identities of a list of resolved capabilities. *)
Definition distinct_ids (caps : list ResolvedCapability) : list CapabilityId :=
  remove_dups (omap registered caps).

Lemma elem_of_distinct_ids id caps : id ∈ distinct_ids caps ↔ Registered id ∈ caps.
Proof.
  unfold distinct_ids. rewrite elem_of_remove_dups, list_elem_of_omap. split.
  - by intros ([|id'] & ? & [= <-]).
  - intros. by exists (Registered id).
Qed.

Lemma NoDup_subset_length {A} (l k : list A) :
  NoDup l → (∀ x, x ∈ l → x ∈ k) → (length l ≤ length k)%nat.
Proof. intros. by apply submseteq_length, NoDup_submseteq. Qed.

Lemma from_resolved_loop_spec ids caps :
  StronglySorted rlt ids → N.of_nat (length ids) ≤ MAX_CAPABILITY_REQUIREMENTS →
  match from_resolved_loop ids caps with
  | inr ids' =>
    StronglySorted rlt ids' ∧ N.of_nat (length ids') ≤ MAX_CAPABILITY_REQUIREMENTS ∧
    ∀ id, id ∈ ids' ↔ id ∈ ids ∨ Registered id ∈ caps
  | inl e =>
    e = TooManyRequirements MAX_CAPABILITY_REQUIREMENTS ∧
    ∃ ids', NoDup ids' ∧ MAX_CAPABILITY_REQUIREMENTS < N.of_nat (length ids') ∧
      ∀ id, id ∈ ids' → id ∈ ids ∨ Registered id ∈ caps
  end.
Proof.
  revert ids. induction caps as [|[|id] caps IH]; intros ids Hs Hl; cbn [from_resolved_loop].
  - split_and!; [done..|]. intros id. split; [by left|]. intros [?|H]; [done|].
    by apply elem_of_nil in H.
  - specialize (IH ids Hs Hl). destruct (from_resolved_loop ids caps) as [e|ids'].
    + destruct IH as (-> & l & ? & ? & H). split; [done|]. exists l. split_and!; [done..|].
      intros id [?|?]%H; [by left|right; by right].
    + destruct IH as (? & ? & H). split_and!; [done..|]. intros id. rewrite H, elem_of_cons.
      naive_solver.
  - pose proof (from_resolved_step id ids Hs) as [Hs' He]. cbn in Hs', He.
    set (ids1 := match binary_search id ids with inl _ => _ | inr _ => _ end) in *.
    case_decide as Hm.
    + split; [done|]. exists ids1. split_and!; [by apply sorted_rlt_NoDup|done|].
      intros x [->|?]%He; [right; by left|by left].
    + specialize (IH ids1 Hs' ltac:(lia)). destruct (from_resolved_loop ids1 caps) as [e|ids'].
      * destruct IH as (-> & l & ? & ? & H). split; [done|]. exists l. split_and!; [done..|].
        intros x [[->|?]%He|?]%H; [right; by left|by left|right; by right].
      * destruct IH as (? & ? & H). split_and!; [done..|]. intros x.
        rewrite H, He, elem_of_cons. naive_solver.
Qed.

Lemma from_resolved_spec caps :
  match from_resolved caps with
  | inr ids =>
    StronglySorted rlt ids ∧ N.of_nat (length ids) ≤ MAX_CAPABILITY_REQUIREMENTS ∧
    ∀ id, id ∈ ids ↔ Registered id ∈ caps
  | inl e =>
    e = TooManyRequirements MAX_CAPABILITY_REQUIREMENTS ∧
    ∃ ids', NoDup ids' ∧ MAX_CAPABILITY_REQUIREMENTS < N.of_nat (length ids') ∧
      ∀ id, id ∈ ids' → Registered id ∈ caps
  end.
Proof.
  unfold from_resolved. pose proof (from_resolved_loop_spec [] caps) as H.
  specialize (H ltac:(constructor) ltac:(cbn; unfold MAX_CAPABILITY_REQUIREMENTS; lia)).
  destruct (from_resolved_loop [] caps) as [e|ids].
  - destruct H as (-> & l & Hnd & Hl & H). split; [done|]. exists l. split_and!; [done..|].
    intros id [Hid|Hid]%H; [by apply elem_of_nil in Hid|done].
  - destruct H as (Hs & Hl & H). split_and!; [done..|].
    intros id. rewrite H. split; [|by right]. intros [Hid|?]; [|done]. by apply elem_of_nil in Hid.
Qed.

(** [from_resolved] builds the sorted duplicate-free set of the registered
    identities it is given, of at most 32 members; it fails, with the bound, exactly
    when there are more than 32 distinct ones. *)
Theorem from_resolved_correct caps :
  match from_resolved caps with
  | inr ids =>
    StronglySorted rlt ids ∧ (∀ id, id ∈ ids ↔ Registered id ∈ caps) ∧
    N.of_nat (length (distinct_ids caps)) ≤ MAX_CAPABILITY_REQUIREMENTS ∧
    length ids = length (distinct_ids caps)
  | inl e =>
    e = TooManyRequirements MAX_CAPABILITY_REQUIREMENTS ∧
    MAX_CAPABILITY_REQUIREMENTS < N.of_nat (length (distinct_ids caps))
  end.
Proof.
  pose proof (from_resolved_spec caps) as H. destruct (from_resolved caps) as [e|ids].
  - destruct H as (-> & l & Hnd & Hl & H). split; [done|].
    enough (length l ≤ length (distinct_ids caps))%nat by lia.
    apply NoDup_subset_length; [done|]. intros id Hid%H. by apply elem_of_distinct_ids.
  - destruct H as (Hs & Hl & H).
    assert (length ids = length (distinct_ids caps)) as E.
    { apply Nat.le_antisymm; apply NoDup_subset_length;
        try (by apply sorted_rlt_NoDup); try apply NoDup_remove_dups;
        intros id; by rewrite elem_of_distinct_ids, H. }
    split_and!; [done..|rewrite <-E; lia|done].
Qed.

Lemma binary_search_from_found k x l :
  StronglySorted rlt l → x ∈ l → ∃ i, binary_search_from k x l = inr i.
Proof.
  revert k. induction l as [|y l IH]; intros k Hs Hx; cbn; [by apply elem_of_nil in Hx|].
  apply StronglySorted_cons in Hs as [Hy Hs]. destruct (rcmp y x) eqn:E; [by eexists| |].
  - apply elem_of_cons in Hx as [->|Hx]; [by rewrite rcmp_refl in E|by apply IH].
  - apply elem_of_cons in Hx as [->|Hx]; [by rewrite rcmp_refl in E|].
    rewrite Forall_forall in Hy. specialize (Hy x Hx). unfold rlt in Hy. congruence.
Qed.

(** On requirement sets, [intersects] decides whether two requests share a
    capability, the ungated ones forming a domain of their own. *)
Theorem intersects_correct caps caps' c d :
  from_resolved caps = inr c → from_resolved caps' = inr d →
  intersects c d = true ↔ (c = [] ∧ d = []) ∨ ∃ id, Registered id ∈ caps ∧ Registered id ∈ caps'.
Proof.
  intros Hc Hd. pose proof (from_resolved_spec caps) as H. rewrite Hc in H.
  destruct H as (_ & _ & Ec). pose proof (from_resolved_spec caps') as H. rewrite Hd in H.
  destruct H as (Hs & _ & Ed). setoid_rewrite <-Ec. setoid_rewrite <-Ed. unfold intersects.
  destruct (crs_is_empty c && crs_is_empty d) eqn:E.
  { split; [|done]. intros _. left. by destruct c, d. }
  rewrite existsb_exists. setoid_rewrite <-list_elem_of_In. split.
  - intros (id & Hid & Hb). right. exists id. split; [done|].
    destruct (binary_search id d) as [|i] eqn:Es; [done|]. by eapply binary_search_inr.
  - intros [[-> ->]|(id & Hid & Hid')]; [done|]. exists id. split; [done|].
    destruct (binary_search_from_found 0 id d Hs Hid') as [i Hi]. unfold binary_search. by rewrite Hi.
Qed.

Lemma intersects_correct_witness :
  intersects [mkCapabilityId "blocking" 7; mkCapabilityId "cpu" 7] [mkCapabilityId "cpu" 7] = true.
Proof.
  apply (intersects_correct
    [Registered (mkCapabilityId "cpu" 7); Ungated; Registered (mkCapabilityId "blocking" 7)]
    [Registered (mkCapabilityId "cpu" 7)]); [vm_compute; reflexivity|vm_compute; reflexivity|].
  right. exists (mkCapabilityId "cpu" 7). split; set_solver.
Defined.
