(* ===== verification/State.v ===== *)
(** * The governed state and its transitions

    crates/taskmesh-engine/src/engine/state.rs and engine/state/transition.rs.
    Every method of [GovernedState] is a function from state to state; a method
    that takes [&mut TransitionEffects] threads the effects as well.  A method
    that can panic in release builds ([expect]) returns an option, [None] being
    the panic; [debug_assert!] conditions are not part of the functions but of
    the invariant ([assert_consistent] is the whole-state one, as a boolean). *)

From S2P Require Import Prelude Contract Text Kernel.

(** A host [Arc<dyn PermitWaker>]: the engine only moves it around, so it is the
    identity of the reference. *)
Abbreviation Waker := N (only parsing).

(** [MAX_TERMINAL_TICKETS]. *)
Definition MAX_TERMINAL_TICKETS : N := 4096.

(** ** Data: state.rs *)

(** Which limit, if any, blocks an admission. *)
Inductive CapacityBlock :=
  | BlockOk | BlockInflight | BlockCapability | BlockCpu | BlockMemory
  | BlockQueuedBehind | BlockAccountingFault.
#[export] Instance CapacityBlock_eq_dec : EqDecision CapacityBlock.
Proof. solve_decision. Defined.

(** A request waiting in a class queue for capacity. *)
Record PendingRequest := mkPending {
  (** reserved at intake, consumed by promotion *)
  pr_permit_id : PermitId;
  pr_ticket : Ticket;
  pr_seq_no : N;
  (** physical queue arrival, assigned under the state lock *)
  pr_queue_order : N;
  pr_class : TaskClass;
  pr_request_key : string;
  pr_operation : string;
  pr_root_operation_id : string;
  pr_scope : TaskScope;
  (** the live parent generation observed at enqueue *)
  pr_parent_permit_id : option PermitId;
  pr_target_stage : TaskStage;
  pr_provenance : Provenance;
  pr_cost : ResolvedCost;
  (** frozen at intake *)
  pr_capabilities : CapabilityRequirementSet;
  pr_enqueued_at_ms : N;
  pr_deadline_ms : N;
  pr_finish_tag : N;
  pr_wfq_arrival_tag : N;
  pr_blocked_on : CapacityBlock;
  pr_waker : option Waker;
}.

Definition upd_pr_permit_id (f : PermitId → PermitId) (r : PendingRequest) : PendingRequest :=
  mkPending
    (f (pr_permit_id r)) (pr_ticket r) (pr_seq_no r) (pr_queue_order r) (pr_class r)
    (pr_request_key r) (pr_operation r) (pr_root_operation_id r) (pr_scope r)
    (pr_parent_permit_id r) (pr_target_stage r) (pr_provenance r) (pr_cost r)
    (pr_capabilities r) (pr_enqueued_at_ms r) (pr_deadline_ms r) (pr_finish_tag r)
    (pr_wfq_arrival_tag r) (pr_blocked_on r) (pr_waker r).
Definition upd_pr_ticket (f : Ticket → Ticket) (r : PendingRequest) : PendingRequest :=
  mkPending
    (pr_permit_id r) (f (pr_ticket r)) (pr_seq_no r) (pr_queue_order r) (pr_class r)
    (pr_request_key r) (pr_operation r) (pr_root_operation_id r) (pr_scope r)
    (pr_parent_permit_id r) (pr_target_stage r) (pr_provenance r) (pr_cost r)
    (pr_capabilities r) (pr_enqueued_at_ms r) (pr_deadline_ms r) (pr_finish_tag r)
    (pr_wfq_arrival_tag r) (pr_blocked_on r) (pr_waker r).
Definition upd_pr_seq_no (f : N → N) (r : PendingRequest) : PendingRequest :=
  mkPending
    (pr_permit_id r) (pr_ticket r) (f (pr_seq_no r)) (pr_queue_order r) (pr_class r)
    (pr_request_key r) (pr_operation r) (pr_root_operation_id r) (pr_scope r)
    (pr_parent_permit_id r) (pr_target_stage r) (pr_provenance r) (pr_cost r)
    (pr_capabilities r) (pr_enqueued_at_ms r) (pr_deadline_ms r) (pr_finish_tag r)
    (pr_wfq_arrival_tag r) (pr_blocked_on r) (pr_waker r).
Definition upd_pr_queue_order (f : N → N) (r : PendingRequest) : PendingRequest :=
  mkPending
    (pr_permit_id r) (pr_ticket r) (pr_seq_no r) (f (pr_queue_order r)) (pr_class r)
    (pr_request_key r) (pr_operation r) (pr_root_operation_id r) (pr_scope r)
    (pr_parent_permit_id r) (pr_target_stage r) (pr_provenance r) (pr_cost r)
    (pr_capabilities r) (pr_enqueued_at_ms r) (pr_deadline_ms r) (pr_finish_tag r)
    (pr_wfq_arrival_tag r) (pr_blocked_on r) (pr_waker r).
Definition upd_pr_class (f : TaskClass → TaskClass) (r : PendingRequest) : PendingRequest :=
  mkPending
    (pr_permit_id r) (pr_ticket r) (pr_seq_no r) (pr_queue_order r) (f (pr_class r))
    (pr_request_key r) (pr_operation r) (pr_root_operation_id r) (pr_scope r)
    (pr_parent_permit_id r) (pr_target_stage r) (pr_provenance r) (pr_cost r)
    (pr_capabilities r) (pr_enqueued_at_ms r) (pr_deadline_ms r) (pr_finish_tag r)
    (pr_wfq_arrival_tag r) (pr_blocked_on r) (pr_waker r).
Definition upd_pr_request_key (f : string → string) (r : PendingRequest) : PendingRequest :=
  mkPending
    (pr_permit_id r) (pr_ticket r) (pr_seq_no r) (pr_queue_order r) (pr_class r)
    (f (pr_request_key r)) (pr_operation r) (pr_root_operation_id r) (pr_scope r)
    (pr_parent_permit_id r) (pr_target_stage r) (pr_provenance r) (pr_cost r)
    (pr_capabilities r) (pr_enqueued_at_ms r) (pr_deadline_ms r) (pr_finish_tag r)
    (pr_wfq_arrival_tag r) (pr_blocked_on r) (pr_waker r).
Definition upd_pr_operation (f : string → string) (r : PendingRequest) : PendingRequest :=
  mkPending
    (pr_permit_id r) (pr_ticket r) (pr_seq_no r) (pr_queue_order r) (pr_class r)
    (pr_request_key r) (f (pr_operation r)) (pr_root_operation_id r) (pr_scope r)
    (pr_parent_permit_id r) (pr_target_stage r) (pr_provenance r) (pr_cost r)
    (pr_capabilities r) (pr_enqueued_at_ms r) (pr_deadline_ms r) (pr_finish_tag r)
    (pr_wfq_arrival_tag r) (pr_blocked_on r) (pr_waker r).
Definition upd_pr_root_operation_id (f : string → string) (r : PendingRequest) : PendingRequest :=
  mkPending
    (pr_permit_id r) (pr_ticket r) (pr_seq_no r) (pr_queue_order r) (pr_class r)
    (pr_request_key r) (pr_operation r) (f (pr_root_operation_id r)) (pr_scope r)
    (pr_parent_permit_id r) (pr_target_stage r) (pr_provenance r) (pr_cost r)
    (pr_capabilities r) (pr_enqueued_at_ms r) (pr_deadline_ms r) (pr_finish_tag r)
    (pr_wfq_arrival_tag r) (pr_blocked_on r) (pr_waker r).
Definition upd_pr_scope (f : TaskScope → TaskScope) (r : PendingRequest) : PendingRequest :=
  mkPending
    (pr_permit_id r) (pr_ticket r) (pr_seq_no r) (pr_queue_order r) (pr_class r)
    (pr_request_key r) (pr_operation r) (pr_root_operation_id r) (f (pr_scope r))
    (pr_parent_permit_id r) (pr_target_stage r) (pr_provenance r) (pr_cost r)
    (pr_capabilities r) (pr_enqueued_at_ms r) (pr_deadline_ms r) (pr_finish_tag r)
    (pr_wfq_arrival_tag r) (pr_blocked_on r) (pr_waker r).
Definition upd_pr_parent_permit_id (f : option PermitId → option PermitId) (r : PendingRequest) : PendingRequest :=
  mkPending
    (pr_permit_id r) (pr_ticket r) (pr_seq_no r) (pr_queue_order r) (pr_class r)
    (pr_request_key r) (pr_operation r) (pr_root_operation_id r) (pr_scope r)
    (f (pr_parent_permit_id r)) (pr_target_stage r) (pr_provenance r) (pr_cost r)
    (pr_capabilities r) (pr_enqueued_at_ms r) (pr_deadline_ms r) (pr_finish_tag r)
    (pr_wfq_arrival_tag r) (pr_blocked_on r) (pr_waker r).
Definition upd_pr_target_stage (f : TaskStage → TaskStage) (r : PendingRequest) : PendingRequest :=
  mkPending
    (pr_permit_id r) (pr_ticket r) (pr_seq_no r) (pr_queue_order r) (pr_class r)
    (pr_request_key r) (pr_operation r) (pr_root_operation_id r) (pr_scope r)
    (pr_parent_permit_id r) (f (pr_target_stage r)) (pr_provenance r) (pr_cost r)
    (pr_capabilities r) (pr_enqueued_at_ms r) (pr_deadline_ms r) (pr_finish_tag r)
    (pr_wfq_arrival_tag r) (pr_blocked_on r) (pr_waker r).
Definition upd_pr_provenance (f : Provenance → Provenance) (r : PendingRequest) : PendingRequest :=
  mkPending
    (pr_permit_id r) (pr_ticket r) (pr_seq_no r) (pr_queue_order r) (pr_class r)
    (pr_request_key r) (pr_operation r) (pr_root_operation_id r) (pr_scope r)
    (pr_parent_permit_id r) (pr_target_stage r) (f (pr_provenance r)) (pr_cost r)
    (pr_capabilities r) (pr_enqueued_at_ms r) (pr_deadline_ms r) (pr_finish_tag r)
    (pr_wfq_arrival_tag r) (pr_blocked_on r) (pr_waker r).
Definition upd_pr_cost (f : ResolvedCost → ResolvedCost) (r : PendingRequest) : PendingRequest :=
  mkPending
    (pr_permit_id r) (pr_ticket r) (pr_seq_no r) (pr_queue_order r) (pr_class r)
    (pr_request_key r) (pr_operation r) (pr_root_operation_id r) (pr_scope r)
    (pr_parent_permit_id r) (pr_target_stage r) (pr_provenance r) (f (pr_cost r))
    (pr_capabilities r) (pr_enqueued_at_ms r) (pr_deadline_ms r) (pr_finish_tag r)
    (pr_wfq_arrival_tag r) (pr_blocked_on r) (pr_waker r).
Definition upd_pr_capabilities (f : CapabilityRequirementSet → CapabilityRequirementSet) (r : PendingRequest) : PendingRequest :=
  mkPending
    (pr_permit_id r) (pr_ticket r) (pr_seq_no r) (pr_queue_order r) (pr_class r)
    (pr_request_key r) (pr_operation r) (pr_root_operation_id r) (pr_scope r)
    (pr_parent_permit_id r) (pr_target_stage r) (pr_provenance r) (pr_cost r)
    (f (pr_capabilities r)) (pr_enqueued_at_ms r) (pr_deadline_ms r) (pr_finish_tag r)
    (pr_wfq_arrival_tag r) (pr_blocked_on r) (pr_waker r).
Definition upd_pr_enqueued_at_ms (f : N → N) (r : PendingRequest) : PendingRequest :=
  mkPending
    (pr_permit_id r) (pr_ticket r) (pr_seq_no r) (pr_queue_order r) (pr_class r)
    (pr_request_key r) (pr_operation r) (pr_root_operation_id r) (pr_scope r)
    (pr_parent_permit_id r) (pr_target_stage r) (pr_provenance r) (pr_cost r)
    (pr_capabilities r) (f (pr_enqueued_at_ms r)) (pr_deadline_ms r) (pr_finish_tag r)
    (pr_wfq_arrival_tag r) (pr_blocked_on r) (pr_waker r).
Definition upd_pr_deadline_ms (f : N → N) (r : PendingRequest) : PendingRequest :=
  mkPending
    (pr_permit_id r) (pr_ticket r) (pr_seq_no r) (pr_queue_order r) (pr_class r)
    (pr_request_key r) (pr_operation r) (pr_root_operation_id r) (pr_scope r)
    (pr_parent_permit_id r) (pr_target_stage r) (pr_provenance r) (pr_cost r)
    (pr_capabilities r) (pr_enqueued_at_ms r) (f (pr_deadline_ms r)) (pr_finish_tag r)
    (pr_wfq_arrival_tag r) (pr_blocked_on r) (pr_waker r).
Definition upd_pr_finish_tag (f : N → N) (r : PendingRequest) : PendingRequest :=
  mkPending
    (pr_permit_id r) (pr_ticket r) (pr_seq_no r) (pr_queue_order r) (pr_class r)
    (pr_request_key r) (pr_operation r) (pr_root_operation_id r) (pr_scope r)
    (pr_parent_permit_id r) (pr_target_stage r) (pr_provenance r) (pr_cost r)
    (pr_capabilities r) (pr_enqueued_at_ms r) (pr_deadline_ms r) (f (pr_finish_tag r))
    (pr_wfq_arrival_tag r) (pr_blocked_on r) (pr_waker r).
Definition upd_pr_wfq_arrival_tag (f : N → N) (r : PendingRequest) : PendingRequest :=
  mkPending
    (pr_permit_id r) (pr_ticket r) (pr_seq_no r) (pr_queue_order r) (pr_class r)
    (pr_request_key r) (pr_operation r) (pr_root_operation_id r) (pr_scope r)
    (pr_parent_permit_id r) (pr_target_stage r) (pr_provenance r) (pr_cost r)
    (pr_capabilities r) (pr_enqueued_at_ms r) (pr_deadline_ms r) (pr_finish_tag r)
    (f (pr_wfq_arrival_tag r)) (pr_blocked_on r) (pr_waker r).
Definition upd_pr_blocked_on (f : CapacityBlock → CapacityBlock) (r : PendingRequest) : PendingRequest :=
  mkPending
    (pr_permit_id r) (pr_ticket r) (pr_seq_no r) (pr_queue_order r) (pr_class r)
    (pr_request_key r) (pr_operation r) (pr_root_operation_id r) (pr_scope r)
    (pr_parent_permit_id r) (pr_target_stage r) (pr_provenance r) (pr_cost r)
    (pr_capabilities r) (pr_enqueued_at_ms r) (pr_deadline_ms r) (pr_finish_tag r)
    (pr_wfq_arrival_tag r) (f (pr_blocked_on r)) (pr_waker r).
Definition upd_pr_waker (f : option Waker → option Waker) (r : PendingRequest) : PendingRequest :=
  mkPending
    (pr_permit_id r) (pr_ticket r) (pr_seq_no r) (pr_queue_order r) (pr_class r)
    (pr_request_key r) (pr_operation r) (pr_root_operation_id r) (pr_scope r)
    (pr_parent_permit_id r) (pr_target_stage r) (pr_provenance r) (pr_cost r)
    (pr_capabilities r) (pr_enqueued_at_ms r) (pr_deadline_ms r) (pr_finish_tag r)
    (pr_wfq_arrival_tag r) (pr_blocked_on r) (f (pr_waker r)).

(** Per-class admission state and queue. *)
Record ClassState := mkClassState {
  cs_inflight : N;
  cs_queue : list PendingRequest;
  (** arrival index for same-domain FIFO *)
  cs_queued_by_capability : gmap CapabilityId (gset N);
  cs_queued_ungated : gset N;
  cs_queued_awaited_children : gset N;
  cs_last_finish_tag : N;
  cs_last_served_finish_tag : N;
  cs_deficit : N;
  cs_cpu_units_held : N;
  cs_memory_units_held : N;
  cs_dispatch_reserved : N;
  cs_accepted : N;
  cs_running : N;
  cs_cleanup_pending : N;
  cs_admitted_total : N;
  cs_started_total : N;
  cs_terminated_total : N;
}.

Definition upd_cs_inflight (f : N → N) (r : ClassState) : ClassState :=
  mkClassState
    (f (cs_inflight r)) (cs_queue r) (cs_queued_by_capability r) (cs_queued_ungated r)
    (cs_queued_awaited_children r) (cs_last_finish_tag r) (cs_last_served_finish_tag r)
    (cs_deficit r) (cs_cpu_units_held r) (cs_memory_units_held r) (cs_dispatch_reserved r)
    (cs_accepted r) (cs_running r) (cs_cleanup_pending r) (cs_admitted_total r)
    (cs_started_total r) (cs_terminated_total r).
Definition upd_cs_queue (f : list PendingRequest → list PendingRequest) (r : ClassState) : ClassState :=
  mkClassState
    (cs_inflight r) (f (cs_queue r)) (cs_queued_by_capability r) (cs_queued_ungated r)
    (cs_queued_awaited_children r) (cs_last_finish_tag r) (cs_last_served_finish_tag r)
    (cs_deficit r) (cs_cpu_units_held r) (cs_memory_units_held r) (cs_dispatch_reserved r)
    (cs_accepted r) (cs_running r) (cs_cleanup_pending r) (cs_admitted_total r)
    (cs_started_total r) (cs_terminated_total r).
Definition upd_cs_queued_by_capability (f : gmap CapabilityId (gset N) → gmap CapabilityId (gset N)) (r : ClassState) : ClassState :=
  mkClassState
    (cs_inflight r) (cs_queue r) (f (cs_queued_by_capability r)) (cs_queued_ungated r)
    (cs_queued_awaited_children r) (cs_last_finish_tag r) (cs_last_served_finish_tag r)
    (cs_deficit r) (cs_cpu_units_held r) (cs_memory_units_held r) (cs_dispatch_reserved r)
    (cs_accepted r) (cs_running r) (cs_cleanup_pending r) (cs_admitted_total r)
    (cs_started_total r) (cs_terminated_total r).
Definition upd_cs_queued_ungated (f : gset N → gset N) (r : ClassState) : ClassState :=
  mkClassState
    (cs_inflight r) (cs_queue r) (cs_queued_by_capability r) (f (cs_queued_ungated r))
    (cs_queued_awaited_children r) (cs_last_finish_tag r) (cs_last_served_finish_tag r)
    (cs_deficit r) (cs_cpu_units_held r) (cs_memory_units_held r) (cs_dispatch_reserved r)
    (cs_accepted r) (cs_running r) (cs_cleanup_pending r) (cs_admitted_total r)
    (cs_started_total r) (cs_terminated_total r).
Definition upd_cs_queued_awaited_children (f : gset N → gset N) (r : ClassState) : ClassState :=
  mkClassState
    (cs_inflight r) (cs_queue r) (cs_queued_by_capability r) (cs_queued_ungated r)
    (f (cs_queued_awaited_children r)) (cs_last_finish_tag r) (cs_last_served_finish_tag r)
    (cs_deficit r) (cs_cpu_units_held r) (cs_memory_units_held r) (cs_dispatch_reserved r)
    (cs_accepted r) (cs_running r) (cs_cleanup_pending r) (cs_admitted_total r)
    (cs_started_total r) (cs_terminated_total r).
Definition upd_cs_last_finish_tag (f : N → N) (r : ClassState) : ClassState :=
  mkClassState
    (cs_inflight r) (cs_queue r) (cs_queued_by_capability r) (cs_queued_ungated r)
    (cs_queued_awaited_children r) (f (cs_last_finish_tag r)) (cs_last_served_finish_tag r)
    (cs_deficit r) (cs_cpu_units_held r) (cs_memory_units_held r) (cs_dispatch_reserved r)
    (cs_accepted r) (cs_running r) (cs_cleanup_pending r) (cs_admitted_total r)
    (cs_started_total r) (cs_terminated_total r).
Definition upd_cs_last_served_finish_tag (f : N → N) (r : ClassState) : ClassState :=
  mkClassState
    (cs_inflight r) (cs_queue r) (cs_queued_by_capability r) (cs_queued_ungated r)
    (cs_queued_awaited_children r) (cs_last_finish_tag r) (f (cs_last_served_finish_tag r))
    (cs_deficit r) (cs_cpu_units_held r) (cs_memory_units_held r) (cs_dispatch_reserved r)
    (cs_accepted r) (cs_running r) (cs_cleanup_pending r) (cs_admitted_total r)
    (cs_started_total r) (cs_terminated_total r).
Definition upd_cs_deficit (f : N → N) (r : ClassState) : ClassState :=
  mkClassState
    (cs_inflight r) (cs_queue r) (cs_queued_by_capability r) (cs_queued_ungated r)
    (cs_queued_awaited_children r) (cs_last_finish_tag r) (cs_last_served_finish_tag r)
    (f (cs_deficit r)) (cs_cpu_units_held r) (cs_memory_units_held r) (cs_dispatch_reserved r)
    (cs_accepted r) (cs_running r) (cs_cleanup_pending r) (cs_admitted_total r)
    (cs_started_total r) (cs_terminated_total r).
Definition upd_cs_cpu_units_held (f : N → N) (r : ClassState) : ClassState :=
  mkClassState
    (cs_inflight r) (cs_queue r) (cs_queued_by_capability r) (cs_queued_ungated r)
    (cs_queued_awaited_children r) (cs_last_finish_tag r) (cs_last_served_finish_tag r)
    (cs_deficit r) (f (cs_cpu_units_held r)) (cs_memory_units_held r) (cs_dispatch_reserved r)
    (cs_accepted r) (cs_running r) (cs_cleanup_pending r) (cs_admitted_total r)
    (cs_started_total r) (cs_terminated_total r).
Definition upd_cs_memory_units_held (f : N → N) (r : ClassState) : ClassState :=
  mkClassState
    (cs_inflight r) (cs_queue r) (cs_queued_by_capability r) (cs_queued_ungated r)
    (cs_queued_awaited_children r) (cs_last_finish_tag r) (cs_last_served_finish_tag r)
    (cs_deficit r) (cs_cpu_units_held r) (f (cs_memory_units_held r)) (cs_dispatch_reserved r)
    (cs_accepted r) (cs_running r) (cs_cleanup_pending r) (cs_admitted_total r)
    (cs_started_total r) (cs_terminated_total r).
Definition upd_cs_dispatch_reserved (f : N → N) (r : ClassState) : ClassState :=
  mkClassState
    (cs_inflight r) (cs_queue r) (cs_queued_by_capability r) (cs_queued_ungated r)
    (cs_queued_awaited_children r) (cs_last_finish_tag r) (cs_last_served_finish_tag r)
    (cs_deficit r) (cs_cpu_units_held r) (cs_memory_units_held r) (f (cs_dispatch_reserved r))
    (cs_accepted r) (cs_running r) (cs_cleanup_pending r) (cs_admitted_total r)
    (cs_started_total r) (cs_terminated_total r).
Definition upd_cs_accepted (f : N → N) (r : ClassState) : ClassState :=
  mkClassState
    (cs_inflight r) (cs_queue r) (cs_queued_by_capability r) (cs_queued_ungated r)
    (cs_queued_awaited_children r) (cs_last_finish_tag r) (cs_last_served_finish_tag r)
    (cs_deficit r) (cs_cpu_units_held r) (cs_memory_units_held r) (cs_dispatch_reserved r)
    (f (cs_accepted r)) (cs_running r) (cs_cleanup_pending r) (cs_admitted_total r)
    (cs_started_total r) (cs_terminated_total r).
Definition upd_cs_running (f : N → N) (r : ClassState) : ClassState :=
  mkClassState
    (cs_inflight r) (cs_queue r) (cs_queued_by_capability r) (cs_queued_ungated r)
    (cs_queued_awaited_children r) (cs_last_finish_tag r) (cs_last_served_finish_tag r)
    (cs_deficit r) (cs_cpu_units_held r) (cs_memory_units_held r) (cs_dispatch_reserved r)
    (cs_accepted r) (f (cs_running r)) (cs_cleanup_pending r) (cs_admitted_total r)
    (cs_started_total r) (cs_terminated_total r).
Definition upd_cs_cleanup_pending (f : N → N) (r : ClassState) : ClassState :=
  mkClassState
    (cs_inflight r) (cs_queue r) (cs_queued_by_capability r) (cs_queued_ungated r)
    (cs_queued_awaited_children r) (cs_last_finish_tag r) (cs_last_served_finish_tag r)
    (cs_deficit r) (cs_cpu_units_held r) (cs_memory_units_held r) (cs_dispatch_reserved r)
    (cs_accepted r) (cs_running r) (f (cs_cleanup_pending r)) (cs_admitted_total r)
    (cs_started_total r) (cs_terminated_total r).
Definition upd_cs_admitted_total (f : N → N) (r : ClassState) : ClassState :=
  mkClassState
    (cs_inflight r) (cs_queue r) (cs_queued_by_capability r) (cs_queued_ungated r)
    (cs_queued_awaited_children r) (cs_last_finish_tag r) (cs_last_served_finish_tag r)
    (cs_deficit r) (cs_cpu_units_held r) (cs_memory_units_held r) (cs_dispatch_reserved r)
    (cs_accepted r) (cs_running r) (cs_cleanup_pending r) (f (cs_admitted_total r))
    (cs_started_total r) (cs_terminated_total r).
Definition upd_cs_started_total (f : N → N) (r : ClassState) : ClassState :=
  mkClassState
    (cs_inflight r) (cs_queue r) (cs_queued_by_capability r) (cs_queued_ungated r)
    (cs_queued_awaited_children r) (cs_last_finish_tag r) (cs_last_served_finish_tag r)
    (cs_deficit r) (cs_cpu_units_held r) (cs_memory_units_held r) (cs_dispatch_reserved r)
    (cs_accepted r) (cs_running r) (cs_cleanup_pending r) (cs_admitted_total r)
    (f (cs_started_total r)) (cs_terminated_total r).
Definition upd_cs_terminated_total (f : N → N) (r : ClassState) : ClassState :=
  mkClassState
    (cs_inflight r) (cs_queue r) (cs_queued_by_capability r) (cs_queued_ungated r)
    (cs_queued_awaited_children r) (cs_last_finish_tag r) (cs_last_served_finish_tag r)
    (cs_deficit r) (cs_cpu_units_held r) (cs_memory_units_held r) (cs_dispatch_reserved r)
    (cs_accepted r) (cs_running r) (cs_cleanup_pending r) (cs_admitted_total r)
    (cs_started_total r) (f (cs_terminated_total r)).

Definition ClassState_default : ClassState :=
  mkClassState 0 [] ∅ ∅ ∅ 0 0 0 0 0 0 0 0 0 0 0 0.

(** Memory/CPU ledger of one outstanding permit. *)
Record PermitLedger := mkLedger {
  pl_cpu_units : N;
  pl_original_estimate_units : N;
  pl_remaining_reservation_units : N;
  pl_measured_bytes : N;
  pl_measurement_sequence : N;
  pl_stage_sequence : N;
  pl_effective_units : N;
  pl_leased_at_ms : N;
  pl_last_touched_ms : N;
}.

Definition upd_pl_cpu_units (f : N → N) (r : PermitLedger) : PermitLedger :=
  mkLedger
    (f (pl_cpu_units r)) (pl_original_estimate_units r) (pl_remaining_reservation_units r)
    (pl_measured_bytes r) (pl_measurement_sequence r) (pl_stage_sequence r)
    (pl_effective_units r) (pl_leased_at_ms r) (pl_last_touched_ms r).
Definition upd_pl_original_estimate_units (f : N → N) (r : PermitLedger) : PermitLedger :=
  mkLedger
    (pl_cpu_units r) (f (pl_original_estimate_units r)) (pl_remaining_reservation_units r)
    (pl_measured_bytes r) (pl_measurement_sequence r) (pl_stage_sequence r)
    (pl_effective_units r) (pl_leased_at_ms r) (pl_last_touched_ms r).
Definition upd_pl_remaining_reservation_units (f : N → N) (r : PermitLedger) : PermitLedger :=
  mkLedger
    (pl_cpu_units r) (pl_original_estimate_units r) (f (pl_remaining_reservation_units r))
    (pl_measured_bytes r) (pl_measurement_sequence r) (pl_stage_sequence r)
    (pl_effective_units r) (pl_leased_at_ms r) (pl_last_touched_ms r).
Definition upd_pl_measured_bytes (f : N → N) (r : PermitLedger) : PermitLedger :=
  mkLedger
    (pl_cpu_units r) (pl_original_estimate_units r) (pl_remaining_reservation_units r)
    (f (pl_measured_bytes r)) (pl_measurement_sequence r) (pl_stage_sequence r)
    (pl_effective_units r) (pl_leased_at_ms r) (pl_last_touched_ms r).
Definition upd_pl_measurement_sequence (f : N → N) (r : PermitLedger) : PermitLedger :=
  mkLedger
    (pl_cpu_units r) (pl_original_estimate_units r) (pl_remaining_reservation_units r)
    (pl_measured_bytes r) (f (pl_measurement_sequence r)) (pl_stage_sequence r)
    (pl_effective_units r) (pl_leased_at_ms r) (pl_last_touched_ms r).
Definition upd_pl_stage_sequence (f : N → N) (r : PermitLedger) : PermitLedger :=
  mkLedger
    (pl_cpu_units r) (pl_original_estimate_units r) (pl_remaining_reservation_units r)
    (pl_measured_bytes r) (pl_measurement_sequence r) (f (pl_stage_sequence r))
    (pl_effective_units r) (pl_leased_at_ms r) (pl_last_touched_ms r).
Definition upd_pl_effective_units (f : N → N) (r : PermitLedger) : PermitLedger :=
  mkLedger
    (pl_cpu_units r) (pl_original_estimate_units r) (pl_remaining_reservation_units r)
    (pl_measured_bytes r) (pl_measurement_sequence r) (pl_stage_sequence r)
    (f (pl_effective_units r)) (pl_leased_at_ms r) (pl_last_touched_ms r).
Definition upd_pl_leased_at_ms (f : N → N) (r : PermitLedger) : PermitLedger :=
  mkLedger
    (pl_cpu_units r) (pl_original_estimate_units r) (pl_remaining_reservation_units r)
    (pl_measured_bytes r) (pl_measurement_sequence r) (pl_stage_sequence r)
    (pl_effective_units r) (f (pl_leased_at_ms r)) (pl_last_touched_ms r).
Definition upd_pl_last_touched_ms (f : N → N) (r : PermitLedger) : PermitLedger :=
  mkLedger
    (pl_cpu_units r) (pl_original_estimate_units r) (pl_remaining_reservation_units r)
    (pl_measured_bytes r) (pl_measurement_sequence r) (pl_stage_sequence r)
    (pl_effective_units r) (pl_leased_at_ms r) (f (pl_last_touched_ms r)).

(** A granted permit and everything needed to unwind it. *)
Record PermitRecord := mkPermit {
  rec_permit_id : PermitId;
  rec_class : TaskClass;
  rec_operation : string;
  rec_root_operation_id : string;
  rec_scope : TaskScope;
  rec_parent_permit_id : option PermitId;
  rec_target_stage : TaskStage;
  rec_provenance : Provenance;
  rec_capabilities : CapabilityRequirementSet;
  rec_phase : ExecutionPhase;
  rec_lease_nonce : option N;
  rec_pending_ticket : option Ticket;
  rec_claim_waker : option Waker;
  rec_ledger : PermitLedger;
}.

Definition upd_rec_permit_id (f : PermitId → PermitId) (r : PermitRecord) : PermitRecord :=
  mkPermit
    (f (rec_permit_id r)) (rec_class r) (rec_operation r) (rec_root_operation_id r)
    (rec_scope r) (rec_parent_permit_id r) (rec_target_stage r) (rec_provenance r)
    (rec_capabilities r) (rec_phase r) (rec_lease_nonce r) (rec_pending_ticket r)
    (rec_claim_waker r) (rec_ledger r).
Definition upd_rec_class (f : TaskClass → TaskClass) (r : PermitRecord) : PermitRecord :=
  mkPermit
    (rec_permit_id r) (f (rec_class r)) (rec_operation r) (rec_root_operation_id r)
    (rec_scope r) (rec_parent_permit_id r) (rec_target_stage r) (rec_provenance r)
    (rec_capabilities r) (rec_phase r) (rec_lease_nonce r) (rec_pending_ticket r)
    (rec_claim_waker r) (rec_ledger r).
Definition upd_rec_operation (f : string → string) (r : PermitRecord) : PermitRecord :=
  mkPermit
    (rec_permit_id r) (rec_class r) (f (rec_operation r)) (rec_root_operation_id r)
    (rec_scope r) (rec_parent_permit_id r) (rec_target_stage r) (rec_provenance r)
    (rec_capabilities r) (rec_phase r) (rec_lease_nonce r) (rec_pending_ticket r)
    (rec_claim_waker r) (rec_ledger r).
Definition upd_rec_root_operation_id (f : string → string) (r : PermitRecord) : PermitRecord :=
  mkPermit
    (rec_permit_id r) (rec_class r) (rec_operation r) (f (rec_root_operation_id r))
    (rec_scope r) (rec_parent_permit_id r) (rec_target_stage r) (rec_provenance r)
    (rec_capabilities r) (rec_phase r) (rec_lease_nonce r) (rec_pending_ticket r)
    (rec_claim_waker r) (rec_ledger r).
Definition upd_rec_scope (f : TaskScope → TaskScope) (r : PermitRecord) : PermitRecord :=
  mkPermit
    (rec_permit_id r) (rec_class r) (rec_operation r) (rec_root_operation_id r)
    (f (rec_scope r)) (rec_parent_permit_id r) (rec_target_stage r) (rec_provenance r)
    (rec_capabilities r) (rec_phase r) (rec_lease_nonce r) (rec_pending_ticket r)
    (rec_claim_waker r) (rec_ledger r).
Definition upd_rec_parent_permit_id (f : option PermitId → option PermitId) (r : PermitRecord) : PermitRecord :=
  mkPermit
    (rec_permit_id r) (rec_class r) (rec_operation r) (rec_root_operation_id r) (rec_scope r)
    (f (rec_parent_permit_id r)) (rec_target_stage r) (rec_provenance r) (rec_capabilities r)
    (rec_phase r) (rec_lease_nonce r) (rec_pending_ticket r) (rec_claim_waker r) (rec_ledger r).
Definition upd_rec_target_stage (f : TaskStage → TaskStage) (r : PermitRecord) : PermitRecord :=
  mkPermit
    (rec_permit_id r) (rec_class r) (rec_operation r) (rec_root_operation_id r) (rec_scope r)
    (rec_parent_permit_id r) (f (rec_target_stage r)) (rec_provenance r) (rec_capabilities r)
    (rec_phase r) (rec_lease_nonce r) (rec_pending_ticket r) (rec_claim_waker r) (rec_ledger r).
Definition upd_rec_provenance (f : Provenance → Provenance) (r : PermitRecord) : PermitRecord :=
  mkPermit
    (rec_permit_id r) (rec_class r) (rec_operation r) (rec_root_operation_id r) (rec_scope r)
    (rec_parent_permit_id r) (rec_target_stage r) (f (rec_provenance r)) (rec_capabilities r)
    (rec_phase r) (rec_lease_nonce r) (rec_pending_ticket r) (rec_claim_waker r) (rec_ledger r).
Definition upd_rec_capabilities (f : CapabilityRequirementSet → CapabilityRequirementSet) (r : PermitRecord) : PermitRecord :=
  mkPermit
    (rec_permit_id r) (rec_class r) (rec_operation r) (rec_root_operation_id r) (rec_scope r)
    (rec_parent_permit_id r) (rec_target_stage r) (rec_provenance r) (f (rec_capabilities r))
    (rec_phase r) (rec_lease_nonce r) (rec_pending_ticket r) (rec_claim_waker r) (rec_ledger r).
Definition upd_rec_phase (f : ExecutionPhase → ExecutionPhase) (r : PermitRecord) : PermitRecord :=
  mkPermit
    (rec_permit_id r) (rec_class r) (rec_operation r) (rec_root_operation_id r) (rec_scope r)
    (rec_parent_permit_id r) (rec_target_stage r) (rec_provenance r) (rec_capabilities r)
    (f (rec_phase r)) (rec_lease_nonce r) (rec_pending_ticket r) (rec_claim_waker r)
    (rec_ledger r).
Definition upd_rec_lease_nonce (f : option N → option N) (r : PermitRecord) : PermitRecord :=
  mkPermit
    (rec_permit_id r) (rec_class r) (rec_operation r) (rec_root_operation_id r) (rec_scope r)
    (rec_parent_permit_id r) (rec_target_stage r) (rec_provenance r) (rec_capabilities r)
    (rec_phase r) (f (rec_lease_nonce r)) (rec_pending_ticket r) (rec_claim_waker r)
    (rec_ledger r).
Definition upd_rec_pending_ticket (f : option Ticket → option Ticket) (r : PermitRecord) : PermitRecord :=
  mkPermit
    (rec_permit_id r) (rec_class r) (rec_operation r) (rec_root_operation_id r) (rec_scope r)
    (rec_parent_permit_id r) (rec_target_stage r) (rec_provenance r) (rec_capabilities r)
    (rec_phase r) (rec_lease_nonce r) (f (rec_pending_ticket r)) (rec_claim_waker r)
    (rec_ledger r).
Definition upd_rec_claim_waker (f : option Waker → option Waker) (r : PermitRecord) : PermitRecord :=
  mkPermit
    (rec_permit_id r) (rec_class r) (rec_operation r) (rec_root_operation_id r) (rec_scope r)
    (rec_parent_permit_id r) (rec_target_stage r) (rec_provenance r) (rec_capabilities r)
    (rec_phase r) (rec_lease_nonce r) (rec_pending_ticket r) (f (rec_claim_waker r))
    (rec_ledger r).
Definition upd_rec_ledger (f : PermitLedger → PermitLedger) (r : PermitRecord) : PermitRecord :=
  mkPermit
    (rec_permit_id r) (rec_class r) (rec_operation r) (rec_root_operation_id r) (rec_scope r)
    (rec_parent_permit_id r) (rec_target_stage r) (rec_provenance r) (rec_capabilities r)
    (rec_phase r) (rec_lease_nonce r) (rec_pending_ticket r) (rec_claim_waker r)
    (f (rec_ledger r)).

(** Aggregated accounting of one root operation and its children. *)
Record RootExecutionState := mkRootState {
  rs_child_inflight : N;
  rs_cpu_units : N;
  rs_memory_units : N;
  rs_active_stages : gset string;
}.

Definition upd_rs_child_inflight (f : N → N) (r : RootExecutionState) : RootExecutionState :=
  mkRootState
    (f (rs_child_inflight r)) (rs_cpu_units r) (rs_memory_units r) (rs_active_stages r).
Definition upd_rs_cpu_units (f : N → N) (r : RootExecutionState) : RootExecutionState :=
  mkRootState
    (rs_child_inflight r) (f (rs_cpu_units r)) (rs_memory_units r) (rs_active_stages r).
Definition upd_rs_memory_units (f : N → N) (r : RootExecutionState) : RootExecutionState :=
  mkRootState
    (rs_child_inflight r) (rs_cpu_units r) (f (rs_memory_units r)) (rs_active_stages r).
Definition upd_rs_active_stages (f : gset string → gset string) (r : RootExecutionState) : RootExecutionState :=
  mkRootState
    (rs_child_inflight r) (rs_cpu_units r) (rs_memory_units r) (f (rs_active_stages r)).

Definition RootExecutionState_default : RootExecutionState := mkRootState 0 0 0 ∅.

(** Lifecycle position of a ticket. *)
Inductive TicketState :=
  | TQueued (class : TaskClass)
  | TGranted (permit_id : PermitId)
  | TClaiming (permit_id : PermitId)
  | TTerminal (reason : TerminalReason)
  | TFaulted.

Inductive ClaimOutcome :=
  | Ready (permit_id : PermitId)
  | ClaimPending
  | ClaimTerminal (reason : TerminalReason)
  | ClaimInvalid.

Inductive AbandonOutcome :=
  | AbandonDone
  | TerminalDiscarded
  | AbandonInvalid
  | AbandonHeldByLease (phase : ExecutionPhase).

Inductive ReleaseOutcome :=
  | ReleaseDone
  | ReleaseUnknownPermit
  | ReleaseHeldByLease (phase : ExecutionPhase).
#[export] Instance ReleaseOutcome_eq_dec : EqDecision ReleaseOutcome.
Proof. solve_decision. Defined.

(** Proof of custody over a dispatched permit. *)
Record LeaseToken := mkLease { lease_permit_id : PermitId; lease_token_nonce : N }.

Inductive AdvanceRefusal :=
  | RefusedUnknownPermit
  | RefusedNotLater (current : ExecutionPhase).

Inductive AdvanceOutcome :=
  | Leased (token : LeaseToken)
  | Advanced
  | AdvanceRefused (why : AdvanceRefusal).

(** Host-owned values a transition hands out of the critical section. *)
Record TransitionEffects := mkEffects {
  eff_wake : list Waker;
  eff_retire : list Waker;
  eff_more_runnable : bool;
}.

Definition upd_eff_wake (f : list Waker → list Waker) (r : TransitionEffects) : TransitionEffects :=
  mkEffects
    (f (eff_wake r)) (eff_retire r) (eff_more_runnable r).
Definition upd_eff_retire (f : list Waker → list Waker) (r : TransitionEffects) : TransitionEffects :=
  mkEffects
    (eff_wake r) (f (eff_retire r)) (eff_more_runnable r).
Definition upd_eff_more_runnable (f : bool → bool) (r : TransitionEffects) : TransitionEffects :=
  mkEffects
    (eff_wake r) (eff_retire r) (f (eff_more_runnable r)).

Definition no_effects : TransitionEffects := mkEffects [] [] false.

(** [TransitionEffects::absorb]. *)
Definition absorb (e other : TransitionEffects) : TransitionEffects :=
  mkEffects (eff_wake e ++ eff_wake other) (eff_retire e ++ eff_retire other)
    (eff_more_runnable e || eff_more_runnable other).

Definition push_wake (w : option Waker) (e : TransitionEffects) : TransitionEffects :=
  match w with Some w => upd_eff_wake (λ l, l ++ [w]) e | None => e end.
Definition push_retire (w : option Waker) (e : TransitionEffects) : TransitionEffects :=
  match w with Some w => upd_eff_retire (λ l, l ++ [w]) e | None => e end.

(** Everything one grant needs. *)
Record GrantRequest := mkGrant {
  gr_permit_id : PermitId;
  gr_class : TaskClass;
  gr_operation : string;
  gr_root_operation_id : string;
  gr_scope : TaskScope;
  gr_parent_permit_id : option PermitId;
  gr_target_stage : TaskStage;
  gr_provenance : Provenance;
  gr_capabilities : CapabilityRequirementSet;
  gr_cost : ResolvedCost;
  gr_reserved_units : N;
  gr_now_ms : N;
  gr_pending_ticket : option Ticket;
  gr_claim_waker : option Waker;
}.

(** The live operation identities of one root. *)
Record RootOperationPermits := mkRop {
  rop_root : option PermitId;
  rop_descendants : gmap string PermitId;
}.

Definition upd_rop_root (f : option PermitId → option PermitId) (r : RootOperationPermits) : RootOperationPermits :=
  mkRop
    (f (rop_root r)) (rop_descendants r).
Definition upd_rop_descendants (f : gmap string PermitId → gmap string PermitId) (r : RootOperationPermits) : RootOperationPermits :=
  mkRop
    (rop_root r) (f (rop_descendants r)).

Definition RootOperationPermits_default : RootOperationPermits := mkRop None ∅.

(** The full governed state, behind the governor's mutex. *)
Record GovernedState := mkGovernedState {
  gs_classes : gmap string ClassState;
  gs_permits : gmap PermitId PermitRecord;
  gs_operation_permits : gmap string RootOperationPermits;
  gs_queued_operation_identities : gmap string (gset string);
  gs_next_queue_order : N;
  gs_roots : gmap string RootExecutionState;
  gs_active_recursion : gmap string (gset string);
  gs_tickets : gmap Ticket TicketState;
  gs_terminal_order : gmap N Ticket;
  gs_terminal_index : gmap Ticket N;
  gs_terminal_seq : N;
  gs_cpu_units_held : N;
  gs_memory_units_held : N;
  gs_capability_in_use : gmap CapabilityId N;
  gs_virtual_time : N;
  gs_drr_cursor : option string;
  gs_commit_watermark_ms : N;
  gs_accounting_fault : option string;
  gs_admission_closed : bool;
  gs_promotion_pending : bool;
  gs_drr_ring_visits : N;
}.

Definition upd_gs_classes (f : gmap string ClassState → gmap string ClassState) (r : GovernedState) : GovernedState :=
  mkGovernedState
    (f (gs_classes r)) (gs_permits r) (gs_operation_permits r)
    (gs_queued_operation_identities r) (gs_next_queue_order r) (gs_roots r)
    (gs_active_recursion r) (gs_tickets r) (gs_terminal_order r) (gs_terminal_index r)
    (gs_terminal_seq r) (gs_cpu_units_held r) (gs_memory_units_held r) (gs_capability_in_use r)
    (gs_virtual_time r) (gs_drr_cursor r) (gs_commit_watermark_ms r) (gs_accounting_fault r)
    (gs_admission_closed r) (gs_promotion_pending r) (gs_drr_ring_visits r).
Definition upd_gs_permits (f : gmap PermitId PermitRecord → gmap PermitId PermitRecord) (r : GovernedState) : GovernedState :=
  mkGovernedState
    (gs_classes r) (f (gs_permits r)) (gs_operation_permits r)
    (gs_queued_operation_identities r) (gs_next_queue_order r) (gs_roots r)
    (gs_active_recursion r) (gs_tickets r) (gs_terminal_order r) (gs_terminal_index r)
    (gs_terminal_seq r) (gs_cpu_units_held r) (gs_memory_units_held r) (gs_capability_in_use r)
    (gs_virtual_time r) (gs_drr_cursor r) (gs_commit_watermark_ms r) (gs_accounting_fault r)
    (gs_admission_closed r) (gs_promotion_pending r) (gs_drr_ring_visits r).
Definition upd_gs_operation_permits (f : gmap string RootOperationPermits → gmap string RootOperationPermits) (r : GovernedState) : GovernedState :=
  mkGovernedState
    (gs_classes r) (gs_permits r) (f (gs_operation_permits r))
    (gs_queued_operation_identities r) (gs_next_queue_order r) (gs_roots r)
    (gs_active_recursion r) (gs_tickets r) (gs_terminal_order r) (gs_terminal_index r)
    (gs_terminal_seq r) (gs_cpu_units_held r) (gs_memory_units_held r) (gs_capability_in_use r)
    (gs_virtual_time r) (gs_drr_cursor r) (gs_commit_watermark_ms r) (gs_accounting_fault r)
    (gs_admission_closed r) (gs_promotion_pending r) (gs_drr_ring_visits r).
Definition upd_gs_queued_operation_identities (f : gmap string (gset string) → gmap string (gset string)) (r : GovernedState) : GovernedState :=
  mkGovernedState
    (gs_classes r) (gs_permits r) (gs_operation_permits r)
    (f (gs_queued_operation_identities r)) (gs_next_queue_order r) (gs_roots r)
    (gs_active_recursion r) (gs_tickets r) (gs_terminal_order r) (gs_terminal_index r)
    (gs_terminal_seq r) (gs_cpu_units_held r) (gs_memory_units_held r) (gs_capability_in_use r)
    (gs_virtual_time r) (gs_drr_cursor r) (gs_commit_watermark_ms r) (gs_accounting_fault r)
    (gs_admission_closed r) (gs_promotion_pending r) (gs_drr_ring_visits r).
Definition upd_gs_next_queue_order (f : N → N) (r : GovernedState) : GovernedState :=
  mkGovernedState
    (gs_classes r) (gs_permits r) (gs_operation_permits r) (gs_queued_operation_identities r)
    (f (gs_next_queue_order r)) (gs_roots r) (gs_active_recursion r) (gs_tickets r)
    (gs_terminal_order r) (gs_terminal_index r) (gs_terminal_seq r) (gs_cpu_units_held r)
    (gs_memory_units_held r) (gs_capability_in_use r) (gs_virtual_time r) (gs_drr_cursor r)
    (gs_commit_watermark_ms r) (gs_accounting_fault r) (gs_admission_closed r)
    (gs_promotion_pending r) (gs_drr_ring_visits r).
Definition upd_gs_roots (f : gmap string RootExecutionState → gmap string RootExecutionState) (r : GovernedState) : GovernedState :=
  mkGovernedState
    (gs_classes r) (gs_permits r) (gs_operation_permits r) (gs_queued_operation_identities r)
    (gs_next_queue_order r) (f (gs_roots r)) (gs_active_recursion r) (gs_tickets r)
    (gs_terminal_order r) (gs_terminal_index r) (gs_terminal_seq r) (gs_cpu_units_held r)
    (gs_memory_units_held r) (gs_capability_in_use r) (gs_virtual_time r) (gs_drr_cursor r)
    (gs_commit_watermark_ms r) (gs_accounting_fault r) (gs_admission_closed r)
    (gs_promotion_pending r) (gs_drr_ring_visits r).
Definition upd_gs_active_recursion (f : gmap string (gset string) → gmap string (gset string)) (r : GovernedState) : GovernedState :=
  mkGovernedState
    (gs_classes r) (gs_permits r) (gs_operation_permits r) (gs_queued_operation_identities r)
    (gs_next_queue_order r) (gs_roots r) (f (gs_active_recursion r)) (gs_tickets r)
    (gs_terminal_order r) (gs_terminal_index r) (gs_terminal_seq r) (gs_cpu_units_held r)
    (gs_memory_units_held r) (gs_capability_in_use r) (gs_virtual_time r) (gs_drr_cursor r)
    (gs_commit_watermark_ms r) (gs_accounting_fault r) (gs_admission_closed r)
    (gs_promotion_pending r) (gs_drr_ring_visits r).
Definition upd_gs_tickets (f : gmap Ticket TicketState → gmap Ticket TicketState) (r : GovernedState) : GovernedState :=
  mkGovernedState
    (gs_classes r) (gs_permits r) (gs_operation_permits r) (gs_queued_operation_identities r)
    (gs_next_queue_order r) (gs_roots r) (gs_active_recursion r) (f (gs_tickets r))
    (gs_terminal_order r) (gs_terminal_index r) (gs_terminal_seq r) (gs_cpu_units_held r)
    (gs_memory_units_held r) (gs_capability_in_use r) (gs_virtual_time r) (gs_drr_cursor r)
    (gs_commit_watermark_ms r) (gs_accounting_fault r) (gs_admission_closed r)
    (gs_promotion_pending r) (gs_drr_ring_visits r).
Definition upd_gs_terminal_order (f : gmap N Ticket → gmap N Ticket) (r : GovernedState) : GovernedState :=
  mkGovernedState
    (gs_classes r) (gs_permits r) (gs_operation_permits r) (gs_queued_operation_identities r)
    (gs_next_queue_order r) (gs_roots r) (gs_active_recursion r) (gs_tickets r)
    (f (gs_terminal_order r)) (gs_terminal_index r) (gs_terminal_seq r) (gs_cpu_units_held r)
    (gs_memory_units_held r) (gs_capability_in_use r) (gs_virtual_time r) (gs_drr_cursor r)
    (gs_commit_watermark_ms r) (gs_accounting_fault r) (gs_admission_closed r)
    (gs_promotion_pending r) (gs_drr_ring_visits r).
Definition upd_gs_terminal_index (f : gmap Ticket N → gmap Ticket N) (r : GovernedState) : GovernedState :=
  mkGovernedState
    (gs_classes r) (gs_permits r) (gs_operation_permits r) (gs_queued_operation_identities r)
    (gs_next_queue_order r) (gs_roots r) (gs_active_recursion r) (gs_tickets r)
    (gs_terminal_order r) (f (gs_terminal_index r)) (gs_terminal_seq r) (gs_cpu_units_held r)
    (gs_memory_units_held r) (gs_capability_in_use r) (gs_virtual_time r) (gs_drr_cursor r)
    (gs_commit_watermark_ms r) (gs_accounting_fault r) (gs_admission_closed r)
    (gs_promotion_pending r) (gs_drr_ring_visits r).
Definition upd_gs_terminal_seq (f : N → N) (r : GovernedState) : GovernedState :=
  mkGovernedState
    (gs_classes r) (gs_permits r) (gs_operation_permits r) (gs_queued_operation_identities r)
    (gs_next_queue_order r) (gs_roots r) (gs_active_recursion r) (gs_tickets r)
    (gs_terminal_order r) (gs_terminal_index r) (f (gs_terminal_seq r)) (gs_cpu_units_held r)
    (gs_memory_units_held r) (gs_capability_in_use r) (gs_virtual_time r) (gs_drr_cursor r)
    (gs_commit_watermark_ms r) (gs_accounting_fault r) (gs_admission_closed r)
    (gs_promotion_pending r) (gs_drr_ring_visits r).
Definition upd_gs_cpu_units_held (f : N → N) (r : GovernedState) : GovernedState :=
  mkGovernedState
    (gs_classes r) (gs_permits r) (gs_operation_permits r) (gs_queued_operation_identities r)
    (gs_next_queue_order r) (gs_roots r) (gs_active_recursion r) (gs_tickets r)
    (gs_terminal_order r) (gs_terminal_index r) (gs_terminal_seq r) (f (gs_cpu_units_held r))
    (gs_memory_units_held r) (gs_capability_in_use r) (gs_virtual_time r) (gs_drr_cursor r)
    (gs_commit_watermark_ms r) (gs_accounting_fault r) (gs_admission_closed r)
    (gs_promotion_pending r) (gs_drr_ring_visits r).
Definition upd_gs_memory_units_held (f : N → N) (r : GovernedState) : GovernedState :=
  mkGovernedState
    (gs_classes r) (gs_permits r) (gs_operation_permits r) (gs_queued_operation_identities r)
    (gs_next_queue_order r) (gs_roots r) (gs_active_recursion r) (gs_tickets r)
    (gs_terminal_order r) (gs_terminal_index r) (gs_terminal_seq r) (gs_cpu_units_held r)
    (f (gs_memory_units_held r)) (gs_capability_in_use r) (gs_virtual_time r) (gs_drr_cursor r)
    (gs_commit_watermark_ms r) (gs_accounting_fault r) (gs_admission_closed r)
    (gs_promotion_pending r) (gs_drr_ring_visits r).
Definition upd_gs_capability_in_use (f : gmap CapabilityId N → gmap CapabilityId N) (r : GovernedState) : GovernedState :=
  mkGovernedState
    (gs_classes r) (gs_permits r) (gs_operation_permits r) (gs_queued_operation_identities r)
    (gs_next_queue_order r) (gs_roots r) (gs_active_recursion r) (gs_tickets r)
    (gs_terminal_order r) (gs_terminal_index r) (gs_terminal_seq r) (gs_cpu_units_held r)
    (gs_memory_units_held r) (f (gs_capability_in_use r)) (gs_virtual_time r) (gs_drr_cursor r)
    (gs_commit_watermark_ms r) (gs_accounting_fault r) (gs_admission_closed r)
    (gs_promotion_pending r) (gs_drr_ring_visits r).
Definition upd_gs_virtual_time (f : N → N) (r : GovernedState) : GovernedState :=
  mkGovernedState
    (gs_classes r) (gs_permits r) (gs_operation_permits r) (gs_queued_operation_identities r)
    (gs_next_queue_order r) (gs_roots r) (gs_active_recursion r) (gs_tickets r)
    (gs_terminal_order r) (gs_terminal_index r) (gs_terminal_seq r) (gs_cpu_units_held r)
    (gs_memory_units_held r) (gs_capability_in_use r) (f (gs_virtual_time r)) (gs_drr_cursor r)
    (gs_commit_watermark_ms r) (gs_accounting_fault r) (gs_admission_closed r)
    (gs_promotion_pending r) (gs_drr_ring_visits r).
Definition upd_gs_drr_cursor (f : option string → option string) (r : GovernedState) : GovernedState :=
  mkGovernedState
    (gs_classes r) (gs_permits r) (gs_operation_permits r) (gs_queued_operation_identities r)
    (gs_next_queue_order r) (gs_roots r) (gs_active_recursion r) (gs_tickets r)
    (gs_terminal_order r) (gs_terminal_index r) (gs_terminal_seq r) (gs_cpu_units_held r)
    (gs_memory_units_held r) (gs_capability_in_use r) (gs_virtual_time r) (f (gs_drr_cursor r))
    (gs_commit_watermark_ms r) (gs_accounting_fault r) (gs_admission_closed r)
    (gs_promotion_pending r) (gs_drr_ring_visits r).
Definition upd_gs_commit_watermark_ms (f : N → N) (r : GovernedState) : GovernedState :=
  mkGovernedState
    (gs_classes r) (gs_permits r) (gs_operation_permits r) (gs_queued_operation_identities r)
    (gs_next_queue_order r) (gs_roots r) (gs_active_recursion r) (gs_tickets r)
    (gs_terminal_order r) (gs_terminal_index r) (gs_terminal_seq r) (gs_cpu_units_held r)
    (gs_memory_units_held r) (gs_capability_in_use r) (gs_virtual_time r) (gs_drr_cursor r)
    (f (gs_commit_watermark_ms r)) (gs_accounting_fault r) (gs_admission_closed r)
    (gs_promotion_pending r) (gs_drr_ring_visits r).
Definition upd_gs_accounting_fault (f : option string → option string) (r : GovernedState) : GovernedState :=
  mkGovernedState
    (gs_classes r) (gs_permits r) (gs_operation_permits r) (gs_queued_operation_identities r)
    (gs_next_queue_order r) (gs_roots r) (gs_active_recursion r) (gs_tickets r)
    (gs_terminal_order r) (gs_terminal_index r) (gs_terminal_seq r) (gs_cpu_units_held r)
    (gs_memory_units_held r) (gs_capability_in_use r) (gs_virtual_time r) (gs_drr_cursor r)
    (gs_commit_watermark_ms r) (f (gs_accounting_fault r)) (gs_admission_closed r)
    (gs_promotion_pending r) (gs_drr_ring_visits r).
Definition upd_gs_admission_closed (f : bool → bool) (r : GovernedState) : GovernedState :=
  mkGovernedState
    (gs_classes r) (gs_permits r) (gs_operation_permits r) (gs_queued_operation_identities r)
    (gs_next_queue_order r) (gs_roots r) (gs_active_recursion r) (gs_tickets r)
    (gs_terminal_order r) (gs_terminal_index r) (gs_terminal_seq r) (gs_cpu_units_held r)
    (gs_memory_units_held r) (gs_capability_in_use r) (gs_virtual_time r) (gs_drr_cursor r)
    (gs_commit_watermark_ms r) (gs_accounting_fault r) (f (gs_admission_closed r))
    (gs_promotion_pending r) (gs_drr_ring_visits r).
Definition upd_gs_promotion_pending (f : bool → bool) (r : GovernedState) : GovernedState :=
  mkGovernedState
    (gs_classes r) (gs_permits r) (gs_operation_permits r) (gs_queued_operation_identities r)
    (gs_next_queue_order r) (gs_roots r) (gs_active_recursion r) (gs_tickets r)
    (gs_terminal_order r) (gs_terminal_index r) (gs_terminal_seq r) (gs_cpu_units_held r)
    (gs_memory_units_held r) (gs_capability_in_use r) (gs_virtual_time r) (gs_drr_cursor r)
    (gs_commit_watermark_ms r) (gs_accounting_fault r) (gs_admission_closed r)
    (f (gs_promotion_pending r)) (gs_drr_ring_visits r).
Definition upd_gs_drr_ring_visits (f : N → N) (r : GovernedState) : GovernedState :=
  mkGovernedState
    (gs_classes r) (gs_permits r) (gs_operation_permits r) (gs_queued_operation_identities r)
    (gs_next_queue_order r) (gs_roots r) (gs_active_recursion r) (gs_tickets r)
    (gs_terminal_order r) (gs_terminal_index r) (gs_terminal_seq r) (gs_cpu_units_held r)
    (gs_memory_units_held r) (gs_capability_in_use r) (gs_virtual_time r) (gs_drr_cursor r)
    (gs_commit_watermark_ms r) (gs_accounting_fault r) (gs_admission_closed r)
    (gs_promotion_pending r) (f (gs_drr_ring_visits r)).

Definition GovernedState_default : GovernedState :=
  mkGovernedState ∅ ∅ ∅ ∅ 0 ∅ ∅ ∅ ∅ ∅ 0 0 0 ∅ 0 None 0 None false false 0.

(** ** The operation index: state.rs *)

Module RootOperationPermits.
Definition get (root op : string) (r : RootOperationPermits) : option PermitId :=
  if decide (op = root) then rop_root r else rop_descendants r !! op.

Definition insert (root op : string) (pid : PermitId) (r : RootOperationPermits)
  : RootOperationPermits :=
  if decide (op = root) then upd_rop_root (λ _, Some pid) r
  else upd_rop_descendants (base.insert op pid) r.

(** The map after the removal; the returned identity is only debug-checked. *)
Definition remove (root op : string) (r : RootOperationPermits) : RootOperationPermits :=
  if decide (op = root) then upd_rop_root (λ _, None) r
  else upd_rop_descendants (delete op) r.

Definition is_empty (r : RootOperationPermits) : bool :=
  bool_decide (rop_root r = None) && bool_decide (rop_descendants r = ∅).
End RootOperationPermits.

(** ** Class state: state.rs *)

Module ClassState.
(** [ClassState::queued]: [u32::try_from(len).unwrap_or(u32::MAX)]. *)
Definition queued (c : ClassState) : N := N.min (N.of_nat (length (cs_queue c))) U32_MAX.

Definition index_capability (order : N) (m : gmap CapabilityId (gset N)) (id : CapabilityId)
  : gmap CapabilityId (gset N) :=
  <[id := {[order]} ∪ default ∅ (m !! id)]> m.

Definition index_pending (r : PendingRequest) (c : ClassState) : ClassState :=
  let c := if is_awaited_child (pr_scope r)
           then upd_cs_queued_awaited_children (λ X, {[pr_seq_no r]} ∪ X) c else c in
  if crs_is_empty (pr_capabilities r)
  then upd_cs_queued_ungated (λ X, {[pr_queue_order r]} ∪ X) c
  else upd_cs_queued_by_capability
         (λ m, foldl (index_capability (pr_queue_order r)) m (pr_capabilities r)) c.

Definition unindex_capability (order : N) (m : gmap CapabilityId (gset N)) (id : CapabilityId)
  : gmap CapabilityId (gset N) :=
  match m !! id with
  | None => m
  | Some arrivals =>
    let arrivals' := arrivals ∖ {[order]} in
    if decide (arrivals' = ∅) then delete id m else <[id := arrivals']> m
  end.

Definition unindex_pending (r : PendingRequest) (c : ClassState) : ClassState :=
  let c := if is_awaited_child (pr_scope r)
           then upd_cs_queued_awaited_children (λ X, X ∖ {[pr_seq_no r]}) c else c in
  if crs_is_empty (pr_capabilities r)
  then upd_cs_queued_ungated (λ X, X ∖ {[pr_queue_order r]}) c
  else upd_cs_queued_by_capability
         (λ m, foldl (unindex_capability (pr_queue_order r)) m (pr_capabilities r)) c.

(** [.first().is_some_and(|order| *order < bound)]. *)
Definition first_before (X : gset N) (bound : N) : bool :=
  match btree_set_first X with Some order => bool_decide (order < bound) | None => false end.

Definition has_queued_predecessor (c : ClassState) (r : PendingRequest) : bool :=
  if crs_is_empty (pr_capabilities r)
  then first_before (cs_queued_ungated c) (pr_queue_order r)
  else existsb (λ id, match cs_queued_by_capability c !! id with
                      | Some arrivals => first_before arrivals (pr_queue_order r)
                      | None => false
                      end) (pr_capabilities r).

Definition has_queued_domain (c : ClassState) (caps : CapabilityRequirementSet) : bool :=
  if crs_is_empty caps then negb (bool_decide (cs_queued_ungated c = ∅))
  else existsb (λ id, match cs_queued_by_capability c !! id with
                      | Some arrivals => negb (bool_decide (arrivals = ∅))
                      | None => false
                      end) caps.

(** [phase_slot] as a getter and an updater. *)
Definition phase_slot (p : ExecutionPhase) (c : ClassState) : N :=
  match p with
  | DispatchReserved => cs_dispatch_reserved c
  | Accepted => cs_accepted c
  | Running => cs_running c
  | CleanupPending => cs_cleanup_pending c
  end.
Definition upd_phase_slot (p : ExecutionPhase) (f : N → N) (c : ClassState) : ClassState :=
  match p with
  | DispatchReserved => upd_cs_dispatch_reserved f c
  | Accepted => upd_cs_accepted f c
  | Running => upd_cs_running f c
  | CleanupPending => upd_cs_cleanup_pending f c
  end.

Definition enter_phase (p : ExecutionPhase) (c : ClassState) : ClassState :=
  upd_phase_slot p (λ n, saturating_add U32_MAX n 1) c.
Definition leave_phase (p : ExecutionPhase) (c : ClassState) : ClassState :=
  upd_phase_slot p (λ n, saturating_sub n 1) c.
End ClassState.

(** ** Transitions: transition.rs *)

(** [class_mut]: the entry, created with the default when missing, and updated. *)
Definition class_mut (class : TaskClass) (f : ClassState → ClassState) (s : GovernedState)
  : GovernedState :=
  upd_gs_classes (λ m, <[class := f (default ClassState_default (m !! class))]> m) s.

(** [if let Some(state) = self.classes.get_mut(class) { .. }]. *)
Definition class_alter (class : TaskClass) (f : ClassState → ClassState) (s : GovernedState)
  : GovernedState :=
  upd_gs_classes (alter f class) s.

(** The class entry, the default when missing. *)
Definition class_state (s : GovernedState) (class : TaskClass) : ClassState :=
  default ClassState_default (gs_classes s !! class).

Definition inflight (s : GovernedState) (class : TaskClass) : N :=
  match gs_classes s !! class with Some c => cs_inflight c | None => 0 end.

Definition queued (s : GovernedState) (class : TaskClass) : N :=
  match gs_classes s !! class with Some c => ClassState.queued c | None => 0 end.

(** [commit_time]: the clamped time and the advanced watermark. *)
Definition commit_time (sampled_ms : N) (s : GovernedState) : N * GovernedState :=
  let committed := N.max sampled_ms (gs_commit_watermark_ms s) in
  (committed, upd_gs_commit_watermark_ms (λ _, committed) s).

Definition capability_in_use (s : GovernedState) (id : CapabilityId) : N :=
  default 0 (gs_capability_in_use s !! id).

Definition permits_for_operation (s : GovernedState) (root op : string) : option PermitId :=
  ops ← gs_operation_permits s !! root;
  RootOperationPermits.get root op ops.

Definition parent_permit_for_scope (s : GovernedState) (root : string) (sc : TaskScope)
  : option PermitId :=
  match sc with
  | Child parent _ _ => permits_for_operation s root parent
  | Root => None
  end.

Definition has_operation_identity (s : GovernedState) (root op : string) : bool :=
  bool_decide (is_Some (permits_for_operation s root op))
  || match gs_queued_operation_identities s !! root with
     | Some ops => bool_decide (op ∈ ops)
     | None => false
     end.

(** [enqueue]; [None] is the exhausted queue order. *)
Definition enqueue (r : PendingRequest) (s : GovernedState) : option GovernedState :=
  order ← checked_add U128_MAX (gs_next_queue_order s) 1;
  let s := upd_gs_next_queue_order (λ _, order) s in
  let r := upd_pr_queue_order (λ _, order) r in
  let s := upd_gs_queued_operation_identities (λ m,
    <[pr_root_operation_id r :=
        {[pr_operation r]} ∪ default ∅ (m !! pr_root_operation_id r)]> m) s in
  Some (class_mut (pr_class r)
    (λ c, upd_cs_queue (λ q, q ++ [r]) (ClassState.index_pending r c)) s).

(** Drop an operation from a queued-identity index, and the root's entry with
    its last operation. *)
Definition forget_queued_identity (root op : string) (m : gmap string (gset string))
  : gmap string (gset string) :=
  match m !! root with
  | None => m
  | Some ops =>
    let ops' := ops ∖ {[op]} in
    if decide (ops' = ∅) then delete root m else <[root := ops']> m
  end.

(** [remove_pending]. *)
Definition remove_pending (class : TaskClass) (index : nat) (s : GovernedState)
  : option (PendingRequest * GovernedState) :=
  c ← gs_classes s !! class;
  r ← cs_queue c !! index;
  let s := class_alter class (λ c,
    ClassState.unindex_pending r (upd_cs_queue (delete index) c)) s in
  let s := upd_gs_queued_operation_identities
    (forget_queued_identity (pr_root_operation_id r) (pr_operation r)) s in
  Some (r, s).

(** [occupy_recursion_guard]. *)
Definition occupy_recursion_guard (root : string) (stage : TaskStage) (s : GovernedState)
  : GovernedState :=
  upd_gs_active_recursion (λ m, <[root := {[stage]} ∪ default ∅ (m !! root)]> m) s.

(** [vacate_recursion_guard]: the root's entry disappears with its last stage. *)
Definition vacate_recursion_guard (root : string) (stage : TaskStage) (s : GovernedState)
  : GovernedState :=
  upd_gs_active_recursion (forget_queued_identity root stage) s.

Definition occupy_capability (m : gmap CapabilityId N) (id : CapabilityId) : gmap CapabilityId N :=
  <[id := saturating_add U32_MAX (default 0 (m !! id)) 1]> m.

(** The class counters one grant moves. *)
Definition class_charge (cost : ResolvedCost) (c : ClassState) : ClassState :=
  let c := upd_cs_inflight (λ n, wadd U32_MAX n 1) c in
  let c := upd_cs_cpu_units_held (λ n, wadd U128_MAX n (rc_cpu_units cost)) c in
  let c := upd_cs_memory_units_held (λ n, wadd U128_MAX n (rc_memory_units cost)) c in
  let c := upd_cs_admitted_total (λ n, wadd U128_MAX n 1) c in
  ClassState.enter_phase DispatchReserved c.

(** The root counters one granted child moves. *)
Definition root_charge (cost : ResolvedCost) (stage : TaskStage) (r : RootExecutionState)
  : RootExecutionState :=
  let r := upd_rs_child_inflight (λ n, wadd U32_MAX n 1) r in
  let r := upd_rs_cpu_units (λ n, wadd U128_MAX n (rc_cpu_units cost)) r in
  let r := upd_rs_memory_units (λ n, wadd U128_MAX n (rc_memory_units cost)) r in
  upd_rs_active_stages (λ X, {[stage]} ∪ X) r.

(** The ledger and the record a grant creates. *)
Definition granted_ledger (g : GrantRequest) : PermitLedger := {|
  pl_cpu_units := rc_cpu_units (gr_cost g);
  pl_original_estimate_units := gr_reserved_units g;
  pl_remaining_reservation_units := gr_reserved_units g;
  pl_measured_bytes := 0;
  pl_measurement_sequence := 0;
  pl_stage_sequence := 0;
  pl_effective_units := rc_memory_units (gr_cost g);
  pl_leased_at_ms := gr_now_ms g;
  pl_last_touched_ms := gr_now_ms g;
|}.
Definition granted_record (g : GrantRequest) : PermitRecord := {|
  rec_permit_id := gr_permit_id g;
  rec_class := gr_class g;
  rec_operation := gr_operation g;
  rec_root_operation_id := gr_root_operation_id g;
  rec_scope := gr_scope g;
  rec_parent_permit_id := gr_parent_permit_id g;
  rec_target_stage := gr_target_stage g;
  rec_provenance := gr_provenance g;
  rec_capabilities := gr_capabilities g;
  rec_phase := DispatchReserved;
  rec_lease_nonce := None;
  rec_pending_ticket := gr_pending_ticket g;
  rec_claim_waker := gr_claim_waker g;
  rec_ledger := granted_ledger g;
|}.

(** [grant]: commit a permit. *)
Definition grant (g : GrantRequest) (s : GovernedState) : GovernedState :=
  let cost := gr_cost g in
  let s := class_mut (gr_class g) (class_charge cost) s in
  let s := upd_gs_cpu_units_held (λ n, wadd U128_MAX n (rc_cpu_units cost)) s in
  let s := upd_gs_memory_units_held (λ n, wadd U128_MAX n (rc_memory_units cost)) s in
  let s := upd_gs_capability_in_use (λ m, foldl occupy_capability m (gr_capabilities g)) s in
  let s := upd_gs_operation_permits (λ m,
    <[gr_root_operation_id g :=
        RootOperationPermits.insert (gr_root_operation_id g) (gr_operation g) (gr_permit_id g)
          (default RootOperationPermits_default (m !! gr_root_operation_id g))]> m) s in
  let s := if is_child (gr_scope g) then
      let s := upd_gs_roots (λ m,
        <[gr_root_operation_id g :=
            root_charge cost (gr_target_stage g)
              (default RootExecutionState_default (m !! gr_root_operation_id g))]> m) s in
      occupy_recursion_guard (gr_root_operation_id g) (gr_target_stage g) s
    else s in
  let s := match gr_pending_ticket g with
           | Some ticket => upd_gs_tickets (insert ticket (TGranted (gr_permit_id g))) s
           | None => s
           end in
  upd_gs_permits (insert (gr_permit_id g) (granted_record g)) s.

(** [mint_lease_nonce]: the process-wide counter, [fetch_add] wraps. *)
Definition mint_lease_nonce (counter : N) : N * N := (counter, wadd U64_MAX counter 1).

(** [advance_phase].  The nonce counter is threaded: it moves only when a lease
    is minted. *)
Definition advance_phase (pid : PermitId) (phase : ExecutionPhase) (nonces : N)
    (s : GovernedState) : AdvanceOutcome * N * GovernedState :=
  match gs_permits s !! pid with
  | None => (AdvanceRefused RefusedUnknownPermit, nonces, s)
  | Some record =>
    if decide (rank phase ≤ rank (rec_phase record))
    then (AdvanceRefused (RefusedNotLater (rec_phase record)), nonces, s)
    else
      let previous := rec_phase record in
      let record1 := upd_rec_phase (λ _, phase) record in
      let '(outcome, nonces', record2) :=
        match rec_lease_nonce record1 with
        | None =>
          let '(nonce, nonces') := mint_lease_nonce nonces in
          (Leased (mkLease pid nonce), nonces', upd_rec_lease_nonce (λ _, Some nonce) record1)
        | Some _ => (Advanced, nonces, record1)
        end in
      let s := upd_gs_permits (insert pid record2) s in
      let newly_started := negb (has_started previous) && has_started phase in
      let s := class_mut (rec_class record) (λ c,
        let c := ClassState.enter_phase phase (ClassState.leave_phase previous c) in
        if newly_started then upd_cs_started_total (λ n, wadd U128_MAX n 1) c else c) s in
      (outcome, nonces', s)
  end.

(** The eviction loop of [record_terminal_ticket]: [fuel] iterations suffice when
    it is at least the number of retained records (each iteration drops one). *)
Fixpoint evict_terminal (fuel : nat) (s : GovernedState) : GovernedState :=
  match fuel with
  | O => s
  | S fuel' =>
    if decide (N.of_nat (size (gs_terminal_order s)) ≤ MAX_TERMINAL_TICKETS) then s
    else match btree_first (gs_terminal_order s) with
    | None => s
    | Some (oldest_seq, oldest) =>
      let s := upd_gs_terminal_order (delete oldest_seq) s in
      let s := upd_gs_terminal_index (delete oldest) s in
      let s := match gs_tickets s !! oldest with
               | Some (TTerminal _) => upd_gs_tickets (delete oldest) s
               | _ => s
               end in
      evict_terminal fuel' s
    end
  end.

(** [record_terminal_ticket]. *)
Definition record_terminal_ticket (ticket : Ticket) (reason : TerminalReason)
    (s : GovernedState) : GovernedState :=
  let s := upd_gs_tickets (insert ticket (TTerminal reason)) s in
  let s := match gs_terminal_index s !! ticket with
           | Some previous =>
             upd_gs_terminal_order (delete previous) (upd_gs_terminal_index (delete ticket) s)
           | None => s
           end in
  let seq := gs_terminal_seq s in
  let s := upd_gs_terminal_seq (λ n, wadd U64_MAX n 1) s in
  let s := upd_gs_terminal_order (insert seq ticket) s in
  let s := upd_gs_terminal_index (insert ticket seq) s in
  evict_terminal (size (gs_terminal_order s)) s.

(** [forget_terminal_ticket]. *)
Definition forget_terminal_ticket (ticket : Ticket) (s : GovernedState) : GovernedState :=
  let s := match gs_terminal_index s !! ticket with
           | Some seq =>
             upd_gs_terminal_order (delete seq) (upd_gs_terminal_index (delete ticket) s)
           | None => s
           end in
  match gs_tickets s !! ticket with
  | Some (TTerminal _) | Some TFaulted => upd_gs_tickets (delete ticket) s
  | _ => s
  end.

(** [retained_terminal_tickets]. *)
Definition retained_terminal_tickets (s : GovernedState) : N :=
  N.of_nat (size (gs_terminal_order s)).

(** The class counters one unwound permit moves. *)
Definition class_refund (r : PermitRecord) (c : ClassState) : ClassState :=
  let c := upd_cs_inflight (λ n, saturating_sub n 1) c in
  let c := upd_cs_cpu_units_held (λ n, saturating_sub n (pl_cpu_units (rec_ledger r))) c in
  let c := upd_cs_memory_units_held
             (λ n, saturating_sub n (pl_effective_units (rec_ledger r))) c in
  let c := ClassState.leave_phase (rec_phase r) c in
  upd_cs_terminated_total (λ n, wadd U128_MAX n 1) c.

Definition vacate_capability (m : gmap CapabilityId N) (id : CapabilityId) : gmap CapabilityId N :=
  match m !! id with
  | None => m
  | Some n =>
    let n' := saturating_sub n 1 in
    if decide (n' = 0) then delete id m else <[id := n']> m
  end.

(** Drop an operation of the identity index, and the root's entry when empty. *)
Definition forget_operation (root op : string) (m : gmap string RootOperationPermits)
  : gmap string RootOperationPermits :=
  match m !! root with
  | None => m
  | Some ops =>
    let ops' := RootOperationPermits.remove root op ops in
    if RootOperationPermits.is_empty ops' then delete root m else <[root := ops']> m
  end.

(** The root counters one unwound child moves; the entry goes with its last
    child. *)
Definition root_refund (r : PermitRecord) (m : gmap string RootExecutionState)
  : gmap string RootExecutionState :=
  match m !! rec_root_operation_id r with
  | None => m
  | Some root =>
    let root := upd_rs_child_inflight (λ n, saturating_sub n 1) root in
    let root := upd_rs_cpu_units
                  (λ n, saturating_sub n (pl_cpu_units (rec_ledger r))) root in
    let root := upd_rs_memory_units
                  (λ n, saturating_sub n (pl_effective_units (rec_ledger r))) root in
    let root := upd_rs_active_stages (λ X, X ∖ {[rec_target_stage r]}) root in
    if decide (rs_child_inflight root = 0) then delete (rec_root_operation_id r) m
    else <[rec_root_operation_id r := root]> m
  end.

(** The capacity half of [unwind]: everything the permit was charged is
    returned, before its ticket is answered. *)
Definition unwind_charges (r : PermitRecord) (pid : PermitId) (s : GovernedState)
  : GovernedState :=
  let s := upd_gs_permits (delete pid) s in
  let s := class_alter (rec_class r) (class_refund r) s in
  let s := upd_gs_cpu_units_held
             (λ n, saturating_sub n (pl_cpu_units (rec_ledger r))) s in
  let s := upd_gs_memory_units_held
             (λ n, saturating_sub n (pl_effective_units (rec_ledger r))) s in
  let s := upd_gs_capability_in_use (λ m, foldl vacate_capability m (rec_capabilities r)) s in
  let s := upd_gs_operation_permits
             (forget_operation (rec_root_operation_id r) (rec_operation r)) s in
  if is_child (rec_scope r) then
    vacate_recursion_guard (rec_root_operation_id r) (rec_target_stage r)
      (upd_gs_roots (root_refund r) s)
  else s.

(** [unwind]: the removed record (its ticket and waker taken), if it was live. *)
Definition unwind (pid : PermitId) (reason : TerminalReason) (s : GovernedState)
    (e : TransitionEffects) : option PermitRecord * GovernedState * TransitionEffects :=
  match gs_permits s !! pid with
  | None => (None, s, e)
  | Some record =>
    let s := unwind_charges record pid s in
    let '(s, e) :=
      match rec_pending_ticket record with
      | Some ticket =>
        (record_terminal_ticket ticket reason s, push_wake (rec_claim_waker record) e)
      | None => (s, push_retire (rec_claim_waker record) e)
      end in
    (Some (upd_rec_pending_ticket (λ _, None) (upd_rec_claim_waker (λ _, None) record)), s, e)
  end.

(** [release_with_proof_reason] and [release_with_proof]. *)
Definition release_with_proof_reason (pid : PermitId) (proof : option N)
    (reason : TerminalReason) (s : GovernedState) (e : TransitionEffects)
  : ReleaseOutcome * GovernedState * TransitionEffects :=
  match gs_permits s !! pid with
  | None => (ReleaseUnknownPermit, s, e)
  | Some record =>
    if decide (rec_lease_nonce record = proof) then
      match unwind pid reason s e with
      | (Some _, s, e) => (ReleaseDone, s, e)
      | (None, s, e) => (ReleaseUnknownPermit, s, e)
      end
    else (ReleaseHeldByLease (rec_phase record), s, e)
  end.
Definition release_with_proof (pid : PermitId) (proof : option N) (s : GovernedState)
    (e : TransitionEffects) : ReleaseOutcome * GovernedState * TransitionEffects :=
  release_with_proof_reason pid proof Released s e.

(** [record_accounting_fault]: the first fault stays. *)
Definition record_accounting_fault (what : string) (s : GovernedState) : GovernedState :=
  match gs_accounting_fault s with
  | None => upd_gs_accounting_fault (λ _, Some what) s
  | Some _ => s
  end.

(** [close_admission]. *)
Definition close_admission (s : GovernedState) : GovernedState :=
  upd_gs_admission_closed (λ _, true) s.

(** ** [assert_consistent]

    The debug-build oracle: every total recomputed from the permits. *)

Definition permit_weight_class (class : TaskClass) (r : PermitRecord) : N :=
  if decide (rec_class r = class) then 1 else 0.
Definition capability_count (id : CapabilityId) (r : PermitRecord) : N :=
  N.of_nat (length (filter (λ x, x = id) (rec_capabilities r))).
Definition ticket_permit (t : TicketState) : option PermitId :=
  match t with TGranted pid | TClaiming pid => Some pid | _ => None end.

Definition assert_consistent (s : GovernedState) : bool :=
  bool_decide (msum cs_cpu_units_held (gs_classes s) = gs_cpu_units_held s)
  && bool_decide (msum cs_memory_units_held (gs_classes s) = gs_memory_units_held s)
  && forallb (λ r, bool_decide
       (is_Some (rec_lease_nonce r) ↔ rec_phase r ≠ DispatchReserved)) (btree_values (gs_permits s))
  && bool_decide (msum (λ r, pl_cpu_units (rec_ledger r)) (gs_permits s) = gs_cpu_units_held s)
  && bool_decide
       (msum (λ r, pl_effective_units (rec_ledger r)) (gs_permits s) = gs_memory_units_held s)
  && forallb (λ '(class, c),
       bool_decide (cs_inflight c = msum (permit_weight_class class) (gs_permits s))
       && bool_decide (cs_inflight c =
            cs_dispatch_reserved c + cs_accepted c + cs_running c + cs_cleanup_pending c)
       && bool_decide (cs_admitted_total c = cs_inflight c + cs_terminated_total c))
       (btree_to_list (gs_classes s))
  && forallb (λ '(id, n), bool_decide (n = msum (capability_count id) (gs_permits s)))
       (btree_to_list (gs_capability_in_use s))
  && forallb (λ t, match ticket_permit t with
                   | Some pid => bool_decide (is_Some (gs_permits s !! pid))
                   | None => true
                   end) (btree_values (gs_tickets s)).
