(* ===== verification/Assess.v ===== *)
(** * The capacity resolver

    crates/taskmesh-engine/src/features/admission/pending.rs: the one answer to
    "can this request run now" that intake, promotion and diagnostics share.  All
    blockers are computed at once; a blocked request whose declared wait chain
    exclusively holds a blocked capacity is an irreversible wait cycle. *)

From S2P Require Import Prelude Contract Text Kernel State.

(** ** Data *)

(** Every capacity dimension blocking a request. *)
Record BlockerSet := mkBlockers {
  bl_class_inflight : bool;
  bl_capabilities : list CapabilityId;
  bl_cpu : bool;
  bl_memory : bool;
  bl_queued_behind : bool;
  bl_accounting_fault : bool;
}.
#[export] Instance BlockerSet_eq_dec : EqDecision BlockerSet.
Proof. solve_decision. Defined.

Record CycleWitness := mkWitness {
  cw_parent_operation_id : string;
  cw_held : list HeldCapacity;
}.
#[export] Instance CycleWitness_eq_dec : EqDecision CycleWitness.
Proof. solve_decision. Defined.

Inductive CapacityAssessment :=
  | Runnable
  | ReversiblyBlocked (blockers : BlockerSet)
  | IrreversibleWaitCycle (witness : CycleWitness).
#[export] Instance CapacityAssessment_eq_dec : EqDecision CapacityAssessment.
Proof. solve_decision. Defined.

(** ** Blockers *)

(** [BlockerSet::is_empty]. *)
Definition bl_is_empty (b : BlockerSet) : bool :=
  negb (bl_class_inflight b) && crs_is_empty (bl_capabilities b) && negb (bl_cpu b)
  && negb (bl_memory b) && negb (bl_queued_behind b) && negb (bl_accounting_fault b).

(** [BlockerSet::primary]. *)
Definition primary (b : BlockerSet) : CapacityBlock :=
  if bl_accounting_fault b then BlockAccountingFault
  else if bl_class_inflight b then BlockInflight
  else if negb (crs_is_empty (bl_capabilities b)) then BlockCapability
  else if bl_cpu b then BlockCpu
  else if bl_memory b then BlockMemory
  else if bl_queued_behind b then BlockQueuedBehind
  else BlockOk.

(** The capability loop of [blockers_for]: the saturated pools and whether an id
    had no authority record. *)
Fixpoint blocked_capabilities (s : GovernedState) (P : PolicySet) (caps : CapabilityRequirementSet)
  : list CapabilityId * bool :=
  match caps with
  | [] => ([], false)
  | id :: caps' =>
    let '(blocked, fault) := blocked_capabilities s P caps' in
    match capability_record P id with
    | None => (blocked, true)
    | Some r =>
      let limit := capacity_limit (cr_capacity r) in
      if negb (bool_decide (limit = 0)) && bool_decide (limit ≤ capability_in_use s id)
      then (id :: blocked, fault) else (blocked, fault)
    end
  end.

(** [held.checked_add(cost).map_or(true, |next| next > budget)], for a budget that
    is not the unlimited [0]. *)
Definition over_budget (held cost budget : N) : bool :=
  if decide (budget = 0) then false
  else match checked_add U128_MAX held cost with
       | Some next => bool_decide (budget < next)
       | None => true
       end.

(** [blockers_for]. *)
Definition blockers_for (s : GovernedState) (P : PolicySet) (class : TaskClass)
    (max_inflight : N) (cost : ResolvedCost) (caps : CapabilityRequirementSet) : BlockerSet :=
  let '(blocked, unknown) := blocked_capabilities s P caps in
  let budget := ps_resources P in
  {| bl_class_inflight := bool_decide (max_inflight ≤ inflight s class);
     bl_capabilities := blocked;
     bl_cpu := over_budget (gs_cpu_units_held s) (rc_cpu_units cost) (max_cpu_units budget);
     bl_memory := over_budget (gs_memory_units_held s) (rc_memory_units cost)
                    (max_memory_units budget);
     bl_queued_behind := false;
     bl_accounting_fault :=
       bool_decide (is_Some (gs_accounting_fault s)) || unknown |}.

Definition with_queued_behind (behind : bool) (b : BlockerSet) : BlockerSet :=
  {| bl_class_inflight := bl_class_inflight b; bl_capabilities := bl_capabilities b;
     bl_cpu := bl_cpu b; bl_memory := bl_memory b; bl_queued_behind := behind;
     bl_accounting_fault := bl_accounting_fault b |}.

(** ** The wait chain *)

(** What the awaited ancestors of a request hold. *)
Record Chain := mkChain {
  ch_in_class : N;
  ch_cpu : N;
  ch_memory : N;
  ch_capabilities : gmap CapabilityId N;
}.
Definition Chain_empty : Chain := mkChain 0 0 0 ∅.

Definition chain_capability (m : gmap CapabilityId N) (id : CapabilityId) : gmap CapabilityId N :=
  <[id := default 0 (m !! id) + 1]> m.

(** One ancestor added to the running totals ([u128] sums of [u32] values). *)
Definition chain_add (class : TaskClass) (r : PermitRecord) (ch : Chain) : Chain := {|
  ch_in_class := if decide (rec_class r = class) then ch_in_class ch + 1 else ch_in_class ch;
  ch_cpu := ch_cpu ch + pl_cpu_units (rec_ledger r);
  ch_memory := ch_memory ch + pl_effective_units (rec_ledger r);
  ch_capabilities := foldl chain_capability (ch_capabilities ch) (rec_capabilities r);
|}.

(** The ancestor loop of [cycle_witness].  [None] is the early return for a
    parent that is not live; the loop ends at a repeated id, so [fuel] above the
    number of live permits is never used up. *)
Fixpoint walk_chain (fuel : nat) (s : GovernedState) (class : TaskClass) (visited : gset PermitId)
    (observed : bool) (ancestor : PermitId) (ch : Chain) : option Chain :=
  match fuel with
  | O => Some ch
  | S fuel' =>
    if decide (ancestor ∈ visited) then Some ch
    else match gs_permits s !! ancestor with
    | None => if observed then Some ch else None
    | Some r =>
      let ch := chain_add class r ch in
      if is_awaited_child (rec_scope r) then
        match rec_parent_permit_id r with
        | None => Some ch
        | Some next => walk_chain fuel' s class ({[ancestor]} ∪ visited) true next ch
        end
      else Some ch
    end
  end.
Definition chain_fuel (s : GovernedState) : nat := S (S (size (gs_permits s))).

(** [wait_chain_exclusively_holds]. *)
Definition wait_chain_exclusively_holds (total_held held_by_chain : N) : bool :=
  bool_decide (0 < held_by_chain) && bool_decide (total_held = held_by_chain).

(** The capability part of [held]; [None] is the [?] on a missing record. *)
Fixpoint held_capabilities (s : GovernedState) (P : PolicySet) (ch : Chain)
    (blocked : list CapabilityId) : option (list HeldCapacity) :=
  match blocked with
  | [] => Some []
  | id :: blocked' =>
    if wait_chain_exclusively_holds (capability_in_use s id)
         (default 0 (ch_capabilities ch !! id))
    then
      r ← capability_record P id;
      rest ← held_capabilities s P ch blocked';
      Some (CapabilityPool (cap_name (cr_id r)) :: rest)
    else held_capabilities s P ch blocked'
  end.

(** [cycle_witness]. *)
Definition cycle_witness (s : GovernedState) (P : PolicySet) (root : string) (sc : TaskScope)
    (parent_permit_id : option PermitId) (class : TaskClass) (b : BlockerSet)
  : option CycleWitness :=
  match sc with
  | Child parent_operation_id _ true =>
    ancestor ← (match parent_permit_id with
                | Some pid => Some pid
                | None => parent_permit_for_scope s root sc
                end);
    ch ← walk_chain (chain_fuel s) s class ∅ false ancestor Chain_empty;
    let held_class :=
      if bl_class_inflight b && wait_chain_exclusively_holds (inflight s class) (ch_in_class ch)
      then [ClassInflight class] else [] in
    held_caps ← held_capabilities s P ch (bl_capabilities b);
    let held_cpu :=
      if bl_cpu b && wait_chain_exclusively_holds (gs_cpu_units_held s) (ch_cpu ch)
      then [CpuBudget] else [] in
    let held_memory :=
      if bl_memory b && wait_chain_exclusively_holds (gs_memory_units_held s) (ch_memory ch)
      then [MemoryBudget] else [] in
    match held_class ++ held_caps ++ held_cpu ++ held_memory with
    | [] => None
    | held => Some (mkWitness parent_operation_id held)
    end
  | _ => None
  end.

(** ** Assessment *)

(** [assess_scope]. *)
Definition assess_scope (s : GovernedState) (P : PolicySet) (root : string) (sc : TaskScope)
    (parent_permit_id : option PermitId) (class : TaskClass) (max_inflight : N)
    (cost : ResolvedCost) (caps : CapabilityRequirementSet) (queued_behind : bool)
  : CapacityAssessment :=
  let b := with_queued_behind queued_behind (blockers_for s P class max_inflight cost caps) in
  if bl_is_empty b then Runnable
  else match cycle_witness s P root sc parent_permit_id class b with
       | Some w => IrreversibleWaitCycle w
       | None => ReversiblyBlocked b
       end.

(** [assess]: at intake. *)
Definition assess (s : GovernedState) (P : PolicySet) (spec : TaskSpec) (class : TaskClass)
    (max_inflight : N) (cost : ResolvedCost) (caps : CapabilityRequirementSet)
    (queued_behind : bool) : CapacityAssessment :=
  assess_scope s P (ts_root_operation_id spec) (ts_scope spec) None class max_inflight cost caps
    queued_behind.

(** [assess_pending]: for a queued request. *)
Definition assess_pending (s : GovernedState) (P : PolicySet) (r : PendingRequest)
    (max_inflight : N) (queued_behind : bool) : CapacityAssessment :=
  assess_scope s P (pr_root_operation_id r) (pr_scope r) (pr_parent_permit_id r) (pr_class r)
    max_inflight (pr_cost r) (pr_capabilities r) queued_behind.
