(* ===== verification/Fairness.v ===== *)
(** * Fairness: cross-class dispatch and retry hints

    crates/taskmesh-engine/src/features/fairness: the scheduling tags a request
    carries while queued, the choice of the next class to dispatch, and the
    retry-after hint. *)

From S2P Require Import Prelude Contract Text Kernel State Assess.

(** ** Retry hints: retry_after.rs *)

Definition ADAPTIVE_BASE_MS : N := 50.
Definition ADAPTIVE_QUEUE_STEP_MS : N := 10.
Definition ADAPTIVE_INFLIGHT_STEP_MS : N := 5.
Definition WEIGHT_RELIEF_MS : N := 2.
Definition SLACK_DIVISOR : N := 10.
Definition SCAVENGER_PENALTY_MS : N := 200.

(** [apply_fairness]; the plain [+] are [u64] additions. *)
Definition apply_fairness (base : N) (f : FairnessPolicy) : N :=
  match f with
  | Fifo => base
  | WeightedFairQueue weight _ =>
    saturating_sub base (saturating_mul U64_MAX weight WEIGHT_RELIEF_MS)
  | DeficitRoundRobin quantum => wadd U64_MAX base quantum
  | DeadlineAware slack_ms => wadd U64_MAX base (slack_ms / SLACK_DIVISOR)
  | BestEffortScavenger => wadd U64_MAX base SCAVENGER_PENALTY_MS
  end.

(** [retry_after::compute]. *)
Definition retry_after (retry : RetryAfterPolicy) (f : FairnessPolicy) (queue_depth inflight : N)
  : option N :=
  match retry with
  | RetryNone => None
  | FixedMs value => Some value
  | Adaptive =>
    let contention :=
      wadd U64_MAX (wadd U64_MAX ADAPTIVE_BASE_MS (wmul U64_MAX queue_depth ADAPTIVE_QUEUE_STEP_MS))
        (wmul U64_MAX inflight ADAPTIVE_INFLIGHT_STEP_MS) in
    Some (apply_fairness contention f)
  end.

(** ** Tags: scheduler.rs *)

(** Fixed-point scale of the virtual finish tags. *)
Definition WFQ_SCALE : N := 18446744073709551616.

(** [wfq_increment]. *)
Definition wfq_increment (cost_cpu_units weight : N) : N :=
  (N.max cost_cpu_units 1 * WFQ_SCALE) / N.max weight 1.

(** [rebase_virtual_time]. *)
Definition rebase_request (origin : N) (r : PendingRequest) : PendingRequest :=
  upd_pr_wfq_arrival_tag (λ t, saturating_sub t origin)
    (upd_pr_finish_tag (λ t, saturating_sub t origin) r).
Definition rebase_class (origin : N) (c : ClassState) : ClassState :=
  let c := upd_cs_last_finish_tag (λ t, saturating_sub t origin) c in
  let c := upd_cs_last_served_finish_tag (λ t, saturating_sub t origin) c in
  upd_cs_queue (map (rebase_request origin)) c.
Definition rebase_virtual_time (s : GovernedState) : GovernedState :=
  let origin := gs_virtual_time s in
  upd_gs_classes (fmap (rebase_class origin)) (upd_gs_virtual_time (λ _, 0) s).

(** [enqueue_tags]: (finish tag, arrival tag, deadline) and the updated state. *)
Definition enqueue_tags (s : GovernedState) (class : TaskClass) (policy : ClassPolicy)
    (cost_cpu_units enqueued_at_ms : N) : (N * N * N) * GovernedState :=
  let '(finish_tag, wfq_arrival_tag, s) :=
    match fairness policy with
    | WeightedFairQueue weight _ =>
      let increment := wfq_increment cost_cpu_units weight in
      let arrival := gs_virtual_time s in
      let s := class_mut class id s in
      let base := N.max (cs_last_finish_tag (class_state s class)) (gs_virtual_time s) in
      let '(tag, arrival, s) :=
        match checked_add U128_MAX base increment with
        | Some tag => (tag, arrival, s)
        | None =>
          let s := class_mut class id (rebase_virtual_time s) in
          (saturating_add U128_MAX
             (N.max (cs_last_finish_tag (class_state s class)) (gs_virtual_time s)) increment,
           gs_virtual_time s, s)
        end in
      (tag, arrival, class_mut class (upd_cs_last_finish_tag (λ _, tag)) s)
    | _ => (0, 0, s)
    end in
  let deadline_ms :=
    match fairness policy with
    | DeadlineAware slack_ms => saturating_add U64_MAX enqueued_at_ms slack_ms
    | _ => U64_MAX
    end in
  ((finish_tag, wfq_arrival_tag, deadline_ms), s).

(** [rebuild_wfq_queue]. *)
Fixpoint reprice (weight cursor : N) (q : list PendingRequest) : list PendingRequest * N :=
  match q with
  | [] => ([], cursor)
  | r :: q' =>
    let start := N.max cursor (pr_wfq_arrival_tag r) in
    let tag := saturating_add U128_MAX start (wfq_increment (rc_cpu_units (pr_cost r)) weight) in
    let '(q'', cursor') := reprice weight tag q' in
    (upd_pr_finish_tag (λ _, tag) r :: q'', cursor')
  end.
Definition rebuild_wfq_queue (weight virtual_time : N) (c : ClassState) : ClassState :=
  let '(q, cursor) := reprice weight (cs_last_served_finish_tag c) (cs_queue c) in
  upd_cs_last_finish_tag (λ _, N.max cursor virtual_time) (upd_cs_queue (λ _, q) c).

(** A drained queue ends the busy period: baselines and credit reset. *)
Definition reset_drained (virtual_time : N) (c : ClassState) : ClassState :=
  upd_cs_deficit (λ _, 0)
    (upd_cs_last_served_finish_tag (λ _, virtual_time)
       (upd_cs_last_finish_tag (λ _, virtual_time) c)).

(** [on_unserved_removed]. *)
Definition on_unserved_removed (class : TaskClass) (policy : ClassPolicy) (s : GovernedState)
  : GovernedState :=
  let virtual_time := gs_virtual_time s in
  class_mut class (λ c,
    match cs_queue c with
    | [] => reset_drained virtual_time c
    | _ =>
      match fairness policy with
      | WeightedFairQueue weight _ => rebuild_wfq_queue weight virtual_time c
      | _ =>
        upd_cs_last_finish_tag
          (λ _, N.max (foldr N.max 0 (map pr_finish_tag (cs_queue c))) virtual_time) c
      end
    end) s.

(** [on_request_served]. *)
Definition on_request_served (class : TaskClass) (policy : ClassPolicy) (queue_index : nat)
    (service_finish_tag : N) (s : GovernedState) : GovernedState :=
  let virtual_time := gs_virtual_time s in
  class_mut class (λ c,
    match cs_queue c with
    | [] => reset_drained virtual_time c
    | _ =>
      let c := upd_cs_last_served_finish_tag (λ t, N.max t service_finish_tag) c in
      if decide (0 < queue_index)%nat then
        match fairness policy with
        | WeightedFairQueue weight _ => rebuild_wfq_queue weight virtual_time c
        | _ => c
        end
      else c
    end) s.

(** ** Selection: scheduler.rs *)

Record Candidate := mkCandidate {
  ca_class : TaskClass;
  ca_queue_index : nat;
  ca_fairness : FairnessPolicy;
  ca_best_effort : bool;
  ca_head_queue_order : N;
  ca_head_finish_tag : N;
  ca_head_deadline_ms : N;
  ca_head_cost_cpu : N;
}.

Record Selection := mkSelection {
  sel_class : TaskClass;
  sel_queue_index : nat;
  sel_service_finish_tag : N;
}.

(** [.iter().enumerate().find(..)]. *)
Fixpoint find_enum {A} (f : A → bool) (i : nat) (l : list A) : option (nat * A) :=
  match l with
  | [] => None
  | x :: l' => if f x then Some (i, x) else find_enum f (S i) l'
  end.

(** Whether a queued request may be dispatched now. *)
Definition dispatchable (s : GovernedState) (P : PolicySet) (policy : ClassPolicy) (c : ClassState)
    (r : PendingRequest) : bool :=
  negb (ClassState.has_queued_predecessor c r)
  && bool_decide (assess_pending s P r (max_inflight policy) false = Runnable).

Definition service_tag (policy : ClassPolicy) (c : ClassState) (queue_index : nat)
    (head : PendingRequest) : N :=
  match fairness policy with
  | WeightedFairQueue weight _ =>
    match queue_index with
    | O => pr_finish_tag head
    | S _ =>
      saturating_add U128_MAX
        (N.max (cs_last_served_finish_tag c) (pr_wfq_arrival_tag head))
        (wfq_increment (rc_cpu_units (pr_cost head)) weight)
    end
  | _ => pr_finish_tag head
  end.

Definition class_candidate (s : GovernedState) (P : PolicySet) (class : TaskClass) (c : ClassState)
  : option Candidate :=
  policy ← ps_class P class;
  '(queue_index, head) ← find_enum (dispatchable s P policy c) 0%nat (cs_queue c);
  Some {| ca_class := class;
          ca_queue_index := queue_index;
          ca_fairness := fairness policy;
          ca_best_effort := best_effort policy;
          ca_head_queue_order := pr_queue_order head;
          ca_head_finish_tag := service_tag policy c queue_index head;
          ca_head_deadline_ms := pr_deadline_ms head;
          ca_head_cost_cpu := rc_cpu_units (pr_cost head) |}.

(** [runnable_candidates]: in class order. *)
Definition runnable_candidates (s : GovernedState) (P : PolicySet) : list Candidate :=
  omap (λ '(class, c), class_candidate s P class c) (btree_to_list (gs_classes s)).

(** [has_runnable]. *)
Definition has_runnable (s : GovernedState) (P : PolicySet) : bool :=
  match runnable_candidates s P with [] => false | _ => true end.

(** [pick_min]: the first candidate with the least key; [None] on an empty pool
    is the [expect]. *)
Fixpoint min_by_key {K} `{RustOrd K} (key : Candidate → K) (best : Candidate)
    (l : list Candidate) : Candidate :=
  match l with
  | [] => best
  | c :: l' => min_by_key key (match rcmp (key c) (key best) with Lt => c | _ => best end) l'
  end.
Definition pick_min {K} `{RustOrd K} (key : Candidate → K) (pool : list Candidate)
  : option TaskClass :=
  match pool with [] => None | c :: l => Some (ca_class (min_by_key key c l)) end.

(** [drr_quantum]. *)
Definition drr_quantum (f : FairnessPolicy) : N :=
  match f with DeficitRoundRobin quantum => quantum | _ => 1 end.

Record PlannedVisit := mkVisit {
  vi_class : TaskClass;
  vi_quantum : N;
  vi_cost : N;
  vi_offset : N;
  vi_visit_pos : N;
}.

Definition class_deficit (s : GovernedState) (class : TaskClass) : N :=
  match gs_classes s !! class with Some c => cs_deficit c | None => 0 end.

(** [pool.iter().position(..)]. *)
Fixpoint position {A} (f : A → bool) (l : list A) : option nat :=
  match l with
  | [] => None
  | x :: l' => if f x then Some O else S <$> position f l'
  end.

(** The ring slot the walk starts from. *)
Definition ring_start (s : GovernedState) (pool : list Candidate) : nat :=
  match gs_drr_cursor s with
  | Some cur => default O (position (λ c, bool_decide (rlt cur (ca_class c))) pool)
  | None => O
  end.

(** The plan entry of the candidate at [index]; [None] is the division by a zero
    quantum. *)
Definition plan_visit (s : GovernedState) (len start index : nat) (c : Candidate)
  : option PlannedVisit :=
  let offset := N.of_nat ((index + len - start) `mod` len) in
  let quantum := drr_quantum (ca_fairness c) in
  let cost := N.max (ca_head_cost_cpu c) 1 in
  let deficit := class_deficit s (ca_class c) in
  visits_needed ← (if decide (cost ≤ deficit) then Some 1
                   else if decide (quantum = 0) then None
                   else Some (div_ceil (cost - deficit) quantum));
  Some {| vi_class := ca_class c; vi_quantum := quantum; vi_cost := cost; vi_offset := offset;
          vi_visit_pos := offset + (visits_needed - 1) * N.of_nat len |}.

Fixpoint plan_from (s : GovernedState) (len start index : nat) (pool : list Candidate)
  : option (list PlannedVisit) :=
  match pool with
  | [] => Some []
  | c :: pool' =>
    v ← plan_visit s len start index c;
    vs ← plan_from s len start (S index) pool';
    Some (v :: vs)
  end.

(** Credit one planned class for the visits that happened on the way to
    [winning_pos]. *)
Definition credit_visit (len : nat) (winning_pos : N) (s : GovernedState) (v : PlannedVisit)
  : GovernedState :=
  if decide (winning_pos < vi_offset v) then s
  else
    let visits := (winning_pos - vi_offset v) / N.of_nat len + 1 in
    let credit := saturating_mul U128_MAX visits (vi_quantum v) in
    class_mut (vi_class v) (upd_cs_deficit (λ d, saturating_add U128_MAX d credit)) s.

Fixpoint min_pos (best : N) (vs : list PlannedVisit) : N :=
  match vs with [] => best | v :: vs' => min_pos (N.min best (vi_visit_pos v)) vs' end.

(** [drr_select]; the outer option is the panic, the inner one the source's. *)
Definition drr_walk (s : GovernedState) (pool : list Candidate)
  : option (option TaskClass * GovernedState) :=
  let len := length pool in
  let start := ring_start s pool in
  let s := upd_gs_drr_ring_visits (λ n, saturating_add U64_MAX n (N.of_nat len)) s in
  plan ← plan_from s len start O pool;
  match plan with
  | [] => Some (None, s)
  | v0 :: vs =>
    let winning_pos := min_pos (vi_visit_pos v0) vs in
    match List.find (λ v, vi_visit_pos v =? winning_pos) plan with
    | None => Some (None, s)
    | Some w =>
      let s := foldl (credit_visit len winning_pos) s plan in
      let s := class_mut (vi_class w)
                 (upd_cs_deficit (λ d, saturating_sub d (vi_cost w))) s in
      Some (Some (vi_class w), upd_gs_drr_cursor (λ _, Some (vi_class w)) s)
    end
  end.
Definition drr_select (s : GovernedState) (pool : list Candidate)
  : option (option TaskClass * GovernedState) :=
  match pool with
  | [] => Some (None, s)
  | _ =>
    match gs_drr_cursor s with
    | Some cur =>
      match List.find (λ c, bool_decide (ca_class c = cur)) pool with
      | Some c =>
        let cost := N.max (ca_head_cost_cpu c) 1 in
        if decide (cost ≤ class_deficit s cur)
        then Some (Some cur, class_mut cur (upd_cs_deficit (λ d, d - cost)) s)
        else drr_walk s pool
      | None => drr_walk s pool
      end
    | None => drr_walk s pool
    end
  end.

(** [select]: the next dispatch, if any; the outer option is the panic. *)
Definition select (s : GovernedState) (P : PolicySet)
  : option (option Selection * GovernedState) :=
  let candidates := runnable_candidates s P in
  let has_primary := existsb (λ c, negb (ca_best_effort c)) candidates in
  let pool := List.filter (λ c, xorb (ca_best_effort c) has_primary) candidates in
  match pool with
  | [] => Some (None, s)
  | c0 :: _ =>
    let discipline := ca_fairness c0 in
    '(chosen_class, s) ←
      match discipline with
      | Fifo | BestEffortScavenger =>
        class ← pick_min ca_head_queue_order pool; Some (Some class, s)
      | WeightedFairQueue _ _ =>
        class ← pick_min (λ c, (ca_head_finish_tag c, ca_head_queue_order c)) pool;
        Some (Some class, s)
      | DeadlineAware _ =>
        class ← pick_min (λ c, (ca_head_deadline_ms c, ca_head_queue_order c)) pool;
        Some (Some class, s)
      | DeficitRoundRobin _ => drr_select s pool
      end;
    match chosen_class with
    | None => Some (None, s)
    | Some chosen_class =>
      let s := match discipline with
               | WeightedFairQueue _ _ =>
                 match List.find (λ c, bool_decide (ca_class c = chosen_class)) pool with
                 | Some c => upd_gs_virtual_time (λ t, N.max t (ca_head_finish_tag c)) s
                 | None => s
                 end
               | _ => s
               end in
      match List.find (λ c, bool_decide (ca_class c = chosen_class)) candidates with
      | None => Some (None, s)
      | Some chosen =>
        Some (Some (mkSelection chosen_class (ca_queue_index chosen) (ca_head_finish_tag chosen)), s)
      end
    end
  end.
