(* ===== verification/Admission.v ===== *)
(** * Admission

    crates/taskmesh-engine/src/features/admission/mod.rs and the composite rules
    of features/composite: the bounded, fail-closed decision that turns a task
    into an admitted permit, a queued ticket or a typed rejection.  A result of
    [None] is a panic of the source. *)

From S2P Require Import Prelude Contract Text Kernel State Assess Fairness.

(** ** Composite rules: composite/mod.rs, composite/reduce.rs *)

(** [target_stage]. *)
Definition target_stage (spec : TaskSpec) : TaskStage :=
  match ts_scope spec with
  | Child _ parent_stage _ => parent_stage
  | Root => match ts_stages spec with [] => ts_class spec | sd :: _ => sd_stage sd end
  end.

(** [is_recursive]: a child on a (root, stage) that is already occupied. *)
Definition is_recursive (s : GovernedState) (spec : TaskSpec) : bool :=
  match ts_scope spec with
  | Child _ parent_stage _ =>
    match gs_active_recursion s !! ts_root_operation_id spec with
    | Some stages => bool_decide (parent_stage ∈ stages)
    | None => false
    end
  | Root => false
  end.

(** [reduce::validate_policy] and [reduce::validate_spec]. *)
Definition validate_reduce_policy (p : DeterministicReducePolicy) : Checked () :=
  if is_blank (stable_sort_key p) then inl ReduceKeyEmpty else inr ().
Fixpoint validate_reduce_stages (stages : list StageDescriptor) : Checked () :=
  match stages with
  | [] => inr ()
  | sd :: stages' =>
    _ ← (if sd_fan_out sd then
           match sd_reduce_policy sd with
           | None => inl (ReducePolicyRequired (sd_stage sd))
           | Some p => validate_reduce_policy p
           end
         else inr ());
    validate_reduce_stages stages'
  end.
Definition validate_reduce_spec (spec : TaskSpec) : Checked () :=
  validate_reduce_stages (ts_stages spec).

(** ** Admission: admission/mod.rs *)

(** [resolve_cost]. *)
Definition resolve_cost (p : ClassPolicy) : ResolvedCost :=
  mkCost (pc_cpu_units (permit_cost p)) (pc_memory_units (permit_cost p)).

(** [verdict_for_block]. *)
Definition verdict_for_block (b : CapacityBlock) (retry_after_ms : option N) : AdmissionVerdict :=
  match b with
  | BlockMemory => MemorySaturated retry_after_ms
  | BlockCapability => SubstrateSaturated retry_after_ms
  | BlockAccountingFault => RuntimeUnavailable
  | BlockInflight | BlockCpu | BlockQueuedBehind | BlockOk => CpuSaturated retry_after_ms
  end.

(** Identities allocated for one admission attempt. *)
Record Ids := mkIds { id_permit : PermitId; id_ticket : Ticket; id_seq_no : N }.

Record AdmissionRequest := mkRequest {
  ar_spec : TaskSpec;
  ar_capabilities : CapabilityRequirementSet;
}.

(** [class_can_queue]. *)
Definition class_can_queue (p : ClassPolicy) : bool :=
  is_queueable (overflow_policy p)
  || bool_decide (memory_overcommit_policy p = OvercommitQueue).

(** [retry]. *)
Definition retry (p : ClassPolicy) (s : GovernedState) (class : TaskClass) : option N :=
  retry_after (retry_after_policy p) (fairness p) (queued s class) (inflight s class).

Abbreviation Outcome := (option (AdmissionDecision * GovernedState * TransitionEffects))
  (only parsing).

(** A refusal: the waker is retired, the state untouched. *)
Definition refuse (v : AdmissionVerdict) (waker : option Waker) (s : GovernedState)
    (e : TransitionEffects) : Outcome :=
  Some (Rejected v, s, push_retire waker e).

(** The record [enqueue_or_full] enqueues. *)
Definition pending_of (class : TaskClass) (req : AdmissionRequest) (waker : option Waker)
    (ids : Ids) (now_ms : N) (blocked_on : CapacityBlock) (cost : ResolvedCost)
    (parent : option PermitId) (tags : N * N * N) : PendingRequest :=
  let spec := ar_spec req in
  let '(finish_tag, wfq_arrival_tag, deadline_ms) := tags in
  {| pr_permit_id := id_permit ids;
     pr_ticket := id_ticket ids;
     pr_seq_no := id_seq_no ids;
     pr_queue_order := 0;
     pr_class := class;
     pr_request_key := ts_root_operation_id spec;
     pr_operation := ts_operation spec;
     pr_root_operation_id := ts_root_operation_id spec;
     pr_scope := ts_scope spec;
     pr_parent_permit_id := parent;
     pr_target_stage := target_stage spec;
     pr_provenance := provenance_of spec;
     pr_cost := cost;
     pr_capabilities := ar_capabilities req;
     pr_enqueued_at_ms := now_ms;
     pr_deadline_ms := deadline_ms;
     pr_finish_tag := finish_tag;
     pr_wfq_arrival_tag := wfq_arrival_tag;
     pr_blocked_on := blocked_on;
     pr_waker := waker |}.

(** [enqueue_or_full]. *)
Definition enqueue_or_full (policy : ClassPolicy) (class : TaskClass) (req : AdmissionRequest)
    (waker : option Waker) (ids : Ids) (now_ms : N) (blocked_on : CapacityBlock)
    (s : GovernedState) (e : TransitionEffects) : Outcome :=
  let spec := ar_spec req in
  if decide (max_queue_depth policy ≤ queued s class) then
    let retry_after_ms := retry policy s class in
    refuse (match blocked_on with
            | BlockMemory => MemorySaturated retry_after_ms
            | BlockCapability => SubstrateSaturated retry_after_ms
            | _ => QueueFull retry_after_ms
            end) waker s e
  else
    let cost := resolve_cost policy in
    let parent := parent_permit_for_scope s (ts_root_operation_id spec) (ts_scope spec) in
    let '(tags, s) := enqueue_tags s class policy (rc_cpu_units cost) now_ms in
    s ← enqueue (pending_of class req waker ids now_ms blocked_on cost parent tags) s;
    let s := upd_gs_tickets (insert (id_ticket ids) (TQueued class)) s in
    let s := if is_child (ts_scope spec)
             then occupy_recursion_guard (ts_root_operation_id spec) (target_stage spec) s
             else s in
    Some (Queued (id_ticket ids), s, e).

(** The grant of an immediately admitted request. *)
Definition direct_grant (class : TaskClass) (policy : ClassPolicy) (req : AdmissionRequest)
    (ids : Ids) (now_ms : N) (s : GovernedState) : GrantRequest :=
  let spec := ar_spec req in
  {| gr_permit_id := id_permit ids;
     gr_class := class;
     gr_operation := ts_operation spec;
     gr_root_operation_id := ts_root_operation_id spec;
     gr_scope := ts_scope spec;
     gr_parent_permit_id :=
       parent_permit_for_scope s (ts_root_operation_id spec) (ts_scope spec);
     gr_target_stage := target_stage spec;
     gr_provenance := provenance_of spec;
     gr_capabilities := ar_capabilities req;
     gr_cost := resolve_cost policy;
     gr_reserved_units := rc_memory_units (resolve_cost policy);
     gr_now_ms := now_ms;
     gr_pending_ticket := None;
     gr_claim_waker := None |}.

(** Whether an earlier arrival has the right of way. *)
Definition admit_queued_behind (s : GovernedState) (policy : ClassPolicy) (class : TaskClass)
    (caps : CapabilityRequirementSet) : bool :=
  match gs_classes s !! class with
  | Some c => ClassState.has_queued_domain c caps
  | None => false
  end
  || (gs_promotion_pending s && class_can_queue policy && bool_decide (queued s class = 0)).

(** What [admit_class] does once the block is known (its last [match]).
    [degrade] is the continuation that retries against the fallback class. *)
Definition admit_block (policy : ClassPolicy) (now_ms : N) (req : AdmissionRequest)
    (class : TaskClass) (waker : option Waker) (ids : Ids)
    (degrade : option (TaskClass → Outcome)) (block : CapacityBlock)
    (s : GovernedState) (e : TransitionEffects) : Outcome :=
  match block with
  | BlockOk =>
    Some (AdmittedPermit (id_permit ids), grant (direct_grant class policy req ids now_ms s) s,
          push_retire waker e)
  | BlockAccountingFault =>
    refuse RuntimeUnavailable waker
      (record_accounting_fault "capacity aggregate is not representable" s) e
  | BlockQueuedBehind => enqueue_or_full policy class req waker ids now_ms block s e
  | BlockInflight | BlockCpu | BlockCapability =>
    if is_queueable (overflow_policy policy)
    then enqueue_or_full policy class req waker ids now_ms block s e
    else refuse (verdict_for_block block (retry policy s class)) waker s e
  | BlockMemory =>
    match memory_overcommit_policy policy, degrade with
    | DegradeToLight fallback, Some retry_on => retry_on fallback
    | OvercommitQueue, _ => enqueue_or_full policy class req waker ids now_ms block s e
    | _, _ => refuse (MemorySaturated (retry policy s class)) waker s e
    end
  end.

(** [admit_class]; [hops] is [1] when [degrade_allowed]. *)
Fixpoint admit_class (hops : nat) (P : PolicySet) (now_ms : N) (req : AdmissionRequest)
    (class : TaskClass) (waker : option Waker) (ids : Ids) (s : GovernedState)
    (e : TransitionEffects) : Outcome :=
  let spec := ar_spec req in
  let degrade := match hops with
                 | O => None
                 | S hops' => Some (λ fallback,
                     admit_class hops' P now_ms req fallback waker ids s e)
                 end in
  match ps_class P class with
  | None => refuse (UnknownClass class) waker s e
  | Some policy =>
    if is_disabled policy then refuse ClassDisabled waker s e
    else if has_operation_identity s (ts_root_operation_id spec) (ts_operation spec)
    then refuse RecursiveAdmission waker s e
    else if is_recursive s spec then refuse RecursiveAdmission waker s e
    else
      match assess s P spec class (max_inflight policy) (resolve_cost policy)
              (ar_capabilities req) (admit_queued_behind s policy class (ar_capabilities req)) with
      | Runnable => admit_block policy now_ms req class waker ids degrade BlockOk s e
      | ReversiblyBlocked b =>
        admit_block policy now_ms req class waker ids degrade (primary b) s e
      | IrreversibleWaitCycle w =>
        match memory_overcommit_policy policy, degrade,
              bool_decide (MemoryBudget ∈ cw_held w) with
        | DegradeToLight fallback, Some retry_on, true => retry_on fallback
        | _, _, _ =>
          held_by_root ← head (cw_held w);
          refuse (NestedWaitCycle held_by_root) waker s e
        end
      end
  end.

(** [admit]; the decision constructor [Admitted] is spelled [AdmittedPermit]. *)
Definition admit_request (P : PolicySet) (now_ms : N) (req : AdmissionRequest) (waker : option Waker)
    (ids : Ids) (s : GovernedState) (e : TransitionEffects) : Outcome :=
  if gs_admission_closed s then refuse RuntimeUnavailable waker s e
  else admit_class 1 P now_ms req (ts_class (ar_spec req)) waker ids s e.
