(* ===== verification/Memory.v ===== *)
(** * Memory governance

    crates/taskmesh-engine/src/features/memory/mod.rs: the effective charge of a
    permit in each permit mode, reconciliation with a measurement, stage-boundary
    release and the leak sweep. *)

From S2P Require Import Prelude Contract Text Kernel State.

Definition DEFAULT_LEAK_STALE_MS : N := 60000.

Inductive ReconcileOutcome :=
  | ReconcileApplied (held_units : N)
  | ReconcileUnknownPermit
  | ReconcileStaleEpoch (current_epoch : N)
  | ReconcileEpochExhausted (current_epoch : N)
  | ConversionFailed (error : ResourceConversionError).

(** [MeasurementSequence::checked_next]. *)
Definition checked_next (sequence : N) : ReconcileOutcome + N :=
  match checked_add U64_MAX sequence 1 with
  | Some n => inr n
  | None => inl (ReconcileEpochExhausted sequence)
  end.

(** [effective_units]. *)
Definition effective_units (mode : MemoryPermitMode) (remaining_reservation_units measured_bytes : N)
    (scale : MemoryUnitScale) : ResourceConversionError + N :=
  match mode with
  | Estimated => inr remaining_reservation_units
  | Measured => units_for scale measured_bytes
  | Hybrid =>
    match units_for scale measured_bytes with
    | inl error => inl error
    | inr units => inr (N.max remaining_reservation_units units)
    end
  end.

(** [is_stale]. *)
Definition is_stale (last_touched_ms now_ms stale_after_ms : N) : bool :=
  bool_decide (saturating_add U64_MAX last_touched_ms stale_after_ms < now_ms).

(** [stage_release_allowed]. *)
Definition stage_release_allowed (p : MemoryReleasePolicy) : bool :=
  match p with OnStageBoundary | LeakDetecting => true | OnTaskCompletion => false end.

(** ** The three memory ledgers: global, class, root *)

Definition sub_or_keep (n magnitude : N) : N :=
  match checked_sub n magnitude with Some next => next | None => n end.
Definition underflows (n magnitude : N) : bool :=
  bool_decide (checked_sub n magnitude = None).

(** [apply_memory_delta], for a signed delta. *)
Definition apply_memory_delta (class : TaskClass) (root_id : option string) (delta : Z)
    (s : GovernedState) : GovernedState :=
  let magnitude := Z.abs_N delta in
  if decide (0 ≤ delta)%Z then
    let s := upd_gs_memory_units_held (λ n, wadd U128_MAX n magnitude) s in
    let s := class_alter class
               (upd_cs_memory_units_held (λ n, wadd U128_MAX n magnitude)) s in
    match root_id with
    | Some root_id =>
      upd_gs_roots (alter (upd_rs_memory_units (λ n, wadd U128_MAX n magnitude)) root_id) s
    | None => s
    end
  else
    let underflow1 := underflows (gs_memory_units_held s) magnitude in
    let underflow2 := match gs_classes s !! class with
                      | Some c => underflows (cs_memory_units_held c) magnitude
                      | None => false
                      end in
    let underflow3 := match root_id with
                      | Some root_id =>
                        match gs_roots s !! root_id with
                        | Some r => underflows (rs_memory_units r) magnitude
                        | None => false
                        end
                      | None => false
                      end in
    let s := upd_gs_memory_units_held (λ n, sub_or_keep n magnitude) s in
    let s := class_alter class (upd_cs_memory_units_held (λ n, sub_or_keep n magnitude)) s in
    let s := match root_id with
             | Some root_id =>
               upd_gs_roots (alter (upd_rs_memory_units (λ n, sub_or_keep n magnitude)) root_id) s
             | None => s
             end in
    if underflow1 || underflow2 || underflow3
    then record_accounting_fault "memory release exceeds the units a ledger holds" s
    else s.

(** The root a delta of this permit is also charged to. *)
Definition delta_root (r : PermitRecord) : option string :=
  if is_child (rec_scope r) then Some (rec_root_operation_id r) else None.

(** ** Reconcile *)

(** [reconcile]. *)
Definition reconcile (pid : PermitId) (measured_bytes sequence : N) (mode : MemoryPermitMode)
    (scale : MemoryUnitScale) (now_ms : N) (s : GovernedState) : ReconcileOutcome * GovernedState :=
  match gs_permits s !! pid with
  | None => (ReconcileUnknownPermit, s)
  | Some r =>
    let l := rec_ledger r in
    if decide (pl_measurement_sequence l = U64_MAX) then (ReconcileEpochExhausted U64_MAX, s)
    else if decide (sequence ≤ pl_measurement_sequence l)
    then (ReconcileStaleEpoch (pl_measurement_sequence l), s)
    else match effective_units mode (pl_remaining_reservation_units l) measured_bytes scale with
    | inl error =>
      (ConversionFailed error,
       record_accounting_fault "measured memory exceeds the unit domain" s)
    | inr new_effective =>
      let old_effective := pl_effective_units l in
      let l := upd_pl_measured_bytes (λ _, measured_bytes) l in
      let l := upd_pl_measurement_sequence (λ _, sequence) l in
      let l := upd_pl_effective_units (λ _, new_effective) l in
      let l := upd_pl_last_touched_ms (λ t, N.max t now_ms) l in
      let s := upd_gs_permits (insert pid (upd_rec_ledger (λ _, l) r)) s in
      (ReconcileApplied new_effective,
       apply_memory_delta (rec_class r) (delta_root r)
         (Z.of_N new_effective - Z.of_N old_effective) s)
    end
  end.

(** ** Stage release *)

(** [release_stage_memory]. *)
Definition release_stage_memory (pid : PermitId) (freed_units : N) (policy : MemoryReleasePolicy)
    (sequence : option N) (now_ms : N) (s : GovernedState) : StageReleaseOutcome * GovernedState :=
  if negb (stage_release_allowed policy) then (StagePolicyForbids policy, s)
  else match gs_permits s !! pid with
  | None => (StageUnknownPermit, s)
  | Some r =>
    let l := rec_ledger r in
    let stale := match sequence with
                 | Some n => bool_decide (n ≤ pl_stage_sequence l)
                 | None => false
                 end in
    if stale then (StageStaleSequence (pl_stage_sequence l), s)
    else
      let l := match sequence with
               | Some n => upd_pl_stage_sequence (λ _, n) l
               | None => l
               end in
      let freed := N.min freed_units (pl_effective_units l) in
      let l := upd_pl_effective_units (λ n, n - freed) l in
      let l := upd_pl_remaining_reservation_units (λ n, saturating_sub n freed) l in
      let l := upd_pl_last_touched_ms (λ t, N.max t now_ms) l in
      let s := upd_gs_permits (insert pid (upd_rec_ledger (λ _, l) r)) s in
      (StageReleased freed,
       apply_memory_delta (rec_class r) (delta_root r) (- Z.of_N freed) s)
  end.

(** ** Leak sweep *)

(** What the scan finds of one permit. *)
Definition leak_detecting (P : PolicySet) (r : PermitRecord) : bool :=
  match ps_class P (rec_class r) with
  | Some p => bool_decide (memory_release_policy p = LeakDetecting)
  | None => false
  end.
Definition suspected_leak (P : PolicySet) (now_ms stale_after_ms : N) (r : PermitRecord) : bool :=
  leak_detecting P r && is_stale (pl_last_touched_ms (rec_ledger r)) now_ms stale_after_ms.
Definition reclaimable (r : PermitRecord) : bool :=
  bool_decide (rec_phase r = DispatchReserved).

Definition count_u32 {A} (l : list A) : N := foldl (λ n _, saturating_add U32_MAX n 1) 0 l.

(** The reclaiming loop of [reap_leaks]. *)
Fixpoint reap_permits (pids : list PermitId) (reclaimed : N) (s : GovernedState)
    (e : TransitionEffects) : N * GovernedState * TransitionEffects :=
  match pids with
  | [] => (reclaimed, s, e)
  | pid :: pids' =>
    let '(removed, s, e) := unwind pid Reclaimed s e in
    reap_permits pids' (match removed with
                        | Some _ => wadd U32_MAX reclaimed 1
                        | None => reclaimed
                        end) s e
  end.

(** [reap_leaks]. *)
Definition reap_leaks (P : PolicySet) (now_ms stale_after_ms : N) (s : GovernedState)
    (e : TransitionEffects) : LeakSweepReport * GovernedState * TransitionEffects :=
  let suspected := List.filter (suspected_leak P now_ms stale_after_ms) (btree_values (gs_permits s)) in
  let reclaim := map rec_permit_id (List.filter reclaimable suspected) in
  let retained := List.filter (λ r, negb (reclaimable r)) suspected in
  let '(reclaimed, s, e) := reap_permits reclaim 0 s e in
  (mkSweep reclaimed (count_u32 suspected) (count_u32 retained), s, e).
