(* ===== verification/Observe.v ===== *)
(** * Observation: snapshots and diagnostic views

    crates/taskmesh-contract/src/snapshot.rs (the snapshot and the conservation
    check a consumer runs on it) and crates/taskmesh-engine/src/engine/governor/
    observation.rs (the projections of the governed state), with the read-only
    accessors of governor.rs.  Each reads the state under one lock and changes
    nothing. *)

From S2P Require Import Prelude Contract Text Kernel State Assess.

Definition SNAPSHOT_SCHEMA_VERSION : N := 2.

(** ** Snapshots: snapshot.rs *)

Record ClassSnapshot := mkClassSnapshot {
  sn_inflight : N;
  sn_queued : N;
  sn_cpu_units_held : N;
  sn_memory_units_held : N;
  sn_dispatch_reserved : N;
  sn_accepted : N;
  sn_running : N;
  sn_cleanup_pending : N;
  sn_admitted_total : N;
  sn_started_total : N;
  sn_terminated_total : N;
}.
Definition ClassSnapshot_default : ClassSnapshot := mkClassSnapshot 0 0 0 0 0 0 0 0 0 0 0.

Record CapabilityUsage := mkUsage { cu_in_use : N; cu_limit : N }.

Record Snapshot := mkSnapshot {
  sn_schema_version : N;
  sn_classes : gmap string ClassSnapshot;
  sn_substrates : list SubstrateRecord;
  sn_capabilities : gmap string CapabilityUsage;
}.

(** The violated identity, one constructor per message of the source. *)
Inductive ConservationViolation :=
  | PhaseSum (inflight phases : N)
  | AccountedOverflow (inflight terminated_total : N)
  | AdmittedTotal (admitted_total inflight terminated_total : N)
  | StartedAboveAdmitted (started_total admitted_total : N)
  | StartedBelowLive (started_total started_live : N)
  | InClass (class : TaskClass) (violation : ConservationViolation)
  | CapabilityOverLimit (pool : string) (in_use limit : N).

(** [ClassSnapshot::conservation_violation]; the sums are [u128] sums of [u32]
    values. *)
Definition class_violation (c : ClassSnapshot) : option ConservationViolation :=
  let phases := sn_dispatch_reserved c + sn_accepted c + sn_running c + sn_cleanup_pending c in
  if negb (bool_decide (phases = sn_inflight c)) then Some (PhaseSum (sn_inflight c) phases)
  else match checked_add U128_MAX (sn_inflight c) (sn_terminated_total c) with
  | None => Some (AccountedOverflow (sn_inflight c) (sn_terminated_total c))
  | Some accounted_admissions =>
    if negb (bool_decide (sn_admitted_total c = accounted_admissions))
    then Some (AdmittedTotal (sn_admitted_total c) (sn_inflight c) (sn_terminated_total c))
    else if decide (sn_admitted_total c < sn_started_total c)
    then Some (StartedAboveAdmitted (sn_started_total c) (sn_admitted_total c))
    else
      let started_live := sn_running c + sn_cleanup_pending c in
      if decide (sn_started_total c < started_live)
      then Some (StartedBelowLive (sn_started_total c) started_live)
      else None
  end.

Fixpoint first_class_violation (entries : list (TaskClass * ClassSnapshot))
  : option ConservationViolation :=
  match entries with
  | [] => None
  | (class, c) :: entries' =>
    match class_violation c with
    | Some violation => Some (InClass class violation)
    | None => first_class_violation entries'
    end
  end.

Fixpoint first_capability_violation (entries : list (string * CapabilityUsage))
  : option ConservationViolation :=
  match entries with
  | [] => None
  | (pool, usage) :: entries' =>
    if negb (bool_decide (cu_limit usage = 0)) && bool_decide (cu_limit usage < cu_in_use usage)
    then Some (CapabilityOverLimit pool (cu_in_use usage) (cu_limit usage))
    else first_capability_violation entries'
  end.

(** [Snapshot::conservation_violation]. *)
Definition conservation_violation (sn : Snapshot) : option ConservationViolation :=
  match first_class_violation (btree_to_list (sn_classes sn)) with
  | Some violation => Some violation
  | None => first_capability_violation (btree_to_list (sn_capabilities sn))
  end.

(** ** The projection: observation.rs *)

Definition class_projection (c : ClassState) : ClassSnapshot := {|
  sn_inflight := cs_inflight c;
  sn_queued := ClassState.queued c;
  sn_cpu_units_held := cs_cpu_units_held c;
  sn_memory_units_held := cs_memory_units_held c;
  sn_dispatch_reserved := cs_dispatch_reserved c;
  sn_accepted := cs_accepted c;
  sn_running := cs_running c;
  sn_cleanup_pending := cs_cleanup_pending c;
  sn_admitted_total := cs_admitted_total c;
  sn_started_total := cs_started_total c;
  sn_terminated_total := cs_terminated_total c;
|}.

(** [classes.entry(class).or_insert(projection)]. *)
Definition project_class (s : GovernedState) (m : gmap string ClassSnapshot) (class : TaskClass)
  : gmap string ClassSnapshot :=
  match m !! class with
  | Some _ => m
  | None =>
    <[class := match gs_classes s !! class with
               | Some c => class_projection c
               | None => ClassSnapshot_default
               end]> m
  end.

Definition project_capability (s : GovernedState) (m : gmap string CapabilityUsage)
    (r : CapabilityRecord) : gmap string CapabilityUsage :=
  <[cap_name (cr_id r) :=
      mkUsage (capability_in_use s (cr_id r)) (capacity_limit (cr_capacity r))]> m.

(** [Governor::snapshot]. *)
Definition snapshot (P : PolicySet) (s : GovernedState) : Snapshot := {|
  sn_schema_version := SNAPSHOT_SCHEMA_VERSION;
  sn_classes :=
    foldl (project_class s) ∅ (btree_keys (ps_classes P) ++ btree_keys (gs_classes s));
  sn_substrates := inventory_snapshot (ps_substrates P);
  sn_capabilities := foldl (project_capability s) ∅ (btree_values (ps_capabilities P));
|}.

(** ** Diagnostic views *)

Record PendingView := mkPendingView {
  pv_class : TaskClass;
  pv_request_key : string;
  pv_blocked_on : CapacityBlock;
  pv_assessment : CapacityAssessment;
  pv_enqueued_at_ms : N;
  pv_queue_wait_ms : N;
  pv_capabilities : CapabilityRequirementSet;
}.

(** [Governor::pending_view]. *)
Definition pending_view (P : PolicySet) (ticket : Ticket) (s : GovernedState)
  : option PendingView :=
  class ← match gs_tickets s !! ticket with Some (TQueued class) => Some class | _ => None end;
  cstate ← gs_classes s !! class;
  request ← List.find (λ r, bool_decide (pr_ticket r = ticket)) (cs_queue cstate);
  policy ← ps_class P class;
  let assessment := assess_pending s P request (max_inflight policy)
    (gs_promotion_pending s || ClassState.has_queued_predecessor cstate request) in
  Some {| pv_class := pr_class request;
          pv_request_key := pr_request_key request;
          pv_blocked_on :=
            match assessment with
            | Runnable => BlockOk
            | ReversiblyBlocked blockers => primary blockers
            | IrreversibleWaitCycle _ => pr_blocked_on request
            end;
          pv_assessment := assessment;
          pv_enqueued_at_ms := pr_enqueued_at_ms request;
          pv_queue_wait_ms := saturating_sub (gs_commit_watermark_ms s) (pr_enqueued_at_ms request);
          pv_capabilities := pr_capabilities request |}.

(** [Governor::pending_block_reason] and [Governor::pending_assessment]. *)
Definition pending_block_reason (P : PolicySet) (ticket : Ticket) (s : GovernedState)
  : option CapacityBlock := pv_blocked_on <$> pending_view P ticket s.
Definition pending_assessment (P : PolicySet) (ticket : Ticket) (s : GovernedState)
  : option CapacityAssessment := pv_assessment <$> pending_view P ticket s.

Record PermitLedgerView := mkLedgerView {
  lv_permit_id : PermitId;
  lv_class : TaskClass;
  lv_capabilities : CapabilityRequirementSet;
  lv_phase : ExecutionPhase;
  lv_cpu_units : N;
  lv_original_estimate_units : N;
  lv_remaining_reservation_units : N;
  lv_effective_units : N;
  lv_measured_bytes : N;
  lv_measurement_epoch : N;
  lv_leased_at_ms : N;
  lv_last_touched_ms : N;
}.

Definition ledger_view (pid : PermitId) (r : PermitRecord) : PermitLedgerView := {|
  lv_permit_id := pid;
  lv_class := rec_class r;
  lv_capabilities := rec_capabilities r;
  lv_phase := rec_phase r;
  lv_cpu_units := pl_cpu_units (rec_ledger r);
  lv_original_estimate_units := pl_original_estimate_units (rec_ledger r);
  lv_remaining_reservation_units := pl_remaining_reservation_units (rec_ledger r);
  lv_effective_units := pl_effective_units (rec_ledger r);
  lv_measured_bytes := pl_measured_bytes (rec_ledger r);
  lv_measurement_epoch := pl_measurement_sequence (rec_ledger r);
  lv_leased_at_ms := pl_leased_at_ms (rec_ledger r);
  lv_last_touched_ms := pl_last_touched_ms (rec_ledger r);
|}.

(** [Governor::permit_ledger] and [Governor::permit_ledgers]. *)
Definition permit_ledger (pid : PermitId) (s : GovernedState) : option PermitLedgerView :=
  ledger_view pid <$> gs_permits s !! pid.
Definition permit_ledgers (s : GovernedState) : list PermitLedgerView :=
  map (λ r, ledger_view (rec_permit_id r) r) (btree_values (gs_permits s)).

Record RootAttribution := mkAttribution {
  ra_child_inflight : N;
  ra_cpu_units : N;
  ra_memory_units : N;
  ra_active_stages : N;
}.

(** [Governor::root_attribution]. *)
Definition root_attribution (root : string) (s : GovernedState) : option RootAttribution :=
  (λ r, mkAttribution (rs_child_inflight r) (rs_cpu_units r) (rs_memory_units r)
          (N.of_nat (size (rs_active_stages r)))) <$> gs_roots s !! root.

(** [Governor::phase], [permit_provenance], [checkpoint_policy], [substrates]. *)
Definition phase (pid : PermitId) (s : GovernedState) : option ExecutionPhase :=
  rec_phase <$> gs_permits s !! pid.
Definition permit_provenance (pid : PermitId) (s : GovernedState) : option Provenance :=
  rec_provenance <$> gs_permits s !! pid.
Definition class_checkpoint_policy (P : PolicySet) (class : TaskClass) : option CheckpointPolicy :=
  checkpoint_policy <$> ps_class P class.
Definition substrates (P : PolicySet) : list SubstrateRecord := inventory_snapshot (ps_substrates P).
