(* ===== verification/Governor.v ===== *)
(** * The governor

    crates/taskmesh-engine/src/engine/governor.rs and governor/memory_governance.rs.
    The state mutex guards every transition, so each critical section of the
    source is one definition here ([.._section]); a public method is a sequence
    of critical sections with host callbacks between them, and other callers'
    sections may run in those gaps.  The clock sample and the fresh identities,
    taken before the lock, are arguments.  A result of [None] is a panic of the
    engine's own code. *)

From S2P Require Import Prelude Contract Text Validation Kernel PolicyCheck State Assess Fairness.
From S2P Require Import Admission Memory.

(** Permits granted in one promotion pass. *)
Definition PROMOTION_BUDGET : nat := 64.

(** ** Identities *)

(** [take_sequence] / [take_process_authority], as one atomic step: the value
    handed out and the counter after it; [None] at exhaustion. *)
Definition take_sequence (counter : N) : option (N * N) :=
  next ← checked_add U64_MAX counter 1;
  Some (counter, next).

Record Counters := mkCounters { next_permit : N; next_ticket : N; next_seq : N }.
Definition Counters_initial : Counters := mkCounters 1 1 1.

(** [fresh_ids].  A counter taken before another one is exhausted stays taken. *)
Definition fresh_ids (authority : N) (k : Counters) : option Ids * Counters :=
  match take_sequence (next_permit k) with
  | None => (None, k)
  | Some (permit, permit') =>
    let k := mkCounters permit' (next_ticket k) (next_seq k) in
    match take_sequence (next_ticket k) with
    | None => (None, k)
    | Some (ticket, ticket') =>
      let k := mkCounters (next_permit k) ticket' (next_seq k) in
      match take_sequence (next_seq k) with
      | None => (None, k)
      | Some (seq_no, seq') =>
        (Some (mkIds (mkPermitId authority permit) (mkTicket authority ticket) seq_no),
         mkCounters (next_permit k) (next_ticket k) seq')
      end
    end
  end.

(** [declared_requirements]: the pools the declared stages resolve to.  [None]
    is one of its two [expect]s. *)
Fixpoint declared_pools (P : PolicySet) (stages : list StageDescriptor)
  : option (list ResolvedCapability) :=
  match stages with
  | [] => Some []
  | sd :: stages' =>
    c ← match hint_capability_pool (sd_substrate_hint sd) with
        | None => Some Ungated
        | Some pool =>
          match resolve_capability P pool with inr c => Some c | inl _ => None end
        end;
    rest ← declared_pools P stages';
    Some (c :: rest)
  end.
Definition declared_requirements (P : PolicySet) (spec : TaskSpec)
  : option CapabilityRequirementSet :=
  caps ← declared_pools P (ts_stages spec);
  match from_resolved caps with inr ids => Some ids | inl _ => None end.

(** ** Promotion *)

Inductive CycleTerminalization := CycleRemoved | CycleNone.

(** The first awaited child of a class whose wait has become irreversible. *)
Definition class_cycle (s : GovernedState) (P : PolicySet) (class : TaskClass) (c : ClassState)
  : option (TaskClass * nat * CycleWitness) :=
  if decide (cs_queued_awaited_children c = ∅) then None
  else
    policy ← ps_class P class;
    '(index, r) ← find_enum (λ r,
        bool_decide (pr_seq_no r ∈ cs_queued_awaited_children c)
        && match assess_pending s P r (max_inflight policy) false with
           | IrreversibleWaitCycle _ => true
           | _ => false
           end) 0%nat (cs_queue c);
    match assess_pending s P r (max_inflight policy) false with
    | IrreversibleWaitCycle w => Some (class, index, w)
    | _ => None
    end.

(** [Iterator::find_map]. *)
Fixpoint find_map {A B} (f : A → option B) (l : list A) : option B :=
  match l with
  | [] => None
  | x :: l' => match f x with Some y => Some y | None => find_map f l' end
  end.

(** [terminalize_wait_cycle]. *)
Definition terminalize_wait_cycle (P : PolicySet) (s : GovernedState) (e : TransitionEffects)
  : option (CycleTerminalization * GovernedState * TransitionEffects) :=
  match find_map (λ '(class, c), class_cycle s P class c) (btree_to_list (gs_classes s)) with
  | None => Some (CycleNone, s, e)
  | Some (class, index, w) =>
    match remove_pending class index s with
    | None => Some (CycleNone, s, e)
    | Some (r, s) =>
      policy ← ps_class P class;
      let s := on_unserved_removed class policy s in
      let s := vacate_recursion_guard (pr_root_operation_id r) (pr_target_stage r) s in
      held_by_parent ← head (cw_held w);
      let s := record_terminal_ticket (pr_ticket r)
                 (IrreversibleWaitCycleTerminal held_by_parent) s in
      Some (CycleRemoved, s, push_wake (pr_waker r) e)
    end
  end.

(** The grant of a promoted request. *)
Definition promotion_grant (class : TaskClass) (head : PendingRequest) (now_ms : N)
    (s : GovernedState) : GrantRequest := {|
  gr_permit_id := pr_permit_id head;
  gr_class := class;
  gr_operation := pr_operation head;
  gr_root_operation_id := pr_root_operation_id head;
  gr_scope := pr_scope head;
  gr_parent_permit_id :=
    match pr_parent_permit_id head with
    | Some pid => Some pid
    | None => parent_permit_for_scope s (pr_root_operation_id head) (pr_scope head)
    end;
  gr_target_stage := pr_target_stage head;
  gr_provenance := pr_provenance head;
  gr_capabilities := pr_capabilities head;
  gr_cost := pr_cost head;
  gr_reserved_units := rc_memory_units (pr_cost head);
  gr_now_ms := now_ms;
  gr_pending_ticket := Some (pr_ticket head);
  gr_claim_waker := pr_waker head;
|}.

(** One iteration of the grant loop: select, dequeue, account the service,
    grant.  The boolean says whether a permit was granted; the loop ends on
    [false]. *)
Definition promote_one (P : PolicySet) (now_ms : N) (s : GovernedState) (e : TransitionEffects)
  : option (bool * GovernedState * TransitionEffects) :=
  '(selection, s) ← select s P;
  match selection with
  | None => Some (false, s, e)
  | Some sel =>
    match remove_pending (sel_class sel) (sel_queue_index sel) s with
    | None => Some (false, s, e)
    | Some (head, s) =>
      policy ← ps_class P (sel_class sel);
      let s := on_request_served (sel_class sel) policy (sel_queue_index sel)
                 (sel_service_finish_tag sel) s in
      let s := upd_gs_tickets (delete (pr_ticket head)) s in
      let s := grant (promotion_grant (sel_class sel) head now_ms s) s in
      Some (true, s, push_wake (pr_waker head) e)
    end
  end.

(** The grant loop: at most [slots] grants.  Returns whether anything was granted
    and whether every slot was spent. *)
Fixpoint promote_loop (slots : nat) (P : PolicySet) (now_ms : N) (changed : bool)
    (s : GovernedState) (e : TransitionEffects)
  : option (bool * bool * GovernedState * TransitionEffects) :=
  match slots with
  | O => Some (changed, true, s, e)
  | S slots' =>
    '(granted, s, e) ← promote_one P now_ms s e;
    if granted : bool then promote_loop slots' P now_ms true s e
    else Some (changed, false, s, e)
  end.

Definition is_removed (t : CycleTerminalization) : bool :=
  match t with CycleRemoved => true | CycleNone => false end.

(** [promote]: one bounded pass. *)
Definition promote (P : PolicySet) (now_ms : N) (s : GovernedState)
  : option (GovernedState * TransitionEffects) :=
  '(removed_before, s, e) ← terminalize_wait_cycle P s no_effects;
  '(pending_state_changed, budget_exhausted, s, e) ←
    promote_loop PROMOTION_BUDGET P now_ms (is_removed removed_before) s e;
  '(removed_after, s, e) ←
    (if pending_state_changed : bool
     then '(t, s, e) ← terminalize_wait_cycle P s e; Some (is_removed t, s, e)
     else Some (false, s, e));
  let more := removed_after || (budget_exhausted && has_runnable s P) in
  Some (upd_gs_promotion_pending (λ _, more) s, upd_eff_more_runnable (λ _, more) e).

(** [compensation.absorb(self.promote(..))]. *)
Definition absorb_promote (P : PolicySet) (now_ms : N) (s : GovernedState) (e : TransitionEffects)
  : option (GovernedState * TransitionEffects) :=
  '(s, pass) ← promote P now_ms s;
  Some (s, absorb e pass).

(** [terminalize_queued_for_accounting_fault]: one class, then all. *)
Fixpoint fault_queue (fuel : nat) (class : TaskClass) (removed : bool) (s : GovernedState)
    (e : TransitionEffects) : bool * GovernedState * TransitionEffects :=
  match fuel with
  | O => (removed, s, e)
  | S fuel' =>
    match remove_pending class 0 s with
    | None => (removed, s, e)
    | Some (r, s) =>
      let s := if is_child (pr_scope r)
               then vacate_recursion_guard (pr_root_operation_id r) (pr_target_stage r) s
               else s in
      let s := upd_gs_tickets (insert (pr_ticket r) TFaulted) s in
      fault_queue fuel' class true s (push_wake (pr_waker r) e)
    end
  end.
Definition fault_class (P : PolicySet) (class : TaskClass) (s : GovernedState)
    (e : TransitionEffects) : option (GovernedState * TransitionEffects) :=
  let fuel := S (length (cs_queue (class_state s class))) in
  let '(removed_any, s, e) := fault_queue fuel class false s e in
  if removed_any : bool then
    policy ← ps_class P class;
    Some (on_unserved_removed class policy s, e)
  else Some (s, e).
Fixpoint fault_classes (P : PolicySet) (classes : list TaskClass) (s : GovernedState)
    (e : TransitionEffects) : option (GovernedState * TransitionEffects) :=
  match classes with
  | [] => Some (s, e)
  | class :: classes' => '(s, e) ← fault_class P class s e; fault_classes P classes' s e
  end.
Definition terminalize_queued_for_accounting_fault (P : PolicySet) (s : GovernedState)
    (e : TransitionEffects) : option (GovernedState * TransitionEffects) :=
  '(s, e) ← fault_classes P (btree_keys (gs_classes s)) s e;
  Some (upd_gs_promotion_pending (λ _, false) s, e).

(** ** Critical sections *)

(** [admit_inner], under the lock. *)
Definition admit_section (P : PolicySet) (sampled : N) (req : AdmissionRequest)
    (waker : option Waker) (ids : Ids) (s : GovernedState)
  : option (AdmissionDecision * GovernedState * TransitionEffects) :=
  let '(now_ms, s) := commit_time sampled s in
  admit_request P now_ms req waker ids s no_effects.

(** [admit_inner]: an immediate grant whose notifier panicked is compensated. *)
Definition admit_compensate_section (P : PolicySet) (sampled : N) (pid : PermitId)
    (s : GovernedState) : option (GovernedState * TransitionEffects) :=
  let '(now_ms, s) := commit_time sampled s in
  match release_with_proof pid None s no_effects with
  | (ReleaseDone, s, e) => absorb_promote P now_ms s e
  | (_, s, e) => Some (s, e)
  end.

(** [claim], first critical section: the answer, or the permit being claimed. *)
Inductive ClaimBegin :=
  | ClaimReturns (outcome : ClaimOutcome)
  | ClaimProceeds (permit_id : PermitId).

Definition touch (now_ms : N) (r : PermitRecord) : PermitRecord :=
  upd_rec_ledger (upd_pl_last_touched_ms (λ t, N.max t now_ms)) r.

Definition claim_begin_section (sampled : N) (ticket : Ticket) (s : GovernedState)
  : ClaimBegin * GovernedState * TransitionEffects :=
  let '(now_ms, s) := commit_time sampled s in
  match gs_tickets s !! ticket with
  | Some (TGranted pid) =>
    match gs_permits s !! pid with
    | None => (ClaimReturns (ClaimTerminal Released), s, no_effects)
    | Some r =>
      let e := push_retire (rec_claim_waker r) no_effects in
      let s := upd_gs_permits
                 (insert pid (upd_rec_claim_waker (λ _, None) (touch now_ms r))) s in
      (ClaimProceeds pid, upd_gs_tickets (insert ticket (TClaiming pid)) s, e)
    end
  | Some (TQueued _) | Some (TClaiming _) => (ClaimReturns ClaimPending, s, no_effects)
  | Some (TTerminal reason) =>
    (ClaimReturns (ClaimTerminal reason), forget_terminal_ticket ticket s, no_effects)
  | Some TFaulted =>
    (ClaimReturns (ClaimTerminal AccountingFaultTerminal), forget_terminal_ticket ticket s,
     no_effects)
  | None => (ClaimReturns ClaimInvalid, s, no_effects)
  end.

(** [claim], when retiring the final notifier panicked. *)
Definition claim_compensate_section (P : PolicySet) (sampled : N) (ticket : Ticket)
    (pid : PermitId) (s : GovernedState) : option (GovernedState * TransitionEffects) :=
  let '(now_ms, s) := commit_time sampled s in
  match gs_tickets s !! ticket with
  | Some (TClaiming _) =>
    match release_with_proof_reason pid None ClaimDeliveryFailed s no_effects with
    | (ReleaseDone, s, e) => absorb_promote P now_ms s e
    | (ReleaseHeldByLease _, s, e) =>
      let s := upd_gs_permits (alter (upd_rec_pending_ticket (λ _, None)) pid) s in
      Some (record_terminal_ticket ticket ClaimDeliveryFailed s, e)
    | (ReleaseUnknownPermit, s, e) => Some (record_terminal_ticket ticket Released s, e)
    end
  | _ => Some (s, no_effects)
  end.

(** [claim], second critical section. *)
Definition claim_finish_section (sampled : N) (ticket : Ticket) (s : GovernedState)
  : ClaimOutcome * GovernedState :=
  let '(now_ms, s) := commit_time sampled s in
  match gs_tickets s !! ticket with
  | Some (TClaiming pid) =>
    match gs_permits s !! pid with
    | None => (ClaimTerminal Released, record_terminal_ticket ticket Released s)
    | Some r =>
      let s := upd_gs_permits
                 (insert pid (touch now_ms (upd_rec_pending_ticket (λ _, None) r))) s in
      (Ready pid, upd_gs_tickets (delete ticket) s)
    end
  | Some (TTerminal reason) => (ClaimTerminal reason, forget_terminal_ticket ticket s)
  | Some TFaulted => (ClaimTerminal AccountingFaultTerminal, forget_terminal_ticket ticket s)
  | Some (TGranted _) | Some (TQueued _) => (ClaimPending, s)
  | None => (ClaimInvalid, s)
  end.

(** [ticket_status]. *)
Definition ticket_status (s : GovernedState) (ticket : Ticket) : ClaimOutcome :=
  match gs_tickets s !! ticket with
  | Some (TGranted pid) => Ready pid
  | Some (TQueued _) | Some (TClaiming _) => ClaimPending
  | Some (TTerminal reason) => ClaimTerminal reason
  | Some TFaulted => ClaimTerminal AccountingFaultTerminal
  | None => ClaimInvalid
  end.

(** The queue index of a ticket. *)
Definition queued_position (class : TaskClass) (ticket : Ticket) (s : GovernedState) : option nat :=
  c ← gs_classes s !! class;
  fst <$> find_enum (λ r, bool_decide (pr_ticket r = ticket)) 0%nat (cs_queue c).

(** The queued arm of [abandon]. *)
Definition abandon_queued (P : PolicySet) (now_ms : N) (class : TaskClass) (ticket : Ticket)
    (s : GovernedState) : option (AbandonOutcome * GovernedState * TransitionEffects) :=
  '(released_guard, s, e) ←
    match queued_position class ticket s with
    | None => Some (None, s, no_effects)
    | Some pos =>
      '(r, s) ← remove_pending class pos s;
      Some (if is_child (pr_scope r)
            then Some (pr_root_operation_id r, pr_target_stage r) else None,
            s, push_retire (pr_waker r) no_effects)
    end;
  let s := upd_gs_tickets (delete ticket) s in
  let s := match released_guard with
           | Some (root, stage) => vacate_recursion_guard root stage s
           | None => s
           end in
  policy ← ps_class P class;
  let s := on_unserved_removed class policy s in
  '(s, e) ← absorb_promote P now_ms s e;
  Some (AbandonDone, s, e).

(** [abandon]. *)
Definition abandon_section (P : PolicySet) (sampled : N) (ticket : Ticket) (s : GovernedState)
  : option (AbandonOutcome * GovernedState * TransitionEffects) :=
  let '(now_ms, s) := commit_time sampled s in
  match gs_tickets s !! ticket with
  | Some (TGranted pid) | Some (TClaiming pid) =>
    match release_with_proof_reason pid None Abandoned s no_effects with
    | (ReleaseDone, s, e) =>
      '(s, e) ← absorb_promote P now_ms (forget_terminal_ticket ticket s) e;
      Some (AbandonDone, s, e)
    | (ReleaseHeldByLease phase, s, e) => Some (AbandonHeldByLease phase, s, e)
    | (ReleaseUnknownPermit, s, e) =>
      Some (AbandonInvalid, upd_gs_tickets (delete ticket) s, e)
    end
  | Some (TQueued class) => abandon_queued P now_ms class ticket s
  | Some (TTerminal _) | Some TFaulted =>
    Some (TerminalDiscarded, forget_terminal_ticket ticket s, no_effects)
  | None => Some (AbandonInvalid, s, no_effects)
  end.

(** [release] ([proof = None]) and [release_leased] (the token's nonce). *)
Definition release_section (P : PolicySet) (sampled : N) (pid : PermitId) (proof : option N)
    (s : GovernedState) : option (ReleaseOutcome * GovernedState * TransitionEffects) :=
  let '(now_ms, s) := commit_time sampled s in
  match release_with_proof pid proof s no_effects with
  | (ReleaseDone, s, e) => '(s, e) ← absorb_promote P now_ms s e; Some (ReleaseDone, s, e)
  | (outcome, s, e) => Some (outcome, s, e)
  end.

(** [reconcile_memory_inner]. *)
Definition reconcile_section (P : PolicySet) (sampled : N) (pid : PermitId) (measured_bytes : N)
    (epoch : option N) (s : GovernedState)
  : option (ReconcileOutcome * GovernedState * TransitionEffects) :=
  let '(now_ms, s) := commit_time sampled s in
  match gs_permits s !! pid with
  | None => Some (ReconcileUnknownPermit, s, no_effects)
  | Some r =>
    match ps_class P (rec_class r) with
    | None => Some (ReconcileUnknownPermit, s, no_effects)
    | Some policy =>
      let sequence := match epoch with
                      | Some epoch => inr epoch
                      | None => checked_next (pl_measurement_sequence (rec_ledger r))
                      end in
      match sequence with
      | inl outcome => Some (outcome, s, no_effects)
      | inr sequence =>
        let '(outcome, s) := reconcile pid measured_bytes sequence (memory_permit_mode policy)
                               (memory_unit_scale (ps_resources P)) now_ms s in
        match outcome with
        | ConversionFailed _ =>
          '(s, e) ← terminalize_queued_for_accounting_fault P s no_effects; Some (outcome, s, e)
        | ReconcileApplied _ =>
          '(s, e) ← absorb_promote P now_ms s no_effects; Some (outcome, s, e)
        | _ => Some (outcome, s, no_effects)
        end
      end
    end
  end.

(** [release_stage_memory_inner]. *)
Definition stage_release_section (P : PolicySet) (sampled : N) (pid : PermitId) (freed_units : N)
    (sequence : option N) (s : GovernedState)
  : option (StageReleaseOutcome * GovernedState * TransitionEffects) :=
  let '(now_ms, s) := commit_time sampled s in
  match gs_permits s !! pid with
  | None => Some (StageUnknownPermit, s, no_effects)
  | Some r =>
    match ps_class P (rec_class r) with
    | None => Some (StageUnknownPermit, s, no_effects)
    | Some policy =>
      let '(outcome, s) := release_stage_memory pid freed_units (memory_release_policy policy)
                             sequence now_ms s in
      '(s, e) ← absorb_promote P now_ms s no_effects;
      Some (outcome, s, e)
    end
  end.

(** [reap_leaks_with]. *)
Definition reap_section (P : PolicySet) (sampled stale_after_ms : N) (s : GovernedState)
  : option (LeakSweepReport * GovernedState * TransitionEffects) :=
  let '(now_ms, s) := commit_time sampled s in
  let '(report, s, e) := reap_leaks P now_ms stale_after_ms s no_effects in
  '(s, e) ← absorb_promote P now_ms s e;
  Some (report, s, e).

(** The continuation pass of [drain_effects_captured]. *)
Definition continue_section (P : PolicySet) (sampled : N) (s : GovernedState)
  : option (GovernedState * TransitionEffects) :=
  let '(now_ms, s) := commit_time sampled s in
  promote P now_ms s.

(** ** The drain loop

    [drain_effects_captured] re-enters promotion while a pass reports more
    runnable work.  Run without interference, it is [drain]; [fuel] bounds the
    passes and the result is [None] when it runs out or the engine panics.  The
    second component collects the waiters notified, in order. *)
Fixpoint drain (fuel : nat) (P : PolicySet) (sampled : N) (e : TransitionEffects)
    (s : GovernedState) : option (GovernedState * list Waker) :=
  match fuel with
  | O => None
  | S fuel' =>
    if eff_more_runnable e then
      '(s, pass) ← continue_section P sampled s;
      '(s, woken) ← drain fuel' P sampled pass s;
      Some (s, eff_wake e ++ woken)
    else Some (s, eff_wake e)
  end.

(** * The public entry points

    Construction of a governor and the [admit*] methods, each a preflight followed by
    [admit_inner].  The waker a caller passes in is dropped, outside any lock, by every
    early return. *)

(** ** Construction *)

Record Governor := mkGovernor {
  gv_authority : N;
  gv_policy : PolicySet;
  gv_counters : Counters;
  gv_state : GovernedState;
}.

Inductive ConstructError :=
  | PolicyViolation (violation : Violation)
  | IdentityAuthorityExhausted.

(** [Governor::construct]: takes one authority from the process-wide counter. *)
Definition construct (P : PolicySet) (next_authority : N) : (ConstructError + Governor) * N :=
  match take_sequence next_authority with
  | None => (inl IdentityAuthorityExhausted, next_authority)
  | Some (authority, next_authority) =>
    (inr (mkGovernor authority P Counters_initial GovernedState_default), next_authority)
  end.

(** [Governor::new]. *)
Definition Governor_new (P : PolicySet) (next_authority : N) : (ConstructError + Governor) * N :=
  match validate_policy P with
  | inl violation => (inl (PolicyViolation violation), next_authority)
  | inr () => construct P next_authority
  end.

(** ** Admission *)

(** What an [admit*] call leaves: the decision, the counters, the state and the
    effects to apply after the lock; [None] is a panic of the engine. *)
Abbreviation Admission :=
  (option (AdmissionDecision * Counters * GovernedState * TransitionEffects)) (only parsing).

(** [admit_inner], with a notifier that does not panic. *)
Definition admit_inner (authority : N) (P : PolicySet) (sampled : N) (spec : TaskSpec)
    (caps : CapabilityRequirementSet) (waker : option Waker) (k : Counters) (s : GovernedState)
  : Admission :=
  match fresh_ids authority k with
  | (None, k) => Some (Rejected IdentityExhausted, k, s, no_effects)
  | (Some ids, k) =>
    '(decision, s, e) ← admit_section P sampled (mkRequest spec caps) waker ids s;
    Some (decision, k, s, e)
  end.

(** [admit] and [admit_waitable]. *)
Definition admit_spec (authority : N) (P : PolicySet) (sampled : N) (spec : TaskSpec)
    (waker : option Waker) (k : Counters) (s : GovernedState) : Admission :=
  match validate_borrowed spec with
  | inl _ => Some (Rejected MalformedTask, k, s, no_effects)
  | inr () =>
    requirements ← declared_requirements P spec;
    admit_inner authority P sampled spec requirements waker k s
  end.

(** [admit_validated]. *)
Definition admit_validated (authority : N) (P : PolicySet) (sampled : N) (plan : ValidatedTaskPlan)
    (k : Counters) (s : GovernedState) : Admission :=
  requirements ← declared_requirements P (as_spec plan);
  admit_inner authority P sampled (as_spec plan) requirements None k s.

(** [admit_resolved]. *)
Definition admit_resolved (authority : N) (P : PolicySet) (sampled : N) (spec : TaskSpec)
    (capability : ResolvedCapability) (waker : option Waker) (k : Counters) (s : GovernedState)
  : CapabilityResolutionError + Admission :=
  _ ← validate_resolved_capability P capability;
  match validate_borrowed spec with
  | inl _ => inr (Some (Rejected MalformedTask, k, s, no_effects))
  | inr () =>
    requirements ← from_resolved [capability];
    inr (admit_inner authority P sampled spec requirements waker k s)
  end.

(** [admit_validated_requirements]. *)
Definition admit_validated_requirements (authority : N) (P : PolicySet) (sampled : N)
    (plan : ValidatedTaskPlan) (requirements : CapabilityRequirementSet) (waker : option Waker)
    (k : Counters) (s : GovernedState) : CapabilityResolutionError + Admission :=
  _ ← validate_requirements P requirements;
  inr (admit_inner authority P sampled (as_spec plan) requirements waker k s).
