(* ===== verification/Policies.v ===== *)
(** * Policies as they can be built

    [PolicySet]'s registries are private: a policy is made by [PolicySet::new] and
    its two builders.  What every such policy satisfies, and what the engine's
    [expect]s rely on. *)

From S2P Require Import Prelude Contract Text Validation Kernel PolicyCheck Requirements State.
From S2P Require Import Assess Fairness Admission Memory Governor.

Inductive built : PolicySet → Prop :=
  | built_new authority resources classes P :
      PolicySet_new authority resources classes = Some P → built P
  | built_substrates rs P P' : built P → with_substrates rs P = inr P' → built P'
  | built_limits limits P P' : built P → with_capability_limits limits P = inr P' → built P'.

(** ** Capability records sit under their own identity *)

Definition keyed (authority : N) (caps : gmap CapabilityId CapabilityRecord) : Prop :=
  ∀ id r, caps !! id = Some r → cr_id r = id ∧ cap_authority id = authority.

Lemma keyed_insert authority caps id capacity :
  cap_authority id = authority → keyed authority caps →
  keyed authority (<[id := mkCapabilityRecord id capacity]> caps).
Proof. intros Ha Hk id' r [[<- <-]|[_ ?]]%lookup_insert_Some; [done|by apply Hk]. Qed.

Lemma keyed_builtin authority substrates :
  keyed authority (builtin_capability_records substrates authority).
Proof.
  unfold builtin_capability_records.
  assert (∀ rs caps, keyed authority caps →
    keyed authority (foldl (λ caps r, add_builtin_capability authority r caps) caps rs)) as H.
  { induction rs as [|r rs IH]; intros caps Hc; cbn; [done|]. apply IH.
    unfold add_builtin_capability. destruct (sr_capability_pool r) as [pool|]; [|done].
    case_match; [done|]. by apply keyed_insert. }
  apply H. intros id r Hr. by rewrite lookup_empty in Hr.
Qed.

(** A registered identity comes from the registry. *)
Lemma find_capability_Some P pool id :
  find_capability P pool = Some id → is_Some (ps_capabilities P !! id) ∧ cap_name id = pool.
Proof.
  unfold find_capability, btree_keys. intros H. apply List.find_some in H as [Hin He].
  apply list_elem_of_In, list_elem_of_fmap in Hin as ([id' r] & -> & Hr%elem_of_btree_to_list).
  apply bool_decide_eq_true in He. split; [by exists r|done].
Qed.

Lemma declare_limits_keyed limits P P' :
  declare_limits limits P = inr P' → keyed (ps_capability_authority P) (ps_capabilities P) →
  keyed (ps_capability_authority P') (ps_capabilities P').
Proof.
  revert P. induction limits as [|[pool limit] limits IH]; intros P H Hk; cbn in H.
  { by simplify_eq. }
  apply result_bind_inr in H as (P1 & H1 & H). apply IH in H; [done|].
  unfold declare_limit in H1. destruct (is_blank pool); [done|].
  destruct (negb _) in H1; [done|]. simplify_eq. cbn. apply keyed_insert; [|done].
  destruct (find_capability P pool) as [id|] eqn:E; [|done].
  apply find_capability_Some in E as [[r Hr] _]. by destruct (Hk id r Hr).
Qed.

Lemma built_keyed P : built P → keyed (ps_capability_authority P) (ps_capabilities P).
Proof.
  induction 1 as [authority resources classes P H|rs P P' _ IH H|limits P P' _ IH H].
  - unfold PolicySet_new in H. case_match; simplify_eq. apply keyed_builtin.
  - apply result_bind_inr in H as (m & _ & [= <-]). done.
  - by eapply declare_limits_keyed.
Qed.

(** ** Resolution on a validated policy *)

Lemma validated_pool P hint pool :
  inventory_wf P → hint_capability_pool hint = Some pool →
  ∃ c, resolve_capability P pool = inr c.
Proof.
  intros HI Hp. pose proof (iw_builtins _ HI) as Hb. rewrite Forall_forall in Hb.
  assert (∃ r, r ∈ builtin_records ∧ sr_kind r ≠ AuthorityOnly ∧ sr_capability_pool r = Some pool)
    as (r & Hr & Hk & Hc).
  { destruct hint; simplify_eq; unfold builtin_records; try done.
    - exists (mkSubstrateRecord "blocking" CompetingExecution (Some "blocking"%string)).
      set_solver.
    - exists (mkSubstrateRecord "cpu" CompetingExecution (Some "cpu"%string)). set_solver.
    - exists (mkSubstrateRecord "large_stack" CompetingExecution (Some "large_stack"%string)).
      set_solver.
    - exists (mkSubstrateRecord "local_runtime" CompetingExecution (Some "local_runtime"%string)).
      set_solver.
    - exists (mkSubstrateRecord "maintenance" MaintenanceOnly (Some "maintenance"%string)).
      set_solver. }
  eapply (iw_authorities _ HI); [by apply Hb|done..].
Qed.

(** The names a declared requirement can have. *)
Definition hint_pools : list string :=
  ["blocking"; "cpu"; "large_stack"; "local_runtime"; "maintenance"]%string.

Definition names_hint (c : ResolvedCapability) : Prop :=
  match c with Ungated => True | Registered id => cap_name id ∈ hint_pools end.

Lemma declared_pools_total P stages :
  inventory_wf P → ∃ caps, declared_pools P stages = Some caps ∧
    ∀ id, Registered id ∈ caps → find_capability P (cap_name id) = Some id ∧
      cap_name id ∈ hint_pools.
Proof.
  intros HI. induction stages as [|sd stages (caps & IH & Hn)]; cbn.
  { exists []. split; [done|]. intros id H. by apply elem_of_nil in H. }
  destruct (hint_capability_pool (sd_substrate_hint sd)) as [pool|] eqn:E.
  - destruct (validated_pool P _ pool HI E) as [c Hc]. rewrite Hc; cbn. rewrite IH; cbn.
    exists (c :: caps). split; [done|]. intros id [Hid|?]%elem_of_cons; [|by apply Hn].
    subst c. unfold resolve_capability in Hc. case_match; [done|].
    destruct (find_capability P pool) as [id'|] eqn:Ef; [|done]. simplify_eq.
    apply find_capability_Some in Ef as Ef'. destruct Ef' as [_ <-]. split; [done|].
    clear -E. destruct (sd_substrate_hint sd); cbn in E; try done; injection E as <-; set_solver.
  - rewrite IH; cbn. exists (Ungated :: caps). split; [done|].
    intros id [?|?]%elem_of_cons; [done|by apply Hn].
Qed.

(** The pools resolved are the ones the hints name. *)
Lemma declared_pools_names P stages pools pool :
  declared_pools P stages = Some pools →
  (∃ id, pool = cap_name id ∧ Registered id ∈ pools) ↔
  ∃ sd, sd ∈ stages ∧ hint_capability_pool (sd_substrate_hint sd) = Some pool.
Proof.
  revert pools. induction stages as [|sd stages IH]; intros pools; cbn.
  { intros [= <-]. split; [intros (? & _ & H)|intros (? & H & _)]; by apply elem_of_nil in H. }
  intros H. apply bind_Some in H as (c & Hc & H). apply bind_Some in H as (rest & Hr & [= <-]).
  specialize (IH rest Hr). setoid_rewrite elem_of_cons.
  assert (∀ id, (Registered id = c ∧ pool = cap_name id) ↔ Registered id = c ∧
            pool = cap_name id ∧ hint_capability_pool (sd_substrate_hint sd) = Some pool) as Hc'.
  { intros id. split; [|naive_solver]. intros [<- ->]. split_and!; [done..|].
    destruct (hint_capability_pool _) as [p|]; [|done].
    unfold resolve_capability in Hc. destruct (is_blank p); [done|].
    destruct (find_capability P p) eqn:E; [|done]. simplify_eq.
    by apply find_capability_Some in E as [_ ->]. }
  assert ((∃ id, Registered id = c ∧ pool = cap_name id) ↔
          hint_capability_pool (sd_substrate_hint sd) = Some pool) as Hd.
  { split; [intros (id & (_ & _ & ?)%Hc'); done|]. intros E. rewrite E in Hc.
    unfold resolve_capability in Hc. destruct (is_blank pool); [done|].
    destruct (find_capability P pool) as [id|] eqn:Ef; [|done]. simplify_eq.
    exists id. split; [done|]. by apply find_capability_Some in Ef as [_ <-]. }
  split.
  - intros (id & -> & [Hid|Hid]).
    + exists sd. split; [by left|]. apply Hd. by exists id.
    + destruct (proj1 IH) as (sd' & ? & ?); [by exists id|]. exists sd'. split; [by right|done].
  - intros (sd' & [->|Hin] & Hh).
    + apply Hd in Hh as (id & Hid & ->). exists id. split; [done|by left].
    + destruct (proj2 IH) as (id & ? & ?); [by exists sd'|]. exists id. split; [done|by right].
Qed.

Lemma hint_ids_bound P ids :
  NoDup ids →
  (∀ id, id ∈ ids → find_capability P (cap_name id) = Some id ∧ cap_name id ∈ hint_pools) →
  (length ids ≤ 5)%nat.
Proof.
  intros Hnd Hq. change 5%nat with (length hint_pools). rewrite <-(length_map cap_name ids).
  apply submseteq_length, NoDup_submseteq.
  - revert Hq. induction Hnd as [|id ids Hin Hnd IH]; intros Hq; cbn; [constructor|].
    constructor; [|apply IH; intros; apply Hq; by right].
    intros (id' & E & Hid')%list_elem_of_fmap. destruct Hin.
    destruct (Hq id) as [F _]; [by left|]. destruct (Hq id') as [F' _]; [by right|].
    rewrite E in F. by simplify_eq.
  - intros pool (id & -> & Hid)%list_elem_of_fmap. by apply Hq.
Qed.

(** On a validated policy the pools of the declared stages resolve, to at most five. *)
Lemma declared_requirements_resolve P spec :
  policy_wf P →
  ∃ pools caps, declared_pools P (ts_stages spec) = Some pools ∧ from_resolved pools = inr caps ∧
    declared_requirements P spec = Some caps ∧ (length caps ≤ 5)%nat ∧
    ∀ id, id ∈ caps ↔ Registered id ∈ pools.
Proof.
  intros [HI _ _]. destruct (declared_pools_total P (ts_stages spec) HI) as (pools & Hp & Hq).
  unfold declared_requirements. rewrite Hp; cbn.
  pose proof (from_resolved_spec pools) as H. destruct (from_resolved pools) as [e|caps] eqn:Er.
  { destruct H as (_ & ids & Hnd & Hlen & Hin). unfold MAX_CAPABILITY_REQUIREMENTS in Hlen.
    assert (length ids ≤ 5)%nat; [|lia]. apply (hint_ids_bound P); [done|].
    intros id Hid%Hin. by apply Hq. }
  destruct H as (Hs & _ & He). exists pools, caps. split_and!; try done.
  apply (hint_ids_bound P); [by apply sorted_rlt_NoDup|]. intros id Hid%He. by apply Hq.
Qed.

(** They are registered. *)
Lemma declared_requirements_registered P spec caps id :
  policy_wf P → declared_requirements P spec = Some caps → id ∈ caps →
  is_Some (capability_record P id).
Proof.
  intros Hwf Hc Hid.
  destruct (declared_pools_total P (ts_stages spec) (pw_inventory _ Hwf)) as (pools & Hp & Hq).
  destruct (declared_requirements_resolve P spec Hwf) as (pools' & caps' & Hp' & _ & Hc' & _ & He).
  simplify_eq. apply He in Hid. by apply Hq in Hid as [[? _]%find_capability_Some _].
Qed.

(** On a validated policy, intake resolves the declared stages of any task: the
    two [expect]s of [declared_requirements] never fire, and the result is the set
    of built-in pools the stages name. *)
Theorem declared_requirements_total P spec :
  policy_wf P →
  ∃ caps, declared_requirements P spec = Some caps ∧ (length caps ≤ 5)%nat ∧
    ∀ pool, pool ∈ map cap_name caps ↔
      ∃ sd, sd ∈ ts_stages spec ∧ hint_capability_pool (sd_substrate_hint sd) = Some pool.
Proof.
  intros Hwf. destruct (declared_requirements_resolve P spec Hwf) as (pools & caps & Hp & _ & E & Hl & He).
  exists caps. split_and!; [done..|]. intros pool. rewrite list_elem_of_fmap. setoid_rewrite He.
  by eapply declared_pools_names.
Qed.

(** ** A fresh policy *)

(** The records of a registry that names a pool, seen from the capability side. *)
Lemma builtin_capability_elem substrates authority id r :
  builtin_capability_records substrates authority !! id = Some r →
  cr_id r = id ∧ cr_capacity r = ExplicitUnbounded ∧
  ∃ name s, substrates !! name = Some s ∧ sr_capability_pool s = Some (cap_name id).
Proof.
  unfold builtin_capability_records, btree_values.
  set (Q := λ (caps : gmap CapabilityId CapabilityRecord), ∀ id r, caps !! id = Some r →
    cr_id r = id ∧ cr_capacity r = ExplicitUnbounded ∧
    ∃ name s, substrates !! name = Some s ∧ sr_capability_pool s = Some (cap_name id)).
  assert (∀ l caps, (∀ p, p ∈ l → p ∈ btree_to_list substrates) → Q caps →
    Q (foldl (λ caps r, add_builtin_capability authority r caps) caps l.*2)) as H.
  { induction l as [|[name s] l IH]; intros caps Hl HQ; cbn; [done|].
    apply IH; [intros p Hp; apply Hl; by right|]. unfold add_builtin_capability.
    destruct (sr_capability_pool s) as [pool|] eqn:Ep; [|done]. case_match; [done|].
    intros id' r' [[<- <-]|[_ ?]]%lookup_insert_Some; [|by apply HQ]. cbn.
    split_and!; [done..|]. exists name, s. split; [|done].
    apply elem_of_btree_to_list, Hl. by left. }
  apply (H (btree_to_list substrates) ∅); [done|]. intros ?? E. by rewrite lookup_empty in E.
Qed.

Lemma builtin_capability_named substrates authority name s pool :
  substrates !! name = Some s → sr_capability_pool s = Some pool →
  is_Some (builtin_capability_records substrates authority !! mkCapabilityId pool authority).
Proof.
  intros Hs Hp. unfold builtin_capability_records, btree_values.
  assert (∀ l (caps : gmap CapabilityId CapabilityRecord), s ∈ l ∨ is_Some (caps !! mkCapabilityId pool authority) →
    is_Some (foldl (λ caps r, add_builtin_capability authority r caps) caps l
               !! mkCapabilityId pool authority)) as H.
  { induction l as [|s' l IH]; intros caps [Hin|Hc]; cbn; try done.
    - by apply elem_of_nil in Hin.
    - apply IH. apply elem_of_cons in Hin as [<-|?]; [right|by left].
      unfold add_builtin_capability. rewrite Hp. case_match; [done|].
      by rewrite lookup_insert_eq.
    - apply IH. right. unfold add_builtin_capability. destruct (sr_capability_pool s'); [|done].
      case_match; [done|]. rewrite lookup_insert_is_Some'. by right. }
  apply H. left. apply list_elem_of_fmap. exists (name, s). split; [done|].
  by apply elem_of_btree_to_list.
Qed.

Definition builtin_registry : gmap string SubstrateRecord :=
  Eval cbv [builtin_records foldr sr_name] in
    foldr (λ r m, <[sr_name r := r]> m) ∅ builtin_records.

Lemma builtin_registry_ok : register_all ∅ builtin_records = inr builtin_registry.
Proof. vm_compute. reflexivity. Qed.

Lemma builtin_registry_elem name s :
  builtin_registry !! name = Some s →
  s ∈ builtin_records ∧ sr_name s = name.
Proof.
  unfold builtin_registry.
  repeat (intros [[<- <-]|[_ H]]%lookup_insert_Some; [split; [unfold builtin_records; set_solver|done]|];
          revert H).
  by rewrite lookup_empty.
Qed.

Lemma builtin_records_ok s :
  s ∈ builtin_records →
  validate_record s = inr () ∧ sr_kind s ≠ AuthorityOnly ∧
  sr_capability_pool s = Some (sr_name s) ∧ sr_name s ∈ BUILTIN_SUBSTRATES ∧
  is_blank (sr_name s) = false ∧ builtin_registry !! sr_name s = Some s.
Proof.
  revert s. apply Forall_forall. unfold builtin_records.
  repeat (constructor; [split_and!; try (vm_compute; reflexivity); try done;
                        unfold BUILTIN_SUBSTRATES; set_solver|]).
  constructor.
Qed.

Lemma builtin_name pool :
  pool ∈ BUILTIN_SUBSTRATES → ∃ s, s ∈ builtin_records ∧ sr_name s = pool.
Proof.
  change BUILTIN_SUBSTRATES with (sr_name <$> builtin_records).
  intros (s & -> & Hs)%list_elem_of_fmap. by exists s.
Qed.

#[global] Opaque builtin_registry builtin_capability_records.

Section fresh_policy.
Context (authority : N) (resources : ResourceBudget) (classes : gmap string ClassPolicy).

Let P : PolicySet := mkPolicySet resources classes builtin_registry
  (builtin_capability_records builtin_registry authority) authority.

(** Every built-in pool has its record. *)
Lemma fresh_capability s :
  s ∈ builtin_records →
  is_Some (ps_capabilities P !! mkCapabilityId (sr_name s) authority).
Proof.
  intros (_ & _ & Hp & _ & _ & Hl)%builtin_records_ok.
  by eapply builtin_capability_named.
Qed.

Lemma fresh_capability_inv id r :
  ps_capabilities P !! id = Some r →
  cr_id r = id ∧ cr_capacity r = ExplicitUnbounded ∧
  ∃ s, s ∈ builtin_records ∧ builtin_registry !! sr_name s = Some s ∧ cap_name id = sr_name s.
Proof.
  intros (E & Ec & name & s & [Hs <-]%builtin_registry_elem & Hp)%builtin_capability_elem.
  split_and!; [done..|]. exists s. apply builtin_records_ok in Hs as H.
  destruct H as (_ & _ & Hp' & _ & _ & Hl). split_and!; [done..|]. congruence.
Qed.

Lemma fresh_inventory : inventory_wf P.
Proof.
  split.
  - intros key r [Hr <-]%builtin_registry_elem. split; [|reflexivity].
    by apply builtin_records_ok in Hr as [??].
  - apply Forall_forall. intros s Hs. by apply builtin_records_ok.
  - intros id r (E & _ & s & Hs & Hl & Hn)%fresh_capability_inv. exists (sr_name s), s.
    split; [exact Hl|]. apply builtin_records_ok in Hs as (_ & Hk & Hp & _).
    rewrite E, Hn. unfold provides_capability. rewrite Hp, bool_decide_eq_true_2 by done.
    by destruct (sr_kind s).
  - intros name s pool [Hs <-]%builtin_registry_elem _ Hp.
    pose proof (fresh_capability s Hs) as [r Hr].
    apply builtin_records_ok in Hs as (_ & _ & Hp' & _ & Hb & _).
    assert (pool = sr_name s) as -> by congruence.
    unfold resolve_capability. rewrite Hb.
    destruct (find_capability P (sr_name s)) as [id|] eqn:Ef; [by eexists|].
    exfalso. apply list_find_none in Ef. rewrite Forall_forall in Ef.
    specialize (Ef (mkCapabilityId (sr_name s) authority)).
    rewrite bool_decide_eq_true_2 in Ef by done. discriminate Ef.
    apply list_elem_of_fmap. exists (mkCapabilityId (sr_name s) authority, r).
    split; [reflexivity|]. by apply elem_of_btree_to_list.
Qed.

Lemma fresh_capacity pool :
  capability_capacity P pool =
    if decide (pool ∈ BUILTIN_SUBSTRATES) then Some ExplicitUnbounded else None.
Proof.
  unfold capability_capacity. destruct (List.find _ _) as [r|] eqn:Ef; cbn [fmap option_fmap option_map].
  - apply List.find_some in Ef as [Hin Hn%bool_decide_eq_true]. apply list_elem_of_In in Hin.
    apply list_elem_of_fmap in Hin as ([id r'] & -> & Hr%elem_of_btree_to_list).
    apply fresh_capability_inv in Hr as (E & Ec & s & Hs & _ & Hn'). cbn [snd] in *.
    apply builtin_records_ok in Hs as (_ & _ & _ & Hin & _).
    rewrite Ec, decide_True; [done|]. congruence.
  - rewrite decide_False; [done|]. intros (s & Hs & <-)%builtin_name.
    apply list_find_none in Ef. rewrite Forall_forall in Ef.
    pose proof (fresh_capability s Hs) as [r Hr].
    pose proof (fresh_capability_inv _ _ Hr) as (E & _). specialize (Ef r). rewrite E in Ef.
    rewrite bool_decide_eq_true_2 in Ef by done. discriminate Ef.
    apply list_elem_of_fmap. exists (mkCapabilityId (sr_name s) authority, r).
    split; [reflexivity|]. by apply elem_of_btree_to_list.
Qed.
End fresh_policy.

Lemma PolicySet_new_facts authority resources classes :
  ∃ P, PolicySet_new authority resources classes = Some P ∧
    ps_resources P = resources ∧ ps_classes P = classes ∧ inventory_wf P ∧
    ∀ pool, capability_capacity P pool =
      if decide (pool ∈ BUILTIN_SUBSTRATES) then Some ExplicitUnbounded else None.
Proof.
  unfold PolicySet_new. rewrite builtin_registry_ok.
  eexists. split; [reflexivity|]. split; [reflexivity|]. split; [reflexivity|].
  split; [apply fresh_inventory|apply fresh_capacity].
Qed.

(** [PolicySet::new] never hits its [expect]: for every budget and class table it
    yields a policy whose inventory validates and whose pools are all unbounded; so
    of a policy fresh from [new], only the class table can be refused. *)
Theorem PolicySet_new_correct authority resources classes :
  ∃ P, PolicySet_new authority resources classes = Some P ∧
    ps_resources P = resources ∧ ps_classes P = classes ∧ inventory_wf P ∧
    (∀ pool, capability_capacity P pool =
       if decide (pool ∈ BUILTIN_SUBSTRATES) then Some ExplicitUnbounded else None) ∧
    (validate_policy P = inr () ↔
       (∀ class p, classes !! class = Some p → class_wf P class p) ∧
       tiers_agree (btree_to_list classes)).
Proof.
  destruct (PolicySet_new_facts authority resources classes) as (P & HP & <- & <- & HI & Hc).
  exists P. split_and!; [done..|].
  rewrite validate_policy_inr. split; [by intros [_ H1 H2]|intros [H1 H2]; by split].
Qed.

(** C40: construction is fail-closed and complete: [Governor::new] yields a governor,
    empty and with a process-unique authority, for exactly the policies that meet
    the policy contract, and refuses every other one without spending an authority;
    the only other refusal is an exhausted authority counter. *)
Theorem Governor_new_correct P next_authority :
  match Governor_new P next_authority with
  | (inr g, next) =>
    policy_wf P ∧ gv_policy g = P ∧ gv_state g = GovernedState_default ∧
    gv_counters g = Counters_initial ∧ gv_authority g = next_authority ∧
    next = next_authority + 1 ∧ next ≤ U64_MAX
  | (inl (PolicyViolation _), next) => ¬ policy_wf P ∧ next = next_authority
  | (inl IdentityAuthorityExhausted, next) =>
    policy_wf P ∧ next = next_authority ∧ U64_MAX ≤ next_authority
  end.
Proof.
  unfold Governor_new. destruct (validate_policy P) as [v|[]] eqn:E.
  - split; [|done]. intros H. apply validate_policy_inr in H. congruence.
  - apply validate_policy_inr in E. unfold construct, take_sequence.
    destruct (checked_add U64_MAX next_authority 1) as [n|] eqn:Ea; cbn.
    + apply checked_add_Some in Ea as [-> ?]. done.
    + apply checked_add_None in Ea. split_and!; [done..|lia].
Qed.
