(* ===== verification/Plan.v ===== *)
(** * Resolved execution plans

    crates/taskmesh/src/execution_plan.rs: the preflight every run path goes through
    before admission.  It decides which pool and which physical domain a submission
    will occupy, how large its stack is, and which cancellation and deadline it may
    use. *)

From stdpp Require Import pretty.
From S2P Require Import Prelude Contract Text Validation Topology Kernel Errors Arbiter PolicyCheck.
From S2P Require Import Requirements Policies.

(** [MAX_REQUESTED_STACK_BYTES]: 16 GiB. *)
Definition MAX_REQUESTED_STACK_BYTES : N := N.shiftl 1 34.

(** [ValidatedStackSize]: a [usize]. *)
Record ValidatedStackSize := mkStackSize { stack_size_get : N }.

(** [validate_stack_size_for_usize]; the last conversion is to the target's own
    [usize], whose greatest value is [USIZE_MAX]. *)
Definition validate_stack_size_for_usize (requested usize_max : N)
  : GovernorError + ValidatedStackSize :=
  if decide (requested = 0) then inl (policy_violation "requested stack size must be nonzero")
  else if decide (MAX_REQUESTED_STACK_BYTES < requested)
  then inl (policy_violation ("requested stack size " +:+ pretty requested +:+
              " bytes exceeds the supported maximum " +:+ pretty MAX_REQUESTED_STACK_BYTES))
  else if decide (usize_max < requested)
  then inl (policy_violation "requested stack size does not fit usize")
  else if decide (requested ≤ USIZE_MAX) then inr (mkStackSize requested)
  else inl (policy_violation "requested stack size does not fit usize").

(** [usize_max_as_u64] and [ValidatedStackSize::validate]. *)
Definition usize_max_as_u64 : N := if decide (USIZE_MAX ≤ U64_MAX) then USIZE_MAX else U64_MAX.
Definition validate_stack_size (requested : N) : GovernorError + ValidatedStackSize :=
  validate_stack_size_for_usize requested usize_max_as_u64.

Module DispatchKind.
Inductive t :=
  | CallerFuture
  | BlockingPool
  | CpuExecutor
  | DedicatedStackThread
  | DedicatedStackRuntime.
End DispatchKind.
Abbreviation DispatchKind := DispatchKind.t.
#[export] Instance DispatchKind_eq_dec : EqDecision DispatchKind.
Proof. solve_decision. Defined.

Record ValidatedDispatchPlan := mkPlan {
  vp_task : ValidatedTaskPlan;
  vp_requirements : CapabilityRequirementSet;
  vp_dispatch : DispatchKind;
  vp_stack_size : option ValidatedStackSize;
  vp_cancel : option CancellationToken;
  vp_deadline : option SubmissionDeadline;
}.

(** The hints whose stack request moves the job to a dedicated thread. *)
Definition blocking_family (hint : SubstrateHint) : bool :=
  match hint with
  | BlockingPool | LargeStackCapability | BackgroundOnly => true
  | _ => false
  end.

(** The dispatch of [preflight], its stack size, its pool and its domain. *)
Definition plan_dispatch (wants_dedicated_thread : bool) (dispatch : DispatchKind) : DispatchKind :=
  if wants_dedicated_thread && bool_decide (dispatch = DispatchKind.BlockingPool)
  then DispatchKind.DedicatedStackThread else dispatch.

Definition plan_stack_size (dispatch : DispatchKind) (requested_stack : option N)
  : GovernorError + option ValidatedStackSize :=
  match dispatch, requested_stack with
  | DispatchKind.DedicatedStackThread, Some requested
  | DispatchKind.DedicatedStackRuntime, Some requested =>
    size ← validate_stack_size requested; inr (Some size)
  | DispatchKind.DedicatedStackRuntime, None =>
    inl (policy_violation "requested stack size missing on async large-stack path")
  | DispatchKind.CallerFuture, Some _ | DispatchKind.CpuExecutor, Some _ =>
    inl (policy_violation "requested stack size is not supported by this dispatch path")
  | DispatchKind.BlockingPool, Some _ =>
    inl (policy_violation "requested stack size cannot use pooled blocking dispatch")
  | _, None => inr None
  end.

Definition plan_capability (wants_dedicated_thread : bool) (hint : SubstrateHint) : option string :=
  if wants_dedicated_thread then hint_capability_pool LargeStackCapability
  else hint_capability_pool hint.

Definition plan_domain (dispatch : DispatchKind) (cpu_physical_domain : string) : option string :=
  match dispatch with
  | DispatchKind.BlockingPool => Some PHYSICAL_SHARED_BLOCKING
  | DispatchKind.CpuExecutor => Some cpu_physical_domain
  | DispatchKind.DedicatedStackThread | DispatchKind.DedicatedStackRuntime =>
    Some PHYSICAL_DEDICATED
  | DispatchKind.CallerFuture => None
  end.

(** [names.map(resolve).collect::<Result<Vec<_>, _>>()]. *)
Fixpoint resolve_all (authority : PolicySet) (names : list string)
  : CapabilityResolutionError + list ResolvedCapability :=
  match names with
  | [] => inr []
  | name :: names' =>
    c ← resolve_capability authority name;
    rest ← resolve_all authority names';
    inr (c :: rest)
  end.

(** [.map_err(|error| PolicyViolation(format!("{what}: {error}")))]. *)
Definition capability_result {A} (what : string) (r : CapabilityResolutionError + A)
  : GovernorError + A :=
  match r with
  | inl error => inl (policy_violation (what +:+ ": " +:+ resolution_text error))
  | inr x => inr x
  end.

Definition allows_mid_run (p : CancellationPolicy) : bool :=
  match p with Cooperative | CooperativeWithDeadline => true | PreSubmitOnly => false end.
Definition allows_deadline (p : CancellationPolicy) : bool :=
  match p with CooperativeWithDeadline => true | _ => false end.

(** The refusal of a deadline the class cannot enforce. *)
Definition check_deadline (spec : TaskSpec) (opts : SubmitOptions)
    (cancellation : option CancellationPolicy) : GovernorError + () :=
  match cancellation, so_deadline opts with
  | Some policy, Some _ =>
    if allows_deadline policy then inr ()
    else inl (GovernorError.DeadlineUnsupported (ts_class spec) policy)
  | _, _ => inr ()
  end.

(** [ValidatedDispatchPlan::preflight]. *)
Definition preflight (spec : TaskSpec) (opts : SubmitOptions) (policy : option ClassPolicy)
    (allowed : list SubstrateHint) (dispatch : DispatchKind) (authority : PolicySet)
    (cpu_physical_domain : string) : GovernorError + ValidatedDispatchPlan :=
  task ← (match ValidatedTaskPlan_try_from spec with
          | inl _ => inl (GovernorError.Rejected MalformedTask)
          | inr task => inr task
          end);
  let spec := as_spec task in
  let hint := primary_substrate_hint spec in
  if negb (bool_decide (hint ∈ allowed)) then inl (GovernorError.Rejected SubstrateMismatch)
  else
    let requested_stack := ts_stack_size_bytes spec in
    let wants_dedicated_thread := bool_decide (is_Some requested_stack) && blocking_family hint in
    let dispatch := plan_dispatch wants_dedicated_thread dispatch in
    stack_size ← plan_stack_size dispatch requested_stack;
    let capability := plan_capability wants_dedicated_thread hint in
    let cancellation := cancellation_policy <$> policy in
    let mid_run := from_option allows_mid_run false cancellation in
    let with_deadline := from_option allows_deadline false cancellation in
    _ ← check_deadline spec opts cancellation;
    let physical := plan_domain dispatch cpu_physical_domain in
    resolved ← capability_result "dispatch capability resolution failed"
                 (resolve_all authority (option_list capability ++ option_list physical));
    requirements ← capability_result "dispatch capability requirement failed"
                     (from_resolved resolved);
    inr {|
      vp_task := task;
      vp_requirements := requirements;
      vp_dispatch := dispatch;
      vp_stack_size := stack_size;
      vp_cancel := if mid_run then so_cancel opts else None;
      vp_deadline := if with_deadline then so_deadline opts else None;
    |}.

(** [absolute_deadline] and [run_budget]. *)
Definition absolute_deadline (p : ValidatedDispatchPlan) : option Instant :=
  match vp_deadline p with Some (CompleteBy instant) => Some instant | _ => None end.
Definition run_budget (p : ValidatedDispatchPlan) : option Duration :=
  match vp_deadline p with Some (RunFor budget) => Some budget | _ => None end.

(** ** What a plan charges *)

(** The resolved requirements of a list of names: one registered identity each. *)
Lemma resolve_capability_inr P name c :
  resolve_capability P name = inr c →
  ∃ id, c = Registered id ∧ cap_name id = name ∧ is_Some (ps_capabilities P !! id).
Proof.
  unfold resolve_capability. destruct (is_blank name); [done|].
  destruct (find_capability P name) as [id|] eqn:E; [|done]. intros [= <-].
  apply find_capability_Some in E as [? ?]. by exists id.
Qed.

Lemma resolve_all_inr P names caps :
  resolve_all P names = inr caps →
  (∀ c, c ∈ caps → ∃ id, c = Registered id ∧ cap_name id ∈ names ∧
     is_Some (ps_capabilities P !! id)) ∧
  (∀ name, name ∈ names → ∃ id, Registered id ∈ caps ∧ cap_name id = name).
Proof.
  revert caps. induction names as [|name names IH]; intros caps H; cbn in H.
  { simplify_eq. by split; intros ? ?%elem_of_nil. }
  apply result_bind_inr in H as (c & Hc & H). apply result_bind_inr in H as (rest & Hr & [= <-]).
  apply resolve_capability_inr in Hc as (id & -> & Hn & Hs). destruct (IH _ Hr) as [H1 H2].
  setoid_rewrite elem_of_cons. split.
  - intros c' [->|Hc']; [eauto 6|]. destruct (H1 c' Hc') as (id' & ? & ? & ?). eauto 6.
  - intros name' [->|Hn']; [eauto|]. destruct (H2 name' Hn') as (id' & ? & ?). eauto.
Qed.

(** The set built from resolved names has exactly those names. *)
Lemma resolved_requirements P names caps ids :
  resolve_all P names = inr caps → from_resolved caps = inr ids →
  validate_requirements P ids = inr () ∧
  ∀ name, name ∈ cap_name <$> ids ↔ name ∈ names.
Proof.
  intros Hr Hf. pose proof (from_resolved_spec caps) as H. rewrite Hf in H.
  destruct H as (_ & _ & H). destruct (resolve_all_inr _ _ _ Hr) as [H1 H2]. split.
  - unfold validate_requirements. replace (forallb _ ids) with true; [done|]. symmetry.
    apply forallb_forall. intros id Hid%list_elem_of_In%H.
    destruct (H1 _ Hid) as (id' & [= <-] & _ & Hs). by apply bool_decide_eq_true.
  - intros name. rewrite list_elem_of_fmap. split.
    + intros (id & -> & Hid%H). by destruct (H1 _ Hid) as (id' & [= <-] & ? & _).
    + intros (id & Hid & <-)%H2. exists id. split; [done|by apply H].
Qed.

Lemma capability_result_inr {A} what (r : CapabilityResolutionError + A) x :
  capability_result what r = inr x ↔ r = inr x.
Proof. destruct r; cbn; naive_solver. Qed.

Lemma validate_stack_size_inr requested n :
  validate_stack_size requested = inr n ↔
  n = mkStackSize requested ∧ 1 ≤ requested ≤ MAX_REQUESTED_STACK_BYTES.
Proof.
  unfold validate_stack_size, validate_stack_size_for_usize, usize_max_as_u64.
  assert (MAX_REQUESTED_STACK_BYTES < USIZE_MAX) as Hm by (by vm_compute).
  rewrite (decide_True (P := USIZE_MAX ≤ U64_MAX)) by done.
  repeat case_decide; split; intros H'; try done; try (destruct H' as [? ?]; lia); simplify_eq.
  - split; [done|lia].
  - by destruct H' as [-> _].
Qed.

Definition is_dedicated (d : DispatchKind) : bool :=
  match d with
  | DispatchKind.DedicatedStackThread | DispatchKind.DedicatedStackRuntime => true
  | _ => false
  end.

Lemma plan_stack_size_inr dispatch requested size :
  plan_stack_size dispatch requested = inr size ↔
  size = mkStackSize <$> requested ∧
  match requested with
  | Some n => is_dedicated dispatch = true ∧ 1 ≤ n ≤ MAX_REQUESTED_STACK_BYTES
  | None => dispatch ≠ DispatchKind.DedicatedStackRuntime
  end.
Proof.
  destruct requested as [n|], dispatch; cbn; rewrite ?result_bind_inr;
    try (setoid_rewrite validate_stack_size_inr); naive_solver.
Qed.

(** When [preflight] answers, and what. *)
Definition wants_dedicated (spec : TaskSpec) : bool :=
  bool_decide (is_Some (ts_stack_size_bytes spec)) && blocking_family (primary_substrate_hint spec).

Lemma preflight_inr spec opts policy allowed dispatch P cpu_domain plan :
  preflight spec opts policy allowed dispatch P cpu_domain = inr plan ↔
  let dispatch := plan_dispatch (wants_dedicated spec) dispatch in
  let cancellation := cancellation_policy <$> policy in
  plan_wf spec ∧ primary_substrate_hint spec ∈ allowed ∧
  plan_stack_size dispatch (ts_stack_size_bytes spec) = inr (vp_stack_size plan) ∧
  check_deadline spec opts cancellation = inr () ∧
  (∃ resolved,
     resolve_all P (option_list (plan_capability (wants_dedicated spec) (primary_substrate_hint spec)) ++
                    option_list (plan_domain dispatch cpu_domain)) = inr resolved ∧
     from_resolved resolved = inr (vp_requirements plan)) ∧
  vp_task plan = mkValidated spec ∧ vp_dispatch plan = dispatch ∧
  vp_cancel plan = (if from_option allows_mid_run false cancellation then so_cancel opts else None) ∧
  vp_deadline plan = (if from_option allows_deadline false cancellation then so_deadline opts else None).
Proof.
  cbn zeta. unfold preflight, ValidatedTaskPlan_try_from, wants_dedicated.
  rewrite <-validate_task_spec_inr.
  destruct (validate_task_spec spec) as [e|[]]; cbn [mbind result_bind as_spec mret result_ret];
    [naive_solver|].
  case_bool_decide as Hin; cbn [negb]; [|naive_solver].
  rewrite result_bind_inr. setoid_rewrite result_bind_inr. setoid_rewrite result_bind_inr.
  setoid_rewrite result_bind_inr. setoid_rewrite capability_result_inr. destruct plan. cbn.
  split.
  - intros (size & Hs & [] & Hd & resolved & Hr & reqs & Hf & [= <- <- <- <- <- <-]).
    split_and!; eauto.
  - intros (_ & _ & Hs & Hd & (resolved & Hr & Hf) & -> & -> & -> & ->).
    exists vp_stack_size0. split; [done|]. exists (). eauto 6.
Qed.
