(* ===== verification/Build.v ===== *)
(** * The runtime builder

    crates/taskmesh/src/builder.rs and the plan entry of runtime/acquisition.rs: the
    builder's registrations, its fail-closed [build], and the plans of the five run
    paths of the runtime it yields.  The installed executor is the value its
    [capabilities] call returns (the builder asks once); the detected parallelism is
    an argument.  [None] is a panic of the builder's own code. *)

From stdpp Require Import pretty.
From S2P Require Import Prelude Contract Text Validation Topology Kernel Errors Arbiter Executors.
From S2P Require Import PolicyCheck Requirements State Assess Fairness Admission Memory Governor.
From S2P Require Import Policies Plan.

(** ** Configuration: config.rs *)

Record RuntimeConfig := mkRuntimeConfig {
  cfg_topology : TopologyConfig;
  cfg_resources : ResourceBudget;
  cfg_classes : gmap string ClassPolicy;
  cfg_substrates : list SubstrateRecord;
}.

(** ** The builder *)

Record Builder := mkBuilder {
  b_topology : TopologyConfig;
  b_resources : ResourceBudget;
  b_classes : gmap string ClassPolicy;
  b_substrates : list SubstrateRecord;
  b_capability_limits : gmap string N;
  b_registration_error : option GovernorError;
  b_cpu_executor : option ExecutorCapabilities;
}.

Definition Builder_new : Builder :=
  mkBuilder TopologyConfig_new ResourceBudget_new ∅ [] ∅ None None.

Definition with_topology (t : TopologyConfig) (b : Builder) : Builder :=
  mkBuilder t (b_resources b) (b_classes b) (b_substrates b) (b_capability_limits b)
    (b_registration_error b) (b_cpu_executor b).
Definition with_resources (r : ResourceBudget) (b : Builder) : Builder :=
  mkBuilder (b_topology b) r (b_classes b) (b_substrates b) (b_capability_limits b)
    (b_registration_error b) (b_cpu_executor b).

(** [registration_error.get_or_insert_with]. *)
Definition first_error (text : string) (e : option GovernorError) : option GovernorError :=
  match e with Some e => Some e | None => Some (policy_violation text) end.

(** [Builder::class_policy]. *)
Definition class_policy (class : TaskClass) (policy : ClassPolicy) (b : Builder) : Builder :=
  match b_classes b !! class with
  | Some _ =>
    mkBuilder (b_topology b) (b_resources b) (b_classes b) (b_substrates b) (b_capability_limits b)
      (first_error ("duplicate class policy registration: " +:+ class) (b_registration_error b))
      (b_cpu_executor b)
  | None =>
    mkBuilder (b_topology b) (b_resources b) (<[class := policy]> (b_classes b)) (b_substrates b)
      (b_capability_limits b) (b_registration_error b) (b_cpu_executor b)
  end.

(** [Builder::substrate]. *)
Definition with_substrate (r : SubstrateRecord) (b : Builder) : Builder :=
  mkBuilder (b_topology b) (b_resources b) (b_classes b) (b_substrates b ++ [r])
    (b_capability_limits b) (b_registration_error b) (b_cpu_executor b).

(** [Builder::capability_limit]. *)
Definition capability_limit (pool : string) (slots : N) (b : Builder) : Builder :=
  match b_capability_limits b !! pool with
  | Some _ =>
    mkBuilder (b_topology b) (b_resources b) (b_classes b) (b_substrates b) (b_capability_limits b)
      (first_error ("duplicate capability limit registration: " +:+ pool) (b_registration_error b))
      (b_cpu_executor b)
  | None =>
    mkBuilder (b_topology b) (b_resources b) (b_classes b) (b_substrates b)
      (<[pool := slots]> (b_capability_limits b)) (b_registration_error b) (b_cpu_executor b)
  end.

(** [Builder::cpu_executor]. *)
Definition with_cpu_executor (executor : ExecutorCapabilities) (b : Builder) : Builder :=
  mkBuilder (b_topology b) (b_resources b) (b_classes b) (b_substrates b) (b_capability_limits b)
    (b_registration_error b) (Some executor).

(** ** Capability limits *)

Definition builder_owned_pool (pool : string) : bool :=
  bool_decide (pool ∈ BUILTIN_SUBSTRATES)
  || bool_decide (pool = PHYSICAL_CPU) || bool_decide (pool = PHYSICAL_SHARED_BLOCKING)
  || bool_decide (pool = PHYSICAL_DEDICATED).

(** [builtin_pool_name]. *)
Definition builtin_pool_name (pool : string) : string :=
  if decide (pool ∈ ["cpu"; "blocking"; "large_stack"; "maintenance"; "local_runtime"]%string)
  then pool else "unknown".

Definition cannot_override (pool : string) : GovernorError :=
  policy_violation ("capability limit for built-in pool " +:+ pool +:+ " cannot be overridden").

(** The [insert] closure of [capability_limits]. *)
Definition insert_limit (pool : string) (slots : N) (limits : gmap string N)
  : GovernorError + gmap string N :=
  if decide (slots = 0) then inr limits
  else if decide (slots ≤ U32_MAX) then
    match limits !! pool with
    | Some _ => inl (cannot_override pool)
    | None => inr (<[pool := slots]> limits)
    end
  else inl (GovernorError.InvalidTopology
              (SlotCountTooLarge (builtin_pool_name pool) slots MAX_CAPABILITY_SLOTS)).

Fixpoint insert_limits (entries : list (string * N)) (limits : gmap string N)
  : GovernorError + gmap string N :=
  match entries with
  | [] => inr limits
  | (pool, slots) :: entries' =>
    limits' ← insert_limit pool slots limits; insert_limits entries' limits'
  end.

(** [capability_limits]. *)
Definition capability_limits (t : TopologyConfig) (cpu_workers shared_blocking_workers
    dedicated_workers : N) (limits : gmap string N) : GovernorError + gmap string N :=
  match List.find builder_owned_pool (btree_keys limits) with
  | Some pool => inl (cannot_override pool)
  | None =>
    insert_limits
      ([("cpu"%string, N.max cpu_workers 1); (PHYSICAL_CPU, N.max cpu_workers 1);
        (PHYSICAL_SHARED_BLOCKING, shared_blocking_workers);
        (PHYSICAL_DEDICATED, dedicated_workers)] ++ declared_slots t) limits
  end.

(** [physical_domain_record]. *)
Definition physical_domain_record (domain : string) : SubstrateRecord :=
  mkSubstrateRecord ("host-domain:" +:+ domain) CompetingExecution (Some domain).

(** ** The default executor *)

(** [default_cpu_executor] with the [rayon] feature. *)
Section rayon_default.
Context {ThreadPool ThreadPoolBuildError : Type}.
Context (build_pool : N → ThreadPoolBuildError + ThreadPool) (current_num_threads : ThreadPool → N).
Context (pool_error_text : ThreadPoolBuildError → string).

Definition default_cpu_executor_rayon (cpu_workers _shared_blocking_workers : N)
  : option (GovernorError + ExecutorCapabilities) :=
  match RayonCpuExecutor_try_new build_pool cpu_workers with
  | inl e =>
    Some (inl (policy_violation ("failed to build shared CPU pool: " +:+
                                 rayon_error_text pool_error_text e)))
  | inr executor => Some (inr (Rayon_capabilities current_num_threads executor))
  end.
End rayon_default.

(** [default_cpu_executor] without it; [None] is its [expect]. *)
Definition default_cpu_executor_tokio (_cpu_workers shared_blocking_workers : N)
  : option (GovernorError + ExecutorCapabilities) :=
  if decide (shared_blocking_workers ≤ U32_MAX) then
    if decide (shared_blocking_workers = 0) then None
    else Some (inr (BlockingPool_capabilities shared_blocking_workers))
  else Some (inl (GovernorError.InvalidTopology
              (SlotCountTooLarge PHYSICAL_SHARED_BLOCKING shared_blocking_workers
                 MAX_CAPABILITY_SLOTS))).

(** ** Build *)

(** The runtime handle: its declaration, its governor and its executor's
    declaration, frozen at build time. *)
Record TokioRuntime := mkRuntime {
  rt_config : RuntimeConfig;
  rt_governor : Governor;
  rt_cpu_capabilities : ExecutorCapabilities;
}.

(** The checks of [build] on the executor's declaration. *)
Definition validate_executor (descriptor : ExecutorCapabilities)
    (cpu_workers shared_blocking_workers : N) : GovernorError + () :=
  if negb (ec_nonblocking_submit descriptor)
  then inl (GovernorError.InvalidTopology ExecutorSubmissionMayBlock)
  else match ec_physical_domain descriptor with
  | None => inl (GovernorError.InvalidTopology ExecutorPhysicalDomainUnknown)
  | Some domain =>
    expected_workers ←
      (if decide (domain = PHYSICAL_SHARED_BLOCKING) then inr shared_blocking_workers
       else if decide (domain = PHYSICAL_CPU) then inr cpu_workers
       else inl (GovernorError.InvalidTopology (UnknownExecutorPhysicalDomain domain)));
    match ec_declared_workers descriptor with
    | None => inl (GovernorError.InvalidTopology ExecutorWorkerCountUnknown)
    | Some declared =>
      if decide (declared = (if decide (expected_workers ≤ U64_MAX) then expected_workers else U64_MAX))
      then inr ()
      else inl (GovernorError.InvalidTopology
                  (ExecutorWorkerCountMismatch declared expected_workers domain))
    end
  end.

(** [?] on [Governor::new_with_settlement_waker]. *)
Definition construct_error (e : ConstructError) : GovernorError :=
  match e with
  | PolicyViolation violation => GovernorError.PolicyViolation (EngineMessage violation)
  | IdentityAuthorityExhausted => GovernorError.IdentityAuthorityExhausted
  end.

(** The policy of [build]: the builder's registrations over the canonical
    inventory, with the limits of the topology. *)
Definition build_policy (registry : N) (b : Builder)
    (cpu_workers shared_blocking_workers dedicated_workers : N)
  : option (GovernorError + PolicySet) :=
  fresh ← PolicySet_new registry (b_resources b) (b_classes b);
  Some (
    let substrates := b_substrates b ++
      [physical_domain_record PHYSICAL_SHARED_BLOCKING; physical_domain_record PHYSICAL_CPU;
       physical_domain_record PHYSICAL_DEDICATED] in
    policy ← policy_result (with_substrates substrates fresh);
    limits ← capability_limits (b_topology b) cpu_workers shared_blocking_workers dedicated_workers
               (b_capability_limits b);
    policy_result (with_capability_limits limits policy)).

(** The end of [build]: the configuration and the governor. *)
Definition build_runtime (b : Builder) (policy : PolicySet) (descriptor : ExecutorCapabilities)
    (next_authority : N) : (GovernorError + TokioRuntime) * N :=
  let config := mkRuntimeConfig (b_topology b) (b_resources b) (b_classes b)
                  (btree_values (ps_substrates policy)) in
  match Governor_new policy next_authority with
  | (inl e, next) => (inl (construct_error e), next)
  | (inr governor, next) => (inr (mkRuntime config governor descriptor), next)
  end.

(** The worker counts of [build]. *)
Definition build_workers (b : Builder) (available : N) : GovernorError + N * N * N :=
  match b_registration_error b with
  | Some error => inl error
  | None =>
    _ ← topology_result (topology_validate (b_topology b));
    cpu ← topology_result (try_resolved_cpu_workers (b_topology b) available);
    shared ← topology_result
      (try_resolved_physical_domain (b_topology b) PHYSICAL_SHARED_BLOCKING available);
    dedicated ← topology_result
      (try_resolved_physical_domain (b_topology b) PHYSICAL_DEDICATED available);
    inr (cpu, shared, dedicated)
  end.

(** [Builder::build], with the process-wide authority counter. *)
Definition build (default_cpu_executor : N → N → option (GovernorError + ExecutorCapabilities))
    (available registry next_authority : N) (b : Builder)
  : option ((GovernorError + TokioRuntime) * N) :=
  match build_workers b available with
  | inl e => Some (inl e, next_authority)
  | inr (cpu_workers, shared_blocking_workers, dedicated_workers) =>
    cpu ← match b_cpu_executor b with
          | Some cpu => Some (inr cpu)
          | None => default_cpu_executor cpu_workers shared_blocking_workers
          end;
    match (descriptor ← cpu;
           _ ← validate_executor descriptor cpu_workers shared_blocking_workers;
           inr descriptor) with
    | inl e => Some (inl e, next_authority)
    | inr descriptor =>
      policy ← build_policy registry b cpu_workers shared_blocking_workers dedicated_workers;
      match policy with
      | inl e => Some (inl e, next_authority)
      | inr policy => Some (build_runtime b policy descriptor next_authority)
      end
    end
  end.

(** ** Plans of a runtime *)

(** The run paths, with the hints each accepts and how it dispatches. *)
Inductive RunPath := RunIo | RunBlocking | RunCpu | RunLocal | RunRequestedStack.

Definition path_allowed (p : RunPath) : list SubstrateHint :=
  match p with
  | RunIo => [AsyncIo]
  | RunBlocking => [BlockingPool; LargeStackCapability; BackgroundOnly]
  | RunCpu => [SharedCpuExecutor]
  | RunLocal => [LocalRuntime]
  | RunRequestedStack => [LargeStackCapability]
  end.
Definition path_dispatch (p : RunPath) : DispatchKind :=
  match p with
  | RunIo | RunLocal => DispatchKind.CallerFuture
  | RunBlocking => DispatchKind.BlockingPool
  | RunCpu => DispatchKind.CpuExecutor
  | RunRequestedStack => DispatchKind.DedicatedStackRuntime
  end.

(** [TokioRuntime::plan]. *)
Definition plan (rt : TokioRuntime) (spec : TaskSpec) (opts : SubmitOptions) (path : RunPath)
  : GovernorError + ValidatedDispatchPlan :=
  let policy := cfg_classes (rt_config rt) !! ts_class spec in
  match ec_physical_domain (rt_cpu_capabilities rt) with
  | None => inl (GovernorError.InvalidTopology ExecutorPhysicalDomainUnknown)
  | Some cpu_physical_domain =>
    preflight spec opts policy (path_allowed path) (path_dispatch path) (gv_policy (rt_governor rt))
      cpu_physical_domain
  end.
