(* ===== verification/Builds.v ===== *)
(** * What the builder builds

    A built runtime runs a validated policy whose limits are exactly the topology's
    and the caller's; its plans never fail for want of a capability, and what a plan
    charges is what its dispatch occupies. *)

From S2P Require Import Prelude Contract Text Validation Topology Kernel Errors Arbiter Executors.
From S2P Require Import PolicyCheck Requirements State Assess Fairness Admission Memory Governor.
From S2P Require Import Policies Plan Build.

(** ** Capacities by name *)

Definition capacity_of (limit : N) : CapabilityCapacity :=
  if decide (limit = 0) then ExplicitUnbounded else Bounded limit.

(** In a keyed registry a name has one identity. *)
Lemma find_capability_keyed P a pool :
  keyed a (ps_capabilities P) →
  find_capability P pool =
    (if decide (is_Some (ps_capabilities P !! mkCapabilityId pool a))
     then Some (mkCapabilityId pool a) else None).
Proof.
  intros Hk. destruct (find_capability P pool) as [id|] eqn:E.
  - apply find_capability_Some in E as [[r Hr] <-]. destruct (Hk _ _ Hr) as [_ Ha].
    assert (mkCapabilityId (cap_name id) a = id) as -> by (destruct id; cbn in *; congruence).
    rewrite decide_True; [done|by exists r].
  - rewrite decide_False; [done|]. intros [r Hr]. unfold find_capability in E.
    apply list_find_none in E. rewrite Forall_forall in E.
    specialize (E (mkCapabilityId pool a)). rewrite bool_decide_eq_true_2 in E by done.
    discriminate E. apply list_elem_of_fmap. exists (mkCapabilityId pool a, r).
    split; [done|]. by apply elem_of_btree_to_list.
Qed.

Lemma capacity_keyed P a pool :
  keyed a (ps_capabilities P) →
  capability_capacity P pool = cr_capacity <$> ps_capabilities P !! mkCapabilityId pool a.
Proof.
  intros Hk. unfold capability_capacity. destruct (List.find _ _) as [r|] eqn:E.
  - apply List.find_some in E as [Hin Hn%bool_decide_eq_true]. apply list_elem_of_In in Hin.
    apply list_elem_of_fmap in Hin as ([id r'] & -> & Hr%elem_of_btree_to_list). cbn in *.
    destruct (Hk _ _ Hr) as [E Ha]. subst a. rewrite E in Hn.
    assert (mkCapabilityId pool (cap_authority id) = id) as -> by (destruct id; cbn in *; congruence).
    by rewrite Hr.
  - destruct (ps_capabilities P !! mkCapabilityId pool a) as [r|] eqn:Hr; [|done]. exfalso.
    apply list_find_none in E. rewrite Forall_forall in E. destruct (Hk _ _ Hr) as [Ei _].
    specialize (E r). rewrite Ei, bool_decide_eq_true_2 in E by done. discriminate E.
    apply list_elem_of_fmap. exists (mkCapabilityId pool a, r).
    split; [done|]. by apply elem_of_btree_to_list.
Qed.

(** One declared limit. *)
Lemma declare_limit_inr pool limit P P' :
  keyed (ps_capability_authority P) (ps_capabilities P) → declare_limit pool limit P = inr P' →
  ps_capability_authority P' = ps_capability_authority P ∧
  ps_substrates P' = ps_substrates P ∧ ps_classes P' = ps_classes P ∧
  ps_resources P' = ps_resources P ∧
  ps_capabilities P' =
    <[mkCapabilityId pool (ps_capability_authority P) :=
        mkCapabilityRecord (mkCapabilityId pool (ps_capability_authority P)) (capacity_of limit)]>
      (ps_capabilities P).
Proof.
  intros Hk H. unfold declare_limit in H. destruct (is_blank pool); [done|].
  destruct (negb _) in H; [done|]. rewrite (find_capability_keyed _ _ _ Hk) in H.
  injection H as <-. cbn. by case_decide.
Qed.

Lemma declare_limits_inr limits P P' :
  keyed (ps_capability_authority P) (ps_capabilities P) → NoDup limits.*1 →
  declare_limits limits P = inr P' →
  ps_substrates P' = ps_substrates P ∧ ps_classes P' = ps_classes P ∧
  ps_resources P' = ps_resources P ∧
  ∀ pool, capability_capacity P' pool =
    match list_to_map (M := gmap string N) limits !! pool with
    | Some limit => Some (capacity_of limit)
    | None => capability_capacity P pool
    end.
Proof.
  revert P. induction limits as [|[name limit] limits IH]; intros P Hk Hnd H; cbn in H.
  { by simplify_eq. }
  apply result_bind_inr in H as (P1 & H1 & H).
  destruct (declare_limit_inr _ _ _ _ Hk H1) as (Ea & Es & Ec & Er & Ecap).
  cbn in Hnd. apply NoDup_cons in Hnd as [Hni Hnd].
  assert (keyed (ps_capability_authority P1) (ps_capabilities P1)) as Hk1.
  { rewrite Ea, Ecap. by apply keyed_insert. }
  destruct (IH P1 Hk1 Hnd H) as (-> & -> & -> & Hcap). split_and!; [done..|]. intros pool.
  rewrite Hcap. cbn [list_to_map foldr curry]. destruct (decide (pool = name)) as [->|Hne].
  - rewrite (not_elem_of_list_to_map_1 (M := gmap string)), lookup_insert_eq by done.
    rewrite (capacity_keyed _ _ _ Hk1), Ea, Ecap, lookup_insert_eq. done.
  - cbn. rewrite lookup_insert_ne by done.
    destruct (list_to_map _ !! pool); [done|].
    rewrite (capacity_keyed _ _ _ Hk1), (capacity_keyed _ _ _ Hk), Ea, Ecap.
    rewrite lookup_insert_ne; [done|]. congruence.
Qed.

Lemma list_to_btree {A} (m : gmap string A) : list_to_map (btree_to_list m) = m.
Proof.
  rewrite <-(list_to_map_to_list m) at 2. apply list_to_map_proper, btree_to_list_perm.
  apply btree_to_list_NoDup.
Qed.

Lemma with_capability_limits_inr limits P P' :
  keyed (ps_capability_authority P) (ps_capabilities P) → with_capability_limits limits P = inr P' →
  ps_substrates P' = ps_substrates P ∧ ps_classes P' = ps_classes P ∧
  ps_resources P' = ps_resources P ∧
  ∀ pool, capability_capacity P' pool =
    match limits !! pool with
    | Some limit => Some (capacity_of limit)
    | None => capability_capacity P pool
    end.
Proof.
  intros Hk H. apply declare_limits_inr in H; [|done|apply btree_to_list_NoDup].
  by rewrite list_to_btree in H.
Qed.

(** ** The limits of the topology *)

Lemma insert_limits_inr entries limits limits' :
  NoDup entries.*1 → insert_limits entries limits = inr limits' →
  ∀ pool, limits' !! pool =
    match list_to_map (M := gmap string N) entries !! pool with
    | Some slots => if decide (slots = 0) then limits !! pool else Some slots
    | None => limits !! pool
    end.
Proof.
  revert limits. induction entries as [|[name slots] entries IH]; intros limits Hnd H pool; cbn in H.
  { by simplify_eq. }
  cbn in Hnd. apply NoDup_cons in Hnd as [Hni Hnd].
  apply result_bind_inr in H as (limits1 & H1 & H). rewrite (IH _ Hnd H pool). cbn.
  assert (limits1 = if decide (slots = 0) then limits else <[name := slots]> limits) as ->.
  { unfold insert_limit in H1. case_decide; [by simplify_eq|]. case_decide; [|done].
    by destruct (limits !! name); simplify_eq. }
  destruct (decide (pool = name)) as [->|Hne].
  - rewrite (not_elem_of_list_to_map_1 (M := gmap string)), lookup_insert_eq by done.
    case_decide; [done|]. by rewrite lookup_insert_eq.
  - rewrite lookup_insert_ne by done.
    assert ((if decide (slots = 0) then limits else <[name:=slots]> limits) !! pool = limits !! pool)
      as ->; [|done]. case_decide; [done|]. by rewrite lookup_insert_ne.
Qed.

(** The slots the host declares: one per built-in pool and physical domain. *)
Definition host_slots (t : TopologyConfig) (cpu_workers shared_blocking_workers dedicated_workers : N)
  : list (string * N) :=
  [("cpu"%string, N.max cpu_workers 1); (PHYSICAL_CPU, N.max cpu_workers 1);
   (PHYSICAL_SHARED_BLOCKING, shared_blocking_workers);
   (PHYSICAL_DEDICATED, dedicated_workers)] ++ declared_slots t.

Lemma host_slots_names t cpu shared dedicated :
  NoDup (host_slots t cpu shared dedicated).*1 ∧
  ∀ pool, builder_owned_pool pool = true ↔ pool ∈ (host_slots t cpu shared dedicated).*1.
Proof.
  change ((host_slots t cpu shared dedicated).*1) with
    ["cpu"; PHYSICAL_CPU; PHYSICAL_SHARED_BLOCKING; PHYSICAL_DEDICATED; "blocking"; "large_stack";
     "maintenance"; "local_runtime"]%string.
  split; [apply (bool_decide_unpack _); by vm_compute|]. intros pool. unfold builder_owned_pool.
  rewrite !orb_true_iff, !bool_decide_eq_true. unfold BUILTIN_SUBSTRATES. set_solver.
Qed.

Lemma capability_limits_inr t cpu shared dedicated limits limits' :
  capability_limits t cpu shared dedicated limits = inr limits' →
  ∀ pool, limits' !! pool =
    match list_to_map (M := gmap string N) (host_slots t cpu shared dedicated) !! pool with
    | Some slots => if decide (slots = 0) then None else Some slots
    | None => limits !! pool
    end.
Proof.
  intros H pool. unfold capability_limits in H.
  destruct (List.find builder_owned_pool _) as [p|] eqn:Ef; [done|].
  destruct (host_slots_names t cpu shared dedicated) as [Hnd Hn].
  rewrite (insert_limits_inr _ _ _ Hnd H pool). fold (host_slots t cpu shared dedicated).
  destruct (list_to_map _ !! pool) as [slots|] eqn:El; [|done]. case_decide; [|done].
  destruct (limits !! pool) as [l|] eqn:E; [|done]. exfalso.
  apply list_find_none in Ef. rewrite Forall_forall in Ef. specialize (Ef pool).
  assert (builder_owned_pool pool = true) as Hb.
  { apply Hn, list_elem_of_fmap. apply elem_of_list_to_map_2 in El. by exists (pool, slots). }
  rewrite Hb in Ef. discriminate Ef. apply list_elem_of_fmap. exists (pool, l).
  split; [done|]. by apply elem_of_btree_to_list.
Qed.

(** ** The built policy *)

Lemma register_all_inr registry rs registry' :
  register_all registry rs = inr registry' →
  registry ⊆ registry' ∧ ∀ r, r ∈ rs → registry' !! sr_name r = Some r.
Proof.
  revert registry. induction rs as [|r rs IH]; intros registry H; cbn in H.
  { simplify_eq. split; [done|]. by intros r ?%elem_of_nil. }
  apply result_bind_inr in H as (m & H1 & H). destruct (IH _ H) as [Hs Hr].
  unfold register in H1. apply result_bind_inr in H1 as ([] & _ & H1).
  destruct (registry !! sr_name r) eqn:E; [done|]. simplify_eq. split.
  - etransitivity; [by apply insert_subseteq|done].
  - intros r' [->|Hin]%elem_of_cons; [|by apply Hr].
    eapply lookup_weaken; [|exact Hs]. by rewrite lookup_insert_eq.
Qed.

Lemma build_policy_inr registry b cpu shared dedicated P :
  1 ≤ shared → 1 ≤ dedicated →
  build_policy registry b cpu shared dedicated = Some (inr P) →
  built P ∧ ps_classes P = b_classes b ∧ ps_resources P = b_resources b ∧
  (∀ domain, domain ∈ [PHYSICAL_SHARED_BLOCKING; PHYSICAL_CPU; PHYSICAL_DEDICATED] →
     ps_substrates P !! sr_name (physical_domain_record domain) =
       Some (physical_domain_record domain)) ∧
  ∀ pool, capability_capacity P pool =
    match list_to_map (M := gmap string N) (host_slots (b_topology b) cpu shared dedicated) !! pool with
    | Some slots => Some (capacity_of slots)
    | None => capacity_of <$> b_capability_limits b !! pool
    end.
Proof.
  intros Hs1 Hd1. unfold build_policy. destruct (PolicySet_new_facts registry (b_resources b) (b_classes b))
    as (P0 & E0 & Er & Ec & _ & Hcap0). rewrite E0. cbn [mbind option_bind]. intros [= H].
  apply result_bind_inr in H as (P1 & H1 & H). apply result_bind_inr in H as (limits & Hl & H).
  destruct (with_substrates _ P0) as [v|P1'] eqn:Es; [done|]. injection H1 as ->.
  destruct (with_capability_limits limits P1) as [v|P'] eqn:Ew; [done|]. injection H as ->.
  assert (built P1) as Hb1 by (eapply built_substrates; [by eapply built_new|done]).
  destruct (with_capability_limits_inr _ _ _ (built_keyed _ Hb1) Ew) as (Hs & Hc & Hr & Hcap).
  unfold with_substrates in Es. apply result_bind_inr in Es as (m & Hm & [= <-]). cbn in Hs, Hc, Hr.
  split; [by eapply built_limits|]. split; [by rewrite Hc|]. split; [by rewrite Hr|]. split.
  - intros domain Hd. rewrite Hs. apply (proj2 (register_all_inr _ _ _ Hm)).
    apply elem_of_app. right. set_solver.
  - intros pool. rewrite Hcap, (capability_limits_inr _ _ _ _ _ _ Hl pool).
    change (capability_capacity (mkPolicySet _ _ m _ _) pool) with (capability_capacity P0 pool).
    rewrite Hcap0. destruct (host_slots_names (b_topology b) cpu shared dedicated) as [_ Hn].
    destruct (list_to_map _ !! pool) as [slots|] eqn:El.
    + destruct (decide (slots = 0)) as [->|Hz]; [|done]. change (capacity_of 0) with ExplicitUnbounded.
      rewrite decide_True; [done|].
      apply elem_of_list_to_map_2 in El. unfold host_slots in El.
      cbn in El.
      repeat (apply elem_of_cons in El as [[= -> E]|El];
        [first [lia | unfold BUILTIN_SUBSTRATES; set_solver]|]).
      by apply elem_of_nil in El.
    + destruct (b_capability_limits b !! pool) as [l|] eqn:E; [done|]. cbn.
      rewrite decide_False; [done|]. intros Hin.
      apply not_elem_of_list_to_map_2 in El. apply El, Hn. unfold builder_owned_pool.
      by rewrite bool_decide_eq_true_2.
Qed.

(** ** A successful build *)

Lemma topology_result_inr {A} (r : TopologyError + A) x : topology_result r = inr x ↔ r = inr x.
Proof. destruct r; cbn; naive_solver. Qed.

Lemma build_workers_inr b available cpu shared dedicated :
  build_workers b available = inr (cpu, shared, dedicated) →
  b_registration_error b = None ∧ topology_wf (b_topology b) ∧
  cpu = resolved_cpu_workers (b_topology b) available ∧
  try_resolved_physical_domain (b_topology b) PHYSICAL_SHARED_BLOCKING available = inr shared ∧
  try_resolved_physical_domain (b_topology b) PHYSICAL_DEDICATED available = inr dedicated ∧
  1 ≤ cpu ≤ U32_MAX ∧ 1 ≤ shared ≤ U32_MAX ∧ 1 ≤ dedicated ≤ U32_MAX.
Proof.
  unfold build_workers. destruct (b_registration_error b); [done|].
  intros ([] & _ & H)%result_bind_inr. apply result_bind_inr in H as (c & Hc%topology_result_inr & H).
  apply result_bind_inr in H as (s & Hs%topology_result_inr & H).
  apply result_bind_inr in H as (d & Hd%topology_result_inr & [= <- <- <-]).
  apply cpu_workers_bounded in Hc as (Hw & -> & Hc).
  pose proof (physical_domain_bounded _ _ _ _ Hs). pose proof (physical_domain_bounded _ _ _ _ Hd).
  unfold MAX_CAPABILITY_SLOTS in *. tauto.
Qed.

Lemma validate_executor_inr d cpu shared :
  cpu ≤ U32_MAX → shared ≤ U32_MAX → validate_executor d cpu shared = inr () →
  ec_nonblocking_submit d = true ∧
  (ec_physical_domain d = Some PHYSICAL_SHARED_BLOCKING ∧ ec_declared_workers d = Some shared ∨
   ec_physical_domain d = Some PHYSICAL_CPU ∧ ec_declared_workers d = Some cpu).
Proof.
  intros Hc Hs. unfold validate_executor. destruct (ec_nonblocking_submit d); [|done].
  destruct (ec_physical_domain d) as [domain|]; [|done].
  intros (expected & He & H)%result_bind_inr. split; [done|].
  assert (expected ≤ U32_MAX) as Hx by (repeat case_decide; simplify_eq; lia).
  destruct (ec_declared_workers d) as [declared|]; [|done].
  rewrite (decide_True (P := expected ≤ U64_MAX)) in H by ulia.
  destruct (decide (declared = expected)) as [->|]; [|done].
  destruct (decide (domain = PHYSICAL_SHARED_BLOCKING)) as [->|]; [by simplify_eq; left|].
  destruct (decide (domain = PHYSICAL_CPU)) as [->|]; [by simplify_eq; right|done].
Qed.

(** What a runtime keeps of its builder. *)
Record built_from (registry available : N) (b : Builder) (rt : TokioRuntime)
    (cpu shared dedicated : N) : Prop := {
  bf_workers : build_workers b available = inr (cpu, shared, dedicated);
  bf_executor : validate_executor (rt_cpu_capabilities rt) cpu shared = inr ();
  bf_policy :
    build_policy registry b cpu shared dedicated = Some (inr (gv_policy (rt_governor rt)));
  bf_wf : policy_wf (gv_policy (rt_governor rt));
  bf_classes : cfg_classes (rt_config rt) = b_classes b;
}.

Lemma Governor_new_inr P next g next' :
  Governor_new P next = (inr g, next') → policy_wf P ∧ gv_policy g = P.
Proof.
  unfold Governor_new. destruct (validate_policy P) as [v|[]] eqn:E; [done|].
  apply validate_policy_inr in E. unfold construct. destruct (take_sequence next) as [[a n]|]; [|done].
  by intros [= <- _].
Qed.

Lemma build_inr default available registry next b rt next' :
  build default available registry next b = Some (inr rt, next') →
  ∃ cpu shared dedicated, built_from registry available b rt cpu shared dedicated.
Proof.
  unfold build. destruct (build_workers b available) as [e|[[cpu shared] dedicated]] eqn:Ew; [done|].
  intros (c & _ & H)%bind_Some. destruct (_ ≫= _) as [e|d] eqn:Ed in H; [done|].
  apply result_bind_inr in Ed as (d' & -> & Ed). apply result_bind_inr in Ed as ([] & Ed & [= ->]).
  apply bind_Some in H as ([e|P] & Ep & H); [done|]. unfold build_runtime in H.
  destruct (Governor_new P next) as [[e|g] n] eqn:Eg; [done|]. injection H as <- <-.
  apply Governor_new_inr in Eg as [Hwf Eg]. exists cpu, shared, dedicated.
  split; cbn; rewrite ?Eg; done.
Qed.

(** A host whose default executor answers whenever its pool is not empty does not
    panic while it builds. *)
Lemma build_total default available registry next b :
  (∀ c s, 1 ≤ c → 1 ≤ s → is_Some (default c s)) →
  is_Some (build default available registry next b).
Proof.
  intros Hd. unfold build.
  destruct (build_workers b available) as [e|[[cpu shared] dedicated]] eqn:Ew; [by eexists|].
  apply build_workers_inr in Ew as (_ & _ & _ & _ & _ & Hc & Hs & _).
  assert (is_Some (match b_cpu_executor b with
                   | Some cpu => Some (inr cpu) | None => default cpu shared end)) as [c ->].
  { destruct (b_cpu_executor b); [by eexists|]. apply Hd; lia. }
  cbn [mbind option_bind]. destruct (_ ≫= _) as [e|d] in |- *; [by eexists|].
  unfold build_policy.
  destruct (PolicySet_new_facts registry (b_resources b) (b_classes b)) as (P & -> & _).
  cbn [mbind option_bind]. destruct (_ ≫= _) as [e|P'] in |- *; by eexists.
Qed.

Lemma capacity_of_positive n : 1 ≤ n → capacity_of n = Bounded n.
Proof. intros H. unfold capacity_of. by rewrite decide_False by lia. Qed.

Lemma host_slot t cpu shared dedicated pool slots :
  (pool, slots) ∈ host_slots t cpu shared dedicated →
  list_to_map (M := gmap string N) (host_slots t cpu shared dedicated) !! pool = Some slots.
Proof. intros H. apply elem_of_list_to_map_1; [apply host_slots_names|done]. Qed.

(** C35: A built runtime is what was declared.  A build that succeeds had no duplicate
    registration and a valid topology; its governor runs a validated policy with the
    registered classes; its executor submits without blocking and declares exactly
    the workers of one host domain; and the capacity of every pool is the declared
    number, zero meaning unbounded, the CPU gate, the two physical domains and the
    executor's own domain being bounded by the resolved worker counts.  With either
    default executor a build never panics. *)
Theorem build_faithful default available registry next b :
  ((∀ c s, 1 ≤ c → 1 ≤ s → is_Some (default c s)) →
   is_Some (build default available registry next b)) ∧
  ∀ rt next', build default available registry next b = Some (inr rt, next') →
    let P := gv_policy (rt_governor rt) in
    b_registration_error b = None ∧ topology_wf (b_topology b) ∧
    policy_wf P ∧ ps_classes P = b_classes b ∧ cfg_classes (rt_config rt) = b_classes b ∧
    ∃ cpu shared dedicated domain workers,
      cpu = resolved_cpu_workers (b_topology b) available ∧
      try_resolved_physical_domain (b_topology b) PHYSICAL_SHARED_BLOCKING available = inr shared ∧
      try_resolved_physical_domain (b_topology b) PHYSICAL_DEDICATED available = inr dedicated ∧
      (∀ pool, capability_capacity P pool =
         match list_to_map (M := gmap string N)
                 (host_slots (b_topology b) cpu shared dedicated) !! pool with
         | Some slots => Some (capacity_of slots)
         | None => capacity_of <$> b_capability_limits b !! pool
         end) ∧
      ec_nonblocking_submit (rt_cpu_capabilities rt) = true ∧
      ec_physical_domain (rt_cpu_capabilities rt) = Some domain ∧
      ec_declared_workers (rt_cpu_capabilities rt) = Some workers ∧
      1 ≤ workers ∧ capability_capacity P domain = Some (Bounded workers).
Proof.
  split; [apply build_total|]. intros rt next' H P.
  destruct (build_inr _ _ _ _ _ _ _ H) as (cpu & shared & dedicated & [Hw He Hp Hwf Hc]).
  apply build_workers_inr in Hw as (Hr & Ht & -> & Hs & Hd & Rc & Rs & Rd).
  apply build_policy_inr in Hp as (_ & Ec & _ & _ & Hcap); [|tauto..]. fold P in Ec, Hwf, Hcap.
  apply validate_executor_inr in He as [Hn He]; [|tauto..].
  do 5 (split; [done|]).
  assert (∃ domain workers, ec_physical_domain (rt_cpu_capabilities rt) = Some domain ∧
      ec_declared_workers (rt_cpu_capabilities rt) = Some workers ∧ 1 ≤ workers ∧
      capability_capacity P domain = Some (Bounded workers)) as (domain & workers & H1 & H2 & H3 & H4).
  { destruct He as [[H1 H2]|[H1 H2]]; eexists _, _; (split; [exact H1|]); (split; [exact H2|]);
      (split; [tauto|]); rewrite Hcap.
    - by rewrite (host_slot _ _ _ _ _ shared), capacity_of_positive by (tauto || set_solver).
    - rewrite (host_slot _ _ _ _ _ (N.max (resolved_cpu_workers (b_topology b) available) 1))
        by set_solver. rewrite capacity_of_positive by lia. do 2 f_equal. lia. }
  exists (resolved_cpu_workers (b_topology b) available), shared, dedicated, domain, workers.
  repeat (split; [done|]). done.
Qed.

(** ** Plans *)

(** Which stack requests a path takes, and what it charges. *)
Definition stack_fits (path : RunPath) (stack : option N) : Prop :=
  match path, stack with
  | RunBlocking, None => True
  | RunBlocking, Some n | RunRequestedStack, Some n => 1 ≤ n ≤ MAX_REQUESTED_STACK_BYTES
  | RunRequestedStack, None => False
  | _, Some _ => False
  | _, None => True
  end.

Definition path_charges (path : RunPath) (spec : TaskSpec) (cpu_domain : string) : list string :=
  match path, ts_stack_size_bytes spec with
  | RunIo, _ => []
  | RunCpu, _ => ["cpu"; cpu_domain]
  | RunLocal, _ => ["local_runtime"]
  | RunBlocking, None =>
    (option_list (hint_capability_pool (primary_substrate_hint spec)) ++ [PHYSICAL_SHARED_BLOCKING])%list
  | RunBlocking, Some _ | RunRequestedStack, _ => ["large_stack"; PHYSICAL_DEDICATED]
  end%string.

(** A class that is known and cannot enforce a deadline. *)
Definition deadline_refused (rt : TokioRuntime) (spec : TaskSpec) (opts : SubmitOptions) : Prop :=
  ∃ policy, cfg_classes (rt_config rt) !! ts_class spec = Some policy ∧
    cancellation_policy policy ≠ CooperativeWithDeadline ∧ so_deadline opts ≠ None.

Lemma check_deadline_inr rt spec opts :
  check_deadline spec opts (cancellation_policy <$> cfg_classes (rt_config rt) !! ts_class spec) =
    inr () ↔ ¬ deadline_refused rt spec opts.
Proof.
  unfold check_deadline, deadline_refused.
  destruct (cfg_classes (rt_config rt) !! ts_class spec) as [p|]; cbn.
  2: { split; [|done]. intros _ (p & [=] & _). }
  destruct (so_deadline opts) as [d|].
  2: { split; [|done]. intros _ (p' & _ & _ & H). by destruct H. }
  destruct (cancellation_policy p) eqn:E; cbn; (split; [|try done]).
  all: try (intros [=]; fail).
  1,2: intros H; destruct H; exists p; split_and!; congruence.
  intros _ (p' & [= <-] & H & _). by destruct H.
Qed.

(** Short lists of requirements always fit. *)
Lemma from_resolved_short caps :
  (length caps ≤ 32)%nat → ∃ ids, from_resolved caps = inr ids.
Proof.
  intros Hl. pose proof (from_resolved_spec caps) as H.
  destruct (from_resolved caps) as [e|ids]; [|by eexists]. exfalso.
  destruct H as (_ & ids & Hnd & Hlen & H).
  assert (length (Registered <$> ids) ≤ length caps)%nat as Hle.
  { apply NoDup_subset_length.
    - apply NoDup_fmap_2; [|done]. by intros ?? [= ->].
    - intros c (id & -> & Hid)%list_elem_of_fmap. by apply H. }
  rewrite length_fmap in Hle. unfold MAX_CAPABILITY_REQUIREMENTS in Hlen. lia.
Qed.

Lemma elem_of_option_list {A} (x : A) o : x ∈ option_list o ↔ o = Some x.
Proof.
  destruct o as [y|]; cbn; [|by split; [intros ?%elem_of_nil|]].
  rewrite list_elem_of_singleton. naive_solver.
Qed.

Section runtime.
Context (registry available : N) (b : Builder) (rt : TokioRuntime) (cpu shared dedicated : N).
Context (Hb : built_from registry available b rt cpu shared dedicated).
Let P : PolicySet := gv_policy (rt_governor rt).

Lemma built_domain_resolves domain :
  domain ∈ [PHYSICAL_SHARED_BLOCKING; PHYSICAL_CPU; PHYSICAL_DEDICATED] →
  ∃ c, resolve_capability P domain = inr c.
Proof.
  intros Hd. destruct Hb as [Hw _ Hp Hwf _].
  apply build_workers_inr in Hw as (_ & _ & _ & _ & _ & _ & Rs & Rd).
  apply build_policy_inr in Hp as (_ & _ & _ & Hs & _); [|tauto..].
  by eapply (iw_authorities _ (pw_inventory _ Hwf)); [by apply Hs|..].
Qed.

Lemma built_cpu_domain :
  ∃ domain, ec_physical_domain (rt_cpu_capabilities rt) = Some domain ∧
    domain ∈ [PHYSICAL_SHARED_BLOCKING; PHYSICAL_CPU; PHYSICAL_DEDICATED].
Proof.
  destruct Hb as [Hw He _ _ _]. apply build_workers_inr in Hw as (_ & _ & _ & _ & _ & Rc & Rs & _).
  apply validate_executor_inr in He as [_ [[E _]|[E _]]]; [..|tauto|tauto];
    eexists; (split; [exact E|set_solver]).
Qed.

Lemma resolve_all_total names :
  (∀ name, name ∈ names → ∃ c, resolve_capability P name = inr c) →
  ∃ caps, resolve_all P names = inr caps ∧ length caps = length names.
Proof.
  induction names as [|name names IH]; intros H; cbn; [by eexists|].
  destruct (H name) as [c ->]; [by left|]. destruct IH as (caps & -> & Hl); [intros; apply H; by right|].
  exists (c :: caps). cbn. by rewrite Hl.
Qed.

(** The pools and domains of a path resolve. *)
Lemma built_names_resolve spec dispatch cpu_domain dedicated_thread :
  cpu_domain ∈ [PHYSICAL_SHARED_BLOCKING; PHYSICAL_CPU; PHYSICAL_DEDICATED] →
  ∃ resolved ids,
    resolve_all P (option_list (plan_capability dedicated_thread (primary_substrate_hint spec)) ++
                   option_list (plan_domain dispatch cpu_domain)) = inr resolved ∧
    from_resolved resolved = inr ids.
Proof.
  intros Hcpu. destruct (resolve_all_total
    (option_list (plan_capability dedicated_thread (primary_substrate_hint spec)) ++
     option_list (plan_domain dispatch cpu_domain))) as (caps & -> & Hl).
  - intros name [Hn|Hn]%elem_of_app; apply elem_of_option_list in Hn.
    + unfold plan_capability in Hn.
      destruct dedicated_thread; eapply validated_pool; try exact Hn; apply (pw_inventory _ (bf_wf _ _ _ _ _ _ _ Hb)).
    + apply built_domain_resolves. destruct dispatch; simplify_eq/=; set_solver.
  - destruct (from_resolved_short caps) as [ids Hids]; [|eauto].
    rewrite Hl, length_app. destruct (plan_capability _ _), (plan_domain _ _); cbn; lia.
Qed.
End runtime.

(** The shape of each path's plans. *)
Lemma path_stack path spec :
  primary_substrate_hint spec ∈ path_allowed path →
  match ts_stack_size_bytes spec with
  | Some n => is_dedicated (plan_dispatch (wants_dedicated spec) (path_dispatch path)) = true ∧
              1 ≤ n ≤ MAX_REQUESTED_STACK_BYTES
  | None => plan_dispatch (wants_dedicated spec) (path_dispatch path) ≠
              DispatchKind.DedicatedStackRuntime
  end ↔ stack_fits path (ts_stack_size_bytes spec).
Proof.
  unfold wants_dedicated, plan_dispatch. intros Hin.
  destruct (ts_stack_size_bytes spec) as [n|]; [rewrite (bool_decide_eq_true_2 (is_Some (Some n))) by done|];
    destruct path; cbn in *;
    try (apply list_elem_of_singleton in Hin; rewrite Hin; cbn); try naive_solver.
  repeat (apply elem_of_cons in Hin as [->|Hin]; [cbn; naive_solver|]). by apply elem_of_nil in Hin.
Qed.

Lemma path_names path spec cpu_domain :
  primary_substrate_hint spec ∈ path_allowed path → stack_fits path (ts_stack_size_bytes spec) →
  option_list (plan_capability (wants_dedicated spec) (primary_substrate_hint spec)) ++
  option_list (plan_domain (plan_dispatch (wants_dedicated spec) (path_dispatch path)) cpu_domain) =
  path_charges path spec cpu_domain.
Proof.
  unfold wants_dedicated, plan_capability, path_charges. intros Hin Hs.
  destruct (ts_stack_size_bytes spec) as [n|]; [rewrite (bool_decide_eq_true_2 (is_Some (Some n))) by done|];
    destruct path; try done; cbn in *;
    try (apply list_elem_of_singleton in Hin; rewrite Hin; done).
  repeat (apply elem_of_cons in Hin as [->|Hin]; [done|]). by apply elem_of_nil in Hin.
Qed.

(** When a built runtime plans a submission. *)
Lemma built_plan_ok default available registry next b rt next' spec opts path :
  build default available registry next b = Some (inr rt, next') →
  (∃ p, plan rt spec opts path = inr p) ↔
    plan_wf spec ∧ primary_substrate_hint spec ∈ path_allowed path ∧
    stack_fits path (ts_stack_size_bytes spec) ∧ ¬ deadline_refused rt spec opts.
Proof.
  intros H. destruct (build_inr _ _ _ _ _ _ _ H) as (cpu & shared & dedicated & Hb).
  destruct (built_cpu_domain _ _ _ _ _ _ _ Hb) as (cpu_domain & Ed & Hd).
  unfold plan. rewrite Ed. split.
  - intros (p & (Hwf & Hh & Hs & Hdl & _)%preflight_inr).
    apply plan_stack_size_inr in Hs as [_ Hs]. apply check_deadline_inr in Hdl.
    split_and!; [done..|by apply path_stack|done].
  - intros (Hwf & Hh & Hs & Hdl).
    destruct (built_names_resolve _ _ _ _ _ _ _ Hb spec
      (plan_dispatch (wants_dedicated spec) (path_dispatch path)) cpu_domain
      (wants_dedicated spec) Hd) as (resolved & ids & Hr & Hi).
    eexists (mkPlan (mkValidated spec) ids _ _ _ _). apply preflight_inr. cbn.
    split; [done|]. split; [done|]. split; [|split; [by apply check_deadline_inr|split; [by eauto|done]]].
    apply plan_stack_size_inr. split; [reflexivity|]. by apply path_stack.
Qed.

(** C36: On a built runtime planning is exact.  A submission is planned if and only if
    its task is well-formed, its hint belongs to the path, its stack request fits the
    path and its class does not refuse its deadline: no plan fails for want of a
    capability.  The plan carries the task, the stack size and the deadline it was
    given, and charges exactly the pools its dispatch will occupy: any stack request
    charges the large-stack pool and the dedicated domain, whatever the hint. *)
Theorem built_plans default available registry next b rt next' spec opts path :
  build default available registry next b = Some (inr rt, next') →
  ∃ cpu_domain, ec_physical_domain (rt_cpu_capabilities rt) = Some cpu_domain ∧
    ((∃ p, plan rt spec opts path = inr p) ↔
       plan_wf spec ∧ primary_substrate_hint spec ∈ path_allowed path ∧
       stack_fits path (ts_stack_size_bytes spec) ∧ ¬ deadline_refused rt spec opts) ∧
    ∀ p, plan rt spec opts path = inr p →
      as_spec (vp_task p) = spec ∧
      validate_requirements (gv_policy (rt_governor rt)) (vp_requirements p) = inr () ∧
      (∀ pool, pool ∈ cap_name <$> vp_requirements p ↔ pool ∈ path_charges path spec cpu_domain) ∧
      vp_stack_size p = mkStackSize <$> ts_stack_size_bytes spec ∧
      (is_Some (cfg_classes (rt_config rt) !! ts_class spec) → vp_deadline p = so_deadline opts).
Proof.
  intros H. destruct (build_inr _ _ _ _ _ _ _ H) as (cpu & shared & dedicated & Hb).
  destruct (built_cpu_domain _ _ _ _ _ _ _ Hb) as (cpu_domain & Ed & Hd).
  exists cpu_domain. split; [done|]. split; [by eapply built_plan_ok|]. unfold plan. rewrite Ed.
    intros p (Hwf & Hh & Hs & Hdl & (resolved & Hr & Hi) & Et & Edp & _ & Edl)%preflight_inr.
    apply plan_stack_size_inr in Hs as [Es Hs]. apply check_deadline_inr in Hdl.
    destruct (resolved_requirements _ _ _ _ Hr Hi) as [Hv Hn].
    split; [by rewrite Et|]. split; [done|]. split; [|split; [done|]].
    + intros pool. rewrite Hn, path_names; [done..|]. by apply path_stack.
    + intros [policy Hp]. rewrite Edl, Hp. cbn.
      destruct (cancellation_policy policy) eqn:Ec; cbn; [| |done];
        (destruct (so_deadline opts) eqn:Eo; [|done]); destruct Hdl; exists policy; split_and!; congruence.
Qed.

(** ** A concrete host *)

Local Open Scope string_scope.

(** A class that takes deadlines, on a machine of four cores. *)
Definition demo_builder : Builder :=
  class_policy "query" (mkClassPolicy 4 8 (mkPermitCost 1 1) Fifo Estimated OnTaskCompletion
    OvercommitReject QueueWithinDepth RetryNone CooperativeWithDeadline CheckpointPolicy_default false)
    (with_topology (mkTopology CpuPoolConfig_default 8 2 0 0 PhysicalDomainTopology_default) Builder_new).

Definition demo_build : option ((GovernorError + TokioRuntime) * N) :=
  build default_cpu_executor_tokio 4 7 1 demo_builder.

(** A blocking job that asks for 1 MiB of stack under a background hint. *)
Definition demo_stack_spec : TaskSpec := {|
  ts_class := "query"; ts_operation := "op"; ts_root_operation_id := "op";
  ts_source := "internal"; ts_reason := ExplicitMapping; ts_scope := Root;
  ts_stack_size_bytes := Some 1048576;
  ts_stages := [mkStage "query" "background" BackgroundOnly false None];
|}.

Lemma demo_builds : ∃ rt, demo_build = Some (inr rt, 2).
Proof.
  assert (match demo_build with Some (inr _, n) => (n =? 2)%N | _ => false end = true) as H
    by (vm_compute; reflexivity).
  destruct demo_build as [[[e|rt] n]|]; [done| |done]. apply N.eqb_eq in H as ->. by exists rt.
Qed.

Lemma build_faithful_witness :
  ∃ rt, demo_build = Some (inr rt, 2) ∧ policy_wf (gv_policy (rt_governor rt)) ∧
    capability_capacity (gv_policy (rt_governor rt)) "large_stack" = Some (Bounded 2) ∧
    capability_capacity (gv_policy (rt_governor rt)) "maintenance" = Some ExplicitUnbounded.
Proof.
  destruct demo_builds as [rt H]. exists rt. split; [exact H|].
  destruct (build_faithful default_cpu_executor_tokio 4 7 1 demo_builder) as [_ Hf].
  destruct (Hf rt 2 H) as (_ & _ & Hwf & _ & _ & cpu & shared & dedicated & domain & workers &
    _ & _ & _ & Hcap & _).
  split; [exact Hwf|]. rewrite !Hcap. split.
  - rewrite (host_slot _ _ _ _ "large_stack" 2) by (do 5 right; left). reflexivity.
  - rewrite (host_slot _ _ _ _ "maintenance" 0) by (do 6 right; left). reflexivity.
Defined.

Lemma built_plans_witness :
  ∃ rt p, demo_build = Some (inr rt, 2) ∧
    plan rt demo_stack_spec unbounded RunBlocking = inr p ∧
    (∀ pool, pool ∈ cap_name <$> vp_requirements p ↔ pool ∈ ["large_stack"; PHYSICAL_DEDICATED]).
Proof.
  destruct demo_builds as [rt H].
  destruct (built_plans default_cpu_executor_tokio 4 7 1 demo_builder rt 2 demo_stack_spec unbounded
    RunBlocking H) as (cpu_domain & _ & [_ Hp] & Hc).
  destruct Hp as [p Hp].
  - split; [apply validate_task_spec_inr; vm_compute; reflexivity|].
    split; [right; right; left|]. split; [split; vm_compute; discriminate|].
    intros (policy & _ & _ & Hd). by destruct Hd.
  - exists rt, p. split; [exact H|]. split; [exact Hp|]. apply (Hc p Hp).
Defined.
