(* ===== verification/Ingress.v ===== *)
(** * Strict ingress

    crates/taskmesh/src/ingress.rs: the bounded JSON boundary that promotes bytes
    into a task plan or a deployment configuration.  The JSON parser is a library:
    what it delivers to the scanning visitor is a [Json] tree that may stop in a
    syntax error at any point, and what the derived deserializers build from the
    bytes is an argument. *)

From S2P Require Import Prelude Contract Text Validation Topology Kernel Errors Arbiter Executors.
From S2P Require Import PolicyCheck Requirements State Assess Fairness Admission Memory Governor.
From S2P Require Import Policies Plan Build Builds.

(** ** Limits and errors *)

Record StrictIngressLimits := mkLimits { max_bytes : N; max_depth : N; max_stages : N }.
Definition StrictIngressLimits_default : StrictIngressLimits := mkLimits (N.shiftl 1 20) 32 64.

Inductive StrictIngressError :=
  | InvalidLimit (name : string)
  | ByteLimit (actual max : N)
  | DepthLimit (max : N)
  | StageLimit (max : N)
  | DuplicateKey (key : string)
  | UnknownKey (object key : string)
  | InvalidShape (shape : string)
  | Decode (error : string)
  | TaskPlan (error : TaskPlanError)
  | BlockingDispatch (error : string).

(** ** Shapes *)

Module Shape.
Inductive t :=
  | Task | Scope | Child | Stages | Stage | Reduce | BlockingDispatch | RequestedStack | Config
  | Topology | Cpu | CpuMode | PhysicalDomains | PhysicalMode | Resources | MemoryScale | Classes
  | ClassPolicy | RetryAfter | PermitCost | Fairness | Wfq | Drr | DeadlineAware | Overcommit
  | Degrade | Checkpoint | Substrates | Substrate | CapabilityLimits | Scalar.

Definition name (s : t) : string :=
  match s with
  | Task => "task"
  | Scope => "scope"
  | Child => "child"
  | Stages => "stages"
  | Stage => "stage"
  | Reduce => "reduce_policy"
  | BlockingDispatch => "blocking_dispatch"
  | RequestedStack => "requested_stack"
  | Config => "runtime config"
  | Topology => "topology"
  | Cpu => "cpu topology"
  | CpuMode => "cpu mode"
  | PhysicalDomains => "physical_domains"
  | PhysicalMode => "physical domain mode"
  | Resources => "resources"
  | MemoryScale => "memory_unit_scale"
  | Classes => "classes"
  | ClassPolicy => "class policy"
  | RetryAfter => "retry_after_policy"
  | PermitCost => "permit_cost"
  | Fairness => "fairness"
  | Wfq => "WeightedFairQueue"
  | Drr => "DeficitRoundRobin"
  | DeadlineAware => "DeadlineAware"
  | Overcommit => "memory_overcommit_policy"
  | Degrade => "DegradeToLight"
  | Checkpoint => "checkpoint_policy"
  | Substrates => "extra_substrates"
  | Substrate => "substrate"
  | CapabilityLimits => "capability_limits"
  | Scalar => "scalar"
  end.

(** [scalars.contains(key).then_some(Scalar)]. *)
Definition scalar (keys : list string) (key : string) : option t :=
  if decide (key ∈ keys) then Some Scalar else None.

(** One entry of a table: a key with a shape of its own. *)
Definition nested (entries : list (string * t)) (otherwise : option t) (key : string) : option t :=
  match List.find (λ e, bool_decide (e.1 = key)) entries with
  | Some (_, s) => Some s
  | None => otherwise
  end.

(** [Shape::field]. *)
Definition field (s : t) (key : string) : option t :=
  match s with
  | Task =>
    nested [("scope", Scope); ("blocking_dispatch", BlockingDispatch); ("stages", Stages)]
      (scalar ["class"; "operation"; "root_operation_id"; "source"; "reason"] key) key
  | Scope => nested [("Child", Child)] None key
  | Child => scalar ["parent_operation_id"; "parent_stage"; "parent_awaits"] key
  | Stage =>
    nested [("reduce_policy", Reduce)]
      (scalar ["class"; "stage"; "substrate_hint"; "fan_out"] key) key
  | Reduce =>
    scalar ["stable_sort_key"; "duplicate_merge"; "tie_break"; "error_aggregation";
            "partial_result_ordering"] key
  | BlockingDispatch => nested [("requested_stack", RequestedStack)] None key
  | RequestedStack => scalar ["stack_size_bytes"] key
  | Config =>
    nested [("topology", Topology); ("resources", Resources); ("classes", Classes);
            ("extra_substrates", Substrates); ("capability_limits", CapabilityLimits)] None key
  | Topology =>
    nested [("cpu", Cpu); ("physical_domains", PhysicalDomains)]
      (scalar ["blocking_threads"; "large_stack_slots"; "maintenance_workers";
               "local_runtime_slots"] key) key
  | Cpu =>
    nested [("mode", CpuMode)] (scalar ["reserve_cores"; "min_workers"; "max_workers"] key) key
  | PhysicalDomains => nested [("shared_blocking", PhysicalMode); ("dedicated", PhysicalMode)] None key
  | CpuMode | PhysicalMode => scalar ["Fixed"] key
  | Resources =>
    nested [("memory_unit_scale", MemoryScale)]
      (scalar ["max_cpu_units"; "max_memory_units"; "per_request_max_cpu_units";
               "per_request_max_memory_units"] key) key
  | MemoryScale => scalar ["bytes_per_unit"] key
  | Classes => Some ClassPolicy
  | ClassPolicy =>
    nested [("permit_cost", PermitCost); ("fairness", Fairness);
            ("memory_overcommit_policy", Overcommit); ("retry_after_policy", RetryAfter);
            ("checkpoint_policy", Checkpoint)]
      (scalar ["max_inflight"; "max_queue_depth"; "memory_permit_mode"; "memory_release_policy";
               "overflow_policy"; "cancellation_policy"; "best_effort"] key) key
  | RetryAfter => scalar ["FixedMs"] key
  | PermitCost => scalar ["cpu_units"; "memory_units"] key
  | Fairness =>
    nested [("WeightedFairQueue", Wfq); ("DeficitRoundRobin", Drr);
            ("DeadlineAware", DeadlineAware)] None key
  | Wfq => scalar ["weight"; "burst"] key
  | Drr => scalar ["quantum"] key
  | DeadlineAware => scalar ["slack_ms"] key
  | Overcommit => nested [("DegradeToLight", Degrade)] None key
  | Degrade => scalar ["fallback_class"] key
  | Checkpoint =>
    scalar ["every_n_work_items"; "before_fan_out"; "before_large_allocation";
            "before_stage_boundary"; "before_reduce"] key
  | Substrate => scalar ["name"; "kind"; "capability_pool"] key
  | CapabilityLimits => Some Scalar
  | Stages | Substrates | Scalar => None
  end%string.
End Shape.
Abbreviation Shape := Shape.t.
#[export] Instance Shape_eq_dec : EqDecision Shape.
Proof. solve_decision. Defined.

(** ** What the JSON library delivers

    A value as its deserializer visits it.  [JFault] is a value the library cannot
    begin or finish to deliver; the [rest] of a container is the error met where its
    next element was expected, [None] being its closing bracket. *)

Inductive Json :=
  | JScalar
  | JFault (error : string)
  | JArray (items : list Json) (rest : option string)
  | JObject (entries : list (string * Json)) (rest : option string).

(** A failed scan: a rejection recorded in [ScanState::failure], or an error of the
    library. *)
Inductive ScanError := Strict (e : StrictIngressError) | Syntax (e : string).

(** The library's [?] at the end of a container. *)
Definition closed (rest : option string) : ScanError + () :=
  match rest with None => inr () | Some e => inl (Syntax e) end.

(** [usize] increments. *)
Definition next (n : N) : N := wadd USIZE_MAX n 1.

(** The shape of the elements of an array. *)
Definition element_shape (s : Shape) : option Shape :=
  match s with
  | Shape.Stages => Some Shape.Stage
  | Shape.Substrates => Some Shape.Substrate
  | _ => None
  end.

(** The shapes [visit_map] refuses. *)
Definition not_an_object (s : Shape) : bool :=
  match s with Shape.Scalar | Shape.Stages | Shape.Substrates => true | _ => false end.

(** ** The scanner *)

Section scan.
Context (limits : StrictIngressLimits).

Section visit.
Context (visit : Shape → N → Json → ScanError + ()) (shape : Shape) (depth : N).

(** The loop of [visit_map]. *)
Fixpoint scan_entries (seen : list string) (entries : list (string * Json))
    (rest : option string) {struct entries} : ScanError + () :=
  match entries with
  | [] => closed rest
  | (key, value) :: entries' =>
    if decide (key ∈ seen) then inl (Strict (DuplicateKey key))
    else match Shape.field shape key with
         | None => inl (Strict (UnknownKey (Shape.name shape) key))
         | Some s =>
           _ ← visit s (next depth) value;
           scan_entries (key :: seen) entries' rest
         end
  end.

(** The loop of [visit_seq], with [RejectStageSeed]. *)
Fixpoint scan_items (element : Shape) (count : N) (items : list Json) (rest : option string)
    {struct items} : ScanError + () :=
  match items with
  | [] => closed rest
  | item :: items' =>
    if bool_decide (shape = Shape.Stages) && bool_decide (count = max_stages limits)
    then inl (Strict (StageLimit (max_stages limits)))
    else
      _ ← visit element (next depth) item;
      scan_items element (next count) items' rest
  end.
End visit.

(** [ScanSeed::deserialize]: the visitor's method for the value found. *)
Fixpoint scan_value (shape : Shape) (depth : N) (v : Json) {struct v} : ScanError + () :=
  match v with
  | JScalar => inr ()
  | JFault e => inl (Syntax e)
  | JObject entries rest =>
    if decide (max_depth limits < depth) then inl (Strict (DepthLimit (max_depth limits)))
    else if not_an_object shape then inl (Strict (InvalidShape (Shape.name shape)))
    else scan_entries scan_value shape depth [] entries rest
  | JArray items rest =>
    if decide (max_depth limits < depth) then inl (Strict (DepthLimit (max_depth limits)))
    else match element_shape shape with
         | None => inl (Strict (InvalidShape (Shape.name shape)))
         | Some element => scan_items scan_value shape depth element 0 items rest
         end
  end.

(** The checks of [scan] before the first byte is read. *)
Definition check_limits : StrictIngressError + () :=
  if decide (max_bytes limits = 0) then inl (InvalidLimit "max_bytes")
  else if decide (max_depth limits = 0) then inl (InvalidLimit "max_depth")
  else if decide (max_stages limits = 0) then inl (InvalidLimit "max_stages")
  else inr ().

(** [scan], over the value the bytes hold and the error met after it, if any. *)
Definition scan (length : N) (document : Json * option string) (shape : Shape)
  : StrictIngressError + () :=
  _ ← check_limits;
  if decide (max_bytes limits < length) then inl (ByteLimit length (max_bytes limits))
  else
    match (_ ← scan_value shape 1 document.1; closed document.2) with
    | inl (Strict error) => inl error
    | inl (Syntax error) => inl (Decode error)
    | inr () => inr ()
    end.
End scan.

(** ** Wire inputs *)

Inductive StrictScope :=
  | StrictRoot
  | StrictChild (parent_operation_id : string) (parent_stage : TaskStage) (parent_awaits : bool).

Inductive StrictBlockingDispatch :=
  | SharedBlocking
  | RequestedStack (stack_size_bytes : N).

Record StrictTaskInput := mkTaskInput {
  ti_class : TaskClass;
  ti_operation : string;
  ti_root_operation_id : string;
  ti_source : PlanSource;
  ti_reason : ClassificationRationale;
  ti_scope : StrictScope;
  ti_blocking_dispatch : option StrictBlockingDispatch;
  ti_stages : list StageDescriptor;
}.

Record StrictRuntimeInput := mkRuntimeInput {
  ri_topology : TopologyConfig;
  ri_resources : ResourceBudget;
  ri_classes : gmap string ClassPolicy;
  ri_extra_substrates : list SubstrateRecord;
  ri_capability_limits : gmap string N;
}.

(** [validate_requested_stack_size]. *)
Definition validate_requested_stack_size (size usize_max : N) : StrictIngressError + N :=
  if decide (size = 0 ∨ MAX_REQUESTED_STACK_BYTES < size ∨ usize_max < size) then
    inl (BlockingDispatch "requested stack size is not representable and within the supported bound")
  else inr size.

(** The [blocking_family] of [parse_task_spec]. *)
Definition blocking_first (stages : list StageDescriptor) : bool :=
  match sd_substrate_hint <$> head stages with
  | Some hint => blocking_family hint
  | None => false
  end.

(** Its stack size, from the dispatch tag. *)
Definition ingress_stack (stages : list StageDescriptor) (dispatch : option StrictBlockingDispatch)
  : StrictIngressError + option N :=
  match blocking_first stages, dispatch with
  | true, Some SharedBlocking | false, None => inr None
  | true, Some (RequestedStack size) =>
    n ← validate_requested_stack_size size usize_max_as_u64; inr (Some n)
  | true, None => inl (BlockingDispatch "blocking-family task requires an explicit dispatch tag")
  | false, Some _ =>
    inl (BlockingDispatch "non-blocking task must not declare blocking dispatch")
  end.

Definition ingress_scope (s : StrictScope) : TaskScope :=
  match s with
  | StrictRoot => Root
  | StrictChild parent stage awaits => Child parent stage awaits
  end.

(** [.map_err(StrictIngressError::..)] of a library's or the contract's result. *)
Definition decoded {A} (r : string + A) : StrictIngressError + A :=
  match r with inl e => inl (Decode e) | inr x => inr x end.
Definition planned {A} (r : TaskPlanError + A) : StrictIngressError + A :=
  match r with inl e => inl (TaskPlan e) | inr x => inr x end.

Section parse.
Context (document : list Byte.byte → Json * option string).
Context (decode_task : list Byte.byte → string + StrictTaskInput).
Context (decode_runtime : list Byte.byte → string + StrictRuntimeInput).

(** [parse_task_spec] after its decoding. *)
Definition task_from_input (input : StrictTaskInput) : StrictIngressError + ValidatedTaskPlan :=
  stack_size_bytes ← ingress_stack (ti_stages input) (ti_blocking_dispatch input);
  planned (ValidatedTaskPlan_try_from {|
    ts_class := ti_class input;
    ts_operation := ti_operation input;
    ts_root_operation_id := ti_root_operation_id input;
    ts_source := ti_source input;
    ts_reason := ti_reason input;
    ts_scope := ingress_scope (ti_scope input);
    ts_stack_size_bytes := stack_size_bytes;
    ts_stages := ti_stages input;
  |}).

(** [parse_task_spec]. *)
Definition parse_task_spec (bytes : list Byte.byte) (limits : StrictIngressLimits)
  : StrictIngressError + ValidatedTaskPlan :=
  _ ← scan limits (N.of_nat (length bytes)) (document bytes) Shape.Task;
  input ← decoded (decode_task bytes);
  task_from_input input.

(** [parse_runtime_config]. *)
Definition parse_runtime_config (bytes : list Byte.byte) (limits : StrictIngressLimits)
  : StrictIngressError + StrictRuntimeInput :=
  _ ← scan limits (N.of_nat (length bytes)) (document bytes) Shape.Config;
  decoded (decode_runtime bytes).
End parse.

(** [StrictRuntimeConfig::into_builder]. *)
Definition into_builder (input : StrictRuntimeInput) : Builder :=
  let builder := with_resources (ri_resources input)
                   (with_topology (ri_topology input) Builder_new) in
  let builder := foldl (λ b e, class_policy e.1 e.2 b) builder (btree_to_list (ri_classes input)) in
  let builder := foldl (λ b r, with_substrate r b) builder (ri_extra_substrates input) in
  foldl (λ b e, capability_limit e.1 e.2 b) builder (btree_to_list (ri_capability_limits input)).

(** ** What a conforming document is *)

(** Every object has known, distinct keys, every array is one of the two lists and
    within the stage limit, nothing is nested below the depth limit, and no byte of
    it is a syntax error. *)
Inductive conforms (limits : StrictIngressLimits) : Shape → N → Json → Prop :=
  | conforms_scalar s d : conforms limits s d JScalar
  | conforms_object s d entries :
    d ≤ max_depth limits → not_an_object s = false →
    NoDup entries.*1 →
    (∀ key value, (key, value) ∈ entries → is_Some (Shape.field s key)) →
    (∀ key value s', (key, value) ∈ entries → Shape.field s key = Some s' →
       conforms limits s' (d + 1) value) →
    conforms limits s d (JObject entries None)
  | conforms_array s d items element :
    d ≤ max_depth limits → element_shape s = Some element →
    (s = Shape.Stages → N.of_nat (length items) ≤ max_stages limits) →
    (∀ item, item ∈ items → conforms limits element (d + 1) item) →
    conforms limits s d (JArray items None).

(** Induction through the nested lists. *)
Lemma Json_nested_ind (P : Json → Prop) :
  P JScalar → (∀ e, P (JFault e)) →
  (∀ items rest, Forall P items → P (JArray items rest)) →
  (∀ entries rest, Forall (λ e, P e.2) entries → P (JObject entries rest)) →
  ∀ v, P v.
Proof.
  intros Hs Hf Ha Ho. fix IH 1. intros [|e|items rest|entries rest]; [done|done|..].
  - apply Ha. induction items; constructor; auto.
  - apply Ho. induction entries as [|[key value]]; constructor; auto.
Qed.

Lemma closed_inr rest : closed rest = inr () ↔ rest = None.
Proof. by destruct rest. Qed.

Section scan_facts.
Context (limits : StrictIngressLimits) (Hdepth : max_depth limits < USIZE_MAX)
  (Hstages : max_stages limits ≤ USIZE_MAX).

Lemma next_small n : n < USIZE_MAX → next n = n + 1.
Proof. intros H. apply wadd_small. lia. Qed.

Lemma scan_entries_inr visit shape depth seen entries rest :
  scan_entries visit shape depth seen entries rest = inr () ↔
  rest = None ∧ NoDup entries.*1 ∧ (∀ key, key ∈ entries.*1 → key ∉ seen) ∧
  Forall (λ e, ∃ s, Shape.field shape e.1 = Some s ∧ visit s (next depth) e.2 = inr ()) entries.
Proof.
  revert seen. induction entries as [|[key value] entries IH]; intros seen; cbn.
  { rewrite closed_inr. split; [|tauto]. intros ->.
    split_and!; [done|constructor|by intros ? ?%elem_of_nil|constructor]. }
  rewrite NoDup_cons, Forall_cons. cbn. setoid_rewrite elem_of_cons. case_decide as Hs.
  { split; [done|]. intros (_ & _ & H & _). by destruct (H key); [left|]. }
  destruct (Shape.field shape key) as [s|]; [|naive_solver].
  rewrite result_bind_inr. setoid_rewrite IH. setoid_rewrite elem_of_cons. split.
  - intros ([] & Hv & -> & Hnd & Hseen & Hall). split_and!; [done| |done| |by exists s|done].
    + intros Hin. by apply (Hseen key Hin); left.
    + intros k [->|Hk]; [done|]. intros Hin. by apply (Hseen k Hk); right.
  - intros (-> & [Hni Hnd] & Hseen & (s' & [= <-] & Hv) & Hall). exists ().
    split_and!; [done..| |done]. intros k Hk [->|Hin]; [done|]. by apply (Hseen k); [right|].
Qed.

Lemma scan_items_inr visit shape depth element count items rest :
  (shape = Shape.Stages → count ≤ max_stages limits) →
  scan_items limits visit shape depth element count items rest = inr () ↔
  rest = None ∧
  (shape = Shape.Stages → count + N.of_nat (length items) ≤ max_stages limits) ∧
  Forall (λ item, visit element (next depth) item = inr ()) items.
Proof.
  revert count. induction items as [|item items IH]; intros count Hc; cbn [scan_items].
  { rewrite closed_inr. split; [|tauto]. intros ->. split_and!; [done| |constructor].
    intros Hs. specialize (Hc Hs). cbn. lia. }
  rewrite Forall_cons. cbn [length]. destruct (decide (shape = Shape.Stages)) as [Es|Es].
  - rewrite (bool_decide_eq_true_2 _ Es). specialize (Hc Es). cbn [andb].
    case_bool_decide as Em; [split; [done|intros (_ & H & _); specialize (H Es); lia]|].
    rewrite result_bind_inr. rewrite next_small with (n := count) by lia.
    setoid_rewrite IH; [|intros; lia]. split.
    + intros ([] & Hv & -> & Hl & Hall). split_and!; [done| |done|done].
      intros _. specialize (Hl Es). lia.
    + intros (-> & Hl & Hv & Hall). exists (). split_and!; [done|done| |done].
      intros _. specialize (Hl Es). lia.
  - rewrite (bool_decide_eq_false_2 _ Es). cbn [andb].
    rewrite result_bind_inr. setoid_rewrite IH; [|by intros]. split.
    + intros ([] & Hv & -> & Hl & Hall). by split_and!.
    + intros (-> & Hl & Hv & Hall). exists (). by split_and!.
Qed.

Lemma scan_value_inr v : ∀ s d, scan_value limits s d v = inr () ↔ conforms limits s d v.
Proof.
  induction v as [|e|items rest IH|entries rest IH] using Json_nested_ind; intros s d;
    try rewrite Forall_forall in IH; cbn [scan_value].
  - split; [constructor|done].
  - split; [done|by inversion 1].
  - case_decide as Hd; [split; [done|inversion 1; lia]|].
    destruct (element_shape s) as [element|] eqn:Ee; [|split; [done|inversion 1; congruence]].
    rewrite scan_items_inr by (intros; lia). rewrite next_small by lia.
    rewrite Forall_forall. split.
    + intros (-> & Hl & Hall). econstructor; [lia|done|done|]. intros item Hi.
      apply IH; auto.
    + inversion 1; simplify_eq. split_and!; [done|done|]. intros item Hi. apply IH; auto.
  - case_decide as Hd; [split; [done|inversion 1; lia]|].
    destruct (not_an_object s) eqn:Es; [split; [done|inversion 1; congruence]|].
    rewrite scan_entries_inr. rewrite next_small by lia. rewrite Forall_forall. split.
    + intros (-> & Hnd & _ & Hall). constructor; [lia|done|done|..].
      * intros key value Hin. destruct (Hall _ Hin) as (s' & ? & _). by exists s'.
      * intros key value s' Hin Hf. destruct (Hall _ Hin) as (s2 & Hf2 & Hv). cbn in *.
        simplify_eq. by apply (IH _ Hin).
    + inversion 1 as [|? ? ? _ _ Hnd Hf Hv|]; subst. split_and!; [done|done| |].
      * intros key _. apply not_elem_of_nil.
      * intros [key value] Hin. destruct (Hf _ _ Hin) as [s' Hs']. exists s'. split; [done|].
        apply (IH _ Hin). by eapply Hv.
Qed.
End scan_facts.

(** ** Exactness *)

(** Limits are [usize]s; the depth counter of the scan does not wrap. *)
Record limits_typed (limits : StrictIngressLimits) : Prop := {
  lt_depth : max_depth limits < USIZE_MAX;
  lt_stages : max_stages limits ≤ USIZE_MAX;
}.

(** The bytes [scan] lets through. *)
Definition within_limits (limits : StrictIngressLimits) (length : N)
    (document : Json * option string) (shape : Shape) : Prop :=
  max_bytes limits ≠ 0 ∧ max_depth limits ≠ 0 ∧ max_stages limits ≠ 0 ∧
  length ≤ max_bytes limits ∧ conforms limits shape 1 document.1 ∧ document.2 = None.

Lemma scan_inr limits length document shape :
  limits_typed limits →
  scan limits length document shape = inr () ↔ within_limits limits length document shape.
Proof.
  intros [Hd Hs]. unfold scan, within_limits, check_limits.
  rewrite <-(scan_value_inr limits Hd Hs document.1), <-(closed_inr document.2).
  destruct (decide (max_bytes limits = 0)) as [|H1]; [cbn; split; [done|tauto]|].
  destruct (decide (max_depth limits = 0)) as [|H2]; [cbn; split; [done|tauto]|].
  destruct (decide (max_stages limits = 0)) as [|H3]; [cbn; split; [done|tauto]|]. cbn [mbind result_bind].
  destruct (decide (max_bytes limits < length)) as [|Hl%N.nlt_ge].
  { split; [done|]. intros (_ & _ & _ & ? & _). lia. }
  destruct (scan_value _ _ _ _) as [[]|[]]; cbn; [naive_solver..|].
  destruct (closed _) as [[]|[]]; naive_solver.
Qed.

(** The task a wire input declares, and the dispatch tags it may carry. *)
Definition declared_spec (input : StrictTaskInput) : TaskSpec := {|
  ts_class := ti_class input;
  ts_operation := ti_operation input;
  ts_root_operation_id := ti_root_operation_id input;
  ts_source := ti_source input;
  ts_reason := ti_reason input;
  ts_scope := ingress_scope (ti_scope input);
  ts_stack_size_bytes :=
    match ti_blocking_dispatch input with Some (RequestedStack size) => Some size | _ => None end;
  ts_stages := ti_stages input;
|}.

Definition tag_fits (input : StrictTaskInput) : Prop :=
  match ti_blocking_dispatch input with
  | None => blocking_family (primary_substrate_hint (declared_spec input)) = false
  | Some SharedBlocking => blocking_family (primary_substrate_hint (declared_spec input)) = true
  | Some (RequestedStack size) =>
    blocking_family (primary_substrate_hint (declared_spec input)) = true ∧
    1 ≤ size ≤ MAX_REQUESTED_STACK_BYTES
  end.

Lemma blocking_first_hint input :
  blocking_first (ti_stages input) = blocking_family (primary_substrate_hint (declared_spec input)).
Proof. unfold blocking_first, primary_substrate_hint. cbn. by destruct (ti_stages input). Qed.

Lemma validate_requested_stack_size_inr size n :
  validate_requested_stack_size size usize_max_as_u64 = inr n ↔
  n = size ∧ 1 ≤ size ≤ MAX_REQUESTED_STACK_BYTES.
Proof.
  unfold validate_requested_stack_size.
  assert (MAX_REQUESTED_STACK_BYTES < usize_max_as_u64) as Hm by (by vm_compute).
  case_decide; split; intros H'; try done; simplify_eq.
  - destruct H' as [_ ?]. lia.
  - split; [done|lia].
  - by destruct H' as [-> _].
Qed.

Lemma ingress_stack_inr input stack :
  ingress_stack (ti_stages input) (ti_blocking_dispatch input) = inr stack ↔
  tag_fits input ∧ stack = ts_stack_size_bytes (declared_spec input).
Proof.
  unfold ingress_stack, tag_fits. rewrite blocking_first_hint. cbn [declared_spec ts_stack_size_bytes].
  generalize (blocking_family (primary_substrate_hint (declared_spec input))). intros family.
  destruct family, (ti_blocking_dispatch input) as [[|size]|]; cbn;
    rewrite ?result_bind_inr; try setoid_rewrite validate_requested_stack_size_inr; naive_solver.
Qed.

Lemma task_from_input_inr input plan :
  task_from_input input = inr plan ↔
  tag_fits input ∧ plan_wf (declared_spec input) ∧ as_spec plan = declared_spec input.
Proof.
  unfold task_from_input. rewrite <-validate_task_spec_inr, result_bind_inr.
  setoid_rewrite ingress_stack_inr.
  assert (∀ spec, planned (ValidatedTaskPlan_try_from spec) = inr plan ↔
    validate_task_spec spec = inr () ∧ as_spec plan = spec) as Hp.
  { intros spec. unfold ValidatedTaskPlan_try_from. destruct (validate_task_spec spec) as [|[]]; cbn;
      [naive_solver|]. destruct plan; cbn. naive_solver. }
  setoid_rewrite Hp. split.
  - by intros (stack & [Ht ->] & Hv & Hs).
  - intros (Ht & Hv & Hs). by eexists.
Qed.

(** The run path a hint is for. *)
Definition hint_path (hint : SubstrateHint) : RunPath :=
  match hint with
  | AsyncIo => RunIo
  | BlockingPool | LargeStackCapability | BackgroundOnly => RunBlocking
  | SharedCpuExecutor => RunCpu
  | LocalRuntime => RunLocal
  end.

Lemma hint_path_allows hint : hint ∈ path_allowed (hint_path hint).
Proof. destruct hint; cbn; set_solver. Qed.

Lemma tag_fits_stack input :
  tag_fits input →
  stack_fits (hint_path (primary_substrate_hint (declared_spec input)))
    (ts_stack_size_bytes (declared_spec input)).
Proof.
  unfold tag_fits. cbn [declared_spec ts_stack_size_bytes].
  generalize (primary_substrate_hint (declared_spec input)). intros hint.
  destruct (ti_blocking_dispatch input) as [[|size]|], hint; cbn; naive_solver.
Qed.

Lemma decoded_inr {A} (r : string + A) x : decoded r = inr x ↔ r = inr x.
Proof. destruct r; cbn; naive_solver. Qed.

(** C38: Strict task ingress is exact and its product runs.  A task is accepted if and
    only if the limits are set, the bytes fit them, every object and array of the
    document conforms to the declared shapes, the library decodes it, it carries a
    dispatch tag precisely when its hint is of the blocking family, a requested stack
    is supported, and the declared task is well-formed; the accepted plan is that
    task.  Every built runtime plans an accepted task on the run path of its hint. *)
Theorem parse_task_spec_exact document decode_task bytes limits task :
  limits_typed limits →
  (parse_task_spec document decode_task bytes limits = inr task ↔
   within_limits limits (N.of_nat (length bytes)) (document bytes) Shape.Task ∧
   ∃ input, decode_task bytes = inr input ∧ tag_fits input ∧
     plan_wf (declared_spec input) ∧ as_spec task = declared_spec input) ∧
  (parse_task_spec document decode_task bytes limits = inr task →
   ∀ default available registry next b rt next',
     build default available registry next b = Some (inr rt, next') →
     ∃ p, plan rt (as_spec task) unbounded (hint_path (primary_substrate_hint (as_spec task))) = inr p).
Proof.
  intros Hl.
  assert (parse_task_spec document decode_task bytes limits = inr task ↔
   within_limits limits (N.of_nat (length bytes)) (document bytes) Shape.Task ∧
   ∃ input, decode_task bytes = inr input ∧ tag_fits input ∧
     plan_wf (declared_spec input) ∧ as_spec task = declared_spec input) as H.
  { unfold parse_task_spec. rewrite <-scan_inr by done. rewrite result_bind_inr.
    setoid_rewrite result_bind_inr. setoid_rewrite decoded_inr. setoid_rewrite task_from_input_inr.
    split; [intros ([] & ? & ?); done|intros [? ?]; by exists ()]. }
  split; [done|]. intros (_ & input & _ & Ht & Hwf & ->)%H default available registry next b rt next' Hb.
  apply (built_plan_ok _ _ _ _ _ _ _ _ _ _ Hb). split; [done|]. split; [apply hint_path_allows|].
  split; [by apply tag_fits_stack|]. by intros (? & _ & _ & Hd).
Qed.

(** Distinct registrations are all kept. *)
Lemma class_policies_fold entries b :
  NoDup entries.*1 → (∀ class, class ∈ entries.*1 → b_classes b !! class = None) →
  foldl (λ b e, class_policy e.1 e.2 b) b entries =
    mkBuilder (b_topology b) (b_resources b) (list_to_map entries ∪ b_classes b) (b_substrates b)
      (b_capability_limits b) (b_registration_error b) (b_cpu_executor b).
Proof.
  revert b. induction entries as [|[class p] entries IH]; intros b Hnd Hfresh; cbn.
  { rewrite (left_id_L ∅ (∪)). by destruct b. }
  cbn in Hnd, Hfresh. apply NoDup_cons in Hnd as [Hni Hnd]. setoid_rewrite elem_of_cons in Hfresh.
  unfold class_policy at 2. rewrite (Hfresh class) by by left. rewrite IH; [|done|]; cbn.
  - rewrite <-insert_union_r by by apply not_elem_of_list_to_map_1. by rewrite insert_union_l.
  - intros k Hk. rewrite lookup_insert_ne by (by intros ->). apply Hfresh. by right.
Qed.

Lemma capability_limits_fold entries b :
  NoDup entries.*1 → (∀ pool, pool ∈ entries.*1 → b_capability_limits b !! pool = None) →
  foldl (λ b e, capability_limit e.1 e.2 b) b entries =
    mkBuilder (b_topology b) (b_resources b) (b_classes b) (b_substrates b)
      (list_to_map entries ∪ b_capability_limits b) (b_registration_error b) (b_cpu_executor b).
Proof.
  revert b. induction entries as [|[pool n] entries IH]; intros b Hnd Hfresh; cbn.
  { rewrite (left_id_L ∅ (∪)). by destruct b. }
  cbn in Hnd, Hfresh. apply NoDup_cons in Hnd as [Hni Hnd]. setoid_rewrite elem_of_cons in Hfresh.
  unfold capability_limit at 2. rewrite (Hfresh pool) by by left. rewrite IH; [|done|]; cbn.
  - rewrite <-insert_union_r by by apply not_elem_of_list_to_map_1. by rewrite insert_union_l.
  - intros k Hk. rewrite lookup_insert_ne by (by intros ->). apply Hfresh. by right.
Qed.

Lemma substrates_fold rs b :
  foldl (λ b r, with_substrate r b) b rs =
    mkBuilder (b_topology b) (b_resources b) (b_classes b) (b_substrates b ++ rs)
      (b_capability_limits b) (b_registration_error b) (b_cpu_executor b).
Proof.
  revert b. induction rs as [|r rs IH]; intros b; cbn; [rewrite app_nil_r; by destruct b|].
  rewrite IH. cbn. by rewrite <-app_assoc.
Qed.

(** C39: Strict configuration ingress loses nothing.  A configuration is accepted if and
    only if its bytes are within the limits, conform to the declared shapes and
    decode; the builder made of it holds exactly the declared topology, budget,
    classes, extra substrates and capability limits, with no registration refused. *)
Theorem parse_runtime_config_exact document decode_runtime bytes limits input :
  limits_typed limits →
  (parse_runtime_config document decode_runtime bytes limits = inr input ↔
   within_limits limits (N.of_nat (length bytes)) (document bytes) Shape.Config ∧
   decode_runtime bytes = inr input) ∧
  into_builder input =
    mkBuilder (ri_topology input) (ri_resources input) (ri_classes input)
      (ri_extra_substrates input) (ri_capability_limits input) None None.
Proof.
  intros Hl. split.
  - unfold parse_runtime_config. rewrite <-scan_inr by done. rewrite result_bind_inr. setoid_rewrite decoded_inr.
    split; [intros ([] & ? & ?); done|intros [? ?]; by exists ()].
  - unfold into_builder. rewrite class_policies_fold; [|apply btree_to_list_NoDup|done].
    rewrite substrates_fold, capability_limits_fold; [|apply btree_to_list_NoDup|done].
    cbn. by rewrite !list_to_btree, !(right_id_L ∅ (∪)).
Qed.

(** ** Concrete documents *)

Section demo.
Local Open Scope string_scope.

(** A background task that asks for a 1 MiB stack:
    {"class":"query",..,"blocking_dispatch":{"requested_stack":{"stack_size_bytes":..}},..}. *)
Definition demo_task_document : Json :=
  JObject [("class", JScalar); ("operation", JScalar); ("root_operation_id", JScalar);
    ("source", JScalar); ("reason", JScalar); ("scope", JScalar);
    ("blocking_dispatch", JObject [("requested_stack", JObject [("stack_size_bytes", JScalar)] None)] None);
    ("stages", JArray [JObject [("class", JScalar); ("stage", JScalar); ("substrate_hint", JScalar);
       ("fan_out", JScalar)] None] None)] None.

Definition demo_task_input : StrictTaskInput :=
  mkTaskInput "query" "op" "op" "internal" ExplicitMapping StrictRoot
    (Some (RequestedStack 1048576)) [mkStage "query" "background" BackgroundOnly false None].

Lemma default_limits_typed : limits_typed StrictIngressLimits_default.
Proof. split; by vm_compute. Qed.

Lemma demo_task_spec : declared_spec demo_task_input = demo_stack_spec.
Proof. reflexivity. Qed.

Lemma demo_task_within : within_limits StrictIngressLimits_default 0 (demo_task_document, None) Shape.Task.
Proof. apply scan_inr; [apply default_limits_typed|]. vm_compute. reflexivity. Qed.
End demo.

Lemma parse_task_spec_exact_witness :
  parse_task_spec (λ _, (demo_task_document, None)) (λ _, inr demo_task_input) []
    StrictIngressLimits_default = inr (mkValidated demo_stack_spec) ∧
  ∃ rt, demo_build = Some (inr rt, 2) ∧ ∃ p, plan rt demo_stack_spec unbounded RunBlocking = inr p.
Proof.
  destruct (parse_task_spec_exact (λ _, (demo_task_document, None)) (λ _, inr demo_task_input) []
    StrictIngressLimits_default (mkValidated demo_stack_spec) default_limits_typed) as [[_ H] Hp].
  assert (parse_task_spec (λ _, (demo_task_document, None)) (λ _, inr demo_task_input) []
    StrictIngressLimits_default = inr (mkValidated demo_stack_spec)) as E.
  { apply H. split; [apply demo_task_within|]. exists demo_task_input. split; [reflexivity|].
    split; [split; [reflexivity|split; vm_compute; discriminate]|].
    split; [apply validate_task_spec_inr; vm_compute; reflexivity|reflexivity]. }
  split; [exact E|]. destruct demo_builds as [rt Hb]. exists rt. split; [exact Hb|].
  exact (Hp E default_cpu_executor_tokio 4 7 1 demo_builder rt 2 Hb).
Defined.

Lemma parse_runtime_config_exact_witness :
  let input := mkRuntimeInput TopologyConfig_new ResourceBudget_new ∅ [] {["gpu"%string := 2]} in
  parse_runtime_config (λ _, (JObject [("topology"%string, JObject [] None)] None, None))
    (λ _, inr input) [] StrictIngressLimits_default = inr input ∧
  b_capability_limits (into_builder input) !! "gpu"%string = Some 2.
Proof.
  cbv zeta.
  destruct (parse_runtime_config_exact
    (λ _, (JObject [("topology"%string, JObject [] None)] None, None))
    (λ _, inr (mkRuntimeInput TopologyConfig_new ResourceBudget_new ∅ [] {["gpu"%string := 2]})) []
    StrictIngressLimits_default
    (mkRuntimeInput TopologyConfig_new ResourceBudget_new ∅ [] {["gpu"%string := 2]})
    default_limits_typed) as [[_ H] Hb].
  split; [|by rewrite Hb]. apply H. split; [|reflexivity].
  apply scan_inr; [apply default_limits_typed|]. vm_compute. reflexivity.
Defined.
