(* ===== verification/Books.v ===== *)
(** * Same books: states that differ only in scheduling data

    Selection, tagging and the clock move virtual time, finish tags, deficits,
    the ring cursor and the watermark, and nothing a permit, a ticket or a total
    depends on.  [same_books] is that equivalence; the readers of the state the
    invariants are built from are [Proper] for it, and every scheduling operation
    of Fairness.v stays inside its class. *)

From S2P Require Import Prelude Contract Text Kernel State Assess Fairness.

#[global] Arguments grant : simpl never.
#[global] Arguments unwind_charges : simpl never.
#[global] Arguments class_state : simpl never.
#[global] Arguments class_refund : simpl never.
#[global] Arguments class_mut : simpl never.
#[global] Arguments class_alter : simpl never.

(** ** Forgetting the scheduling data *)

Definition untag (r : PendingRequest) : PendingRequest :=
  upd_pr_finish_tag (λ _, 0) (upd_pr_wfq_arrival_tag (λ _, 0) r).

Definition class_books (c : ClassState) : ClassState :=
  upd_cs_queue (map untag)
    (upd_cs_last_finish_tag (λ _, 0)
       (upd_cs_last_served_finish_tag (λ _, 0) (upd_cs_deficit (λ _, 0) c))).

Definition state_books (s : GovernedState) : GovernedState :=
  upd_gs_classes (λ _, ∅)
    (upd_gs_virtual_time (λ _, 0)
       (upd_gs_drr_cursor (λ _, None)
          (upd_gs_commit_watermark_ms (λ _, 0)
             (upd_gs_promotion_pending (λ _, false) (upd_gs_drr_ring_visits (λ _, 0) s))))).

Definition same_books (s s' : GovernedState) : Prop :=
  state_books s = state_books s' ∧
  ∀ class, class_books (class_state s class) = class_books (class_state s' class).

#[export] Instance same_books_equivalence : Equivalence same_books.
Proof.
  split.
  - by intros s.
  - intros s s' [E Ec]. split; [done|]. intros class. by rewrite Ec.
  - intros s1 s2 s3 [E1 Ec1] [E2 Ec2]. split; [by rewrite E1|]. intros class.
    by rewrite Ec1.
Qed.

(** The queue of a class as the invariants see it. *)
Definition waiting (s : GovernedState) (class : TaskClass) : list PendingRequest :=
  map untag (cs_queue (class_state s class)).

(** ** Readers *)

Ltac solve_books :=
  let H := fresh in
  intros ?? [H _]; first [by apply (f_equal gs_permits) in H
    | by apply (f_equal gs_tickets) in H | by apply (f_equal gs_roots) in H
    | by apply (f_equal gs_cpu_units_held) in H
    | by apply (f_equal gs_memory_units_held) in H
    | by apply (f_equal gs_capability_in_use) in H
    | by apply (f_equal gs_operation_permits) in H
    | by apply (f_equal gs_queued_operation_identities) in H
    | by apply (f_equal gs_active_recursion) in H
    | by apply (f_equal gs_next_queue_order) in H
    | by apply (f_equal gs_terminal_order) in H
    | by apply (f_equal gs_terminal_index) in H
    | by apply (f_equal gs_terminal_seq) in H
    | by apply (f_equal gs_accounting_fault) in H
    | by apply (f_equal gs_admission_closed) in H].

#[export] Instance books_permits : Proper (same_books ==> eq) gs_permits.
Proof. solve_books. Qed.
#[export] Instance books_tickets : Proper (same_books ==> eq) gs_tickets.
Proof. solve_books. Qed.
#[export] Instance books_roots : Proper (same_books ==> eq) gs_roots.
Proof. solve_books. Qed.
#[export] Instance books_cpu : Proper (same_books ==> eq) gs_cpu_units_held.
Proof. solve_books. Qed.
#[export] Instance books_memory : Proper (same_books ==> eq) gs_memory_units_held.
Proof. solve_books. Qed.
#[export] Instance books_capability : Proper (same_books ==> eq) gs_capability_in_use.
Proof. solve_books. Qed.
#[export] Instance books_operations : Proper (same_books ==> eq) gs_operation_permits.
Proof. solve_books. Qed.
#[export] Instance books_queued_operations :
  Proper (same_books ==> eq) gs_queued_operation_identities.
Proof. solve_books. Qed.
#[export] Instance books_recursion : Proper (same_books ==> eq) gs_active_recursion.
Proof. solve_books. Qed.
#[export] Instance books_queue_order : Proper (same_books ==> eq) gs_next_queue_order.
Proof. solve_books. Qed.
#[export] Instance books_terminal_order : Proper (same_books ==> eq) gs_terminal_order.
Proof. solve_books. Qed.
#[export] Instance books_terminal_index : Proper (same_books ==> eq) gs_terminal_index.
Proof. solve_books. Qed.
#[export] Instance books_terminal_seq : Proper (same_books ==> eq) gs_terminal_seq.
Proof. solve_books. Qed.
#[export] Instance books_fault : Proper (same_books ==> eq) gs_accounting_fault.
Proof. solve_books. Qed.
#[export] Instance books_closed : Proper (same_books ==> eq) gs_admission_closed.
Proof. solve_books. Qed.

Lemma books_class {A} (f : ClassState → A) s s' class :
  (∀ c, f (class_books c) = f c) → same_books s s' →
  f (class_state s class) = f (class_state s' class).
Proof.
  intros Hf [_ E]. rewrite <-(Hf (class_state s class)), <-(Hf (class_state s' class)).
  by rewrite E.
Qed.

#[export] Instance books_waiting : Proper (same_books ==> eq ==> eq) waiting.
Proof.
  intros s s' H class ? <-. destruct H as [_ E]. specialize (E class).
  by apply (f_equal cs_queue) in E.
Qed.

(** ** Class entries *)

Lemma class_state_mut class f s class' :
  class_state (class_mut class f s) class' =
    if decide (class' = class) then f (class_state s class) else class_state s class'.
Proof.
  unfold class_state, class_mut; simpl. case_decide as E.
  - subst. by rewrite lookup_insert_eq.
  - by rewrite lookup_insert_ne by congruence.
Qed.

Lemma class_state_alter class f s class' :
  class_state (class_alter class f s) class' =
    match gs_classes s !! class with
    | Some c => if decide (class' = class) then f c else class_state s class'
    | None => class_state s class'
    end.
Proof.
  unfold class_state, class_alter; simpl. destruct (gs_classes s !! class) as [c|] eqn:E.
  - case_decide as E'.
    + subst. by rewrite lookup_alter_eq, E.
    + by rewrite lookup_alter_ne by congruence.
  - f_equal. destruct (decide (class = class')) as [<-|].
    + by rewrite lookup_alter_eq, E.
    + by rewrite lookup_alter_ne.
Qed.

Lemma class_state_Some s class c : gs_classes s !! class = Some c → class_state s class = c.
Proof. unfold class_state. by intros ->. Qed.

Lemma inflight_class_state s class : inflight s class = cs_inflight (class_state s class).
Proof. unfold inflight, class_state. by destruct (_ !! _). Qed.

(** A class update that keeps the books of the class keeps those of the state. *)
Lemma same_books_class_mut class f s :
  class_books (f (class_state s class)) = class_books (class_state s class) →
  same_books (class_mut class f s) s.
Proof.
  intros Hf. split; [done|]. intros class'. rewrite class_state_mut.
  case_decide; [by subst|done].
Qed.

(** ** The operations of Fairness.v and the clock *)

Lemma commit_time_books sampled s : same_books (commit_time sampled s).2 s.
Proof. by split. Qed.

Lemma rebase_class_books origin c : class_books (rebase_class origin c) = class_books c.
Proof.
  assert (∀ q, map untag (map (rebase_request origin) q) = map untag q) as E.
  { induction q as [|r q IH]; [done|]. cbn. by rewrite IH. }
  transitivity (upd_cs_queue
    (λ _, map untag (map (rebase_request origin) (cs_queue c))) (class_books c)); [done|].
  by rewrite E.
Qed.

Lemma rebase_books s : same_books (rebase_virtual_time s) s.
Proof.
  split; [done|]. intros class. unfold rebase_virtual_time, class_state; simpl.
  rewrite lookup_fmap. destruct (_ !! _) as [c|]; simpl; [|done].
  apply rebase_class_books.
Qed.

Lemma reprice_books weight cursor q : map untag (reprice weight cursor q).1 = map untag q.
Proof.
  revert cursor. induction q as [|r q IH]; intros cursor; [done|]. cbn [reprice].
  destruct (reprice _ _ q) as [q' cursor'] eqn:E; cbn. f_equal.
  specialize (IH (saturating_add U128_MAX (N.max cursor (pr_wfq_arrival_tag r))
                    (wfq_increment (rc_cpu_units (pr_cost r)) weight))).
  by rewrite E in IH.
Qed.

Lemma rebuild_books weight virtual_time c :
  class_books (rebuild_wfq_queue weight virtual_time c) = class_books c.
Proof.
  unfold rebuild_wfq_queue.
  pose proof (reprice_books weight (cs_last_served_finish_tag c) (cs_queue c)) as E.
  destruct (reprice _ _ _) as [q cursor].
  transitivity (upd_cs_queue (λ _, map untag q) (class_books c)); [done|].
  by rewrite (E : map untag q = _).
Qed.

Lemma enqueue_tags_books s class policy cost now :
  same_books (enqueue_tags s class policy cost now).2 s.
Proof.
  unfold enqueue_tags. destruct (fairness policy); try done.
  destruct (checked_add _ _ _); cbn [snd].
  - rewrite same_books_class_mut by (rewrite class_state_mut, decide_True by done; done).
    by apply same_books_class_mut.
  - rewrite same_books_class_mut by (rewrite class_state_mut, decide_True by done; done).
    rewrite same_books_class_mut by done. rewrite rebase_books.
    by apply same_books_class_mut.
Qed.

Lemma on_unserved_removed_books class policy s : same_books (on_unserved_removed class policy s) s.
Proof.
  apply same_books_class_mut. destruct (cs_queue _) eqn:E; [done|].
  destruct (fairness policy); try done. apply rebuild_books.
Qed.

Lemma on_request_served_books class policy index tag s :
  same_books (on_request_served class policy index tag s) s.
Proof.
  apply same_books_class_mut. destruct (cs_queue _) eqn:E; [done|].
  case_decide; [|done]. destruct (fairness policy); try done.
  by rewrite rebuild_books.
Qed.

Lemma credit_books len pos vs s : same_books (foldl (credit_visit len pos) s vs) s.
Proof.
  revert s. induction vs as [|v vs IH]; intros s; [done|]. cbn. rewrite IH.
  unfold credit_visit. case_decide; [done|]. by apply same_books_class_mut.
Qed.

Lemma drr_walk_books s pool class s' :
  drr_walk s pool = Some (class, s') → same_books s' s.
Proof.
  unfold drr_walk. destruct (plan_from _ _ _ _ _) as [plan|]; [|done]; cbn [mbind option_bind].
  destruct plan as [|v0 vs]; [by intros [= <- <-]|].
  destruct (List.find _ _) as [w|]; intros [= <- <-]; [|done].
  transitivity (foldl (credit_visit (length pool) (min_pos (vi_visit_pos v0) vs))
    (upd_gs_drr_ring_visits (λ n, saturating_add U64_MAX n (N.of_nat (length pool))) s)
    (v0 :: vs)).
  - match goal with |- same_books (upd_gs_drr_cursor _ ?x) _ => transitivity x; [by split|] end.
    by apply same_books_class_mut.
  - rewrite credit_books. by split.
Qed.

Lemma drr_select_books s pool class s' :
  drr_select s pool = Some (class, s') → same_books s' s.
Proof.
  unfold drr_select. destruct pool as [|c0 pool]; [by intros [= <- <-]|].
  destruct (gs_drr_cursor s) as [cur|]; [|apply drr_walk_books].
  destruct (List.find _ _) as [c|]; [|apply drr_walk_books].
  case_decide; [|apply drr_walk_books]. intros [= <- <-]. by apply same_books_class_mut.
Qed.

(** Selection only moves scheduling data. *)
Lemma select_books s P sel s' : select s P = Some (sel, s') → same_books s' s.
Proof.
  unfold select. set (pool := List.filter _ _). clearbody pool.
  destruct pool as [|c0 pool]; [by intros [= <- <-]|].
  intros H.
  apply bind_Some in H as ([chosen s1] & Hchoose & H).
  assert (same_books s1 s) as Hs1.
  { destruct (ca_fairness c0);
      first [by eapply drr_select_books | by cbn in Hchoose; simplify_eq]. }
  destruct chosen as [chosen|]; [|by simplify_eq].
  rewrite <-Hs1. clear Hs1.
  destruct (List.find _ (runnable_candidates s P)) as [c|] in H; simplify_eq;
    (destruct (ca_fairness c0); [done| |done|done|done];
     destruct (List.find _ _); [by split|done]).
Qed.
