(* ===== verification/Custody.v ===== *)
(** * Who holds a ticket

    A ticket is waiting in the queue of one class, or is bound to one live permit
    (granted or being claimed), or is settled (terminal, faulted, unknown).
    [custody] is that view; [custody_ok] says it agrees with the queues and with
    the permits' own back references, so that no ticket is lost, answered twice
    or shared.  One lemma per kind of transition keeps it. *)

From S2P Require Import Prelude Contract Text Kernel State Assess Fairness Admission Books.

Inductive Custody :=
  | Holds (pid : PermitId)
  | Waits (class : TaskClass).

Definition ticket_custody (st : TicketState) : option Custody :=
  match st with
  | TQueued class => Some (Waits class)
  | TGranted pid | TClaiming pid => Some (Holds pid)
  | TTerminal _ | TFaulted => None
  end.
Definition custody (s : GovernedState) (t : Ticket) : option Custody :=
  gs_tickets s !! t ≫= ticket_custody.

#[export] Instance custody_books : Proper (same_books ==> eq ==> eq) custody.
Proof. intros s s' H t ? <-. unfold custody. by rewrite H. Qed.

(** Where custody may go: a waiting ticket may be promoted, any ticket may settle,
    and a settled one stays settled; a ticket is never bound to another permit. *)
Inductive custody_forward : option Custody → option Custody → Prop :=
  | forward_same c : custody_forward c c
  | forward_settled c : custody_forward c None
  | forward_promoted class pid : custody_forward (Some (Waits class)) (Some (Holds pid)).

#[export] Instance custody_forward_refl : Reflexive custody_forward.
Proof. constructor. Qed.
#[export] Instance custody_forward_trans : Transitive custody_forward.
Proof. intros c1 c2 c3 [] H; [done|inversion H; constructor|inversion H; constructor]. Qed.
#[export] Instance custody_forward_preorder : PreOrder custody_forward.
Proof. split; apply _. Qed.

Definition forward (s s' : GovernedState) : Prop :=
  ∀ t, custody_forward (custody s t) (custody s' t).

(** What a queued request carries: its class has a policy, and its cost is the
    one the policy fixes. *)
Record request_ok (P : PolicySet) (class : TaskClass) (r : PendingRequest) : Prop := {
  request_class : pr_class r = class;
  request_policy : ∃ policy, ps_class P class = Some policy ∧ pr_cost r = resolve_cost policy;
  request_capabilities : NoDup (pr_capabilities r);
  request_wait : pr_blocked_on r ≠ BlockOk;
}.

Record custody_ok (P : PolicySet) (s : GovernedState) : Prop := {
  custody_live t pid :
    custody s t = Some (Holds pid) ↔
    ∃ r, gs_permits s !! pid = Some r ∧ rec_pending_ticket r = Some t;
  custody_queued t class :
    custody s t = Some (Waits class) ↔ t ∈ pr_ticket <$> waiting s class;
  custody_nodup class : NoDup (pr_ticket <$> waiting s class);
  custody_request class r : r ∈ waiting s class → request_ok P class r;
  custody_fresh class r : r ∈ waiting s class → gs_permits s !! pr_permit_id r = None;
  custody_reserved class class' r r' :
    r ∈ waiting s class → r' ∈ waiting s class' → pr_permit_id r = pr_permit_id r' →
    pr_ticket r = pr_ticket r';
}.

#[export] Instance custody_ok_books P : Proper (same_books ==> iff) (custody_ok P).
Proof.
  assert (∀ s s', same_books s s' → custody_ok P s → custody_ok P s') as H.
  { intros s s' H []. split; setoid_rewrite <-H; done. }
  intros s s' Hs. split; apply H; [done|by symmetry].
Qed.

(** ** Consequences *)

Section facts.
Context {P : PolicySet} {s : GovernedState} (HC : custody_ok P s).

(** A ticket waits in one place only. *)
Lemma waiting_unique class class' r r' :
  r ∈ waiting s class → r' ∈ waiting s class' → pr_ticket r = pr_ticket r' →
  class = class' ∧ r = r'.
Proof.
  intros Hr Hr' E.
  assert (custody s (pr_ticket r) = Some (Waits class)) as E1
    by (apply HC; by apply list_elem_of_fmap_2).
  assert (custody s (pr_ticket r') = Some (Waits class')) as E2
    by (apply HC; by apply list_elem_of_fmap_2).
  assert (class = class') as <- by congruence. split; [done|].
  eapply (NoDup_fmap_inj pr_ticket); [apply HC|done..].
Qed.

(** A permit identity is reserved by one queued request at most. *)
Lemma reserved_unique class class' r r' :
  r ∈ waiting s class → r' ∈ waiting s class' → pr_permit_id r = pr_permit_id r' →
  class = class' ∧ r = r'.
Proof. intros. eapply waiting_unique; [done..|]. by eapply (custody_reserved _ _ HC). Qed.

(** A ticket is bound to one permit, and a permit answers one ticket. *)
Lemma holds_unique t pid pid' :
  custody s t = Some (Holds pid) → custody s t = Some (Holds pid') → pid = pid'.
Proof. congruence. Qed.

Lemma pending_holds pid r t :
  gs_permits s !! pid = Some r → rec_pending_ticket r = Some t → custody s t = Some (Holds pid).
Proof. intros. apply HC. by exists r. Qed.

(** Dequeuing request [i] of a class leaves exactly the other requests. *)
Lemma waiting_delete class i r r' :
  waiting s class !! i = Some r →
  r' ∈ delete i (waiting s class) ↔ r' ∈ waiting s class ∧ pr_ticket r' ≠ pr_ticket r.
Proof. intros. apply elem_of_delete_keyed; [apply HC|done]. Qed.
End facts.

(** ** Growth

    What a section may add: permits up to a number, under identities already
    reserved by the queue, and no ticket; and where every ticket may go. *)

Definition known (s : GovernedState) (pid : PermitId) : Prop :=
  is_Some (gs_permits s !! pid) ∨ ∃ class q, q ∈ waiting s class ∧ pr_permit_id q = pid.

Definition no_new_tickets (s s' : GovernedState) : Prop :=
  ∀ t, gs_tickets s !! t = None → gs_tickets s' !! t = None.

Record grows (n : nat) (s s' : GovernedState) : Prop := {
  grows_size : (size (gs_permits s') ≤ size (gs_permits s) + n)%nat;
  grows_forward : forward s s';
  grows_tickets : no_new_tickets s s';
  grows_known pid : known s' pid → known s pid;
}.

Lemma grows_refl n s : grows n s s.
Proof. split; [lia|by intros t|by intros t|done]. Qed.
Lemma grows_trans n m s1 s2 s3 : grows n s1 s2 → grows m s2 s3 → grows (n + m) s1 s3.
Proof.
  intros [? F1 T1 K1] [? F2 T2 K2]. split; [lia| | |eauto].
  - intros t. eapply custody_forward_trans; eauto.
  - intros t Ht. by apply T2, T1.
Qed.
Lemma grows_mono n m s s' : (n ≤ m)%nat → grows n s s' → grows m s s'.
Proof. intros ? []. split; [lia|done..]. Qed.

#[export] Instance known_books : Proper (same_books ==> eq ==> iff) known.
Proof. intros s s' H pid ? <-. unfold known. by setoid_rewrite H. Qed.
Lemma grows_books n s s' : same_books s' s → grows n s s'.
Proof.
  intros H. split; [rewrite H; lia|intros t; by rewrite H|intros t; by rewrite H|].
  intros pid. by rewrite H.
Qed.

Lemma grows_intro n s s' :
  (size (gs_permits s') ≤ size (gs_permits s) + n)%nat →
  (∀ pid, is_Some (gs_permits s' !! pid) → known s pid) →
  (∀ class q, q ∈ waiting s' class → q ∈ waiting s class) →
  forward s s' → no_new_tickets s s' → grows n s s'.
Proof.
  intros Hs Hp Hw Hf Ht. split; [done..|]. intros pid [?|(class & q & Hq & <-)]; [auto|].
  right. exists class, q. auto.
Qed.

(** ** Transitions *)

Definition upd_queue_of (class : TaskClass) (q : list PendingRequest) (s : GovernedState)
    (class' : TaskClass) : list PendingRequest :=
  if decide (class' = class) then q else waiting s class'.

Section transitions.
Context (P : PolicySet) (s s' : GovernedState).
Hypothesis HC : custody_ok P s.

(** Tickets only move between settled states; the permits keep their tickets. *)
Lemma custody_settled :
  (∀ t, custody s' t = custody s t) → (∀ class, waiting s' class = waiting s class) →
  (∀ pid, rec_pending_ticket <$> gs_permits s' !! pid =
          rec_pending_ticket <$> gs_permits s !! pid) →
  custody_ok P s'.
Proof.
  intros Ec Ew Ep.
  assert (∀ pid t, (∃ r, gs_permits s' !! pid = Some r ∧ rec_pending_ticket r = Some t) ↔
    ∃ r, gs_permits s !! pid = Some r ∧ rec_pending_ticket r = Some t) as Ep'.
  { intros pid t. specialize (Ep pid). destruct (gs_permits s' !! pid), (gs_permits s !! pid);
      naive_solver congruence. }
  assert (∀ pid, gs_permits s !! pid = None → gs_permits s' !! pid = None) as En.
  { intros pid E. specialize (Ep pid). rewrite E in Ep. by destruct (gs_permits s' !! pid). }
  destruct HC. split; try setoid_rewrite Ew; try setoid_rewrite Ec; try setoid_rewrite Ep';
    eauto.
Qed.

(** A direct grant. *)
Lemma custody_grant pid r :
  gs_permits s !! pid = None → (∀ class q, q ∈ waiting s class → pr_permit_id q ≠ pid) →
  rec_pending_ticket r = None → gs_permits s' = <[pid := r]> (gs_permits s) →
  (∀ t, custody s' t = custody s t) → (∀ class, waiting s' class = waiting s class) →
  custody_ok P s'.
Proof.
  intros Hpid Hfresh Hr Ep Ec Ew. destruct HC.
  split; try setoid_rewrite Ew; try setoid_rewrite Ec; rewrite ?Ep; try done.
  - intros t pid'. rewrite custody_live0. split.
    + intros (r' & Hr' & ?). exists r'. rewrite lookup_insert_ne by congruence. done.
    + intros (r' & [[<- <-]|[_ ?]]%lookup_insert_Some & ?); [congruence|by exists r'].
  - intros class q Hq. rewrite lookup_insert_ne by (by apply not_eq_sym, (Hfresh class)).
    by eapply custody_fresh0.
Qed.

(** A queued request promoted to a permit. *)
Lemma custody_promote class i q pid r :
  waiting s class !! i = Some q → pid = pr_permit_id q → rec_pending_ticket r = Some (pr_ticket q) →
  gs_permits s' = <[pid := r]> (gs_permits s) →
  (∀ t, custody s' t = if decide (t = pr_ticket q) then Some (Holds pid) else custody s t) →
  (∀ class', waiting s' class' = upd_queue_of class (delete i (waiting s class)) s class') →
  custody_ok P s'.
Proof.
  intros Hi -> Hr Ep Ec Ew. pose proof (list_elem_of_lookup_2 _ _ _ Hi) as Hq.
  assert (∀ c x, x ∈ waiting s' c ↔ x ∈ waiting s c ∧ pr_ticket x ≠ pr_ticket q) as Hw.
  { intros c x. rewrite Ew. unfold upd_queue_of. case_decide; [subst c; by apply (waiting_delete HC)|].
    split; [|naive_solver]. intros Hx. split; [done|]. intros E.
    by destruct (waiting_unique HC _ _ _ _ Hx Hq E). }
  assert (gs_permits s !! pr_permit_id q = None) as Hnone by (by eapply HC).
  split.
  - intros t pid. rewrite Ec, Ep. case_decide as E; [subst t|].
    + split; [intros [= <-]; exists r; by rewrite lookup_insert_eq|].
      intros (r' & [[<- <-]|[Hne ?]]%lookup_insert_Some & ?); [done|].
      assert (custody s (pr_ticket q) = Some (Holds pid)) by (by eapply (pending_holds HC)).
      assert (custody s (pr_ticket q) = Some (Waits class))
        by (apply HC; by apply list_elem_of_fmap_2). congruence.
    + rewrite (custody_live _ _ HC). split.
      * intros (r' & ? & ?). exists r'. rewrite lookup_insert_ne by congruence. done.
      * intros (r' & [[<- <-]|[Hne ?]]%lookup_insert_Some & ?); [congruence|by exists r'].
  - intros t c. rewrite Ec. case_decide as E; [subst t|].
    + split; [done|]. intros (x & E & [_ ?]%Hw)%list_elem_of_fmap. done.
    + rewrite (custody_queued _ _ HC), !list_elem_of_fmap. setoid_rewrite Hw. naive_solver.
  - intros c. rewrite Ew. unfold upd_queue_of. case_decide; [|apply HC].
    apply NoDup_fmap_delete, HC.
  - intros c x [? _]%Hw. by apply HC.
  - intros c x [Hx Hne]%Hw. rewrite Ep, lookup_insert_ne; [by eapply HC|].
    intros E. apply Hne. by eapply (custody_reserved _ _ HC).
  - intros c c' x x' [? _]%Hw [? _]%Hw. by eapply HC.
Qed.

(** A queued request removed without a permit. *)
Lemma custody_dequeue class i q :
  waiting s class !! i = Some q → gs_permits s' = gs_permits s →
  (∀ t, custody s' t = if decide (t = pr_ticket q) then None else custody s t) →
  (∀ class', waiting s' class' = upd_queue_of class (delete i (waiting s class)) s class') →
  custody_ok P s'.
Proof.
  intros Hi Ep Ec Ew. pose proof (list_elem_of_lookup_2 _ _ _ Hi) as Hq.
  assert (∀ c x, x ∈ waiting s' c ↔ x ∈ waiting s c ∧ pr_ticket x ≠ pr_ticket q) as Hw.
  { intros c x. rewrite Ew. unfold upd_queue_of. case_decide; [subst c; by apply (waiting_delete HC)|].
    split; [|naive_solver]. intros Hx. split; [done|]. intros E.
    by destruct (waiting_unique HC _ _ _ _ Hx Hq E). }
  split; rewrite ?Ep.
  - intros t pid. rewrite Ec. case_decide as E; [subst t|apply HC].
    split; [done|]. intros (r & ? & ?).
    assert (custody s (pr_ticket q) = Some (Holds pid)) by (by eapply (pending_holds HC)).
    assert (custody s (pr_ticket q) = Some (Waits class))
      by (apply HC; by apply list_elem_of_fmap_2). congruence.
  - intros t c. rewrite Ec. case_decide as E; [subst t|].
    + split; [done|]. intros (x & E & [_ ?]%Hw)%list_elem_of_fmap. done.
    + rewrite (custody_queued _ _ HC), !list_elem_of_fmap. setoid_rewrite Hw. naive_solver.
  - intros c. rewrite Ew. unfold upd_queue_of. case_decide; [|apply HC].
    apply NoDup_fmap_delete, HC.
  - intros c x [? _]%Hw. by apply HC.
  - intros c x [Hx Hne]%Hw. by eapply HC.
  - intros c c' x x' [? _]%Hw [? _]%Hw. by eapply HC.
Qed.

(** A request enqueued under fresh identities. *)
Lemma custody_enqueue class q :
  custody s (pr_ticket q) = None → gs_permits s !! pr_permit_id q = None →
  (∀ c x, x ∈ waiting s c → pr_permit_id x ≠ pr_permit_id q) → request_ok P class q →
  gs_permits s' = gs_permits s →
  (∀ t, custody s' t = if decide (t = pr_ticket q) then Some (Waits class) else custody s t) →
  (∀ class', waiting s' class' = upd_queue_of class (waiting s class ++ [q]) s class') →
  custody_ok P s'.
Proof.
  intros Ht Hpid Hfresh Hq Ep Ec Ew.
  assert (∀ c x, x ∈ waiting s' c ↔ x ∈ waiting s c ∨ (c = class ∧ x = q)) as Hw.
  { intros c x. rewrite Ew. unfold upd_queue_of. case_decide; [subst c|naive_solver].
    rewrite elem_of_app, list_elem_of_singleton. naive_solver. }
  assert (∀ c x, x ∈ waiting s c → pr_ticket x ≠ pr_ticket q) as Hnew.
  { intros c x Hx E. assert (custody s (pr_ticket x) = Some (Waits c)); [|congruence].
    apply HC. by apply list_elem_of_fmap_2. }
  split; rewrite ?Ep.
  - intros t pid. rewrite Ec. case_decide as E; [subst t|apply HC].
    split; [done|]. intros (r & ? & ?). exfalso.
    assert (custody s (pr_ticket q) = Some (Holds pid)) by (by eapply (pending_holds HC)).
    congruence.
  - intros t c. rewrite Ec, list_elem_of_fmap. setoid_rewrite Hw. case_decide as E; [subst t|].
    + split; [intros [= <-]; exists q; auto|]. intros (x & E & [Hx|[-> ->]]); [|done].
      by destruct (Hnew c x Hx).
    + rewrite (custody_queued _ _ HC), !list_elem_of_fmap. naive_solver.
  - intros c. rewrite Ew. unfold upd_queue_of. case_decide; [|apply HC].
    rewrite fmap_app, NoDup_app. split_and!; [apply HC| |apply NoDup_singleton].
    intros t (x & -> & Hx)%list_elem_of_fmap. cbn. rewrite list_elem_of_singleton.
    by eapply Hnew.
  - intros c x [?|[-> ->]]%Hw; [by apply HC|done].
  - intros c x [?|[-> ->]]%Hw; [by eapply HC|done].
  - intros c c' x x' [?|[-> ->]]%Hw [?|[-> ->]]%Hw E; try done; [by eapply HC| |].
    + by destruct (Hfresh c x).
    + by destruct (Hfresh c' x').
Qed.

(** A permit released, its ticket settled with it. *)
Lemma custody_unwind pid r :
  gs_permits s !! pid = Some r → gs_permits s' = delete pid (gs_permits s) →
  (∀ t, custody s' t = if decide (rec_pending_ticket r = Some t) then None else custody s t) →
  (∀ class, waiting s' class = waiting s class) →
  custody_ok P s'.
Proof.
  intros Hr Ep Ec Ew. split; try setoid_rewrite Ew; rewrite ?Ep; try apply HC.
  - intros t pid'. rewrite Ec. case_decide as E.
    + split; [done|]. intros (r' & [Hne ?]%lookup_delete_Some & ?). exfalso. apply Hne.
      apply (holds_unique (s := s) t); by eapply (pending_holds HC).
    + rewrite (custody_live _ _ HC). split.
      * intros (r' & ? & ?). exists r'. rewrite lookup_delete_ne by congruence. done.
      * intros (r' & [_ ?]%lookup_delete_Some & ?). by exists r'.
  - intros t c. rewrite Ec. case_decide as E; [|apply HC]. split; [done|].
    rewrite <-(custody_queued _ _ HC). intros E'.
    assert (custody s t = Some (Holds pid)) by (by eapply (pending_holds HC)). congruence.
  - intros c x Hx. rewrite lookup_delete_None. right. by eapply HC.
Qed.

(** A permit that stays live gives up its ticket. *)
Lemma custody_detach pid r r' t :
  gs_permits s !! pid = Some r → rec_pending_ticket r = Some t → rec_pending_ticket r' = None →
  gs_permits s' = <[pid := r']> (gs_permits s) →
  (∀ t', custody s' t' = if decide (t' = t) then None else custody s t') →
  (∀ class, waiting s' class = waiting s class) →
  custody_ok P s'.
Proof.
  intros Hr Ht Hr' Ep Ec Ew.
  assert (custody s t = Some (Holds pid)) as Hpid by (by eapply (pending_holds HC)).
  split; try setoid_rewrite Ew; rewrite ?Ep; try apply HC.
  - intros t' pid'. rewrite Ec. case_decide as E; [subst t'|].
    + split; [done|]. intros (x & [[<- <-]|[Hne ?]]%lookup_insert_Some & ?); [congruence|].
      exfalso. apply Hne, (holds_unique (s := s) t); [done|]. by eapply (pending_holds HC).
    + rewrite (custody_live _ _ HC). split.
      * intros (x & ? & ?). exists x. rewrite lookup_insert_ne by congruence. done.
      * intros (x & [[<- <-]|[_ ?]]%lookup_insert_Some & ?); [congruence|by exists x].
  - intros t' c. rewrite Ec. case_decide as E; [subst t'|apply HC]. split; [done|].
    rewrite <-(custody_queued _ _ HC). congruence.
  - intros c x Hx. rewrite lookup_insert_ne; [by eapply HC|]. intros ->.
    pose proof (custody_fresh _ _ HC c x Hx). congruence.
Qed.
End transitions.
