(* ===== verification/Ledger.v ===== *)
(** * The ledger invariant

    Every total the program maintains incrementally is one [Gauge]: where it is
    read in the state, and what one live permit contributes to it.  [ledger_ok]
    says each gauge equals the sum over the live permits, [permits_ok] that each
    record is well formed, [counters_ok] that the cumulative counters of a class
    agree with its gauges.  The primitive transitions preserve the three, so the
    debug oracle [assert_consistent] never fires. *)

From S2P Require Import Prelude Contract Text Kernel State Assess Fairness Memory Books.

(** ** Gauges *)

Inductive Gauge :=
  | GCpu
  | GMemory
  | GInflight (class : TaskClass)
  | GClassCpu (class : TaskClass)
  | GClassMemory (class : TaskClass)
  | GPhase (class : TaskClass) (phase : ExecutionPhase)
  | GCapability (id : CapabilityId)
  | GRootInflight (root : string)
  | GRootCpu (root : string)
  | GRootMemory (root : string).

Definition root_state (s : GovernedState) (root : string) : RootExecutionState :=
  default RootExecutionState_default (gs_roots s !! root).

Definition gauge_read (s : GovernedState) (g : Gauge) : N :=
  match g with
  | GCpu => gs_cpu_units_held s
  | GMemory => gs_memory_units_held s
  | GInflight class => cs_inflight (class_state s class)
  | GClassCpu class => cs_cpu_units_held (class_state s class)
  | GClassMemory class => cs_memory_units_held (class_state s class)
  | GPhase class phase => ClassState.phase_slot phase (class_state s class)
  | GCapability id => capability_in_use s id
  | GRootInflight root => rs_child_inflight (root_state s root)
  | GRootCpu root => rs_cpu_units (root_state s root)
  | GRootMemory root => rs_memory_units (root_state s root)
  end.

Definition in_class (class : TaskClass) (r : PermitRecord) : bool :=
  bool_decide (rec_class r = class).
Definition in_root (root : string) (r : PermitRecord) : bool :=
  is_child (rec_scope r) && bool_decide (rec_root_operation_id r = root).
Definition when (b : bool) (n : N) : N := if b then n else 0.

Definition gauge_weight (g : Gauge) (r : PermitRecord) : N :=
  match g with
  | GCpu => pl_cpu_units (rec_ledger r)
  | GMemory => pl_effective_units (rec_ledger r)
  | GInflight class => when (in_class class r) 1
  | GClassCpu class => when (in_class class r) (pl_cpu_units (rec_ledger r))
  | GClassMemory class => when (in_class class r) (pl_effective_units (rec_ledger r))
  | GPhase class phase => when (in_class class r && bool_decide (rec_phase r = phase)) 1
  | GCapability id => capability_count id r
  | GRootInflight root => when (in_root root r) 1
  | GRootCpu root => when (in_root root r) (pl_cpu_units (rec_ledger r))
  | GRootMemory root => when (in_root root r) (pl_effective_units (rec_ledger r))
  end.

(** The greatest value the gauge's machine type holds. *)
Definition gauge_max (g : Gauge) : N :=
  match g with
  | GInflight _ | GPhase _ _ | GCapability _ | GRootInflight _ => U32_MAX
  | _ => U128_MAX
  end.

(** ** The invariant *)

Definition ledger_ok (s : GovernedState) : Prop :=
  ∀ g, gauge_read s g = msum (gauge_weight g) (gs_permits s).

Record permit_ok (pid : PermitId) (r : PermitRecord) : Prop := {
  permit_ok_id : rec_permit_id r = pid;
  permit_ok_lease : is_Some (rec_lease_nonce r) ↔ rec_phase r ≠ DispatchReserved;
  permit_ok_cpu : pl_cpu_units (rec_ledger r) ≤ U32_MAX;
  permit_ok_memory : pl_effective_units (rec_ledger r) ≤ U32_MAX;
  permit_ok_reservation : pl_remaining_reservation_units (rec_ledger r) ≤ U32_MAX;
  permit_ok_capabilities : NoDup (rec_capabilities r);
}.

Definition permits_ok (s : GovernedState) : Prop :=
  ∀ pid r, gs_permits s !! pid = Some r → permit_ok pid r.

(** [B] bounds the permit identities issued so far. *)
Record class_counters_ok (B : N) (c : ClassState) : Prop := {
  counters_admitted : cs_admitted_total c = cs_inflight c + cs_terminated_total c;
  counters_started_le :
    cs_started_total c ≤ cs_terminated_total c + cs_running c + cs_cleanup_pending c;
  counters_started_ge : cs_running c + cs_cleanup_pending c ≤ cs_started_total c;
  counters_issued : cs_admitted_total c + N.of_nat (length (cs_queue c)) ≤ B;
}.

Record books_ok (B : N) (s : GovernedState) : Prop := {
  books_ledger : ledger_ok s;
  books_permits_ok : permits_ok s;
  books_counters : ∀ class, class_counters_ok B (class_state s class);
}.

(** There is room for [n] more live permits: what the 32-bit gauges ask. *)
Definition room (n : N) (s : GovernedState) : Prop :=
  N.of_nat (size (gs_permits s)) + n ≤ U32_MAX.

#[export] Instance gauge_read_books : Proper (same_books ==> eq ==> eq) gauge_read.
Proof.
  intros s s' H g ? <-.
  destruct g; cbn; unfold capability_in_use, root_state; rewrite ?H; try done;
    by apply books_class.
Qed.

#[export] Instance ledger_ok_books : Proper (same_books ==> iff) ledger_ok.
Proof. intros s s' H. unfold ledger_ok. by setoid_rewrite H. Qed.

#[export] Instance permits_ok_books : Proper (same_books ==> iff) permits_ok.
Proof. intros s s' H. unfold permits_ok. by setoid_rewrite H. Qed.

#[export] Instance room_books n : Proper (same_books ==> iff) (room n).
Proof. intros s s' H. unfold room. by rewrite H. Qed.

Lemma class_counters_books B c : class_counters_ok B (class_books c) ↔ class_counters_ok B c.
Proof.
  split; intros []; split; cbn in *; try done; by rewrite ?length_map in *.
Qed.

#[export] Instance books_ok_books B : Proper (same_books ==> iff) (books_ok B).
Proof.
  intros s s' H.
  assert (∀ class, class_counters_ok B (class_state s class) ↔
                   class_counters_ok B (class_state s' class)) as Hc.
  { intros class. destruct H as [_ E]. by rewrite <-class_counters_books, E,
      class_counters_books. }
  split; intros []; split; first [by rewrite <-H | by rewrite H | naive_solver].
Qed.

(** ** Reading through the capability map *)

Lemma occupy_lookup m caps id :
  default 0 (m !! id) + N.of_nat (length (filter (λ x, x = id) caps)) ≤ U32_MAX →
  default 0 (foldl occupy_capability m caps !! id) =
    default 0 (m !! id) + N.of_nat (length (filter (λ x, x = id) caps)).
Proof.
  revert m. induction caps as [|a caps IH]; intros m Hmax; [simpl; lia|].
  rewrite filter_cons in Hmax |- *. simpl.
  assert (default 0 (occupy_capability m a !! id) =
          default 0 (m !! id) + (if decide (a = id) then 1 else 0)) as E.
  { unfold occupy_capability. case_decide as Ea.
    - subst a. rewrite lookup_insert_eq; simpl. simpl in Hmax.
      apply saturating_add_small. lia.
    - rewrite lookup_insert_ne by done. lia. }
  rewrite IH; rewrite E; case_decide; simpl in *; lia.
Qed.

Lemma vacate_lookup m caps id :
  default 0 (foldl vacate_capability m caps !! id) =
    default 0 (m !! id) - N.of_nat (length (filter (λ x, x = id) caps)).
Proof.
  revert m. induction caps as [|a caps IH]; intros m; [simpl; lia|].
  rewrite filter_cons. simpl. rewrite IH.
  assert (default 0 (vacate_capability m a !! id) =
          default 0 (m !! id) - (if decide (a = id) then 1 else 0)) as ->.
  { unfold vacate_capability, saturating_sub. destruct (m !! a) as [n|] eqn:Ea.
    - destruct (decide (a = id)) as [<-|Hne].
      + rewrite Ea; simpl. case_decide.
        * rewrite lookup_delete_eq; simpl. lia.
        * by rewrite lookup_insert_eq.
      + case_decide; rewrite ?lookup_delete_ne, ?lookup_insert_ne by done; lia.
    - destruct (decide (a = id)) as [<-|]; [rewrite Ea; simpl; lia|lia]. }
  case_decide; simpl; lia.
Qed.

Lemma count_NoDup (caps : list CapabilityId) id :
  NoDup caps →
  N.of_nat (length (filter (λ x, x = id) caps)) = if decide (id ∈ caps) then 1 else 0.
Proof.
  induction 1 as [|a caps Ha _ IH]; [done|]. rewrite filter_cons.
  destruct (decide (a = id)) as [->|Hne].
  - rewrite decide_True by set_solver. simpl.
    rewrite decide_False in IH by done. lia.
  - rewrite IH. destruct (decide (id ∈ caps)).
    + by rewrite decide_True by set_solver.
    + by rewrite decide_False by set_solver.
Qed.

(** ** Bounds *)

Lemma when_le b n : when b n ≤ n.
Proof. destruct b; simpl; lia. Qed.

Lemma when_true b n : b = true → when b n = n.
Proof. by intros ->. Qed.

Lemma gauge_weight_u32 g r pid : permit_ok pid r → gauge_weight g r ≤ U32_MAX.
Proof.
  intros H. pose proof (permit_ok_cpu _ _ H). pose proof (permit_ok_memory _ _ H).
  destruct g; simpl; try done;
    try (match goal with |- when ?b ?n ≤ _ => pose proof (when_le b n); ulia end).
  unfold capability_count. rewrite count_NoDup by apply H. case_decide; ulia.
Qed.

(** A total is far from the width of the widest ones. *)
Lemma gauge_bound s g n :
  ledger_ok s → permits_ok s → room n s → gauge_read s g ≤ U32_MAX * U32_MAX.
Proof.
  intros HL HP Hr. unfold room in Hr. rewrite HL.
  etransitivity; [apply (msum_bound _ _ U32_MAX)|apply N.mul_le_mono_r; lia].
  intros pid r Hpid. by apply (gauge_weight_u32 g r pid), HP.
Qed.

Lemma gauge_weight_one g r pid :
  permit_ok pid r → gauge_max g = U32_MAX → gauge_weight g r ≤ 1.
Proof.
  intros H Hg. destruct g; simpl in *; try done;
    try (match goal with |- when ?b ?n ≤ _ => apply (when_le b n) end).
  unfold capability_count. rewrite count_NoDup by apply H. case_decide; lia.
Qed.

(** With the ledger exact, a state with headroom can take any further permit on
    every gauge without wrapping or saturating. *)
Lemma gauge_headroom s g r pid :
  ledger_ok s → permits_ok s → N.of_nat (size (gs_permits s)) < U32_MAX → permit_ok pid r →
  gauge_read s g + gauge_weight g r ≤ gauge_max g.
Proof.
  intros HL HP Hroom Hr. rewrite HL.
  destruct (decide (gauge_max g = U32_MAX)) as [E|E].
  - pose proof (msum_bound (gauge_weight g) (gs_permits s) 1) as Hb.
    pose proof (gauge_weight_one g r pid Hr E). rewrite E.
    enough (msum (gauge_weight g) (gs_permits s) ≤ N.of_nat (size (gs_permits s)) * 1) by lia.
    apply Hb. intros k x Hk. by apply (gauge_weight_one g x k); [apply HP|].
  - pose proof (gauge_weight_u32 g r pid Hr).
    enough (msum (gauge_weight g) (gs_permits s) ≤ N.of_nat (size (gs_permits s)) * U32_MAX).
    { assert (gauge_max g = U128_MAX) as -> by (by destruct g). ulia. }
    apply msum_bound. intros k x Hk. by apply (gauge_weight_u32 g x k), HP.
Qed.

(** ** Grant *)

Record grant_ok (g : GrantRequest) (s : GovernedState) : Prop := {
  grant_fresh : gs_permits s !! gr_permit_id g = None;
  grant_cpu : rc_cpu_units (gr_cost g) ≤ U32_MAX;
  grant_memory : rc_memory_units (gr_cost g) ≤ U32_MAX;
  grant_reserved : gr_reserved_units g ≤ U32_MAX;
  grant_capabilities : NoDup (gr_capabilities g);
}.

Lemma granted_permit_ok g s : grant_ok g s → permit_ok (gr_permit_id g) (granted_record g).
Proof.
  intros []. split; simpl; done.
Qed.

Lemma grant_permits g s :
  gs_permits (grant g s) = <[gr_permit_id g := granted_record g]> (gs_permits s).
Proof. unfold grant. destruct (is_child _), (gr_pending_ticket g); reflexivity. Qed.

(** The class entry after a grant. *)
Lemma grant_class_state g s class :
  class_state (grant g s) class =
    if decide (class = gr_class g) then class_charge (gr_cost g) (class_state s (gr_class g))
    else class_state s class.
Proof.
  rewrite <-class_state_mut. unfold grant, class_state.
  destruct (is_child _), (gr_pending_ticket g); reflexivity.
Qed.

Lemma grant_roots g s :
  gs_roots (grant g s) =
    if is_child (gr_scope g) then
      <[gr_root_operation_id g :=
          root_charge (gr_cost g) (gr_target_stage g) (root_state s (gr_root_operation_id g))]>
        (gs_roots s)
    else gs_roots s.
Proof. unfold grant. destruct (is_child _), (gr_pending_ticket g); reflexivity. Qed.

Lemma grant_root_state g s root :
  root_state (grant g s) root =
    if is_child (gr_scope g) && bool_decide (gr_root_operation_id g = root)
    then root_charge (gr_cost g) (gr_target_stage g) (root_state s root)
    else root_state s root.
Proof.
  unfold root_state at 1. rewrite grant_roots. destruct (is_child _); simpl; [|done].
  case_bool_decide as E.
  - subst. by rewrite lookup_insert_eq.
  - by rewrite lookup_insert_ne.
Qed.

Lemma grant_totals g s :
  gs_cpu_units_held (grant g s) = wadd U128_MAX (gs_cpu_units_held s) (rc_cpu_units (gr_cost g)) ∧
  gs_memory_units_held (grant g s) =
    wadd U128_MAX (gs_memory_units_held s) (rc_memory_units (gr_cost g)) ∧
  gs_capability_in_use (grant g s) =
    foldl occupy_capability (gs_capability_in_use s) (gr_capabilities g).
Proof. unfold grant. destruct (is_child _), (gr_pending_ticket g); done. Qed.

(** The class and root branches of [grant_gauge]: the gauge is charged exactly
    when the granted record weighs on it. *)
Ltac grant_class_gauge class g Hr :=
  destruct (decide (class = gr_class g)) as [->|];
  cbn in Hr |- *; unfold in_class in *; cbn in Hr |- *;
  repeat case_bool_decide; try congruence; cbn in Hr |- *;
  first [by apply wadd_small | by apply saturating_add_small | lia].
Ltac grant_root_gauge Hr :=
  cbn in Hr |- *; unfold in_root in *; cbn in Hr |- *;
  destruct (is_child _ && _); cbn in Hr |- *; [by apply wadd_small|lia].

(** A grant moves every gauge by the weight of the record it creates. *)
Lemma grant_gauge g s gauge :
  (∀ gauge, gauge_read s gauge + gauge_weight gauge (granted_record g) ≤ gauge_max gauge) →
  gauge_read (grant g s) gauge = gauge_read s gauge + gauge_weight gauge (granted_record g).
Proof.
  intros Hroom. specialize (Hroom gauge).
  destruct (grant_totals g s) as (Hcpu & Hmem & Hcap).
  destruct gauge as [| |class|class|class|class ph|id|root|root|root]; cbn [gauge_read];
    rewrite ?grant_class_state, ?grant_root_state.
  - rewrite Hcpu. by apply wadd_small.
  - rewrite Hmem. by apply wadd_small.
  - grant_class_gauge class g Hroom.
  - grant_class_gauge class g Hroom.
  - grant_class_gauge class g Hroom.
  - destruct ph; grant_class_gauge class g Hroom.
  - unfold capability_in_use. rewrite Hcap. by apply occupy_lookup.
  - grant_root_gauge Hroom.
  - grant_root_gauge Hroom.
  - grant_root_gauge Hroom.
Qed.

Lemma grant_ledger_ok g s :
  ledger_ok s → permits_ok s → room 1 s → grant_ok g s → ledger_ok (grant g s).
Proof.
  intros HL HP Hroom Hg gauge. assert (N.of_nat (size (gs_permits s)) < U32_MAX) as Hroom'.
  { unfold room in Hroom. lia. } pose proof (granted_permit_ok g s Hg) as Hnew.
  rewrite grant_gauge, grant_permits, msum_insert, HL by
    (try apply Hg; intros; by eapply gauge_headroom). lia.
Qed.

Lemma grant_permits_ok g s : permits_ok s → grant_ok g s → permits_ok (grant g s).
Proof.
  intros HP Hg pid r. rewrite grant_permits.
  intros [[<- <-]|[_ Hr]]%lookup_insert_Some; [by eapply granted_permit_ok|by apply HP].
Qed.

(** ** Unwind *)

Lemma unwind_charges_permits r pid s :
  gs_permits (unwind_charges r pid s) = delete pid (gs_permits s).
Proof. unfold unwind_charges. by destruct (is_child _). Qed.

Lemma unwind_charges_class_state r pid s class :
  class_state (unwind_charges r pid s) class =
    match gs_classes s !! rec_class r with
    | Some c => if decide (class = rec_class r) then class_refund r c else class_state s class
    | None => class_state s class
    end.
Proof.
  rewrite <-class_state_alter. unfold unwind_charges, class_state. by destruct (is_child _).
Qed.

Lemma unwind_charges_totals r pid s :
  gs_cpu_units_held (unwind_charges r pid s) =
    gs_cpu_units_held s - pl_cpu_units (rec_ledger r) ∧
  gs_memory_units_held (unwind_charges r pid s) =
    gs_memory_units_held s - pl_effective_units (rec_ledger r) ∧
  gs_capability_in_use (unwind_charges r pid s) =
    foldl vacate_capability (gs_capability_in_use s) (rec_capabilities r) ∧
  gs_roots (unwind_charges r pid s) =
    (if is_child (rec_scope r) then root_refund r (gs_roots s) else gs_roots s).
Proof. unfold unwind_charges. by destruct (is_child _). Qed.

(** The root counters after a refund, read through the possibly deleted entry. *)
Lemma root_refund_read (r : PermitRecord) m root :
  let old := default RootExecutionState_default (m !! root) in
  let new := default RootExecutionState_default (root_refund r m !! root) in
  rec_root_operation_id r = root →
  (rs_child_inflight old ≤ 1 →
     rs_cpu_units old ≤ pl_cpu_units (rec_ledger r) ∧
     rs_memory_units old ≤ pl_effective_units (rec_ledger r)) →
  rs_child_inflight new = rs_child_inflight old - 1 ∧
  rs_cpu_units new = rs_cpu_units old - pl_cpu_units (rec_ledger r) ∧
  rs_memory_units new = rs_memory_units old - pl_effective_units (rec_ledger r).
Proof.
  intros old new <-. subst old new. unfold root_refund.
  destruct (m !! rec_root_operation_id r) as [st|] eqn:E; simpl.
  - case_decide as E0; simpl in E0; unfold saturating_sub in E0.
    + rewrite lookup_delete_eq; simpl. intros []; lia.
    + by rewrite lookup_insert_eq.
  - rewrite E. simpl. lia.
Qed.

Lemma root_refund_other (r : PermitRecord) m root :
  rec_root_operation_id r ≠ root → root_refund r m !! root = m !! root.
Proof.
  intros Hne. unfold root_refund. destruct (m !! _); [|done].
  case_decide; by rewrite ?lookup_delete_ne, ?lookup_insert_ne.
Qed.

(** With the ledger exact, the last child of a root carries all of the root's
    units, so dropping its entry loses nothing. *)
Lemma root_last_child s pid r root :
  ledger_ok s → gs_permits s !! pid = Some r → in_root root r = true →
  rs_child_inflight (root_state s root) ≤ 1 →
  rs_cpu_units (root_state s root) ≤ pl_cpu_units (rec_ledger r) ∧
  rs_memory_units (root_state s root) ≤ pl_effective_units (rec_ledger r).
Proof.
  intros HL Hr Hroot Hone.
  pose proof (HL (GRootInflight root)) as E1.
  pose proof (HL (GRootCpu root)) as E2. pose proof (HL (GRootMemory root)) as E3.
  rewrite (msum_delete _ _ pid r Hr) in E1. rewrite (msum_delete _ _ pid r Hr) in E2.
  rewrite (msum_delete _ _ pid r Hr) in E3. simpl in E1, E2, E3.
  rewrite !when_true in E1, E2, E3 by done.
  set (rest := delete pid (gs_permits s)) in *.
  assert (∀ k x, rest !! k = Some x → in_root root x = false) as Hnone.
  { intros k x Hk. destruct (in_root root x) eqn:Ex; [|done].
    pose proof (msum_lookup_le (gauge_weight (GRootInflight root)) rest k x Hk) as Hle.
    simpl in Hle. rewrite when_true in Hle by done. lia. }
  rewrite (msum_zero (gauge_weight (GRootCpu root))) in E2
    by (intros k x Hk; simpl; by rewrite (Hnone k x Hk)).
  rewrite (msum_zero (gauge_weight (GRootMemory root))) in E3
    by (intros k x Hk; simpl; by rewrite (Hnone k x Hk)). lia.
Qed.

Lemma unwind_class_gauge (read : ClassState → N) (w : N) r pid s class :
  read ClassState_default = 0 →
  (∀ c, read (class_refund r c) = read c - w) →
  read (class_state (unwind_charges r pid s) class) =
    read (class_state s class) - when (in_class class r) w.
Proof.
  intros H0 Href. rewrite unwind_charges_class_state. unfold in_class.
  destruct (decide (class = rec_class r)) as [->|Hne].
  - rewrite bool_decide_eq_true_2 by done. simpl.
    destruct (gs_classes s !! rec_class r) as [c|] eqn:E.
    + rewrite Href. unfold class_state. by rewrite E.
    + unfold class_state. rewrite E. simpl. lia.
  - rewrite bool_decide_eq_false_2 by done. simpl. destruct (gs_classes s !! _); lia.
Qed.

Lemma unwind_root_gauge (read : RootExecutionState → N) (w : N) s pid r root :
  ledger_ok s → gs_permits s !! pid = Some r →
  (∀ m, let old := default RootExecutionState_default (m !! root) in
        let new := default RootExecutionState_default (root_refund r m !! root) in
     rec_root_operation_id r = root →
     (rs_child_inflight old ≤ 1 →
        rs_cpu_units old ≤ pl_cpu_units (rec_ledger r) ∧
        rs_memory_units old ≤ pl_effective_units (rec_ledger r)) →
     read new = read old - w) →
  read (root_state (unwind_charges r pid s) root) =
    read (root_state s root) - when (in_root root r) w.
Proof.
  intros HL Hr Href. destruct (unwind_charges_totals r pid s) as (_ & _ & _ & Hroots).
  unfold root_state. rewrite Hroots. destruct (in_root root r) eqn:E; cbn.
  - pose proof (root_last_child s pid r root HL Hr E) as Hlast.
    unfold in_root in E. apply andb_true_iff in E as [-> Er%bool_decide_eq_true].
    by apply Href.
  - rewrite N.sub_0_r. unfold in_root in E. destruct (is_child _); [|done].
    apply bool_decide_eq_false in E. by rewrite root_refund_other.
Qed.

Lemma class_refund_reads r c :
  cs_inflight (class_refund r c) = cs_inflight c - 1 ∧
  cs_cpu_units_held (class_refund r c) = cs_cpu_units_held c - pl_cpu_units (rec_ledger r) ∧
  cs_memory_units_held (class_refund r c) =
    cs_memory_units_held c - pl_effective_units (rec_ledger r) ∧
  cs_admitted_total (class_refund r c) = cs_admitted_total c ∧
  cs_terminated_total (class_refund r c) = wadd U128_MAX (cs_terminated_total c) 1 ∧
  cs_started_total (class_refund r c) = cs_started_total c.
Proof. unfold class_refund, ClassState.leave_phase. by destruct (rec_phase r). Qed.

(** An unwind moves every gauge back by the weight of the record it removes. *)
Lemma unwind_charges_gauge s pid r g :
  ledger_ok s → gs_permits s !! pid = Some r →
  gauge_read (unwind_charges r pid s) g = gauge_read s g - gauge_weight g r.
Proof.
  intros HL Hr. destruct (unwind_charges_totals r pid s) as (Hcpu & Hmem & Hcap & _).
  destruct g as [| |class|class|class|class ph|id|root|root|root];
    cbn [gauge_read gauge_weight].
  - done.
  - done.
  - apply (unwind_class_gauge cs_inflight 1); [done|]. apply class_refund_reads.
  - apply (unwind_class_gauge cs_cpu_units_held); [done|]. apply class_refund_reads.
  - apply (unwind_class_gauge cs_memory_units_held); [done|]. apply class_refund_reads.
  - rewrite (unwind_class_gauge (ClassState.phase_slot ph)
      (if decide (rec_phase r = ph) then 1 else 0)).
    + unfold in_class. case_bool_decide; cbn; [|done]. by case_decide; case_bool_decide.
    + by destruct ph.
    + intros c. unfold class_refund, ClassState.leave_phase.
      destruct ph, (rec_phase r); case_decide; try done; cbn; unfold saturating_sub; lia.
  - unfold capability_in_use. rewrite Hcap. apply vacate_lookup.
  - apply unwind_root_gauge; [done..|]. intros. by apply root_refund_read.
  - apply unwind_root_gauge; [done..|]. intros. by apply root_refund_read.
  - apply unwind_root_gauge; [done..|]. intros. by apply root_refund_read.
Qed.

(** ** The bundle across grant and unwind *)

Lemma room_lt n s : room n s → 0 < n → N.of_nat (size (gs_permits s)) < U32_MAX.
Proof. unfold room. lia. Qed.

Lemma room_mono n n' s : n' ≤ n → room n s → room n' s.
Proof. unfold room. lia. Qed.

Lemma gauge_read_le s g : ledger_ok s → permits_ok s → room 0 s → gauge_read s g ≤ gauge_max g.
Proof.
  intros HL HP Hroom. rewrite HL. unfold room in Hroom.
  destruct (decide (gauge_max g = U32_MAX)) as [E|E].
  - enough (msum (gauge_weight g) (gs_permits s) ≤ N.of_nat (size (gs_permits s)) * 1) by lia.
    apply msum_bound. intros k x Hk. by apply (gauge_weight_one g x k); [apply HP|].
  - enough (msum (gauge_weight g) (gs_permits s) ≤ N.of_nat (size (gs_permits s)) * U32_MAX).
    { assert (gauge_max g = U128_MAX) as -> by (by destruct g). ulia. }
    apply msum_bound. intros k x Hk. by apply (gauge_weight_u32 g x k), HP.
Qed.

Lemma gauge_live s pid r g :
  ledger_ok s → gs_permits s !! pid = Some r → gauge_weight g r ≤ gauge_read s g.
Proof. intros HL Hr. rewrite HL. by eapply msum_lookup_le. Qed.

Lemma in_class_self r : in_class (rec_class r) r = true.
Proof. by apply bool_decide_eq_true_2. Qed.

Lemma live_inflight s pid r :
  ledger_ok s → gs_permits s !! pid = Some r → 1 ≤ cs_inflight (class_state s (rec_class r)).
Proof.
  intros HL Hr. pose proof (gauge_live s pid r (GInflight (rec_class r)) HL Hr) as H.
  cbn in H. by rewrite in_class_self in H.
Qed.

(** The class of a live permit has an entry. *)
Lemma live_class s pid r :
  ledger_ok s → gs_permits s !! pid = Some r →
  ∃ c, gs_classes s !! rec_class r = Some c.
Proof.
  intros HL Hr. pose proof (live_inflight s pid r HL Hr) as H. unfold class_state in H.
  destruct (gs_classes s !! _) as [c|]; [by exists c|]. cbn in H. lia.
Qed.

(** The phases of a class partition its live permits. *)
Lemma phase_partition s class :
  ledger_ok s →
  let c := class_state s class in
  cs_inflight c = cs_dispatch_reserved c + cs_accepted c + cs_running c + cs_cleanup_pending c.
Proof.
  intros HL. cbn zeta.
  pose proof (HL (GInflight class)) as E0.
  pose proof (HL (GPhase class DispatchReserved)) as E1. pose proof (HL (GPhase class Accepted)) as E2.
  pose proof (HL (GPhase class Running)) as E3.
  pose proof (HL (GPhase class CleanupPending)) as E4.
  cbn [gauge_read ClassState.phase_slot] in *. rewrite E0, E1, E2, E3, E4, <-!msum_plus.
  apply msum_ext. intros k x _. cbn. destruct (in_class class x), (rec_phase x); done.
Qed.

Lemma class_charge_reads cost c :
  let c' := class_charge cost c in
  cs_queue c' = cs_queue c ∧ cs_inflight c' = wadd U32_MAX (cs_inflight c) 1 ∧
  cs_admitted_total c' = wadd U128_MAX (cs_admitted_total c) 1 ∧
  cs_terminated_total c' = cs_terminated_total c ∧ cs_started_total c' = cs_started_total c ∧
  cs_running c' = cs_running c ∧ cs_cleanup_pending c' = cs_cleanup_pending c.
Proof. done. Qed.

Lemma grant_books_ok B B' g s :
  books_ok B s → room 1 s → grant_ok g s → B ≤ B' → B' ≤ U64_MAX →
  let c := class_state s (gr_class g) in
  cs_admitted_total c + N.of_nat (length (cs_queue c)) + 1 ≤ B' →
  books_ok B' (grant g s).
Proof.
  intros [HL HP HC] Hroom Hg HB HB' c HcB. split.
  - by apply grant_ledger_ok.
  - by apply grant_permits_ok.
  - intros class. rewrite grant_class_state. case_decide as E; [subst class|].
    + destruct (class_charge_reads (gr_cost g) c) as (Eq & Ei & Ea & Et & Es & Er & Ec).
      pose proof (gauge_headroom s (GInflight (gr_class g)) _ _ HL HP
        (room_lt _ _ Hroom N.lt_0_1) (granted_permit_ok g s Hg)) as Hi.
      cbn [gauge_read gauge_weight gauge_max] in Hi. change (in_class (gr_class g) (granted_record g))
        with (bool_decide (gr_class g = gr_class g)) in Hi.
      rewrite bool_decide_eq_true_2 in Hi by done. cbn in Hi. fold c in Hi.
      rewrite wadd_small in Ei by done. rewrite wadd_small in Ea by ulia.
      destruct (HC (gr_class g)) as [H1 H2 H3 H4]. fold c in H1, H2, H3, H4 |- *.
      split; rewrite ?Eq, ?Ei, ?Ea, ?Et, ?Es, ?Er, ?Ec; lia.
    + destruct (HC class) as [H1 H2 H3 H4]. split; lia.
Qed.

Lemma unwind_charges_ledger_ok s pid r :
  ledger_ok s → gs_permits s !! pid = Some r → ledger_ok (unwind_charges r pid s).
Proof.
  intros HL Hr g. rewrite unwind_charges_gauge, unwind_charges_permits, HL by done.
  rewrite (msum_delete _ _ pid r Hr). lia.
Qed.

Lemma class_refund_more r c :
  cs_queue (class_refund r c) = cs_queue c ∧
  cs_running (class_refund r c) = cs_running c - (if decide (rec_phase r = Running) then 1 else 0) ∧
  cs_cleanup_pending (class_refund r c) =
    cs_cleanup_pending c - (if decide (rec_phase r = CleanupPending) then 1 else 0).
Proof.
  unfold class_refund, ClassState.leave_phase.
  destruct (rec_phase r); cbn; unfold saturating_sub; repeat split;
    repeat case_decide; done || lia.
Qed.

Lemma unwind_charges_books_ok B s pid r :
  books_ok B s → gs_permits s !! pid = Some r → B ≤ U64_MAX → books_ok B (unwind_charges r pid s).
Proof.
  intros [HL HP HC] Hr HB. split.
  - by apply unwind_charges_ledger_ok.
  - intros pid' r'. rewrite unwind_charges_permits.
    intros [_ ?]%lookup_delete_Some. by apply HP.
  - intros class. rewrite unwind_charges_class_state.
    destruct (live_class s pid r HL Hr) as [c Ec]. rewrite Ec.
    case_decide; [subst class|apply HC].
    pose proof (live_inflight s pid r HL Hr) as Hin.
    pose proof (gauge_live s pid r (GPhase (rec_class r) (rec_phase r)) HL Hr) as Hph.
    cbn in Hph. rewrite in_class_self, bool_decide_eq_true_2 in Hph by done. cbn in Hph.
    pose proof (HC (rec_class r)) as H. rewrite (class_state_Some _ _ _ Ec) in H, Hin, Hph.
    destruct H as [H1 H2 H3 H4].
    destruct (class_refund_reads r c) as (Ei & _ & _ & Ea & Et & Es).
    destruct (class_refund_more r c) as (Eq & Er & Ecp).
    rewrite wadd_small in Et by ulia.
    revert Hph Er Ecp. destruct (rec_phase r); cbn; intros Hph Er Ecp;
      repeat case_decide; try done; split; rewrite ?Ei, ?Ea, ?Et, ?Es, ?Eq, ?Er, ?Ecp; lia.
Qed.

(** ** Replacing a record *)

(** A move that replaces one record and shifts every gauge by the difference of
    its weights keeps the ledger exact. *)
Lemma ledger_move s s' pid r r' :
  ledger_ok s → gs_permits s !! pid = Some r → gs_permits s' = <[pid := r']> (gs_permits s) →
  (∀ g, gauge_read s' g + gauge_weight g r = gauge_read s g + gauge_weight g r') →
  ledger_ok s'.
Proof.
  intros HL Hr Es Hg g. pose proof (msum_update (gauge_weight g) (gs_permits s) pid r' r Hr) as E.
  specialize (Hg g). rewrite HL in Hg. rewrite Es. lia.
Qed.

(** A state that shows the same permits and gauges. *)
Lemma ledger_frame s s' :
  ledger_ok s → gs_permits s' = gs_permits s → (∀ g, gauge_read s' g = gauge_read s g) →
  ledger_ok s'.
Proof. intros HL Es Hg g. by rewrite Hg, Es. Qed.

(** The reads of a class entry a gauge is made of. *)
Definition class_gauges (c : ClassState) :=
  (cs_inflight c, cs_cpu_units_held c, cs_memory_units_held c,
   (cs_dispatch_reserved c, cs_accepted c, cs_running c, cs_cleanup_pending c)).

Lemma gauge_read_frame s s' :
  gs_cpu_units_held s' = gs_cpu_units_held s →
  gs_memory_units_held s' = gs_memory_units_held s →
  gs_capability_in_use s' = gs_capability_in_use s → gs_roots s' = gs_roots s →
  (∀ class, class_gauges (class_state s' class) = class_gauges (class_state s class)) →
  ∀ g, gauge_read s' g = gauge_read s g.
Proof.
  intros Ecpu Emem Ecap Eroots Eclass g.
  destruct g as [| |class|class|class|class ph|id|root|root|root]; cbn;
    unfold capability_in_use, root_state; rewrite ?Ecpu, ?Emem, ?Ecap, ?Eroots; try done;
    specialize (Eclass class); injection Eclass; intros; try done.
  by destruct ph.
Qed.

Lemma books_ok_frame B B' s s' :
  gs_permits s' = gs_permits s → gs_cpu_units_held s' = gs_cpu_units_held s →
  gs_memory_units_held s' = gs_memory_units_held s →
  gs_capability_in_use s' = gs_capability_in_use s → gs_roots s' = gs_roots s →
  (∀ class, class_gauges (class_state s' class) = class_gauges (class_state s class)) →
  (∀ class, class_counters_ok B (class_state s class) →
            class_counters_ok B' (class_state s' class)) →
  books_ok B s → books_ok B' s'.
Proof.
  intros E1 E2 E3 E4 E5 Eg Ec [HL HP HC]. split.
  - by apply (ledger_frame s), gauge_read_frame.
  - unfold permits_ok. by rewrite E1.
  - naive_solver.
Qed.

(** Updates of the fields no total depends on. *)
Lemma record_fault_books_ok B what s : books_ok B s → books_ok B (record_accounting_fault what s).
Proof.
  unfold record_accounting_fault. destruct (gs_accounting_fault s); [done|].
  by apply books_ok_frame.
Qed.
