(* ===== verification/Moves.v ===== *)
(** * The ledger under record updates

    Phase advances, memory reconciliation and stage release replace one permit
    record and shift the totals it weighs on; queueing touches no total.  Each
    keeps the books of Ledger.v. *)

From S2P Require Import Prelude Contract Text Kernel State Assess Fairness Memory Books Ledger.

(** ** Phase advance *)

(** The record and the class entry after an accepted advance. *)
Definition advanced_record (phase : ExecutionPhase) (nonces : N) (r : PermitRecord)
  : PermitRecord :=
  upd_rec_lease_nonce (λ n, match n with None => Some nonces | Some n => Some n end)
    (upd_rec_phase (λ _, phase) r).
Definition advanced_class (previous phase : ExecutionPhase) (c : ClassState) : ClassState :=
  let c := ClassState.enter_phase phase (ClassState.leave_phase previous c) in
  if negb (has_started previous) && has_started phase
  then upd_cs_started_total (λ n, wadd U128_MAX n 1) c else c.

(** The two outcomes of [advance_phase]: a refusal that changes nothing, or the
    record and its class moved one step forward. *)
Lemma advance_phase_cases pid phase nonces s out nonces' s' :
  advance_phase pid phase nonces s = (out, nonces', s') →
  (∃ why, out = AdvanceRefused why ∧ nonces' = nonces ∧ s' = s) ∨
  (∃ r, gs_permits s !! pid = Some r ∧ rank (rec_phase r) < rank phase ∧
     s' = class_mut (rec_class r) (advanced_class (rec_phase r) phase)
            (upd_gs_permits (insert pid (advanced_record phase nonces r)) s) ∧
     out = (if rec_lease_nonce r is Some _ then Advanced else Leased (mkLease pid nonces)) ∧
     nonces' = (if rec_lease_nonce r is Some _ then nonces else wadd U64_MAX nonces 1)).
Proof.
  unfold advance_phase. destruct (gs_permits s !! pid) as [r|]; [|naive_solver].
  case_decide as E; [naive_solver|].
  destruct r as [? ? ? ? ? ? ? ? ? ? nonce]; destruct nonce; cbn in *;
    intros [= <- <- <-]; right; eexists; (split_and!; [done| |done..]); cbn; lia.
Qed.

Lemma advance_phase_leases pid phase nonces s r :
  gs_permits s !! pid = Some r → rank (rec_phase r) < rank phase → rec_lease_nonce r = None →
  advance_phase pid phase nonces s =
    (Leased (mkLease pid nonces), wadd U64_MAX nonces 1,
     class_mut (rec_class r) (advanced_class (rec_phase r) phase)
       (upd_gs_permits (insert pid (advanced_record phase nonces r)) s)).
Proof.
  intros Hr Hlt Hl. destruct (advance_phase pid phase nonces s) as [[out n] s'] eqn:E.
  apply advance_phase_cases in E as H. destruct H as [(why & -> & _ & _)|(r' & Hr' & _ & -> & -> & ->)].
  - unfold advance_phase in E. rewrite Hr, decide_False in E by lia.
    destruct r as [? ? ? ? ? ? ? ? ? ? nonce]; cbn in Hl; by subst nonce.
  - assert (r' = r) as -> by congruence. by rewrite Hl.
Qed.

Lemma advanced_class_phase (q p ph : ExecutionPhase) c :
  p ≠ ph → 1 ≤ ClassState.phase_slot p c → ClassState.phase_slot ph c + 1 ≤ U32_MAX →
  ClassState.phase_slot q (advanced_class p ph c) +
    (if decide (p = q) then 1 else 0) =
  ClassState.phase_slot q c + (if decide (ph = q) then 1 else 0).
Proof.
  intros Hne Hp Hph. unfold advanced_class, ClassState.enter_phase, ClassState.leave_phase.
  destruct p, ph; try done; cbn in Hp, Hph; destruct q; cbn -[saturating_add];
    repeat case_decide; try done; unfold saturating_sub;
    rewrite ?saturating_add_small by done; cbn; lia.
Qed.

Lemma advanced_class_rest p ph c :
  let c' := advanced_class p ph c in
  cs_queue c' = cs_queue c ∧ cs_inflight c' = cs_inflight c ∧
  cs_cpu_units_held c' = cs_cpu_units_held c ∧
  cs_memory_units_held c' = cs_memory_units_held c ∧
  cs_admitted_total c' = cs_admitted_total c ∧
  cs_terminated_total c' = cs_terminated_total c ∧
  cs_started_total c' =
    if negb (has_started p) && has_started ph then wadd U128_MAX (cs_started_total c) 1
    else cs_started_total c.
Proof. unfold advanced_class. by destruct p, ph. Qed.

Section advance.
Context (B : N) (s : GovernedState) (pid : PermitId) (phase : ExecutionPhase) (nonces : N)
        (r : PermitRecord).
Hypothesis Hbooks : books_ok B s.
Hypothesis Hroom : room 0 s.
Hypothesis HB : B ≤ U64_MAX.
Hypothesis Hr : gs_permits s !! pid = Some r.
Hypothesis Hrank : rank (rec_phase r) < rank phase.

Let c := class_state s (rec_class r).
Let s' := class_mut (rec_class r) (advanced_class (rec_phase r) phase)
            (upd_gs_permits (insert pid (advanced_record phase nonces r)) s).

Lemma advance_slots :
  1 ≤ ClassState.phase_slot (rec_phase r) c ∧ ClassState.phase_slot phase c + 1 ≤ U32_MAX.
Proof.
  destruct Hbooks as [HL HP _].
  pose proof (gauge_live s pid r (GPhase (rec_class r) (rec_phase r)) HL Hr) as H1.
  cbn in H1. rewrite in_class_self, bool_decide_eq_true_2 in H1 by done. cbn in H1.
  split; [done|]. pose proof (phase_partition s (rec_class r) HL) as Hsum. fold c in Hsum, H1.
  pose proof (gauge_read_le s (GInflight (rec_class r)) HL HP Hroom) as Hmax.
  cbn in Hmax. fold c in Hmax.
  destruct (rec_phase r), phase; cbn in *; lia.
Qed.

Lemma advance_state class :
  class_state s' class =
    if decide (class = rec_class r) then advanced_class (rec_phase r) phase c
    else class_state s class.
Proof. unfold s'. by rewrite class_state_mut. Qed.

Lemma advance_ledger_ok : ledger_ok s'.
Proof.
  destruct Hbooks as [HL _ _], advance_slots as [H1 H2].
  apply (ledger_move s s' pid r (advanced_record phase nonces r)); [done..|].
  destruct (advanced_class_rest (rec_phase r) phase c) as (_ & Ei & Ec & Em & _).
  assert (rec_phase r ≠ phase) as Hne by (intros E; rewrite E in Hrank; lia).
  intros [| |class|class|class|class q|id|root|root|root]; cbn;
    rewrite ?advance_state; try done; unfold in_class; cbn;
    (case_decide as E; [subst class|]); rewrite ?Ei, ?Ec, ?Em; try done.
  - rewrite bool_decide_eq_true_2 by done. cbn.
    pose proof (advanced_class_phase q _ _ c Hne H1 H2).
    repeat case_bool_decide; repeat case_decide; try done.
  - by rewrite bool_decide_eq_false_2.
Qed.

Lemma advance_permits_ok : permits_ok s'.
Proof.
  destruct Hbooks as [_ HP _]. intros pid' r'.
  change (gs_permits s') with (<[pid := advanced_record phase nonces r]> (gs_permits s)).
  intros [[<- <-]|[_ H]]%lookup_insert_Some; [|by apply HP].
  destruct (HP pid r Hr). split; try done. cbn.
  split; [|by destruct (rec_lease_nonce r)]. intros _ ->. destruct (rec_phase r); cbn in Hrank; lia.
Qed.

Lemma advance_counters_ok class : class_counters_ok B (class_state s' class).
Proof.
  destruct Hbooks as [HL _ HC]. rewrite advance_state. case_decide; [|apply HC].
  destruct (HC (rec_class r)) as [C1 C2 C3 C4]. fold c in C1, C2, C3, C4.
  destruct advance_slots as [H1 H2].
  pose proof (phase_partition s (rec_class r) HL) as Hsum. cbn zeta in Hsum. fold c in Hsum.
  assert (rec_phase r ≠ phase) as Hne by (intros E; rewrite E in Hrank; lia).
  pose proof (advanced_class_phase Running _ _ c Hne H1 H2) as Er.
  pose proof (advanced_class_phase CleanupPending _ _ c Hne H1 H2) as Ec.
  destruct (advanced_class_rest (rec_phase r) phase c) as (Eq & Ei & _ & _ & Ea & Et & Es).
  revert H1 H2 Hrank Er Ec Es. cbn [ClassState.phase_slot].
  destruct (rec_phase r), phase; cbn [ClassState.phase_slot rank has_started negb andb];
    intros; try lia; repeat case_decide; try done;
    try (rewrite wadd_small in Es by ulia);
    split; rewrite ?Eq, ?Ei, ?Ea, ?Et, ?Es; lia.
Qed.
End advance.

Lemma advance_phase_books_ok B s pid phase nonces out nonces' s' :
  advance_phase pid phase nonces s = (out, nonces', s') →
  books_ok B s → room 0 s → B ≤ U64_MAX → books_ok B s'.
Proof.
  intros [(why & _ & _ & ->)|(r & Hr & Hrank & -> & _)]%advance_phase_cases Hb Hroom HB; [done|].
  split; [by apply (advance_ledger_ok B)|by apply (advance_permits_ok B)|
    intros; by apply (advance_counters_ok B)].
Qed.

(** ** Memory deltas *)

(** What one counter becomes under a signed delta. *)
Definition shift (delta : Z) (n : N) : N :=
  if decide (0 ≤ delta)%Z then wadd U128_MAX n (Z.abs_N delta) else sub_or_keep n (Z.abs_N delta).

Lemma shift_exact old new n :
  old ≤ n → n + new ≤ U128_MAX → shift (Z.of_N new - Z.of_N old) n + old = n + new.
Proof.
  intros Hold Hnew. unfold shift, sub_or_keep, checked_sub. case_decide.
  - rewrite wadd_small; lia.
  - rewrite decide_True by lia. lia.
Qed.

Lemma apply_memory_delta_reads class root delta s :
  let s' := apply_memory_delta class root delta s in
  gs_memory_units_held s' = shift delta (gs_memory_units_held s) ∧
  (∀ k, class_state s' k =
        class_state (class_alter class (upd_cs_memory_units_held (shift delta)) s) k) ∧
  gs_roots s' = (if root is Some id then alter (upd_rs_memory_units (shift delta)) id (gs_roots s)
                 else gs_roots s) ∧
  gs_permits s' = gs_permits s ∧ gs_cpu_units_held s' = gs_cpu_units_held s ∧
  gs_capability_in_use s' = gs_capability_in_use s ∧ gs_tickets s' = gs_tickets s.
Proof.
  unfold apply_memory_delta, shift, record_accounting_fault. cbn zeta.
  case_decide; destruct root; try (by split_and!);
    destruct (_ || _); try destruct (gs_accounting_fault _); by split_and!.
Qed.

(** A delta that no ledger underflows on raises no fault. *)
Lemma apply_memory_delta_fault class root delta s :
  ((0 ≤ delta)%Z ∨
   (Z.abs_N delta ≤ gs_memory_units_held s ∧
    (∀ c, gs_classes s !! class = Some c → Z.abs_N delta ≤ cs_memory_units_held c) ∧
    (∀ id st, root = Some id → gs_roots s !! id = Some st → Z.abs_N delta ≤ rs_memory_units st))) →
  gs_accounting_fault (apply_memory_delta class root delta s) = gs_accounting_fault s.
Proof.
  unfold apply_memory_delta. case_decide; [by destruct root|].
  intros [|(H1 & H2 & H3)]; [done|]. unfold underflows, checked_sub.
  rewrite (decide_True (P := Z.abs_N delta ≤ gs_memory_units_held s)) by done.
  assert (match gs_classes s !! class with
          | Some c => bool_decide ((if decide (Z.abs_N delta ≤ cs_memory_units_held c)
              then Some (cs_memory_units_held c - Z.abs_N delta) else None) = None)
          | None => false end = false) as ->.
  { destruct (gs_classes s !! class) as [c|]; [|done].
    by rewrite decide_True by (by apply H2). }
  rewrite (bool_decide_eq_false_2 (Some _ = None)) by done.
  destruct root as [id|]; [|done].
  destruct (gs_roots s !! id) as [st|] eqn:E; [|done].
  by rewrite decide_True by (by eapply H3).
Qed.

(** Charging one record's memory change to every ledger that carries it. *)
Section memory.
Context (B : N) (s : GovernedState) (pid : PermitId) (r : PermitRecord) (l : PermitLedger).
Hypothesis Hbooks : books_ok B s.
Hypothesis Hroom : room 0 s.
Hypothesis Hr : gs_permits s !! pid = Some r.
Hypothesis Hcpu : pl_cpu_units l = pl_cpu_units (rec_ledger r).
Hypothesis Hnew : pl_effective_units l ≤ U32_MAX.
Hypothesis Hreservation : pl_remaining_reservation_units l ≤ U32_MAX.

Let delta := (Z.of_N (pl_effective_units l) - Z.of_N (pl_effective_units (rec_ledger r)))%Z.
Let s1 := upd_gs_permits (insert pid (upd_rec_ledger (λ _, l) r)) s.
Let s' := apply_memory_delta (rec_class r) (delta_root r) delta s1.

Lemma memory_record_ok : permit_ok pid (upd_rec_ledger (λ _, l) r).
Proof.
  destruct Hbooks as [_ HP _]. destruct (HP pid r Hr). split; try done.
  change (pl_cpu_units l ≤ U32_MAX). by rewrite Hcpu.
Qed.

(** A memory gauge the record weighs on takes the delta exactly. *)
Lemma memory_shift g :
  gauge_weight g r = pl_effective_units (rec_ledger r) → gauge_max g = U128_MAX →
  shift delta (gauge_read s g) + pl_effective_units (rec_ledger r) =
    gauge_read s g + pl_effective_units l.
Proof.
  intros Hw Hmax. destruct Hbooks as [HL HP _]. apply shift_exact.
  - rewrite <-Hw. by eapply gauge_live.
  - pose proof (gauge_read_le s g HL HP Hroom) as H. unfold room in Hroom.
    rewrite HL. enough (msum (gauge_weight g) (gs_permits s) ≤ U32_MAX * U32_MAX) by ulia.
    etransitivity; [apply (msum_bound _ _ U32_MAX)|apply N.mul_le_mono_r; lia].
    intros k x Hk. by apply (gauge_weight_u32 g x k), HP.
Qed.

Lemma memory_class class :
  class_state s' class =
    if decide (class = rec_class r)
    then upd_cs_memory_units_held (shift delta) (class_state s class) else class_state s class.
Proof.
  destruct Hbooks as [HL _ _], (live_class s pid r HL Hr) as [c Hc].
  destruct (apply_memory_delta_reads (rec_class r) (delta_root r) delta s1) as (_ & -> & _).
  rewrite class_state_alter, (Hc : gs_classes s1 !! _ = _). case_decide; [|done].
  subst class. by rewrite (class_state_Some _ _ _ Hc).
Qed.

Lemma memory_root root :
  root_state s' root =
    if in_root root r
    then upd_rs_memory_units (shift delta) (root_state s root) else root_state s root.
Proof.
  destruct Hbooks as [HL _ _].
  destruct (apply_memory_delta_reads (rec_class r) (delta_root r) delta s1) as (_ & _ & E & _).
  pose proof (gauge_live s pid r (GRootInflight root) HL Hr) as Hlive.
  unfold root_state in *. fold s' in E. rewrite E. unfold delta_root in *. cbn in Hlive.
  unfold root_state, in_root in *. destruct (is_child (rec_scope r)); [|done]. cbn in *.
  case_bool_decide as Eroot; cbn in Hlive |- *.
  - subst root. rewrite lookup_alter_eq.
    destruct (gs_roots s !! _) as [st|]; cbn in *; [done|lia].
  - by rewrite lookup_alter_ne.
Qed.

Lemma memory_ledger_ok : ledger_ok s'.
Proof.
  pose proof Hbooks as [HL HP _].
  destruct (apply_memory_delta_reads (rec_class r) (delta_root r) delta s1)
    as (Emem & _ & _ & Eperm & Ecpu & Ecap & _). fold s' in Emem, Eperm, Ecpu, Ecap.
  apply (ledger_move s s' pid r (upd_rec_ledger (λ _, l) r)); [done..|].
  intros g. pose proof (memory_shift g) as Hshift.
  destruct g as [| |class|class|class|class ph|id|root|root|root];
    cbn [gauge_read gauge_weight] in *; rewrite ?memory_class, ?memory_root.
  - rewrite Ecpu. cbn. by rewrite Hcpu.
  - rewrite Emem. by apply Hshift.
  - by destruct (decide (class = rec_class r)).
  - cbn. rewrite Hcpu. by destruct (decide (class = rec_class r)).
  - change (in_class class (upd_rec_ledger _ r)) with (in_class class r). unfold in_class in *.
    destruct (decide (class = rec_class r)) as [->|].
    + rewrite bool_decide_eq_true_2 in * by done. by apply Hshift.
    + by rewrite bool_decide_eq_false_2 by congruence.
  - destruct (decide (class = rec_class r)); by destruct ph.
  - unfold capability_in_use. by rewrite Ecap.
  - change (in_root root (upd_rec_ledger _ r)) with (in_root root r).
    by destruct (in_root root r).
  - change (in_root root (upd_rec_ledger _ r)) with (in_root root r).
    cbn. rewrite Hcpu. by destruct (in_root root r).
  - change (in_root root (upd_rec_ledger _ r)) with (in_root root r).
    destruct (in_root root r); [|done]. by apply Hshift.
Qed.

Lemma memory_books_ok : books_ok B s'.
Proof.
  split; [apply memory_ledger_ok| |].
  - intros pid' r'. destruct (apply_memory_delta_reads (rec_class r) (delta_root r) delta s1)
      as (_ & _ & _ & Eperm & _). fold s' in Eperm. rewrite Eperm. subst s1. cbn.
    intros [[<- <-]|[_ ?]]%lookup_insert_Some; [apply memory_record_ok|].
    by apply Hbooks.
  - intros class. pose proof (books_counters _ _ Hbooks class) as [C1 C2 C3 C4].
    rewrite memory_class. by case_decide.
Qed.

(** The delta is charged without an accounting fault. *)
Lemma memory_no_fault : gs_accounting_fault s' = gs_accounting_fault s.
Proof.
  destruct Hbooks as [HL _ _]. unfold s'. rewrite apply_memory_delta_fault; [done|].
  unfold delta. destruct (decide (pl_effective_units (rec_ledger r) ≤ pl_effective_units l));
    [left; lia|right].
  assert (Z.abs_N (Z.of_N (pl_effective_units l) - Z.of_N (pl_effective_units (rec_ledger r)))
          ≤ pl_effective_units (rec_ledger r)) as Hle by lia.
  split_and!.
  - pose proof (gauge_live s pid r GMemory HL Hr) as H. cbn in *. lia.
  - intros c Hc. pose proof (gauge_live s pid r (GClassMemory (rec_class r)) HL Hr) as H.
    cbn in H. rewrite in_class_self, (class_state_Some s _ c Hc) in H. cbn in H. lia.
  - intros id st. unfold delta_root. destruct (is_child (rec_scope r)) eqn:Ec; [|done].
    intros [= <-] Hst.
    pose proof (gauge_live s pid r (GRootMemory (rec_root_operation_id r)) HL Hr) as H.
    cbn in H. unfold in_root, root_state in H.
    rewrite Ec, (Hst : gs_roots s !! _ = _), bool_decide_eq_true_2 in H by done. cbn in H. lia.
Qed.
End memory.

(** ** Reconciliation and stage release *)

Lemma units_bound scale bytes u : units_for scale bytes = inr u → u ≤ U32_MAX.
Proof. intros H. by apply units_for_inr in H as (_ & _ & ?). Qed.

Lemma effective_units_bound mode reservation bytes scale u :
  reservation ≤ U32_MAX → effective_units mode reservation bytes scale = inr u → u ≤ U32_MAX.
Proof.
  intros Hr. unfold effective_units. destruct mode; [by intros [= <-]| |].
  - apply units_bound.
  - destruct (units_for scale bytes) as [|u'] eqn:E; [done|]. intros [= <-].
    apply units_bound in E. lia.
Qed.

Lemma same_ledger r : upd_rec_ledger (λ _, rec_ledger r) r = r.
Proof. by destruct r. Qed.

Lemma reconcile_books_ok B s pid bytes sequence mode scale now out s' :
  reconcile pid bytes sequence mode scale now s = (out, s') →
  books_ok B s → room 0 s → books_ok B s'.
Proof.
  unfold reconcile. intros H Hb Hroom.
  destruct (gs_permits s !! pid) as [r|] eqn:Hr; [|by simplify_eq].
  do 2 (case_decide; [by simplify_eq|]).
  pose proof (books_permits_ok _ _ Hb pid r Hr) as [_ _ ? ? ? _].
  destruct (effective_units _ _ _ _) as [err|u] eqn:Eu; simplify_eq.
  - by apply record_fault_books_ok.
  - apply effective_units_bound in Eu; [|done].
    set (l := upd_pl_last_touched_ms _ _).
    change u with (pl_effective_units l) at 1. by apply memory_books_ok.
Qed.

Lemma release_stage_books_ok B s pid freed policy sequence now out s' :
  release_stage_memory pid freed policy sequence now s = (out, s') →
  books_ok B s → room 0 s → books_ok B s'.
Proof.
  unfold release_stage_memory. intros H Hb Hroom.
  destruct (negb _); [by simplify_eq|].
  destruct (gs_permits s !! pid) as [r|] eqn:Hr; [|by simplify_eq].
  destruct (match sequence with Some n => _ | None => false end); [by simplify_eq|].
  pose proof (books_permits_ok _ _ Hb pid r Hr) as [_ _ ? ? ? _]. simplify_eq.
  set (l := upd_pl_last_touched_ms _ _).
  assert (pl_effective_units l =
    pl_effective_units (rec_ledger r) - N.min freed (pl_effective_units (rec_ledger r))) as El.
  { by destruct sequence. }
  match goal with |- books_ok _ (apply_memory_delta _ _ ?d _) =>
    replace d with (Z.of_N (pl_effective_units l) - Z.of_N (pl_effective_units (rec_ledger r)))%Z
      by (rewrite El; destruct sequence; cbn; lia) end.
  apply memory_books_ok; [done..| | |].
  - by destruct sequence.
  - rewrite El. lia.
  - subst l. destruct sequence; cbn; unfold saturating_sub; lia.
Qed.
