(* ===== verification/Reads.v ===== *)
(** * What each transition changes

    The frame of every primitive transition: which totals, permits, queues and
    tickets it leaves alone, and what it makes of the ones it touches. *)

From S2P Require Import Prelude Contract Text Kernel State Assess Fairness Admission Memory Books Custody Ledger.

(** ** States with the same charges *)

Record same_charges (s s' : GovernedState) : Prop := {
  sc_permits : gs_permits s' = gs_permits s;
  sc_classes : gs_classes s' = gs_classes s;
  sc_cpu : gs_cpu_units_held s' = gs_cpu_units_held s;
  sc_memory : gs_memory_units_held s' = gs_memory_units_held s;
  sc_capability : gs_capability_in_use s' = gs_capability_in_use s;
  sc_roots : gs_roots s' = gs_roots s;
}.

#[export] Instance same_charges_refl : Reflexive same_charges.
Proof. by intros s. Qed.
#[export] Instance same_charges_trans : Transitive same_charges.
Proof. intros ??? [] []. split; congruence. Qed.

Lemma same_charges_class s s' class :
  same_charges s s' → class_state s' class = class_state s class.
Proof. intros []. unfold class_state. by rewrite sc_classes0. Qed.

Lemma same_charges_waiting s s' class : same_charges s s' → waiting s' class = waiting s class.
Proof. intros H. unfold waiting. by rewrite (same_charges_class s s'). Qed.

Lemma same_charges_books B s s' : same_charges s s' → books_ok B s → books_ok B s'.
Proof.
  intros H. pose proof H as []. apply books_ok_frame; try done;
    intros class; by rewrite (same_charges_class s s').
Qed.

#[export] Hint Resolve same_charges_refl same_charges_books : taskmesh.

(** ** Ticket records *)

Lemma evict_terminal_charges fuel s : same_charges s (evict_terminal fuel s).
Proof.
  revert s. induction fuel as [|fuel IH]; intros s; [done|]. cbn.
  case_decide; [done|]. destruct (btree_first _) as [[seq oldest]|]; [|done].
  etransitivity; [|apply IH]. destruct (gs_tickets _ !! oldest) as [[]|]; by split.
Qed.

Lemma evict_terminal_custody fuel s t : custody (evict_terminal fuel s) t = custody s t.
Proof.
  revert s. induction fuel as [|fuel IH]; intros s; [done|]. cbn.
  case_decide; [done|]. destruct (btree_first _) as [[seq oldest]|]; [|done].
  rewrite IH. destruct (gs_tickets _ !! oldest) as [[]|] eqn:E; try done.
  unfold custody. cbn in *. destruct (decide (t = oldest)) as [->|].
  - by rewrite lookup_delete_eq, E.
  - by rewrite lookup_delete_ne.
Qed.

Lemma evict_terminal_no_new fuel s : no_new_tickets s (evict_terminal fuel s).
Proof.
  revert s. induction fuel as [|fuel IH]; intros s t Ht; [done|]. cbn.
  case_decide; [done|]. destruct (btree_first _) as [[seq oldest]|]; [|done].
  apply IH. destruct (gs_tickets _ !! oldest) as [[]|]; try done. cbn.
  rewrite lookup_delete_None. by right.
Qed.

Lemma record_terminal_no_new t reason s t' :
  gs_tickets s !! t' = None → t' ≠ t → gs_tickets (record_terminal_ticket t reason s) !! t' = None.
Proof.
  intros Ht Hne. unfold record_terminal_ticket. apply evict_terminal_no_new.
  destruct (gs_terminal_index _ !! t); cbn; by rewrite lookup_insert_ne.
Qed.

Lemma record_terminal_charges t reason s : same_charges s (record_terminal_ticket t reason s).
Proof.
  unfold record_terminal_ticket. etransitivity; [|apply evict_terminal_charges].
  destruct (gs_terminal_index _ !! t); by split.
Qed.

Lemma record_terminal_custody t reason s t' :
  custody (record_terminal_ticket t reason s) t' = if decide (t' = t) then None else custody s t'.
Proof.
  unfold record_terminal_ticket. rewrite evict_terminal_custody. unfold custody.
  destruct (gs_terminal_index _ !! t); cbn; (case_decide;
    [subst; by rewrite lookup_insert_eq|by rewrite lookup_insert_ne]).
Qed.

Lemma forget_terminal_charges t s : same_charges s (forget_terminal_ticket t s).
Proof.
  unfold forget_terminal_ticket.
  destruct (gs_terminal_index s !! t); cbn [gs_tickets upd_gs_terminal_order upd_gs_terminal_index];
    destruct (gs_tickets s !! t) as [[]|]; by split.
Qed.

Lemma forget_terminal_custody t s t' : custody (forget_terminal_ticket t s) t' = custody s t'.
Proof.
  unfold forget_terminal_ticket, custody.
  destruct (gs_terminal_index s !! t); cbn [gs_tickets upd_gs_terminal_order upd_gs_terminal_index];
    destruct (gs_tickets s !! t) as [[]|] eqn:E; try done; cbn;
    (destruct (decide (t = t')) as [<-|]; [by rewrite lookup_delete_eq, E|
      by rewrite lookup_delete_ne]).
Qed.

Lemma forget_terminal_no_new t s : no_new_tickets s (forget_terminal_ticket t s).
Proof.
  intros t' Ht. unfold forget_terminal_ticket.
  destruct (gs_terminal_index s !! t); cbn [gs_tickets upd_gs_terminal_order upd_gs_terminal_index];
    destruct (gs_tickets s !! t) as [[]|]; try done; cbn; rewrite lookup_delete_None; by right.
Qed.

Lemma delete_ticket_no_new t s : no_new_tickets s (upd_gs_tickets (delete t) s).
Proof. intros t' Ht. cbn. rewrite lookup_delete_None. by right. Qed.

Lemma insert_ticket_no_new t st s :
  is_Some (gs_tickets s !! t) → no_new_tickets s (upd_gs_tickets (insert t st) s).
Proof.
  intros [x Hx] t' Ht. cbn. rewrite lookup_insert_ne; [done|]. congruence.
Qed.

Lemma no_new_tickets_eq s s' : gs_tickets s' = gs_tickets s → no_new_tickets s s'.
Proof. intros E t. by rewrite E. Qed.

#[export] Instance no_new_tickets_trans : Transitive no_new_tickets.
Proof. intros s1 s2 s3 H1 H2 t Ht. by apply H2, H1. Qed.

Lemma custody_known s t c : custody s t = Some c → is_Some (gs_tickets s !! t).
Proof. unfold custody. by destruct (gs_tickets s !! t). Qed.

Lemma record_terminal_no_new_known t reason s :
  is_Some (gs_tickets s !! t) → no_new_tickets s (record_terminal_ticket t reason s).
Proof. intros [x Hx] t' Ht. apply record_terminal_no_new; [done|]. congruence. Qed.

Lemma delete_ticket_custody t s t' :
  custody (upd_gs_tickets (delete t) s) t' = if decide (t' = t) then None else custody s t'.
Proof.
  unfold custody; cbn. case_decide; [subst; by rewrite lookup_delete_eq|by rewrite lookup_delete_ne].
Qed.

Lemma insert_ticket_custody t st s t' :
  custody (upd_gs_tickets (insert t st) s) t' =
    if decide (t' = t) then ticket_custody st else custody s t'.
Proof.
  unfold custody; cbn. case_decide; [subst; by rewrite lookup_insert_eq|by rewrite lookup_insert_ne].
Qed.

(** ** Grant *)

Lemma grant_custody g s t :
  custody (grant g s) t =
    if decide (gr_pending_ticket g = Some t) then Some (Holds (gr_permit_id g)) else custody s t.
Proof.
  unfold grant, custody. destruct (is_child _), (gr_pending_ticket g) as [t0|]; cbn;
    try (by rewrite decide_False by done);
    (case_decide; [simplify_eq; by rewrite lookup_insert_eq|
      rewrite lookup_insert_ne by congruence; done]).
Qed.

Lemma grant_tickets g s :
  gs_tickets (grant g s) =
    match gr_pending_ticket g with
    | Some t => <[t := TGranted (gr_permit_id g)]> (gs_tickets s)
    | None => gs_tickets s
    end.
Proof. unfold grant. by destruct (is_child _), (gr_pending_ticket g). Qed.

Lemma grant_waiting g s class : waiting (grant g s) class = waiting s class.
Proof. unfold waiting. rewrite grant_class_state. by case_decide; [subst|]. Qed.

(** ** Queue removal and arrival *)

Lemma remove_pending_cases class i s r s' :
  remove_pending class i s = Some (r, s') →
  ∃ c, gs_classes s !! class = Some c ∧ cs_queue c !! i = Some r ∧
    class_state s' class = ClassState.unindex_pending r (upd_cs_queue (delete i) c) ∧
    (∀ class', class' ≠ class → class_state s' class' = class_state s class').
Proof.
  unfold remove_pending. intros H.
  apply bind_Some in H as (c & Hc & H). apply bind_Some in H as (r' & Hi & H). simplify_eq.
  exists c. split_and!; [done|done| |]; intros; unfold class_state, class_alter; cbn.
  - by rewrite lookup_alter_eq, Hc.
  - by rewrite lookup_alter_ne.
Qed.

Lemma unindex_pending_reads r c :
  let c' := ClassState.unindex_pending r c in
  cs_queue c' = cs_queue c ∧ class_gauges c' = class_gauges c ∧
  cs_admitted_total c' = cs_admitted_total c ∧ cs_started_total c' = cs_started_total c ∧
  cs_terminated_total c' = cs_terminated_total c.
Proof.
  unfold ClassState.unindex_pending.
  by destruct (is_awaited_child _), (crs_is_empty _).
Qed.

Lemma index_pending_reads r c :
  let c' := ClassState.index_pending r c in
  cs_queue c' = cs_queue c ∧ class_gauges c' = class_gauges c ∧
  cs_admitted_total c' = cs_admitted_total c ∧ cs_started_total c' = cs_started_total c ∧
  cs_terminated_total c' = cs_terminated_total c.
Proof.
  unfold ClassState.index_pending. by destruct (is_awaited_child _), (crs_is_empty _).
Qed.

(** The fields queueing does not touch. *)
Record same_holdings (s s' : GovernedState) : Prop := {
  sh_permits : gs_permits s' = gs_permits s;
  sh_cpu : gs_cpu_units_held s' = gs_cpu_units_held s;
  sh_memory : gs_memory_units_held s' = gs_memory_units_held s;
  sh_capability : gs_capability_in_use s' = gs_capability_in_use s;
  sh_roots : gs_roots s' = gs_roots s;
  sh_class class : class_gauges (class_state s' class) = class_gauges (class_state s class);
}.

Lemma same_holdings_gauge s s' g : same_holdings s s' → gauge_read s' g = gauge_read s g.
Proof. intros []. by apply gauge_read_frame. Qed.

Lemma remove_pending_holdings class i s r s' :
  remove_pending class i s = Some (r, s') → same_holdings s s'.
Proof.
  intros H. pose proof (remove_pending_cases _ _ _ _ _ H) as (c & Hc & _ & E & Eo).
  unfold remove_pending in H.
  apply bind_Some in H as (? & _ & H). apply bind_Some in H as (? & _ & H). simplify_eq.
  split; try done. intros class'. destruct (decide (class' = class)) as [->|]; [|by rewrite Eo].
  rewrite E, (class_state_Some _ _ _ Hc).
  by destruct (unindex_pending_reads r (upd_cs_queue (delete i) c)) as (_ & -> & _).
Qed.

Lemma remove_pending_waiting class i s r s' :
  remove_pending class i s = Some (r, s') →
  waiting s class !! i = Some (untag r) ∧
  ∀ class', waiting s' class' = upd_queue_of class (delete i (waiting s class)) s class'.
Proof.
  intros (c & Hc & Hi & E & Eo)%remove_pending_cases. unfold upd_queue_of, waiting.
  rewrite (class_state_Some _ _ _ Hc). split.
  - by apply list_lookup_fmap_Some_2.
  - intros class'. case_decide; [subst class'|by rewrite Eo].
    rewrite E. destruct (unindex_pending_reads r (upd_cs_queue (delete i) c)) as (-> & _).
    cbn. apply list_fmap_delete.
Qed.

Lemma remove_pending_tickets class i s r s' :
  remove_pending class i s = Some (r, s') → gs_tickets s' = gs_tickets s.
Proof.
  unfold remove_pending. intros H.
  apply bind_Some in H as (? & _ & H). apply bind_Some in H as (? & _ & H). by simplify_eq.
Qed.

Lemma remove_pending_custody class i s r s' :
  remove_pending class i s = Some (r, s') → ∀ t, custody s' t = custody s t.
Proof. intros H t. unfold custody. by rewrite (remove_pending_tickets _ _ _ _ _ H). Qed.

Lemma remove_pending_fault class i s r s' :
  remove_pending class i s = Some (r, s') → gs_accounting_fault s' = gs_accounting_fault s.
Proof.
  unfold remove_pending. intros H.
  apply bind_Some in H as (? & _ & H). apply bind_Some in H as (? & _ & H). by simplify_eq.
Qed.

(** The counters after a removal, with one identity given back to the bound. *)
Lemma remove_pending_counters B class i s r s' :
  remove_pending class i s = Some (r, s') →
  (∀ class', class_counters_ok B (class_state s class')) →
  (∀ class', class_counters_ok B (class_state s' class')) ∧
  cs_admitted_total (class_state s' class) +
    N.of_nat (length (cs_queue (class_state s' class))) + 1 ≤ B.
Proof.
  intros (c & Hc & Hi & E & Eo)%remove_pending_cases HC.
  pose proof (HC class) as Hcl. rewrite (class_state_Some _ _ _ Hc) in Hcl.
  destruct (unindex_pending_reads r (upd_cs_queue (delete i) c)) as (Eq & Eg & Ea & Es & Et).
  injection Eg as Ei _ _ _ _ Er Ecp. cbn in *.
  apply lookup_lt_Some in Hi as Hlt. pose proof (length_delete (cs_queue c) i (mk_is_Some _ _ Hi)) as Hlen.
  destruct Hcl as [C1 C2 C3 C4]. split; [|rewrite E, Eq, Ea; cbn in *; lia].
  intros class'. destruct (decide (class' = class)) as [->|]; [|by rewrite Eo].
  rewrite E. split; rewrite ?Eq, ?Ea, ?Es, ?Et, ?Ei, ?Er, ?Ecp; cbn in *; lia.
Qed.

Lemma remove_pending_books B class i s r s' :
  remove_pending class i s = Some (r, s') → books_ok B s → books_ok B s'.
Proof.
  intros H [HL HP HC]. pose proof (remove_pending_holdings _ _ _ _ _ H) as Hh. split.
  - apply (ledger_frame s); [done|apply Hh|]. intros. by apply same_holdings_gauge.
  - unfold permits_ok. by rewrite (sh_permits _ _ Hh).
  - by eapply remove_pending_counters.
Qed.

Lemma enqueue_cases r s s' :
  enqueue r s = Some s' →
  let order := gs_next_queue_order s + 1 in
  let r' := upd_pr_queue_order (λ _, order) r in
  order ≤ U128_MAX ∧ same_holdings s s' ∧ gs_tickets s' = gs_tickets s ∧
  class_state s' (pr_class r) =
    upd_cs_queue (λ q, q ++ [r']) (ClassState.index_pending r' (class_state s (pr_class r))) ∧
  (∀ class, class ≠ pr_class r → class_state s' class = class_state s class) ∧
  gs_next_queue_order s' = order.
Proof.
  unfold enqueue. intros H. apply bind_Some in H as (order & Horder & H).
  apply checked_add_Some in Horder as [-> Hle]. injection H as <-.
  assert (∀ x, class_state (upd_gs_queued_operation_identities x
    (upd_gs_next_queue_order (λ _, gs_next_queue_order s + 1) s)) = class_state s) as Es by done.
  split_and!; [done| |done| | |done].
  - split; try done. intros class. rewrite class_state_mut. case_decide; [subst class|done].
    rewrite Es. cbn.
    destruct (index_pending_reads (upd_pr_queue_order (λ _, gs_next_queue_order s + 1) r)
                (class_state s (pr_class r))) as (_ & <- & _). done.
  - by rewrite class_state_mut, decide_True.
  - intros class Hne. by rewrite class_state_mut, decide_False.
Qed.

Lemma enqueue_waiting r s s' :
  enqueue r s = Some s' →
  ∀ class', waiting s' class' =
    upd_queue_of (pr_class r)
      (waiting s (pr_class r) ++
         [untag (upd_pr_queue_order (λ _, gs_next_queue_order s + 1) r)]) s class'.
Proof.
  intros (_ & _ & _ & E & Eo & _)%enqueue_cases class'. unfold upd_queue_of, waiting.
  case_decide; [subst class'|by rewrite Eo]. rewrite E. cbn.
  destruct (index_pending_reads (upd_pr_queue_order (λ _, gs_next_queue_order s + 1) r)
              (class_state s (pr_class r))) as (-> & _).
  apply map_app.
Qed.

Lemma enqueue_books B r s s' :
  enqueue r s = Some s' → books_ok B s → books_ok (B + 1) s'.
Proof.
  intros (_ & Hh & _ & E & Eo & _)%enqueue_cases [HL HP HC]. split.
  - apply (ledger_frame s); [done|apply Hh|]. intros. by apply same_holdings_gauge.
  - unfold permits_ok. by rewrite (sh_permits _ _ Hh).
  - intros class. destruct (decide (class = pr_class r)) as [->|].
    + rewrite E.
      destruct (index_pending_reads (upd_pr_queue_order (λ _, gs_next_queue_order s + 1) r)
                  (class_state s (pr_class r))) as (Eq & Eg & Ea & Es & Et).
      injection Eg as Ei _ _ _ _ Er Ecp. destruct (HC (pr_class r)) as [C1 C2 C3 C4].
      split; cbn; rewrite ?Eq, ?Ea, ?Es, ?Et, ?Ei, ?Er, ?Ecp, ?length_app; cbn; lia.
    + rewrite Eo by done. destruct (HC class). split; lia.
Qed.

(** ** Release *)

Lemma unwind_charges_waiting r pid s class :
  waiting (unwind_charges r pid s) class = waiting s class.
Proof.
  unfold waiting. rewrite unwind_charges_class_state.
  destruct (gs_classes s !! rec_class r) as [c|] eqn:E; [|done]. case_decide; [|done].
  subst. rewrite (class_state_Some _ _ _ E). by destruct (class_refund_more r c) as (-> & _).
Qed.

Lemma unwind_charges_tickets r pid s : gs_tickets (unwind_charges r pid s) = gs_tickets s.
Proof. unfold unwind_charges. by destruct (is_child _). Qed.

Lemma unwind_cases pid reason s e out s' e' :
  unwind pid reason s e = (out, s', e') →
  (out = None ∧ gs_permits s !! pid = None ∧ s' = s ∧ e' = e) ∨
  (∃ r, gs_permits s !! pid = Some r ∧ is_Some out ∧
     same_charges (unwind_charges r pid s) s' ∧
     (∀ t, custody s' t =
           if decide (rec_pending_ticket r = Some t) then None else custody s t) ∧
     (∀ t, gs_tickets s !! t = None → rec_pending_ticket r ≠ Some t → gs_tickets s' !! t = None)).
Proof.
  unfold unwind. destruct (gs_permits s !! pid) as [r|]; [|intros; simplify_eq; by left].
  intros H. right. exists r.
  assert (∀ t, custody (unwind_charges r pid s) t = custody s t) as Ec.
  { intros t. unfold custody. by rewrite unwind_charges_tickets. }
  destruct (rec_pending_ticket r) as [t0|]; simplify_eq; split_and!; try done.
  - apply record_terminal_charges.
  - intros t. rewrite record_terminal_custody, Ec. repeat case_decide; congruence.
  - intros t Ht Hne. apply record_terminal_no_new; [by rewrite unwind_charges_tickets|congruence].
  - intros t Ht _. by rewrite unwind_charges_tickets.
Qed.

(** ** Growth of simple updates *)

Lemma grows_settled n s s' :
  size (gs_permits s') = size (gs_permits s) →
  (∀ pid, is_Some (gs_permits s' !! pid) → is_Some (gs_permits s !! pid)) →
  (∀ class, waiting s' class = waiting s class) →
  (∀ t, custody s' t = custody s t) → no_new_tickets s s' → grows n s s'.
Proof.
  intros Es Ep Ew Ec Ht. apply grows_intro; [lia| | | |done].
  - intros pid. left. auto.
  - intros class q. by rewrite Ew.
  - intros t. by rewrite Ec.
Qed.
Lemma grows_charges n s s' :
  same_charges s s' → (∀ t, custody s' t = custody s t) → no_new_tickets s s' → grows n s s'.
Proof.
  intros H. apply grows_settled; rewrite ?(sc_permits _ _ H); try done.
  intros. by apply same_charges_waiting.
Qed.
(** A live record updated in place. *)
Lemma update_grows s1 s' pid r r' :
  gs_permits s1 !! pid = Some r → gs_permits s' = <[pid := r']> (gs_permits s1) →
  (∀ class, waiting s' class = waiting s1 class) → forward s1 s' → no_new_tickets s1 s' →
  grows 0 s1 s'.
Proof.
  intros Hr Ep Ew Hf Hn. apply grows_intro; [| | |done|done].
  - rewrite Ep, map_size_insert_Some by eauto. lia.
  - intros pid'. rewrite Ep, lookup_insert_is_Some. left. naive_solver.
  - intros class q. by rewrite Ew.
Qed.

#[export] Hint Resolve grows_refl grows_books grows_charges : taskmesh.
