(* ===== verification/Invariant.v ===== *)
(** * The state invariant

    [Inv P B s]: the books of Ledger.v are exact, every ticket has the custody
    Custody.v describes, and no limit the policy declares is exceeded.  [B] bounds
    the identities issued so far.  One lemma per kind of transition keeps it; the
    critical sections of Governor.v are compositions of these. *)

From S2P Require Import Prelude Contract Text Kernel State Assess Fairness Admission Memory.
From S2P Require Import Books Custody Ledger Moves Reads.

(** ** Capacity safety *)

Record capacity_ok (P : PolicySet) (s : GovernedState) : Prop := {
  capacity_inflight class policy :
    ps_class P class = Some policy → gauge_read s (GInflight class) ≤ max_inflight policy;
  capacity_pool id r :
    capability_record P id = Some r → capacity_limit (cr_capacity r) ≠ 0 →
    gauge_read s (GCapability id) ≤ capacity_limit (cr_capacity r);
  capacity_cpu :
    max_cpu_units (ps_resources P) ≠ 0 → gauge_read s GCpu ≤ max_cpu_units (ps_resources P);
  capacity_class pid r :
    gs_permits s !! pid = Some r → is_Some (ps_class P (rec_class r));
}.

#[export] Instance capacity_ok_books P : Proper (same_books ==> iff) (capacity_ok P).
Proof.
  assert (∀ s s', same_books s s' → capacity_ok P s → capacity_ok P s') as H.
  { intros s s' H []. split; setoid_rewrite <-H; done. }
  intros s s' Hs. split; apply H; [done|by symmetry].
Qed.

(** The limits a request is checked against before it runs. *)
Record fits (P : PolicySet) (s : GovernedState) (class : TaskClass) (policy : ClassPolicy)
    (cost : ResolvedCost) (caps : CapabilityRequirementSet) : Prop := {
  fits_inflight : cs_inflight (class_state s class) < max_inflight policy;
  fits_pool id : id ∈ caps →
    ∃ r, capability_record P id = Some r ∧
         (capacity_limit (cr_capacity r) ≠ 0 →
          capability_in_use s id < capacity_limit (cr_capacity r));
  fits_cpu : max_cpu_units (ps_resources P) ≠ 0 →
    gs_cpu_units_held s + rc_cpu_units cost ≤ max_cpu_units (ps_resources P);
  fits_memory : max_memory_units (ps_resources P) ≠ 0 →
    gs_memory_units_held s + rc_memory_units cost ≤ max_memory_units (ps_resources P);
  fits_fault : gs_accounting_fault s = None;
}.

#[export] Instance fits_books P : Proper (same_books ==> eq ==> eq ==> eq ==> eq ==> iff) (fits P).
Proof.
  assert (∀ s s' class policy cost caps, same_books s s' →
    fits P s class policy cost caps → fits P s' class policy cost caps) as H.
  { intros s s' class policy cost caps H [F1 F2 F3 F4 F5]. split.
    - by rewrite <-(books_class cs_inflight s s' class).
    - unfold capability_in_use. by setoid_rewrite <-H.
    - by rewrite <-H.
    - by rewrite <-H.
    - by rewrite <-H. }
  intros s s' Hs ? class -> ? policy -> ? cost -> ? caps ->. split; apply H; [done|by symmetry].
Qed.

Lemma over_budget_false held cost budget :
  over_budget held cost budget = false → budget ≠ 0 → held + cost ≤ budget.
Proof.
  unfold over_budget. intros H Hb. rewrite decide_False in H by done.
  destruct (checked_add _ _ _) as [n|] eqn:E; [|done].
  apply checked_add_Some in E as [-> _]. apply bool_decide_eq_false in H. lia.
Qed.

Lemma blocked_capabilities_nil s P caps :
  blocked_capabilities s P caps = ([], false) →
  ∀ id, id ∈ caps → ∃ r, capability_record P id = Some r ∧
    (capacity_limit (cr_capacity r) ≠ 0 → capability_in_use s id < capacity_limit (cr_capacity r)).
Proof.
  induction caps as [|a caps IH]; cbn; intros H id Hid; [by apply not_elem_of_nil in Hid|].
  destruct (blocked_capabilities s P caps) as [blocked fault].
  destruct (capability_record P a) as [r|] eqn:Er; [|done].
  destruct (negb _ && _) eqn:Eb; [done|]. apply elem_of_cons in Hid as [->|Hid]; [|by apply IH].
  exists r. split; [done|]. intros Hl. apply andb_false_iff in Eb as [Eb|Eb].
  - apply negb_false_iff, bool_decide_eq_true in Eb. done.
  - apply bool_decide_eq_false in Eb. lia.
Qed.

Lemma blockers_empty_fits s P class policy cost caps behind :
  bl_is_empty (with_queued_behind behind
    (blockers_for s P class (max_inflight policy) cost caps)) = true →
  fits P s class policy cost caps ∧ behind = false.
Proof.
  unfold blockers_for. destruct (blocked_capabilities s P caps) as [blocked unknown] eqn:E.
  unfold bl_is_empty. cbn. rewrite !andb_true_iff, !negb_true_iff.
  intros (((((H1 & H2) & H3) & H4) & H5) & H6). split; [|done].
  apply orb_false_iff in H6 as [H6 ->]. destruct blocked; [|done].
  apply bool_decide_eq_false in H1, H6. rewrite inflight_class_state in H1. split.
  - lia.
  - by apply blocked_capabilities_nil.
  - by apply over_budget_false.
  - by apply over_budget_false.
  - destruct (gs_accounting_fault s); [|done]. destruct H6. by eexists.
Qed.

(** [Runnable] is only answered when every limit has room. *)
Lemma assess_scope_fits s P root sc parent class policy cost caps behind :
  assess_scope s P root sc parent class (max_inflight policy) cost caps behind = Runnable →
  fits P s class policy cost caps ∧ behind = false.
Proof.
  unfold assess_scope. destruct (bl_is_empty _) eqn:E; [by apply blockers_empty_fits in E|].
  by destruct (cycle_witness _ _ _ _ _ _ _).
Qed.

(** The gauges the policy bounds at all times; memory is bounded at admission
    only, since a measurement may exceed the estimate it was admitted on. *)
Definition limited (g : Gauge) : bool :=
  match g with GCpu | GInflight _ | GCapability _ => true | _ => false end.

(** A state whose bounded gauges are no greater, and whose permits are among the
    old ones' classes. *)
Lemma capacity_le P s s' :
  (∀ g, limited g = true → gauge_read s' g ≤ gauge_read s g) →
  (∀ pid r, gs_permits s' !! pid = Some r →
     ∃ r0, gs_permits s !! pid = Some r0 ∧ rec_class r0 = rec_class r) →
  capacity_ok P s → capacity_ok P s'.
Proof.
  intros Hg Hp [H1 H2 H3 H4]. split.
  - intros class policy Hc. etransitivity; [by apply Hg|by eapply H1].
  - intros id r Hr Hl. etransitivity; [by apply Hg|by eapply H2].
  - intros Hm. etransitivity; [by apply Hg|by apply H3].
  - intros pid r (r0 & Hr0 & <-)%Hp. by eapply H4.
Qed.

(** A grant of what fits stays within every limit. *)
Lemma capacity_grant P s g policy :
  ps_class P (gr_class g) = Some policy → NoDup (gr_capabilities g) →
  fits P s (gr_class g) policy (gr_cost g) (gr_capabilities g) →
  (∀ gauge, gauge_read s gauge + gauge_weight gauge (granted_record g) ≤ gauge_max gauge) →
  capacity_ok P s → capacity_ok P (grant g s).
Proof.
  intros Hpol Hnd [F1 F2 F3 _ _] Hmax [H1 H2 H3 H4]. split.
  - intros class policy' Hc. rewrite (grant_gauge _ _ _ Hmax).
    specialize (H1 class policy' Hc). cbn in *. unfold in_class; cbn.
    case_bool_decide as E; cbn; [subst class|lia]. simplify_eq. lia.
  - intros id r Hr Hl. rewrite (grant_gauge _ _ _ Hmax).
    specialize (H2 id r Hr Hl). cbn in *. unfold capability_count. cbn.
    rewrite count_NoDup by done. case_decide as E; [|lia].
    destruct (F2 id E) as (r' & Hr' & Hlt). simplify_eq. specialize (Hlt Hl). lia.
  - intros Hm. rewrite (grant_gauge _ _ _ Hmax). cbn. by apply F3.
  - intros pid r. rewrite grant_permits.
    intros [[<- <-]|[_ ?]]%lookup_insert_Some; [by eexists|by eapply H4].
Qed.

(** ** The invariant *)

Record Inv (P : PolicySet) (B : N) (s : GovernedState) : Prop := {
  inv_books : books_ok B s;
  inv_custody : custody_ok P s;
  inv_capacity : capacity_ok P s;
}.

#[export] Instance Inv_books P B : Proper (same_books ==> iff) (Inv P B).
Proof. intros s s' H. split; intros []; split; first [by rewrite <-H|by rewrite H]. Qed.

Lemma class_counters_mono B B' c : B ≤ B' → class_counters_ok B c → class_counters_ok B' c.
Proof. intros ? []. split; lia. Qed.

Lemma Inv_mono P B B' s : B ≤ B' → Inv P B s → Inv P B' s.
Proof.
  intros HB [[] HC HK]. split; [split|done..]; try done.
  intros. by eapply class_counters_mono.
Qed.

Lemma initial_permits pid : gs_permits GovernedState_default !! pid = None.
Proof. apply lookup_empty. Qed.

Lemma Inv_initial P : Inv P 0 GovernedState_default.
Proof.
  assert (∀ g, gauge_read GovernedState_default g = 0) as Hg.
  { intros [| |class|class|class|class ph|id|root|root|root]; try done. by destruct ph. }
  split; split.
  - intros g. rewrite Hg. cbn. by rewrite msum_empty.
  - intros pid r H. by rewrite initial_permits in H.
  - intros class. by split.
  - intros t pid. split; [done|]. intros (r & H & _). by rewrite initial_permits in H.
  - intros t class. split; [done|]. intros H. by apply not_elem_of_nil in H.
  - intros class. apply NoDup_nil_2.
  - intros class r H. by apply not_elem_of_nil in H.
  - intros class r H. by apply not_elem_of_nil in H.
  - intros class class' r r' H. by apply not_elem_of_nil in H.
  - intros class policy _. rewrite Hg. lia.
  - intros id r _ _. rewrite Hg. lia.
  - intros _. rewrite Hg. lia.
  - intros pid r H. by rewrite initial_permits in H.
Qed.

Lemma same_charges_gauge s s' g : same_charges s s' → gauge_read s' g = gauge_read s g.
Proof.
  intros H. pose proof H as []. apply gauge_read_frame; try done.
  intros class. by rewrite (same_charges_class s s').
Qed.

Lemma same_charges_capacity P s s' : same_charges s s' → capacity_ok P s → capacity_ok P s'.
Proof.
  intros H. apply capacity_le.
  - intros g _. by rewrite (same_charges_gauge s s').
  - intros pid r. rewrite (sc_permits _ _ H). eauto.
Qed.

(** ** Keeping it *)

Section keep.
Context (P : PolicySet) (B : N).
Implicit Types s : GovernedState.

(** Only settled tickets, flags and indexes change. *)
Lemma inv_settled s s' :
  same_charges s s' → (∀ t, custody s' t = custody s t) → Inv P B s → Inv P B s'.
Proof.
  intros H Hc [HB HC HK]. split.
  - by eapply same_charges_books.
  - eapply (custody_settled P s s'); [done..| |].
    + intros. by apply same_charges_waiting.
    + intros. by rewrite (sc_permits _ _ H).
  - by eapply same_charges_capacity.
Qed.

(** A permit released. *)
Lemma inv_unwind pid reason s e out s' e' :
  unwind pid reason s e = (out, s', e') → B ≤ U64_MAX → Inv P B s →
  Inv P B s' ∧ grows 0 s s'.
Proof.
  intros [(_ & _ & -> & _)|(r & Hr & _ & Hsc & Hcu & Hnew)]%unwind_cases HB [Hb HC HK];
    [split; [done|apply grows_refl]|].
  assert (gs_permits s' = delete pid (gs_permits s)) as Ep
    by (by rewrite (sc_permits _ _ Hsc), unwind_charges_permits).
  assert (∀ class, waiting s' class = waiting s class) as Hw.
  { intros class. rewrite (same_charges_waiting _ _ _ Hsc). apply unwind_charges_waiting. }
  split; [split|apply grows_intro].
  - eapply same_charges_books; [done|]. by apply unwind_charges_books_ok.
  - by eapply (custody_unwind P s s').
  - eapply capacity_le; [| |done].
    + intros g _. rewrite (same_charges_gauge _ _ _ Hsc), unwind_charges_gauge by
        (done || apply Hb). lia.
    + intros pid' r'. rewrite Ep. intros [_ ?]%lookup_delete_Some. eauto.
  - rewrite Ep, map_size_delete, Hr. lia.
  - intros pid'. rewrite Ep. intros [x [_ ?]%lookup_delete_Some]. left. by eexists.
  - intros class q. by rewrite Hw.
  - intros t. rewrite Hcu. case_decide; constructor.
  - intros t Ht. apply Hnew; [done|]. intros Hpt.
    destruct (custody_known s t (Holds pid)) as [x Hx]; [by eapply (pending_holds HC)|congruence].
Qed.

(** A queued request dropped, its ticket settled. *)
Lemma inv_dequeue class i s r s1 s2 s' :
  remove_pending class i s = Some (r, s1) → same_books s2 s1 → same_charges s2 s' →
  (∀ t, custody s' t = if decide (t = pr_ticket r) then None else custody s t) →
  no_new_tickets s s' → Inv P B s → Inv P B s' ∧ grows 0 s s'.
Proof.
  intros Hrm H21 Hsc Hcu Hnew [Hb HC HK].
  pose proof (remove_pending_waiting _ _ _ _ _ Hrm) as [Hi Hw].
  pose proof (remove_pending_holdings _ _ _ _ _ Hrm) as Hh.
  assert (gs_permits s' = gs_permits s) as Ep.
  { rewrite (sc_permits _ _ Hsc), H21. apply Hh. }
  assert (∀ class', waiting s' class' =
    upd_queue_of class (delete i (waiting s class)) s class') as Hw'.
  { intros class'. by rewrite (same_charges_waiting _ _ _ Hsc), H21. }
  split; [split|apply grows_intro].
  - eapply same_charges_books; [done|]. rewrite H21. by eapply remove_pending_books.
  - by eapply (custody_dequeue P s s').
  - eapply same_charges_capacity; [done|]. rewrite H21. eapply capacity_le; [| |done].
    + intros g _. by rewrite (same_holdings_gauge s s1).
    + intros pid' r'. rewrite (sh_permits _ _ Hh). eauto.
  - rewrite Ep. lia.
  - intros pid. rewrite Ep. by left.
  - intros class' q. rewrite Hw'. unfold upd_queue_of. case_decide; [subst|done].
    intros Hq. by apply (waiting_delete HC class i _ q Hi) in Hq as [? _].
  - intros t. rewrite Hcu. case_decide; constructor.
  - done.
Qed.

(** A queued request promoted. *)
Lemma inv_promote class i s r s1 s2 g policy :
  remove_pending class i s = Some (r, s1) → same_books s2 s1 →
  gr_permit_id g = pr_permit_id r → gr_class g = class → gr_cost g = pr_cost r →
  gr_capabilities g = pr_capabilities r → gr_pending_ticket g = Some (pr_ticket r) →
  gr_reserved_units g = rc_memory_units (pr_cost r) →
  ps_class P class = Some policy → policy_typed policy →
  fits P s class policy (pr_cost r) (pr_capabilities r) →
  room 1 s → B ≤ U64_MAX → Inv P B s →
  let s' := grant g (upd_gs_tickets (delete (pr_ticket r)) s2) in
  Inv P B s' ∧ grows 1 s s'.
Proof.
  intros Hrm H21 Eid Ecl Eco Eca Eti Ere Hpol Htyped Hfits Hroom HB [Hb HC HK].
  pose proof (remove_pending_waiting _ _ _ _ _ Hrm) as [Hi Hw].
  pose proof (remove_pending_holdings _ _ _ _ _ Hrm) as Hh.
  pose proof (list_elem_of_lookup_2 _ _ _ Hi) as Hin.
  set (s3 := upd_gs_tickets (delete (pr_ticket r)) s2).
  assert (same_charges s2 s3) as H23 by done.
  destruct (request_policy _ _ _ (custody_request _ _ HC _ _ Hin)) as (policy' & Hpol' & Ecost).
  cbn in Ecost. simplify_eq.
  assert (gs_permits s3 = gs_permits s) as Ep3.
  { rewrite (sc_permits _ _ H23), H21. apply Hh. }
  assert (grant_ok g s3) as Hg.
  { split; rewrite ?Ep3, ?Eid, ?Eco, ?Eca, ?Ere, ?Ecost; cbn; try apply Htyped.
    - apply (custody_fresh _ _ HC _ _ Hin).
    - apply (request_capabilities _ _ _ (custody_request _ _ HC _ _ Hin)). }
  destruct (remove_pending_counters B _ _ _ _ _ Hrm (books_counters _ _ Hb)) as [_ HcB].
  assert (books_ok B s3) as Hb3.
  { eapply same_charges_books; [done|]. rewrite H21. by eapply remove_pending_books. }
  assert (room 1 s3) as Hroom3 by (unfold room in *; by rewrite Ep3).
  assert (∀ g, gauge_read s3 g = gauge_read s g) as Eg3.
  { intros g'. rewrite (same_charges_gauge _ _ _ H23), H21. by apply same_holdings_gauge. }
  assert (class_books (class_state s3 (gr_class g)) = class_books (class_state s1 (gr_class g)))
    as Ecs by apply H21.
  assert (∀ t, custody (grant g s3) t =
    if decide (t = pr_ticket r) then Some (Holds (gr_permit_id g)) else custody s t) as Hcu.
  { intros t. rewrite grant_custody, Eti. subst s3. rewrite delete_ticket_custody.
    rewrite (custody_books _ _ H21 t t eq_refl), (remove_pending_custody _ _ _ _ _ Hrm).
    repeat case_decide; simplify_eq; done. }
  assert (custody s (pr_ticket r) = Some (Waits (gr_class g))) as Ewait.
  { apply HC. by apply (list_elem_of_fmap_2 pr_ticket) in Hin. }
  assert (∀ class', waiting (grant g s3) class' =
    upd_queue_of (gr_class g) (delete i (waiting s (gr_class g))) s class') as Hw'.
  { intros class'. rewrite grant_waiting, (same_charges_waiting _ _ _ H23), H21. by apply Hw. }
  split; [split|apply grows_intro].
  - eapply grant_books_ok; [done..|].
    pose proof (f_equal cs_admitted_total Ecs) as Ea. cbn in Ea.
    pose proof (f_equal (λ c, length (cs_queue c)) Ecs) as El. cbn in El.
    rewrite !length_map in El. rewrite Ea, El. lia.
  - eapply (custody_promote P s _ HC (gr_class g) i (untag r) (gr_permit_id g)
      (granted_record g));
      [done|done|exact Eti| | |].
    + by rewrite grant_permits, Ep3.
    + exact Hcu.
    + exact Hw'.
  - eapply capacity_grant; [done| | | |].
    + apply Hg.
    + rewrite Eco, Eca. destruct Hfits as [F1 F2 F3 F4 F5].
      pose proof (Eg3 (GInflight (gr_class g))) as E1. pose proof (Eg3 GCpu) as E2.
      pose proof (Eg3 GMemory) as E3. cbn [gauge_read] in E1, E2, E3. split.
      * by rewrite E1.
      * intros id Hid. destruct (F2 id Hid) as (rec & ? & ?). exists rec.
        pose proof (Eg3 (GCapability id)) as E4. cbn [gauge_read] in E4. by rewrite E4.
      * by rewrite E2.
      * by rewrite E3.
      * subst s3. cbn. rewrite H21. by rewrite (remove_pending_fault _ _ _ _ _ Hrm).
    + intros gauge. eapply gauge_headroom; [apply Hb3|apply Hb3| |by apply (granted_permit_ok g s3)].
      by eapply room_lt.
    + eapply (capacity_le P s); [| |done].
      * intros g' _. by rewrite Eg3.
      * intros pid rec. rewrite Ep3. eauto.
  - rewrite grant_permits, map_size_insert_None, Ep3 by apply Hg. lia.
  - intros pid. rewrite grant_permits, Ep3. intros [x Hx].
    apply lookup_insert_Some in Hx as [[<- _]|[_ ?]]; [right; by eexists _, _|left; by eexists].
  - intros class' q. rewrite Hw'. unfold upd_queue_of. case_decide; [subst|done].
    intros Hq. by apply (waiting_delete HC _ i _ q Hi) in Hq as [? _].
  - intros t. rewrite Hcu. case_decide; [subst t; rewrite Ewait|]; constructor.
  - intros t Ht. rewrite grant_tickets, Eti, lookup_insert_ne.
    + unfold s3. apply delete_ticket_no_new. rewrite H21.
      by rewrite (remove_pending_tickets _ _ _ _ _ Hrm).
    + intros <-. destruct (custody_known _ _ _ Ewait). congruence.
Qed.
End keep.
