(* ===== verification/Steps.v ===== *)
(** * The invariant across the remaining transitions

    Direct grants, arrivals, claims, phase advances and memory moves. *)

From S2P Require Import Prelude Contract Text Kernel State Assess Fairness Admission Memory.
From S2P Require Import Governor Books Custody Ledger Moves Reads Invariant.

(** A record that weighs the same on every gauge. *)
Record same_weight (pid : PermitId) (r r' : PermitRecord) : Prop := {
  sw_gauge g : gauge_weight g r' = gauge_weight g r;
  sw_ok : permit_ok pid r → permit_ok pid r';
  sw_class : rec_class r' = rec_class r;
}.

Lemma touch_same_weight pid now r : same_weight pid r (touch now r).
Proof.
  split; [|by intros []|done]. by intros [].
Qed.

Lemma waker_same_weight pid f r : same_weight pid r (upd_rec_claim_waker f r).
Proof. split; [|by intros []|done]. by intros []. Qed.

Lemma pending_same_weight pid f r : same_weight pid r (upd_rec_pending_ticket f r).
Proof. split; [|by intros []|done]. by intros []. Qed.

Lemma same_weight_trans pid r1 r2 r3 :
  same_weight pid r1 r2 → same_weight pid r2 r3 → same_weight pid r1 r3.
Proof. intros [] []. split; intros; [congruence|auto|congruence]. Qed.

#[export] Hint Resolve touch_same_weight waker_same_weight pending_same_weight
  same_weight_trans : taskmesh.

Section steps.
Context (P : PolicySet) (B : N).
Implicit Types s : GovernedState.

(** A permit record replaced by one of the same weight: the totals stand. *)
Lemma replace_charges s pid r r' :
  gs_permits s !! pid = Some r → same_weight pid r r' → Inv P B s →
  let s' := upd_gs_permits (insert pid r') s in
  books_ok B s' ∧ capacity_ok P s'.
Proof.
  intros Hr [Hw Hok Hcl] [Hb HC HK]. cbn zeta.
  assert (∀ g, gauge_read (upd_gs_permits (insert pid r') s) g = gauge_read s g) as Eg.
  { intros g. by apply gauge_read_frame. }
  split; [split|].
  - apply (ledger_move s _ pid r r'); [apply Hb|done..|]. intros g. by rewrite Eg, Hw.
  - intros pid' x. cbn. intros [[<- <-]|[_ ?]]%lookup_insert_Some;
      [by apply Hok, Hb|by apply Hb].
  - apply Hb.
  - apply (capacity_le P s); [|intros pid' x|done].
    + intros g _. by rewrite Eg.
    + cbn. intros [[<- <-]|[_ ?]]%lookup_insert_Some; eauto.
Qed.

(** A live permit updated in place, keeping its ticket. *)
Lemma inv_touch s s' pid r r' :
  gs_permits s !! pid = Some r → same_weight pid r r' →
  rec_pending_ticket r' = rec_pending_ticket r →
  same_charges (upd_gs_permits (insert pid r') s) s' → (∀ t, custody s' t = custody s t) →
  Inv P B s → Inv P B s'.
Proof.
  intros Hr Hw Hp Hsc Hcu HI. destruct (replace_charges s pid r r' Hr Hw HI) as [Hb HK]. split.
  - by eapply same_charges_books.
  - eapply (custody_settled P s s'); [apply HI|done| |].
    + intros. by rewrite (same_charges_waiting _ _ _ Hsc).
    + intros pid'. rewrite (sc_permits _ _ Hsc). cbn.
      destruct (decide (pid = pid')) as [<-|];
        [by rewrite lookup_insert_eq, Hr; cbn; rewrite Hp|by rewrite lookup_insert_ne].
  - by eapply same_charges_capacity.
Qed.

(** A live permit gives up its ticket, which settles. *)
Lemma inv_detach s s' pid r r' t :
  gs_permits s !! pid = Some r → same_weight pid r r' →
  rec_pending_ticket r = Some t → rec_pending_ticket r' = None →
  same_charges (upd_gs_permits (insert pid r') s) s' →
  (∀ t', custody s' t' = if decide (t' = t) then None else custody s t') →
  Inv P B s → Inv P B s'.
Proof.
  intros Hr Hw Ht Ht' Hsc Hcu HI. destruct (replace_charges s pid r r' Hr Hw HI) as [Hb HK]. split.
  - by eapply same_charges_books.
  - eapply (custody_detach P s s'); [apply HI|done..| | |].
    + by rewrite (sc_permits _ _ Hsc).
    + done.
    + intros. by rewrite (same_charges_waiting _ _ _ Hsc).
  - by eapply same_charges_capacity.
Qed.

(** A direct grant under a fresh identity. *)
Lemma inv_grant g s policy :
  gs_permits s !! gr_permit_id g = None →
  (∀ class q, q ∈ waiting s class → pr_permit_id q ≠ gr_permit_id g) →
  gr_pending_ticket g = None → NoDup (gr_capabilities g) →
  gr_cost g = resolve_cost policy → gr_reserved_units g = rc_memory_units (gr_cost g) →
  ps_class P (gr_class g) = Some policy → policy_typed policy →
  fits P s (gr_class g) policy (gr_cost g) (gr_capabilities g) →
  room 1 s → B + 1 ≤ U64_MAX → Inv P B s →
  Inv P (B + 1) (grant g s) ∧ size (gs_permits (grant g s)) = S (size (gs_permits s)).
Proof.
  intros Hpid Hfresh Hti Hnd Hco Hre Hpol Hty Hfits Hroom HB [Hb HC HK].
  assert (grant_ok g s) as Hg.
  { split; rewrite ?Hre, ?Hco; cbn; try done; apply Hty. }
  split; [split|].
  - eapply grant_books_ok; [done..|lia|done|].
    destruct (books_counters _ _ Hb (gr_class g)). lia.
  - eapply (custody_grant P s _ HC (gr_permit_id g) (granted_record g));
      [done..|exact Hti|apply grant_permits| |].
    + intros t. by rewrite grant_custody, Hti, decide_False.
    + intros. apply grant_waiting.
  - eapply capacity_grant; [done..| |done]. intros gauge.
    eapply gauge_headroom; [apply Hb..| |by apply (granted_permit_ok g s)].
    by eapply room_lt.
  - by rewrite grant_permits, map_size_insert_None.
Qed.

(** An arrival queued under fresh identities. *)
Lemma inv_enqueue s s0 s1 s' r :
  same_books s0 s → enqueue r s0 = Some s1 →
  same_charges (upd_gs_tickets (insert (pr_ticket r) (TQueued (pr_class r))) s1) s' →
  gs_tickets s' = <[pr_ticket r := TQueued (pr_class r)]> (gs_tickets s1) →
  gs_tickets s !! pr_ticket r = None → gs_permits s !! pr_permit_id r = None →
  (∀ c q, q ∈ waiting s c → pr_permit_id q ≠ pr_permit_id r) →
  request_ok P (pr_class r) r → Inv P B s → Inv P (B + 1) s'.
Proof.
  intros H0 He Hsc Hti Ht Hpid Hfresh Hreq HI. rewrite <-H0 in HI.
  pose proof HI as [Hb HC HK].
  pose proof (enqueue_cases _ _ _ He) as (_ & Hh & Et & _).
  set (r' := upd_pr_queue_order (λ _, gs_next_queue_order s0 + 1) r).
  split.
  - eapply same_charges_books; [done|]. eapply (same_charges_books _ s1); [by split|].
    by eapply enqueue_books.
  - eapply (custody_enqueue P s0 s' HC (pr_class r) (untag r')); cbn.
    + unfold custody. by rewrite H0, Ht.
    + by rewrite H0.
    + intros c x. rewrite H0. apply Hfresh.
    + by destruct Hreq.
    + rewrite (sc_permits _ _ Hsc). apply Hh.
    + intros t. unfold custody. rewrite Hti, Et. case_decide as E;
        [subst; by rewrite lookup_insert_eq|by rewrite lookup_insert_ne].
    + intros c. rewrite (same_charges_waiting _ _ _ Hsc). apply (enqueue_waiting r s0 s1 He).
  - eapply same_charges_capacity; [done|]. eapply (capacity_le P s0); [| |done].
    + intros g _. rewrite <-(same_holdings_gauge s0 s1) by done. done.
    + intros pid x. cbn. rewrite (sh_permits _ _ Hh). eauto.
Qed.

(** A phase advance. *)
Lemma inv_advance pid phase nonces s out nonces' s' :
  advance_phase pid phase nonces s = (out, nonces', s') → room 0 s → B ≤ U64_MAX →
  Inv P B s → Inv P B s' ∧ grows 0 s s'.
Proof.
  intros H Hroom HB [Hb HC HK].
  assert (books_ok B s') as Hb' by (by eapply advance_phase_books_ok).
  apply advance_phase_cases in H as [(_ & _ & _ & ->)|(r & Hr & _ & -> & _)];
    [split; [done|apply grows_refl]|].
  set (c' := advanced_class _ _) in *. set (r' := advanced_record _ _ _) in *.
  set (s' := class_mut _ _ _) in *.
  assert (gs_permits s' = <[pid := r']> (gs_permits s)) as Ep by done.
  assert (∀ class, class_state s' class =
    if decide (class = rec_class r) then c' (class_state s class) else class_state s class) as Ec.
  { intros class. unfold s'. rewrite class_state_mut. by case_decide; [subst|]. }
  destruct (advanced_class_rest (rec_phase r) phase (class_state s (rec_class r)))
    as (Eq & Ei & _).
  assert (∀ class, waiting s' class = waiting s class) as Ew.
  { intros class. unfold waiting. rewrite Ec. case_decide; [subst class|done]. unfold c'. by rewrite Eq. }
  split; [split; [done| |]|eapply (update_grows s s' pid r r'); [done..|by intros t|by intros t]].
  - eapply custody_settled; [done..|].
    intros pid'. rewrite Ep. destruct (decide (pid = pid')) as [<-|];
      [by rewrite lookup_insert_eq, Hr|by rewrite lookup_insert_ne].
  - eapply (capacity_le P s); [| |done].
    + intros g Hg. destruct g; try done. cbn. rewrite Ec. case_decide; [subst|done].
      unfold c'. by rewrite Ei.
    + intros pid' x. rewrite Ep. intros [[<- <-]|[_ ?]]%lookup_insert_Some; eauto.
Qed.

(** What a memory move is: a record's ledger replaced and the difference of its
    charge applied. *)
Lemma inv_memory_move pid r l delta s :
  gs_permits s !! pid = Some r → Inv P B s →
  let s' := apply_memory_delta (rec_class r) (delta_root r) delta
              (upd_gs_permits (insert pid (upd_rec_ledger (λ _, l) r)) s) in
  books_ok B s' → Inv P B s' ∧ grows 0 s s'.
Proof.
  intros Hr [Hb HC HK] s' Hb'.
  destruct (apply_memory_delta_reads (rec_class r) (delta_root r) delta
    (upd_gs_permits (insert pid (upd_rec_ledger (λ _, l) r)) s))
    as (_ & Ec & _ & Ep & Ecpu & Ecap & Et). fold s' in Ec, Ep, Ecpu, Ecap, Et.
  assert (∀ t, custody s' t = custody s t) as Hcu by (intros t; unfold custody; by rewrite Et).
  assert (∀ class, class_state s' class = class_state s class ∨
    class_state s' class = upd_cs_memory_units_held (shift delta) (class_state s class)) as Ek.
  { intros class. rewrite Ec, class_state_alter.
    change (gs_classes (upd_gs_permits _ s)) with (gs_classes s).
    change (class_state (upd_gs_permits _ s)) with (class_state s).
    destruct (gs_classes s !! rec_class r) as [c|] eqn:E; [|by left].
    case_decide; [|by left]. right. subst. by rewrite (class_state_Some _ _ _ E). }
  assert (∀ class, waiting s' class = waiting s class) as Ew.
  { intros class. unfold waiting. by destruct (Ek class) as [->| ->]. }
  split; [split; [done| |]|].
  - eapply custody_settled; [done..|].
    intros pid'. rewrite Ep. cbn. destruct (decide (pid = pid')) as [<-|];
      [by rewrite lookup_insert_eq, Hr|by rewrite lookup_insert_ne].
  - eapply (capacity_le P s); [| |done].
    + intros g Hg. destruct g; try done; cbn; [by rewrite Ecpu| |].
      * by destruct (Ek class) as [->| ->].
      * unfold capability_in_use. by rewrite Ecap.
    + intros pid' x. rewrite Ep. cbn. intros [[<- <-]|[_ ?]]%lookup_insert_Some; eauto.
  - eapply update_grows; [done|exact Ep|done| |by apply no_new_tickets_eq].
    intros t. by rewrite Hcu.
Qed.

Lemma record_fault_charges what s : same_charges s (record_accounting_fault what s).
Proof. unfold record_accounting_fault. by destruct (gs_accounting_fault s). Qed.
Lemma record_fault_custody what s t : custody (record_accounting_fault what s) t = custody s t.
Proof. unfold record_accounting_fault. by destruct (gs_accounting_fault s). Qed.

Lemma inv_reconcile pid bytes sequence mode scale now s out s' :
  reconcile pid bytes sequence mode scale now s = (out, s') → room 0 s →
  Inv P B s → Inv P B s' ∧ grows 0 s s'.
Proof.
  intros H Hroom HI.
  assert (books_ok B s') as Hb' by (eapply reconcile_books_ok; [done|apply HI|done]).
  unfold reconcile in H.
  destruct (gs_permits s !! pid) as [r|] eqn:Hr; [|simplify_eq; split; [done|apply grows_refl]].
  do 2 (case_decide; [simplify_eq; split; [done|apply grows_refl]|]).
  destruct (effective_units _ _ _ _) as [err|u]; simplify_eq.
  - pose proof (record_fault_charges "measured memory exceeds the unit domain" s) as Hsc.
    split; [eapply inv_settled; [done|apply record_fault_custody|done]|].
    apply grows_charges; [done|apply record_fault_custody|].
    apply no_new_tickets_eq. unfold record_accounting_fault. by destruct (gs_accounting_fault s).
  - by apply inv_memory_move.
Qed.

Lemma inv_release_stage pid freed policy sequence now s out s' :
  release_stage_memory pid freed policy sequence now s = (out, s') → room 0 s →
  Inv P B s → Inv P B s' ∧ grows 0 s s'.
Proof.
  intros H Hroom HI.
  assert (books_ok B s') as Hb' by (eapply release_stage_books_ok; [done|apply HI|done]).
  unfold release_stage_memory in H.
  destruct (negb _); [simplify_eq; split; [done|apply grows_refl]|].
  destruct (gs_permits s !! pid) as [r|] eqn:Hr; [|simplify_eq; split; [done|apply grows_refl]].
  destruct (match sequence with Some n => _ | None => false end); simplify_eq;
    [split; [done|apply grows_refl]|].
  by apply inv_memory_move.
Qed.
End steps.
