(* ===== verification/Selection.v ===== *)
(** * What selection picks

    The request dispatched next is, in the class chosen, the first one in queue
    order that has no queued predecessor in its capability domain and whose
    assessment is [Runnable]. *)

From S2P Require Import Prelude Contract Text Kernel State Assess Fairness Admission Memory.
From S2P Require Import Books Custody Ledger Moves Reads Invariant.

Lemma find_enum_Some {A} (f : A → bool) k l i x :
  find_enum f k l = Some (i, x) →
  ∃ j, i = (k + j)%nat ∧ l !! j = Some x ∧ f x = true ∧
       ∀ j' y, (j' < j)%nat → l !! j' = Some y → f y = false.
Proof.
  revert k. induction l as [|a l IH]; intros k; cbn; [done|].
  destruct (f a) eqn:E.
  - intros [= <- <-]. exists 0%nat. split_and!; [lia|done|done|]. intros. lia.
  - intros (j & -> & Hj & Hf & Hmin)%IH. exists (S j). split_and!; [lia|done|done|].
    intros [|j'] y Hlt; cbn; [by intros [= <-]|]. apply Hmin. lia.
Qed.

Lemma find_enum_None {A} (f : A → bool) k l :
  find_enum f k l = None ↔ ∀ x, x ∈ l → f x = false.
Proof.
  revert k. induction l as [|a l IH]; intros k; cbn.
  { split; [|done]. intros _ x Hx. by apply not_elem_of_nil in Hx. }
  destruct (f a) eqn:E.
  - split; [done|]. intros H. specialize (H a). rewrite H in E by left. done.
  - rewrite IH. split; [|intros H x ?; apply H; by right].
    intros H x [->|?]%elem_of_cons; [done|by apply H].
Qed.

Lemma List_find_Some {A} (f : A → bool) l x :
  List.find f l = Some x → x ∈ l ∧ f x = true.
Proof. intros H. apply List.find_some in H as [H ?]. by apply list_elem_of_In in H. Qed.

Lemma runnable_candidate s P ca :
  ca ∈ runnable_candidates s P →
  ∃ c, gs_classes s !! ca_class ca = Some c ∧ class_candidate s P (ca_class ca) c = Some ca.
Proof.
  unfold runnable_candidates. intros ([class c] & Hin & H)%list_elem_of_omap.
  apply elem_of_btree_to_list in Hin.
  assert (ca_class ca = class) as <-; [|by eexists].
  unfold class_candidate in H. apply bind_Some in H as (policy & _ & H).
  apply bind_Some in H as ([i r] & _ & H). by simplify_eq.
Qed.

Lemma class_candidate_spec s P class c ca :
  class_candidate s P class c = Some ca →
  ∃ policy r, ps_class P class = Some policy ∧ cs_queue c !! ca_queue_index ca = Some r ∧
    dispatchable s P policy c r = true ∧ ca_fairness ca = fairness policy ∧
    ca_best_effort ca = best_effort policy ∧
    ca_head_finish_tag ca = service_tag policy c (ca_queue_index ca) r ∧
    ∀ j r', (j < ca_queue_index ca)%nat → cs_queue c !! j = Some r' →
            dispatchable s P policy c r' = false.
Proof.
  unfold class_candidate. intros H. apply bind_Some in H as (policy & Hpol & H).
  apply bind_Some in H as ([i r] & Hf & H). simplify_eq. cbn.
  apply find_enum_Some in Hf as (j & -> & Hj & Hd & Hmin). by exists policy, r.
Qed.

(** The request [select] names. *)
Lemma select_sound s P sel s' :
  select s P = Some (Some sel, s') →
  ∃ ca, ca ∈ runnable_candidates s P ∧ sel_class sel = ca_class ca ∧
        sel_queue_index sel = ca_queue_index ca ∧
        sel_service_finish_tag sel = ca_head_finish_tag ca.
Proof.
  unfold select. set (pool := List.filter _ _). clearbody pool.
  destruct pool as [|c0 pool]; [done|]. intros H.
  apply bind_Some in H as ([chosen s1] & _ & H). destruct chosen as [chosen|]; [|done].
  destruct (List.find _ (runnable_candidates s P)) as [ca|] eqn:E; [|done].
  apply List_find_Some in E as [Hin Heq%bool_decide_eq_true]. simplify_eq. cbn.
  by exists ca.
Qed.

(** The selected request fits every limit. *)
Lemma select_fits s P sel s' :
  (∀ class r, r ∈ waiting s class → pr_class r = class) →
  select s P = Some (Some sel, s') →
  ∃ c policy r,
    gs_classes s !! sel_class sel = Some c ∧ ps_class P (sel_class sel) = Some policy ∧
    cs_queue c !! sel_queue_index sel = Some r ∧
    ClassState.has_queued_predecessor c r = false ∧
    fits P s (sel_class sel) policy (pr_cost r) (pr_capabilities r).
Proof.
  intros Hcl (ca & Hin & -> & -> & _)%select_sound.
  apply runnable_candidate in Hin as (c & Hc & Hca).
  apply class_candidate_spec in Hca as (policy & r & Hpol & Hr & Hd & _ & _ & _).
  apply andb_true_iff in Hd as [Hp Hrun%bool_decide_eq_true].
  assert (pr_class r = ca_class ca) as Ecl.
  { apply (Hcl (ca_class ca) (untag r)). unfold waiting. rewrite (class_state_Some _ _ _ Hc).
    by apply list_elem_of_fmap_2, list_elem_of_lookup_2 with (ca_queue_index ca). }
  apply negb_true_iff in Hp. exists c, policy, r. split_and!; [done..|].
  unfold assess_pending in Hrun. rewrite Ecl in Hrun. by apply assess_scope_fits in Hrun as [? _].
Qed.
