(* ===== verification/Ring.v ===== *)
(** * The deficit ring

    The scheduler serves deficit classes from a ring without walking it: each
    class's first affordable visit is computed in closed form, the earliest one
    wins, and every class is credited for the visits passed over.  Its source
    promises the same selection and the same deficits as the walk it replaces;
    [ring_visit] is that walk, one class per step, and the two agree. *)

From S2P Require Import Prelude Contract Text Kernel State Assess Fairness.
From S2P Require Import Books.

(** ** The walk, one visit at a time *)

Definition head_cost (c : Candidate) : N := N.max (ca_head_cost_cpu c) 1.

(** Position [pos] of the walk visits a class: credit it one quantum, serve it if
    its deficit covers its head, otherwise go on. *)
Fixpoint ring_visit (fuel : nat) (pool : list Candidate) (start pos : nat) (s : GovernedState)
  : option (TaskClass * GovernedState) :=
  match fuel with
  | O => None
  | S fuel' =>
    c ← pool !! ((start + pos) `mod` length pool)%nat;
    let s := class_mut (ca_class c)
      (upd_cs_deficit (λ d, saturating_add U128_MAX d (drr_quantum (ca_fairness c)))) s in
    if decide (head_cost c ≤ class_deficit s (ca_class c))
    then Some (ca_class c, class_mut (ca_class c) (upd_cs_deficit (λ d, d - head_cost c)) s)
    else ring_visit fuel' pool start (S pos) s
  end.

Definition ring_walk (fuel : nat) (s : GovernedState) (pool : list Candidate)
  : option (option TaskClass * GovernedState) :=
  let s1 := upd_gs_drr_ring_visits (λ n, saturating_add U64_MAX n (N.of_nat (length pool))) s in
  '(class, s2) ← ring_visit fuel pool (ring_start s pool) 0 s1;
  Some (Some class, upd_gs_drr_cursor (λ _, Some class) s2).

(** ** Class updates commute and compose *)

Lemma class_mut_ext class f g s :
  (∀ c, f c = g c) → class_mut class f s = class_mut class g s.
Proof. intros H. unfold class_mut. destruct s. unfold upd_gs_classes. cbn. by rewrite H. Qed.

Lemma class_mut_twice class f g s :
  class_mut class f (class_mut class g s) = class_mut class (λ c, f (g c)) s.
Proof.
  unfold class_mut. destruct s. unfold upd_gs_classes. cbn.
  by rewrite lookup_insert_eq, insert_insert_eq.
Qed.

Lemma class_mut_comm a b f g s :
  a ≠ b → class_mut a f (class_mut b g s) = class_mut b g (class_mut a f s).
Proof.
  intros Hne. unfold class_mut. destruct s. unfold upd_gs_classes. cbn.
  rewrite !lookup_insert_ne by congruence. by rewrite insert_insert_ne by congruence.
Qed.

Lemma class_deficit_mut a b f s :
  class_deficit (class_mut a (upd_cs_deficit f) s) b =
    if decide (b = a) then f (class_deficit s a) else class_deficit s b.
Proof.
  unfold class_deficit, class_mut. cbn. case_decide as E; [subst b|].
  - rewrite lookup_insert_eq. by destruct (gs_classes s !! a).
  - by rewrite lookup_insert_ne by congruence.
Qed.

(** ** Arithmetic of the ring *)

Lemma saturating_credit d k q :
  saturating_add U128_MAX (saturating_add U128_MAX d (saturating_mul U128_MAX k q)) q =
  saturating_add U128_MAX d (saturating_mul U128_MAX (k + 1) q).
Proof. unfold saturating_add, saturating_mul. rewrite N.mul_add_distr_r. lia. Qed.

(** The visits a class with deficit [d] needs until it affords [cost]. *)
Definition visits_needed (d cost quantum : N) : N :=
  if decide (cost ≤ d) then 1 else div_ceil (cost - d) quantum.

Lemma visits_needed_le d cost q k :
  q ≠ 0 → cost ≤ U128_MAX → d ≤ U128_MAX → 0 < k →
  visits_needed d cost q ≤ k ↔ cost ≤ saturating_add U128_MAX d (saturating_mul U128_MAX k q).
Proof.
  intros Hq Hc Hd Hk. unfold visits_needed, saturating_add, saturating_mul. case_decide.
  - split; [intros _|]; lia.
  - rewrite div_ceil_le by done. lia.
Qed.

Lemma visits_needed_pos d cost q : q ≠ 0 → 0 < cost → 0 < visits_needed d cost q.
Proof.
  intros Hq Hc. unfold visits_needed. case_decide; [lia|].
  destruct (decide (div_ceil (cost - d) q = 0)) as [E|]; [|lia].
  assert (div_ceil (cost - d) q ≤ 0) as H0%div_ceil_le by lia; [lia|done].
Qed.

(** Positions before [n] that visit the slot at [offset]. *)
Definition visits_before (len offset n : nat) : N :=
  if decide (n ≤ offset)%nat then 0 else N.of_nat ((n - 1 - offset) `div` len) + 1.

Lemma visits_before_next len offset n :
  (offset < len)%nat →
  visits_before len offset (S n) =
    if decide (n `mod` len = offset)%nat then visits_before len offset n + 1
    else visits_before len offset n.
Proof.
  intros Ho. unfold visits_before.
  pose proof (Nat.div_mod n len ltac:(lia)) as En. pose proof (Nat.mod_upper_bound n len ltac:(lia)).
  set (q := (n `div` len)%nat) in *. set (m := (n `mod` len)%nat) in *.
  replace (S n - 1 - offset)%nat with (n - offset)%nat by lia.
  assert (∀ k a, (a < len)%nat → (((len * k + a) `div` len)%nat = k)) as Hdiv.
  { intros k a Ha. symmetry. by apply (Nat.div_unique _ _ _ a). }
  destruct (decide (m = offset)) as [->|Hm].
  - rewrite decide_False by nia. replace (n - offset)%nat with (len * q + 0)%nat by lia.
    rewrite Hdiv by lia. case_decide as Hn.
    + assert (q = 0)%nat as -> by nia. lia.
    + destruct q as [|q']; [nia|].
      replace (n - 1 - offset)%nat with (len * q' + (len - 1))%nat by nia. rewrite Hdiv by lia. lia.
  - destruct (decide (m < offset)%nat) as [Hlt|Hge].
    + destruct q as [|q'].
      * rewrite !decide_True by nia. done.
      * rewrite !decide_False by nia.
        replace (n - offset)%nat with (len * q' + (len + m - offset))%nat by nia.
        replace (n - 1 - offset)%nat with (len * q' + (len + m - offset - 1))%nat by nia.
        by rewrite !Hdiv by lia.
    + rewrite !decide_False by nia.
      replace (n - offset)%nat with (len * q + (m - offset))%nat by nia.
      replace (n - 1 - offset)%nat with (len * q + (m - offset - 1))%nat by nia.
      by rewrite !Hdiv by lia.
Qed.

(** The [k]-th visit of a slot is at position [offset + k * len]. *)
Lemma visits_before_at len offset n :
  (0 < len)%nat → (n `mod` len = offset)%nat →
  visits_before len offset (S n) = N.of_nat (n `div` len) + 1.
Proof.
  intros Hl E. unfold visits_before. pose proof (Nat.div_mod n len ltac:(lia)) as En.
  rewrite decide_False by nia. do 2 f_equal. symmetry.
  apply (Nat.div_unique _ _ _ 0); lia.
Qed.

(** ** The plan *)

Definition ring_offset (len start index : nat) : nat := ((index + len - start) `mod` len)%nat.

Definition visit_of (s : GovernedState) (len start index : nat) (c : Candidate) : PlannedVisit :=
  let offset := N.of_nat (ring_offset len start index) in
  {| vi_class := ca_class c; vi_quantum := drr_quantum (ca_fairness c); vi_cost := head_cost c;
     vi_offset := offset;
     vi_visit_pos := offset +
       (visits_needed (class_deficit s (ca_class c)) (head_cost c) (drr_quantum (ca_fairness c)) - 1)
         * N.of_nat len |}.

Lemma ring_offset_slot len start i n :
  (start < len)%nat → (i < len)%nat →
  ((start + n) `mod` len = i)%nat ↔ (n `mod` len = ring_offset len start i)%nat.
Proof.
  intros Hs Hi. unfold ring_offset.
  pose proof (Nat.div_mod n len ltac:(lia)) as En. pose proof (Nat.mod_upper_bound n len ltac:(lia)).
  set (q := (n `div` len)%nat) in *. set (m := (n `mod` len)%nat) in *.
  assert (∀ k a b, (a < len)%nat → b = (len * k + a)%nat → (b `mod` len = a)%nat) as Hmod.
  { intros k a b Ha ->. symmetry. by apply (Nat.mod_unique _ _ k a). }
  assert ((start + n) `mod` len = if decide (start + m < len) then start + m else start + m - len)%nat
    as -> by (case_decide; [apply (Hmod q)|apply (Hmod (S q))]; lia).
  assert ((i + len - start) `mod` len = if decide (i < start) then i + len - start else i - start)%nat
    as -> by (case_decide; [apply (Hmod 0%nat)|apply (Hmod 1%nat)]; lia).
  repeat case_decide; lia.
Qed.

Lemma plan_visit_of s len start i c :
  drr_quantum (ca_fairness c) ≠ 0 → plan_visit s len start i c = Some (visit_of s len start i c).
Proof.
  intros Hq. unfold plan_visit, visit_of, visits_needed, ring_offset, head_cost.
  case_decide; [done|]. by rewrite decide_False.
Qed.

Lemma plan_from_imap s len start i pool :
  Forall (λ c, drr_quantum (ca_fairness c) ≠ 0) pool →
  plan_from s len start i pool = Some (imap (λ j, visit_of s len start (i + j)) pool).
Proof.
  revert i. induction pool as [|c pool IH]; intros i Hq; [done|].
  apply Forall_cons in Hq as [Hc Hq]. cbn [plan_from].
  rewrite plan_visit_of by done. cbn [mbind option_bind].
  rewrite (IH (S i)) by done. cbn [mbind option_bind imap]. rewrite Nat.add_0_r. do 2 f_equal.
  apply imap_ext. intros j x _. cbn. by rewrite Nat.add_succ_r.
Qed.

Lemma min_pos_spec best vs :
  min_pos best vs ≤ best ∧ (∀ v, v ∈ vs → min_pos best vs ≤ vi_visit_pos v) ∧
  (min_pos best vs = best ∨ ∃ v, v ∈ vs ∧ min_pos best vs = vi_visit_pos v).
Proof.
  revert best. induction vs as [|v vs IH]; intros best; cbn.
  { split_and!; [done| |by left]. intros v Hv. by apply not_elem_of_nil in Hv. }
  destruct (IH (N.min best (vi_visit_pos v))) as (H1 & H2 & H3). split_and!.
  - lia.
  - intros v' [->|Hv']%elem_of_cons; [lia|by apply H2].
  - destruct H3 as [->|(v' & Hv' & ->)]; [|right; exists v'; split; [by right|done]].
    destruct (N.min_spec best (vi_visit_pos v)) as [[_ ->]|[_ ->]]; [by left|].
    right. exists v. split; [by left|done].
Qed.

(** ** Crediting the plan *)

Section credit.
Context (len : nat).

(** The credit of the visits before position [n]. *)
Definition credit_before (n : nat) (s : GovernedState) (v : PlannedVisit) : GovernedState :=
  match n with O => s | S p => credit_visit len (N.of_nat p) s v end.

Local Arguments credit_before : simpl never.

Lemma credit_before_eq n s v :
  credit_before n s v =
    let k := visits_before len (N.to_nat (vi_offset v)) n in
    if decide (k = 0) then s
    else class_mut (vi_class v)
      (upd_cs_deficit (λ d, saturating_add U128_MAX d (saturating_mul U128_MAX k (vi_quantum v)))) s.
Proof.
  destruct n as [|p]; unfold credit_before.
  { unfold visits_before. by rewrite (decide_True (P := (0 ≤ _)%nat)) by lia. }
  unfold credit_visit, visits_before. cbv zeta.
  destruct (decide (N.of_nat p < vi_offset v)).
  - by rewrite (decide_True (P := (S p ≤ _)%nat)) by lia.
  - rewrite (decide_False (P := (S p ≤ _)%nat)) by lia.
    replace (N.of_nat p - vi_offset v) with (N.of_nat (S p - 1 - N.to_nat (vi_offset v))) by lia.
    rewrite <-Nat2N.inj_div. rewrite decide_False by lia. done.
Qed.

Lemma credit_before_comm n a f v s :
  a ≠ vi_class v → credit_before n (class_mut a f s) v = class_mut a f (credit_before n s v).
Proof. intros. rewrite !credit_before_eq. cbv zeta. case_decide; [done|by apply class_mut_comm]. Qed.

Lemma credit_plan_comm n a f vs s :
  Forall (λ v, a ≠ vi_class v) vs →
  foldl (credit_before n) (class_mut a f s) vs = class_mut a f (foldl (credit_before n) s vs).
Proof.
  revert s. induction vs as [|v vs IH]; intros s H; [done|]. apply Forall_cons in H as [Hv H].
  cbn. by rewrite credit_before_comm, IH.
Qed.

Lemma credit_plan_deficit n a vs s :
  Forall (λ v, a ≠ vi_class v) vs →
  class_deficit (foldl (credit_before n) s vs) a = class_deficit s a.
Proof.
  revert s. induction vs as [|v vs IH]; intros s H; [done|]. apply Forall_cons in H as [Hv H].
  cbn. rewrite IH by done. rewrite credit_before_eq. cbv zeta. case_decide; [done|].
  rewrite class_deficit_mut. by rewrite decide_False.
Qed.

Definition credit_once (v : PlannedVisit) : GovernedState → GovernedState :=
  class_mut (vi_class v) (upd_cs_deficit (λ d, saturating_add U128_MAX d (vi_quantum v))).

Lemma credit_before_next n s v :
  (N.to_nat (vi_offset v) < len)%nat → vi_quantum v ≤ U128_MAX →
  credit_before (S n) s v =
    if decide (n `mod` len = N.to_nat (vi_offset v))%nat
    then credit_once v (credit_before n s v) else credit_before n s v.
Proof.
  intros Ho Hq. rewrite (credit_before_eq (S n)), (credit_before_eq n). cbv zeta.
  rewrite visits_before_next by done. destruct (decide (n `mod` len = _)%nat); [|done].
  set (k := visits_before len (N.to_nat (vi_offset v)) n).
  rewrite decide_False by lia. unfold credit_once.
  destruct (decide (k = 0)) as [->|Hk].
  - apply class_mut_ext. intros c. unfold upd_cs_deficit. f_equal.
    unfold saturating_add, saturating_mul. lia.
  - rewrite class_mut_twice. apply class_mut_ext. intros c. destruct c. unfold upd_cs_deficit. cbn.
    f_equal. symmetry. apply saturating_credit.
Qed.

(** One more position credits the class in its slot once more. *)
Lemma credit_plan_next n plan s i v :
  NoDup (vi_class <$> plan) →
  (∀ j u, plan !! j = Some u → (N.to_nat (vi_offset u) < len)%nat ∧ vi_quantum u ≤ U128_MAX ∧
     (n `mod` len = N.to_nat (vi_offset u) ↔ j = i)%nat) →
  plan !! i = Some v →
  foldl (credit_before (S n)) s plan = credit_once v (foldl (credit_before n) s plan).
Proof.
  intros Hnd Hall Hi.
  assert (∀ vs s, (∀ u, u ∈ vs → ∃ j, plan !! j = Some u ∧ j ≠ i) →
    foldl (credit_before (S n)) s vs = foldl (credit_before n) s vs) as Hsame.
  { intros vs. induction vs as [|u vs IH]; intros s0 H; [done|]. cbn.
    destruct (H u) as (j & Hj & Hne); [by left|]. destruct (Hall j u Hj) as (Ho & Hq & Hm).
    rewrite credit_before_next by done. rewrite decide_False by naive_solver.
    apply IH. intros u' Hu'. apply H. by right. }
  pose proof (take_drop_middle plan i v Hi) as E.
  assert (∀ u, u ∈ take i plan → ∃ j, plan !! j = Some u ∧ j ≠ i) as Hpre.
  { intros u (j & Hj)%list_elem_of_lookup. apply lookup_take_Some in Hj as [Hj ?].
    exists j. split; [done|lia]. }
  assert (∀ u, u ∈ drop (S i) plan → ∃ j, plan !! j = Some u ∧ j ≠ i) as Hpost.
  { intros u (j & Hj)%list_elem_of_lookup. rewrite lookup_drop in Hj.
    exists (S i + j)%nat. split; [done|lia]. }
  rewrite <-E. rewrite !foldl_app. cbn [foldl].
  rewrite (Hsame (take i plan)) by done.
  destruct (Hall i v Hi) as (Ho & Hq & Hm).
  rewrite credit_before_next by done. rewrite decide_True by naive_solver.
  rewrite (Hsame (drop (S i) plan)) by done.
  unfold credit_once. apply credit_plan_comm. apply Forall_forall. intros u Hu Eu.
  apply Hpost in Hu as (j & Hj & Hne). apply Hne.
  eapply (NoDup_lookup _ _ _ (vi_class v) Hnd); apply list_lookup_fmap_Some; eauto.
Qed.

Lemma credited_deficit n plan s i v :
  NoDup (vi_class <$> plan) → plan !! i = Some v →
  class_deficit (foldl (credit_before n) s plan) (vi_class v) =
    let k := visits_before len (N.to_nat (vi_offset v)) n in
    if decide (k = 0) then class_deficit s (vi_class v)
    else saturating_add U128_MAX (class_deficit s (vi_class v))
           (saturating_mul U128_MAX k (vi_quantum v)).
Proof.
  intros Hnd Hi. pose proof (take_drop_middle plan i v Hi) as E.
  rewrite <-E, fmap_app in Hnd. apply NoDup_app in Hnd as (_ & Hpre & Hpost).
  apply NoDup_cons in Hpost as [Hpost _].
  rewrite <-E, foldl_app. cbn [foldl]. rewrite credit_plan_deficit.
  - rewrite credit_before_eq. cbv zeta.
    assert (class_deficit (foldl (credit_before n) s (take i plan)) (vi_class v) =
            class_deficit s (vi_class v)) as Es.
    { apply credit_plan_deficit, Forall_forall. intros u Hu Eu.
      apply (Hpre (vi_class u)); [by apply list_elem_of_fmap_2|]. rewrite <-Eu. by left. }
    case_decide; [done|]. rewrite class_deficit_mut, decide_True by done. by rewrite Es.
  - apply Forall_forall. intros u Hu Eu. apply Hpost. rewrite Eu. by apply list_elem_of_fmap_2.
Qed.
End credit.

(** ** The two agree *)

Section agreement.
Context (s : GovernedState) (pool : list Candidate) (start : nat).
Let len := length pool.
Hypothesis Hstart : (start < len)%nat.
Hypothesis Hclasses : NoDup (ca_class <$> pool).
Hypothesis Hquantum : Forall (λ c, 0 < drr_quantum (ca_fairness c) ≤ U128_MAX) pool.
Hypothesis Hcost : Forall (λ c, ca_head_cost_cpu c ≤ U128_MAX) pool.
Hypothesis Hdeficit : ∀ class, class_deficit s class ≤ U128_MAX.

Let plan := imap (visit_of s len start) pool.

Lemma plan_lookup i c : pool !! i = Some c → plan !! i = Some (visit_of s len start i c).
Proof. intros H. unfold plan. by rewrite list_lookup_imap, H. Qed.

Lemma plan_lookup_inv i v :
  plan !! i = Some v → ∃ c, pool !! i = Some c ∧ v = visit_of s len start i c.
Proof.
  unfold plan. rewrite list_lookup_imap. destruct (pool !! i) as [c|]; [|done].
  intros [= <-]. by exists c.
Qed.

Lemma plan_classes : NoDup (vi_class <$> plan).
Proof.
  assert (vi_class <$> plan = ca_class <$> pool) as ->; [|done].
  apply list_eq. intros i. rewrite !list_lookup_fmap. unfold plan. rewrite list_lookup_imap.
  by destruct (pool !! i).
Qed.

Lemma plan_slots n i c :
  pool !! i = Some c → ((start + n) `mod` len = i)%nat →
  ∀ j u, plan !! j = Some u → (N.to_nat (vi_offset u) < len)%nat ∧ vi_quantum u ≤ U128_MAX ∧
     (n `mod` len = N.to_nat (vi_offset u) ↔ j = i)%nat.
Proof.
  intros Hi Hn j u (c' & Hj & ->)%plan_lookup_inv. cbn. rewrite Nat2N.id.
  pose proof (lookup_lt_Some _ _ _ Hj). rewrite Forall_forall in Hquantum. split_and!.
  - apply Nat.mod_upper_bound. lia.
  - by apply Hquantum, list_elem_of_lookup_2 with j.
  - rewrite <-ring_offset_slot by done. rewrite Hn. by split.
Qed.

(** The state of the walk before position [n]. *)
Definition walked (n : nat) : GovernedState := foldl (credit_before len n) s plan.

Lemma ring_visit_step fuel n i c :
  pool !! i = Some c → ((start + n) `mod` len = i)%nat →
  ring_visit (S fuel) pool start n (walked n) =
    if decide (vi_visit_pos (visit_of s len start i c) ≤ N.of_nat n)
    then Some (ca_class c, class_mut (ca_class c) (upd_cs_deficit (λ d, d - head_cost c)) (walked (S n)))
    else ring_visit fuel pool start (S n) (walked (S n)).
Proof.
  intros Hi Hn. pose proof (lookup_lt_Some _ _ _ Hi) as Hlt. fold len in Hlt. cbn [ring_visit]. fold len.
  rewrite Hn, Hi. cbn [mbind option_bind].
  set (v := visit_of s len start i c).
  assert (walked (S n) = class_mut (ca_class c) (upd_cs_deficit
    (λ d, saturating_add U128_MAX d (drr_quantum (ca_fairness c)))) (walked n)) as E.
  { unfold walked. apply (credit_plan_next len n plan s i v);
      [apply plan_classes|by eapply plan_slots|by apply plan_lookup]. }
  rewrite <-E. apply ring_offset_slot in Hn; [|done..].
  pose proof (credited_deficit len (S n) plan s i v plan_classes (plan_lookup _ _ Hi)) as Ed.
  cbv zeta in Ed. cbn [vi_class vi_offset v visit_of] in Ed. rewrite Nat2N.id in Ed.
  rewrite visits_before_at in Ed by (done || lia). rewrite decide_False in Ed by lia.
  fold (walked (S n)) in Ed. rewrite Ed. cbn [vi_quantum v visit_of].
  rewrite Forall_forall in Hquantum, Hcost.
  pose proof (Hquantum c (list_elem_of_lookup_2 _ _ _ Hi)) as [Hq _].
  pose proof (Hcost c (list_elem_of_lookup_2 _ _ _ Hi)) as Hc. cbn beta in Hq, Hc.
  specialize (Hdeficit (ca_class c)).
  assert (0 < head_cost c ≤ U128_MAX) as [Hc0 Hc1] by (unfold head_cost; ulia).
  pose proof (visits_needed_le (class_deficit s (ca_class c)) (head_cost c)
    (drr_quantum (ca_fairness c)) (N.of_nat (n `div` len) + 1)) as Hneed.
  pose proof (visits_needed_pos (class_deficit s (ca_class c)) (head_cost c)
    (drr_quantum (ca_fairness c))) as Hpos.
  set (need := visits_needed _ _ _) in *.
  assert (vi_visit_pos v = N.of_nat (ring_offset len start i) + (need - 1) * N.of_nat len) as -> by done.
  pose proof (Nat.div_mod n len ltac:(lia)) as En.
  assert (need ≤ N.of_nat (n `div` len) + 1 ↔
    N.of_nat (ring_offset len start i) + (need - 1) * N.of_nat len ≤ N.of_nat n) as Hiff by nia.
  apply decide_ext. rewrite <-Hiff, Hneed by lia. done.
Qed.

(** The walk stops at the earliest affordable visit. *)
Lemma ring_visit_wins n i c extra :
  pool !! i = Some c → ((start + n) `mod` len = i)%nat →
  vi_visit_pos (visit_of s len start i c) = N.of_nat n →
  (∀ j u, plan !! j = Some u → N.of_nat n ≤ vi_visit_pos u) →
  ring_visit (S n + extra) pool start 0 s =
    Some (ca_class c,
      class_mut (ca_class c) (upd_cs_deficit (λ d, d - head_cost c)) (walked (S n))).
Proof.
  intros Hi Hn Hw Hmin.
  assert (∀ k, (k ≤ n)%nat → ring_visit (S k + extra) pool start (n - k) (walked (n - k)) =
    Some (ca_class c,
      class_mut (ca_class c) (upd_cs_deficit (λ d, d - head_cost c)) (walked (S n)))) as H.
  { induction k as [|k IH]; intros Hk; cbn [Nat.add].
    - rewrite Nat.sub_0_r. rewrite (ring_visit_step _ n i c) by done. by rewrite decide_True by lia.
    - pose proof (Nat.mod_upper_bound (start + (n - S k)) len ltac:(lia)) as Hlt.
      destruct (lookup_lt_is_Some_2 pool _ Hlt) as [c' Hc'].
      rewrite (ring_visit_step _ _ _ c' Hc') by done. rewrite decide_False.
      + replace (S (n - S k)) with (n - k)%nat by lia. apply IH. lia.
      + specialize (Hmin _ _ (plan_lookup _ _ Hc')). lia. }
  specialize (H n ltac:(lia)). rewrite Nat.sub_diag in H.
  assert (walked 0 = s) as <-; [|exact H]. unfold walked.
  clear. induction plan as [|v vs IH]; [done|exact IH].
Qed.

(** Some position is the earliest one. *)
Lemma plan_winner :
  ∃ v0 vs, plan = v0 :: vs ∧ let pos := min_pos (vi_visit_pos v0) vs in
    (∀ u, u ∈ plan → pos ≤ vi_visit_pos u) ∧
    ∃ i c, pool !! i = Some c ∧ visit_of s len start i c ∈ plan ∧
      List.find (λ v, vi_visit_pos v =? pos) plan = Some (visit_of s len start i c) ∧
      vi_visit_pos (visit_of s len start i c) = pos.
Proof.
  destruct plan as [|v0 vs] eqn:E.
  { exfalso. assert (length plan = len) as Hl by apply length_imap. rewrite E in Hl. cbn in Hl. lia. }
  exists v0, vs. split; [done|]. cbv zeta.
  destruct (min_pos_spec (vi_visit_pos v0) vs) as (H1 & H2 & H3).
  set (pos := min_pos _ _) in *. split.
  { intros u [->|Hu]%elem_of_cons; [done|by apply H2]. }
  assert (∃ u, u ∈ v0 :: vs ∧ vi_visit_pos u = pos) as (u & Hu & Eu).
  { destruct H3 as [H3|(u & Hu & H3)]; [exists v0; split; [by left|done]|].
    exists u. split; [by right|done]. }
  destruct (List.find (λ v, vi_visit_pos v =? pos) (v0 :: vs)) as [w|] eqn:Ef.
  - apply List.find_some in Ef as [Hw Ew%N.eqb_eq]. apply list_elem_of_In in Hw.
    pose proof Hw as (i & Hi)%list_elem_of_lookup. rewrite <-E in Hi.
    apply plan_lookup_inv in Hi as (c & Hc & ->). exists i, c. by rewrite <-E in Hw |- *.
  - exfalso. pose proof (List.find_none _ _ Ef u) as Hno. apply list_elem_of_In, Hno in Hu.
    cbn beta in Hu. rewrite Eu, N.eqb_refl in Hu. done.
Qed.
End agreement.

(** A position's slot. *)
Lemma visit_pos_slot s len start i c n :
  (start < len)%nat → (i < len)%nat → vi_visit_pos (visit_of s len start i c) = N.of_nat n →
  ((start + n) `mod` len = i)%nat.
Proof.
  intros Hs Hi E. apply ring_offset_slot; [done..|]. cbn in E.
  set (k := visits_needed _ _ _ - 1) in *.
  assert (ring_offset len start i < len)%nat as Ho by (apply Nat.mod_upper_bound; lia).
  symmetry. apply (Nat.mod_unique _ _ (N.to_nat k)); [done|]. nia.
Qed.

Lemma position_lt {A} (f : A → bool) l i : position f l = Some i → (i < length l)%nat.
Proof.
  revert i. induction l as [|x l IH]; intros i; cbn; [done|]. destruct (f x); [intros [= <-]; lia|].
  destruct (position f l) as [j|]; [|done]. intros [= <-]. specialize (IH j eq_refl). lia.
Qed.

Lemma ring_start_lt s pool : pool ≠ [] → (ring_start s pool < length pool)%nat.
Proof.
  intros Hne. unfold ring_start.
  assert (0 < length pool)%nat by (destruct pool; [done|cbn; lia]).
  destruct (gs_drr_cursor s); [|done]. destruct (position _ pool) eqn:E; [by apply position_lt in E|done].
Qed.

(** C18: the closed form of the deficit ring selects the class the walk would, and
    leaves the same deficits, cursor and counters.  For every pool of distinct
    classes with positive quanta the walk ends, and from some number of visits on,
    both answer alike; neither panics. *)
Theorem drr_walk_agrees s pool :
  pool ≠ [] → NoDup (ca_class <$> pool) →
  Forall (λ c, 0 < drr_quantum (ca_fairness c) ≤ U128_MAX) pool →
  Forall (λ c, ca_head_cost_cpu c ≤ U128_MAX) pool →
  (∀ class, class_deficit s class ≤ U128_MAX) →
  ∃ visits class s', drr_walk s pool = Some (Some class, s') ∧ class ∈ ca_class <$> pool ∧
    ∀ fuel, (visits ≤ fuel)%nat → ring_walk fuel s pool = Some (Some class, s').
Proof.
  intros Hne Hnd Hq Hc Hd. pose proof (ring_start_lt s pool Hne) as Hst.
  set (s1 := upd_gs_drr_ring_visits (λ n, saturating_add U64_MAX n (N.of_nat (length pool))) s).
  destruct (plan_winner s1 pool (ring_start s pool) Hst)
    as (v0 & vs & Eplan & Hmin & i & c & Hi & Hin & Hf & Ew).
  set (pos := min_pos (vi_visit_pos v0) vs) in *.
  set (w := visit_of s1 (length pool) (ring_start s pool) i c) in *.
  set (plan := imap _ pool) in *.
  exists (S (N.to_nat pos)), (ca_class c), (upd_gs_drr_cursor (λ _, Some (ca_class c))
    (class_mut (ca_class c) (upd_cs_deficit (λ d, d - head_cost c))
       (walked s1 pool (ring_start s pool) (S (N.to_nat pos))))).
  split_and!.
  - unfold drr_walk. fold s1.
    rewrite plan_from_imap by (eapply Forall_impl; [exact Hq|]; cbn; intros; lia).
    change (imap _ pool) with plan. cbn [mbind option_bind]. rewrite Eplan. fold pos. rewrite <-Eplan, Hf.
    unfold walked, credit_before. fold plan. by rewrite N2Nat.id.
  - apply list_elem_of_fmap_2. by eapply list_elem_of_lookup_2.
  - intros fuel Hfuel. unfold ring_walk. fold s1.
    replace fuel with (S (N.to_nat pos) + (fuel - S (N.to_nat pos)))%nat by lia.
    rewrite (ring_visit_wins s1 pool (ring_start s pool) Hst Hnd Hq Hc Hd _ i c); [done|done| | |].
    + apply (visit_pos_slot s1 _ _ _ c); [done|by eapply lookup_lt_Some|]. fold w. lia.
    + fold w. lia.
    + intros j u Hj. rewrite N2Nat.id. apply Hmin. by eapply list_elem_of_lookup_2.
Qed.

Lemma drr_walk_agrees_witness :
  ∃ visits class s', drr_walk GovernedState_default
      [mkCandidate "a" 0 (DeficitRoundRobin 2) false 1 0 U64_MAX 9;
       mkCandidate "b" 0 (DeficitRoundRobin 3) false 2 0 U64_MAX 10]%string = Some (Some class, s') ∧
    ∀ fuel, (visits ≤ fuel)%nat → ring_walk fuel GovernedState_default
      [mkCandidate "a" 0 (DeficitRoundRobin 2) false 1 0 U64_MAX 9;
       mkCandidate "b" 0 (DeficitRoundRobin 3) false 2 0 U64_MAX 10]%string = Some (Some class, s').
Proof.
  destruct (drr_walk_agrees GovernedState_default
      [mkCandidate "a" 0 (DeficitRoundRobin 2) false 1 0 U64_MAX 9;
       mkCandidate "b" 0 (DeficitRoundRobin 3) false 2 0 U64_MAX 10]%string)
    as (visits & class & s' & H1 & _ & H2); [done| | | | |by exists visits, class, s'].
  - apply NoDup_cons. split; [|apply NoDup_singleton]. intros H%list_elem_of_singleton. done.
  - repeat constructor; cbn; ulia.
  - repeat constructor; cbn; ulia.
  - intros class. unfold class_deficit. cbn. rewrite lookup_empty. ulia.
Defined.
