(* ===== verification/Dispatch.v ===== *)
(** * Which class dispatches next

    Selection always answers: it names a request whenever one can run, it leaves
    the lower tier to wait while the upper one has runnable work, and within the
    tier it takes the least key of the tier's discipline. *)

From S2P Require Import Prelude Contract Text Kernel State Assess Fairness Admission Memory PolicyCheck.
From S2P Require Import Books Custody Ledger Moves Reads Invariant Selection Ring.

(** A validated policy has no deficit class without a quantum. *)
Definition quanta_positive (P : PolicySet) : Prop :=
  ∀ class policy, ps_class P class = Some policy → drr_quantum (fairness policy) ≠ 0.

Lemma policy_wf_quanta P : policy_wf P → quanta_positive P.
Proof.
  intros Hwf class policy H. pose proof (cw_quantum _ _ _ (pw_classes _ Hwf _ _ H)) as Hq.
  destruct (fairness policy); cbn; [done|done|by eapply Hq|done|done].
Qed.

(** ** Least keys *)

Section minimum.
Context {K : Type} `{RustOrdLaws K} (key : Candidate → K).

Lemma min_by_key_spec best l :
  min_by_key key best l ∈ best :: l ∧
  ∀ c, c ∈ best :: l → rle (key (min_by_key key best l)) (key c).
Proof.
  revert best. induction l as [|x l IH]; intros best; cbn [min_by_key].
  { split; [by left|]. intros c ->%list_elem_of_singleton. reflexivity. }
  set (b := match rcmp (key x) (key best) with Lt => x | _ => best end).
  assert (rle (key b) (key best) ∧ rle (key b) (key x) ∧ (b = x ∨ b = best)) as (Hb & Hx & Hc).
  { unfold b. destruct (rcmp (key x) (key best)) eqn:E.
    - apply rcmp_eq in E. rewrite E. split_and!; [reflexivity..|by right].
    - split_and!; [by apply rle_lteq; left|reflexivity|by left].
    - split_and!; [reflexivity| |by right]. unfold rle. by rewrite rcmp_flip, E. }
  destruct (IH b) as [Hin Hmin]. split.
  - apply elem_of_cons in Hin as [->|Hin]; [|by do 2 right].
    destruct Hc as [->| ->]; [right; by left|by left].
  - intros c [->|[->|Hc']%elem_of_cons]%elem_of_cons.
    + etransitivity; [apply Hmin; by left|done].
    + etransitivity; [apply Hmin; by left|done].
    + apply Hmin. by right.
Qed.

Lemma pick_min_Some pool class :
  pick_min key pool = Some class →
  ∃ c, c ∈ pool ∧ ca_class c = class ∧ ∀ c', c' ∈ pool → rle (key c) (key c').
Proof.
  destruct pool as [|c0 pool]; [done|]. intros [= <-].
  destruct (min_by_key_spec c0 pool) as [Hin Hmin]. eauto.
Qed.
End minimum.

(** The deficit ring always finds a class. *)
Lemma drr_walk_total s pool :
  pool ≠ [] → Forall (λ c, drr_quantum (ca_fairness c) ≠ 0) pool →
  ∃ c s', drr_walk s pool = Some (Some (ca_class c), s') ∧ c ∈ pool.
Proof.
  intros Hne Hq. pose proof (ring_start_lt s pool Hne) as Hst.
  set (s1 := upd_gs_drr_ring_visits (λ n, saturating_add U64_MAX n (N.of_nat (length pool))) s).
  destruct (plan_winner s1 pool (ring_start s pool) Hst)
    as (v0 & vs & Eplan & _ & i & c & Hi & _ & Hf & _).
  exists c. unfold drr_walk. fold s1. rewrite plan_from_imap by done.
  change (imap _ pool) with (imap (visit_of s1 (length pool) (ring_start s pool)) pool).
  cbn [mbind option_bind]. rewrite Eplan in Hf |- *. rewrite Hf. eexists. split; [reflexivity|].
  by eapply list_elem_of_lookup_2.
Qed.

Lemma drr_select_total s pool :
  pool ≠ [] → Forall (λ c, drr_quantum (ca_fairness c) ≠ 0) pool →
  ∃ c s', drr_select s pool = Some (Some (ca_class c), s') ∧ c ∈ pool.
Proof.
  intros Hne Hq. pose proof (drr_walk_total s pool Hne Hq) as Hw.
  unfold drr_select. destruct pool as [|c0 pool]; [done|].
  destruct (gs_drr_cursor s) as [cur|]; [|done].
  destruct (List.find _ _) as [c|] eqn:E; [|done]. case_decide; [|done].
  apply List_find_Some in E as [Hc <-%bool_decide_eq_true]. by eexists _, _.
Qed.

(** ** Selection *)

(** The candidates of the tier that dispatches: the primary one, if any. *)
Definition dispatch_tier (candidates : list Candidate) : list Candidate :=
  let has_primary := existsb (λ c, negb (ca_best_effort c)) candidates in
  List.filter (λ c, xorb (ca_best_effort c) has_primary) candidates.

Lemma elem_of_dispatch_tier l c :
  c ∈ dispatch_tier l ↔
  c ∈ l ∧ (ca_best_effort c = true → ∀ c', c' ∈ l → ca_best_effort c' = true).
Proof.
  unfold dispatch_tier. rewrite list_elem_of_In, filter_In, <-list_elem_of_In.
  destruct (existsb _ l) eqn:E.
  - apply existsb_exists in E as (x & Hx & E). apply list_elem_of_In in Hx. apply negb_true_iff in E.
    split; intros [Hc H]; (split; [done|]).
    + by destruct (ca_best_effort c).
    + destruct (ca_best_effort c); [|done]. by rewrite (H eq_refl x Hx) in E.
  - assert (∀ c', c' ∈ l → ca_best_effort c' = true) as Hall.
    { intros c' Hc'. apply not_false_is_true. intros E'. apply not_true_iff_false in E. apply E.
      apply existsb_exists. exists c'. by rewrite <-list_elem_of_In, E'. }
    split; intros [Hc H]; (split; [done|]); [by intros _|]. by rewrite (Hall c Hc).
Qed.

Lemma dispatch_tier_nil l : dispatch_tier l = [] → l = [].
Proof.
  intros E. destruct l as [|c l]; [done|]. exfalso.
  assert (∃ x, x ∈ dispatch_tier (c :: l)) as [x Hx]; [|rewrite E in Hx; by apply not_elem_of_nil in Hx].
  setoid_rewrite elem_of_dispatch_tier.
  destruct (existsb (λ c, negb (ca_best_effort c)) (c :: l)) eqn:Ex.
  - apply existsb_exists in Ex as (x & Hx & Ex%negb_true_iff). apply list_elem_of_In in Hx.
    exists x. split; [done|]. by rewrite Ex.
  - exists c. split; [by left|]. intros _ x Hx. apply not_false_is_true. intros E'.
    apply not_true_iff_false in Ex. apply Ex. apply existsb_exists. exists x.
    by rewrite <-list_elem_of_In, E'.
Qed.

(** A dispatch key orders the tier under its discipline. *)
Definition least_key (discipline : FairnessPolicy) (tier : list Candidate) (c : Candidate) : Prop :=
  ∀ c', c' ∈ tier →
  match discipline with
  | Fifo | BestEffortScavenger => ca_head_queue_order c ≤ ca_head_queue_order c'
  | WeightedFairQueue _ _ =>
    rle (ca_head_finish_tag c, ca_head_queue_order c) (ca_head_finish_tag c', ca_head_queue_order c')
  | DeadlineAware _ =>
    rle (ca_head_deadline_ms c, ca_head_queue_order c) (ca_head_deadline_ms c', ca_head_queue_order c')
  | DeficitRoundRobin _ => True
  end.

Lemma runnable_candidates_classes s P : NoDup (ca_class <$> runnable_candidates s P).
Proof.
  unfold runnable_candidates.
  assert (NoDup (fst <$> btree_to_list (gs_classes s))) as Hnd.
  { rewrite btree_to_list_perm. apply NoDup_fst_map_to_list. }
  induction (btree_to_list (gs_classes s)) as [|[class c] l IH]; [constructor|].
  cbn in Hnd. apply NoDup_cons in Hnd as [Hn Hnd]. cbn.
  destruct (class_candidate s P class c) as [ca|] eqn:E; [|by apply IH].
  cbn. apply NoDup_cons. split; [|by apply IH].
  intros (ca' & Eca & (x & Hx & Hca')%list_elem_of_omap)%list_elem_of_fmap. apply Hn.
  assert (∀ class c ca, class_candidate s P class c = Some ca → ca_class ca = class) as Hcl.
  { unfold class_candidate. intros k c0 ca0 H. apply bind_Some in H as (p & _ & H).
    apply bind_Some in H as ([i r] & _ & H). by simplify_eq. }
  destruct x as [class' c']. apply Hcl in E, Hca'. subst. rewrite Eca.
  by apply (list_elem_of_fmap_2 fst _ (ca_class ca', c')).
Qed.

Lemma candidate_by_class s P c c' :
  c ∈ runnable_candidates s P → c' ∈ runnable_candidates s P → ca_class c = ca_class c' → c = c'.
Proof.
  intros (i & Hi)%list_elem_of_lookup (j & Hj)%list_elem_of_lookup E.
  pose proof (runnable_candidates_classes s P) as Hnd.
  assert (i = j) as ->; [|congruence].
  eapply (NoDup_lookup _ _ _ (ca_class c) Hnd); apply list_lookup_fmap_Some; eauto.
Qed.

Lemma find_class s P c l :
  (∀ x, x ∈ l → x ∈ runnable_candidates s P) → c ∈ l →
  List.find (λ x, bool_decide (ca_class x = ca_class c)) l = Some c.
Proof.
  intros Hsub Hc. destruct (List.find _ l) as [x|] eqn:E.
  - apply List_find_Some in E as [Hx Ex%bool_decide_eq_true]. f_equal.
    apply (candidate_by_class s P); auto.
  - exfalso. pose proof (List.find_none _ _ E c) as H. apply list_elem_of_In, H in Hc.
    by rewrite bool_decide_eq_true_2 in Hc.
Qed.

(** What [select] answers, with the candidate it chose. *)
Lemma select_cases s P :
  quanta_positive P →
  match runnable_candidates s P with
  | [] => select s P = Some (None, s)
  | _ => ∃ c s', select s P = Some (Some (mkSelection (ca_class c) (ca_queue_index c)
             (ca_head_finish_tag c)), s') ∧
         c ∈ dispatch_tier (runnable_candidates s P) ∧
         ∃ c0 tier, dispatch_tier (runnable_candidates s P) = c0 :: tier ∧
           least_key (ca_fairness c0) (c0 :: tier) c
  end.
Proof.
  intros Hq. destruct (runnable_candidates s P) as [|x xs] eqn:El.
  { unfold select. by rewrite El. }
  rewrite <-El. assert (Forall (λ c, drr_quantum (ca_fairness c) ≠ 0) (runnable_candidates s P)) as Hqs.
  { apply Forall_forall. intros c Hc. apply runnable_candidate in Hc as (cs & _ & Hca).
    apply class_candidate_spec in Hca as (policy & r & Hp & _ & _ & -> & _). by eapply Hq. }
  unfold select. fold (dispatch_tier (runnable_candidates s P)).
  destruct (dispatch_tier (runnable_candidates s P)) as [|c0 tier] eqn:Et.
  { apply dispatch_tier_nil in Et. congruence. }
  assert (∀ c, c ∈ c0 :: tier → c ∈ runnable_candidates s P) as Hsub.
  { intros c. rewrite <-Et. intros [? _]%elem_of_dispatch_tier. done. }
  assert (Forall (λ c, drr_quantum (ca_fairness c) ≠ 0) (c0 :: tier)) as Hqt.
  { rewrite Forall_forall in Hqs |- *. auto. }
  assert (∀ class, (∃ c, c ∈ c0 :: tier ∧ ca_class c = class ∧ least_key (ca_fairness c0) (c0 :: tier) c) →
    ∀ s1 : GovernedState, ∃ c s', match List.find (λ c, bool_decide (ca_class c = class)) (runnable_candidates s P) with
      | None => Some (None, s1)
      | Some chosen => Some (Some (mkSelection class (ca_queue_index chosen) (ca_head_finish_tag chosen)), s1)
      end = Some (Some (mkSelection (ca_class c) (ca_queue_index c) (ca_head_finish_tag c)), s') ∧
      c ∈ c0 :: tier ∧ ∃ c1 tier', c0 :: tier = c1 :: tier' ∧ least_key (ca_fairness c1) (c1 :: tier') c)
    as Hfin.
  { intros class (c & Hc & <- & Hk) s1. rewrite (find_class s P) by auto. eauto 10. }
  destruct (ca_fairness c0) eqn:Ef.
  - destruct (pick_min _ _) as [class|] eqn:Ep; [|done]. cbn [mbind option_bind].
    apply Hfin. apply pick_min_Some in Ep as (c & Hc & <- & Hmin). exists c. split_and!; [done..|].
    intros c' Hc'. by apply N.compare_le_iff, Hmin.
  - destruct (pick_min _ _) as [class|] eqn:Ep; [|done]. cbn [mbind option_bind].
    apply Hfin. apply pick_min_Some in Ep as (c & Hc & <- & Hmin). by exists c.
  - destruct (drr_select_total s (c0 :: tier)) as (c & s1 & -> & Hc); [done..|].
    cbn [mbind option_bind]. apply Hfin. by exists c.
  - destruct (pick_min _ _) as [class|] eqn:Ep; [|done]. cbn [mbind option_bind].
    apply Hfin. apply pick_min_Some in Ep as (c & Hc & <- & Hmin). by exists c.
  - destruct (pick_min _ _) as [class|] eqn:Ep; [|done]. cbn [mbind option_bind].
    apply Hfin. apply pick_min_Some in Ep as (c & Hc & <- & Hmin). exists c. split_and!; [done..|].
    intros c' Hc'. by apply N.compare_le_iff, Hmin.
Qed.

(** ** The contract *)

Lemma runnable_enabled s P c :
  c ∈ runnable_candidates s P →
  ∃ policy, ps_class P (ca_class c) = Some policy ∧ is_disabled policy = false ∧
    ca_fairness c = fairness policy ∧ ca_best_effort c = best_effort policy.
Proof.
  intros Hc. apply runnable_candidate in Hc as (cs & _ & Hca).
  apply class_candidate_spec in Hca as (policy & r & Hp & _ & Hd & Ef & Eb & _).
  exists policy. split_and!; [done| |done|done].
  apply andb_true_iff in Hd as [_ Hrun%bool_decide_eq_true].
  apply assess_scope_fits in Hrun as [[Hf _ _ _ _] _].
  unfold is_disabled. apply bool_decide_eq_false. intros E. rewrite E in Hf. lia.
Qed.

Lemma least_key_discriminant f g tier c :
  discriminant f = discriminant g → least_key f tier c → least_key g tier c.
Proof. unfold least_key. by destruct f, g. Qed.

(** C19: dispatch is total, work conserving and ordered.  On a validated policy
    selection never panics; it names nothing exactly when nothing is runnable, and
    changes nothing then; what it names is runnable, is of the best-effort tier only
    if no primary class has runnable work, and has the least key of its discipline
    among the runnable classes of its tier. *)
Theorem select_dispatches s P :
  policy_wf P →
  match select s P with
  | None => False
  | Some (None, s') => has_runnable s P = false ∧ s' = s
  | Some (Some sel, _) => has_runnable s P = true ∧
    ∃ c policy, c ∈ runnable_candidates s P ∧ ps_class P (ca_class c) = Some policy ∧
      sel = mkSelection (ca_class c) (ca_queue_index c) (ca_head_finish_tag c) ∧
      (best_effort policy = true →
         ∀ c', c' ∈ runnable_candidates s P → ca_best_effort c' = true) ∧
      least_key (fairness policy) (dispatch_tier (runnable_candidates s P)) c
  end.
Proof.
  intros Hwf. pose proof (select_cases s P (policy_wf_quanta P Hwf)) as H. unfold has_runnable.
  destruct (runnable_candidates s P) as [|x xs] eqn:El; [by rewrite H|].
  rewrite <-El in H |- *. destruct H as (c & s' & -> & Hc & c0 & tier & Et & Hk).
  split; [done|].
  assert (c0 ∈ dispatch_tier (runnable_candidates s P)) as Hc0 by (rewrite Et; left).
  rewrite <-Et in Hk. apply elem_of_dispatch_tier in Hc as [Hc Hbe].
  apply elem_of_dispatch_tier in Hc0 as [Hc0 Hbe0].
  destruct (runnable_enabled _ _ _ Hc) as (p & Hp & Hdis & Ef & Eb).
  destruct (runnable_enabled _ _ _ Hc0) as (p0 & Hp0 & Hdis0 & Ef0 & Eb0).
  exists c, p. split_and!; [done|done|done|by rewrite <-Eb|].
  eapply least_key_discriminant; [|exact Hk]. rewrite Ef0.
  apply (pw_tiers _ Hwf (ca_class c0) p0 (ca_class c) p); [by apply elem_of_btree_to_list..|done|done|].
  rewrite <-Eb, <-Eb0. destruct (ca_best_effort c) eqn:E1, (ca_best_effort c0) eqn:E2; try done.
  - by rewrite (Hbe eq_refl c0) in E2.
  - by rewrite (Hbe0 eq_refl c) in E1.
Qed.
