(* ===== verification/Sections.v ===== *)
(** * The critical sections keep the invariant

    Every section of Governor.v maps an invariant state to an invariant state,
    whatever it answers.  A section grants at most [PROMOTION_BUDGET] permits on
    top of what it was asked for, so it asks for that much room. *)

From S2P Require Import Prelude Contract Text Kernel State Assess Fairness Admission Memory.
From S2P Require Import Governor Books Custody Ledger Moves Reads Invariant Steps Selection.

Definition policies_typed (P : PolicySet) : Prop :=
  ∀ class policy, ps_class P class = Some policy → policy_typed policy.

Lemma grows_room n m s s' : grows n s s' → room (N.of_nat n + m) s → room m s'.
Proof. intros [? _ _ _]. unfold room. lia. Qed.

Section sections.
Context (P : PolicySet) (B : N) (Htyped : policies_typed P) (HB : B ≤ U64_MAX).
Implicit Types s : GovernedState.

(** The outcome of a transition: invariant, and at most [n] permits more. *)
Definition keeps (n : nat) (s s' : GovernedState) : Prop := Inv P B s' ∧ grows n s s'.

Lemma keeps_books n s s' : same_books s' s → Inv P B s → keeps n s s'.
Proof. intros H HI. split; [by rewrite H|by apply grows_books]. Qed.

Lemma keeps_settled n s s' :
  same_charges s s' → (∀ t, custody s' t = custody s t) → no_new_tickets s s' →
  Inv P B s → keeps n s s'.
Proof. intros. split; [by eapply inv_settled|by apply grows_charges]. Qed.

Lemma keeps_trans n m s1 s2 s3 :
  keeps n s1 s2 → keeps m s2 s3 → keeps (n + m) s1 s3.
Proof. intros [_ ?] [? ?]. split; [done|by eapply grows_trans]. Qed.

(** ** Promotion *)

Lemma dequeue_keeps n class i s r s1 s2 s' :
  remove_pending class i s = Some (r, s1) → same_books s2 s1 → same_charges s2 s' →
  (∀ t, custody s' t = if decide (t = pr_ticket r) then None else custody s t) →
  no_new_tickets s s' → Inv P B s → keeps n s s'.
Proof.
  intros Hrm H21 Hsc Hcu Hnew HI.
  destruct (inv_dequeue P B class i s r s1 s2 s') as [? Hg]; [done..|].
  split; [done|]. by eapply grows_mono; [|done]; lia.
Qed.

(** The ticket of a dequeued request is known. *)
Lemma dequeued_known class i s r s1 :
  remove_pending class i s = Some (r, s1) → Inv P B s → is_Some (gs_tickets s !! pr_ticket r).
Proof.
  intros [Hi _]%remove_pending_waiting HI. apply (custody_known s _ (Waits class)).
  apply (custody_queued _ _ (inv_custody _ _ _ HI)).
  change (pr_ticket r) with (pr_ticket (untag r)).
  by apply (list_elem_of_fmap_2 pr_ticket), list_elem_of_lookup_2 with i.
Qed.

Lemma terminalize_keeps s e t s' e' :
  terminalize_wait_cycle P s e = Some (t, s', e') → Inv P B s → keeps 0 s s'.
Proof.
  unfold terminalize_wait_cycle. intros H HI.
  destruct (find_map _ _) as [[[class index] w]|]; [|simplify_eq; by apply keeps_books].
  destruct (remove_pending class index s) as [[r s1]|] eqn:Hrm;
    [|simplify_eq; by apply keeps_books].
  apply bind_Some in H as (policy & _ & H). apply bind_Some in H as (held & _ & H). simplify_eq.
  eapply (dequeue_keeps 0 class index s r s1 (on_unserved_removed class policy s1));
    [done|apply on_unserved_removed_books| | | |done].
  - etransitivity; [|apply record_terminal_charges]. by split.
  - intros t. rewrite record_terminal_custody. case_decide; [done|].
    change (custody (vacate_recursion_guard ?a ?b ?x)) with (custody x).
    rewrite on_unserved_removed_books. by apply (remove_pending_custody _ _ _ _ _ Hrm).
  - intros t Ht. pose proof (dequeued_known _ _ _ _ _ Hrm HI) as [x Hx].
    apply record_terminal_no_new; [|congruence].
    change (gs_tickets (on_unserved_removed class policy s1) !! t = None).
    by rewrite on_unserved_removed_books, (remove_pending_tickets _ _ _ _ _ Hrm).
Qed.

Lemma promote_one_keeps now s e granted s' e' :
  promote_one P now s e = Some (granted, s', e') → room 1 s → Inv P B s →
  keeps (if granted : bool then 1 else 0) s s'.
Proof.
  unfold promote_one. intros H Hroom HI. apply bind_Some in H as ([sel s1] & Hsel & H).
  pose proof (select_books _ _ _ _ Hsel) as H1.
  destruct sel as [sel|]; [|simplify_eq; by apply keeps_books].
  destruct (remove_pending _ _ s1) as [[head s2]|] eqn:Hrm; [|simplify_eq; by apply keeps_books].
  apply bind_Some in H as (policy & Hpol & H). simplify_eq.
  destruct (select_fits s P sel s1) as (c & policy' & r & Hc & Hpol' & Hr & _ & Hfits); [|done|].
  { intros class r Hr. by apply (custody_request _ _ (inv_custody _ _ _ HI)) in Hr as []. }
  simplify_eq. rewrite <-H1 in HI, Hroom, Hfits.
  pose proof (remove_pending_waiting _ _ _ _ _ Hrm) as [Hi _].
  rewrite H1 in Hi. unfold waiting in Hi. rewrite (class_state_Some _ _ _ Hc) in Hi.
  apply list_lookup_fmap_Some in Hi as (r' & Er & Hi). assert (r' = r) as -> by congruence.
  assert (pr_cost r = pr_cost head ∧ pr_capabilities r = pr_capabilities head) as [Eco Eca].
  { split; [by apply (f_equal pr_cost) in Er|by apply (f_equal pr_capabilities) in Er]. }
  rewrite Eco, Eca in Hfits.
  edestruct (inv_promote P B (sel_class sel) (sel_queue_index sel) s1 head s2) as [HI' Hg];
    [apply Hrm|apply on_request_served_books|..|split; [apply HI'|]];
    try done; [by eapply Htyped|].
  by apply (grows_trans 0 1 s s1); [apply grows_books|].
Qed.

Lemma promote_loop_keeps slots now changed s e changed' budget s' e' :
  promote_loop slots P now changed s e = Some (changed', budget, s', e') →
  room (N.of_nat slots) s → Inv P B s → keeps slots s s'.
Proof.
  revert changed s e. induction slots as [|slots IH]; intros changed s e H Hroom HI; cbn in H.
  { simplify_eq. by apply keeps_books. }
  apply bind_Some in H as ([[granted s1] e1] & Hone & H).
  eapply promote_one_keeps in Hone as [HI1 Hg1]; [|by eapply room_mono; [|done]; lia|done].
  destruct granted.
  - apply IH in H as [HI' Hg']; [|eapply grows_room; [done|]; by rewrite <-Nat2N.inj_add|done].
    split; [done|]. by apply (grows_trans 1 slots s s1).
  - simplify_eq. split; [done|]. by eapply grows_mono; [|done]; lia.
Qed.

Lemma promote_keeps now s s' e :
  promote P now s = Some (s', e) → room (N.of_nat PROMOTION_BUDGET) s → Inv P B s →
  keeps PROMOTION_BUDGET s s'.
Proof.
  unfold promote. intros H Hroom HI.
  apply bind_Some in H as ([[r1 s1] e1] & H1 & H).
  apply bind_Some in H as ([[[c2 b2] s2] e2] & H2 & H).
  apply bind_Some in H as ([[r3 s3] e3] & H3 & H). simplify_eq.
  apply terminalize_keeps in H1 as [HI1 Hg1]; [|done].
  apply promote_loop_keeps in H2 as [HI2 Hg2]; [|by eapply grows_room|done].
  assert (keeps 0 s2 s3) as [HI3 Hg3].
  { destruct c2; [|simplify_eq; by apply keeps_books].
    apply bind_Some in H3 as ([[t s4] e4] & H3 & ?). simplify_eq.
    by eapply terminalize_keeps. }
  split.
  - eapply inv_settled; [| |apply HI3]; [by split|done].
  - apply (grows_trans 0 _ s s1); [done|].
    pose proof (grows_trans _ _ _ _ _ Hg2 Hg3) as Hg. rewrite Nat.add_0_r in Hg.
    apply (grows_trans PROMOTION_BUDGET 0 s1 s3); [done|].
    apply grows_charges; [by split|done|by intros t].
Qed.

Lemma absorb_promote_keeps now s e s' e' :
  absorb_promote P now s e = Some (s', e') → room (N.of_nat PROMOTION_BUDGET) s → Inv P B s →
  keeps PROMOTION_BUDGET s s'.
Proof.
  unfold absorb_promote. intros H Hroom HI.
  apply bind_Some in H as ([s1 e1] & H & ?). simplify_eq. by eapply promote_keeps.
Qed.

(** ** The fault drain *)

Lemma fault_queue_keeps fuel class removed s e removed' s' e' :
  fault_queue fuel class removed s e = (removed', s', e') → Inv P B s → keeps 0 s s'.
Proof.
  revert removed s e. induction fuel as [|fuel IH]; intros removed s e H HI; cbn in H.
  { simplify_eq. by apply keeps_books. }
  destruct (remove_pending class 0 s) as [[r s1]|] eqn:Hrm; [|simplify_eq; by apply keeps_books].
  set (s2 := upd_gs_tickets _ _) in H.
  assert (keeps 0 s s2) as [HI2 Hg2].
  { eapply (dequeue_keeps 0 class 0 s r s1 s1); [done|done| | | |done].
    - unfold s2. destruct (is_child _); by split.
    - intros t. unfold s2. rewrite insert_ticket_custody. case_decide; [done|].
      destruct (is_child _);
        (change (custody (vacate_recursion_guard ?a ?b ?x)) with (custody x) || idtac);
        by apply (remove_pending_custody _ _ _ _ _ Hrm).
    - pose proof (dequeued_known _ _ _ _ _ Hrm HI) as Hk.
      rewrite <-(remove_pending_tickets _ _ _ _ _ Hrm) in Hk.
      etransitivity; [apply no_new_tickets_eq, (remove_pending_tickets _ _ _ _ _ Hrm)|].
      unfold s2. destruct (is_child _); exact (insert_ticket_no_new _ TFaulted s1 Hk). }
  apply IH in H as [HI' Hg']; [|done]. split; [done|]. by apply (grows_trans 0 0 s s2).
Qed.

Lemma fault_class_keeps class s e s' e' :
  fault_class P class s e = Some (s', e') → Inv P B s → keeps 0 s s'.
Proof.
  unfold fault_class. intros H HI.
  destruct (fault_queue _ _ _ _ _) as [[removed s1] e1] eqn:E.
  apply fault_queue_keeps in E as [HI1 Hg1]; [|done].
  destruct removed; [|by simplify_eq].
  apply bind_Some in H as (policy & _ & H). simplify_eq.
  split; [by rewrite on_unserved_removed_books|].
  apply (grows_trans 0 0 s s1); [done|]. apply grows_books, on_unserved_removed_books.
Qed.

Lemma fault_classes_keeps classes s e s' e' :
  fault_classes P classes s e = Some (s', e') → Inv P B s → keeps 0 s s'.
Proof.
  revert s e. induction classes as [|class classes IH]; intros s e H HI; cbn in H.
  { simplify_eq. by apply keeps_books. }
  apply bind_Some in H as ([s1 e1] & H1 & H).
  apply fault_class_keeps in H1 as [HI1 Hg1]; [|done].
  apply IH in H as [HI' Hg']; [|done]. split; [done|]. by apply (grows_trans 0 0 s s1).
Qed.

Lemma fault_all_keeps s e s' e' :
  terminalize_queued_for_accounting_fault P s e = Some (s', e') → Inv P B s → keeps 0 s s'.
Proof.
  unfold terminalize_queued_for_accounting_fault. intros H HI.
  apply bind_Some in H as ([s1 e1] & H & ?). simplify_eq.
  apply fault_classes_keeps in H as [HI1 Hg1]; [|done].
  split; [by eapply inv_settled; [| |apply HI1]|]. apply (grows_trans 0 0 s s1); [done|].
  apply grows_charges; [by split|done|by intros t].
Qed.
End sections.
