(* ===== verification/Progress.v ===== *)
(** * Progress

    No critical section of the engine panics on a state its runs reach: every
    [expect], index and checked sum of its code is met.  A promotion pass that says
    it is done leaves nothing runnable and no wait cycle; one that is not has
    shortened the queues, so the drain loop ends. *)

From S2P Require Import Prelude Contract Text Kernel PolicyCheck State Assess Fairness Admission.
From S2P Require Import Memory Governor Books Custody Ledger Moves Reads Invariant Steps Selection.
From S2P Require Import Ring Dispatch Sections.

(** ** The backlog: how many requests wait *)

Definition backlog (s : GovernedState) : N :=
  msum (λ c, N.of_nat (length (cs_queue c))) (gs_classes s).

Lemma backlog_waiting s s' :
  (∀ class, length (waiting s' class) = length (waiting s class)) → backlog s' = backlog s.
Proof.
  intros H. unfold backlog. apply (msum_default _ ClassState_default); [done|].
  intros class. f_equal. specialize (H class). unfold waiting in H. rewrite !length_map in H.
  exact H.
Qed.

Lemma backlog_le s s' :
  (∀ class, (length (waiting s' class) ≤ length (waiting s class))%nat) → backlog s' ≤ backlog s.
Proof.
  intros H. unfold backlog. apply (msum_default_le _ ClassState_default); [done|].
  intros class. specialize (H class). unfold waiting, class_state in H. rewrite !length_map in H. lia.
Qed.

Lemma backlog_books s s' : same_books s' s → backlog s' = backlog s.
Proof. intros H. apply backlog_waiting. intros class. by rewrite H. Qed.

Lemma backlog_removed class i s r s' :
  remove_pending class i s = Some (r, s') → backlog s = backlog s' + 1.
Proof.
  unfold remove_pending. intros (c & Hc & H)%bind_Some. apply bind_Some in H as (x & Hx & [= <- <-]).
  unfold backlog, class_alter. cbn.
  rewrite alter_alt, Hc.
  pose proof (msum_update (λ c, N.of_nat (length (cs_queue c))) (gs_classes s) class
    (ClassState.unindex_pending x (upd_cs_queue (delete i) c)) c Hc) as E.
  assert (length (cs_queue (ClassState.unindex_pending x (upd_cs_queue (delete i) c))) =
          pred (length (cs_queue c))) as El.
  { destruct (unindex_pending_reads x (upd_cs_queue (delete i) c)) as (-> & _). cbn.
    rewrite length_delete by eauto. lia. }
  cbn beta in E. rewrite El in E.
  apply lookup_lt_Some in Hx. lia.
Qed.

Lemma remove_pending_total s class i q :
  waiting s class !! i = Some q → ∃ r s', remove_pending class i s = Some (r, s').
Proof.
  unfold waiting, remove_pending, class_state.
  destruct (gs_classes s !! class) as [c|]; cbn; [|by rewrite ?lookup_nil].
  intros (r & _ & ->)%list_lookup_fmap_Some. by eexists _, _.
Qed.

(** ** What an assessment reads

    Tags, credits and the promotion flag are none of it. *)

Lemma find_enum_ext {A} (f g : A → bool) k l : (∀ x, f x = g x) → find_enum f k l = find_enum g k l.
Proof. intros H. revert k. induction l as [|x l IH]; intros k; [done|]. cbn. by rewrite H, IH. Qed.

Section reads.
Context (P : PolicySet) (s s' : GovernedState) (H : same_books s s').

Lemma inflight_books class : inflight s class = inflight s' class.
Proof.
  assert (∀ s, inflight s class = cs_inflight (class_state s class)) as E.
  { intros s0. unfold inflight, class_state. by destruct (gs_classes s0 !! class). }
  rewrite !E. by apply (books_class cs_inflight).
Qed.

Lemma blocked_capabilities_books caps :
  blocked_capabilities s P caps = blocked_capabilities s' P caps.
Proof.
  induction caps as [|id caps IH]; [done|]. cbn. rewrite IH.
  unfold capability_in_use. by rewrite (books_capability _ _ H).
Qed.

Lemma blockers_books class mx cost caps :
  blockers_for s P class mx cost caps = blockers_for s' P class mx cost caps.
Proof.
  unfold blockers_for. rewrite blocked_capabilities_books, inflight_books.
  by rewrite (books_cpu _ _ H), (books_memory _ _ H), (books_fault _ _ H).
Qed.

Lemma walk_chain_books fuel class visited observed ancestor ch :
  walk_chain fuel s class visited observed ancestor ch =
  walk_chain fuel s' class visited observed ancestor ch.
Proof.
  revert visited observed ancestor ch. induction fuel as [|fuel IH]; intros visited observed ancestor ch;
    [done|]. cbn. rewrite (books_permits _ _ H). case_decide; [done|].
  destruct (gs_permits s' !! ancestor) as [r|]; [|done].
  destruct (is_awaited_child _); [|done]. by destruct (rec_parent_permit_id r).
Qed.

Lemma held_capabilities_books ch blocked :
  held_capabilities s P ch blocked = held_capabilities s' P ch blocked.
Proof.
  induction blocked as [|id blocked IH]; [done|]. cbn. rewrite IH.
  unfold capability_in_use. by rewrite (books_capability _ _ H).
Qed.

Lemma assess_scope_books root sc parent class mx cost caps behind :
  assess_scope s P root sc parent class mx cost caps behind =
  assess_scope s' P root sc parent class mx cost caps behind.
Proof.
  unfold assess_scope, cycle_witness, chain_fuel, parent_permit_for_scope, permits_for_operation.
  rewrite blockers_books, inflight_books, (books_permits _ _ H), (books_operations _ _ H).
  rewrite (books_cpu _ _ H), (books_memory _ _ H).
  destruct (bl_is_empty _); [done|]. destruct sc as [|op lin awaited]; [done|].
  destruct awaited; [|done].
  match goal with |- context [mbind _ ?x] => destruct x as [anc|]; [|done] end.
  cbn [mbind option_bind]. rewrite walk_chain_books.
  destruct (walk_chain _ _ _ _ _ _ _); [|done]. cbn [mbind option_bind].
  by rewrite held_capabilities_books.
Qed.

Lemma class_candidate_books class c : class_candidate s P class c = class_candidate s' P class c.
Proof.
  unfold class_candidate. destruct (ps_class P class) as [policy|]; [|done]. cbn [mbind option_bind].
  rewrite (find_enum_ext _ (dispatchable s' P policy c)); [done|]. intros r. unfold dispatchable.
  unfold assess_pending. by rewrite assess_scope_books.
Qed.

Lemma class_cycle_books class c : class_cycle s P class c = class_cycle s' P class c.
Proof.
  unfold class_cycle. case_decide; [done|]. destruct (ps_class P class) as [policy|]; [|done].
  cbn [mbind option_bind].
  rewrite (find_enum_ext _ (λ r, bool_decide (pr_seq_no r ∈ cs_queued_awaited_children c)
        && match assess_pending s' P r (max_inflight policy) false with
           | IrreversibleWaitCycle _ => true
           | _ => false
           end)).
  - destruct (find_enum _ _ _) as [[i r]|]; [|done]. cbn [mbind option_bind].
    unfold assess_pending. by rewrite assess_scope_books.
  - intros r. unfold assess_pending. by rewrite assess_scope_books.
Qed.
End reads.

Lemma omap_ext' {A B} (f g : A → option B) (l : list A) : (∀ x, f x = g x) → omap f l = omap g l.
Proof. intros H. induction l as [|x l IH]; [done|]. cbn. by rewrite H, IH. Qed.

Lemma has_runnable_books P s s' :
  same_books s s' → gs_classes s = gs_classes s' → has_runnable s P = has_runnable s' P.
Proof.
  intros H E. unfold has_runnable, runnable_candidates. rewrite E.
  rewrite (omap_ext' _ (λ '(class, c), class_candidate s' P class c)); [done|].
  intros [class c]. by apply class_candidate_books.
Qed.

(** ** Wait cycles *)

(** No queued request is in an irreversible wait cycle that the terminalisation
    pass would still find. *)
Definition no_cycle (P : PolicySet) (s : GovernedState) : Prop :=
  find_map (λ '(class, c), class_cycle s P class c) (btree_to_list (gs_classes s)) = None.

Lemma find_map_Some {A B} (f : A → option B) l y :
  find_map f l = Some y → ∃ x, x ∈ l ∧ f x = Some y.
Proof.
  induction l as [|x l IH]; cbn; [done|]. destruct (f x) as [z|] eqn:E.
  - intros [= <-]. exists x. split; [by left|done].
  - intros (x' & Hx & E')%IH. exists x'. split; [by right|done].
Qed.

Lemma find_map_None {A B} (f : A → option B) l x : find_map f l = None → x ∈ l → f x = None.
Proof.
  induction l as [|x' l IH]; cbn; [intros _ H; by apply not_elem_of_nil in H|].
  destruct (f x') as [z|] eqn:E; [done|]. intros H [->|Hx]%elem_of_cons; [done|by apply IH].
Qed.

Lemma cycle_witness_head s P root sc parent class b w :
  cycle_witness s P root sc parent class b = Some w → is_Some (head (cw_held w)).
Proof.
  unfold cycle_witness. destruct sc as [|op l awaited]; [done|]. destruct awaited; [|done].
  intros (anc & _ & H)%bind_Some. apply bind_Some in H as (ch & _ & H).
  apply bind_Some in H as (held & _ & H'). revert H'.
  destruct (_ ++ _) as [|h hs]; [done|]. intros [= <-]. by eexists.
Qed.

Lemma assess_scope_head s P root sc parent class mx cost caps behind w :
  assess_scope s P root sc parent class mx cost caps behind = IrreversibleWaitCycle w →
  is_Some (head (cw_held w)).
Proof.
  unfold assess_scope. destruct (bl_is_empty _); [done|].
  destruct (cycle_witness _ _ _ _ _ _ _) as [w'|] eqn:E; [|done].
  intros [= <-]. by apply cycle_witness_head in E.
Qed.

Lemma class_cycle_spec s P class c k i w :
  class_cycle s P class c = Some (k, i, w) →
  k = class ∧ is_Some (ps_class P class) ∧ is_Some (cs_queue c !! i) ∧ is_Some (head (cw_held w)).
Proof.
  unfold class_cycle. case_decide as Hd; [done|]. intros (policy & Hp & H)%bind_Some.
  apply bind_Some in H as ([index r] & Hf & H).
  destruct (assess_pending _ _ _ _ _) as [| |w'] eqn:Ea; [done..|]. injection H as <- <- <-.
  apply find_enum_Some in Hf as (j & -> & Hj & _). split_and!; [done|by eexists|by eexists|].
  by eapply assess_scope_head.
Qed.

Lemma no_cycle_books P s s' :
  same_books s s' → gs_classes s = gs_classes s' → no_cycle P s → no_cycle P s'.
Proof.
  intros H E. unfold no_cycle. rewrite E.
  induction (btree_to_list (gs_classes s')) as [|[class c] l IH]; [done|]. cbn.
  rewrite (class_cycle_books P s s' H). by destruct (class_cycle s' P class c).
Qed.

(** ** Promotion is total *)

Section promotion.
Context (P : PolicySet) (B : N) (Htyped : policies_typed P) (HB : B ≤ U64_MAX).
Context (Hq : quanta_positive P).
Implicit Types s : GovernedState.

Lemma queued_policy s class q : Inv P B s → q ∈ waiting s class → is_Some (ps_class P class).
Proof.
  intros HI H. apply (custody_request _ _ (inv_custody _ _ _ HI)) in H as [_ (p & Hp & _) _ _].
  by eexists.
Qed.

Lemma terminalize_total s e :
  ∃ t s' e', terminalize_wait_cycle P s e = Some (t, s', e') ∧
    match t with
    | CycleNone => s' = s ∧ no_cycle P s
    | CycleRemoved => backlog s = backlog s' + 1 ∧ gs_permits s' = gs_permits s
    end.
Proof.
  unfold terminalize_wait_cycle.
  destruct (find_map _ _) as [[[class index] w]|] eqn:Ef; [|by eexists _, _, _].
  apply find_map_Some in Ef as ([class' c] & Hin & Hc).
  apply class_cycle_spec in Hc as (-> & [policy Hp] & [q Hqi] & [held Hh]).
  apply elem_of_btree_to_list in Hin.
  destruct (remove_pending_total s class' index (untag q)) as (r & s1 & Hrm).
  { unfold waiting. rewrite (class_state_Some _ _ _ Hin). by apply list_lookup_fmap_Some_2. }
  rewrite Hrm, Hp, Hh. cbn [mbind option_bind]. eexists _, _, _. split; [done|]. cbn iota.
  rewrite (backlog_removed _ _ _ _ _ Hrm). split.
  - f_equal. symmetry. apply backlog_waiting. intros k. f_equal.
    rewrite (same_charges_waiting _ _ _ (record_terminal_charges _ _ _)).
    exact (books_waiting _ _ (on_unserved_removed_books class' policy s1) k k eq_refl).
  - rewrite (sc_permits _ _ (record_terminal_charges _ _ _)). cbn.
    by apply remove_pending_holdings in Hrm as [].
Qed.

Lemma promote_one_total now s e :
  Inv P B s →
  ∃ g s' e', promote_one P now s e = Some (g, s', e') ∧
    if g : bool
    then backlog s = backlog s' + 1 ∧ (size (gs_permits s') ≤ S (size (gs_permits s)))%nat
    else s' = s ∧ has_runnable s P = false.
Proof.
  intros HI. unfold promote_one. pose proof (select_cases s P Hq) as Hs. unfold has_runnable.
  destruct (runnable_candidates s P) as [|x xs] eqn:El.
  { rewrite Hs. cbn. by eexists _, _, _. }
  rewrite <-El in Hs. destruct Hs as (c & s1 & Hsel & Hc & _). rewrite Hsel. cbn [mbind option_bind].
  apply elem_of_dispatch_tier in Hc as [Hc _].
  apply runnable_candidate in Hc as (cs & Hcs & Hca).
  apply class_candidate_spec in Hca as (policy & r & Hp & Hr & _).
  pose proof (select_books _ _ _ _ Hsel) as Hb.
  destruct (remove_pending_total s1 (ca_class c) (ca_queue_index c) (untag r)) as (r' & s2 & Hrm).
  { rewrite Hb. unfold waiting. rewrite (class_state_Some _ _ _ Hcs).
    by apply list_lookup_fmap_Some_2. }
  cbn [sel_class sel_queue_index]. rewrite Hrm, Hp. cbn [mbind option_bind].
  eexists true, _, _. split; [done|]. cbn iota. split.
  - rewrite <-(backlog_books _ _ Hb), (backlog_removed _ _ _ _ _ Hrm). f_equal. symmetry.
    apply backlog_waiting. intros k. f_equal. rewrite grant_waiting.
    exact (books_waiting _ _ (on_request_served_books _ policy _ _ s2) k k eq_refl).
  - rewrite grant_permits, map_size_insert. cbn.
    change (gs_permits (on_request_served _ _ _ _ s2)) with (gs_permits s2).
    assert (gs_permits s2 = gs_permits s) as ->
      by (rewrite <-Hb; by apply remove_pending_holdings in Hrm as []).
    destruct (gs_permits s !! pr_permit_id r'); cbn; lia.
Qed.

(** One grant loop. *)
Lemma promote_loop_total slots now changed s e :
  Inv P B s → room (N.of_nat slots) s →
  ∃ changed' budget s' e', promote_loop slots P now changed s e = Some (changed', budget, s', e') ∧
    N.of_nat (size (gs_permits s')) + backlog s' ≤ N.of_nat (size (gs_permits s)) + backlog s ∧
    (if budget : bool then backlog s = backlog s' + N.of_nat slots else has_runnable s' P = false) ∧
    (changed' = false → changed = false ∧ s' = s) ∧ backlog s' ≤ backlog s.
Proof.
  revert changed s e. induction slots as [|slots IH]; intros changed s e HI Hroom; cbn [promote_loop].
  { eexists _, _, _, _. split; [done|]. split_and!; [done|cbn; lia|done|done]. }
  destruct (promote_one_total now s e HI) as (g & s1 & e1 & Hone & Hg). rewrite Hone.
  cbn [mbind option_bind]. destruct g.
  - destruct Hg as [Hb Hsz].
    apply (promote_one_keeps P B Htyped HB) in Hone as [HI1 Hg1];
      [|by eapply room_mono; [|done]; lia|done].
    destruct (IH true s1 e1 HI1) as (c' & b & s' & e' & -> & H1 & H2 & H3 & H4).
    { eapply grows_room; [done|]. by rewrite <-Nat2N.inj_add. }
    eexists _, _, _, _. split; [done|]. split_and!; [lia| | |lia].
    + destruct b; [lia|done].
    + intros E. by apply H3 in E as [? _].
  - destruct Hg as [-> Hg]. eexists _, _, _, _. split; [done|]. by split_and!.
Qed.

(** What one promotion pass does. *)
Lemma promote_total now s :
  Inv P B s → room (N.of_nat PROMOTION_BUDGET) s →
  ∃ s' e, promote P now s = Some (s', e) ∧
    N.of_nat (size (gs_permits s')) + backlog s' ≤ N.of_nat (size (gs_permits s)) + backlog s ∧
    if eff_more_runnable e then backlog s' < backlog s
    else backlog s' ≤ backlog s ∧ has_runnable s' P = false ∧ no_cycle P s'.
Proof.
  intros HI Hroom. unfold promote.
  destruct (terminalize_total s no_effects) as (t1 & s1 & e1 & H1 & T1). rewrite H1.
  cbn [mbind option_bind].
  apply (terminalize_keeps P B HB) in H1 as [HI1 Hg1]; [|done].
  destruct (promote_loop_total PROMOTION_BUDGET now (is_removed t1) s1 e1 HI1)
    as (changed & budget & s2 & e2 & H2 & Hsz & Hbud & Hch & Hle); [by eapply grows_room|].
  rewrite H2. cbn [mbind option_bind].
  assert (backlog s1 ≤ backlog s ∧ N.of_nat (size (gs_permits s1)) + backlog s1 ≤
    N.of_nat (size (gs_permits s)) + backlog s) as [Hle1 Hsz1].
  { destruct t1; [destruct T1 as [-> ->]; lia|destruct T1 as [-> _]; lia]. }
  assert (∃ removed s3 e3,
    (if changed : bool then '(t, s, e) ← terminalize_wait_cycle P s2 e2; Some (is_removed t, s, e)
     else Some (false, s2, e2)) = Some (removed, s3, e3) ∧
    if removed : bool then backlog s2 = backlog s3 + 1 ∧ gs_permits s3 = gs_permits s2
    else s3 = s2 ∧ no_cycle P s2) as (removed & s3 & e3 & -> & H3).
  { destruct changed.
    - destruct (terminalize_total s2 e2) as (t3 & s3 & e3 & -> & T3). cbn [mbind option_bind].
      eexists _, _, _. split; [done|]. by destruct t3.
    - destruct (Hch eq_refl) as [Et ->]. eexists _, _, _. split; [done|]. split; [done|].
      destruct t1; [done|]. by destruct T1 as [-> ?]. }
  cbn [mbind option_bind]. eexists _, _. split; [done|].
  assert (∀ b s, backlog (upd_gs_promotion_pending b s) = backlog s) as Hpp by done.
  cbn [eff_more_runnable upd_eff_more_runnable gs_permits upd_gs_promotion_pending]. rewrite Hpp.
  destruct removed; cbn [orb].
  - destruct H3 as [H3 ->]. split; [lia|]. lia.
  - destruct H3 as [-> Hnc]. split; [lia|].
    assert (∀ b, same_books s2 (upd_gs_promotion_pending b s2)) as Hpb by done.
    assert (∀ b, has_runnable (upd_gs_promotion_pending b s2) P = has_runnable s2 P) as Hhr.
    { intros b. symmetry. by apply has_runnable_books. }
    assert (∀ b, no_cycle P (upd_gs_promotion_pending b s2)) as Hnc'.
    { intros b. by apply (no_cycle_books P s2). }
    destruct budget; cbn [andb].
    + destruct (has_runnable s2 P) eqn:Er; [unfold PROMOTION_BUDGET in Hbud; lia|].
      split_and!; [lia|apply Hhr|apply Hnc'].
    + rewrite Hhr, Hbud. split_and!; [lia|done|apply Hnc'].
Qed.

(** ** The fault drain *)

Lemma fault_queue_removed fuel class s e removed s' e' :
  fault_queue fuel class false s e = (removed, s', e') → removed = true → waiting s class ≠ [].
Proof.
  destruct fuel as [|fuel]; cbn; [by intros [= <- _ _]|].
  destruct (remove_pending class 0 s) as [[r s1]|] eqn:E; [|by intros [= <- _ _]].
  intros _ _. apply remove_pending_waiting in E as [H _]. intros Ew. by rewrite Ew in H.
Qed.

Lemma fault_class_total class s e :
  Inv P B s → ∃ s' e', fault_class P class s e = Some (s', e').
Proof.
  intros HI. unfold fault_class. destruct (fault_queue _ _ _ _ _) as [[removed s1] e1] eqn:E.
  destruct removed; [|by eexists _, _]. apply fault_queue_removed in E; [|done].
  destruct (waiting s class) as [|q l] eqn:Ew; [done|].
  destruct (queued_policy s class q HI) as [policy Hp]; [rewrite Ew; by left|].
  rewrite Hp. by eexists _, _.
Qed.

Lemma fault_all_total s e :
  Inv P B s → ∃ s' e', terminalize_queued_for_accounting_fault P s e = Some (s', e').
Proof.
  intros HI. unfold terminalize_queued_for_accounting_fault.
  assert (∃ s' e', fault_classes P (btree_keys (gs_classes s)) s e = Some (s', e')) as (s' & e' & ->);
    [|by eexists _, _].
  generalize (btree_keys (gs_classes s)) as classes. intros classes. revert s e HI.
  induction classes as [|class classes IH]; intros s e HI; cbn; [by eexists _, _|].
  destruct (fault_class_total class s e HI) as (s1 & e1 & H). rewrite H. cbn [mbind option_bind].
  apply (fault_class_keeps P B HB) in H as [HI1 _]; [|done]. by apply IH.
Qed.

Lemma absorb_promote_total now s e :
  Inv P B s → room (N.of_nat PROMOTION_BUDGET) s →
  ∃ s' e', absorb_promote P now s e = Some (s', e').
Proof.
  intros HI Hroom. unfold absorb_promote.
  destruct (promote_total now s HI Hroom) as (s' & e' & -> & _). by eexists _, _.
Qed.
End promotion.
