(* ===== verification/Lifecycle.v ===== *)
(** * Admission and the permit lifecycle keep the invariant

    Admission under fresh identities: a permit is granted only when every limit has
    room, a request is queued only when one does not, and a refusal changes nothing
    but, for an unrepresentable total, the sticky fault.  Then claims, abandonment,
    release, reconciliation, stage release, the leak sweep and the continuation pass,
    one lemma per critical section. *)

From S2P Require Import Prelude Contract Text Kernel State Assess Fairness Admission Memory.
From S2P Require Import Governor Books Custody Ledger Moves Reads Invariant Steps Selection.
From S2P Require Import Sections.

(** Identities no permit, ticket or queued request carries. *)
Record ids_fresh (s : GovernedState) (ids : Ids) : Prop := {
  fresh_permit : gs_permits s !! id_permit ids = None;
  fresh_ticket : gs_tickets s !! id_ticket ids = None;
  fresh_reserved class q : q ∈ waiting s class → pr_permit_id q ≠ id_permit ids;
}.

Lemma ids_fresh_books s s' ids : same_books s s' → ids_fresh s ids → ids_fresh s' ids.
Proof. intros H []. split; setoid_rewrite <-H; done. Qed.

(** A blocked assessment names a blocker. *)
Lemma primary_empty b : primary b = BlockOk → bl_is_empty b = true.
Proof.
  unfold primary, bl_is_empty.
  by destruct (bl_accounting_fault b), (bl_class_inflight b), (crs_is_empty (bl_capabilities b)),
    (bl_cpu b), (bl_memory b), (bl_queued_behind b).
Qed.

Lemma assess_scope_blocked s P root sc parent class mx cost caps behind b :
  assess_scope s P root sc parent class mx cost caps behind = ReversiblyBlocked b →
  primary b ≠ BlockOk.
Proof.
  unfold assess_scope. destruct (bl_is_empty _) eqn:E; [done|].
  destruct (cycle_witness _ _ _ _ _ _ _); [done|]. intros [= <-] H.
  apply primary_empty in H. congruence.
Qed.

Section intake.
Context (P : PolicySet) (B : N) (Htyped : policies_typed P).
Context (s : GovernedState) (HI : Inv P B s) (HB : B + 1 ≤ U64_MAX) (Hroom : room 1 s).
Context (ids : Ids) (Hids : ids_fresh s ids).
Context (now : N) (req : AdmissionRequest) (Hcaps : NoDup (ar_capabilities req)).

(** Intake spends one identity, grants one permit at most, and moves no ticket
    but its own. *)
Record keep (s' : GovernedState) : Prop := {
  keep_inv : Inv P (B + 1) s';
  keep_size : (size (gs_permits s') ≤ size (gs_permits s) + 1)%nat;
  keep_tickets t : t ≠ id_ticket ids → gs_tickets s' !! t = gs_tickets s !! t;
  keep_known pid : known s' pid → known s pid ∨ pid = id_permit ids;
}.

Lemma keep_same : keep s.
Proof. split; [eapply Inv_mono; [|done]; lia|lia|done|by left]. Qed.

Lemma refuse_keeps v w e d s' e' : refuse v w s e = Some (d, s', e') → keep s'.
Proof. intros [= <- <- <-]. apply keep_same. Qed.

Lemma direct_grant_keeps class policy :
  ps_class P class = Some policy →
  fits P s class policy (resolve_cost policy) (ar_capabilities req) →
  keep (grant (direct_grant class policy req ids now s) s).
Proof.
  intros Hpol Hfits. destruct Hids as [F1 F2 F3].
  destruct (inv_grant P B (direct_grant class policy req ids now s) s policy) as [HI' Hsize];
    try done; [by eapply Htyped|]. split; [done|rewrite Hsize; lia|by rewrite grant_tickets|].
  intros pid. unfold known. rewrite grant_permits. setoid_rewrite grant_waiting.
  intros [[x [[<- _]|[_ ?]]%lookup_insert_Some]|?]; [by right|left; left; by eexists|by left; right].
Qed.

Lemma enqueue_keeps class policy w block e d s' e' :
  ps_class P class = Some policy → block ≠ BlockOk →
  enqueue_or_full policy class req w ids now block s e = Some (d, s', e') → keep s'.
Proof.
  intros Hpol Hblock. unfold enqueue_or_full. case_decide; [apply refuse_keeps|].
  destruct (enqueue_tags _ _ _ _ _) as [tags s0] eqn:E0.
  assert (same_books s0 s) as H0.
  { replace s0 with (tags, s0).2 by done. rewrite <-E0. apply enqueue_tags_books. }
  intros Henq. apply bind_Some in Henq as (s1 & He & ?). simplify_eq.
  set (r := pending_of _ _ _ _ _ _ _ _ _) in *.
  assert (pr_class r = class ∧ pr_ticket r = id_ticket ids ∧ pr_permit_id r = id_permit ids ∧
    pr_cost r = resolve_cost policy ∧ pr_capabilities r = ar_capabilities req ∧
    pr_blocked_on r = block) as (E1 & E2 & E3 & E4 & E5 & E6).
  { unfold r, pending_of. by destruct tags as [[]]. }
  destruct Hids as [F1 F2 F3]. split.
  - eapply (inv_enqueue P B s s0 s1 _ r H0 He); rewrite ?E1, ?E2, ?E3; try done.
    + destruct (is_child _); by split.
    + by destruct (is_child _).
    + split; [done|by exists policy|by rewrite E5|by rewrite E6].
  - pose proof (enqueue_cases _ _ _ He) as (_ & Hh & _).
    destruct (is_child _); cbn; rewrite (sh_permits _ _ Hh), H0; lia.
  - intros t Ht. pose proof (enqueue_cases _ _ _ He) as (_ & _ & Et & _).
    destruct (is_child _); cbn; by rewrite lookup_insert_ne, Et, H0 by done.
  - intros pid. pose proof (enqueue_cases _ _ _ He) as (_ & Hh & _).
    pose proof (enqueue_waiting _ _ _ He) as Hw. rewrite E1 in Hw.
    unfold known. intros [Hp|(c & q & Hq & <-)].
    + left. left. revert Hp. destruct (is_child _); cbn; by rewrite (sh_permits _ _ Hh), H0.
    + assert (q ∈ waiting s1 c) as Hq' by (revert Hq; by destruct (is_child _)).
      rewrite Hw in Hq'. unfold upd_queue_of in Hq'.
      assert (q ∈ waiting s c ∨ pr_permit_id q = id_permit ids) as [?|?];
        [|left; right; by eexists _, _|by right].
      case_decide; [subst c|left; by rewrite <-H0].
      apply elem_of_app in Hq' as [?|Hq1%list_elem_of_singleton];
        [left; by rewrite <-H0|subst q; by right].
Qed.

Lemma admit_block_keeps class policy w degrade block e d s' e' :
  ps_class P class = Some policy →
  (block = BlockOk → fits P s class policy (resolve_cost policy) (ar_capabilities req)) →
  (∀ retry_on fallback, degrade = Some retry_on → retry_on fallback = Some (d, s', e') → keep s') →
  admit_block policy now req class w ids degrade block s e = Some (d, s', e') → keep s'.
Proof.
  intros Hpol Hok Hdeg. unfold admit_block.
  destruct block; try (by eapply enqueue_keeps);
    try (by destruct (is_queueable _); [eapply enqueue_keeps|apply refuse_keeps]).
  - intros [= <- <- <-]. apply direct_grant_keeps; auto.
  - destruct (memory_overcommit_policy policy) as [| |fallback], degrade as [retry_on|];
      try apply refuse_keeps; try (by eapply enqueue_keeps); eauto.
  - intros [= <- <- <-].
    set (what := "capacity aggregate is not representable"%string).
    pose proof (record_fault_charges what s) as Hsc. split.
    + eapply inv_settled; [done|apply record_fault_custody|]. eapply Inv_mono; [|done]. lia.
    + rewrite (sc_permits _ _ Hsc). lia.
    + intros t _. unfold record_accounting_fault. by destruct (gs_accounting_fault s).
    + intros pid. unfold known. rewrite (sc_permits _ _ Hsc).
      setoid_rewrite (same_charges_waiting s (record_accounting_fault what s)); [by left|done].
Qed.

Lemma admit_class_keeps hops class w e d s' e' :
  admit_class hops P now req class w ids s e = Some (d, s', e') → keep s'.
Proof.
  revert class. induction hops as [|hops IH]; intros class; cbn [admit_class];
    (destruct (ps_class P class) as [policy|] eqn:Hpol; [|apply refuse_keeps]);
    (destruct (is_disabled policy); [apply refuse_keeps|]);
    (destruct (has_operation_identity _ _ _); [apply refuse_keeps|]);
    (destruct (is_recursive _ _); [apply refuse_keeps|]);
    destruct (assess _ _ _ _ _ _ _ _) as [|b|w0] eqn:Ea.
  - apply admit_block_keeps; [done| |done]. by apply assess_scope_fits in Ea as [? _].
  - apply admit_block_keeps; [done| |done]. intros E. by apply assess_scope_blocked in Ea.
  - destruct (memory_overcommit_policy policy);
      intros (held & _ & H)%bind_Some; by eapply refuse_keeps.
  - apply admit_block_keeps; [done| |naive_solver]. by apply assess_scope_fits in Ea as [? _].
  - apply admit_block_keeps; [done| |naive_solver]. intros E. by apply assess_scope_blocked in Ea.
  - destruct (memory_overcommit_policy policy), (bool_decide (MemoryBudget ∈ cw_held w0));
      try (intros (held & _ & H)%bind_Some; by eapply refuse_keeps). apply IH.
Qed.

Lemma admit_keeps w e d s' e' : admit_request P now req w ids s e = Some (d, s', e') → keep s'.
Proof.
  unfold admit_request. destruct (gs_admission_closed s); [apply refuse_keeps|apply admit_class_keeps].
Qed.
End intake.

(** ** The lifecycle *)

Section lifecycle.
Context (P : PolicySet) (B : N) (Htyped : policies_typed P) (HB : B ≤ U64_MAX).
Context (s : GovernedState) (HI : Inv P B s) (Hroom : room (N.of_nat PROMOTION_BUDGET) s).

Local Abbreviation keep s' := (keeps P B PROMOTION_BUDGET s s').

Lemma weaken n s' : (n ≤ PROMOTION_BUDGET)%nat → keeps P B n s s' → keep s'.
Proof. intros Hn [? ?]. split; [done|by eapply grows_mono]. Qed.

Lemma keep_refl : keep s.
Proof. split; [done|]. apply grows_refl. Qed.

Lemma then_promote now s1 e s' e' :
  keeps P B 0 s s1 → absorb_promote P now s1 e = Some (s', e') → keep s'.
Proof.
  intros [H1 Hg1] H. apply absorb_promote_keeps with (B := B) in H as [H' Hg'];
    [|done..|by eapply grows_room|done].
  split; [done|by apply (grows_trans 0 _ s s1)].
Qed.

Lemma committed sampled : keeps P B 0 s (commit_time sampled s).2.
Proof. apply keeps_books; [apply commit_time_books|done]. Qed.

Lemma release_keeps pid proof reason s1 e out s' e' :
  keeps P B 0 s s1 → release_with_proof_reason pid proof reason s1 e = (out, s', e') →
  keeps P B 0 s s'.
Proof.
  intros Hk. pose proof Hk as [H1 Hg1]. unfold release_with_proof_reason.
  destruct (gs_permits s1 !! pid) as [r|]; [|by intros [= <- <- <-]].
  case_decide; [|by intros [= <- <- <-]].
  destruct (unwind pid reason s1 e) as [[o s2] e2] eqn:Eu. intros Hout.
  assert (s' = s2) as -> by (by destruct o; simplify_eq).
  apply (inv_unwind P B) in Eu as [? ?]; [|done..]. split; [done|].
  by apply (grows_trans 0 0 s s1).
Qed.

Lemma then_settled s1 s' :
  keeps P B 0 s s1 → same_charges s1 s' → (∀ t, custody s' t = custody s1 t) →
  no_new_tickets s1 s' → keeps P B 0 s s'.
Proof.
  intros [H1 Hg1] Hsc Hcu Hnew. split; [by eapply inv_settled|].
  apply (grows_trans 0 0 s s1); [done|by apply grows_charges].
Qed.

(** ** Claims *)

Lemma held_release t pid proof reason s1 e s2 e2 :
  Inv P B s1 → custody s1 t = Some (Holds pid) →
  release_with_proof_reason pid proof reason s1 e ≠ (ReleaseUnknownPermit, s2, e2).
Proof.
  intros H1 (r & Hr & _)%(custody_live _ _ (inv_custody _ _ _ H1)).
  unfold release_with_proof_reason, unwind. rewrite Hr. case_decide; [|done].
  by destruct (rec_pending_ticket r).
Qed.

(** A permit under a lease is left as it is. *)
Lemma held_unchanged pid proof reason s1 e phase s2 e2 :
  release_with_proof_reason pid proof reason s1 e = (ReleaseHeldByLease phase, s2, e2) → s2 = s1.
Proof.
  unfold release_with_proof_reason. destruct (gs_permits s1 !! pid); [|done].
  case_decide; [|by intros [= _ <- _]]. by destruct (unwind _ _ _ _) as [[[] ?] ?].
Qed.

Lemma claim_begin_keeps sampled t out s' e' :
  claim_begin_section sampled t s = (out, s', e') → keeps P B 0 s s'.
Proof.
  pose proof (committed sampled) as Hc. unfold claim_begin_section.
  destruct (commit_time sampled s) as [now s1]. cbn in Hc.
  destruct (gs_tickets s1 !! t) as [[class|pid|pid|reason|]|] eqn:Et;
    try (by intros [= <- <- <-]);
    try (intros [= <- <- <-]; eapply then_settled;
         [done|apply forget_terminal_charges|intros; apply forget_terminal_custody|
          apply forget_terminal_no_new]).
  destruct (gs_permits s1 !! pid) as [r|] eqn:Hr; intros [= <- <- <-]; [|done].
  destruct Hc as [H1 Hg1]. split.
  - eapply (inv_touch P B s1 _ pid r); [done| | | |intros t'|done].
    + eapply same_weight_trans; [apply touch_same_weight|apply waker_same_weight].
    + done.
    + by split.
    + rewrite insert_ticket_custody. case_decide; [subst t'|done].
      unfold custody. by rewrite Et.
  - apply (grows_trans 0 0 s s1); [done|]. eapply (update_grows s1 _ pid r _ Hr).
    + done.
    + done.
    + intros t'. rewrite insert_ticket_custody. case_decide; [subst t'|constructor].
      unfold custody. rewrite Et. constructor.
    + by apply (insert_ticket_no_new t (TClaiming pid) s1).
Qed.

Lemma claim_finish_keeps sampled t out s' :
  claim_finish_section sampled t s = (out, s') → keeps P B 0 s s'.
Proof.
  pose proof (committed sampled) as Hc. unfold claim_finish_section.
  destruct (commit_time sampled s) as [now s1]. cbn in Hc.
  destruct (gs_tickets s1 !! t) as [[class|pid|pid|reason|]|] eqn:Et;
    try (by intros [= <- <-]);
    try (intros [= <- <-]; eapply then_settled;
         [done|apply forget_terminal_charges|intros; apply forget_terminal_custody|
          apply forget_terminal_no_new]).
  destruct Hc as [H1 Hg1].
  assert (custody s1 t = Some (Holds pid)) as Ecu by (unfold custody; by rewrite Et).
  apply (custody_live _ _ (inv_custody _ _ _ H1)) in Ecu as (r & Hr & Ht).
  rewrite Hr. intros [= <- <-]. split.
  - eapply (inv_detach P B s1 _ pid r (touch now (upd_rec_pending_ticket (λ _, None) r)) t);
      [done| |done|done|by split| |done].
    + eapply same_weight_trans; [apply pending_same_weight|apply touch_same_weight].
    + intros t'. by rewrite delete_ticket_custody.
  - apply (grows_trans 0 0 s s1); [done|]. eapply (update_grows s1 _ pid r _ Hr).
    + done.
    + done.
    + intros t'. rewrite delete_ticket_custody. case_decide; constructor.
    + apply (delete_ticket_no_new t s1).
Qed.

Lemma claim_compensate_keeps sampled t pid s' e' :
  claim_compensate_section P sampled t pid s = Some (s', e') →
  gs_tickets s !! t = Some (TClaiming pid) ∨ (∀ p, gs_tickets s !! t ≠ Some (TClaiming p)) →
  keep s'.
Proof.
  intros H Hpid. pose proof (committed sampled) as Hc. unfold claim_compensate_section in H.
  destruct (commit_time sampled s) as [now s1] eqn:Ects. cbn in Hc.
  assert (gs_tickets s1 = gs_tickets s) as Ets
    by (unfold commit_time in Ects; by simplify_eq).
  destruct (gs_tickets s1 !! t) as [[class|pid'|pid'|reason|]|] eqn:Et;
    try (simplify_eq; by apply (weaken 0); [lia|]).
  rewrite Ets in Et. destruct Hpid as [Hpid|Hpid]; [|by destruct (Hpid pid')].
  assert (pid' = pid) as -> by congruence. rewrite <-Ets in Et.
  destruct (release_with_proof_reason _ _ _ _ _) as [[o s2] e2] eqn:Er.
  pose proof (release_keeps _ _ _ _ _ _ _ _ Hc Er) as H2.
  destruct o as [| |phase].
  - by eapply then_promote.
  - apply (held_release t) in Er; [done|apply Hc|]. unfold custody. by rewrite Et.
  - simplify_eq. destruct Hc as [H1 Hg1]. apply (weaken 0); [lia|].
    assert (s2 = s1) as -> by by eapply held_unchanged.
    assert (custody s1 t = Some (Holds pid)) as Ecu by (unfold custody; by rewrite Et).
    apply (custody_live _ _ (inv_custody _ _ _ H1)) in Ecu as (r & Hr & Ht).
    assert (alter (upd_rec_pending_ticket (λ _, None)) pid (gs_permits s1) =
            <[pid := upd_rec_pending_ticket (λ _, None) r]> (gs_permits s1)) as Ea.
    { rewrite <-(insert_id (gs_permits s1) pid r Hr) at 1. apply alter_insert_eq. }
    split.
    + eapply (inv_detach P B s1 _ pid r (upd_rec_pending_ticket (λ _, None) r) t);
        [done|apply pending_same_weight|done|done| | |done].
      * etransitivity; [|apply record_terminal_charges]. by split.
      * intros t'. by rewrite record_terminal_custody.
    + apply (grows_trans 0 0 s s1); [done|].
      set (s2 := upd_gs_permits _ s1). pose proof (record_terminal_charges t ClaimDeliveryFailed s2) as Hsc.
      eapply (update_grows s1 _ pid r _ Hr).
      * rewrite (sc_permits _ _ Hsc). exact Ea.
      * intros class. by rewrite (same_charges_waiting _ _ _ Hsc).
      * intros t'. rewrite record_terminal_custody. case_decide; constructor.
      * apply (record_terminal_no_new_known t _ s2). by eexists.
Qed.

(** ** Abandon and release *)

(** A waiting ticket is found in its class queue. *)
Lemma queued_position_Some s1 class t :
  Inv P B s1 → custody s1 t = Some (Waits class) →
  ∃ i c r, queued_position class t s1 = Some i ∧ gs_classes s1 !! class = Some c ∧
           cs_queue c !! i = Some r ∧ pr_ticket r = t.
Proof.
  intros H1 Ecu. apply (custody_queued _ _ (inv_custody _ _ _ H1)) in Ecu.
  apply list_elem_of_fmap in Ecu as (r & -> & Hin). unfold waiting, class_state in Hin.
  unfold queued_position.
  destruct (gs_classes s1 !! class) as [c|]; [|by apply not_elem_of_nil in Hin].
  cbn. destruct (find_enum _ _ _) as [[i r']|] eqn:Ef.
  - apply find_enum_Some in Ef as (j & -> & Hj & Heq%bool_decide_eq_true & _). by exists j, c, r'.
  - apply list_elem_of_fmap in Hin as (r' & -> & Hin).
    pose proof (proj1 (find_enum_None _ _ _) Ef r' Hin) as Hf. by apply bool_decide_eq_false in Hf.
Qed.

(** The state an abandoned request leaves, before the queue is repriced. *)
Definition abandoned (r : PendingRequest) (s2 : GovernedState) : GovernedState :=
  match (if is_child (pr_scope r)
         then Some (pr_root_operation_id r, pr_target_stage r) else None) with
  | Some (root, stage) =>
    vacate_recursion_guard root stage (upd_gs_tickets (delete (pr_ticket r)) s2)
  | None => upd_gs_tickets (delete (pr_ticket r)) s2
  end.

Lemma abandoned_keeps class i r s1 s2 policy :
  keeps P B 0 s s1 → remove_pending class i s1 = Some (r, s2) →
  keeps P B 0 s (on_unserved_removed class policy (abandoned r s2)).
Proof.
  intros [H1 Hg1] Hrm.
  assert (same_charges s2 (abandoned r s2) ∧
    ∀ t, custody (abandoned r s2) t = custody (upd_gs_tickets (delete (pr_ticket r)) s2) t)
    as [Hsc Hcu] by (unfold abandoned; by destruct (is_child _)).
  assert (keeps P B 0 s1 (abandoned r s2)) as [H5 Hg5].
  { eapply (dequeue_keeps P B HB 0 class i s1 r s2 s2); [done|done|done| | |done].
    { intros t. rewrite Hcu, delete_ticket_custody. case_decide; [done|].
      by apply (remove_pending_custody _ _ _ _ _ Hrm). }
    etransitivity; [apply no_new_tickets_eq, (remove_pending_tickets _ _ _ _ _ Hrm)|].
    unfold abandoned. destruct (is_child _); apply (delete_ticket_no_new (pr_ticket r) s2). }
  split; [by rewrite on_unserved_removed_books|].
  apply (grows_trans 0 0 s s1); [done|].
  apply (grows_trans 0 0 s1 (abandoned r s2)); [done|].
  apply grows_books, on_unserved_removed_books.
Qed.

(** The queued arm of [abandon], unfolded. *)
Lemma abandon_queued_cases now class t s1 out s' e' :
  Inv P B s1 → custody s1 t = Some (Waits class) →
  abandon_queued P now class t s1 = Some (out, s', e') →
  ∃ i r s2 e policy, ps_class P class = Some policy ∧
    remove_pending class i s1 = Some (r, s2) ∧ pr_ticket r = t ∧ out = AbandonDone ∧
    absorb_promote P now (on_unserved_removed class policy (abandoned r s2)) e = Some (s', e').
Proof.
  intros H1 Ecu H. unfold abandon_queued in H.
  destruct (queued_position_Some s1 class t H1 Ecu) as (i & c & r & Epos & Hc & Hi & Hrt).
  rewrite Epos in H.
  apply bind_Some in H as ([[guard s3] e3] & H3 & H).
  apply bind_Some in H3 as ([r' s2] & Hrm & H3).
  apply bind_Some in H as (policy & Hpol & H). apply bind_Some in H as ([s4 e4] & H4 & H).
  injection H as <- <- <-. injection H3 as <- <- <-.
  pose proof (remove_pending_cases _ _ _ _ _ Hrm) as (c' & Hc' & Hi' & _).
  assert (r' = r) as -> by congruence. subst t.
  by exists i, r, s2, (push_retire (pr_waker r) no_effects), policy.
Qed.

Lemma abandon_queued_keeps now class t s1 out s' e' :
  keeps P B 0 s s1 → custody s1 t = Some (Waits class) →
  abandon_queued P now class t s1 = Some (out, s', e') → keep s'.
Proof.
  intros Hk Ecu H. apply abandon_queued_cases in H as (i & r & s2 & e & policy & _ & Hrm & _ & _ & H);
    [|apply Hk|done].
  eapply then_promote; [|exact H]. by eapply abandoned_keeps.
Qed.

Lemma abandon_held_keeps now t pid s1 out s' e' :
  keeps P B 0 s s1 → custody s1 t = Some (Holds pid) →
  match release_with_proof_reason pid None Abandoned s1 no_effects with
  | (ReleaseDone, s, e) =>
    '(s, e) ← absorb_promote P now (forget_terminal_ticket t s) e; Some (AbandonDone, s, e)
  | (ReleaseHeldByLease phase, s, e) => Some (AbandonHeldByLease phase, s, e)
  | (ReleaseUnknownPermit, s, e) => Some (AbandonInvalid, upd_gs_tickets (delete t) s, e)
  end = Some (out, s', e') → keep s'.
Proof.
  intros Hk Ecu H. destruct (release_with_proof_reason _ _ _ _ _) as [[o s2] e2] eqn:Er.
  pose proof (release_keeps _ _ _ _ _ _ _ _ Hk Er) as H2. destruct o as [| |phase].
  - apply bind_Some in H as ([s3 e3] & H3 & H). simplify_eq.
    eapply then_promote; [|done]. eapply then_settled;
      [done|apply forget_terminal_charges|apply forget_terminal_custody|
       apply forget_terminal_no_new].
  - by apply (held_release t) in Er; [|apply Hk|].
  - simplify_eq. by apply (weaken 0); [lia|].
Qed.

Lemma abandon_keeps sampled t out s' e' :
  abandon_section P sampled t s = Some (out, s', e') → keep s'.
Proof.
  intros H. pose proof (committed sampled) as Hc. unfold abandon_section in H.
  destruct (commit_time sampled s) as [now s1]. cbn in Hc.
  destruct (gs_tickets s1 !! t) as [[class|pid|pid|reason|]|] eqn:Et.
  - eapply abandon_queued_keeps; [done| |done]. unfold custody. by rewrite Et.
  - eapply abandon_held_keeps; [done| |done]. unfold custody. by rewrite Et.
  - eapply abandon_held_keeps; [done| |done]. unfold custody. by rewrite Et.
  - simplify_eq. apply (weaken 0); [lia|]. eapply then_settled;
      [done|apply forget_terminal_charges|apply forget_terminal_custody|
       apply forget_terminal_no_new].
  - simplify_eq. apply (weaken 0); [lia|]. eapply then_settled;
      [done|apply forget_terminal_charges|apply forget_terminal_custody|
       apply forget_terminal_no_new].
  - simplify_eq. by apply (weaken 0); [lia|].
Qed.

Lemma release_section_keeps sampled pid proof out s' e' :
  release_section P sampled pid proof s = Some (out, s', e') → keep s'.
Proof.
  intros H. pose proof (committed sampled) as Hc. unfold release_section in H.
  destruct (commit_time sampled s) as [now s1]. cbn in Hc.
  destruct (release_with_proof _ _ _ _) as [[o s2] e2] eqn:Er.
  pose proof (release_keeps _ _ _ _ _ _ _ _ Hc Er) as H2.
  destruct o; simplify_eq; try (by apply (weaken 0); [lia|]).
  apply bind_Some in H as ([s3 e3] & H3 & ?). simplify_eq. by eapply then_promote.
Qed.

Lemma admit_compensate_keeps sampled pid s' e' :
  admit_compensate_section P sampled pid s = Some (s', e') → keep s'.
Proof.
  intros H. pose proof (committed sampled) as Hc. unfold admit_compensate_section in H.
  destruct (commit_time sampled s) as [now s1]. cbn in Hc.
  destruct (release_with_proof _ _ _ _) as [[o s2] e2] eqn:Er.
  pose proof (release_keeps _ _ _ _ _ _ _ _ Hc Er) as H2.
  destruct o; simplify_eq; try (by apply (weaken 0); [lia|]). by eapply then_promote.
Qed.

(** ** Memory *)

Lemma room_committed s1 : keeps P B 0 s s1 → room 0 s1.
Proof. intros [_ Hg]. eapply (grows_room 0); [done|]. eapply room_mono; [|done]. lia. Qed.

Lemma reconcile_section_keeps sampled pid bytes epoch out s' e' :
  reconcile_section P sampled pid bytes epoch s = Some (out, s', e') → keep s'.
Proof.
  intros H. pose proof (committed sampled) as Hc. unfold reconcile_section in H.
  destruct (commit_time sampled s) as [now s1]. cbn in Hc.
  pose proof (room_committed _ Hc) as Hroom1. destruct (weaken 0 s1) as [Hw1 Hw2]; [lia|done|].
  destruct (gs_permits s1 !! pid) as [r|]; [|by simplify_eq].
  destruct (ps_class P (rec_class r)) as [policy|]; [|by simplify_eq].
  destruct (match epoch with Some _ => _ | None => _ end) as [o|sequence]; [by simplify_eq|].
  destruct (reconcile _ _ _ _ _ _ _) as [o s2] eqn:Er.
  destruct Hc as [H1 Hg1]. apply (inv_reconcile P B) in Er as [H2 Hg2]; [|done..].
  assert (keeps P B 0 s s2) as Hk2.
  { split; [done|]. by apply (grows_trans 0 0 s s1). }
  destruct o; simplify_eq; try (by apply (weaken 0); [lia|]).
  - apply bind_Some in H as ([s3 e3] & H3 & ?). simplify_eq. by eapply then_promote.
  - apply bind_Some in H as ([s3 e3] & H3 & ?). simplify_eq.
    apply (fault_all_keeps P B HB) in H3 as [H3 Hg3]; [|done]. apply (weaken 0); [lia|].
    split; [done|]. apply (grows_trans 0 0 s s2); [apply Hk2|done].
Qed.

Lemma stage_release_keeps sampled pid freed sequence out s' e' :
  stage_release_section P sampled pid freed sequence s = Some (out, s', e') → keep s'.
Proof.
  intros H. pose proof (committed sampled) as Hc. unfold stage_release_section in H.
  destruct (commit_time sampled s) as [now s1]. cbn in Hc.
  pose proof (room_committed _ Hc) as Hroom1. destruct (weaken 0 s1) as [Hw1 Hw2]; [lia|done|].
  destruct (gs_permits s1 !! pid) as [r|]; [|by simplify_eq].
  destruct (ps_class P (rec_class r)) as [policy|]; [|by simplify_eq].
  destruct (release_stage_memory _ _ _ _ _ _) as [o s2] eqn:Er.
  destruct Hc as [H1 Hg1]. apply (inv_release_stage P B) in Er as [H2 Hg2]; [|done..].
  apply bind_Some in H as ([s3 e3] & H3 & ?). simplify_eq. eapply then_promote; [|done].
  split; [done|]. by apply (grows_trans 0 0 s s1).
Qed.

Lemma reap_permits_keeps pids reclaimed s1 e reclaimed' s' e' :
  reap_permits pids reclaimed s1 e = (reclaimed', s', e') → keeps P B 0 s s1 → keeps P B 0 s s'.
Proof.
  revert reclaimed s1 e. induction pids as [|pid pids IH]; intros reclaimed s1 e H Hk; cbn in H.
  { by simplify_eq. }
  destruct (unwind pid Reclaimed s1 e) as [[o s2] e2] eqn:Eu. apply IH in H; [done|].
  destruct Hk as [H1 Hg1]. apply (inv_unwind P B) in Eu as [? ?]; [|done..].
  split; [done|]. by apply (grows_trans 0 0 s s1).
Qed.

Lemma reap_section_keeps sampled stale report s' e' :
  reap_section P sampled stale s = Some (report, s', e') → keep s'.
Proof.
  intros H. pose proof (committed sampled) as Hc. unfold reap_section in H.
  destruct (commit_time sampled s) as [now s1]. cbn in Hc.
  destruct (reap_leaks _ _ _ _ _) as [[rep s2] e2] eqn:Er.
  apply bind_Some in H as ([s3 e3] & H3 & ?). simplify_eq. eapply then_promote; [|done].
  unfold reap_leaks in Er. destruct (reap_permits _ _ _ _) as [[n s4] e4] eqn:Ep. simplify_eq.
  by eapply reap_permits_keeps.
Qed.

Lemma continue_section_keeps sampled s' e' :
  continue_section P sampled s = Some (s', e') → keep s'.
Proof.
  intros H. pose proof (committed sampled) as Hc. unfold continue_section in H.
  destruct (commit_time sampled s) as [now s1]. cbn in Hc. destruct Hc as [H1 Hg1].
  apply (promote_keeps P B Htyped HB) in H as [H' Hg']; [|by eapply grows_room|done].
  split; [done|]. by apply (grows_trans 0 _ s s1).
Qed.
End lifecycle.
