(* ===== verification/Trace.v ===== *)
(** * Sections as sequences of primitive transitions

    Every critical section of Governor.v is a finite sequence of the transitions
    of state/transition.rs, each taken under its guard: a permit is granted only
    where it fits, charges are returned only for a live permit, a ticket record is
    dropped only when it is not a terminal one.  A request joins a queue in
    admission only, at most once ([arrives]).  What holds of each primitive
    transition holds of every section, so an invariant that is about one field is
    proved once per primitive, not once per section. *)

From S2P Require Import Prelude Contract Text Kernel State Assess Fairness Admission Memory.
From S2P Require Import Governor Books Custody Ledger Moves Reads Invariant Steps Selection.
From S2P Require Import Sections Lifecycle.

(** ** Primitive transitions *)

Definition is_terminal (st : option TicketState) : bool :=
  match st with Some (TTerminal _) => true | _ => false end.

(** An entry that a ticket's caller still waits on. *)
Definition live_ticket (st : option TicketState) : option TicketState :=
  match st with Some (TTerminal _) | Some TFaulted => None | st => st end.

(** What identifies a permit and never changes while it lives. *)
Definition permit_key (r : PermitRecord) :=
  (rec_permit_id r, rec_class r, (rec_root_operation_id r, rec_operation r), rec_scope r,
   rec_parent_permit_id r, rec_target_stage r, rec_provenance r, rec_capabilities r,
   pl_cpu_units (rec_ledger r)).

(** Who asks: the root operation, the operation and the scope. *)
Definition record_who (r : PermitRecord) := (rec_root_operation_id r, rec_operation r, rec_scope r).
Definition request_who (r : PendingRequest) := (pr_root_operation_id r, pr_operation r, pr_scope r).
Definition grant_who (g : GrantRequest) := (gr_root_operation_id g, gr_operation g, gr_scope g).
Definition spec_who (spec : TaskSpec) :=
  (ts_root_operation_id spec, ts_operation spec, ts_scope spec).

(** The permit record keeps everything a total, a limit or a view depends on. *)
Record same_permit (r r' : PermitRecord) : Prop := {
  sp_key : permit_key r' = permit_key r;
  sp_phase : rec_phase r' = rec_phase r;
  sp_lease : rec_lease_nonce r' = rec_lease_nonce r;
  sp_effective : pl_effective_units (rec_ledger r') = pl_effective_units (rec_ledger r);
}.

(** Entries of the class table are made for classes of the policy only. *)
Definition classes_from (P : PolicySet) (s s' : GovernedState) : Prop :=
  ∀ class, is_Some (gs_classes s' !! class) →
    is_Some (gs_classes s !! class) ∨ is_Some (ps_class P class).

#[export] Instance classes_from_preorder P : PreOrder (classes_from P).
Proof.
  split; [by intros s class; left|]. intros s1 s2 s3 H1 H2 class [H|H]%H2; [by apply H1|by right].
Qed.

Lemma classes_from_mut P s class f :
  is_Some (gs_classes s !! class) ∨ is_Some (ps_class P class) → classes_from P s (class_mut class f s).
Proof.
  intros H class'. unfold class_mut. cbn. intros [->|[_ ?]]%lookup_insert_is_Some; [done|by left].
Qed.

(** Scheduling data moves; the clock stands still. *)
Definition retagged (P : PolicySet) (s s' : GovernedState) : Prop :=
  same_books s' s ∧ gs_commit_watermark_ms s' = gs_commit_watermark_ms s ∧ classes_from P s s'.

(** A grant's request matches the policy of its class, and fits. *)
Record grantable (P : PolicySet) (g : GrantRequest) (s : GovernedState) : Prop := {
  gt_policy : ∃ policy, ps_class P (gr_class g) = Some policy ∧
    gr_cost g = resolve_cost policy ∧
    fits P s (gr_class g) policy (gr_cost g) (gr_capabilities g);
  gt_fresh : gs_permits s !! gr_permit_id g = None;
  gt_capabilities : NoDup (gr_capabilities g);
}.

(** The permits a section may lease, those whose lease it may spend, the tickets it
    may start to claim, those it may answer and those it may make the engine forget:
    those it was called with.  And whether it measures: whether it may change what a
    permit is charged, or find that a charge cannot be represented; and whether it may
    close the gate. *)
Record Grip := mkGrip {
  may_lease : PermitId → Prop;
  may_spend : PermitId → Prop;
  may_claim : Ticket → Prop;
  may_answer : Ticket → Prop;
  may_forget : Ticket → Prop;
  may_measure : Prop;
  may_close : Prop;
}.
Definition any : Grip :=
  mkGrip (λ _, True) (λ _, True) (λ _, True) (λ _, True) (λ _, True) True True.

(** A ticket the table has an entry for. *)
Definition listed (s : GovernedState) (t : Ticket) : Prop := is_Some (gs_tickets s !! t).

(** A ticket whose entry is not settled. *)
Definition open_entry (s : GovernedState) (t : Ticket) : Prop :=
  is_Some (live_ticket (gs_tickets s !! t)).

Lemma open_listed s t : open_entry s t → listed s t.
Proof. unfold open_entry, listed. destruct (gs_tickets s !! t); [by eexists|by intros [? ?]]. Qed.

Lemma open_not_terminal s t : open_entry s t → is_terminal (gs_tickets s !! t) = false.
Proof. unfold open_entry. destruct (gs_tickets s !! t) as [[]|]; by try intros [? ?]. Qed.

(** A ticket no queued request waits under. *)
Definition unqueued (s : GovernedState) (t : Ticket) : Prop :=
  ∀ class q, q ∈ waiting s class → pr_ticket q ≠ t.

(** The states a ticket is written to on its own: queued with its request, and, if it
    has an entry already, faulted or being claimed. *)
Definition ticket_ok (G : Grip) (s : GovernedState) (t : Ticket) (st : TicketState) : Prop :=
  match st with
  | TQueued class => ∃ q, q ∈ waiting s class ∧ pr_ticket q = t
  | TFaulted => listed s t
  | TClaiming _ => may_claim G t ∧ open_entry s t
  | TGranted _ | TTerminal _ => False
  end.

Inductive tstep_of (G : Grip) (P : PolicySet) (s : GovernedState) : GovernedState → Prop :=
  | t_clock sampled : tstep_of G P s (commit_time sampled s).2
  | t_tags s' : retagged P s s' → tstep_of G P s s'
  | t_guard f : tstep_of G P s (upd_gs_active_recursion f s)
  | t_promote class i r s1 s2 now :
      remove_pending class i s = Some (r, s1) → retagged P s1 s2 →
      ClassState.has_queued_predecessor (class_state s class) r = false →
      let s3 := upd_gs_tickets (delete (pr_ticket r)) s2 in
      let g := promotion_grant class r now s3 in
      grantable P g s3 → ledger_ok s → is_terminal (gs_tickets s !! pr_ticket r) = false →
      tstep_of G P s (grant g s3)
  | t_dequeue class i r s' : remove_pending class i s = Some (r, s') → tstep_of G P s s'
  | t_ticket t st :
      is_terminal (gs_tickets s !! t) = false → ticket_ok G s t st →
      tstep_of G P s (upd_gs_tickets (insert t st) s)
  | t_drop t :
      is_terminal (gs_tickets s !! t) = false → may_forget G t → tstep_of G P s (upd_gs_tickets (delete t) s)
  | t_terminal t reason :
      open_entry s t → unqueued s t →
      tstep_of G P s (record_terminal_ticket t reason s)
  | t_forget t : may_forget G t → tstep_of G P s (forget_terminal_ticket t s)
  | t_unwind pid r :
      gs_permits s !! pid = Some r → rec_lease_nonce r = None ∨ may_spend G pid →
      tstep_of G P s (unwind_charges r pid s)
  | t_record pid r r' :
      gs_permits s !! pid = Some r → same_permit r r' →
      rec_pending_ticket r' = rec_pending_ticket r →
      tstep_of G P s (upd_gs_permits (insert pid r') s)
  | t_answer pid t r :
      gs_permits s !! pid = Some r → rec_pending_ticket r = Some t → may_answer G t →
      tstep_of G P s (upd_gs_permits (insert pid (upd_rec_pending_ticket (λ _, None) r)) s)
  | t_advance pid phase nonces out nonces' s' :
      may_lease G pid → advance_phase pid phase nonces s = (out, nonces', s') → tstep_of G P s s'
  | t_reconcile pid bytes sequence mode scale now out s' :
      may_measure G → reconcile pid bytes sequence mode scale now s = (out, s') → tstep_of G P s s'
  | t_stage pid freed policy sequence now out s' :
      may_measure G → release_stage_memory pid freed policy sequence now s = (out, s') → tstep_of G P s s'
  | t_fault what : may_measure G → tstep_of G P s (record_accounting_fault what s)
  | t_close : may_close G → tstep_of G P s (close_admission s).

Arguments t_clock {_}.
Arguments t_tags {_}.
Arguments t_guard {_}.
Arguments t_promote {_}.
Arguments t_dequeue {_}.
Arguments t_ticket {_}.
Arguments t_drop {_}.
Arguments t_terminal {_}.
Arguments t_forget {_}.
Arguments t_unwind {_}.
Arguments t_record {_}.
Arguments t_answer {_}.
Arguments t_advance {_}.
Arguments t_reconcile {_}.
Arguments t_stage {_}.
Arguments t_fault {_}.
Arguments t_close {_}.

Definition trace_of (G : Grip) (P : PolicySet) : relation GovernedState := rtc (tstep_of G P).

#[export] Instance trace_preorder G P : PreOrder (trace_of G P).
Proof. unfold trace_of. apply _. Qed.

Create HintDb trace.
#[export] Hint Constructors tstep_of : trace.

Section traces.
Context {G : Grip}.
Local Abbreviation tstep := (tstep_of G).
Local Abbreviation trace := (trace_of G).

Lemma trace_one P s s' : tstep P s s' → trace P s s'.
Proof. apply rtc_once. Qed.

Lemma trace_then P s s1 s' : trace P s s1 → tstep P s1 s' → trace P s s'.
Proof. apply rtc_r. Qed.

(** What every primitive transition keeps, every section keeps. *)
Lemma trace_keeps P (K : GovernedState → Prop) :
  (∀ s s', tstep P s s' → K s → K s') → ∀ s s', trace P s s' → K s → K s'.
Proof. intros H s s' Ht. induction Ht as [|s1 s2 s3 Hs _ IH]; [done|]. eauto. Qed.

Lemma trace_rel P (R : relation GovernedState) `{!PreOrder R} :
  (∀ s s', tstep P s s' → R s s') → ∀ s s', trace P s s' → R s s'.
Proof.
  intros H s s' Ht. induction Ht as [|s1 s2 s3 Hs _ IH]; [reflexivity|].
  etransitivity; [by apply H|done].
Qed.

(** ** Scheduling moves *)

Lemma retagged_same P s s' :
  same_books s' s → gs_commit_watermark_ms s' = gs_commit_watermark_ms s →
  gs_classes s' = gs_classes s → retagged P s s'.
Proof. intros H1 H2 E. split_and!; [done..|]. intros class. rewrite E. by left. Qed.

Lemma retagged_trace P s s' : retagged P s s' → trace P s s'.
Proof. intros. by apply trace_one, t_tags. Qed.

Lemma rebase_classes P s : classes_from P s (rebase_virtual_time s).
Proof.
  intros class H. left. revert H. unfold rebase_virtual_time. cbn.
  rewrite lookup_fmap. by destruct (gs_classes s !! class).
Qed.

Lemma enqueue_tags_retagged P s class policy cost now :
  is_Some (ps_class P class) → retagged P s (enqueue_tags s class policy cost now).2.
Proof.
  intros Hc. split; [apply enqueue_tags_books|]. unfold enqueue_tags.
  destruct (fairness policy); try done. destruct (checked_add _ _ _); (split; [done|]); cbn [snd].
  - do 2 (etransitivity; [apply classes_from_mut; by right|]). done.
  - etransitivity; [apply classes_from_mut; by right|]. etransitivity; [apply rebase_classes|].
    do 2 (etransitivity; [apply classes_from_mut; by right|]). done.
Qed.

Lemma on_unserved_removed_retagged P class policy s :
  is_Some (ps_class P class) → retagged P s (on_unserved_removed class policy s).
Proof.
  intros Hc. split; [apply on_unserved_removed_books|]. split; [done|].
  apply classes_from_mut. by right.
Qed.

Lemma on_request_served_retagged P class policy index tag s :
  is_Some (ps_class P class) → retagged P s (on_request_served class policy index tag s).
Proof.
  intros Hc. split; [apply on_request_served_books|]. split; [done|].
  apply classes_from_mut. by right.
Qed.

(** Selection credits the classes it visits. *)
Section selecting.
Context (P : PolicySet).
Implicit Types s : GovernedState.

Definition steady s s' : Prop :=
  gs_commit_watermark_ms s' = gs_commit_watermark_ms s ∧ classes_from P s s'.

#[local] Instance steady_preorder : PreOrder steady.
Proof.
  split; [by intros s; split|]. intros s1 s2 s3 [E1 C1] [E2 C2]. split; [congruence|by transitivity s2].
Qed.

Lemma same_steady s s' :
  gs_commit_watermark_ms s' = gs_commit_watermark_ms s → gs_classes s' = gs_classes s → steady s s'.
Proof. intros E1 E2. split; [done|]. intros class. rewrite E2. by left. Qed.

Lemma mut_steady s class f : is_Some (ps_class P class) → steady s (class_mut class f s).
Proof. intros. split; [done|]. apply classes_from_mut. by right. Qed.

Lemma credit_steady len pos vs s :
  (∀ v, v ∈ vs → is_Some (ps_class P (vi_class v))) → steady s (foldl (credit_visit len pos) s vs).
Proof.
  revert s. induction vs as [|v vs IH]; intros s Hv; [done|]. cbn.
  etransitivity; [|apply IH; intros; apply Hv; by right].
  unfold credit_visit. case_decide; [done|]. apply mut_steady, Hv. by left.
Qed.

Lemma plan_from_classes s len start index pool plan :
  plan_from s len start index pool = Some plan → vi_class <$> plan = ca_class <$> pool.
Proof.
  revert index plan. induction pool as [|c pool IH]; intros index plan; cbn; [by intros [= <-]|].
  intros (v & Hv & H)%bind_Some. apply bind_Some in H as (vs & Hvs & [= <-]).
  rewrite fmap_cons, (IH _ _ Hvs). f_equal. unfold plan_visit in Hv.
  repeat (apply bind_Some in Hv as (? & _ & Hv)). by injection Hv as <-.
Qed.

Lemma drr_walk_steady s pool class s' :
  (∀ c, c ∈ pool → is_Some (ps_class P (ca_class c))) →
  drr_walk s pool = Some (class, s') → steady s s'.
Proof.
  intros Hp. unfold drr_walk. destruct (plan_from _ _ _ _ _) as [plan|] eqn:Epl; [|done].
  cbn [mbind option_bind].
  assert (∀ v, v ∈ plan → is_Some (ps_class P (vi_class v))) as Hv.
  { intros v Hv%(list_elem_of_fmap_2 vi_class). rewrite (plan_from_classes _ _ _ _ _ _ Epl) in Hv.
    apply list_elem_of_fmap in Hv as (c & -> & Hc). by apply Hp. }
  destruct plan as [|v0 vs]; [intros [= <- <-]; by apply same_steady|].
  destruct (List.find _ _) as [w|] eqn:Ew; intros [= <- <-]; [|by apply same_steady].
  apply List.find_some in Ew as [Hw%list_elem_of_In _].
  set (s0 := upd_gs_drr_ring_visits _ s). transitivity s0; [by apply same_steady|].
  etransitivity; [by apply (credit_steady (length pool) (min_pos (vi_visit_pos v0) vs) (v0 :: vs))|].
  etransitivity; [apply mut_steady, Hv, Hw|by apply same_steady].
Qed.

Lemma drr_select_steady s pool class s' :
  (∀ c, c ∈ pool → is_Some (ps_class P (ca_class c))) →
  drr_select s pool = Some (class, s') → steady s s'.
Proof.
  intros Hp. unfold drr_select. destruct pool as [|c0 pool]; [by intros [= <- <-]|].
  destruct (gs_drr_cursor s) as [cur|]; [|by apply drr_walk_steady].
  destruct (List.find _ _) as [c|] eqn:Ec; [|by apply drr_walk_steady].
  apply List.find_some in Ec as [Hc%list_elem_of_In <-%bool_decide_eq_true].
  case_decide; [|by apply drr_walk_steady]. intros [= <- <-]. by apply mut_steady, Hp.
Qed.

Lemma candidate_policy s c : c ∈ runnable_candidates s P → is_Some (ps_class P (ca_class c)).
Proof.
  intros ([k cs] & _ & H)%list_elem_of_omap. unfold class_candidate in H.
  apply bind_Some in H as (policy & Hp & H). apply bind_Some in H as ([i q] & _ & [= <-]).
  by eexists.
Qed.

Lemma select_retagged s sel s' : select s P = Some (sel, s') → retagged P s s'.
Proof.
  intros H. split; [by eapply select_books|]. change (steady s s'). unfold select in H.
  set (pool := List.filter _ _) in H.
  assert (∀ c, c ∈ pool → is_Some (ps_class P (ca_class c))) as Hp.
  { intros c [Hc%list_elem_of_In _]%list_elem_of_In%List.filter_In. by eapply candidate_policy. }
  clearbody pool.
  destruct pool as [|c0 pool]; [by simplify_eq|].
  apply bind_Some in H as ([chosen s1] & Hchoose & H).
  assert (steady s s1) as Hs1.
  { destruct (ca_fairness c0);
      first [by eapply drr_select_steady | by cbn in Hchoose; simplify_eq]. }
  destruct chosen as [chosen|]; [|by simplify_eq].
  destruct (List.find _ (runnable_candidates s P)) as [c|] in H; simplify_eq;
    (etransitivity; [exact Hs1|]);
    (destruct (ca_fairness c0); [done| |done|done|done]; destruct (List.find _ _);
      [by apply same_steady|done]).
Qed.
End selecting.

(** ** Unwinding, releasing *)

Lemma custody_listed s t c : custody s t = Some c → listed s t.
Proof. unfold custody, listed. by destruct (gs_tickets s !! t). Qed.

(** A permit that is to be told of a ticket answers a listed one. *)
Lemma pending_listed P B s pid r t :
  Inv P B s → gs_permits s !! pid = Some r → rec_pending_ticket r = Some t → listed s t.
Proof. intros HI Hr Ht. eapply custody_listed, (pending_holds (inv_custody _ _ _ HI)); done. Qed.

Lemma listed_not_None s t st : gs_tickets s !! t = Some st → listed s t.
Proof. intros E. unfold listed. rewrite E. by eexists. Qed.

(** A ticket bound to a permit is settled, in a state with the same table and queues. *)
Lemma settle_held P s s1 t pid reason :
  custody_ok P s → custody s t = Some (Holds pid) → gs_tickets s1 = gs_tickets s →
  (∀ class, waiting s1 class = waiting s class) → tstep P s1 (record_terminal_ticket t reason s1).
Proof.
  intros HC H Et Ew. apply t_terminal.
  - unfold open_entry. rewrite Et. revert H. unfold custody.
    destruct (gs_tickets s !! t) as [[]|]; try done; by eexists.
  - intros class q Hq <-. rewrite Ew in Hq.
    assert (custody s (pr_ticket q) = Some (Waits class)) by (apply HC; by apply list_elem_of_fmap_2).
    congruence.
Qed.

Lemma unwind_trace P B pid reason s e out s' e' :
  (∀ r, gs_permits s !! pid = Some r → rec_lease_nonce r = None ∨ may_spend G pid) →
  unwind pid reason s e = (out, s', e') → Inv P B s → trace P s s'.
Proof.
  unfold unwind. destruct (gs_permits s !! pid) as [r|] eqn:Hr; [|by intros _ [= <- <- <-]].
  intros HG. pose proof (trace_one P _ _ (t_unwind P s pid r Hr (HG r eq_refl))) as Hu.
  destruct (rec_pending_ticket r) as [t|] eqn:Ht; intros [= <- <- <-]; [|done].
  intros HI. eapply trace_then; [done|].
  eapply settle_held; [apply HI|by eapply (pending_holds (inv_custody _ _ _ HI))|apply unwind_charges_tickets|].
  intros class. apply unwind_charges_waiting.
Qed.

Lemma release_trace P B pid proof reason s e out s' e' :
  (is_Some proof → may_spend G pid) →
  release_with_proof_reason pid proof reason s e = (out, s', e') → Inv P B s → trace P s s'.
Proof.
  intros HG H HI. revert H. unfold release_with_proof_reason.
  destruct (gs_permits s !! pid) as [r|] eqn:Hr; [|by intros [= <- <- <-]].
  case_decide as Hp; [|by intros [= <- <- <-]].
  destruct (unwind pid reason s e) as [[o s2] e2] eqn:Eu.
  apply (unwind_trace P B) in Eu; [by destruct o; intros [= <- <- <-]| |done].
  intros r' Hr'. assert (r' = r) as -> by congruence. rewrite Hp.
  destruct proof; [right; apply HG; by eexists|by left].
Qed.

Lemma reap_permits_trace P B pids n s e n' s' e' :
  B ≤ U64_MAX →
  (∀ pid r, pid ∈ pids → gs_permits s !! pid = Some r → rec_lease_nonce r = None) →
  reap_permits pids n s e = (n', s', e') → Inv P B s → trace P s s'.
Proof.
  intros HB. revert n s e. induction pids as [|pid pids IH]; intros n s e Hl H HI; cbn in H; [by simplify_eq|].
  destruct (unwind pid Reclaimed s e) as [[o s2] e2] eqn:Eu.
  pose proof Eu as HI2. apply (inv_unwind P B) in HI2 as [HI2 _]; [|done..].
  apply IH in H; [| |done].
  - transitivity s2; [|done]. eapply unwind_trace; [|done..]. intros r Hr. left. eapply Hl; [by left|done].
  - intros pid' r Hin Hr. apply (Hl pid' r); [by right|].
    unfold unwind in Eu. destruct (gs_permits s !! pid) as [r0|]; [|by simplify_eq].
    destruct (rec_pending_ticket r0); simplify_eq.
    + rewrite (sc_permits _ _ (record_terminal_charges _ _ _)), unwind_charges_permits in Hr.
      by apply lookup_delete_Some in Hr as [_ ?].
    + rewrite unwind_charges_permits in Hr. by apply lookup_delete_Some in Hr as [_ ?].
Qed.

(** ** What grants rely on *)

Lemma fits_gauge P s s' class policy cost caps :
  (∀ g, gauge_read s' g = gauge_read s g) → gs_accounting_fault s' = gs_accounting_fault s →
  fits P s class policy cost caps → fits P s' class policy cost caps.
Proof.
  intros Eg Ef [F1 F2 F3 F4 F5].
  pose proof (Eg (GInflight class)) as E1. pose proof (Eg GCpu) as E2.
  pose proof (Eg GMemory) as E3. cbn [gauge_read] in E1, E2, E3. split.
  - by rewrite E1.
  - intros id Hid. destruct (F2 id Hid) as (r & ? & ?). exists r.
    pose proof (Eg (GCapability id)) as E4. cbn [gauge_read] in E4. by rewrite E4.
  - by rewrite E2.
  - by rewrite E3.
  - by rewrite Ef.
Qed.

Lemma waits_not_terminal s t class :
  custody s t = Some (Waits class) → is_terminal (gs_tickets s !! t) = false.
Proof. unfold custody. by destruct (gs_tickets s !! t) as [[]|]. Qed.

(** A dequeued request's ticket is a waiting one. *)
Lemma dequeued_waits P B class i s r s1 :
  remove_pending class i s = Some (r, s1) → Inv P B s →
  custody s (pr_ticket r) = Some (Waits class).
Proof.
  intros [Hi _]%remove_pending_waiting HI. apply (custody_queued _ _ (inv_custody _ _ _ HI)).
  change (pr_ticket r) with (pr_ticket (untag r)).
  by apply (list_elem_of_fmap_2 pr_ticket), list_elem_of_lookup_2 with i.
Qed.

(** And no request is queued under it any more. *)
Lemma dequeued_unqueued P B class i s r s1 :
  remove_pending class i s = Some (r, s1) → Inv P B s → unqueued s1 (pr_ticket r).
Proof.
  intros Hrm HI k q Hq E. pose proof (dequeued_waits _ _ _ _ _ _ _ Hrm HI) as Hcu.
  pose proof (inv_custody _ _ _ HI) as HC.
  apply remove_pending_waiting in Hrm as [Hi Ew]. rewrite Ew in Hq. unfold upd_queue_of in Hq.
  assert (custody s (pr_ticket q) = Some (Waits k)) as Hk.
  { apply HC. apply list_elem_of_fmap_2. case_decide; [subst k|done].
    eapply elem_of_submseteq; [exact Hq|apply sublist_submseteq, sublist_delete]. }
  assert (k = class) as -> by congruence. rewrite decide_True in Hq by done.
  apply list_elem_of_lookup in Hq as [j Hj]. rewrite list_lookup_delete in Hj.
  assert (∀ m, waiting s class !! m = Some q → m = i) as Hm.
  { intros m Hq'. eapply (NoDup_lookup _ _ _ _ (custody_nodup _ _ HC class));
      rewrite list_lookup_fmap; [by rewrite Hq'|rewrite Hi; cbn; by rewrite E]. }
  case_decide; apply Hm in Hj; lia.
Qed.

(** ** Promotion *)

Section promotion.
Context (P : PolicySet) (B : N) (Htyped : policies_typed P) (HB : B ≤ U64_MAX).
Implicit Types s : GovernedState.

Lemma terminalize_trace s e t s' e' :
  terminalize_wait_cycle P s e = Some (t, s', e') → Inv P B s → trace P s s'.
Proof.
  unfold terminalize_wait_cycle. intros H HI.
  destruct (find_map _ _) as [[[class index] w]|]; [|by simplify_eq].
  destruct (remove_pending class index s) as [[r s1]|] eqn:Hrm; [|by simplify_eq].
  apply bind_Some in H as (policy & Hpol & H). apply bind_Some in H as (held & _ & H). simplify_eq.
  pose proof (dequeued_waits _ _ _ _ _ _ _ Hrm HI) as Hcu.
  assert (open_entry s1 (pr_ticket r)) as Hl.
  { unfold open_entry. rewrite (remove_pending_tickets _ _ _ _ _ Hrm). revert Hcu. unfold custody.
    destruct (gs_tickets s !! pr_ticket r) as [[]|]; try done; by eexists. }
  pose proof (dequeued_unqueued _ _ _ _ _ _ _ Hrm HI) as Hu.
  eapply trace_then; [|apply t_terminal; [done..|]].
  2: { intros k q Hq. apply (Hu k q).
       rewrite <-(books_waiting _ _ (on_unserved_removed_books class policy s1) k k eq_refl). exact Hq. }
  eapply trace_then; [|apply t_guard].
  transitivity s1; [by eapply trace_one, t_dequeue|].
  apply retagged_trace, on_unserved_removed_retagged. by eexists.
Qed.

(** The grant of a dequeued request that fitted before it was dequeued. *)
Lemma promotion_grantable class i s r s1 s2 now policy :
  remove_pending class i s = Some (r, s1) → same_books s2 s1 → Inv P B s →
  ps_class P class = Some policy → fits P s class policy (pr_cost r) (pr_capabilities r) →
  let s3 := upd_gs_tickets (delete (pr_ticket r)) s2 in
  grantable P (promotion_grant class r now s3) s3.
Proof.
  intros Hrm H21 HI Hpol Hfits. cbn zeta.
  pose proof (remove_pending_holdings _ _ _ _ _ Hrm) as Hh.
  pose proof (remove_pending_waiting _ _ _ _ _ Hrm) as [Hi _].
  pose proof (inv_custody _ _ _ HI) as HC.
  pose proof (custody_request _ _ HC _ _ (list_elem_of_lookup_2 _ _ _ Hi)) as Hreq.
  split; cbn.
  - exists policy. split; [done|]. split.
    + destruct (request_policy _ _ _ Hreq) as (policy' & Hpol' & Eco). cbn in Eco. by simplify_eq.
    + eapply (fits_gauge P s); [| |done].
      * intros g. rewrite <-(same_holdings_gauge s s1) by done.
        transitivity (gauge_read s2 g); [|by rewrite H21]. by apply same_charges_gauge.
      * cbn. by rewrite H21, (remove_pending_fault _ _ _ _ _ Hrm).
  - rewrite H21, (sh_permits _ _ Hh).
    apply (custody_fresh _ _ HC _ _ (list_elem_of_lookup_2 _ _ _ Hi)).
  - apply Hreq.
Qed.

(** The predecessor test reads only what [same_books] keeps. *)
Lemma predecessor_books s s1 class r r' :
  same_books s1 s → untag r = untag r' →
  ClassState.has_queued_predecessor (class_state s1 class) r' =
  ClassState.has_queued_predecessor (class_state s class) r.
Proof.
  intros H E.
  assert (∀ c x, ClassState.has_queued_predecessor (class_books c) (untag x) =
                 ClassState.has_queued_predecessor c x) as Hb by done.
  rewrite <-Hb, <-(Hb (class_state s class)), <-E. destruct H as [_ H]. by rewrite H.
Qed.

Lemma promote_one_trace now s e granted s' e' :
  promote_one P now s e = Some (granted, s', e') → Inv P B s → trace P s s'.
Proof.
  unfold promote_one. intros H HI. apply bind_Some in H as ([sel s1] & Hsel & H).
  pose proof (select_books _ _ _ _ Hsel) as H1.
  pose proof (retagged_trace P _ _ (select_retagged _ _ _ _ Hsel)) as Ht1.
  destruct sel as [sel|]; [|by simplify_eq].
  destruct (remove_pending _ _ s1) as [[head s2]|] eqn:Hrm; [|by simplify_eq].
  apply bind_Some in H as (policy & Hpol & H). simplify_eq.
  destruct (select_fits s P sel s1) as (c & policy' & r & Hc & Hpol' & Hr & Hpred & Hfits); [|done|].
  { intros class r Hr. by apply (custody_request _ _ (inv_custody _ _ _ HI)) in Hr as []. }
  simplify_eq. rewrite <-H1 in HI, Hfits.
  pose proof (remove_pending_waiting _ _ _ _ _ Hrm) as [Hi _].
  pose proof Hi as Hi'. rewrite H1 in Hi'. unfold waiting in Hi'.
  rewrite (class_state_Some _ _ _ Hc) in Hi'.
  apply list_lookup_fmap_Some in Hi' as (r' & Er & Hi'). assert (r' = r) as -> by congruence.
  assert (pr_cost r = pr_cost head ∧ pr_capabilities r = pr_capabilities head) as [Eco Eca].
  { split; [by apply (f_equal pr_cost) in Er|by apply (f_equal pr_capabilities) in Er]. }
  rewrite Eco, Eca in Hfits.
  assert (retagged P s2 (on_request_served (sel_class sel) policy (sel_queue_index sel)
    (sel_service_finish_tag sel) s2)) as H3 by (apply on_request_served_retagged; by eexists).
  transitivity s1; [done|]. eapply trace_one, t_promote; [done|exact H3| | | |].
  - rewrite (predecessor_books s s1 _ r head); [|done..].
    by rewrite (class_state_Some _ _ _ Hc).
  - by eapply promotion_grantable; [|apply H3| | |].
  - apply HI.
  - eapply waits_not_terminal, dequeued_waits; [exact Hrm|exact HI].
Qed.

Lemma promote_loop_trace slots now changed s e changed' budget s' e' :
  promote_loop slots P now changed s e = Some (changed', budget, s', e') →
  room (N.of_nat slots) s → Inv P B s → trace P s s'.
Proof.
  revert changed s e. induction slots as [|slots IH]; intros changed s e H Hroom HI; cbn in H.
  { by simplify_eq. }
  apply bind_Some in H as ([[granted s1] e1] & Hone & H).
  pose proof (promote_one_trace _ _ _ _ _ _ Hone HI) as Ht.
  eapply (promote_one_keeps P B) in Hone as [HI1 Hg1];
    [|done|done|by eapply room_mono; [|done]; lia|done].
  destruct granted; [|by simplify_eq].
  transitivity s1; [done|]. eapply IH; [done| |done].
  eapply grows_room; [done|]. by rewrite <-Nat2N.inj_add.
Qed.

Lemma promote_trace now s s' e :
  promote P now s = Some (s', e) → room (N.of_nat PROMOTION_BUDGET) s → Inv P B s →
  trace P s s'.
Proof.
  unfold promote. intros H Hroom HI.
  apply bind_Some in H as ([[r1 s1] e1] & H1 & H).
  apply bind_Some in H as ([[[c2 b2] s2] e2] & H2 & H).
  apply bind_Some in H as ([[r3 s3] e3] & H3 & H). simplify_eq.
  pose proof (terminalize_trace _ _ _ _ _ H1 HI) as T1.
  apply (terminalize_keeps P B HB) in H1 as [HI1 Hg1]; [|done].
  pose proof H2 as HI2. apply (promote_loop_keeps P B Htyped HB) in HI2 as [HI2 _]; [|by eapply grows_room|done].
  apply promote_loop_trace in H2; [|by eapply grows_room|done].
  transitivity s1; [done|]. transitivity s2; [done|]. transitivity s3.
  - destruct c2; [|by simplify_eq].
    apply bind_Some in H3 as ([[t s4] e4] & H3 & ?). simplify_eq. by eapply terminalize_trace.
  - by apply retagged_trace, retagged_same.
Qed.

Lemma absorb_promote_trace now s e s' e' :
  absorb_promote P now s e = Some (s', e') → room (N.of_nat PROMOTION_BUDGET) s → Inv P B s →
  trace P s s'.
Proof.
  unfold absorb_promote. intros H Hroom HI.
  apply bind_Some in H as ([s1 e1] & H & ?). simplify_eq. by eapply promote_trace.
Qed.

(** ** The fault drain *)

Lemma fault_queue_trace fuel class removed s e removed' s' e' :
  fault_queue fuel class removed s e = (removed', s', e') → Inv P B s → trace P s s'.
Proof.
  revert removed s e. induction fuel as [|fuel IH]; intros removed s e H HI; cbn in H.
  { by simplify_eq. }
  destruct (remove_pending class 0 s) as [[r s1]|] eqn:Hrm; [|by simplify_eq].
  pose proof (fault_queue_keeps P B HB 1 class removed s e) as Hone. cbn in Hone.
  rewrite Hrm in Hone. set (s2 := upd_gs_tickets _ _) in *.
  specialize (Hone _ _ _ eq_refl HI) as [HI2 _].
  pose proof (dequeued_waits _ _ _ _ _ _ _ Hrm HI) as Hl.
  pose proof (waits_not_terminal _ _ _ Hl) as Hw. apply custody_listed in Hl. unfold listed in Hl.
  rewrite <-(remove_pending_tickets _ _ _ _ _ Hrm) in Hw, Hl.
  transitivity s2; [|by eapply IH]. transitivity s1; [by eapply trace_one, t_dequeue|].
  unfold s2. destruct (is_child _); [|by apply trace_one, t_ticket].
  eapply trace_then; [apply trace_one, t_guard|by apply t_ticket].
Qed.

Lemma fault_class_trace class s e s' e' :
  fault_class P class s e = Some (s', e') → Inv P B s → trace P s s'.
Proof.
  unfold fault_class. intros H HI.
  destruct (fault_queue _ _ _ _ _) as [[removed s1] e1] eqn:E.
  apply fault_queue_trace in E; [|done]. destruct removed; [|by simplify_eq].
  apply bind_Some in H as (policy & Hpol & H). simplify_eq.
  transitivity s1; [done|]. apply retagged_trace, on_unserved_removed_retagged. by eexists.
Qed.

Lemma fault_classes_trace classes s e s' e' :
  fault_classes P classes s e = Some (s', e') → Inv P B s → trace P s s'.
Proof.
  revert s e. induction classes as [|class classes IH]; intros s e H HI; cbn in H.
  { by simplify_eq. }
  apply bind_Some in H as ([s1 e1] & H1 & H).
  pose proof (fault_class_trace _ _ _ _ _ H1 HI) as T1.
  apply (fault_class_keeps P B HB) in H1 as [HI1 _]; [|done]. transitivity s1; [done|]. by eapply IH.
Qed.

Lemma fault_all_trace s e s' e' :
  terminalize_queued_for_accounting_fault P s e = Some (s', e') → Inv P B s → trace P s s'.
Proof.
  unfold terminalize_queued_for_accounting_fault. intros H HI.
  apply bind_Some in H as ([s1 e1] & H & ?). simplify_eq.
  apply fault_classes_trace in H; [|done]. transitivity s1; [done|by apply retagged_trace, retagged_same].
Qed.
End promotion.

(** ** The permit lifecycle *)

Section lifecycle.
Context (P : PolicySet) (B : N) (Htyped : policies_typed P) (HB : B ≤ U64_MAX).
Context (s : GovernedState) (HI : Inv P B s) (Hroom : room (N.of_nat PROMOTION_BUDGET) s).

Lemma committed_trace sampled : trace P s (commit_time sampled s).2.
Proof. apply trace_one, t_clock. Qed.

(** A promotion pass after a move that kept the invariant and granted nothing. *)
Lemma then_promote_trace now s1 e s' e' :
  keeps P B 0 s s1 → trace P s s1 → absorb_promote P now s1 e = Some (s', e') → trace P s s'.
Proof.
  intros [H1 Hg1] Ht H. transitivity s1; [done|].
  eapply (absorb_promote_trace P B); [done|done|done| |done]. by eapply grows_room.
Qed.

Lemma alter_permit pid f s1 :
  upd_gs_permits (alter f pid) s1 =
    match gs_permits s1 !! pid with
    | Some r => upd_gs_permits (insert pid (f r)) s1
    | None => s1
    end.
Proof.
  unfold upd_gs_permits at 1. rewrite alter_alt.
  destruct (gs_permits s1 !! pid); [done|by destruct s1].
Qed.

Ltac start sampled :=
  pose proof (committed P B s HI sampled) as Hc;
  pose proof (committed_trace sampled) as Ht;
  destruct (commit_time sampled s) as [now s1] eqn:Ects; cbn [snd] in Hc, Ht.

Lemma same_permit_touch now r : same_permit r (touch now r).
Proof. by split. Qed.
Lemma same_permit_waker f r : same_permit r (upd_rec_claim_waker f r).
Proof. by split. Qed.
Lemma same_permit_pending f r : same_permit r (upd_rec_pending_ticket f r).
Proof. by split. Qed.
Lemma same_permit_trans r1 r2 r3 : same_permit r1 r2 → same_permit r2 r3 → same_permit r1 r3.
Proof. intros [] []. split; intros; congruence. Qed.

(** An answered ticket leaves its permit, whose record may be touched at once. *)
Lemma answered_trace pid t r f s1 :
  gs_permits s1 !! pid = Some r → may_answer G t → rec_pending_ticket r = Some t →
  (∀ r, same_permit r (f r) ∧ rec_pending_ticket (f r) = rec_pending_ticket r) →
  trace P s1 (upd_gs_permits (insert pid (f (upd_rec_pending_ticket (λ _, None) r))) s1).
Proof.
  intros Hr HG Ht Hf. pose proof (t_answer P _ pid t r Hr Ht HG) as H1.
  set (r' := upd_rec_pending_ticket (λ _, None) r) in *.
  replace (upd_gs_permits (insert pid (f r')) s1)
    with (upd_gs_permits (insert pid (f r')) (upd_gs_permits (insert pid r') s1)).
  - eapply trace_then; [by apply trace_one|]. eapply t_record; [|apply Hf..].
    cbn. by rewrite lookup_insert_eq.
  - unfold upd_gs_permits. cbn. by rewrite insert_insert_eq.
Qed.

Lemma pending_bound s1 t pid r :
  Inv P B s1 → gs_tickets s1 !! t = Some (TClaiming pid) → gs_permits s1 !! pid = Some r →
  rec_pending_ticket r = Some t.
Proof.
  intros H1 Et Hr.
  assert (custody s1 t = Some (Holds pid)) as Ecu by (unfold custody; by rewrite Et).
  apply (custody_live _ _ (inv_custody _ _ _ H1)) in Ecu as (r' & ? & ?). by simplify_eq.
Qed.

Lemma claim_begin_trace sampled t out s' e' :
  may_claim G t → may_forget G t → claim_begin_section sampled t s = (out, s', e') → trace P s s'.
Proof.
  intros HG HF. unfold claim_begin_section. start sampled.
  destruct (gs_tickets s1 !! t) as [[class|pid|pid|reason|]|] eqn:Et;
    try (by intros [= <- <- <-]); try (intros [= <- <- <-]; eapply trace_then; [done|by apply t_forget]).
  destruct (gs_permits s1 !! pid) as [r|] eqn:Hr; intros [= <- <- <-]; [|done].
  eapply trace_then; [eapply trace_then; [done|]|].
  - eapply t_record; [done|eapply same_permit_trans; [apply same_permit_touch|apply same_permit_waker]|done].
  - apply t_ticket; [|split; [done|]]; cbn; [by rewrite Et|]. unfold open_entry. cbn. rewrite Et. by eexists.
Qed.

Lemma claim_finish_trace sampled t out s' :
  may_answer G t → may_forget G t → claim_finish_section sampled t s = (out, s') → trace P s s'.
Proof.
  intros HG HF.
  unfold claim_finish_section. start sampled.
  destruct (gs_tickets s1 !! t) as [[class|pid|pid|reason|]|] eqn:Et;
    try (by intros [= <- <-]); try (intros [= <- <-]; eapply trace_then; [done|by apply t_forget]).
  destruct (gs_permits s1 !! pid) as [r|] eqn:Hr; intros [= <- <-];
    [|eapply trace_then; [done|eapply settle_held; [apply Hc|by unfold custody; rewrite Et|done..]]].
  eapply trace_then; [transitivity s1; [done|]|].
  - eapply (answered_trace _ _ r (touch now)); [done..| |intros; split; [apply same_permit_touch|done]].
    eapply pending_bound; [apply Hc|exact Et|done].
  - apply t_drop; [|done]. cbn. by rewrite Et.
Qed.

Lemma claim_compensate_trace sampled t pid s' e' :
  may_answer G t →
  gs_tickets s !! t = Some (TClaiming pid) ∨ (∀ p, gs_tickets s !! t ≠ Some (TClaiming p)) →
  claim_compensate_section P sampled t pid s = Some (s', e') → trace P s s'.
Proof.
  intros HG Hpid. unfold claim_compensate_section. start sampled. intros H.
  assert (gs_tickets s1 = gs_tickets s) as Ets by (unfold commit_time in Ects; by simplify_eq).
  destruct (gs_tickets s1 !! t) as [[class|pid'|pid'|reason|]|] eqn:Et; try (by simplify_eq).
  assert (pid' = pid) as ->.
  { rewrite Ets in Et. destruct Hpid as [Hpid|Hpid]; [congruence|by destruct (Hpid pid')]. }
  destruct (release_with_proof_reason _ _ _ _ _) as [[o s2] e2] eqn:Er.
  pose proof (release_keeps P B HB s _ _ _ _ _ _ _ _ Hc Er) as H2.
  assert (trace P s1 s2) as Ht2 by (eapply (release_trace P B); [|exact Er|apply Hc]; by intros [? [=]]).
  destruct o as [| |phase].
  - eapply then_promote_trace; [done| |done]. by transitivity s1.
  - by apply (held_release P B t) in Er; [|apply Hc|unfold custody; rewrite Et].
  - assert (s2 = s1) as -> by by eapply held_unchanged.
    simplify_eq. eapply trace_then; [|eapply (settle_held P s1); [apply Hc|by unfold custody; rewrite Et|done..]].
    transitivity s1; [done|].
    rewrite alter_permit. destruct (gs_permits s1 !! pid) as [r|] eqn:Hr; [|done].
    apply (answered_trace pid t r (λ r, r)); [done..|eapply pending_bound; [apply Hc|done..]|by split].
Qed.

Lemma abandon_held_trace now t pid s1 out s' e' :
  may_forget G t →
  keeps P B 0 s s1 → trace P s s1 → custody s1 t = Some (Holds pid) →
  match release_with_proof_reason pid None Abandoned s1 no_effects with
  | (ReleaseDone, s, e) =>
    '(s, e) ← absorb_promote P now (forget_terminal_ticket t s) e; Some (AbandonDone, s, e)
  | (ReleaseHeldByLease phase, s, e) => Some (AbandonHeldByLease phase, s, e)
  | (ReleaseUnknownPermit, s, e) => Some (AbandonInvalid, upd_gs_tickets (delete t) s, e)
  end = Some (out, s', e') → trace P s s'.
Proof.
  intros HF Hk Ht Ecu H. destruct (release_with_proof_reason _ _ _ _ _) as [[o s2] e2] eqn:Er.
  pose proof (release_keeps P B HB s _ _ _ _ _ _ _ _ Hk Er) as H2.
  assert (trace P s1 s2) as Ht2 by (eapply (release_trace P B); [|exact Er|apply Hk]; by intros [? [=]]). destruct o as [| |phase].
  - apply bind_Some in H as ([s3 e3] & H3 & H). simplify_eq.
    eapply then_promote_trace; [| |done].
    + eapply (then_settled P B s);
        [done|apply forget_terminal_charges|apply forget_terminal_custody|
         apply forget_terminal_no_new].
    + eapply trace_then; [by transitivity s1|by apply t_forget].
  - by apply (held_release P B t) in Er; [|apply Hk|].
  - simplify_eq. by transitivity s1.
Qed.

Lemma abandon_queued_trace now class t s1 out s' e' :
  may_forget G t →
  keeps P B 0 s s1 → trace P s s1 → custody s1 t = Some (Waits class) →
  abandon_queued P now class t s1 = Some (out, s', e') → trace P s s'.
Proof.
  intros HF Hk Ht Ecu H.
  apply (abandon_queued_cases P B) in H as (i & r & s2 & e & policy & Hpol & Hrm & <- & _ & H);
    [|apply Hk|done].
  assert (trace P s1 (abandoned r s2)) as Ht5.
  { transitivity (upd_gs_tickets (delete (pr_ticket r)) s2).
    - eapply trace_then; [by eapply trace_one, t_dequeue|]. apply t_drop; [|done].
      rewrite (remove_pending_tickets _ _ _ _ _ Hrm). by eapply waits_not_terminal.
    - unfold abandoned. destruct (is_child _); [apply trace_one, t_guard|done]. }
  eapply then_promote_trace; [| |exact H].
  - by eapply (abandoned_keeps P B HB s).
  - transitivity s1; [done|]. transitivity (abandoned r s2); [done|].
    apply retagged_trace, on_unserved_removed_retagged. by eexists.
Qed.

Lemma abandon_trace sampled t out s' e' :
  may_forget G t → abandon_section P sampled t s = Some (out, s', e') → trace P s s'.
Proof.
  intros HF.
  unfold abandon_section. start sampled. intros H.
  destruct (gs_tickets s1 !! t) as [[class|pid|pid|reason|]|] eqn:Et; try (by simplify_eq).
  - eapply abandon_queued_trace; [done|done|done| |done]. unfold custody. by rewrite Et.
  - eapply abandon_held_trace; [done|done|done| |done]. unfold custody. by rewrite Et.
  - eapply abandon_held_trace; [done|done|done| |done]. unfold custody. by rewrite Et.
  - simplify_eq. eapply trace_then; [done|by apply t_forget].
  - simplify_eq. eapply trace_then; [done|by apply t_forget].
Qed.

Lemma release_section_trace sampled pid proof out s' e' :
  (is_Some proof → may_spend G pid) →
  release_section P sampled pid proof s = Some (out, s', e') → trace P s s'.
Proof.
  intros HG.
  unfold release_section. start sampled. intros H.
  destruct (release_with_proof _ _ _ _) as [[o s2] e2] eqn:Er.
  pose proof (release_keeps P B HB s _ _ _ _ _ _ _ _ Hc Er) as H2.
  assert (trace P s1 s2) as Ht2 by (by eapply (release_trace P B); [|exact Er|apply Hc]).
  destruct o; simplify_eq; try (by transitivity s1).
  apply bind_Some in H as ([s3 e3] & H3 & ?). simplify_eq.
  eapply then_promote_trace; [done| |done]. by transitivity s1.
Qed.

Lemma admit_compensate_trace sampled pid s' e' :
  admit_compensate_section P sampled pid s = Some (s', e') → trace P s s'.
Proof.
  unfold admit_compensate_section. start sampled. intros H.
  destruct (release_with_proof _ _ _ _) as [[o s2] e2] eqn:Er.
  pose proof (release_keeps P B HB s _ _ _ _ _ _ _ _ Hc Er) as H2.
  assert (trace P s1 s2) as Ht2 by (eapply (release_trace P B); [|exact Er|apply Hc]; by intros [? [=]]).
  destruct o; simplify_eq; try (by transitivity s1).
  eapply then_promote_trace; [done| |done]. by transitivity s1.
Qed.

Lemma reconcile_section_trace sampled pid bytes epoch out s' e' :
  may_measure G → reconcile_section P sampled pid bytes epoch s = Some (out, s', e') → trace P s s'.
Proof.
  intros HM.
  unfold reconcile_section. start sampled. intros H.
  pose proof (room_committed P B HB s Hroom s1 Hc) as Hroom1.
  destruct (gs_permits s1 !! pid) as [r|]; [|by simplify_eq].
  destruct (ps_class P (rec_class r)) as [policy|]; [|by simplify_eq].
  destruct (match epoch with Some _ => _ | None => _ end) as [o|sequence]; [by simplify_eq|].
  destruct (reconcile _ _ _ _ _ _ _) as [o s2] eqn:Er.
  assert (tstep P s1 s2) as Ht2 by (by eapply t_reconcile).
  destruct Hc as [H1 Hg1]. apply (inv_reconcile P B) in Er as [H2 Hg2]; [|done..].
  assert (keeps P B 0 s s2) as Hk2 by (split; [done|]; by apply (grows_trans 0 0 s s1)).
  destruct o; simplify_eq; try (by eapply trace_then).
  - apply bind_Some in H as ([s3 e3] & H3 & ?). simplify_eq.
    eapply then_promote_trace; [done| |done]. by eapply trace_then.
  - apply bind_Some in H as ([s3 e3] & H3 & ?). simplify_eq.
    transitivity s2; [by eapply trace_then|]. by eapply (fault_all_trace P B HB).
Qed.

Lemma stage_release_trace sampled pid freed sequence out s' e' :
  may_measure G → stage_release_section P sampled pid freed sequence s = Some (out, s', e') →
  trace P s s'.
Proof.
  intros HM.
  unfold stage_release_section. start sampled. intros H.
  pose proof (room_committed P B HB s Hroom s1 Hc) as Hroom1.
  destruct (gs_permits s1 !! pid) as [r|]; [|by simplify_eq].
  destruct (ps_class P (rec_class r)) as [policy|]; [|by simplify_eq].
  destruct (release_stage_memory _ _ _ _ _ _) as [o s2] eqn:Er.
  assert (tstep P s1 s2) as Ht2 by (by eapply t_stage).
  destruct Hc as [H1 Hg1]. apply (inv_release_stage P B) in Er as [H2 Hg2]; [|done..].
  apply bind_Some in H as ([s3 e3] & H3 & ?). simplify_eq.
  eapply then_promote_trace; [| |done]; [|by eapply trace_then].
  split; [done|]. by apply (grows_trans 0 0 s s1).
Qed.

Lemma reap_section_trace sampled stale report s' e' :
  reap_section P sampled stale s = Some (report, s', e') → trace P s s'.
Proof.
  unfold reap_section. start sampled. intros H.
  destruct (reap_leaks _ _ _ _ _) as [[rep s2] e2] eqn:Er.
  apply bind_Some in H as ([s3 e3] & H3 & ?). simplify_eq.
  unfold reap_leaks in Er. destruct (reap_permits _ _ _ _) as [[n s4] e4] eqn:Ep. simplify_eq.
  assert (trace P s1 s2) as Ht2.
  { eapply (reap_permits_trace P B); [done| |exact Ep|apply Hc]. intros pid r Hin Hr. apply list_elem_of_fmap in Hin as (r0 & -> & Hr0).
    apply list_elem_of_In, List.filter_In in Hr0 as [Hr0 Hres%bool_decide_eq_true].
    apply List.filter_In in Hr0 as [Hr0%list_elem_of_In _].
    apply list_elem_of_fmap in Hr0 as ([pid0 r1] & -> & Hr1%elem_of_btree_to_list). cbn in *.
    pose proof (books_permits_ok _ _ (inv_books _ _ _ (proj1 Hc))) as Hok.
    rewrite (permit_ok_id _ _ (Hok _ _ Hr1)), Hr1 in Hr. injection Hr as <-.
    apply eq_None_not_Some. intros [n' Hn]. by apply (permit_ok_lease _ _ (Hok _ _ Hr1)); [by eexists|]. }
  apply (reap_permits_keeps P B HB s) in Ep; [|done].
  eapply then_promote_trace; [done| |done]. by transitivity s1.
Qed.

Lemma continue_section_trace sampled s' e' :
  continue_section P sampled s = Some (s', e') → trace P s s'.
Proof.
  unfold continue_section. start sampled. intros H. destruct Hc as [H1 Hg1].
  transitivity s1; [done|]. eapply (promote_trace P B); [done|done|done| |done].
  by eapply grows_room.
Qed.
End lifecycle.

End traces.

(** ** Admission *)

(** A request joins the queue of its class: room in the queue, a blocker that
    makes it wait, identities nothing else carries. *)
Record arrival (P : PolicySet) (ids : Ids) (r : PendingRequest) (s : GovernedState) : Prop := {
  ar_policy : ∃ policy, ps_class P (pr_class r) = Some policy ∧
    pr_cost r = resolve_cost policy ∧ queued s (pr_class r) < max_queue_depth policy;
  ar_permit : pr_permit_id r = id_permit ids;
  ar_ticket : pr_ticket r = id_ticket ids;
  ar_seq_no : pr_seq_no r = id_seq_no ids;
  ar_nodup : NoDup (pr_capabilities r);
  ar_blocked : pr_blocked_on r ≠ BlockOk;
  ar_identity : has_operation_identity s (pr_root_operation_id r) (pr_operation r) = false;
}.

(** Admission: a refusal, one grant, or one arrival. *)
Inductive arrives_of (G : Grip) (P : PolicySet) (ids : Ids) (s s' : GovernedState) : Prop :=
  | arrives_refused : trace_of G P s s' → arrives_of G P ids s s'
  | arrives_granted g :
      gs_admission_closed s = false → grantable P g s → gr_permit_id g = id_permit ids → gr_pending_ticket g = None →
      has_operation_identity s (gr_root_operation_id g) (gr_operation g) = false →
      s' = grant g s → arrives_of G P ids s s'
  | arrives_queued s1 r s2 :
      gs_admission_closed s = false → retagged P s s1 → arrival P ids r s1 → enqueue r s1 = Some s2 → trace_of G P s2 s' →
      arrives_of G P ids s s'.

Arguments arrives_refused {_}.
Arguments arrives_granted {_}.
Arguments arrives_queued {_}.

Section admission.
Context {G : Grip} (P : PolicySet) (s : GovernedState) (ids : Ids) (Hids : ids_fresh s ids).
Context (now : N) (req : AdmissionRequest) (Hcaps : NoDup (ar_capabilities req)).

Local Abbreviation arrives := (arrives_of G).
Local Abbreviation trace := (trace_of G).
Local Abbreviation gate_open := (gs_admission_closed s = false).
Local Abbreviation not_reentrant :=
  (has_operation_identity s (ts_root_operation_id (ar_spec req))
     (ts_operation (ar_spec req)) = false).

(** The class a request enters: its own, or the one its class degrades to. *)
Definition enters (class : TaskClass) : Prop :=
  class = ts_class (ar_spec req) ∨
  ∃ policy, ps_class P (ts_class (ar_spec req)) = Some policy ∧
    memory_overcommit_policy policy = DegradeToLight class.

(** Why a request is refused, and in which state: nothing moves, unless a charge
    cannot be represented. *)
Inductive refused : AdmissionVerdict → GovernedState → Prop :=
  | refused_closed : gs_admission_closed s = true → refused RuntimeUnavailable s
  | refused_fault what :
      gate_open →
      is_Some (gs_accounting_fault s) ∨
        (∃ id, id ∈ ar_capabilities req ∧ capability_record P id = None) →
      refused RuntimeUnavailable (record_accounting_fault what s)
  | refused_cycle class mx cost behind cycle held :
      gate_open →
      assess s P (ar_spec req) class mx cost (ar_capabilities req) behind =
        IrreversibleWaitCycle cycle →
      held ∈ cw_held cycle → refused (NestedWaitCycle held) s
  | refused_other v :
      gate_open → v ≠ RuntimeUnavailable → (∀ held, v ≠ NestedWaitCycle held) → refused v s.

(** The answer of an admission, with what it did: a refusal grants and queues
    nothing, an admission grants the issued permit, and a queued request carries the
    issued identities. *)
Inductive answered : AdmissionDecision → GovernedState → Prop :=
  | answered_rejected v s' : refused v s' → answered (Rejected v) s'
  | answered_admitted g :
      gate_open → grantable P g s → gr_permit_id g = id_permit ids → gr_pending_ticket g = None →
      has_operation_identity s (gr_root_operation_id g) (gr_operation g) = false →
      gr_capabilities g = ar_capabilities req →
      grant_who g = spec_who (ar_spec req) → enters (gr_class g) →
      answered (AdmittedPermit (id_permit ids)) (grant g s)
  | answered_queued s1 r s2 s' :
      gate_open → retagged P s s1 → arrival P ids r s1 → pr_capabilities r = ar_capabilities req →
      enqueue r s1 = Some s2 → trace P s2 s' →
      request_who r = spec_who (ar_spec req) →
      gs_tickets s' !! id_ticket ids = Some (TQueued (pr_class r)) →
      answered (Queued (id_ticket ids)) s'.

Lemma refused_state v s' : refused v s' → s' = s ∨ ∃ what, s' = record_accounting_fault what s.
Proof. intros []; eauto. Qed.

(** A refusal that is no matter of availability or of a cycle. *)
Definition plain (v : AdmissionVerdict) : Prop :=
  v ≠ RuntimeUnavailable ∧ ∀ held, v ≠ NestedWaitCycle held.

Lemma refuse_answered v w e d s' e' :
  refused v s → refuse v w s e = Some (d, s', e') → answered d s'.
Proof. intros Hv [= <- <- <-]. by apply answered_rejected. Qed.

Lemma plain_answered v w e d s' e' :
  gate_open → plain v → refuse v w s e = Some (d, s', e') → answered d s'.
Proof. intros Hopen [H1 H2]. by apply refuse_answered, refused_other. Qed.

Lemma unknown_capability caps :
  (blocked_capabilities s P caps).2 = true → ∃ id, id ∈ caps ∧ capability_record P id = None.
Proof.
  induction caps as [|id caps IH]; cbn; [done|].
  destruct (blocked_capabilities s P caps) as [blocked fault].
  destruct (capability_record P id) as [cr|] eqn:E.
  - intros H. destruct IH as (id' & Hid & Hn); [by destruct (_ && _)|].
    exists id'. split; [by right|done].
  - intros _. exists id. split; [by left|done].
Qed.

Lemma primary_fault b : primary b = BlockAccountingFault → bl_accounting_fault b = true.
Proof. unfold primary. by repeat case_match. Qed.

(** A block on the accounting is one of the engine's fault, or of an unknown pool. *)
Lemma fault_block root sc parent class mx cost behind b :
  assess_scope s P root sc parent class mx cost (ar_capabilities req) behind = ReversiblyBlocked b →
  primary b = BlockAccountingFault →
  is_Some (gs_accounting_fault s) ∨
    (∃ id, id ∈ ar_capabilities req ∧ capability_record P id = None).
Proof.
  unfold assess_scope. destruct (bl_is_empty _); [done|].
  destruct (cycle_witness _ _ _ _ _ _ _); [done|]. intros [= <-] E%primary_fault.
  revert E. unfold with_queued_behind, blockers_for. cbn.
  pose proof (unknown_capability (ar_capabilities req)) as Hu.
  destruct (blocked_capabilities s P (ar_capabilities req)) as [blocked unknown]. cbn in *.
  intros [H%bool_decide_eq_true| ->]%orb_true_iff; [by left|right; by apply Hu].
Qed.

Lemma queued_books s1 s2 class : same_books s1 s2 → queued s1 class = queued s2 class.
Proof.
  intros H. assert (∀ s, queued s class = ClassState.queued (class_state s class)) as Eq.
  { intros s0. unfold queued, class_state. by destruct (gs_classes s0 !! class). }
  rewrite !Eq. apply (books_class ClassState.queued); [|done].
  intros c. unfold ClassState.queued. cbn. by rewrite length_map.
Qed.

Lemma identity_books s1 s2 root op :
  same_books s1 s2 → has_operation_identity s1 root op = has_operation_identity s2 root op.
Proof.
  intros H. unfold has_operation_identity, permits_for_operation.
  by rewrite (books_operations _ _ H), (books_queued_operations _ _ H).
Qed.

Lemma enqueue_answered class policy w block e d s' e' :
  ps_class P class = Some policy → block ≠ BlockOk → gate_open → not_reentrant →
  enqueue_or_full policy class req w ids now block s e = Some (d, s', e') → answered d s'.
Proof.
  intros Hpol Hblock Hopen Hid. unfold enqueue_or_full.
  case_decide as Hd; [apply plain_answered; [done|by destruct block]|].
  pose proof (enqueue_tags_retagged P s class policy (rc_cpu_units (resolve_cost policy)) now
    ltac:(by eexists)) as H0.
  destruct (enqueue_tags _ _ _ _ _) as [tags s0] eqn:E0. cbn [snd] in H0.
  intros Henq. apply bind_Some in Henq as (s1 & He & ?). simplify_eq.
  eapply answered_queued; [done|exact H0| | |exact He| | |].
  - unfold pending_of. destruct tags as [[]]. split; cbn; try done.
    + exists policy. rewrite (queued_books s0 s) by apply H0. split_and!; [done..|lia].
    + rewrite <-Hid. by apply identity_books, H0.
  - unfold pending_of. by destruct tags as [[]].
  - assert (gs_tickets s1 !! id_ticket ids = None) as Et.
    { pose proof (enqueue_cases _ _ _ He) as (_ & _ & -> & _).
      destruct H0 as [H0 _]. rewrite H0. apply Hids. }
    assert (trace P s1 (upd_gs_tickets (insert (id_ticket ids) (TQueued class)) s1)) as Ht.
    { apply trace_one, t_ticket; [by rewrite Et|].
      assert (∀ tags, pr_class (pending_of class req w ids now block (resolve_cost policy)
        (parent_permit_for_scope s (ts_root_operation_id (ar_spec req)) (ts_scope (ar_spec req))) tags) = class)
        as Ec by (by intros [[]]).
      eexists. rewrite (enqueue_waiting _ _ _ He). unfold upd_queue_of. rewrite Ec, decide_True by done.
      split; [apply elem_of_app; right; by apply list_elem_of_singleton|].
      unfold pending_of. by destruct tags as [[]]. }
    destruct (is_child _); [|done]. eapply trace_then; [done|apply t_guard].
  - unfold pending_of. by destruct tags as [[]].
  - unfold pending_of. destruct tags as [[]], (is_child _); cbn; by rewrite lookup_insert_eq.
Qed.

Lemma admit_block_answered class policy w degrade block e d s' e' :
  ps_class P class = Some policy → gate_open → not_reentrant → enters class →
  (block = BlockOk → fits P s class policy (resolve_cost policy) (ar_capabilities req)) →
  (block = BlockAccountingFault → is_Some (gs_accounting_fault s) ∨
     ∃ id, id ∈ ar_capabilities req ∧ capability_record P id = None) →
  (∀ retry_on fallback, degrade = Some retry_on →
     memory_overcommit_policy policy = DegradeToLight fallback →
     retry_on fallback = Some (d, s', e') → answered d s') →
  admit_block policy now req class w ids degrade block s e = Some (d, s', e') →
  answered d s'.
Proof.
  intros Hpol Hopen Hid Hent Hok Hfault Hdeg. unfold admit_block.
  destruct block; try (by eapply enqueue_answered);
    try (by destruct (is_queueable _); [eapply enqueue_answered|apply plain_answered]).
  - intros [= <- <- <-]. eapply (answered_admitted (direct_grant class policy req ids now s));
      [done| |done..]. split; [|apply Hids|done].
    exists policy. auto.
  - destruct (memory_overcommit_policy policy) as [| |fallback], degrade as [retry_on|];
      try (by apply plain_answered); try (by eapply enqueue_answered); eauto.
  - intros [= <- <- <-]. apply answered_rejected, refused_fault; [done|by apply Hfault].
Qed.

Lemma admit_class_answered hops class w e d s' e' :
  gate_open → (hops ≤ 1)%nat → (if decide (hops = 0%nat) then enters class else class = ts_class (ar_spec req)) →
  admit_class hops P now req class w ids s e = Some (d, s', e') → answered d s'.
Proof.
  intros Hopen. revert class. induction hops as [|hops IH]; intros class Hh Hc.
  - cbn [admit_class]. rewrite decide_True in Hc by done.
    destruct (ps_class P class) as [policy|] eqn:Hpol; [|by apply plain_answered].
    destruct (is_disabled policy); [by apply plain_answered|].
    destruct (has_operation_identity _ _ _) eqn:Hid; [by apply plain_answered|].
    destruct (is_recursive _ _); [by apply plain_answered|].
    destruct (assess _ _ _ _ _ _ _ _) as [|b|w0] eqn:Ea.
    + apply admit_block_answered; [done..| |done|done]. by apply assess_scope_fits in Ea as [? _].
    + apply admit_block_answered; [done..| | |done]; [intros E; by apply assess_scope_blocked in Ea|].
      by eapply fault_block.
    + destruct (memory_overcommit_policy policy);
        intros (held & Hh0 & H)%bind_Some; (eapply refuse_answered; [|exact H]);
        (eapply refused_cycle; [done|exact Ea|by apply head_Some_elem_of]).
  - cbn [admit_class]. rewrite decide_False in Hc by done. subst class.
    destruct (ps_class P _) as [policy|] eqn:Hpol; [|by apply plain_answered].
    destruct (is_disabled policy); [by apply plain_answered|].
    destruct (has_operation_identity _ _ _) eqn:Hid; [by apply plain_answered|].
    destruct (is_recursive _ _); [by apply plain_answered|].
    assert (hops = 0%nat) as -> by lia.
    assert (enters (ts_class (ar_spec req))) as Hent by by left.
    assert (∀ fallback, memory_overcommit_policy policy = DegradeToLight fallback →
      admit_class 0 P now req fallback w ids s e = Some (d, s', e') → answered d s') as Hretry.
    { intros fallback Hf. apply IH; [lia|]. rewrite decide_True by done. right. eauto. }
    destruct (assess _ _ _ _ _ _ _ _) as [|b|w0] eqn:Ea.
    + apply admit_block_answered; [done..| |done|naive_solver]. by apply assess_scope_fits in Ea as [? _].
    + apply admit_block_answered; [done..| | |naive_solver]; [intros E; by apply assess_scope_blocked in Ea|].
      by eapply fault_block.
    + destruct (memory_overcommit_policy policy) eqn:Hm, (bool_decide (MemoryBudget ∈ cw_held w0));
        try (by apply Hretry);
        intros (held & Hh0 & H)%bind_Some; (eapply refuse_answered; [|exact H]);
        (eapply refused_cycle; [done|exact Ea|by apply head_Some_elem_of]).
Qed.

Lemma admit_request_answered w e d s' e' :
  admit_request P now req w ids s e = Some (d, s', e') → answered d s'.
Proof.
  unfold admit_request. destruct (gs_admission_closed s) eqn:E.
  - by apply refuse_answered, refused_closed.
  - intros H. eapply admit_class_answered; [done| |by rewrite decide_False|exact H]. done.
Qed.

Lemma answered_arrives d s' : may_measure G → answered d s' → arrives P ids s s'.
Proof.
  intros HM [v s2 H|g H1 H2 H3 H4 H5 _ _ _|s1 r s2 s3 H1 H2 H3 _ H4 H5 _ _].
  - apply arrives_refused. destruct (refused_state _ _ H) as [->|[what ->]]; [done|by apply trace_one, t_fault].
  - by eapply arrives_granted.
  - by eapply arrives_queued.
Qed.

Lemma admit_request_arrives w e d s' e' :
  may_measure G → admit_request P now req w ids s e = Some (d, s', e') → arrives P ids s s'.
Proof. intros HM H. by eapply answered_arrives, admit_request_answered. Qed.
End admission.


(** Runs whose sections may name anything. *)
Abbreviation tstep := (tstep_of any).
Abbreviation trace := (trace_of any).
Abbreviation arrives := (arrives_of any).

(** A smaller grip makes fewer steps. *)
Record grip_le (G G' : Grip) : Prop := {
  gl_lease pid : may_lease G pid → may_lease G' pid;
  gl_spend pid : may_spend G pid → may_spend G' pid;
  gl_claim t : may_claim G t → may_claim G' t;
  gl_answer t : may_answer G t → may_answer G' t;
  gl_forget t : may_forget G t → may_forget G' t;
  gl_measure : may_measure G → may_measure G';
  gl_close : may_close G → may_close G';
}.

Lemma any_greatest G : grip_le G any.
Proof. by split. Qed.

Section grips.
Context (P : PolicySet) (G G' : Grip) (HG : grip_le G G').

Lemma ticket_ok_grip s t st : ticket_ok G s t st → ticket_ok G' s t st.
Proof. destruct HG, st; naive_solver. Qed.

Lemma tstep_grip s s' : tstep_of G P s s' → tstep_of G' P s s'.
Proof.
  destruct HG as [L1 L2 L3 L4 L5 L6 L7].
  destruct 1 as [| | | | |t st Hn Hok|t Hn ?|t reason Hl|t ?|pid r Hr Hl| |pid t r Hr Ht ?
    |pid phase nonces out nonces' s' ? Ha|pid bytes sq mode scale now out s' ? Hs
    |pid freed policy sq now out s' ? Hs|what ?|?];
    [eauto using ticket_ok_grip with trace..|apply t_drop; auto|by apply t_terminal|apply t_forget; auto
     |eapply t_unwind; [done|naive_solver]|by eapply t_record|eapply t_answer; eauto
     |eapply t_advance; eauto|eapply t_reconcile; eauto|eapply t_stage; eauto|apply t_fault; auto
     |apply t_close; auto].
Qed.

Lemma trace_grip s s' : trace_of G P s s' → trace_of G' P s s'.
Proof. intros H. induction H; [done|]. eapply rtc_l; [by apply tstep_grip|done]. Qed.
End grips.

Lemma tstep_any G P s s' : tstep_of G P s s' → tstep P s s'.
Proof. apply tstep_grip, any_greatest. Qed.
Lemma trace_any G P s s' : trace_of G P s s' → trace P s s'.
Proof. apply trace_grip, any_greatest. Qed.
