(* ===== verification/System.v ===== *)
(** * The governor as a transition system

    A [World] is the governed state under its mutex together with what callers
    hold outside it: identities allocated before the lock is taken, claims between
    their two critical sections, and the lease counter.  A step is one critical
    section of one caller, so a run is any interleaving of public calls. *)

From S2P Require Import Prelude Contract Text Kernel Requirements State Assess Fairness Admission.
From S2P Require Import Memory Governor Books Custody Ledger Moves Reads Invariant Steps Selection.
From S2P Require Import Sections Lifecycle Trace.

Record World := mkWorld {
  w_state : GovernedState;
  w_counters : Counters;
  w_outstanding : list Ids;
  w_claims : list (Ticket * PermitId);
  w_nonces : N;
}.

Definition World_initial : World := mkWorld GovernedState_default Counters_initial [] [] 1.

Definition with_state (s : GovernedState) (w : World) : World :=
  mkWorld s (w_counters w) (w_outstanding w) (w_claims w) (w_nonces w).

(** The claims in flight after a first critical section. *)
Definition begun (t : Ticket) (out : ClaimBegin) (claims : list (Ticket * PermitId))
  : list (Ticket * PermitId) :=
  match out with ClaimProceeds pid => (t, pid) :: claims | ClaimReturns _ => claims end.

(** Which critical section a step is, and the identities it was called with. *)
Inductive Action :=
  | AIssue
  | AAdmit (ids : Ids)
  | AAdmitCompensate (pid : PermitId)
  | AClaimBegin (t : Ticket)
  | AClaimCompensate (t : Ticket)
  | AClaimFinish (t : Ticket)
  | AAbandon (t : Ticket)
  | ARelease (pid : PermitId) (proof : option N)
  | AAdvance (pid : PermitId)
  | AReconcile (pid : PermitId)
  | AStageRelease (pid : PermitId)
  | AReap
  | AContinue
  | AClose.

(** One step: its action, the effects it leaves to be applied after the lock, and
    the world after it. *)
Inductive lstep (P : PolicySet) (authority : N) (w : World)
  : Action → TransitionEffects → World → Prop :=
  | step_fresh ids k :
      fresh_ids authority (w_counters w) = (Some ids, k) →
      lstep P authority w AIssue no_effects (mkWorld (w_state w) k (ids :: w_outstanding w) (w_claims w) (w_nonces w))
  | step_exhausted k :
      fresh_ids authority (w_counters w) = (None, k) →
      lstep P authority w AIssue no_effects (mkWorld (w_state w) k (w_outstanding w) (w_claims w) (w_nonces w))
  | step_admit sampled req caps waker ids out d s e :
      w_outstanding w ≡ₚ ids :: out →
      from_resolved caps = inr (ar_capabilities req) →
      admit_section P sampled req waker ids (w_state w) = Some (d, s, e) →
      lstep P authority w (AAdmit ids) e (mkWorld s (w_counters w) out (w_claims w) (w_nonces w))
  | step_admit_compensate sampled pid s e :
      admit_compensate_section P sampled pid (w_state w) = Some (s, e) →
      lstep P authority w (AAdmitCompensate pid) e (with_state s w)
  | step_claim_begin sampled t out s e :
      claim_begin_section sampled t (w_state w) = (out, s, e) →
      lstep P authority w (AClaimBegin t) e
        (mkWorld s (w_counters w) (w_outstanding w) (begun t out (w_claims w)) (w_nonces w))
  | step_claim_compensate sampled t pid s e :
      (t, pid) ∈ w_claims w →
      claim_compensate_section P sampled t pid (w_state w) = Some (s, e) →
      lstep P authority w (AClaimCompensate t) e (with_state s w)
  | step_claim_finish sampled t out s :
      claim_finish_section sampled t (w_state w) = (out, s) →
      lstep P authority w (AClaimFinish t) no_effects (with_state s w)
  | step_abandon sampled t out s e :
      abandon_section P sampled t (w_state w) = Some (out, s, e) →
      lstep P authority w (AAbandon t) e (with_state s w)
  | step_release sampled pid proof out s e :
      release_section P sampled pid proof (w_state w) = Some (out, s, e) →
      lstep P authority w (ARelease pid proof) e (with_state s w)
  | step_advance pid phase out nonces s :
      advance_phase pid phase (w_nonces w) (w_state w) = (out, nonces, s) →
      lstep P authority w (AAdvance pid) no_effects (mkWorld s (w_counters w) (w_outstanding w) (w_claims w) nonces)
  | step_reconcile sampled pid bytes epoch out s e :
      reconcile_section P sampled pid bytes epoch (w_state w) = Some (out, s, e) →
      lstep P authority w (AReconcile pid) e (with_state s w)
  | step_stage_release sampled pid freed sequence out s e :
      stage_release_section P sampled pid freed sequence (w_state w) = Some (out, s, e) →
      lstep P authority w (AStageRelease pid) e (with_state s w)
  | step_reap sampled stale report s e :
      reap_section P sampled stale (w_state w) = Some (report, s, e) →
      lstep P authority w AReap e (with_state s w)
  | step_continue sampled s e :
      continue_section P sampled (w_state w) = Some (s, e) →
      lstep P authority w AContinue e (with_state s w)
  | step_close :
      lstep P authority w AClose no_effects (with_state (close_admission (w_state w)) w).

Definition wstep (P : PolicySet) (authority : N) (w w' : World) : Prop :=
  ∃ a e, lstep P authority w a e w'.

Lemma lstep_wstep P authority w a e w' : lstep P authority w a e w' → wstep P authority w w'.
Proof. intros. by exists a, e. Qed.

(** The worlds a run reaches while fewer than 2^32 permits are live at once. *)
Inductive reachable (P : PolicySet) (authority : N) : World → Prop :=
  | reachable_initial : reachable P authority World_initial
  | reachable_step w w' :
      reachable P authority w → room (N.of_nat PROMOTION_BUDGET) (w_state w) →
      wstep P authority w w' → reachable P authority w'.


(** ** The invariant of worlds *)

Definition issued_below (k : Counters) (ids : Ids) : Prop :=
  permit_sequence (id_permit ids) < next_permit k ∧ ticket_sequence (id_ticket ids) < next_ticket k.

(** Identities in flight are fresh, and everything the state knows was issued. *)
Record world_ok (P : PolicySet) (w : World) : Prop := {
  world_inv : ∃ B, Inv P B (w_state w) ∧
    B + N.of_nat (length (w_outstanding w)) < next_permit (w_counters w) ∧
    next_permit (w_counters w) ≤ U64_MAX;
  world_known pid : known (w_state w) pid → permit_sequence pid < next_permit (w_counters w);
  world_tickets t :
    is_Some (gs_tickets (w_state w) !! t) → ticket_sequence t < next_ticket (w_counters w);
  world_fresh ids : ids ∈ w_outstanding w →
    ¬ known (w_state w) (id_permit ids) ∧ gs_tickets (w_state w) !! id_ticket ids = None ∧
    issued_below (w_counters w) ids;
  world_permits : NoDup (id_permit <$> w_outstanding w);
  world_ticket_ids : NoDup (id_ticket <$> w_outstanding w);
  world_claims t pid : (t, pid) ∈ w_claims w →
    (custody (w_state w) t = Some (Holds pid) ∨ custody (w_state w) t = None) ∧
    ticket_sequence t < next_ticket (w_counters w) ∧ t ∉ id_ticket <$> w_outstanding w;
}.

Lemma world_ok_initial P : world_ok P World_initial.
Proof.
  split; cbn.
  - exists 0. split; [apply Inv_initial|]. split; [done|]. by vm_compute.
  - intros pid [[r H]|(class & q & H & _)]; [by rewrite initial_permits in H|].
    by apply not_elem_of_nil in H.
  - intros t [st H]. by apply (lookup_empty_Some (M:=gmap Ticket)) in H.
  - intros ids H. by apply not_elem_of_nil in H.
  - constructor.
  - constructor.
  - intros t pid H. by apply not_elem_of_nil in H.
Qed.

(** Fresh identities are new to the state and to the ones in flight. *)
Lemma fresh_ids_cases authority k ids k' :
  fresh_ids authority k = (ids, k') →
  next_permit k ≤ next_permit k' ∧ next_ticket k ≤ next_ticket k' ∧
  (next_permit k ≤ U64_MAX → next_permit k' ≤ U64_MAX) ∧
  (∀ i, ids = Some i →
     next_permit k' = next_permit k + 1 ∧ next_ticket k' = next_ticket k + 1 ∧
     permit_sequence (id_permit i) = next_permit k ∧ ticket_sequence (id_ticket i) = next_ticket k).
Proof.
  unfold fresh_ids, take_sequence, checked_add.
  repeat (case_decide; cbn); intros [= <- <-]; cbn; split_and!; try lia; try done;
    intros i [= <-]; cbn; auto.
Qed.

Section world.
Context (P : PolicySet) (authority : N) (Htyped : policies_typed P).

(** A section that keeps the invariant and grows as Sections.v says. *)
Lemma world_section w s n nonces :
  world_ok P w → (∀ B, B ≤ U64_MAX → Inv P B (w_state w) → keeps P B n (w_state w) s) →
  world_ok P (mkWorld s (w_counters w) (w_outstanding w) (w_claims w) nonces).
Proof.
  intros [(B & HI & HB & Hmax) Hk Ht Hf Hp Hti Hc] Hs.
  destruct (Hs B) as [HI' [_ Gf Gt Gk]]; [lia|done|]. split; cbn; try done.
  - by exists B.
  - eauto.
  - intros t [st Hst]. apply Ht. destruct (gs_tickets (w_state w) !! t) eqn:E; [by eexists|].
    apply Gt in E. congruence.
  - intros ids Hids. destruct (Hf ids Hids) as (F1 & F2 & F3). split_and!; [|by apply Gt|done].
    intros Hkn. by apply F1, Gk.
  - intros t pid Htp. destruct (Hc t pid Htp) as (C1 & C2). split; [|done].
    specialize (Gf t). destruct C1 as [E|E]; rewrite E in Gf; inversion Gf; auto.
Qed.

Lemma world_admit w sampled req caps waker ids out d s e :
  world_ok P w → room (N.of_nat PROMOTION_BUDGET) (w_state w) →
  w_outstanding w ≡ₚ ids :: out → from_resolved caps = inr (ar_capabilities req) →
  admit_section P sampled req waker ids (w_state w) = Some (d, s, e) →
  world_ok P (mkWorld s (w_counters w) out (w_claims w) (w_nonces w)).
Proof.
  intros [(B & HI & HB & Hmax) Hk Ht Hf Hp Hti Hc] Hroom Hout Hcaps Ha.
  unfold admit_section in Ha. destruct (commit_time sampled (w_state w)) as [now s1] eqn:E1.
  assert (same_books s1 (w_state w)) as Hs1.
  { replace s1 with (now, s1).2 by done. rewrite <-E1. apply commit_time_books. }
  destruct (Hf ids) as (F1 & F2 & F3 & F4); [rewrite Hout; by left|].
  rewrite Hout in HB, Hp, Hti. cbn in HB, Hp, Hti.
  apply NoDup_cons in Hp as [Hp1 Hp]. apply NoDup_cons in Hti as [Hti1 Hti].
  rewrite <-Hs1 in HI, Hroom.
  destruct (admit_keeps P B Htyped s1 HI) with (ids := ids) (now := now) (req := req) (w := waker)
    (e := no_effects) (d := d) (s' := s) (e' := e) as [KI Ksz Kt Kk]; try done.
  { lia. }
  { eapply room_mono; [|done]. done. }
  { split; rewrite ?Hs1; [|done|].
    - apply eq_None_not_Some. intros H. apply F1. by left.
    - intros class q Hq E. rewrite Hs1 in Hq. apply F1. right. by exists class, q. }
  { by eapply from_resolved_NoDup. }
  assert (∀ pid, known s pid → known (w_state w) pid ∨ pid = id_permit ids) as Kk'.
  { intros pid H. apply Kk in H. by rewrite Hs1 in H. }
  assert (∀ t, t ≠ id_ticket ids → gs_tickets s !! t = gs_tickets (w_state w) !! t) as Kt'.
  { intros t H. by rewrite Kt, Hs1. }
  split; cbn; try done.
  - exists (B + 1). split; [done|]. lia.
  - intros pid [H| ->]%Kk'; [by apply Hk|done].
  - intros t H. destruct (decide (t = id_ticket ids)) as [->|Hne]; [done|].
    rewrite Kt' in H by done. by apply Ht.
  - intros i Hi. destruct (Hf i) as (G1 & G2 & G3); [rewrite Hout; by right|].
    split_and!; [|rewrite Kt'; [done|]|done].
    + intros [H|H]%Kk'; [done|]. apply Hp1. rewrite <-H. by apply list_elem_of_fmap_2.
    + intros E. apply Hti1. rewrite <-E. by apply list_elem_of_fmap_2.
  - intros t pid Htp. destruct (Hc t pid Htp) as (C1 & C2 & C3).
    rewrite Hout in C3. cbn in C3. apply not_elem_of_cons in C3 as [C3 C4].
    split; [|done]. unfold custody in *. by rewrite Kt' by done.
Qed.

Lemma world_fresh_ids w ids k :
  world_ok P w → fresh_ids authority (w_counters w) = (Some ids, k) →
  world_ok P (mkWorld (w_state w) k (ids :: w_outstanding w) (w_claims w) (w_nonces w)).
Proof.
  intros [(B & HI & HB & Hmax) Hk Ht Hf Hp Hti Hc] Hfr.
  destruct (fresh_ids_cases _ _ _ _ Hfr) as (Mp & Mt & Mx & Hi).
  destruct (Hi ids eq_refl) as (E1 & E2 & E3 & E4).
  split; cbn.
  - exists B. split; [done|]. split; [lia|by apply Mx].
  - intros pid H. apply Hk in H. lia.
  - intros t H. apply Ht in H. lia.
  - intros i [->|H]%elem_of_cons.
    + split_and!; [| |split; lia].
      * intros H. apply Hk in H. lia.
      * apply eq_None_not_Some. intros H. apply Ht in H. lia.
    + destruct (Hf i H) as (F1 & F2 & F3 & F4). split_and!; [done..|split; lia].
  - apply NoDup_cons. split; [|done]. intros (i & E & H)%list_elem_of_fmap.
    destruct (Hf i H) as (_ & _ & F3 & _). rewrite <-E in F3. lia.
  - apply NoDup_cons. split; [|done]. intros (i & E & H)%list_elem_of_fmap.
    destruct (Hf i H) as (_ & _ & _ & F4). rewrite <-E in F4. lia.
  - intros t pid H. destruct (Hc t pid H) as (C1 & C2 & C3). split_and!; [done|lia|].
    apply not_elem_of_cons. split; [|done]. intros ->. lia.
Qed.

Lemma world_exhausted w k :
  world_ok P w → fresh_ids authority (w_counters w) = (None, k) →
  world_ok P (mkWorld (w_state w) k (w_outstanding w) (w_claims w) (w_nonces w)).
Proof.
  intros [(B & HI & HB & Hmax) Hk Ht Hf Hp Hti Hc] Hfr.
  destruct (fresh_ids_cases _ _ _ _ Hfr) as (Mp & Mt & Mx & _).
  split; cbn; try done.
  - exists B. split; [done|]. split; [lia|by apply Mx].
  - intros pid H. apply Hk in H. lia.
  - intros t H. apply Ht in H. lia.
  - intros i H. destruct (Hf i H) as (F1 & F2 & F3 & F4). split_and!; [done..|split; lia].
  - intros t pid H. destruct (Hc t pid H) as (C1 & C2 & C3). split_and!; [done|lia|done].
Qed.

(** A claim that proceeds holds its ticket. *)
Lemma claim_proceeds sampled t pid s s' e :
  claim_begin_section sampled t s = (ClaimProceeds pid, s', e) →
  custody s' t = Some (Holds pid) ∧ is_Some (gs_tickets s !! t).
Proof.
  unfold claim_begin_section. destruct (commit_time sampled s) as [now s1] eqn:E1.
  assert (gs_tickets s1 = gs_tickets s) as Et
    by (unfold commit_time in E1; by simplify_eq).
  destruct (gs_tickets s1 !! t) as [[class|pid'|pid'|reason|]|] eqn:E; try done.
  destruct (gs_permits s1 !! pid') as [r|]; [|done]. intros [= <- <- <-].
  rewrite insert_ticket_custody, decide_True by done. rewrite <-Et, E. split; [done|by eexists].
Qed.

Lemma world_claim_begin w sampled t out s e :
  world_ok P w → claim_begin_section sampled t (w_state w) = (out, s, e) →
  world_ok P (mkWorld s (w_counters w) (w_outstanding w) (begun t out (w_claims w)) (w_nonces w)).
Proof.
  intros Hw Hb.
  assert (world_ok P (mkWorld s (w_counters w) (w_outstanding w) (w_claims w) (w_nonces w)))
    as Hw'.
  { apply (world_section w s 0); [done|]. intros B HB HI. by eapply claim_begin_keeps. }
  destruct out as [o|pid]; cbn; [done|].
  apply claim_proceeds in Hb as [Hcu Hkn]. pose proof Hw' as [H1 H2 H3 H4 H5 H6 H7].
  split; try done. cbn. intros t' pid' [[= -> ->]|H]%elem_of_cons; [|by apply H7].
  split_and!; [by left| |].
  - by apply (world_tickets _ _ Hw).
  - intros (i & -> & Hi)%list_elem_of_fmap. destruct (world_fresh _ _ Hw i Hi) as (_ & E & _).
    rewrite E in Hkn. by destruct Hkn.
Qed.

(** A claim in flight still holds the ticket it began with, or lost it for good. *)
Lemma world_claim_held w t pid :
  world_ok P w → (t, pid) ∈ w_claims w →
  gs_tickets (w_state w) !! t = Some (TClaiming pid) ∨
  (∀ p, gs_tickets (w_state w) !! t ≠ Some (TClaiming p)).
Proof.
  intros Hw Hin. destruct (world_claims _ _ Hw t pid Hin) as [C _]. unfold custody in C.
  destruct (gs_tickets (w_state w) !! t) as [[class|pid'|pid'|reason|]|]; try (by right);
    destruct C as [C|C]; cbn in C; try done.
  left. congruence.
Qed.

Lemma world_claim_compensate w sampled t pid s e :
  world_ok P w → room (N.of_nat PROMOTION_BUDGET) (w_state w) → (t, pid) ∈ w_claims w →
  claim_compensate_section P sampled t pid (w_state w) = Some (s, e) →
  world_ok P (with_state s w).
Proof.
  intros Hw Hroom Hin H. eapply world_section; [done|]. intros B HB HI.
  eapply claim_compensate_keeps; [done..|]. by apply world_claim_held.
Qed.

(** Every step keeps the world invariant. *)
Lemma world_step w w' :
  world_ok P w → room (N.of_nat PROMOTION_BUDGET) (w_state w) → wstep P authority w w' →
  world_ok P w'.
Proof.
  intros Hw Hroom (a & e & []).
  - by apply world_fresh_ids.
  - by apply world_exhausted.
  - by eapply world_admit.
  - eapply world_section; [done|]. intros. by eapply admit_compensate_keeps.
  - by eapply world_claim_begin.
  - by eapply world_claim_compensate.
  - eapply world_section; [done|]. intros. by eapply claim_finish_keeps.
  - eapply world_section; [done|]. intros. by eapply abandon_keeps.
  - eapply world_section; [done|]. intros. by eapply release_section_keeps.
  - eapply world_section; [done|]. intros B HB HI.
    eapply inv_advance; [done|eapply room_mono; [|done]; lia|done..].
  - eapply world_section; [done|]. intros. by eapply reconcile_section_keeps.
  - eapply world_section; [done|]. intros. by eapply stage_release_keeps.
  - eapply world_section; [done|]. intros. by eapply reap_section_keeps.
  - eapply world_section; [done|]. intros. by eapply continue_section_keeps.
  - eapply (world_section w _ 0); [done|]. intros B HB HI. apply keeps_settled; [by split|done|by intros t|done].
Qed.

Lemma reachable_ok w : reachable P authority w → world_ok P w.
Proof. induction 1; [apply world_ok_initial|by eapply world_step]. Qed.
End world.

(** ** What a step does to the state

    The steps sorted by their effect on the governed state: identities are issued,
    primitive transitions run, or one request is admitted.  Invariants of every run
    follow from one lemma per primitive transition of Trace.v. *)

Inductive effect_of (G : Grip) (P : PolicySet) (authority : N) (w w' : World) : Prop :=
  | effect_issue issued :
      w_state w' = w_state w → fresh_ids authority (w_counters w) = (issued, w_counters w') →
      w_outstanding w' = option_list issued ++ w_outstanding w → effect_of G P authority w w'
  | effect_trace :
      trace_of G P (w_state w) (w_state w') →
      grows PROMOTION_BUDGET (w_state w) (w_state w') → w_counters w' = w_counters w →
      w_outstanding w' = w_outstanding w → effect_of G P authority w w'
  | effect_admit ids sampled :
      w_outstanding w ≡ₚ ids :: w_outstanding w' → w_counters w' = w_counters w →
      ids_fresh (commit_time sampled (w_state w)).2 ids →
      arrives_of G P ids (commit_time sampled (w_state w)).2 (w_state w') →
      (∀ t, t ≠ id_ticket ids → gs_tickets (w_state w') !! t = gs_tickets (w_state w) !! t) →
      (∀ pid, known (w_state w') pid → known (w_state w) pid ∨ pid = id_permit ids) →
      effect_of G P authority w w'.

Arguments effect_issue {_}.
Arguments effect_trace {_}.
Arguments effect_admit {_}.

Abbreviation effect := (effect_of any).

(** What a step may lease and answer: what it was called with. *)
Definition grip (a : Action) : Grip :=
  mkGrip (λ pid, a = AAdvance pid) (λ pid, ∃ nonce, a = ARelease pid (Some nonce))
    (λ t, a = AClaimBegin t)
    (λ t, a = AClaimFinish t ∨ a = AClaimCompensate t)
    (λ t, a = AClaimBegin t ∨ a = AClaimFinish t ∨ a = AAbandon t)
    match a with AAdmit _ | AReconcile _ | AStageRelease _ => True | _ => False end
    (a = AClose).

Section effects.
Context (P : PolicySet) (authority : N) (Htyped : policies_typed P).

Lemma admit_effect G w sampled req caps waker ids out d s e :
  may_measure G →
  world_ok P w → room (N.of_nat PROMOTION_BUDGET) (w_state w) →
  w_outstanding w ≡ₚ ids :: out → from_resolved caps = inr (ar_capabilities req) →
  admit_section P sampled req waker ids (w_state w) = Some (d, s, e) →
  effect_of G P authority w (mkWorld s (w_counters w) out (w_claims w) (w_nonces w)).
Proof.
  intros HM [(B & HI & HB & Hmax) _ _ Hf _ _ _] Hroom Hout Hcaps Ha. unfold admit_section in Ha.
  destruct (Hf ids) as (F1 & F2 & _); [rewrite Hout; by left|].
  assert (ids_fresh (w_state w) ids) as Hids.
  { split; [|done|].
    - apply eq_None_not_Some. intros H. apply F1. by left.
    - intros class q Hq E. apply F1. right. by exists class, q. }
  pose proof (commit_time_books sampled (w_state w)) as Hs1.
  destruct (commit_time sampled (w_state w)) as [now s1] eqn:E1. cbn [snd] in Hs1.
  assert (ids_fresh s1 ids) as Hids1 by (by eapply ids_fresh_books).
  assert (NoDup (ar_capabilities req)) as Hnd by (by eapply from_resolved_NoDup).
  rewrite Hout in HB. cbn in HB. rewrite <-Hs1 in HI, Hroom.
  destruct (admit_keeps P B Htyped s1 HI) with (ids := ids) (now := now) (req := req) (w := waker)
    (e := no_effects) (d := d) (s' := s) (e' := e) as [_ _ Kt Kk]; try done; [lia| |].
  { eapply room_mono; [|done]. done. }
  eapply (effect_admit _ _ _ _ ids sampled); rewrite ?E1; [done..| | |].
  - by eapply admit_request_arrives.
  - intros t Ht. cbn. by rewrite Kt, Hs1.
  - intros pid H. apply Kk in H. by rewrite Hs1 in H.
Qed.

(** Every step from a good world has one of the effects. *)
Lemma lstep_effect w a e w' :
  world_ok P w → room (N.of_nat PROMOTION_BUDGET) (w_state w) → lstep P authority w a e w' →
  effect_of (grip a) P authority w w'.
Proof.
  intros Hw Hroom Hstep. pose proof (world_inv _ _ Hw) as (B & HI & HB & Hmax).
  assert (B ≤ U64_MAX) as HB' by lia.
  assert (∀ s nonces claims n, trace_of (grip a) P (w_state w) s → keeps P B n (w_state w) s →
    (n ≤ PROMOTION_BUDGET)%nat →
    effect_of (grip a) P authority w (mkWorld s (w_counters w) (w_outstanding w) claims nonces)) as Ht.
  { intros s nonces claims n Htr [_ Hg] Hn. apply effect_trace; [done| |done..].
    by eapply grows_mono. }
  assert (∀ s nonces claims n, keeps P B n (w_state w) s → trace_of (grip a) P (w_state w) s →
    (n ≤ PROMOTION_BUDGET)%nat →
    effect_of (grip a) P authority w (mkWorld s (w_counters w) (w_outstanding w) claims nonces)) as Ht' by eauto.
  destruct Hstep.
  - by apply (effect_issue _ _ _ _ (Some ids)).
  - by apply (effect_issue _ _ _ _ None).
  - by eapply admit_effect.
  - eapply Ht'; [by eapply admit_compensate_keeps|by eapply (admit_compensate_trace P B)|lia].
  - eapply Ht'; [by eapply claim_begin_keeps|eapply (claim_begin_trace P B); [done..|by left|done]|lia].
  - assert (gs_tickets (w_state w) !! t = Some (TClaiming pid) ∨
            (∀ p, gs_tickets (w_state w) !! t ≠ Some (TClaiming p))) as Hh
      by by eapply world_claim_held.
    eapply Ht'; [by eapply claim_compensate_keeps| |done].
    eapply (claim_compensate_trace P B); [done..|by right|exact Hh|done].
  - eapply Ht'; [by eapply claim_finish_keeps|eapply (claim_finish_trace P B); [done..|by left|by right; left|done]|lia].
  - eapply Ht'; [by eapply abandon_keeps|eapply (abandon_trace P B); [done..|by right; right|done]|lia].
  - eapply Ht'; [by eapply release_section_keeps|eapply (release_section_trace P B); [done..| |done];
      by intros [nonce ->]; exists nonce|lia].
  - eapply (Ht' _ _ _ 0%nat); [|by eapply trace_one, t_advance|lia].
    eapply inv_advance; [done|eapply room_mono; [|done]; lia|done..].
  - eapply Ht'; [by eapply reconcile_section_keeps|by eapply (reconcile_section_trace P B)|lia].
  - eapply Ht'; [by eapply stage_release_keeps|by eapply (stage_release_trace P B)|lia].
  - eapply Ht'; [by eapply reap_section_keeps|by eapply (reap_section_trace P B)|lia].
  - eapply Ht'; [by eapply continue_section_keeps|by eapply (continue_section_trace P B)|lia].
  - eapply (Ht' _ _ _ 0%nat); [|by apply trace_one, t_close|lia].
    apply keeps_settled; [by split|done|by intros t|done].
Qed.

Lemma tstep_any_arrives G ids s s' : arrives_of G P ids s s' → arrives P ids s s'.
Proof.
  intros [H|g|s1 r s2 Hopen H1 Har Hen H].
  - by eapply arrives_refused, trace_any.
  - by eapply arrives_granted.
  - eapply arrives_queued; [done..|]. by eapply trace_any.
Qed.

Lemma effect_any G w w' : effect_of G P authority w w' → effect P authority w w'.
Proof.
  intros [issued|Ht|ids sampled Eo Ek Hf Ha].
  - by eapply effect_issue.
  - apply effect_trace; [by eapply trace_any|done..].
  - eapply effect_admit; [done..|by eapply tstep_any_arrives|done|done].
Qed.

Lemma wstep_effect w w' :
  world_ok P w → room (N.of_nat PROMOTION_BUDGET) (w_state w) → wstep P authority w w' →
  effect P authority w w'.
Proof.
  intros Hw Hroom (a & e & Hs%lstep_effect); [|done..]. by eapply effect_any.
Qed.

(** Induction over runs by effects. *)
Lemma reachable_effects (K : World → Prop) :
  K World_initial →
  (∀ w w', world_ok P w → K w → effect P authority w w' → K w') →
  ∀ w, reachable P authority w → K w.
Proof.
  intros H0 Hstep w. induction 1 as [|w w' Hw IH Hroom Hs]; [done|].
  pose proof (reachable_ok P authority Htyped w Hw) as Hok.
  eapply Hstep; [exact Hok|done|]. by eapply wstep_effect.
Qed.

(** An invariant of the governed state alone. *)
Lemma reachable_state (K : GovernedState → Prop) :
  K GovernedState_default → (∀ s s', tstep P s s' → K s → K s') →
  (∀ s ids g, K s → grantable P g s → gr_permit_id g = id_permit ids →
     gr_pending_ticket g = None →
     has_operation_identity s (gr_root_operation_id g) (gr_operation g) = false → K (grant g s)) →
  (∀ s ids r s', K s → arrival P ids r s → enqueue r s = Some s' → K s') →
  ∀ w, reachable P authority w → K (w_state w).
Proof.
  intros H0 Ht Hg He. apply reachable_effects; [done|]. intros w w' _ Hk Heff.
  pose proof (trace_keeps P K Ht) as Htr. destruct Heff as [issued E _ _|Hs _ _ _|ids sampled _ _ _ Ha _ _].
  - by rewrite E.
  - by eapply Htr.
  - set (s1 := (commit_time sampled (w_state w)).2) in *.
    assert (K s1) as Hk1 by (by eapply Ht; [apply t_clock|]).
    destruct Ha as [Hs|g _ Hgt Hid Hp Hre E|s2 r s3 _ H2 Har Hen Hs].
    + by eapply Htr.
    + rewrite E. by eapply Hg.
    + eapply Htr; [done|]. eapply (He s2); [|done|done]. by eapply Ht; [apply t_tags|].
Qed.
End effects.
