(* ===== verification/Queues.v ===== *)
(** * Queues and their indexes

    A class keeps, next to its queue, the arrival orders of its ungated requests,
    those of each capability, and the identities of its awaited children.  The
    indexes answer in one lookup what a scan of the queue would: whether a request
    shares a domain with an earlier one, whether a domain is waited for at all.
    [queues_ok] says they are that scan; every run keeps it. *)

From S2P Require Import Prelude Contract Text Kernel Requirements State Assess Fairness Admission.
From S2P Require Import Memory Governor Books Custody Ledger Moves Reads Invariant Steps Selection.
From S2P Require Import Sections Lifecycle Trace System.

(** ** What the primitive transitions do to queues *)

Definition queue_view (s : GovernedState) (class : TaskClass) :=
  let c := class_state s class in
  (waiting s class, cs_queued_ungated c, cs_queued_by_capability c, cs_queued_awaited_children c).

Record same_queues (s s' : GovernedState) : Prop := {
  sq_view class : queue_view s' class = queue_view s class;
  sq_order : gs_next_queue_order s' = gs_next_queue_order s;
  sq_identities : gs_queued_operation_identities s' = gs_queued_operation_identities s;
}.

#[export] Instance same_queues_preorder : PreOrder same_queues.
Proof. split; [by split|]. intros ??? [] []. split; intros; congruence. Qed.

Lemma same_queues_books s s' : same_books s' s → same_queues s s'.
Proof.
  intros H. split; [|by rewrite H|by rewrite H]. intros class. unfold queue_view.
  rewrite (books_waiting _ _ H class class eq_refl). destruct H as [_ E]. specialize (E class).
  pose proof (f_equal cs_queued_ungated E) as E1.
  pose proof (f_equal cs_queued_by_capability E) as E2.
  pose proof (f_equal cs_queued_awaited_children E) as E3. cbn in E1, E2, E3.
  by rewrite E1, E2, E3.
Qed.

(** A transition that leaves the class entries alone. *)
Lemma same_queues_classes s s' :
  gs_classes s' = gs_classes s → gs_next_queue_order s' = gs_next_queue_order s →
  gs_queued_operation_identities s' = gs_queued_operation_identities s → same_queues s s'.
Proof.
  intros Ec Eo Ei. split; [|done|done]. intros class.
  unfold queue_view, waiting, class_state. by rewrite Ec.
Qed.

Lemma grant_queues g s : same_queues s (grant g s).
Proof.
  split; [|unfold grant; by destruct (is_child _), (gr_pending_ticket g)..].
  intros class. unfold queue_view. rewrite grant_waiting, grant_class_state.
  by case_decide; [subst class|].
Qed.

Lemma unwind_charges_queues r pid s : same_queues s (unwind_charges r pid s).
Proof.
  split; [|unfold unwind_charges; by destruct (is_child _)..].
  intros class. unfold queue_view. rewrite unwind_charges_waiting, unwind_charges_class_state.
  destruct (gs_classes s !! rec_class r) as [c|] eqn:Hc; [|done].
  case_decide; [subst class|done]. rewrite (class_state_Some _ _ _ Hc).
  unfold class_refund, ClassState.leave_phase. by destruct (rec_phase r).
Qed.

Lemma advanced_class_queues p ph c :
  cs_queue (advanced_class p ph c) = cs_queue c ∧
  cs_queued_ungated (advanced_class p ph c) = cs_queued_ungated c ∧
  cs_queued_by_capability (advanced_class p ph c) = cs_queued_by_capability c ∧
  cs_queued_awaited_children (advanced_class p ph c) = cs_queued_awaited_children c.
Proof.
  unfold advanced_class, ClassState.enter_phase, ClassState.leave_phase. by destruct p, ph.
Qed.

Lemma advance_queues pid phase nonces s out nonces' s' :
  advance_phase pid phase nonces s = (out, nonces', s') → same_queues s s'.
Proof.
  intros [(_ & _ & _ & ->)|(r & Hr & _ & -> & _)]%advance_phase_cases; [done|].
  split; [|done|done]. intros class. unfold queue_view, waiting. rewrite class_state_mut.
  case_decide; [subst class|done].
  destruct (advanced_class_queues (rec_phase r) phase (class_state s (rec_class r)))
    as (E1 & E2 & E3 & E4).
  change (class_state (upd_gs_permits _ s)) with (class_state s). by rewrite E1, E2, E3, E4.
Qed.

Lemma memory_delta_queues class root delta s : same_queues s (apply_memory_delta class root delta s).
Proof.
  destruct (apply_memory_delta_reads class root delta s) as (_ & Ec & _). split.
  - intros k. unfold queue_view, waiting. rewrite Ec, class_state_alter.
    destruct (gs_classes s !! class) as [c|] eqn:E; [|done].
    case_decide; [subst k|done]. by rewrite (class_state_Some _ _ _ E).
  - unfold apply_memory_delta, record_accounting_fault. case_decide; destruct root; try done;
      destruct (_ || _); try destruct (gs_accounting_fault _); done.
  - unfold apply_memory_delta, record_accounting_fault. case_decide; destruct root; try done;
      destruct (_ || _); try destruct (gs_accounting_fault _); done.
Qed.

Lemma reconcile_queues pid bytes sequence mode scale now s out s' :
  reconcile pid bytes sequence mode scale now s = (out, s') → same_queues s s'.
Proof.
  unfold reconcile. destruct (gs_permits s !! pid) as [r|]; [|by intros [= <- <-]].
  do 2 (case_decide; [by intros [= <- <-]|]).
  destruct (effective_units _ _ _ _) as [err|u]; intros [= <- <-].
  - unfold record_accounting_fault. by destruct (gs_accounting_fault s).
  - etransitivity; [|apply memory_delta_queues]. by apply same_queues_classes.
Qed.

Lemma release_stage_queues pid freed policy sequence now s out s' :
  release_stage_memory pid freed policy sequence now s = (out, s') → same_queues s s'.
Proof.
  unfold release_stage_memory. destruct (negb _); [by intros [= <- <-]|].
  destruct (gs_permits s !! pid) as [r|]; [|by intros [= <- <-]].
  destruct (match sequence with Some _ => _ | None => _ end); intros [= <- <-]; [done|].
  etransitivity; [|apply memory_delta_queues]. by apply same_queues_classes.
Qed.

Lemma evict_terminal_queues fuel s : same_queues s (evict_terminal fuel s).
Proof.
  revert s. induction fuel as [|fuel IH]; intros s; [done|]. cbn.
  case_decide; [done|]. destruct (btree_first _) as [[seq oldest]|]; [|done].
  etransitivity; [|apply IH].
  destruct (gs_tickets _ !! oldest) as [[]|]; by apply same_queues_classes.
Qed.

Lemma record_terminal_queues t reason s : same_queues s (record_terminal_ticket t reason s).
Proof.
  unfold record_terminal_ticket. etransitivity; [|apply evict_terminal_queues].
  destruct (gs_terminal_index _ !! t); by apply same_queues_classes.
Qed.

Lemma forget_terminal_queues t s : same_queues s (forget_terminal_ticket t s).
Proof.
  unfold forget_terminal_ticket.
  destruct (gs_terminal_index s !! t); cbn [gs_tickets upd_gs_terminal_order upd_gs_terminal_index];
    destruct (gs_tickets s !! t) as [[]|]; by apply same_queues_classes.
Qed.

#[export] Hint Resolve grant_queues unwind_charges_queues record_terminal_queues
  forget_terminal_queues same_queues_books same_queues_classes : taskmesh.

(** A primitive transition leaves the queues alone or removes one request; a
    promoted one has no predecessor in its domain. *)
Inductive queue_move (s s' : GovernedState) : Prop :=
  | queue_still : same_queues s s' → queue_move s s'
  | queue_removed class i r s1 :
      remove_pending class i s = Some (r, s1) → same_queues s1 s' → queue_move s s'.

Lemma tstep_queues P s s' : tstep P s s' → queue_move s s'.
Proof.
  destruct 1 as [sampled|s' [H _]|f|class i r s1 s2 now Hrm [H2 _] _|class i r s' Hrm|t st|t|t reason|t
    |pid r Hr _|pid r r'|pid t r|pid phase nonces out nonces' s' _ H|pid bytes sq mode scale now out s' _ H
    |pid freed policy sq now out s' _ H|what|];
    try (by apply queue_still, same_queues_classes).
  - by apply queue_still, same_queues_books.
  - eapply queue_removed; [done|]. etransitivity; [|apply grant_queues].
    etransitivity; [by apply same_queues_books|by apply same_queues_classes].
  - by eapply queue_removed.
  - apply queue_still, record_terminal_queues.
  - apply queue_still, forget_terminal_queues.
  - apply queue_still, unwind_charges_queues.
  - by eapply queue_still, advance_queues.
  - by eapply queue_still, reconcile_queues.
  - by eapply queue_still, release_stage_queues.
  - apply queue_still. unfold record_accounting_fault. by destruct (gs_accounting_fault s).
Qed.

(** ** The invariant of one class *)

(** Two requests of a class compete: they share a capability, or both need none. *)
Definition shares_domain (a b : CapabilityRequirementSet) : Prop :=
  (a = [] ∧ b = []) ∨ ∃ id, id ∈ a ∧ id ∈ b.

Definition arrived_before (a b : PendingRequest) : Prop := pr_queue_order a < pr_queue_order b.

Definition indexed (m : gmap CapabilityId (gset N)) (id : CapabilityId) (order : N) : Prop :=
  ∃ X, m !! id = Some X ∧ order ∈ X.

Record class_queue_ok (bound : N) (q : list PendingRequest) (ungated : gset N)
    (gated : gmap CapabilityId (gset N)) (awaited : gset N) : Prop := {
  cq_sorted : StronglySorted arrived_before q;
  cq_bound r : r ∈ q → pr_queue_order r ≤ bound;
  cq_ungated o :
    o ∈ ungated ↔ ∃ r, r ∈ q ∧ pr_capabilities r = [] ∧ pr_queue_order r = o;
  cq_gated id o :
    indexed gated id o ↔ ∃ r, r ∈ q ∧ id ∈ pr_capabilities r ∧ pr_queue_order r = o;
  cq_awaited n :
    n ∈ awaited ↔ ∃ r, r ∈ q ∧ is_awaited_child (pr_scope r) = true ∧ pr_seq_no r = n;
  cq_seq r r' : r ∈ q → r' ∈ q → pr_seq_no r = pr_seq_no r' → pr_queue_order r = pr_queue_order r';
}.

Definition queues_ok (s : GovernedState) : Prop := ∀ class,
  let c := class_state s class in
  class_queue_ok (gs_next_queue_order s) (waiting s class) (cs_queued_ungated c)
    (cs_queued_by_capability c) (cs_queued_awaited_children c).

Lemma same_queues_ok s s' : same_queues s s' → queues_ok s → queues_ok s'.
Proof.
  intros [Hv Ho _] H class. specialize (H class). specialize (Hv class).
  unfold queue_view in Hv. injection Hv as E1 E2 E3 E4. cbn zeta in *.
  by rewrite Ho, E1, E2, E3, E4.
Qed.

(** An arrival order belongs to one request. *)
Lemma sorted_order_inj q r r' :
  StronglySorted arrived_before q → r ∈ q → r' ∈ q → pr_queue_order r = pr_queue_order r' → r = r'.
Proof.
  intros Hs. induction Hs as [|a q Hs IH Ha]; intros Hr Hr' E; [by apply not_elem_of_nil in Hr|].
  rewrite Forall_forall in Ha. unfold arrived_before in Ha.
  apply elem_of_cons in Hr as [->|Hr]; apply elem_of_cons in Hr' as [->|Hr']; [done| | |by apply IH].
  - specialize (Ha r' Hr'). lia.
  - specialize (Ha r Hr). lia.
Qed.

Lemma sorted_lookup_lt q i j r r' :
  StronglySorted arrived_before q → q !! i = Some r → q !! j = Some r' →
  (i < j)%nat ↔ pr_queue_order r < pr_queue_order r'.
Proof.
  intros Hs. revert i j. induction Hs as [|a q Hs IH Ha]; intros [|i] [|j]; cbn; intros Hi Hj;
    simplify_eq; rewrite Forall_forall in Ha; unfold arrived_before in Ha.
  - split; lia.
  - split; [|lia]. intros _. apply Ha. by apply list_elem_of_lookup_2 with j.
  - specialize (Ha r (list_elem_of_lookup_2 _ _ _ Hi)). split; lia.
  - rewrite <-IH by done. lia.
Qed.

(** The requests left after a removal, told apart by their order. *)
Lemma elem_of_delete_order q i r r' :
  StronglySorted arrived_before q → q !! i = Some r →
  r' ∈ delete i q ↔ r' ∈ q ∧ pr_queue_order r' ≠ pr_queue_order r.
Proof.
  intros Hs Hi. assert (NoDup (pr_queue_order <$> q)) as Hnd.
  { clear Hi. induction Hs as [|a q Hs IH Ha]; cbn; constructor; [|done].
    intros (x & E & Hx)%list_elem_of_fmap. rewrite Forall_forall in Ha.
    specialize (Ha x Hx). unfold arrived_before in Ha. lia. }
  by apply elem_of_delete_keyed.
Qed.

Lemma sorted_delete q i : StronglySorted arrived_before q → StronglySorted arrived_before (delete i q).
Proof.
  intros Hs. revert i. induction Hs as [|a q Hs IH Ha]; intros [|i]; cbn; [constructor..|done|].
  constructor; [apply IH|]. rewrite Forall_forall in Ha |- *. intros x Hx. apply Ha.
  by eapply (list_subseteq_delete i).
Qed.

(** ** The index updates *)

Lemma indexed_index order m caps id o :
  indexed (foldl (ClassState.index_capability order) m caps) id o ↔
  indexed m id o ∨ (id ∈ caps ∧ o = order).
Proof.
  revert m. induction caps as [|a caps IH]; intros m; cbn [foldl].
  { split; [by left|]. intros [?|[H _]]; [done|]. by apply not_elem_of_nil in H. }
  rewrite IH, elem_of_cons.
  assert (indexed (ClassState.index_capability order m a) id o ↔
          indexed m id o ∨ (id = a ∧ o = order)) as ->; [|naive_solver].
  unfold ClassState.index_capability, indexed. destruct (decide (id = a)) as [->|Hne].
  - rewrite lookup_insert_eq. split.
    + intros (X & [= <-] & [->%elem_of_singleton|HX]%elem_of_union); [by right|].
      left. destruct (m !! a) as [Y|]; cbn in HX; [by exists Y|by apply not_elem_of_empty in HX].
    + intros H. eexists. split; [done|]. apply elem_of_union. rewrite elem_of_singleton.
      destruct H as [(Y & -> & HY)|[_ ->]]; [by right|by left].
  - rewrite lookup_insert_ne by done. naive_solver.
Qed.

Lemma indexed_unindex order m caps id o :
  indexed (foldl (ClassState.unindex_capability order) m caps) id o ↔
  indexed m id o ∧ ¬ (id ∈ caps ∧ o = order).
Proof.
  revert m. induction caps as [|a caps IH]; intros m; cbn [foldl].
  { split; [|naive_solver]. intros ?. split; [done|]. intros [Hin _]. by apply not_elem_of_nil in Hin. }
  rewrite IH, elem_of_cons.
  assert (indexed (ClassState.unindex_capability order m a) id o ↔
          indexed m id o ∧ ¬ (id = a ∧ o = order)) as ->; [|naive_solver].
  unfold ClassState.unindex_capability, indexed.
  destruct (decide (id = a)) as [->|Hne].
  - destruct (m !! a) as [X|] eqn:E; [|naive_solver]. case_decide as HX.
    + rewrite lookup_delete_eq. split; [by intros (? & ? & _)|].
      intros [(Y & [= <-] & HY) Hno]. exfalso.
      assert (o ∈ X ∖ {[order]}) as Ho; [|rewrite HX in Ho; by apply not_elem_of_empty in Ho].
      apply elem_of_difference. rewrite elem_of_singleton. naive_solver.
    + rewrite lookup_insert_eq. split.
      * intros (Y & [= <-] & [HY Hno]%elem_of_difference). rewrite elem_of_singleton in Hno.
        split; [by exists X|naive_solver].
      * intros [(Y & [= <-] & HY) Hno]. eexists; split; [done|].
        apply elem_of_difference. rewrite elem_of_singleton. naive_solver.
  - destruct (m !! a) as [X|] eqn:E; [|naive_solver].
    case_decide; [rewrite lookup_delete_ne by done|rewrite lookup_insert_ne by done]; naive_solver.
Qed.

(** ** Removal and arrival *)

Lemma crs_is_empty_true caps : crs_is_empty caps = true ↔ caps = [].
Proof. by destruct caps. Qed.

Lemma unindex_class_ok bound q c i r :
  class_queue_ok bound q (cs_queued_ungated c) (cs_queued_by_capability c)
    (cs_queued_awaited_children c) →
  q !! i = Some (untag r) →
  let c' := ClassState.unindex_pending r c in
  class_queue_ok bound (delete i q) (cs_queued_ungated c') (cs_queued_by_capability c')
    (cs_queued_awaited_children c').
Proof.
  intros [Hs Hb Hu Hg Ha Hseq] Hi c'.
  pose proof (list_elem_of_lookup_2 _ _ _ Hi) as Hr.
  assert (∀ x, x ∈ delete i q ↔ x ∈ q ∧ pr_queue_order x ≠ pr_queue_order r) as Hd.
  { intros x. by rewrite (elem_of_delete_order _ _ _ _ Hs Hi). }
  assert (cs_queued_ungated c' = (if crs_is_empty (pr_capabilities r)
    then cs_queued_ungated c ∖ {[pr_queue_order r]} else cs_queued_ungated c)) as Eu.
  { unfold c', ClassState.unindex_pending.
    by destruct (is_awaited_child _), (crs_is_empty (pr_capabilities r)). }
  assert (cs_queued_by_capability c' = foldl (ClassState.unindex_capability (pr_queue_order r))
    (cs_queued_by_capability c) (pr_capabilities r)) as Eg.
  { unfold c', ClassState.unindex_pending.
    by destruct (is_awaited_child _), (pr_capabilities r). }
  assert (cs_queued_awaited_children c' = (if is_awaited_child (pr_scope r)
    then cs_queued_awaited_children c ∖ {[pr_seq_no r]} else cs_queued_awaited_children c)) as Ea.
  { unfold c', ClassState.unindex_pending.
    by destruct (is_awaited_child _), (crs_is_empty (pr_capabilities r)). }
  assert (∀ x, x ∈ q → pr_queue_order x = pr_queue_order r → x = untag r) as Hinj.
  { intros x Hx E. by eapply sorted_order_inj. }
  split.
  - by apply sorted_delete.
  - intros x [Hx _]%Hd. by apply Hb.
  - intros o. setoid_rewrite Hd. rewrite Eu. destruct (crs_is_empty _) eqn:Ec.
    + rewrite elem_of_difference, elem_of_singleton, Hu. naive_solver.
    + rewrite Hu. split; [|naive_solver]. intros (x & Hx & Hcx & <-). exists x. split_and!; try done.
      intros E%Hinj; [|done]. subst x. cbn in Hcx. by rewrite Hcx in Ec.
  - intros id o. setoid_rewrite Hd. rewrite Eg, indexed_unindex, Hg. split.
    + intros [(x & Hx & Hid & <-) Hno]. exists x. split_and!; try done. intros E. apply Hno.
      split; [|done]. by rewrite (Hinj x Hx E) in Hid.
    + intros (x & [Hx Hne] & Hid & <-). split; [by exists x|]. by intros [_ ?].
  - intros n. setoid_rewrite Hd. rewrite Ea. destruct (is_awaited_child (pr_scope r)) eqn:Ec.
    + rewrite elem_of_difference, elem_of_singleton, Ha. split.
      * intros [(x & Hx & Hax & <-) Hne]. exists x. split_and!; try done. intros E%Hinj; [|done].
        by subst x.
      * intros (x & [Hx Hne] & Hax & <-). split; [by exists x|]. intros E.
        by apply Hne, (Hseq x (untag r)).
    + rewrite Ha. split; [|naive_solver]. intros (x & Hx & Hax & <-). exists x. split_and!; try done.
      intros E%Hinj; [|done]. subst x. cbn in Hax. congruence.
  - intros x x' [Hx _]%Hd [Hx' _]%Hd. by apply Hseq.
Qed.

Lemma index_class_ok bound q c r :
  class_queue_ok bound q (cs_queued_ungated c) (cs_queued_by_capability c)
    (cs_queued_awaited_children c) →
  pr_queue_order r = bound + 1 → (∀ x, x ∈ q → pr_seq_no x ≠ pr_seq_no r) →
  let c' := ClassState.index_pending r c in
  class_queue_ok (bound + 1) (q ++ [untag r]) (cs_queued_ungated c') (cs_queued_by_capability c')
    (cs_queued_awaited_children c').
Proof.
  intros [Hs Hb Hu Hg Ha Hseq] Ho Hfresh c'.
  assert (∀ x, x ∈ q ++ [untag r] ↔ x ∈ q ∨ x = untag r) as Hd.
  { intros x. by rewrite elem_of_app, list_elem_of_singleton. }
  assert (cs_queued_ungated c' = (if crs_is_empty (pr_capabilities r)
    then {[pr_queue_order r]} ∪ cs_queued_ungated c else cs_queued_ungated c)) as Eu.
  { unfold c', ClassState.index_pending.
    by destruct (is_awaited_child _), (crs_is_empty (pr_capabilities r)). }
  assert (cs_queued_by_capability c' = foldl (ClassState.index_capability (pr_queue_order r))
    (cs_queued_by_capability c) (pr_capabilities r)) as Eg.
  { unfold c', ClassState.index_pending. by destruct (is_awaited_child _), (pr_capabilities r). }
  assert (cs_queued_awaited_children c' = (if is_awaited_child (pr_scope r)
    then {[pr_seq_no r]} ∪ cs_queued_awaited_children c else cs_queued_awaited_children c)) as Ea.
  { unfold c', ClassState.index_pending.
    by destruct (is_awaited_child _), (crs_is_empty (pr_capabilities r)). }
  split.
  - clear - Hs Hb Ho. induction Hs as [|a q Hs IH Hal]; cbn.
    + constructor; [constructor|]. constructor.
    + constructor; [apply IH; intros; apply Hb; by right|].
      apply Forall_app. split; [done|]. constructor; [|constructor]. unfold arrived_before. cbn.
      rewrite Ho. assert (pr_queue_order a ≤ bound) by (apply Hb; by left). lia.
  - intros x [Hx| ->]%Hd; [specialize (Hb x Hx); lia|]. cbn. lia.
  - intros o. setoid_rewrite Hd. rewrite Eu. destruct (crs_is_empty _) eqn:Ec.
    + apply crs_is_empty_true in Ec. rewrite elem_of_union, elem_of_singleton, Hu. naive_solver.
    + rewrite Hu. split; [naive_solver|]. intros (x & [Hx| ->] & Hcx & <-); [by exists x|].
      cbn in Hcx. by rewrite Hcx in Ec.
  - intros id o. setoid_rewrite Hd. rewrite Eg, indexed_index, Hg. naive_solver.
  - intros n. setoid_rewrite Hd. rewrite Ea. destruct (is_awaited_child (pr_scope r)) eqn:Ec.
    + rewrite elem_of_union, elem_of_singleton, Ha. naive_solver.
    + rewrite Ha. split; [naive_solver|]. intros (x & [Hx| ->] & Hax & <-); [by exists x|].
      cbn in Hax. congruence.
  - intros x x' [Hx| ->]%Hd [Hx'| ->]%Hd E; try done; cbn in *.
    + by apply Hseq.
    + by destruct (Hfresh x Hx).
    + by destruct (Hfresh x' Hx').
Qed.

Lemma remove_pending_queues_ok class i r s s' :
  remove_pending class i s = Some (r, s') → queues_ok s → queues_ok s'.
Proof.
  intros Hrm H k. pose proof (remove_pending_waiting _ _ _ _ _ Hrm) as [Hi Hw].
  pose proof (remove_pending_cases _ _ _ _ _ Hrm) as (c & Hc & _ & E & Eo).
  assert (gs_next_queue_order s' = gs_next_queue_order s) as Eb.
  { unfold remove_pending in Hrm. apply bind_Some in Hrm as (? & _ & Hrm).
    apply bind_Some in Hrm as (? & _ & Hrm). by simplify_eq. }
  cbn zeta. rewrite Eb, Hw. unfold upd_queue_of. case_decide as Ek; [subst k|].
  - rewrite E. specialize (H class). cbn zeta in H. rewrite (class_state_Some _ _ _ Hc) in H.
    by apply (unindex_class_ok _ _ (upd_cs_queue (delete i) c)).
  - rewrite Eo by done. apply H.
Qed.

Lemma class_queue_mono bound bound' q u g a :
  bound ≤ bound' → class_queue_ok bound q u g a → class_queue_ok bound' q u g a.
Proof. intros Hle []. split; try done. intros r Hr. specialize (cq_bound0 r Hr). lia. Qed.

Lemma enqueue_queues_ok r s s' :
  enqueue r s = Some s' → (∀ x, x ∈ waiting s (pr_class r) → pr_seq_no x ≠ pr_seq_no r) →
  queues_ok s → queues_ok s'.
Proof.
  intros Hen Hfresh H k. pose proof (enqueue_cases _ _ _ Hen) as (_ & _ & _ & E & Eo & Eb).
  pose proof (enqueue_waiting _ _ _ Hen k) as Hw. cbn zeta. rewrite Eb, Hw.
  unfold upd_queue_of. case_decide as Ek; [subst k|].
  - rewrite E. by apply (index_class_ok (gs_next_queue_order s) _ (class_state s (pr_class r))).
  - rewrite Eo by done. eapply class_queue_mono; [|apply H]. lia.
Qed.

Lemma tstep_queues_ok P s s' : tstep P s s' → queues_ok s → queues_ok s'.
Proof.
  intros [Hs|class i r s1 Hrm Hs]%tstep_queues H; [by eapply same_queues_ok|].
  eapply same_queues_ok; [done|]. by eapply remove_pending_queues_ok.
Qed.

(** ** What a section can do to a queue: requests leave, none joins or overtakes *)

Definition dequeues (s s' : GovernedState) : Prop :=
  (∀ class, waiting s' class `sublist_of` waiting s class) ∧
  gs_next_queue_order s' = gs_next_queue_order s.

#[export] Instance dequeues_preorder : PreOrder dequeues.
Proof.
  split; [by intros s|]. intros s1 s2 s3 [H1 E1] [H2 E2]. split; [|congruence].
  intros class. etransitivity; [apply H2|apply H1].
Qed.

Lemma same_queues_waiting s s' class : same_queues s s' → waiting s' class = waiting s class.
Proof. intros [Hv _ _]. specialize (Hv class). unfold queue_view in Hv. by injection Hv. Qed.

Lemma tstep_dequeues P s s' : tstep P s s' → dequeues s s'.
Proof.
  intros [Hs|class i r s1 Hrm Hs]%tstep_queues; split.
  - intros class. by rewrite (same_queues_waiting _ _ _ Hs).
  - apply Hs.
  - intros k. rewrite (same_queues_waiting _ _ _ Hs).
    pose proof (remove_pending_waiting _ _ _ _ _ Hrm) as [_ ->]. unfold upd_queue_of.
    case_decide; [subst k; apply sublist_delete|done].
  - rewrite (sq_order _ _ Hs). unfold remove_pending in Hrm.
    apply bind_Some in Hrm as (? & _ & Hrm). apply bind_Some in Hrm as (? & _ & Hrm). by simplify_eq.
Qed.

Lemma trace_dequeues P s s' : trace P s s' → dequeues s s'.
Proof. apply trace_rel; [apply _|apply tstep_dequeues]. Qed.

Lemma dequeues_elem s s' class r : dequeues s s' → r ∈ waiting s' class → r ∈ waiting s class.
Proof. intros [H _] Hr. specialize (H class). apply sublist_subseteq in H. by apply H. Qed.

(** ** Every run keeps it *)

(** Sequence numbers in flight and in the queues are distinct and issued. *)
Record world_queues (w : World) : Prop := {
  wq_ok : queues_ok (w_state w);
  wq_seq class r : r ∈ waiting (w_state w) class → pr_seq_no r < next_seq (w_counters w);
  wq_issued ids : ids ∈ w_outstanding w → id_seq_no ids < next_seq (w_counters w);
  wq_fresh ids class r :
    ids ∈ w_outstanding w → r ∈ waiting (w_state w) class → pr_seq_no r ≠ id_seq_no ids;
  wq_distinct : NoDup (id_seq_no <$> w_outstanding w);
  wq_order : gs_next_queue_order (w_state w) + N.of_nat (length (w_outstanding w))
               < next_permit (w_counters w);
}.

Lemma fresh_ids_seq authority k issued k' :
  fresh_ids authority k = (issued, k') →
  next_seq k ≤ next_seq k' ∧ next_permit k ≤ next_permit k' ∧
  ∀ ids, issued = Some ids →
    id_seq_no ids = next_seq k ∧ next_seq k' = next_seq k + 1 ∧ next_permit k' = next_permit k + 1.
Proof.
  unfold fresh_ids, take_sequence, checked_add.
  repeat (case_decide; cbn); intros [= <- <-]; cbn; split_and!; try lia; try done;
    intros i [= <-]; cbn; auto.
Qed.

Lemma initial_class_state class : class_state GovernedState_default class = ClassState_default.
Proof. reflexivity. Qed.

Lemma world_queues_initial : world_queues World_initial.
Proof.
  assert (∀ class, waiting GovernedState_default class = []) as Ew by done.
  split; cbn; try setoid_rewrite Ew; try (intros; by set_solver).
  - intros class. cbn zeta. rewrite Ew, initial_class_state. split; cbn.
    + constructor.
    + intros r Hr. by apply not_elem_of_nil in Hr.
    + intros o. split; [intros Ho; by apply not_elem_of_empty in Ho|].
      intros (r & Hr & _). by apply not_elem_of_nil in Hr.
    + intros id o. unfold indexed. setoid_rewrite lookup_empty. split; [by intros (X & ? & _)|].
      intros (r & Hr & _). by apply not_elem_of_nil in Hr.
    + intros n. split; [intros Ho; by apply not_elem_of_empty in Ho|].
      intros (r & Hr & _). by apply not_elem_of_nil in Hr.
    + intros r r' Hr. by apply not_elem_of_nil in Hr.
  - constructor.
Qed.

Section runs.
Context (P : PolicySet) (authority : N) (Htyped : policies_typed P).

Lemma world_queues_trace w w' :
  dequeues (w_state w) (w_state w') → queues_ok (w_state w') → w_counters w' = w_counters w →
  w_outstanding w' = w_outstanding w → world_queues w → world_queues w'.
Proof.
  intros Hd Hok Ek Eo [_ W2 W3 W4 W5 W6]. split; rewrite ?Ek, ?Eo; try done.
  - intros class r Hr. eapply W2. by eapply dequeues_elem.
  - intros ids class r Hi Hr. eapply W4; [done|]. by eapply dequeues_elem.
  - destruct Hd as [_ ->]. done.
Qed.

(** What an admission leaves: the queues of before, and the arrival at the tail. *)
Lemma arrives_queues ids s s' :
  arrives P ids s s' → queues_ok s →
  (∀ class r, r ∈ waiting s class → pr_seq_no r ≠ id_seq_no ids) →
  queues_ok s' ∧ gs_next_queue_order s' ≤ gs_next_queue_order s + 1 ∧
  ∀ class r, r ∈ waiting s' class → r ∈ waiting s class ∨ pr_seq_no r = id_seq_no ids.
Proof.
  intros Ha Hok Hfresh.
  destruct Ha as [Ht|g _ _ _ _ _ ->|s1 r s2 _ [H1 _] Har Hen Ht].
  - pose proof (trace_dequeues _ _ _ Ht) as Hd. split_and!.
    + eapply (trace_keeps P queues_ok); [apply tstep_queues_ok|done|done].
    + destruct Hd as [_ ->]. lia.
    + intros class r Hr. left. by eapply dequeues_elem.
  - pose proof (grant_queues g s) as Hs. split_and!; [by eapply same_queues_ok| |].
    + rewrite (sq_order _ _ Hs). lia.
    + intros class r. rewrite (same_queues_waiting _ _ _ Hs). by left.
  - pose proof (same_queues_books _ _ H1) as Hs1.
    pose proof (trace_dequeues _ _ _ Ht) as Hd.
    pose proof (enqueue_cases _ _ _ Hen) as (_ & _ & _ & _ & _ & Eord).
    assert (∀ class x, x ∈ waiting s2 class →
      x ∈ waiting s class ∨ pr_seq_no x = id_seq_no ids) as Hw.
    { intros class x. rewrite (enqueue_waiting _ _ _ Hen). unfold upd_queue_of.
      rewrite !(same_queues_waiting _ _ _ Hs1). case_decide; [subst class|by left].
      intros [?|Hx%list_elem_of_singleton]%elem_of_app; [by left|subst x].
      right. apply (ar_seq_no _ _ _ _ Har). }
    split_and!.
    + eapply (trace_keeps P queues_ok); [apply tstep_queues_ok|exact Ht|].
      eapply enqueue_queues_ok; [exact Hen| |by eapply same_queues_ok].
      intros x. rewrite (same_queues_waiting _ _ _ Hs1), (ar_seq_no _ _ _ _ Har). apply Hfresh.
    + destruct Hd as [_ ->]. rewrite Eord, (sq_order _ _ Hs1). lia.
    + intros class x Hx. apply (Hw class). by eapply dequeues_elem.
Qed.

Lemma world_queues_effect w w' : world_queues w → effect P authority w w' → world_queues w'.
Proof.
  intros Hq [issued Es Hf Eo|Ht _ Ek Eo|ids sampled Eo Ek _ Ha _ _].
  - destruct Hq as [W1 W2 W3 W4 W5 W6]. apply fresh_ids_seq in Hf as (F1 & F2 & F3).
    split; rewrite ?Es, ?Eo; try done.
    + intros class r Hr. specialize (W2 class r Hr). lia.
    + intros ids [H|H]%elem_of_app; [|specialize (W3 ids H); lia].
      destruct issued as [i|]; [|by apply not_elem_of_nil in H].
      apply list_elem_of_singleton in H as ->. destruct (F3 i eq_refl) as (-> & -> & _). lia.
    + intros ids class r [H|H]%elem_of_app Hr; [|by eapply W4].
      destruct issued as [i|]; [|by apply not_elem_of_nil in H].
      apply list_elem_of_singleton in H as ->. destruct (F3 i eq_refl) as (-> & _ & _).
      specialize (W2 class r Hr). lia.
    + destruct issued as [i|]; [|done]. cbn. apply NoDup_cons. split; [|done].
      intros (j & E & Hj)%list_elem_of_fmap. destruct (F3 i eq_refl) as (Ei & _ & _).
      specialize (W3 j Hj). lia.
    + destruct issued as [i|]; cbn; [|lia]. destruct (F3 i eq_refl) as (_ & _ & ->). lia.
  - eapply world_queues_trace; [by eapply trace_dequeues| |done..].
    eapply (trace_keeps P queues_ok); [apply tstep_queues_ok|done|apply Hq].
  - pose proof Hq as [W1 W2 W3 W4 W5 W6]. rewrite Eo in W5, W6. cbn in W5, W6.
    apply NoDup_cons in W5 as [Hi W5].
    set (s1 := (commit_time sampled (w_state w)).2) in *.
    assert (same_queues (w_state w) s1) as Hs1 by (by apply same_queues_classes).
    destruct (arrives_queues ids s1 (w_state w') Ha) as (A1 & A2 & A3).
    { by eapply same_queues_ok. }
    { intros class r. rewrite (same_queues_waiting _ _ _ Hs1). apply W4. rewrite Eo. by left. }
    setoid_rewrite (same_queues_waiting _ _ _ Hs1) in A3. rewrite (sq_order _ _ Hs1) in A2.
    split; rewrite ?Ek; try done.
    + intros class r [Hr|Hr]%A3; [by eapply W2|]. rewrite Hr. apply W3. rewrite Eo. by left.
    + intros j Hj. apply W3. rewrite Eo. by right.
    + intros j class r Hj [Hr|Hr]%A3; [apply (W4 j class r); [rewrite Eo; by right|done]|].
      rewrite Hr. intros E. apply Hi. rewrite E. by apply list_elem_of_fmap_2.
    + lia.
Qed.

Lemma reachable_queues w : reachable P authority w → world_queues w.
Proof.
  apply reachable_effects; [done|apply world_queues_initial|]. intros. by eapply world_queues_effect.
Qed.
End runs.
