(* ===== verification/Wakes.v ===== *)
(** * Nobody leaves a queue unnotified

    The engine never calls a waiter under its lock: what a critical section wants
    woken it leaves in [eff_wake], to be notified after the lock.  Here: a request that
    leaves a queue in a section of anybody else's is always among those.  Promotion,
    the removal of an irreversible wait cycle and the drain of an accounting fault
    push its waker; only the abandon of its own ticket removes it silently. *)

From S2P Require Import Prelude Contract Text Kernel Requirements State Assess Fairness Admission.
From S2P Require Import Memory Governor Books Custody Ledger Moves Reads Invariant Steps Selection.
From S2P Require Import Sections Lifecycle Trace System Queues.

(** From [s] with the effects [e] to [s'] with [e']: every request keeps its place or
    its waker is to be woken, and no wake-up is taken back.  Requests in [X] may leave
    silently. *)
Record announces (X : Ticket → Prop) (s s' : GovernedState) (e e' : TransitionEffects) : Prop := {
  an_queue class q w : q ∈ waiting s class → pr_waker q = Some w → ¬ X (pr_ticket q) →
    q ∈ waiting s' class ∨ w ∈ eff_wake e';
  an_wake w : w ∈ eff_wake e → w ∈ eff_wake e';
}.

Lemma announces_trans X s s1 s' e e1 e' :
  announces X s s1 e e1 → announces X s1 s' e1 e' → announces X s s' e e'.
Proof.
  intros [H1 W1] [H2 W2]. split; [|auto]. intros class q w Hq Hw Hx.
  destruct (H1 class q w Hq Hw Hx) as [?|?]; [by apply H2|right; auto].
Qed.

Lemma announces_queues X s s' e : same_queues s s' → announces X s s' e e.
Proof. intros H. split; [|done]. intros class q w. rewrite (same_queues_waiting _ _ _ H). by left. Qed.

Lemma announces_refl X s e : announces X s s e e.
Proof. by apply announces_queues. Qed.

Lemma announces_weaken (X Y : Ticket → Prop) s s' e e' :
  (∀ t, X t → Y t) → announces X s s' e e' → announces Y s s' e e'.
Proof. intros H [H1 H2]. split; [|done]. intros class q w Hq Hw Hy. apply H1; auto. Qed.

#[export] Hint Resolve announces_queues announces_refl same_queues_books same_queues_classes : wakes.

Lemma push_wake_elem r e w :
  w ∈ eff_wake e ∨ r = Some w → w ∈ eff_wake (push_wake r e).
Proof.
  destruct r as [x|]; cbn; [|by intros [?|?]].
  rewrite elem_of_app, list_elem_of_singleton. naive_solver.
Qed.

Lemma push_retire_wake r e : eff_wake (push_retire r e) = eff_wake e.
Proof. by destruct r. Qed.

Lemma absorb_elem e pass w : w ∈ eff_wake (absorb e pass) ↔ w ∈ eff_wake e ∨ w ∈ eff_wake pass.
Proof. apply elem_of_app. Qed.

Lemma announces_retire X s s' e r e' :
  eff_wake e' = eff_wake (push_retire r e) → same_queues s s' → announces X s s' e e'.
Proof.
  intros E H. rewrite push_retire_wake in E. split; [|by rewrite E].
  intros class q w. rewrite (same_queues_waiting _ _ _ H). by left.
Qed.

(** Leaving a queue, at a position. *)
Lemma removed_cases class i s r s' class' q :
  remove_pending class i s = Some (r, s') → q ∈ waiting s class' →
  q ∈ waiting s' class' ∨ class' = class ∧ q = untag r.
Proof.
  intros [Hi Hw]%remove_pending_waiting Hq. rewrite Hw. unfold upd_queue_of. case_decide; [|by left].
  subst class'. apply list_elem_of_lookup in Hq as [j Hj].
  destruct (decide (j = i)) as [->|Hne]; [right; split; congruence|left].
  rewrite delete_take_drop, elem_of_app, !list_elem_of_lookup.
  destruct (decide (j < i)%nat).
  - left. exists j. by rewrite lookup_take_lt.
  - right. exists (j - S i)%nat. rewrite lookup_drop. by replace (S i + (j - S i))%nat with j by lia.
Qed.

(** A request taken out with its waker pushed. *)
Lemma announces_removed X class i s r s1 s' e :
  remove_pending class i s = Some (r, s1) → same_queues s1 s' →
  announces X s s' e (push_wake (pr_waker r) e).
Proof.
  intros Hrm Hs. split; [|intros; apply push_wake_elem; by left].
  intros k q w Hq Hw _. rewrite (same_queues_waiting _ _ _ Hs).
  destruct (removed_cases _ _ _ _ _ _ _ Hrm Hq) as [?|[_ ->]]; [by left|right].
  apply push_wake_elem. by right.
Qed.

(** ** Promotion *)

Section promotion.
Context (P : PolicySet) (X : Ticket → Prop).
Local Abbreviation announces := (announces X).

Lemma terminalize_announces s e t s' e' :
  terminalize_wait_cycle P s e = Some (t, s', e') → announces s s' e e'.
Proof.
  unfold terminalize_wait_cycle. intros H.
  destruct (find_map _ _) as [[[class index] w]|]; [|simplify_eq; auto with wakes].
  destruct (remove_pending class index s) as [[r s1]|] eqn:Hrm; [|simplify_eq; auto with wakes].
  apply bind_Some in H as (policy & _ & H). apply bind_Some in H as (held & _ & H). simplify_eq.
  eapply announces_removed; [exact Hrm|].
  etransitivity; [apply same_queues_books, (on_unserved_removed_books class policy)|].
  etransitivity; [|apply record_terminal_queues]. by apply same_queues_classes.
Qed.

Lemma promote_one_announces now s e granted s' e' :
  promote_one P now s e = Some (granted, s', e') → announces s s' e e'.
Proof.
  unfold promote_one. intros H. apply bind_Some in H as ([sel s1] & Hsel & H).
  apply select_books, same_queues_books in Hsel.
  destruct sel as [sel|]; [|simplify_eq; auto with wakes].
  destruct (remove_pending _ _ s1) as [[head s2]|] eqn:Hrm; [|simplify_eq; auto with wakes].
  apply bind_Some in H as (policy & _ & H). simplify_eq.
  eapply announces_trans; [by apply announces_queues|]. eapply announces_removed; [exact Hrm|].
  etransitivity; [apply same_queues_books, (on_request_served_books (sel_class sel) policy
    (sel_queue_index sel) (sel_service_finish_tag sel))|].
  etransitivity; [|apply grant_queues]. by apply same_queues_classes.
Qed.

Lemma promote_loop_announces slots now changed s e changed' budget s' e' :
  promote_loop slots P now changed s e = Some (changed', budget, s', e') → announces s s' e e'.
Proof.
  revert changed s e. induction slots as [|slots IH]; intros changed s e H; cbn in H.
  { simplify_eq. auto with wakes. }
  apply bind_Some in H as ([[granted s1] e1] & H1%promote_one_announces & H).
  destruct granted; [|by simplify_eq]. eapply announces_trans; [done|by eapply IH].
Qed.

Lemma promote_announces now s s' e :
  promote P now s = Some (s', e) → announces s s' no_effects e.
Proof.
  unfold promote. intros H.
  apply bind_Some in H as ([[r1 s1] e1] & H1%terminalize_announces & H).
  apply bind_Some in H as ([[[c2 b2] s2] e2] & H2%promote_loop_announces & H).
  apply bind_Some in H as ([[r3 s3] e3] & H3 & H). simplify_eq.
  assert (announces s2 s3 e2 e3) as H3'.
  { destruct c2; [|simplify_eq; auto with wakes].
    apply bind_Some in H3 as ([[t s4] e4] & H3%terminalize_announces & ?). by simplify_eq. }
  eapply announces_trans; [exact H1|]. eapply announces_trans; [exact H2|].
  destruct H3' as [Hq Hw]. by split.
Qed.

Lemma absorb_promote_announces now s e s' e' :
  absorb_promote P now s e = Some (s', e') → announces s s' e e'.
Proof.
  unfold absorb_promote. intros H. apply bind_Some in H as ([s1 pass] & [Hq Hw]%promote_announces & ?).
  simplify_eq. split; [|intros; apply absorb_elem; by left].
  intros class q w Hin Hk Hx. destruct (Hq class q w Hin Hk Hx) as [?|?]; [by left|right].
  apply absorb_elem. by right.
Qed.

(** ** The fault drain *)

Lemma fault_queue_announces fuel class removed s e removed' s' e' :
  fault_queue fuel class removed s e = (removed', s', e') → announces s s' e e'.
Proof.
  revert removed s e. induction fuel as [|fuel IH]; intros removed s e H; cbn in H.
  { simplify_eq. auto with wakes. }
  destruct (remove_pending class 0 s) as [[r s1]|] eqn:Hrm; [|simplify_eq; auto with wakes].
  eapply announces_trans; [|by eapply IH]. eapply announces_removed; [exact Hrm|].
  destruct (is_child _); by apply same_queues_classes.
Qed.

Lemma fault_class_announces class s e s' e' :
  fault_class P class s e = Some (s', e') → announces s s' e e'.
Proof.
  unfold fault_class. intros H.
  destruct (fault_queue _ _ _ _ _) as [[removed s1] e1] eqn:E. apply fault_queue_announces in E.
  destruct removed; [|by simplify_eq].
  apply bind_Some in H as (policy & _ & H). simplify_eq.
  eapply announces_trans; [exact E|]. apply announces_queues, same_queues_books, on_unserved_removed_books.
Qed.

Lemma fault_classes_announces classes s e s' e' :
  fault_classes P classes s e = Some (s', e') → announces s s' e e'.
Proof.
  revert s e. induction classes as [|class classes IH]; intros s e H; cbn in H.
  { simplify_eq. auto with wakes. }
  apply bind_Some in H as ([s1 e1] & H1%fault_class_announces & H).
  eapply announces_trans; [done|by eapply IH].
Qed.

Lemma fault_all_announces s e s' e' :
  terminalize_queued_for_accounting_fault P s e = Some (s', e') → announces s s' e e'.
Proof.
  unfold terminalize_queued_for_accounting_fault. intros H.
  apply bind_Some in H as ([s1 e1] & H%fault_classes_announces & ?). simplify_eq.
  destruct H as [Hq Hw]. by split.
Qed.

(** ** Release *)

Lemma unwind_announces pid reason s e r s' e' :
  unwind pid reason s e = (r, s', e') → announces s s' e e'.
Proof.
  unfold unwind. intros H. destruct (gs_permits s !! pid) as [record|]; [|simplify_eq; auto with wakes].
  eapply announces_trans; [apply announces_queues, (unwind_charges_queues record pid)|].
  destruct (rec_pending_ticket record); simplify_eq.
  - split; [|intros; apply push_wake_elem; by left].
    intros class q w. rewrite (same_queues_waiting _ _ _ (record_terminal_queues _ _ _)). by left.
  - by eapply announces_retire.
Qed.

Lemma release_reason_announces pid proof reason s e out s' e' :
  release_with_proof_reason pid proof reason s e = (out, s', e') → announces s s' e e'.
Proof.
  unfold release_with_proof_reason. intros H.
  destruct (gs_permits s !! pid); [|simplify_eq; auto with wakes].
  case_decide; [|simplify_eq; auto with wakes].
  destruct (unwind pid reason s e) as [[[x|] s1] e1] eqn:E; apply unwind_announces in E; by simplify_eq.
Qed.

Lemma reap_permits_announces pids n s e n' s' e' :
  reap_permits pids n s e = (n', s', e') → announces s s' e e'.
Proof.
  revert n s e. induction pids as [|pid pids IH]; intros n s e H; cbn in H.
  { simplify_eq. auto with wakes. }
  destruct (unwind pid Reclaimed s e) as [[x s1] e1] eqn:E. apply unwind_announces in E.
  eapply announces_trans; [exact E|by eapply IH].
Qed.
End promotion.

(** ** Admission takes nobody's place *)

Section admission.
Context (P : PolicySet) (now : N) (req : AdmissionRequest) (waker : option Waker) (ids : Ids).
Context (s : GovernedState).
Implicit Types (e : TransitionEffects) (d : AdmissionDecision).

(** Every queue keeps what it holds. *)
Definition queues_grow (s s' : GovernedState) : Prop := ∀ class q, q ∈ waiting s class → q ∈ waiting s' class.

Lemma same_queues_grow s1 s' : same_queues s1 s' → queues_grow s1 s'.
Proof. intros H class q. by rewrite (same_queues_waiting _ _ _ H). Qed.

Lemma refuse_grows v e d s' e' : refuse v waker s e = Some (d, s', e') → queues_grow s s'.
Proof. intros [= <- <- <-]. by apply same_queues_grow. Qed.

Lemma enqueue_or_full_grows policy class block e d s' e' :
  enqueue_or_full policy class req waker ids now block s e = Some (d, s', e') → queues_grow s s'.
Proof.
  unfold enqueue_or_full. case_decide; [apply refuse_grows|].
  pose proof (enqueue_tags_books s class policy (rc_cpu_units (resolve_cost policy)) now) as H0.
  destruct (enqueue_tags _ _ _ _ _) as [tags s0]. cbn [snd] in H0.
  intros Henq. apply bind_Some in Henq as (s1 & He & ?). simplify_eq.
  assert (queues_grow s s1) as Hg.
  { intros k q Hq. rewrite (enqueue_waiting _ _ _ He). unfold upd_queue_of.
    rewrite <-(same_queues_waiting _ _ k (same_queues_books _ _ H0)) in Hq.
    case_decide; [subst k; apply elem_of_app; by left|done]. }
  intros k q Hq. apply Hg in Hq. by destruct (is_child _).
Qed.

Lemma admit_block_grows policy class degrade block e d s' e' :
  (∀ retry_on fallback d s' e', degrade = Some retry_on → retry_on fallback = Some (d, s', e') → queues_grow s s') →
  admit_block policy now req class waker ids degrade block s e = Some (d, s', e') → queues_grow s s'.
Proof.
  intros Hd. unfold admit_block.
  destruct block; try apply enqueue_or_full_grows;
    try (destruct (is_queueable _); [apply enqueue_or_full_grows|apply refuse_grows]).
  - intros [= <- <- <-]. apply same_queues_grow, grant_queues.
  - destruct (memory_overcommit_policy policy), degrade; eauto using enqueue_or_full_grows, refuse_grows.
  - intros [= <- <- <-]. apply same_queues_grow. unfold record_accounting_fault.
    destruct (gs_accounting_fault s); by apply same_queues_classes.
Qed.

Lemma admit_class_grows hops class e d s' e' :
  admit_class hops P now req class waker ids s e = Some (d, s', e') → queues_grow s s'.
Proof.
  revert class e d s' e'. induction hops as [|hops IH]; intros class e d s' e'; cbn [admit_class];
    (destruct (ps_class P class) as [policy|]; [|apply refuse_grows]);
    (destruct (is_disabled policy); [apply refuse_grows|]);
    (destruct (has_operation_identity _ _ _); [apply refuse_grows|]);
    (destruct (is_recursive _ _); [apply refuse_grows|]);
    (destruct (assess _ _ _ _ _ _ _ _) as [|b|w];
       [apply admit_block_grows; naive_solver|apply admit_block_grows; naive_solver|]).
  - destruct (memory_overcommit_policy policy); intros H; apply bind_Some in H as (? & _ & H);
      by eapply refuse_grows.
  - destruct (memory_overcommit_policy policy); [..|destruct (bool_decide _); [eauto|]];
      intros H; apply bind_Some in H as (? & _ & H); by eapply refuse_grows.
Qed.
End admission.

(** ** Critical sections *)

Section sections.
Context (P : PolicySet).

Lemma commit_queues sampled s : same_queues s (commit_time sampled s).2.
Proof. apply same_queues_books, commit_time_books. Qed.

(** Take the clock reading apart: the queues stay. *)
Ltac start sampled s :=
  pose proof (commit_queues sampled s) as Hc; destruct (commit_time sampled s) as [now s1]; cbn [snd] in Hc.
Ltac chain H := eapply announces_trans; [by apply announces_queues, H|].

Lemma admit_section_announces X sampled req waker ids s d s' e :
  admit_section P sampled req waker ids s = Some (d, s', e) → announces X s s' no_effects e.
Proof.
  unfold admit_section. start sampled s. intros H. split; [|by intros w ?%elem_of_nil].
  intros class q w Hq _ _. left. rewrite <-(same_queues_waiting _ _ _ Hc) in Hq. revert Hq.
  unfold admit_request in H. destruct (gs_admission_closed s1); [by eapply refuse_grows|].
  by eapply admit_class_grows.
Qed.

Lemma admit_compensate_announces X sampled pid s s' e :
  admit_compensate_section P sampled pid s = Some (s', e) → announces X s s' no_effects e.
Proof.
  unfold admit_compensate_section. start sampled s. intros H. chain Hc.
  destruct (release_with_proof pid None s1 no_effects) as [[out s2] e2] eqn:E.
  apply (release_reason_announces X) in E. destruct out; [|by simplify_eq..].
  eapply announces_trans; [exact E|by eapply absorb_promote_announces].
Qed.

Lemma claim_begin_announces X sampled t s out s' e :
  claim_begin_section sampled t s = (out, s', e) → announces X s s' no_effects e.
Proof.
  unfold claim_begin_section. start sampled s. intros H. chain Hc.
  assert (same_queues s1 (forget_terminal_ticket t s1)) as Hf by apply forget_terminal_queues.
  destruct (gs_tickets s1 !! t) as [[| pid| | |]|]; simplify_eq; auto with wakes.
  destruct (gs_permits s1 !! pid); simplify_eq; [|auto with wakes].
  eapply announces_retire; [done|]. by apply same_queues_classes.
Qed.

Lemma claim_compensate_announces X sampled t pid s s' e :
  claim_compensate_section P sampled t pid s = Some (s', e) → announces X s s' no_effects e.
Proof.
  unfold claim_compensate_section. start sampled s. intros H. chain Hc.
  destruct (gs_tickets s1 !! t) as [[]|]; try (simplify_eq; auto with wakes; fail).
  destruct (release_with_proof_reason pid None ClaimDeliveryFailed s1 no_effects) as [[out s2] e2] eqn:E.
  apply (release_reason_announces X) in E. eapply announces_trans; [exact E|]. destruct out; simplify_eq.
  - by eapply absorb_promote_announces.
  - apply announces_queues, record_terminal_queues.
  - apply announces_queues. etransitivity; [|apply record_terminal_queues]. by apply same_queues_classes.
Qed.

Lemma claim_finish_announces X sampled t s out s' :
  claim_finish_section sampled t s = (out, s') → announces X s s' no_effects no_effects.
Proof.
  unfold claim_finish_section. start sampled s. intros H. chain Hc. apply announces_queues.
  destruct (gs_tickets s1 !! t) as [[| |pid| |]|]; simplify_eq; try done; try apply forget_terminal_queues.
  destruct (gs_permits s1 !! pid); simplify_eq; [by apply same_queues_classes|apply record_terminal_queues].
Qed.

(** The abandon of a ticket: only its own request leaves silently. *)
Lemma abandon_queued_announces now class t s out s' e :
  abandon_queued P now class t s = Some (out, s', e) → announces (λ t', t' = t) s s' no_effects e.
Proof.
  unfold abandon_queued. intros H. apply bind_Some in H as ([[guard s2] e2] & H1 & H).
  apply bind_Some in H as (policy & _ & H). apply bind_Some in H as ([s4 e4] & H4 & ?). simplify_eq.
  eapply absorb_promote_announces in H4. eapply announces_trans; [|exact H4].
  assert (announces (λ t', t' = t) s s2 no_effects e2) as H2.
  { destruct (queued_position class t s) as [pos|] eqn:Hpos; [|simplify_eq; auto with wakes].
    apply bind_Some in H1 as ([r s3] & Hrm & ?). simplify_eq.
    split; [|by intros w ?%elem_of_nil]. intros k q w Hq Hw Hx.
    destruct (removed_cases _ _ _ _ _ _ _ Hrm Hq) as [?|[-> ->]]; [by left|]. destruct Hx.
    unfold queued_position in Hpos. apply bind_Some in Hpos as (c & Hc & Hpos).
    apply fmap_Some in Hpos as ([i r'] & Hf & ->). cbn in *.
    apply remove_pending_cases in Hrm as (c' & Hc' & Hi & _). simplify_eq.
    apply find_enum_Some in Hf as (j & -> & Hj & Ht%bool_decide_eq_true & _).
    cbn in Hi. congruence. }
  eapply announces_trans; [exact H2|]. apply announces_queues.
  etransitivity; [|apply same_queues_books, on_unserved_removed_books].
  destruct guard as [[]|]; by apply same_queues_classes.
Qed.

Lemma abandon_section_announces sampled t s out s' e :
  abandon_section P sampled t s = Some (out, s', e) → announces (λ t', t' = t) s s' no_effects e.
Proof.
  unfold abandon_section. start sampled s. intros H. chain Hc.
  assert (∀ pid, match release_with_proof_reason pid None Abandoned s1 no_effects with
    | (ReleaseDone, s, e) =>
      '(s, e) ← absorb_promote P now (forget_terminal_ticket t s) e; Some (AbandonDone, s, e)
    | (ReleaseHeldByLease phase, s, e) => Some (AbandonHeldByLease phase, s, e)
    | (ReleaseUnknownPermit, s, e) => Some (AbandonInvalid, upd_gs_tickets (delete t) s, e)
    end = Some (out, s', e) → announces (λ t', t' = t) s1 s' no_effects e) as Hrel.
  { intros pid H1. destruct (release_with_proof_reason _ _ _ _ _) as [[o s2] e2] eqn:E.
    apply (release_reason_announces (λ t', t' = t)) in E. eapply announces_trans; [exact E|].
    destruct o; simplify_eq; [|auto with wakes|].
    - apply bind_Some in H1 as ([s4 e4] & H4 & ?). simplify_eq.
      eapply announces_trans; [apply announces_queues, forget_terminal_queues|].
      by eapply absorb_promote_announces.
    - apply announces_queues. by apply same_queues_classes. }
  destruct (gs_tickets s1 !! t) as [[class|pid|pid| |]|]; try (by eapply Hrel);
    [by eapply abandon_queued_announces|simplify_eq..];
    first [done|apply announces_queues, forget_terminal_queues|auto with wakes].
Qed.

Lemma release_section_announces X sampled pid proof s out s' e :
  release_section P sampled pid proof s = Some (out, s', e) → announces X s s' no_effects e.
Proof.
  unfold release_section. start sampled s. intros H. chain Hc.
  destruct (release_with_proof pid proof s1 no_effects) as [[o s2] e2] eqn:E.
  apply (release_reason_announces X) in E. eapply announces_trans; [exact E|].
  destruct o; [|simplify_eq; auto with wakes..].
  apply bind_Some in H as ([s3 e3] & H & ?). simplify_eq. by eapply absorb_promote_announces.
Qed.

Lemma reconcile_section_announces X sampled pid bytes epoch s out s' e :
  reconcile_section P sampled pid bytes epoch s = Some (out, s', e) → announces X s s' no_effects e.
Proof.
  unfold reconcile_section. start sampled s. intros H. chain Hc.
  destruct (gs_permits s1 !! pid) as [r|]; [|simplify_eq; auto with wakes].
  destruct (ps_class P (rec_class r)) as [policy|]; [|simplify_eq; auto with wakes].
  cbv zeta in H. destruct (match epoch with Some _ => _ | None => _ end) as [|sequence];
    [simplify_eq; auto with wakes|].
  destruct (reconcile _ _ _ _ _ _ _) as [o s2] eqn:Er. apply reconcile_queues in Er.
  eapply announces_trans; [by apply announces_queues|].
  destruct o; try (simplify_eq; auto with wakes; fail);
    apply bind_Some in H as ([s3 e3] & H & ?); simplify_eq;
    [by eapply absorb_promote_announces|by eapply fault_all_announces].
Qed.

Lemma stage_release_announces X sampled pid freed sequence s out s' e :
  stage_release_section P sampled pid freed sequence s = Some (out, s', e) →
  announces X s s' no_effects e.
Proof.
  unfold stage_release_section. start sampled s. intros H. chain Hc.
  destruct (gs_permits s1 !! pid) as [r|]; [|simplify_eq; auto with wakes].
  destruct (ps_class P (rec_class r)) as [policy|]; [|simplify_eq; auto with wakes].
  destruct (release_stage_memory _ _ _ _ _ _) as [o s2] eqn:Er. apply release_stage_queues in Er.
  eapply announces_trans; [by apply announces_queues|].
  apply bind_Some in H as ([s3 e3] & H & ?). simplify_eq. by eapply absorb_promote_announces.
Qed.

Lemma reap_section_announces X sampled stale s report s' e :
  reap_section P sampled stale s = Some (report, s', e) → announces X s s' no_effects e.
Proof.
  unfold reap_section, reap_leaks. start sampled s. intros H. chain Hc.
  destruct (reap_permits _ _ _ _) as [[n s2] e2] eqn:E. apply (reap_permits_announces X) in E.
  eapply announces_trans; [exact E|]. apply bind_Some in H as ([s3 e3] & H & ?). simplify_eq.
  by eapply absorb_promote_announces.
Qed.

Lemma continue_section_announces X sampled s s' e :
  continue_section P sampled s = Some (s', e) → announces X s s' no_effects e.
Proof.
  unfold continue_section. start sampled s. intros H. chain Hc. by eapply promote_announces.
Qed.
End sections.

(** A step of any caller, but for the abandon of the request's own ticket. *)
Lemma lstep_announces P authority w a e w' :
  lstep P authority w a e w' → announces (λ t, a = AAbandon t) (w_state w) (w_state w') no_effects e.
Proof.
  intros []; cbn [w_state with_state]; eauto using admit_section_announces, admit_compensate_announces,
    claim_begin_announces, claim_compensate_announces, claim_finish_announces, release_section_announces,
    reconcile_section_announces, stage_release_announces, reap_section_announces, continue_section_announces,
    announces_refl, announces_queues, advance_queues.
  - eapply announces_weaken; [|by eapply abandon_section_announces]. by intros t' ->.
  - apply announces_queues. by apply same_queues_classes.
Qed.
