(* ===== verification/Runs.v ===== *)
(** * Executable runs

    A step of System.v as a function of a label, so that a run can be evaluated,
    and a small policy with a run through queueing, promotion, claiming, dispatch,
    reconciliation and release that the theorems are instantiated at. *)

From S2P Require Import Prelude Contract Text Kernel PolicyCheck Requirements State Assess Fairness.
From S2P Require Import Admission Memory Governor Policies Books Custody Ledger Invariant Sections.
From S2P Require Import System.

(** ** Labels *)

Inductive Label :=
  | LFresh
  | LAdmit (sampled : N) (spec : TaskSpec) (waker : option Waker)
  | LClaimBegin (sampled : N) (t : Ticket)
  | LClaimFinish (sampled : N) (t : Ticket)
  | LAbandon (sampled : N) (t : Ticket)
  | LRelease (sampled : N) (pid : PermitId) (proof : option N)
  | LAdvance (pid : PermitId) (phase : ExecutionPhase)
  | LReconcile (sampled : N) (pid : PermitId) (bytes : N)
  | LStageRelease (sampled : N) (pid : PermitId) (freed : N)
  | LReap (sampled stale : N)
  | LContinue (sampled : N)
  | LClose.

Definition exec (P : PolicySet) (authority : N) (l : Label) (w : World) : option World :=
  match l with
  | LFresh =>
    match fresh_ids authority (w_counters w) with
    | (Some ids, k) =>
      Some (mkWorld (w_state w) k (ids :: w_outstanding w) (w_claims w) (w_nonces w))
    | (None, k) => Some (mkWorld (w_state w) k (w_outstanding w) (w_claims w) (w_nonces w))
    end
  | LAdmit sampled spec waker =>
    match w_outstanding w, declared_pools P (ts_stages spec) with
    | ids :: out, Some pools =>
      match from_resolved pools with
      | inr caps =>
        '(_, s, _) ← admit_section P sampled (mkRequest spec caps) waker ids (w_state w);
        Some (mkWorld s (w_counters w) out (w_claims w) (w_nonces w))
      | inl _ => None
      end
    | _, _ => None
    end
  | LClaimBegin sampled t =>
    let '(out, s, _) := claim_begin_section sampled t (w_state w) in
    Some (mkWorld s (w_counters w) (w_outstanding w) (begun t out (w_claims w)) (w_nonces w))
  | LClaimFinish sampled t =>
    Some (with_state (claim_finish_section sampled t (w_state w)).2 w)
  | LAbandon sampled t =>
    '(_, s, _) ← abandon_section P sampled t (w_state w); Some (with_state s w)
  | LRelease sampled pid proof =>
    '(_, s, _) ← release_section P sampled pid proof (w_state w); Some (with_state s w)
  | LAdvance pid phase =>
    let '(_, nonces, s) := advance_phase pid phase (w_nonces w) (w_state w) in
    Some (mkWorld s (w_counters w) (w_outstanding w) (w_claims w) nonces)
  | LReconcile sampled pid bytes =>
    '(_, s, _) ← reconcile_section P sampled pid bytes None (w_state w); Some (with_state s w)
  | LStageRelease sampled pid freed =>
    '(_, s, _) ← stage_release_section P sampled pid freed None (w_state w); Some (with_state s w)
  | LReap sampled stale =>
    '(_, s, _) ← reap_section P sampled stale (w_state w); Some (with_state s w)
  | LContinue sampled => '(s, _) ← continue_section P sampled (w_state w); Some (with_state s w)
  | LClose => Some (with_state (close_admission (w_state w)) w)
  end.

(** A label is a step, a measurement only if it says so. *)
Definition measures (l : Label) : bool := if l is LReconcile _ _ _ then true else false.

Lemma exec_lstep P authority l w w' :
  exec P authority l w = Some w' →
  ∃ a e, lstep P authority w a e w' ∧ (measures l = false → ∀ pid, a ≠ AReconcile pid).
Proof.
  destruct l; cbn [exec measures]; intros H.
  - destruct (fresh_ids _ _) as [[ids|] k] eqn:E; simplify_eq; eexists _, _; split;
      [by apply step_fresh|done|by apply step_exhausted|done].
  - destruct (w_outstanding w) as [|ids out] eqn:Eo; [done|].
    destruct (declared_pools _ _) as [pools|]; [|done].
    destruct (from_resolved pools) as [|caps] eqn:Er; [done|].
    apply bind_Some in H as ([[d s] e] & H & ?). simplify_eq. eexists _, _. split;
      [eapply (step_admit _ _ _ _ (mkRequest spec caps) pools); [by rewrite Eo|exact Er|exact H]|done].
  - destruct (claim_begin_section _ _ _) as [[out s] e] eqn:E. simplify_eq.
    eexists _, _. split; [by eapply step_claim_begin|done].
  - simplify_eq. destruct (claim_finish_section _ _ _) as [out s] eqn:E.
    eexists _, _. split; [by eapply step_claim_finish|done].
  - apply bind_Some in H as ([[o s] e] & H & ?). simplify_eq.
    eexists _, _. split; [by eapply step_abandon|done].
  - apply bind_Some in H as ([[o s] e] & H & ?). simplify_eq.
    eexists _, _. split; [by eapply step_release|done].
  - destruct (advance_phase _ _ _ _) as [[out nonces] s] eqn:E. simplify_eq.
    eexists _, _. split; [by eapply step_advance|done].
  - apply bind_Some in H as ([[o s] e] & H & ?). simplify_eq.
    eexists _, _. split; [by eapply step_reconcile|done].
  - apply bind_Some in H as ([[o s] e] & H & ?). simplify_eq.
    eexists _, _. split; [by eapply step_stage_release|done].
  - apply bind_Some in H as ([[o s] e] & H & ?). simplify_eq.
    eexists _, _. split; [by eapply step_reap|done].
  - apply bind_Some in H as ([s e] & H & ?). simplify_eq.
    eexists _, _. split; [by eapply step_continue|done].
  - simplify_eq. eexists _, _. split; [by apply step_close|done].
Qed.

Lemma exec_sound P authority l w w' : exec P authority l w = Some w' → wstep P authority w w'.
Proof. intros (a & e & H & _)%exec_lstep. by eapply lstep_wstep. Qed.

#[export] Instance room_dec n s : Decision (room n s).
Proof. unfold room. apply _. Defined.

(** A run, stopping where the room of [reachable] runs out. *)
Fixpoint run (P : PolicySet) (authority : N) (ls : list Label) (w : World) : option World :=
  match ls with
  | [] => Some w
  | l :: ls' =>
    if decide (room (N.of_nat PROMOTION_BUDGET) (w_state w)) then
      w' ← exec P authority l w; run P authority ls' w'
    else None
  end.

Lemma run_reachable P authority ls w w' :
  reachable P authority w → run P authority ls w = Some w' → reachable P authority w'.
Proof.
  revert w. induction ls as [|l ls IH]; intros w Hw; cbn; [by intros [= <-]|].
  case_decide; [|done]. intros (w1 & H1 & H2)%bind_Some. eapply IH; [|done].
  eapply reachable_step; [done..|]. by eapply exec_sound.
Qed.

(** ** A small policy *)

Local Open Scope string_scope.

Definition demo_class (quantum : N) : ClassPolicy := {|
  max_inflight := 2; max_queue_depth := 3; permit_cost := mkPermitCost 1 2;
  fairness := DeficitRoundRobin quantum; memory_permit_mode := Hybrid;
  memory_release_policy := LeakDetecting; memory_overcommit_policy := OvercommitQueue;
  overflow_policy := QueueWithinDepth; retry_after_policy := Adaptive;
  cancellation_policy := PreSubmitOnly; checkpoint_policy := CheckpointPolicy_default;
  best_effort := false |}.

(** Two classes over one unit of CPU: whatever is admitted first makes the rest
    wait. *)
Definition demo_policy : PolicySet :=
  match PolicySet_new 7 (mkResourceBudget 1 100 0 0 (mkMemoryUnitScale 10))
          {["ingest" := demo_class 1; "query" := demo_class 2]} with
  | Some P => P
  | None => mkPolicySet ResourceBudget_new ∅ ∅ ∅ 0
  end.

Definition demo_task (class op : string) : TaskSpec :=
  with_operation op (task_base class SharedCpuExecutor).

(** One permit runs, one ticket is promoted and claimed, one waits. *)
Definition demo_labels : list Label := [
  LFresh; LFresh; LFresh;
  LAdmit 10 (demo_task "ingest" "a") None;
  LAdmit 11 (demo_task "query" "b") (Some 7);
  LAdmit 12 (demo_task "ingest" "c") (Some 8);
  LAdvance (mkPermitId 1 3) Accepted;
  LReconcile 14 (mkPermitId 1 3) 35;
  LAdvance (mkPermitId 1 3) Running;
  LRelease 20 (mkPermitId 1 3) (Some 1);
  LClaimBegin 21 (mkTicket 1 1)].

Definition demo_world : World := default World_initial (run demo_policy 1 demo_labels World_initial).

Lemma demo_reachable : reachable demo_policy 1 demo_world.
Proof.
  apply (run_reachable demo_policy 1 demo_labels World_initial); [constructor|].
  vm_compute. reflexivity.
Qed.

Lemma demo_class_typed (quantum : N) : (quantum ≤ U32_MAX)%N → policy_typed (demo_class quantum).
Proof. intros. split; cbn; ulia. Qed.

(** The demonstration policy is valid, so its tasks resolve. *)
Lemma demo_wf : policy_wf demo_policy.
Proof. apply validate_policy_inr. vm_compute. reflexivity. Qed.

Lemma demo_typed : policies_typed demo_policy.
Proof.
  intros class policy. unfold ps_class.
  assert (ps_classes demo_policy = {["ingest" := demo_class 1; "query" := demo_class 2]}) as ->
    by (vm_compute; reflexivity).
  intros [[_ <-]|[_ [_ <-]%lookup_singleton_Some]]%lookup_insert_Some;
    apply demo_class_typed; ulia.
Qed.
