(* ===== verification/Fifo.v ===== *)
(** * First in, first out, per domain

    Requests of one class that share a capability, or both need none, are served
    in arrival order; requests of different domains may pass each other.  The
    index lookups that enforce it are exact in every run. *)

From S2P Require Import Prelude Contract Text Kernel Requirements State Assess Fairness Admission.
From S2P Require Import Memory Governor Books Custody Ledger Moves Reads Invariant Steps Selection.
From S2P Require Import Sections Lifecycle Trace System Queues Runs.

(** ** The lookups against the scan *)

Lemma first_before_true X bound :
  ClassState.first_before X bound = true ↔ ∃ o, o ∈ X ∧ o < bound.
Proof.
  unfold ClassState.first_before. destruct (btree_set_first X) as [o|] eqn:E.
  - apply btree_set_first_Some in E as [Ho Hmin]. rewrite bool_decide_eq_true. split.
    + intros. by exists o.
    + intros (o' & Ho' & Hlt). assert (o ≤ o') by exact (Hmin o' Ho'). lia.
  - apply btree_set_first_None in E as ->. split; [done|]. intros (o & Ho & _). set_solver.
Qed.

(** A lookup in the capability index, for any test of an arrival set. *)
Lemma indexed_exists (f : gset N → bool) (Q : N → Prop) m caps :
  (∀ X, f X = true ↔ ∃ o, o ∈ X ∧ Q o) →
  existsb (λ id, match m !! id with Some X => f X | None => false end) caps = true ↔
  ∃ id o, id ∈ caps ∧ indexed m id o ∧ Q o.
Proof.
  intros Hf. rewrite existsb_exists. setoid_rewrite <-list_elem_of_In. unfold indexed. split.
  - intros (id & Hid & H). destruct (m !! id) as [X|] eqn:E; [|done].
    apply Hf in H as (o & Ho & Hq). exists id, o. split_and!; [done|by exists X|done].
  - intros (id & o & Hid & (X & E & Ho) & Hq). exists id. split; [done|]. rewrite E.
    apply Hf. by exists o.
Qed.

Section class_queue.
Context (bound : N) (c : ClassState).
Let q := map untag (cs_queue c).
Hypothesis Hok : class_queue_ok bound q (cs_queued_ungated c) (cs_queued_by_capability c)
  (cs_queued_awaited_children c).

Lemma predecessor_scan r :
  ClassState.has_queued_predecessor c r = true ↔
  ∃ r', r' ∈ q ∧ pr_queue_order r' < pr_queue_order r ∧
        shares_domain (pr_capabilities r') (pr_capabilities r).
Proof.
  unfold ClassState.has_queued_predecessor, shares_domain.
  destruct (crs_is_empty (pr_capabilities r)) eqn:Ec.
  - apply crs_is_empty_true in Ec. rewrite first_before_true, Ec.
    setoid_rewrite (cq_ungated _ _ _ _ _ Hok). split.
    + intros (o & (x & Hx & Hcx & <-) & Hlt). exists x. auto.
    + intros (x & Hx & Hlt & [[Hcx _]|(id & _ & Hid)]); [|by apply not_elem_of_nil in Hid].
      exists (pr_queue_order x). split; [by exists x|done].
  - rewrite (indexed_exists _ (λ o, o < pr_queue_order r)) by (intros; apply first_before_true).
    setoid_rewrite (cq_gated _ _ _ _ _ Hok). split.
    + intros (id & o & Hid & (x & Hx & Hix & <-) & Hlt). exists x. split_and!; [done..|].
      right. by exists id.
    + intros (x & Hx & Hlt & [[_ Hcr]|(id & Hix & Hid)]); [by rewrite Hcr in Ec|].
      exists id, (pr_queue_order x). split_and!; [done|by exists x|done].
Qed.

Lemma domain_scan caps :
  ClassState.has_queued_domain c caps = true ↔
  ∃ r', r' ∈ q ∧ shares_domain (pr_capabilities r') caps.
Proof.
  unfold ClassState.has_queued_domain, shares_domain.
  assert (∀ X : gset N, negb (bool_decide (X = ∅)) = true ↔ ∃ o, o ∈ X ∧ True) as Hne.
  { intros X. rewrite negb_true_iff, bool_decide_eq_false. split.
    - intros [o Ho]%set_choose_L. by exists o.
    - intros (o & Ho & _) ->. set_solver. }
  destruct (crs_is_empty caps) eqn:Ec.
  - apply crs_is_empty_true in Ec as ->. rewrite Hne.
    setoid_rewrite (cq_ungated _ _ _ _ _ Hok). split.
    + intros (o & (x & Hx & Hcx & <-) & _). exists x. auto.
    + intros (x & Hx & [[Hcx _]|(id & _ & Hid)]); [|by apply not_elem_of_nil in Hid].
      exists (pr_queue_order x). split; [by exists x|done].
  - rewrite (indexed_exists _ (λ _, True)) by done. setoid_rewrite (cq_gated _ _ _ _ _ Hok). split.
    + intros (id & o & Hid & (x & Hx & Hix & <-) & _). exists x. split; [done|]. right. by exists id.
    + intros (x & Hx & [[_ ->]|(id & Hix & Hid)]); [done|].
      exists id, (pr_queue_order x). split_and!; [done|by exists x|done].
Qed.
End class_queue.

Lemma elem_of_waiting s class r :
  r ∈ waiting s class ↔ ∃ r', r = untag r' ∧ r' ∈ cs_queue (class_state s class).
Proof. apply list_elem_of_fmap. Qed.

(** C31: the queue indexes are exact.  In every run, the lookup that decides whether
    a queued request has to wait behind another one of its domain answers like a
    scan of the queue in front of it, and the lookup intake uses to decide whether
    a domain is waited for answers like a scan of the whole queue. *)
Theorem reachable_queue_index P authority w class :
  policies_typed P → reachable P authority w →
  let c := class_state (w_state w) class in
  (∀ i r, cs_queue c !! i = Some r →
     ClassState.has_queued_predecessor c r = true ↔
     ∃ j r', (j < i)%nat ∧ cs_queue c !! j = Some r' ∧
             shares_domain (pr_capabilities r') (pr_capabilities r)) ∧
  (∀ caps, ClassState.has_queued_domain c caps = true ↔
     ∃ r', r' ∈ cs_queue c ∧ shares_domain (pr_capabilities r') caps).
Proof.
  intros Ht Hw c. pose proof (wq_ok _ (reachable_queues P authority Ht w Hw) class) as Hok.
  fold c in Hok. change (waiting (w_state w) class) with (map untag (cs_queue c)) in Hok. split.
  - intros i r Hi. rewrite (predecessor_scan _ c Hok).
    assert (map untag (cs_queue c) !! i = Some (untag r)) as Hi' by (by apply list_lookup_fmap_Some_2).
    split.
    + intros (x & Hx & Hlt & Hs). apply list_elem_of_lookup in Hx as [j Hj].
      pose proof Hj as (r' & -> & Hr')%list_lookup_fmap_Some. exists j, r'. split_and!; [|done..].
      by apply (sorted_lookup_lt _ _ _ _ _ (cq_sorted _ _ _ _ _ Hok) Hj Hi').
    + intros (j & r' & Hlt & Hj & Hs). exists (untag r').
      assert (map untag (cs_queue c) !! j = Some (untag r')) as Hj'
        by (by apply list_lookup_fmap_Some_2).
      split_and!; [by eapply list_elem_of_lookup_2| |done].
      by apply (sorted_lookup_lt _ _ _ _ _ (cq_sorted _ _ _ _ _ Hok) Hj' Hi').
  - intros caps. rewrite (domain_scan _ c Hok). split.
    + intros (x & (r' & -> & Hr')%list_elem_of_fmap & Hs). by exists r'.
    + intros (r' & Hr' & Hs). exists (untag r'). split; [|done]. by apply list_elem_of_fmap_2.
Qed.
