(* ===== verification/Consistency.v ===== *)
(** * Reachable states are consistent

    The properties of every run: the debug oracle never fires, no limit is
    exceeded, no ticket is lost or shared, no identity is issued twice. *)

From S2P Require Import Prelude Contract Text Kernel Requirements State Assess Fairness Admission.
From S2P Require Import Memory Governor Books Custody Ledger Moves Reads Invariant Steps Selection.
From S2P Require Import Sections Lifecycle System Runs.

(** ** Tables of classes *)

(** Entries that show what their classes hold show all there is, when no class is
    missing. *)
Lemma entries_total {X} (l : list (TaskClass * X)) (read : X → N) (weight : PermitRecord → N)
    (m : gmap PermitId PermitRecord) :
  NoDup l.*1 →
  (∀ class x, (class, x) ∈ l → read x = msum (λ r, when (in_class class r) (weight r)) m) →
  (∀ pid r, m !! pid = Some r → rec_class r ∈ l.*1) →
  lsum (λ p, read p.2) l = msum weight m.
Proof.
  intros Hnd Hread Hall. rewrite <-(msum_partition weight rec_class m l.*1) by done. clear Hnd Hall.
  induction l as [|[class x] l IH]; [done|]. cbn [lsum fmap list_fmap fst snd].
  rewrite IH by (intros; apply Hread; by right). f_equal. rewrite (Hread class) by (by left).
  apply msum_ext. intros k r _. unfold in_class, when. by case_bool_decide; case_decide.
Qed.

(** ** From the invariant to the oracle *)

Section oracle.
Context {P : PolicySet} {B : N} {s : GovernedState} (HI : Inv P B s).

Let HL : ledger_ok s := books_ledger _ _ (inv_books _ _ _ HI).

(** A per-class total summed over the class table is the global total. *)
Lemma class_totals (read : ClassState → N) (weight : PermitRecord → N) :
  (∀ class, read (class_state s class) =
            msum (λ r, when (in_class class r) (weight r)) (gs_permits s)) →
  msum read (gs_classes s) = msum weight (gs_permits s).
Proof.
  intros Hread. rewrite msum_lsum. apply entries_total.
  - apply NoDup_fst_map_to_list.
  - intros class c Hc%elem_of_map_to_list. by rewrite <-Hread, (class_state_Some _ _ _ Hc).
  - intros pid r Hr. destruct (live_class s pid r HL Hr) as [c Hc].
    apply list_elem_of_fmap. exists (rec_class r, c). split; [done|]. by apply elem_of_map_to_list.
Qed.

Lemma oracle_classes class c :
  gs_classes s !! class = Some c →
  cs_inflight c = msum (permit_weight_class class) (gs_permits s) ∧
  cs_inflight c =
    cs_dispatch_reserved c + cs_accepted c + cs_running c + cs_cleanup_pending c ∧
  cs_admitted_total c = cs_inflight c + cs_terminated_total c.
Proof.
  intros Hc. rewrite <-(class_state_Some _ _ _ Hc). split_and!.
  - etransitivity; [apply (HL (GInflight class))|]. apply msum_ext. intros k r _.
    unfold permit_weight_class. cbn. unfold in_class, when. by case_bool_decide; case_decide.
  - apply (phase_partition s class HL).
  - apply (books_counters _ _ (inv_books _ _ _ HI)).
Qed.

Lemma Inv_assert_consistent : assert_consistent s = true.
Proof.
  unfold assert_consistent. rewrite !andb_true_iff, !forallb_forall, !bool_decide_eq_true.
  split_and!.
  - rewrite (class_totals _ (λ r, pl_cpu_units (rec_ledger r))); [symmetry; apply (HL GCpu)|].
    intros class. apply (HL (GClassCpu class)).
  - rewrite (class_totals _ (λ r, pl_effective_units (rec_ledger r)));
      [symmetry; apply (HL GMemory)|]. intros class. apply (HL (GClassMemory class)).
  - intros r Hr. apply list_elem_of_In in Hr. unfold btree_values in Hr.
    apply list_elem_of_fmap in Hr as ([pid r'] & -> & Hr). apply elem_of_btree_to_list in Hr.
    apply bool_decide_eq_true, (books_permits_ok _ _ (inv_books _ _ _ HI) pid r' Hr).
  - symmetry. apply (HL GCpu).
  - symmetry. apply (HL GMemory).
  - intros [class c] Hc. apply list_elem_of_In, elem_of_btree_to_list in Hc.
    destruct (oracle_classes class c Hc) as (E1 & E2 & E3).
    rewrite !andb_true_iff, !bool_decide_eq_true. done.
  - intros [id n] Hn. apply list_elem_of_In, elem_of_btree_to_list in Hn.
    apply bool_decide_eq_true. pose proof (HL (GCapability id)) as E. cbn in E.
    unfold capability_in_use in E. by rewrite Hn in E.
  - intros st Hst. apply list_elem_of_In in Hst. unfold btree_values in Hst.
    apply list_elem_of_fmap in Hst as ([t st'] & -> & Ht). apply elem_of_btree_to_list in Ht.
    cbn. destruct (ticket_permit st') as [pid|] eqn:E; [|done].
    apply bool_decide_eq_true.
    destruct (proj1 (custody_live _ _ (inv_custody _ _ _ HI) t pid)) as (r & Hr & _);
      [|by eexists]. unfold custody. rewrite Ht. destruct st'; naive_solver.
Qed.
End oracle.

(** ** Every run *)

Lemma reachable_inv P authority w :
  policies_typed P → reachable P authority w → ∃ B, Inv P B (w_state w) ∧ B ≤ U64_MAX.
Proof.
  intros Ht Hw. destruct (world_inv _ _ (reachable_ok P authority Ht w Hw)) as (B & ? & ? & ?).
  exists B. split; [done|lia].
Qed.

(** C2: in every state an interleaving of public calls reaches, every total the
    engine maintains incrementally (global, per class, per phase, per capability)
    equals its recomputation from the live permits, leases exist exactly past
    reservation, and granted tickets point to live permits: the debug oracle
    [assert_consistent] holds. *)
Theorem reachable_consistent P authority w :
  policies_typed P → reachable P authority w → assert_consistent (w_state w) = true.
Proof.
  intros Ht Hw. destruct (reachable_inv P authority w Ht Hw) as (B & HI & _).
  by eapply Inv_assert_consistent.
Qed.

Lemma reachable_consistent_witness :
  size (gs_permits (w_state demo_world)) = 1%nat ∧ assert_consistent (w_state demo_world) = true.
Proof.
  split; [vm_compute; reflexivity|].
  exact (reachable_consistent demo_policy 1 demo_world demo_typed demo_reachable).
Defined.

(** C3: no run exceeds a declared limit.  Counting the live permits themselves, a
    class never has more than [max_inflight], a bounded capability never more
    holders than its limit, and their CPU units never exceed the budget. *)
Theorem reachable_within_limits P authority w :
  policies_typed P → reachable P authority w →
  (∀ class policy, ps_class P class = Some policy →
     msum (permit_weight_class class) (gs_permits (w_state w)) ≤ max_inflight policy) ∧
  (∀ id r limit, capability_record P id = Some r → cr_capacity r = Bounded limit → limit ≠ 0 →
     msum (capability_count id) (gs_permits (w_state w)) ≤ limit) ∧
  (max_cpu_units (ps_resources P) ≠ 0 →
     msum (λ r, pl_cpu_units (rec_ledger r)) (gs_permits (w_state w))
       ≤ max_cpu_units (ps_resources P)).
Proof.
  intros Ht Hw. destruct (reachable_inv P authority w Ht Hw) as (B & [[HL _ _] _ HK] & _).
  split_and!.
  - intros class policy Hp. pose proof (capacity_inflight _ _ HK class policy Hp) as H.
    rewrite HL in H. erewrite msum_ext; [exact H|]. intros k r _.
    unfold permit_weight_class. cbn. unfold in_class, when. by case_bool_decide; case_decide.
  - intros id r limit Hr Hl Hne. pose proof (capacity_pool _ _ HK id r Hr) as H.
    rewrite Hl, HL in H. by apply H.
  - intros Hm. pose proof (capacity_cpu _ _ HK Hm) as H. by rewrite HL in H.
Qed.

Lemma reachable_within_limits_witness :
  msum (λ r, pl_cpu_units (rec_ledger r)) (gs_permits (w_state demo_world)) ≤ 1.
Proof.
  apply (reachable_within_limits demo_policy 1 demo_world demo_typed demo_reachable).
  vm_compute. discriminate.
Defined.

(** C13: in every run a ticket is in exactly one place.  A granted or claiming
    ticket is bound to one live permit, which is the only one that names it, no other
    ticket is bound to that permit, and it is in no queue; a queued ticket is at exactly
    one index of exactly one class queue, its reserved permit identity is not live yet,
    and no live permit names it; any other ticket, settled or unknown, is in no queue and
    named by no live permit. *)
Theorem reachable_tickets P authority w t :
  policies_typed P → reachable P authority w →
  let s := w_state w in
  let nowhere := ∀ class r, r ∈ cs_queue (class_state s class) → pr_ticket r ≠ t in
  let unnamed := ∀ pid r, gs_permits s !! pid = Some r → rec_pending_ticket r ≠ Some t in
  match gs_tickets s !! t with
  | Some (TGranted pid) | Some (TClaiming pid) =>
    (∃ r, gs_permits s !! pid = Some r ∧ rec_pending_ticket r = Some t) ∧
    (∀ pid' r', gs_permits s !! pid' = Some r' → rec_pending_ticket r' = Some t → pid' = pid) ∧
    (∀ t' st, gs_tickets s !! t' = Some st → ticket_permit st = Some pid → t' = t) ∧
    nowhere
  | Some (TQueued class) =>
    (∃ i r, cs_queue (class_state s class) !! i = Some r ∧ pr_ticket r = t ∧ pr_class r = class ∧
      gs_permits s !! pr_permit_id r = None ∧
      ∀ class' j r', cs_queue (class_state s class') !! j = Some r' → pr_ticket r' = t →
        class' = class ∧ j = i) ∧
    unnamed
  | _ => nowhere ∧ unnamed
  end.
Proof.
  intros Ht Hw s. destruct (reachable_inv P authority w Ht Hw) as (B & [_ HC _] & _). fold s in HC.
  cbv zeta.
  assert (∀ class i r, cs_queue (class_state s class) !! i = Some r →
            waiting s class !! i = Some (untag r)) as Hlk.
  { intros class i r Hi. by apply list_lookup_fmap_Some_2. }
  assert (∀ class r, r ∈ cs_queue (class_state s class) →
            custody s (pr_ticket r) = Some (Waits class)) as Hwt.
  { intros class r [i Hi]%list_elem_of_lookup. apply HC.
    change (pr_ticket r) with (pr_ticket (untag r)).
    by eapply list_elem_of_fmap_2, list_elem_of_lookup_2, Hlk. }
  assert (∀ pid r, gs_permits s !! pid = Some r → rec_pending_ticket r = Some t →
            custody s t = Some (Holds pid)) as Hnamed by (intros; apply HC; eauto).
  assert ((∀ class, custody s t ≠ Some (Waits class)) →
    ∀ class r, r ∈ cs_queue (class_state s class) → pr_ticket r ≠ t) as Hnowhere
    by (intros H class r Hr <-; by eapply H, Hwt).
  assert ((∀ pid, custody s t ≠ Some (Holds pid)) →
    ∀ pid r, gs_permits s !! pid = Some r → rec_pending_ticket r ≠ Some t) as Hunnamed
    by (intros H pid r Hr E; by eapply H, Hnamed).
  assert (∀ pid, custody s t = Some (Holds pid) →
    (∃ r, gs_permits s !! pid = Some r ∧ rec_pending_ticket r = Some t) ∧
    (∀ pid' r', gs_permits s !! pid' = Some r' → rec_pending_ticket r' = Some t → pid' = pid) ∧
    (∀ t' st, gs_tickets s !! t' = Some st → ticket_permit st = Some pid → t' = t) ∧
    ∀ class r, r ∈ cs_queue (class_state s class) → pr_ticket r ≠ t) as Hheld.
  { intros pid Hcu. pose proof Hcu as (r & Hr & Hrt)%(custody_live _ _ HC). split_and!.
    - by exists r.
    - intros pid' r' Hr' E. specialize (Hnamed pid' r' Hr' E). congruence.
    - intros t' st Ht' Hst.
      assert (custody s t' = Some (Holds pid)) as (r' & ? & ?)%(custody_live _ _ HC); [|congruence].
      unfold custody. rewrite Ht'. destruct st; naive_solver.
    - apply Hnowhere. congruence. }
  destruct (gs_tickets s !! t) as [[class|pid|pid|reason|]|] eqn:E;
    try (apply Hheld; unfold custody; by rewrite E);
    try (split; [apply Hnowhere|apply Hunnamed]; unfold custody; by rewrite E).
  assert (custody s t = Some (Waits class)) as Hcu by (unfold custody; by rewrite E).
  split; [|apply Hunnamed; congruence].
  pose proof Hcu as (q & -> & [i Hi]%list_elem_of_lookup)%(custody_queued _ _ HC)%list_elem_of_fmap.
  pose proof Hi as Hi'. apply list_lookup_fmap_Some in Hi' as (r & -> & Hr).
  exists i, r. split_and!; [done|done| | |].
  - apply (request_class _ _ _ (custody_request _ _ HC class _ (list_elem_of_lookup_2 _ _ _ Hi))).
  - apply (custody_fresh _ _ HC class _ (list_elem_of_lookup_2 _ _ _ Hi)).
  - intros class' j r' Hj Et. pose proof (Hwt class' r' (list_elem_of_lookup_2 _ _ _ Hj)) as H.
    rewrite Et in H. change (pr_ticket r) with (pr_ticket (untag r)) in H.
    assert (class' = class) as -> by congruence. split; [done|].
    eapply (NoDup_lookup _ _ _ _ (custody_nodup _ _ HC class));
      rewrite list_lookup_fmap; [rewrite (Hlk _ _ _ Hj)|rewrite Hi]; cbn; [|done].
    f_equal. exact Et.
Qed.

Lemma reachable_tickets_witness :
  (∃ r, gs_permits (w_state demo_world) !! mkPermitId 1 1 = Some r ∧
        rec_pending_ticket r = Some (mkTicket 1 1)) ∧
  ∀ class r, r ∈ cs_queue (class_state (w_state demo_world) class) → pr_ticket r ≠ mkTicket 1 1.
Proof.
  pose proof (reachable_tickets demo_policy 1 demo_world (mkTicket 1 1) demo_typed
    demo_reachable) as H. cbv zeta in H.
  assert (gs_tickets (w_state demo_world) !! mkTicket 1 1 = Some (TClaiming (mkPermitId 1 1))) as E
    by (vm_compute; reflexivity).
  rewrite E in H. destruct H as (H1 & _ & _ & H2). exact (conj H1 H2).
Defined.

(** C21: an identity is issued once.  Whatever [fresh_ids] hands out next is neither
    live, nor reserved by a queued request, nor known as a ticket, nor held by a
    caller that has not used its own identities yet. *)
Theorem reachable_identities_fresh P authority w ids k :
  policies_typed P → reachable P authority w →
  fresh_ids authority (w_counters w) = (Some ids, k) →
  ids_fresh (w_state w) ids ∧
  (∀ other, other ∈ w_outstanding w →
     id_permit other ≠ id_permit ids ∧ id_ticket other ≠ id_ticket ids).
Proof.
  intros Ht Hw Hf. pose proof (reachable_ok P authority Ht w Hw) as Hok.
  pose proof (world_fresh_ids P authority w ids k Hok Hf) as [_ _ _ Hnew Hp Hti _].
  cbn in Hnew, Hp, Hti. destruct (Hnew ids) as (F1 & F2 & _); [by left|].
  apply NoDup_cons in Hp as [Hp _]. apply NoDup_cons in Hti as [Hti _]. split.
  - split; [|done|].
    + apply eq_None_not_Some. intros H. apply F1. by left.
    + intros class q Hq E. apply F1. right. by exists class, q.
  - intros other Ho. split; intros E; [apply Hp|apply Hti]; rewrite <-E;
      by apply list_elem_of_fmap_2.
Qed.

Lemma reachable_identities_fresh_witness :
  ids_fresh (w_state demo_world) (mkIds (mkPermitId 1 4) (mkTicket 1 4) 4).
Proof.
  refine (proj1 (reachable_identities_fresh demo_policy 1 demo_world
    (mkIds (mkPermitId 1 4) (mkTicket 1 4) 4) (mkCounters 5 5 5) demo_typed demo_reachable _)).
  vm_compute. reflexivity.
Defined.
