(* ===== verification/Cycles.v ===== *)
(** * Wait cycles

    A request that waits for a capacity its own awaited ancestors hold entirely can
    never be served: the ancestors wait for it.  The resolver walks the chain of
    awaited ancestors and compares what they hold with the totals.  The walk ends
    within its fuel, and a reported cycle is real: every live permit that takes part
    of the capacity named is on the chain. *)

From S2P Require Import Prelude Contract Text Kernel Requirements State Assess Fairness Admission.
From S2P Require Import Memory Governor Books Custody Ledger Moves Reads Invariant Steps Selection.
From S2P Require Import Sections Lifecycle Trace System Runs Consistency.

(** ** The chain *)

(** The awaited ancestors from a permit on: each is live and new, and leads to the
    parent it waits under. *)
Inductive wait_chain (s : GovernedState) : gset PermitId → PermitId → list PermitId → Prop :=
  | chain_cut visited pid :
      pid ∈ visited ∨ gs_permits s !! pid = None → wait_chain s visited pid []
  | chain_last visited pid r :
      pid ∉ visited → gs_permits s !! pid = Some r →
      is_awaited_child (rec_scope r) = false ∨ rec_parent_permit_id r = None →
      wait_chain s visited pid [pid]
  | chain_next visited pid r next l :
      pid ∉ visited → gs_permits s !! pid = Some r →
      is_awaited_child (rec_scope r) = true → rec_parent_permit_id r = Some next →
      wait_chain s ({[pid]} ∪ visited) next l → wait_chain s visited pid (pid :: l).

Lemma wait_chain_nodup s visited pid l :
  wait_chain s visited pid l →
  NoDup l ∧ ∀ x, x ∈ l → x ∉ visited ∧ is_Some (gs_permits s !! x).
Proof.
  induction 1 as [visited pid H|visited pid r Hv Hr _|visited pid r next l Hv Hr _ _ _ [IH1 IH2]].
  - split; [constructor|]. intros x Hx. by apply not_elem_of_nil in Hx.
  - split; [apply NoDup_singleton|]. intros x ->%list_elem_of_singleton. eauto.
  - split.
    + apply NoDup_cons. split; [|done]. intros Hin. apply IH2 in Hin as [Hin _]. set_solver.
    + intros x [->|Hx]%elem_of_cons; [eauto|]. apply IH2 in Hx as [Hx ?]. set_solver.
Qed.

(** What a chain adds up to. *)
Definition chain_total (class : TaskClass) (s : GovernedState) (l : list PermitId) (ch : Chain)
  : Chain :=
  foldl (λ ch pid, match gs_permits s !! pid with Some r => chain_add class r ch | None => ch end)
    ch l.

(** The walk computes the chain's totals, and its fuel is enough. *)
Lemma walk_chain_total fuel s class visited observed ancestor ch :
  (size (dom (gs_permits s) ∖ visited) < fuel)%nat →
  ∃ l, wait_chain s visited ancestor l ∧
    (walk_chain fuel s class visited observed ancestor ch = Some (chain_total class s l ch) ∨
     (observed = false ∧ l = [] ∧
      walk_chain fuel s class visited observed ancestor ch = None)).
Proof.
  revert visited observed ancestor ch. induction fuel as [|fuel IH]; [lia|].
  intros visited observed ancestor ch Hf. cbn [walk_chain].
  case_decide as Hv; [exists []; split; [by constructor; left|by left]|].
  destruct (gs_permits s !! ancestor) as [r|] eqn:Hr.
  2: { exists []. split; [by constructor; right|]. destruct observed; [by left|by right]. }
  assert (∀ l ch', chain_total class s (ancestor :: l) ch' = chain_total class s l (chain_add class r ch'))
    as Htot by (intros; unfold chain_total; cbn; by rewrite Hr).
  destruct (is_awaited_child (rec_scope r)) eqn:Ha.
  2: { exists [ancestor]. split; [eapply chain_last; eauto|left]. by rewrite Htot. }
  destruct (rec_parent_permit_id r) as [next|] eqn:Hn.
  2: { exists [ancestor]. split; [eapply chain_last; eauto|left]. by rewrite Htot. }
  destruct (IH ({[ancestor]} ∪ visited) true next (chain_add class r ch)) as (l & Hl & [E|(? & _)]);
    [|exists (ancestor :: l); split; [by eapply chain_next|left; by rewrite Htot]|done].
  assert (dom (gs_permits s) ∖ ({[ancestor]} ∪ visited) ⊂ dom (gs_permits s) ∖ visited) as Hsub.
  { assert (ancestor ∈ dom (gs_permits s)) by (by apply elem_of_dom). set_solver. }
  apply subset_size in Hsub. lia.
Qed.

(** ** Sums over a chain *)

Definition over_chain (f : PermitRecord → N) (s : GovernedState) (l : list PermitId) : N :=
  lsum (λ pid, match gs_permits s !! pid with Some r => f r | None => 0 end) l.

Lemma chain_total_reads class s l ch :
  let ch' := chain_total class s l ch in
  ch_in_class ch' = ch_in_class ch + over_chain (gauge_weight (GInflight class)) s l ∧
  ch_cpu ch' = ch_cpu ch + over_chain (gauge_weight GCpu) s l ∧
  ch_memory ch' = ch_memory ch + over_chain (gauge_weight GMemory) s l ∧
  ∀ id, default 0 (ch_capabilities ch' !! id) =
    default 0 (ch_capabilities ch !! id) + over_chain (gauge_weight (GCapability id)) s l.
Proof.
  cbv zeta. unfold over_chain. revert ch. induction l as [|pid l IH]; intros ch.
  { cbn. split_and!; intros; lia. }
  unfold chain_total. cbn [foldl lsum].
  destruct (IH (match gs_permits s !! pid with Some r => chain_add class r ch | None => ch end))
    as (E1 & E2 & E3 & E4). unfold chain_total in *. rewrite E1, E2, E3.
  destruct (gs_permits s !! pid) as [r|]; cbn [chain_add ch_in_class ch_cpu ch_memory ch_capabilities].
  - split_and!.
    + cbn. unfold in_class, when. case_decide; case_bool_decide; try done; lia.
    + cbn. lia.
    + cbn. lia.
    + intros id. rewrite E4. cbn [gauge_weight ch_capabilities chain_add].
      assert (∀ caps m, default 0 (foldl chain_capability m caps !! id) =
        default 0 (m !! id) + N.of_nat (length (filter (λ x, x = id) caps))) as Hcap.
      { induction caps as [|a caps IHc]; intros m; cbn [foldl]; [cbn; lia|].
        rewrite IHc, filter_cons. unfold chain_capability. case_decide as Ea.
        - subst a. rewrite lookup_insert_eq. cbn. lia.
        - rewrite lookup_insert_ne by done. lia. }
      rewrite Hcap. unfold capability_count. lia.
  - split_and!; [lia..|]. intros id. rewrite E4. lia.
Qed.

(** A chain that holds a whole total leaves nothing to anyone else. *)
Lemma chain_holds_all f s l pid r :
  NoDup l → over_chain f s l = msum f (gs_permits s) →
  gs_permits s !! pid = Some r → 0 < f r → pid ∈ l.
Proof.
  intros Hnd Hall Hr Hpos. destruct (decide (pid ∈ l)) as [|Hn]; [done|exfalso].
  assert (∀ m, (∀ x, x ∈ l → m !! x = gs_permits s !! x) → m !! pid = Some r →
    over_chain f s l + f r ≤ msum f m) as H; [|specialize (H (gs_permits s) (λ _ _, eq_refl) Hr); lia].
  clear Hall. unfold over_chain. induction l as [|x l IH]; intros m Hm Hp.
  { cbn. pose proof (msum_lookup_le f m pid r Hp). lia. }
  apply not_elem_of_cons in Hn as [Hne Hn]. apply NoDup_cons in Hnd as [Hx Hnd]. cbn.
  assert (∀ y, y ∈ l → delete x m !! y = gs_permits s !! y) as Hm'.
  { intros y Hy. rewrite lookup_delete_ne by (intros ->; done). apply Hm. by right. }
  specialize (IH Hnd Hn (delete x m) Hm'). rewrite lookup_delete_ne in IH by done. specialize (IH Hp).
  rewrite <-(Hm x) by left. destruct (m !! x) as [rx|] eqn:Ex.
  - rewrite (msum_delete f m x rx Ex). lia.
  - rewrite delete_id in IH by done. lia.
Qed.

(** A chain with every permit that takes part holds the whole total. *)
Lemma chain_covers f s l :
  NoDup l → (∀ pid r, gs_permits s !! pid = Some r → 0 < f r → pid ∈ l) →
  over_chain f s l = msum f (gs_permits s).
Proof.
  intros Hnd Hall.
  assert (∀ m, (∀ x, x ∈ l → m !! x = gs_permits s !! x) →
    (∀ pid r, m !! pid = Some r → 0 < f r → pid ∈ l) → over_chain f s l = msum f m) as H by
  (unfold over_chain; clear Hall; induction l as [|x l IH]; intros m Hm Hin; cbn;
    [symmetry; apply msum_zero; intros k r Hk;
     destruct (decide (f r = 0)) as [|Hne]; [done|];
     assert (0 < f r) as Hpos by lia; by apply (Hin k r Hk), not_elem_of_nil in Hpos|];
   apply NoDup_cons in Hnd as [Hx Hnd];
   rewrite (IH Hnd (delete x m));
   [rewrite <-(Hm x) by left; destruct (m !! x) as [rx|] eqn:Ex;
      [by rewrite (msum_delete f m x rx Ex)|by rewrite delete_id]
   |intros y Hy; rewrite lookup_delete_ne by (by intros ->); apply Hm; by right
   |intros pid r [Hne Hr]%lookup_delete_Some Hpos;
    apply (Hin pid r Hr) in Hpos as [->|?]%elem_of_cons; done]).
  by apply H.
Qed.

(** ** The verdict *)

(** A capacity that blocks the request, that somebody holds, and whose every holder is
    on the chain. *)
Inductive stuck_on (P : PolicySet) (s : GovernedState) (b : BlockerSet) (class : TaskClass)
    (l : list PermitId) : HeldCapacity → Prop :=
  | stuck_class :
      bl_class_inflight b = true →
      (∃ pid r, gs_permits s !! pid = Some r ∧ rec_class r = class) →
      (∀ pid r, gs_permits s !! pid = Some r → rec_class r = class → pid ∈ l) →
      stuck_on P s b class l (ClassInflight class)
  | stuck_pool id cr :
      id ∈ bl_capabilities b → capability_record P id = Some cr →
      (∃ pid r, gs_permits s !! pid = Some r ∧ id ∈ rec_capabilities r) →
      (∀ pid r, gs_permits s !! pid = Some r → id ∈ rec_capabilities r → pid ∈ l) →
      stuck_on P s b class l (CapabilityPool (cap_name (cr_id cr)))
  | stuck_cpu :
      bl_cpu b = true →
      (∃ pid r, gs_permits s !! pid = Some r ∧ 0 < pl_cpu_units (rec_ledger r)) →
      (∀ pid r, gs_permits s !! pid = Some r → 0 < pl_cpu_units (rec_ledger r) → pid ∈ l) →
      stuck_on P s b class l CpuBudget
  | stuck_memory :
      bl_memory b = true →
      (∃ pid r, gs_permits s !! pid = Some r ∧ 0 < pl_effective_units (rec_ledger r)) →
      (∀ pid r, gs_permits s !! pid = Some r → 0 < pl_effective_units (rec_ledger r) → pid ∈ l) →
      stuck_on P s b class l MemoryBudget.

Lemma capability_count_pos id r : 0 < gauge_weight (GCapability id) r ↔ id ∈ rec_capabilities r.
Proof.
  cbn. unfold capability_count.
  assert (id ∈ filter (λ x, x = id) (rec_capabilities r) ↔ id ∈ rec_capabilities r) as <-
    by (rewrite list_elem_of_filter; naive_solver).
  destruct (filter (λ x, x = id) (rec_capabilities r)) as [|x xs] eqn:E; cbn.
  - split; [lia|]. by intros ?%not_elem_of_nil.
  - split; [intros _|lia]. rewrite <-E, list_elem_of_filter. split; [done|].
    assert (x ∈ filter (λ x, x = id) (rec_capabilities r)) as Hx by (rewrite E; by left).
    apply list_elem_of_filter in Hx as [<- Hx]. done.
Qed.

Section verdict.
Context (P : PolicySet) (s : GovernedState) (b : BlockerSet) (class : TaskClass) (l : list PermitId).
Hypothesis HL : ledger_ok s.
Hypothesis Hnd : NoDup l.
Let ch := chain_total class s l Chain_empty.

(** A total the chain exclusively holds: somebody takes part of it, and only permits of
    the chain do. *)
Lemma exclusive_holders g held (takes : PermitRecord → Prop) :
  (∀ r, 0 < gauge_weight g r ↔ takes r) → held = over_chain (gauge_weight g) s l →
  wait_chain_exclusively_holds (gauge_read s g) held = true ↔
  (∃ pid r, gs_permits s !! pid = Some r ∧ takes r) ∧
  ∀ pid r, gs_permits s !! pid = Some r → takes r → pid ∈ l.
Proof.
  intros Ht ->. unfold wait_chain_exclusively_holds.
  rewrite andb_true_iff, !bool_decide_eq_true, (HL g). split.
  - intros [E0 E]. split.
    + rewrite <-E in E0. apply msum_pos in E0 as (pid & r & ? & ?%Ht). eauto.
    + intros pid r Hr Hpos%Ht. by eapply (chain_holds_all (gauge_weight g)).
  - intros [(pid & r & Hr & Hpos%Ht) Hall]. rewrite (chain_covers (gauge_weight g) s l Hnd).
    + split; [|done]. pose proof (msum_lookup_le (gauge_weight g) _ _ _ Hr). lia.
    + intros pid' r' Hr' ?%Ht. eauto.
Qed.

Lemma pool_holders id :
  wait_chain_exclusively_holds (capability_in_use s id) (default 0 (ch_capabilities ch !! id)) = true ↔
  (∃ pid r, gs_permits s !! pid = Some r ∧ id ∈ rec_capabilities r) ∧
  ∀ pid r, gs_permits s !! pid = Some r → id ∈ rec_capabilities r → pid ∈ l.
Proof.
  apply (exclusive_holders (GCapability id)); [intros r; apply capability_count_pos|].
  destruct (chain_total_reads class s l Chain_empty) as (_ & _ & _ & Ec). fold ch in Ec.
  rewrite (Ec id). cbn [ch_capabilities Chain_empty]. rewrite lookup_empty. cbn [default]. lia.
Qed.

Lemma held_capabilities_spec blocked held h :
  held_capabilities s P ch blocked = Some held →
  h ∈ held ↔ ∃ id cr, id ∈ blocked ∧ capability_record P id = Some cr ∧
    h = CapabilityPool (cap_name (cr_id cr)) ∧
    wait_chain_exclusively_holds (capability_in_use s id) (default 0 (ch_capabilities ch !! id)) = true.
Proof.
  revert held. induction blocked as [|id blocked IH]; intros held; cbn.
  { intros [= <-]. split; [intros ?%not_elem_of_nil; done|].
    by intros (? & ? & ?%not_elem_of_nil & _). }
  destruct (wait_chain_exclusively_holds _ _) eqn:Ew.
  - intros (cr & Hcr & H)%bind_Some. apply bind_Some in H as (rest & Hrest & [= <-]).
    rewrite elem_of_cons, (IH _ Hrest). split.
    + intros [->|(id' & cr' & ? & ?)]; [exists id, cr|exists id', cr']; rewrite elem_of_cons; naive_solver.
    + intros (id' & cr' & [->|?]%elem_of_cons & ? & ? & ?); [left; congruence|right; eauto 6].
  - intros H. rewrite (IH _ H). split; intros (id' & cr' & Hin & ?); exists id', cr'.
    + rewrite elem_of_cons. naive_solver.
    + apply elem_of_cons in Hin as [->|?]; [naive_solver congruence|naive_solver].
Qed.

(** What the resolver lists is what the chain is stuck on. *)
Lemma held_stuck held_caps h :
  held_capabilities s P ch (bl_capabilities b) = Some held_caps →
  h ∈ (if bl_class_inflight b && wait_chain_exclusively_holds (inflight s class) (ch_in_class ch)
       then [ClassInflight class] else []) ++ held_caps ++
      (if bl_cpu b && wait_chain_exclusively_holds (gs_cpu_units_held s) (ch_cpu ch)
       then [CpuBudget] else []) ++
      (if bl_memory b && wait_chain_exclusively_holds (gs_memory_units_held s) (ch_memory ch)
       then [MemoryBudget] else []) ↔
  stuck_on P s b class l h.
Proof.
  intros Hcaps. destruct (chain_total_reads class s l Chain_empty) as (E1 & E2 & E3 & _).
  fold ch in E1, E2, E3. cbn in E1, E2, E3.
  assert (∀ (c : bool) x, h ∈ (if c then [x] else []) ↔ c = true ∧ h = x) as Hif.
  { intros [] x; [rewrite list_elem_of_singleton; naive_solver|].
    split; [by intros ?%not_elem_of_nil|naive_solver]. }
  rewrite !elem_of_app, !Hif, !andb_true_iff, (held_capabilities_spec _ _ _ Hcaps).
  assert (inflight s class = gauge_read s (GInflight class)) as ->
    by (unfold inflight; cbn; unfold class_state; by destruct (gs_classes s !! class)).
  change (gs_cpu_units_held s) with (gauge_read s GCpu).
  change (gs_memory_units_held s) with (gauge_read s GMemory).
  rewrite (exclusive_holders (GInflight class) _ (λ r, rec_class r = class))
    by (first [intros r; cbn; unfold in_class, when; case_bool_decide; split; congruence || lia | lia]).
  rewrite (exclusive_holders GCpu _ (λ r, 0 < pl_cpu_units (rec_ledger r))) by (done || lia).
  rewrite (exclusive_holders GMemory _ (λ r, 0 < pl_effective_units (rec_ledger r))) by (done || lia).
  setoid_rewrite pool_holders. split.
  - intros [[(? & ? & ?) ->]|[(id & cr & ? & ? & -> & ? & ?)|[[(? & ? & ?) ->]|[(? & ? & ?) ->]]]];
      [by apply stuck_class|by apply stuck_pool with id|by apply stuck_cpu|by apply stuck_memory].
  - intros [? ? ?|id cr ? ? ? ?|? ? ?|? ? ?]; [by left|right; left|by do 2 right; left|by do 3 right].
    exists id, cr. by split_and!.
Qed.
End verdict.

(** Any fuel that is enough computes the totals of the whole chain. *)
Lemma walk_chain_whole fuel s class ancestor :
  (chain_fuel s ≤ fuel)%nat →
  match gs_permits s !! ancestor with
  | None => walk_chain fuel s class ∅ false ancestor Chain_empty = None
  | Some _ => ∃ l, wait_chain s ∅ ancestor l ∧
      walk_chain fuel s class ∅ false ancestor Chain_empty = Some (chain_total class s l Chain_empty)
  end.
Proof.
  intros Hf. destruct (walk_chain_total fuel s class ∅ false ancestor Chain_empty)
    as (l & Hl & Hw).
  { unfold chain_fuel in Hf. rewrite difference_empty_L, size_dom. lia. }
  destruct fuel as [|fuel]; [unfold chain_fuel in Hf; lia|].
  destruct (gs_permits s !! ancestor) as [r|] eqn:Hr.
  - exists l. split; [done|]. destruct Hw as [Hw|(_ & -> & _)]; [done|].
    inversion Hl; subst; set_solver.
  - cbn [walk_chain]. rewrite decide_False by set_solver. by rewrite Hr.
Qed.

(** What the resolver's verdict says. *)
Lemma wait_cycle_spec P s root sc parent class mx cost caps behind cycle :
  ledger_ok s →
  assess_scope s P root sc parent class mx cost caps behind = IrreversibleWaitCycle cycle →
  ∃ op stage ancestor l,
    sc = Child op stage true ∧ cw_parent_operation_id cycle = op ∧
    (parent = Some ancestor ∨
     (parent = None ∧ permits_for_operation s root op = Some ancestor)) ∧
    wait_chain s ∅ ancestor l ∧ NoDup l ∧ (∀ pid, pid ∈ l → is_Some (gs_permits s !! pid)) ∧
    cw_held cycle ≠ [] ∧
    ∀ h, h ∈ cw_held cycle ↔
      stuck_on P s (with_queued_behind behind (blockers_for s P class mx cost caps)) class l h.
Proof.
  intros HL. unfold assess_scope.
  set (b := with_queued_behind behind (blockers_for s P class mx cost caps)).
  destruct (bl_is_empty b); [done|].
  destruct (cycle_witness _ _ _ _ _ _ _) as [w'|] eqn:Ec; [|done]. intros [= <-].
  unfold cycle_witness in Ec. destruct sc as [|op stage awaited]; [done|].
  destruct awaited; [|done].
  apply bind_Some in Ec as (ancestor & Ha & Ec). apply bind_Some in Ec as (ch & Hch & Ec).
  apply bind_Some in Ec as (held & Hheld & Ec).
  pose proof (walk_chain_whole (chain_fuel s) s class ancestor (le_n _)) as Hwalk.
  destruct (gs_permits s !! ancestor); [|congruence]. destruct Hwalk as (l & Hl & E).
  assert (ch = chain_total class s l Chain_empty) as -> by congruence.
  destruct (wait_chain_nodup _ _ _ _ Hl) as [Hnd Hlive].
  exists op, stage, ancestor, l.
  pose proof (λ h, held_stuck P s b class l HL Hnd held h Hheld) as Hstuck.
  destruct (_ ++ _) as [|h0 hs] eqn:Eh in Ec; [done|]. injection Ec as <-. cbn [cw_parent_operation_id cw_held].
  rewrite Eh in Hstuck. split_and!; [done|done| |done|done|intros pid Hp; by apply Hlive|done|done].
  destruct parent as [p'|]; [left; congruence|right; by split].
Qed.

(** C17: a reported wait cycle is real.  In every run, the walk over the awaited
    ancestors of any permit has fuel enough: with the fuel the resolver uses, or more, it
    ends at the end of the chain and returns the totals of the whole chain, or nothing
    when the permit is not live.  And when the resolver calls a request's wait
    irreversible, the request is an awaited child, and there is such a chain of distinct
    live permits, from its parent along the parents each of them waits under, such that
    the capacities it reports are exactly those that block the request, are held by
    somebody, and are held by permits of that chain alone. *)
Theorem wait_cycle_sound P authority w root sc parent class mx cost caps behind :
  policies_typed P → reachable P authority w →
  let s := w_state w in
  (∀ fuel ancestor, (chain_fuel s ≤ fuel)%nat →
     match gs_permits s !! ancestor with
     | None => walk_chain fuel s class ∅ false ancestor Chain_empty = None
     | Some _ => ∃ l, wait_chain s ∅ ancestor l ∧
         walk_chain fuel s class ∅ false ancestor Chain_empty =
           Some (chain_total class s l Chain_empty)
     end) ∧
  ∀ cycle,
    assess_scope s P root sc parent class mx cost caps behind = IrreversibleWaitCycle cycle →
    ∃ op stage ancestor l,
      sc = Child op stage true ∧ cw_parent_operation_id cycle = op ∧
      (parent = Some ancestor ∨
       (parent = None ∧ permits_for_operation s root op = Some ancestor)) ∧
      wait_chain s ∅ ancestor l ∧ NoDup l ∧ (∀ pid, pid ∈ l → is_Some (gs_permits s !! pid)) ∧
      cw_held cycle ≠ [] ∧
      ∀ h, h ∈ cw_held cycle ↔
        stuck_on P s (with_queued_behind behind (blockers_for s P class mx cost caps)) class l h.
Proof.
  intros Ht Hw s. split; [intros fuel ancestor; apply walk_chain_whole|]. intros cycle.
  apply wait_cycle_spec. by destruct (reachable_inv P authority w Ht Hw) as (B & [[HL _ _] _ _] & _).
Qed.

(** ** A concrete cycle *)

Local Open Scope string_scope.

(** One permit holds the only unit of CPU; its awaited child would need one. *)
Definition parent_world : World :=
  default World_initial (run demo_policy 1 [LFresh; LAdmit 10 (demo_task "ingest" "p") None]
    World_initial).

Lemma parent_reachable : reachable demo_policy 1 parent_world.
Proof.
  apply (run_reachable demo_policy 1 [LFresh; LAdmit 10 (demo_task "ingest" "p") None]
    World_initial); [constructor|]. vm_compute. reflexivity.
Qed.

Lemma wait_cycle_sound_witness :
  ∃ cycle, assess_scope (w_state parent_world) demo_policy "p" (Child "p" "main" true) None "ingest" 2
      (mkCost 1 2) [] false = IrreversibleWaitCycle cycle ∧
    ∃ ancestor l, wait_chain (w_state parent_world) ∅ ancestor l ∧
      ∀ h, h ∈ cw_held cycle ↔ stuck_on demo_policy (w_state parent_world)
        (with_queued_behind false (blockers_for (w_state parent_world) demo_policy "ingest" 2
           (mkCost 1 2) [])) "ingest" l h.
Proof.
  destruct (wait_cycle_sound demo_policy 1 parent_world "p" (Child "p" "main" true) None "ingest" 2
    (mkCost 1 2) [] false demo_typed parent_reachable) as [_ H].
  destruct (assess_scope (w_state parent_world) demo_policy "p" (Child "p" "main" true) None "ingest" 2
    (mkCost 1 2) [] false) as [| |cycle] eqn:E; [vm_compute in E; discriminate E..|].
  exists cycle. split; [reflexivity|].
  destruct (H cycle eq_refl) as (op & stage & ancestor & l & _ & _ & _ & Hl & _ & _ & _ & Hs).
  exists ancestor, l. exact (conj Hl Hs).
Defined.
