(* ===== verification/Numbers.v ===== *)
(** * Numbers

    Every counter of a running engine fits its machine type, so none of its wrapping
    or saturating operations ever wraps or saturates.  The conversion of bytes to
    units rounds up exactly or refuses; the retry hint is the formula it documents;
    a measurement or a stage release moves the held memory by exactly what it says. *)

From S2P Require Import Prelude Contract Text Kernel Requirements State Assess Fairness Admission.
From S2P Require Import Memory Governor Books Custody Ledger Moves Reads Invariant Steps Selection.
From S2P Require Import Sections Lifecycle Trace System Runs Consistency.

(** ** Units *)

(** Bytes become the least number of units that holds them.  The conversion
    refuses exactly an unscaled policy, and bytes beyond 2^32 - 1 units. *)
Theorem units_for_correct scale bytes :
  match units_for scale bytes with
  | inr units =>
    bytes_per_unit scale ≠ 0 ∧ units ≤ U32_MAX ∧ bytes ≤ units * bytes_per_unit scale ∧
    ∀ n, bytes ≤ n * bytes_per_unit scale → units ≤ n
  | inl UnscaledMemoryUnits => bytes_per_unit scale = 0
  | inl (MemoryUnitsOverflow b unit) =>
    b = bytes ∧ unit = bytes_per_unit scale ∧ unit ≠ 0 ∧ U32_MAX * unit < bytes
  end.
Proof.
  unfold units_for. case_decide as H0; [done|].
  assert (∀ n, div_ceil bytes (bytes_per_unit scale) ≤ n ↔ bytes ≤ n * bytes_per_unit scale) as Hd
    by (intros n; by apply div_ceil_le).
  case_decide as Hu; split_and!; try done.
  - by apply Hd.
  - intros n. by apply Hd.
  - rewrite Hd in Hu. lia.
Qed.

(** ** Retry hints *)

(** The documented formula, over unbounded numbers. *)
Definition retry_formula (f : FairnessPolicy) (queue_depth inflight : N) : N :=
  let contention := 50 + 10 * queue_depth + 5 * inflight in
  match f with
  | Fifo => contention
  | WeightedFairQueue weight _ => contention - 2 * weight
  | DeficitRoundRobin quantum => contention + quantum
  | DeadlineAware slack_ms => contention + slack_ms / 10
  | BestEffortScavenger => contention + 200
  end.

(** The adaptive hint never overflows.  For every policy of its field widths and
    any 32-bit queue depth and inflight count the 64-bit computation is the formula
    itself; the fixed hint is its constant, and no policy, no hint. *)
Theorem retry_after_exact policy queue_depth inflight :
  policy_typed policy → queue_depth ≤ U32_MAX → inflight ≤ U32_MAX →
  retry_after (retry_after_policy policy) (fairness policy) queue_depth inflight =
    match retry_after_policy policy with
    | RetryNone => None
    | FixedMs value => Some value
    | Adaptive => Some (retry_formula (fairness policy) queue_depth inflight)
    end.
Proof.
  intros Ht Hq Hi. unfold retry_after. destruct (retry_after_policy policy); [done..|]. f_equal.
  unfold ADAPTIVE_BASE_MS, ADAPTIVE_QUEUE_STEP_MS, ADAPTIVE_INFLIGHT_STEP_MS.
  rewrite !wmul_small by ulia. rewrite (wadd_small U64_MAX 50) by ulia.
  rewrite wadd_small by ulia.
  pose proof (typed_fairness _ Ht) as Hf. unfold apply_fairness, retry_formula.
  unfold WEIGHT_RELIEF_MS, SLACK_DIVISOR, SCAVENGER_PENALTY_MS, saturating_sub, saturating_mul.
  destruct (fairness policy) as [|weight burst|quantum|slack_ms|].
  - lia.
  - rewrite N.min_l by ulia. lia.
  - rewrite wadd_small by ulia. lia.
  - pose proof (N.Div0.mul_div_le slack_ms 10) as Hs.
    rewrite wadd_small by ulia. lia.
  - rewrite wadd_small by ulia. lia.
Qed.

Lemma retry_after_exact_witness :
  retry_after Adaptive (DeficitRoundRobin 1) 3 2 = Some 91.
Proof.
  assert (1 ≤ U32_MAX) as H1 by ulia. assert (2 ≤ U32_MAX) as H2 by ulia.
  assert (3 ≤ U32_MAX) as H3 by ulia.
  exact (retry_after_exact (demo_class 1) 3 2 (demo_class_typed 1 H1) H3 H2).
Defined.

(** ** Widths *)

(** C34: no counter of a running engine ever wraps.  While fewer than 2^32 permits are
    live, every incrementally kept total is the sum of the live permits' own charges,
    computed without any bound, and that sum fits the total's machine type (32 bits for
    counts, 128 for unit sums); each permit's charges fit theirs.  The cumulative
    counters of a class have counted every admission and every end once: admitted is
    inflight plus terminated, those started are no fewer than the ones under way and no
    more than these and the terminated ones, and with the queue they never pass the
    number of identities issued. *)
Theorem reachable_widths P authority w :
  policies_typed P → reachable P authority w → room 0 (w_state w) →
  let s := w_state w in
  (∀ g, gauge_read s g = msum (gauge_weight g) (gs_permits s) ∧
        msum (gauge_weight g) (gs_permits s) ≤ gauge_max g) ∧
  (∀ pid r, gs_permits s !! pid = Some r →
     pl_cpu_units (rec_ledger r) ≤ U32_MAX ∧ pl_effective_units (rec_ledger r) ≤ U32_MAX ∧
     pl_remaining_reservation_units (rec_ledger r) ≤ U32_MAX) ∧
  (∀ class, let c := class_state s class in
     cs_admitted_total c = cs_inflight c + cs_terminated_total c ∧
     cs_running c + cs_cleanup_pending c ≤ cs_started_total c ∧
     cs_started_total c ≤ cs_terminated_total c + cs_running c + cs_cleanup_pending c ∧
     cs_admitted_total c + N.of_nat (length (cs_queue c)) < next_permit (w_counters w) ∧
     next_permit (w_counters w) ≤ U64_MAX).
Proof.
  intros Ht Hw Hroom s.
  destruct (world_inv _ _ (reachable_ok P authority Ht w Hw)) as (B & [[HL HP HC] _ _] & HB & Hmax).
  fold s in HL, HP, HC. split_and!.
  - intros g. rewrite <-HL. split; [done|by apply gauge_read_le].
  - intros pid r Hr. by destruct (HP pid r Hr).
  - intros class c. destruct (HC class) as [C1 C2 C3 C4]. fold c in C1, C2, C3, C4.
    split_and!; [done..|lia|done].
Qed.

Lemma reachable_widths_witness :
  gauge_read (w_state demo_world) GMemory =
    msum (λ r, pl_effective_units (rec_ledger r)) (gs_permits (w_state demo_world)) ∧
  cs_admitted_total (class_state (w_state demo_world) "ingest"%string) < 100.
Proof.
  assert (room 0 (w_state demo_world)) as Hroom by (vm_compute; discriminate).
  destruct (reachable_widths demo_policy 1 demo_world demo_typed demo_reachable Hroom) as (H1 & _ & H2).
  split; [exact (proj1 (H1 GMemory))|].
  destruct (H2 "ingest"%string) as (_ & _ & _ & H & _). cbv zeta in H.
  eapply N.lt_trans; [eapply N.le_lt_trans; [apply N.le_add_r|exact H]|vm_compute; reflexivity].
Defined.

(** ** Measured memory *)

Lemma gauge_moves s s' pid r r' g :
  ledger_ok s → ledger_ok s' → gs_permits s !! pid = Some r →
  gs_permits s' = <[pid := r']> (gs_permits s) →
  gauge_read s' g + gauge_weight g r = gauge_read s g + gauge_weight g r'.
Proof. intros HL HL' Hr Ep. rewrite (HL g), (HL' g), Ep. by apply msum_update. Qed.

(** One permit's ledger replaced, and the difference charged. *)
Lemma memory_moved B s pid r l delta :
  books_ok B s → room 0 s → gs_permits s !! pid = Some r →
  pl_cpu_units l = pl_cpu_units (rec_ledger r) → pl_effective_units l ≤ U32_MAX →
  pl_remaining_reservation_units l ≤ U32_MAX →
  delta = (Z.of_N (pl_effective_units l) - Z.of_N (pl_effective_units (rec_ledger r)))%Z →
  let s' := apply_memory_delta (rec_class r) (delta_root r) delta
              (upd_gs_permits (insert pid (upd_rec_ledger (λ _, l) r)) s) in
  gs_permits s' = <[pid := upd_rec_ledger (λ _, l) r]> (gs_permits s) ∧
  gs_accounting_fault s' = gs_accounting_fault s ∧
  ∀ g, gauge_read s' g + gauge_weight g r =
       gauge_read s g + gauge_weight g (upd_rec_ledger (λ _, l) r).
Proof.
  intros Hb Hroom Hr Hcpu Heff Hres -> s'.
  assert (gs_permits s' = <[pid := upd_rec_ledger (λ _, l) r]> (gs_permits s)) as Ep.
  { unfold s'. by destruct (apply_memory_delta_reads (rec_class r) (delta_root r)
      (Z.of_N (pl_effective_units l) - Z.of_N (pl_effective_units (rec_ledger r)))
      (upd_gs_permits (insert pid (upd_rec_ledger (λ _, l) r)) s)) as (_ & _ & _ & -> & _). }
  split_and!; [done|by apply (memory_no_fault B s pid r l)|]. intros g.
  eapply gauge_moves; [apply Hb|by apply (memory_ledger_ok B)|done|done].
Qed.

(** What it does to a state whose books are exact. *)
Lemma reconcile_on_books B s pid bytes sequence mode scale now out s' :
  books_ok B s → room 0 s →
  reconcile pid bytes sequence mode scale now s = (out, s') →
  match out with
  | ReconcileApplied units =>
    ∃ r r', gs_permits s !! pid = Some r ∧ pl_measurement_sequence (rec_ledger r) < sequence ∧
      effective_units mode (pl_remaining_reservation_units (rec_ledger r)) bytes scale = inr units ∧
      gs_permits s' = <[pid := r']> (gs_permits s) ∧ permit_key r' = permit_key r ∧
      pl_effective_units (rec_ledger r') = units ∧
      pl_measurement_sequence (rec_ledger r') = sequence ∧
      gs_accounting_fault s' = gs_accounting_fault s ∧
      ∀ g, gauge_read s' g + gauge_weight g r = gauge_read s g + gauge_weight g r'
  | ConversionFailed error =>
    ∃ r, gs_permits s !! pid = Some r ∧
      effective_units mode (pl_remaining_reservation_units (rec_ledger r)) bytes scale = inl error ∧
      gs_permits s' = gs_permits s ∧ is_Some (gs_accounting_fault s') ∧
      ∀ g, gauge_read s' g = gauge_read s g
  | ReconcileStaleEpoch last =>
    s' = s ∧ sequence ≤ last ∧
    ∃ r, gs_permits s !! pid = Some r ∧ pl_measurement_sequence (rec_ledger r) = last
  | ReconcileEpochExhausted last => s' = s ∧ last = U64_MAX
  | ReconcileUnknownPermit => s' = s ∧ gs_permits s !! pid = None
  end.
Proof.
  intros Hb Hroom. unfold reconcile. destruct (gs_permits s !! pid) as [r|] eqn:Hr; [|by intros [= <- <-]].
  case_decide; [by intros [= <- <-]|].
  case_decide as Hstale; [intros [= <- <-]; by eauto|].
  destruct (effective_units _ _ _ _) as [err|u] eqn:Eu; intros [= <- <-].
  - pose proof (record_fault_charges "measured memory exceeds the unit domain" s) as Hsc.
    exists r. split_and!; [done|done|apply (sc_permits _ _ Hsc)| |by intros g; apply same_charges_gauge].
    unfold record_accounting_fault. destruct (gs_accounting_fault s) eqn:E; cbn; rewrite ?E; by eexists.
  - set (l := upd_pl_last_touched_ms _ _) in *.
    destruct (books_permits_ok _ _ Hb pid r Hr) as [_ _ _ _ Hres _].
    pose proof (effective_units_bound _ _ _ _ _ Hres Eu) as Hu.
    destruct (memory_moved B s pid r l (Z.of_N u - Z.of_N (pl_effective_units (rec_ledger r))))
      as (Ep & Ef & Eg); [done..|].
    exists r, (upd_rec_ledger (λ _, l) r). split_and!; [done|lia|done..].
Qed.

(** C27: a measurement is applied exactly or not at all.  An older or exhausted
    sequence, an unknown permit and an unrepresentable measurement leave every permit
    and total as it was, the last with the accounting fault raised.  An applied one
    moves the permit to the effective units of its policy mode, and every total by
    exactly the difference, without a fault. *)
Theorem reconcile_exact P authority w pid bytes sequence mode scale now out s' :
  policies_typed P → reachable P authority w → room 0 (w_state w) →
  reconcile pid bytes sequence mode scale now (w_state w) = (out, s') →
  let s := w_state w in
  match out with
  | ReconcileApplied units =>
    ∃ r r', gs_permits s !! pid = Some r ∧ pl_measurement_sequence (rec_ledger r) < sequence ∧
      effective_units mode (pl_remaining_reservation_units (rec_ledger r)) bytes scale = inr units ∧
      gs_permits s' = <[pid := r']> (gs_permits s) ∧ permit_key r' = permit_key r ∧
      pl_effective_units (rec_ledger r') = units ∧
      pl_measurement_sequence (rec_ledger r') = sequence ∧
      gs_accounting_fault s' = gs_accounting_fault s ∧
      ∀ g, gauge_read s' g + gauge_weight g r = gauge_read s g + gauge_weight g r'
  | ConversionFailed error =>
    ∃ r, gs_permits s !! pid = Some r ∧
      effective_units mode (pl_remaining_reservation_units (rec_ledger r)) bytes scale = inl error ∧
      gs_permits s' = gs_permits s ∧ is_Some (gs_accounting_fault s') ∧
      ∀ g, gauge_read s' g = gauge_read s g
  | ReconcileStaleEpoch last =>
    s' = s ∧ sequence ≤ last ∧
    ∃ r, gs_permits s !! pid = Some r ∧ pl_measurement_sequence (rec_ledger r) = last
  | ReconcileEpochExhausted last => s' = s ∧ last = U64_MAX
  | ReconcileUnknownPermit => s' = s ∧ gs_permits s !! pid = None
  end.
Proof.
  intros Ht Hw Hroom H s. destruct (reachable_inv P authority w Ht Hw) as (B & [Hb _ _] & _).
  by eapply reconcile_on_books.
Qed.

(** What it does to a state whose books are exact. *)
Lemma stage_release_on_books B s pid freed policy sequence now out s' :
  books_ok B s → room 0 s →
  release_stage_memory pid freed policy sequence now s = (out, s') →
  match out with
  | StageReleased units =>
    ∃ r r', gs_permits s !! pid = Some r ∧ policy ≠ OnTaskCompletion ∧
      units = N.min freed (pl_effective_units (rec_ledger r)) ∧
      gs_permits s' = <[pid := r']> (gs_permits s) ∧ permit_key r' = permit_key r ∧
      pl_effective_units (rec_ledger r') + units = pl_effective_units (rec_ledger r) ∧
      pl_remaining_reservation_units (rec_ledger r') =
        pl_remaining_reservation_units (rec_ledger r) - units ∧
      gs_accounting_fault s' = gs_accounting_fault s ∧
      (∀ g, gauge_read s' g + gauge_weight g r = gauge_read s g + gauge_weight g r') ∧
      ∀ n, sequence = Some n → release_stage_memory pid freed policy sequence now s' =
        (StageStaleSequence n, s')
  | StagePolicyForbids p => s' = s ∧ p = OnTaskCompletion
  | StageUnknownPermit => s' = s ∧ gs_permits s !! pid = None
  | StageStaleSequence last => s' = s ∧ ∃ n, sequence = Some n ∧ n ≤ last
  end.
Proof.
  intros Hb Hroom. unfold release_stage_memory at 1.
  destruct (stage_release_allowed policy) eqn:Ea; [|by destruct policy; intros [= <- <-]].
  cbn [negb]. destruct (gs_permits s !! pid) as [r|] eqn:Hr; [|by intros [= <- <-]].
  destruct (match sequence with Some n => _ | None => false end) eqn:Es; intros [= <- <-].
  { destruct sequence as [n|]; [|done]. apply bool_decide_eq_true in Es. eauto. }
  set (l := upd_pl_last_touched_ms _ _) in *.
  destruct (books_permits_ok _ _ Hb pid r Hr) as [_ _ _ Heff Hres _].
  match goal with |- context [apply_memory_delta _ _ (- Z.of_N ?n) _] =>
    set (units := n); assert (units = N.min freed (pl_effective_units (rec_ledger r))) as Eu
      by (unfold units; by destruct sequence) end.
  assert (pl_effective_units l = pl_effective_units (rec_ledger r) - units ∧
    pl_remaining_reservation_units l = pl_remaining_reservation_units (rec_ledger r) - units)
    as [El Er] by (unfold l, units; by destruct sequence).
  destruct (memory_moved B s pid r l (- Z.of_N units)) as (Ep & Ef & Eg);
    [done|done|done|unfold l; by destruct sequence|lia|lia|lia|].
  exists r, (upd_rec_ledger (λ _, l) r).
  split_and!; [done|by destruct policy|done|done|unfold l; by destruct sequence| |exact Er|done|done|].
  - change (pl_effective_units l + units = pl_effective_units (rec_ledger r)). lia.
  - intros n ->. unfold release_stage_memory. rewrite Ea, Ep. cbn [negb]. rewrite lookup_insert_eq.
    cbn. by rewrite bool_decide_eq_true_2 by lia.
Qed.

(** C28: a stage release gives back what it says.  Where the policy allows it and the
    sequence is new, the permit's effective units and remaining reservation drop by
    the smaller of the request and what is held, every total by the same, without a
    fault; a second release with the same sequence changes nothing. *)
Theorem stage_release_exact P authority w pid freed policy sequence now out s' :
  policies_typed P → reachable P authority w → room 0 (w_state w) →
  release_stage_memory pid freed policy sequence now (w_state w) = (out, s') →
  let s := w_state w in
  match out with
  | StageReleased units =>
    ∃ r r', gs_permits s !! pid = Some r ∧ policy ≠ OnTaskCompletion ∧
      units = N.min freed (pl_effective_units (rec_ledger r)) ∧
      gs_permits s' = <[pid := r']> (gs_permits s) ∧ permit_key r' = permit_key r ∧
      pl_effective_units (rec_ledger r') + units = pl_effective_units (rec_ledger r) ∧
      pl_remaining_reservation_units (rec_ledger r') =
        pl_remaining_reservation_units (rec_ledger r) - units ∧
      gs_accounting_fault s' = gs_accounting_fault s ∧
      (∀ g, gauge_read s' g + gauge_weight g r = gauge_read s g + gauge_weight g r') ∧
      ∀ n, sequence = Some n → release_stage_memory pid freed policy sequence now s' =
        (StageStaleSequence n, s')
  | StagePolicyForbids p => s' = s ∧ p = OnTaskCompletion
  | StageUnknownPermit => s' = s ∧ gs_permits s !! pid = None
  | StageStaleSequence last => s' = s ∧ ∃ n, sequence = Some n ∧ n ≤ last
  end.
Proof.
  intros Ht Hw Hroom H s. destruct (reachable_inv P authority w Ht Hw) as (B & [Hb _ _] & _).
  by eapply stage_release_on_books.
Qed.

(** ** Concrete measurements *)

Lemma demo_room : room 0 (w_state demo_world).
Proof. vm_compute. discriminate. Qed.

Lemma reconcile_exact_witness :
  ∃ s', reconcile (mkPermitId 1 1) 50 100 Hybrid (mkMemoryUnitScale 10) 20 (w_state demo_world) =
      (ReconcileApplied 5, s') ∧
    gs_accounting_fault s' = gs_accounting_fault (w_state demo_world).
Proof.
  destruct (reconcile (mkPermitId 1 1) 50 100 Hybrid (mkMemoryUnitScale 10) 20 (w_state demo_world))
    as [out s'] eqn:E.
  assert (out = ReconcileApplied 5) as Eo.
  { change out with (out, s').1. rewrite <-E. vm_compute. reflexivity. }
  pose proof (reconcile_exact demo_policy 1 demo_world (mkPermitId 1 1) 50 100 Hybrid
    (mkMemoryUnitScale 10) 20 out s' demo_typed demo_reachable demo_room E) as H.
  rewrite Eo in H. destruct H as (r & r' & _ & _ & _ & _ & _ & _ & _ & Hf & _).
  exists s'. rewrite Eo. exact (conj eq_refl Hf).
Defined.

Lemma stage_release_exact_witness :
  ∃ s', release_stage_memory (mkPermitId 1 1) 1 OnStageBoundary (Some 7) 20 (w_state demo_world) =
      (StageReleased 1, s') ∧
    release_stage_memory (mkPermitId 1 1) 1 OnStageBoundary (Some 7) 20 s' =
      (StageStaleSequence 7, s').
Proof.
  destruct (release_stage_memory (mkPermitId 1 1) 1 OnStageBoundary (Some 7) 20 (w_state demo_world))
    as [out s'] eqn:E.
  assert (out = StageReleased 1) as Eo.
  { change out with (out, s').1. rewrite <-E. vm_compute. reflexivity. }
  pose proof (stage_release_exact demo_policy 1 demo_world (mkPermitId 1 1) 1 OnStageBoundary (Some 7)
    20 out s' demo_typed demo_reachable demo_room E) as H.
  rewrite Eo in H. destruct H as (r & r' & _ & _ & _ & _ & _ & _ & _ & _ & _ & Hs).
  exists s'. rewrite Eo. exact (conj eq_refl (Hs 7 eq_refl)).
Defined.
