(* ===== verification/Fates.v ===== *)
(** * The fate of identities

    What becomes of an issued permit or ticket identity along a run.  A permit
    keeps what identifies it and only moves forward through its phases; a lease,
    once minted, stays; an identity that is neither live nor reserved by a queue is
    spent, and nothing revives it.  A ticket waits, is bound to one permit, settles,
    and never goes back.  The clock, the closed gate and the first accounting fault
    are monotone. *)

From S2P Require Import Prelude Contract Text Kernel Requirements State Assess Fairness Admission.
From S2P Require Import Memory Governor Books Custody Ledger Moves Reads Invariant Steps Selection.
From S2P Require Import Sections Lifecycle Trace System Queues Runs Fifo Consistency.

(** ** Permits *)

Record evolves (r r' : PermitRecord) : Prop := {
  ev_key : permit_key r' = permit_key r;
  ev_rank : rank (rec_phase r) ≤ rank (rec_phase r');
  ev_lease n : rec_lease_nonce r = Some n → rec_lease_nonce r' = Some n;
}.

#[export] Instance evolves_preorder : PreOrder evolves.
Proof.
  split; [by intros r|]. intros r1 r2 r3 [K1 R1 L1] [K2 R2 L2]. split; [congruence|lia|eauto].
Qed.

Lemma same_permit_evolves r r' : same_permit r r' → evolves r r'.
Proof. intros [K Ph L _]. split; [done|by rewrite Ph|by rewrite L]. Qed.

(** Identities the queues reserve. *)
Definition reserved (s : GovernedState) (pid : PermitId) : Prop :=
  ∃ class q, q ∈ waiting s class ∧ pr_permit_id q = pid.

(** A permit table whose records evolved from an older one. *)
Definition permits_from (m m' : gmap PermitId PermitRecord) : Prop :=
  ∀ pid r', m' !! pid = Some r' → ∃ r, m !! pid = Some r ∧ evolves r r'.

#[export] Instance permits_from_preorder : PreOrder permits_from.
Proof.
  split; [by intros m pid r; exists r|]. intros m1 m2 m3 H1 H2 pid r3 Hr3.
  apply H2 in Hr3 as (r2 & Hr2 & E2). apply H1 in Hr2 as (r1 & Hr1 & E1).
  exists r1. split; [done|]. by transitivity r2.
Qed.

Lemma permits_from_eq m m' : m' = m → permits_from m m'.
Proof. by intros ->. Qed.

Lemma permits_from_insert m pid r r' :
  m !! pid = Some r → evolves r r' → permits_from m (<[pid := r']> m).
Proof.
  intros Hr E pid' x [[<- <-]|[_ Hx]]%lookup_insert_Some; [by exists r|by exists x].
Qed.

Lemma permits_from_delete m pid : permits_from m (delete pid m).
Proof. intros pid' x [_ Hx]%lookup_delete_Some. by exists x. Qed.

Lemma memory_delta_permits class root delta s :
  gs_permits (apply_memory_delta class root delta s) = gs_permits s.
Proof. by destruct (apply_memory_delta_reads class root delta s) as (_ & _ & _ & -> & _). Qed.

Lemma reconcile_permits pid bytes sequence mode scale now s out s' :
  reconcile pid bytes sequence mode scale now s = (out, s') →
  permits_from (gs_permits s) (gs_permits s').
Proof.
  unfold reconcile. destruct (gs_permits s !! pid) as [r|] eqn:Hr; [|by intros [= <- <-]].
  do 2 (case_decide; [by intros [= <- <-]|]).
  destruct (effective_units _ _ _ _) as [err|u]; intros [= <- <-].
  - apply permits_from_eq, record_fault_charges.
  - rewrite memory_delta_permits. eapply permits_from_insert; [done|]. split; try done.
Qed.

Lemma release_stage_permits pid freed policy sequence now s out s' :
  release_stage_memory pid freed policy sequence now s = (out, s') →
  permits_from (gs_permits s) (gs_permits s').
Proof.
  unfold release_stage_memory. destruct (negb _); [by intros [= <- <-]|].
  destruct (gs_permits s !! pid) as [r|] eqn:Hr; [|by intros [= <- <-]].
  destruct (match sequence with Some n => _ | None => false end); intros [= <- <-]; [done|].
  rewrite memory_delta_permits. eapply permits_from_insert; [done|]. by destruct sequence.
Qed.

Lemma advance_permits pid phase nonces s out nonces' s' :
  advance_phase pid phase nonces s = (out, nonces', s') →
  permits_from (gs_permits s) (gs_permits s').
Proof.
  intros [(_ & _ & _ & ->)|(r & Hr & Hrank & -> & _)]%advance_phase_cases; [done|].
  eapply permits_from_insert; [done|]. split; [done|cbn; lia|]. cbn. by intros n ->.
Qed.

(** A primitive transition grants nothing but what the queue reserved, and only a
    request no earlier one of its domain waits before. *)
Inductive permit_move (s s' : GovernedState) : Prop :=
  | permits_kept : permits_from (gs_permits s) (gs_permits s') → permit_move s s'
  | permits_promoted class i q s1 r :
      remove_pending class i s = Some (q, s1) →
      ClassState.has_queued_predecessor (class_state s class) q = false →
      same_queues s1 s' → gs_permits s' = <[pr_permit_id q := r]> (gs_permits s) →
      gs_permits s !! pr_permit_id q = None → permit_move s s'.

Lemma tstep_permits P s s' : tstep P s s' → permit_move s s'.
Proof.
  destruct 1 as [sampled|s' [H _]|f|class i r s1 s2 now Hrm [H2 ?] Hpred s3 g Hg|class i r s' Hrm|t st|t
    |t reason|t|pid r Hr _|pid r r' Hr Hs _|pid t r Hr Ht _|pid phase nonces out nonces' s' _ H
    |pid bytes sq mode scale now out s' _ H|pid freed policy sq now out s' _ H|what|];
    try (by apply permits_kept).
  - apply permits_kept, permits_from_eq. by rewrite H.
  - assert (gs_permits s2 = gs_permits s) as E2.
    { rewrite H2. by apply remove_pending_holdings in Hrm as []. }
    eapply permits_promoted; [done|done| | |].
    + etransitivity; [|apply grant_queues].
      etransitivity; [by apply same_queues_books|by apply same_queues_classes].
    + rewrite grant_permits. f_equal. exact E2.
    + pose proof (gt_fresh _ _ _ Hg) as Hn. cbn in Hn. by rewrite E2 in Hn.
  - apply permits_kept, permits_from_eq. by apply remove_pending_holdings in Hrm as [].
  - apply permits_kept, permits_from_eq, record_terminal_charges.
  - apply permits_kept, permits_from_eq, forget_terminal_charges.
  - apply permits_kept. rewrite unwind_charges_permits. apply permits_from_delete.
  - apply permits_kept. cbn. by eapply permits_from_insert, same_permit_evolves.
  - apply permits_kept. cbn. by eapply permits_from_insert, same_permit_evolves, same_permit_pending.
  - by eapply permits_kept, advance_permits.
  - by eapply permits_kept, reconcile_permits.
  - by eapply permits_kept, release_stage_permits.
  - apply permits_kept, permits_from_eq, record_fault_charges.
Qed.

(** ** Later states *)

Definition later (P : PolicySet) (authority : N) : relation World :=
  rtc (λ w w', room (N.of_nat PROMOTION_BUDGET) (w_state w) ∧ wstep P authority w w').

(** An identity handed out by [fresh_ids] and no longer held by a caller. *)
Definition spent_permit (w : World) (pid : PermitId) : Prop :=
  permit_sequence pid < next_permit (w_counters w) ∧ pid ∉ id_permit <$> w_outstanding w.
Definition spent_ticket (w : World) (t : Ticket) : Prop :=
  ticket_sequence t < next_ticket (w_counters w) ∧ t ∉ id_ticket <$> w_outstanding w.

(** What stays true of one permit identity that no queue reserves. *)
Definition permit_forward (pid : PermitId) (s s' : GovernedState) : Prop :=
  ¬ reserved s pid →
  ¬ reserved s' pid ∧
  ∀ r', gs_permits s' !! pid = Some r' → ∃ r, gs_permits s !! pid = Some r ∧ evolves r r'.

#[export] Instance permit_forward_preorder pid : PreOrder (permit_forward pid).
Proof.
  split; [intros s H; split; [done|by intros r; exists r]|].
  intros s1 s2 s3 H12 H23 H. destruct (H12 H) as [N2 F2]. destruct (H23 N2) as [N3 F3].
  split; [done|]. intros r3 (r2 & (r1 & Hr1 & E1)%F2 & E2)%F3. exists r1. split; [done|].
  by transitivity r2.
Qed.

Lemma dequeues_reserved s s' pid : dequeues s s' → reserved s' pid → reserved s pid.
Proof. intros H (class & q & Hq & <-). exists class, q. split; [by eapply dequeues_elem|done]. Qed.

Lemma permits_from_forward pid s s' :
  dequeues s s' → permits_from (gs_permits s) (gs_permits s') → permit_forward pid s s'.
Proof. intros Hd Hp Hn. split; [|apply Hp]. intros Hr. by apply Hn, (dequeues_reserved s s'). Qed.

Lemma tstep_permit_forward P pid s s' : tstep P s s' → permit_forward pid s s'.
Proof.
  intros Hstep. pose proof (tstep_dequeues _ _ _ Hstep) as Hd.
  destruct (tstep_permits _ _ _ Hstep) as [Hp|class i q s1 r Hrm _ _ Ep _];
    [by apply permits_from_forward|].
  intros Hn. split; [intros Hr; by apply Hn, (dequeues_reserved s s')|].
  intros r'. rewrite Ep. intros [[E _]|[_ Hr']]%lookup_insert_Some; [|by exists r'].
  destruct Hn. exists class, (untag q). split; [|done].
  by eapply list_elem_of_lookup_2, (remove_pending_waiting _ _ _ _ _ Hrm).
Qed.

Lemma arrives_permit_forward P ids pid s s' :
  arrives P ids s s' → pid ≠ id_permit ids → permit_forward pid s s'.
Proof.
  assert (∀ s s', trace P s s' → permit_forward pid s s') as Ht.
  { intros ?? H. eapply trace_rel; [apply _|apply tstep_permit_forward|exact H]. }
  intros [Hs|g _ _ Eg _ _ ->|s1 r s2 _ Hs1 Har Hen Hs] Hne; [by apply Ht| |].
  - intros Hn. split.
    + intros (class & q & Hq & <-). rewrite grant_waiting in Hq. apply Hn. by exists class, q.
    + intros r'. rewrite grant_permits, lookup_insert_ne by congruence. intros. by exists r'.
  - transitivity s1; [by apply Ht, retagged_trace|]. transitivity s2; [|by apply Ht].
    pose proof (enqueue_cases _ _ _ Hen) as (_ & Hh & _). intros Hn. split.
    + intros (class & q & Hq & <-). rewrite (enqueue_waiting _ _ _ Hen) in Hq.
      unfold upd_queue_of in Hq. case_decide; [subst class|apply Hn; by eexists _, _].
      apply elem_of_app in Hq as [Hq|Hq%list_elem_of_singleton]; [apply Hn; by eexists _, _|].
      subst q. by apply Hne, (ar_permit _ _ _ _ Har).
    + intros r'. rewrite (sh_permits _ _ Hh). intros. by exists r'.
Qed.

Section fates.
Context (P : PolicySet) (authority : N) (Htyped : policies_typed P).

(** Induction along a run from a reachable world, by effects. *)
Lemma later_effects (R : relation World) `{!PreOrder R} :
  (∀ w w', reachable P authority w → effect P authority w w' → R w w') →
  ∀ w w', reachable P authority w → later P authority w w' → R w w'.
Proof.
  intros HR w w' Hw Hl. induction Hl as [w|w w1 w' [Hroom Hs] _ IH]; [done|].
  transitivity w1; [|apply IH; by eapply reachable_step].
  apply HR; [done|]. apply wstep_effect; [done|by eapply reachable_ok|done..].
Qed.

(** What every effect keeps along a run from a reachable world. *)
Lemma later_keeps (K : World → Prop) :
  (∀ w w', reachable P authority w → effect P authority w w' → K w → K w') →
  ∀ w w', reachable P authority w → later P authority w w' → K w → K w'.
Proof.
  intros HK. assert (PreOrder (λ w w', K w → K w')) as Hpre by (split; [by intros ?|intros ???; tauto]).
  by apply (later_effects (λ w w', K w → K w')).
Qed.

(** The same for a view of the world that moves along [R] while [S] holds, and
    [S] is kept. *)
Lemma later_view {A} (S : World → Prop) (view : World → A) (R : relation A) `{!PreOrder R} :
  (∀ w w', effect P authority w w' → S w → S w' ∧ R (view w) (view w')) →
  ∀ w w', reachable P authority w → later P authority w w' → S w → R (view w) (view w').
Proof.
  intros HR w w' Hw Hl HS.
  assert (PreOrder (λ w w', S w → S w' ∧ R (view w) (view w'))) as Hpre.
  { split; [by intros ?|]. intros w1 w2 w3 H12 H23 H. destruct (H12 H) as [S2 R2].
    destruct (H23 S2) as [S3 R3]. split; [done|by transitivity (view w2)]. }
  apply (later_effects (λ w w', S w → S w' ∧ R (view w) (view w'))) with (w := w) (w' := w');
    [intros; by apply HR|done..].
Qed.

Lemma later_reachable w w' :
  reachable P authority w → later P authority w w' → reachable P authority w'.
Proof.
  intros Hw Hl. induction Hl as [|w w1 w' [Hroom Hs] _ IH]; [done|].
  apply IH. by eapply reachable_step.
Qed.

(** Spent identities stay spent. *)
Lemma spent_permit_effect w w' pid :
  effect P authority w w' → spent_permit w pid → spent_permit w' pid.
Proof.
  intros Heff [Hlt Hout]. destruct Heff as [issued _ Hf Eo|_ _ Ek Eo|ids sampled Eo Ek _ _ _ _].
  - apply fresh_ids_cases in Hf as (F1 & _ & _ & F2). split; [lia|]. rewrite Eo.
    destruct issued as [i|]; [|done]. cbn. apply not_elem_of_cons. split; [|done].
    intros ->. destruct (F2 i eq_refl) as (_ & _ & F3 & _). lia.
  - split; by rewrite ?Ek, ?Eo.
  - split; [by rewrite Ek|]. rewrite Eo in Hout. cbn in Hout.
    by apply not_elem_of_cons in Hout as [_ ?].
Qed.

Lemma spent_ticket_effect w w' t :
  effect P authority w w' → spent_ticket w t → spent_ticket w' t.
Proof.
  intros Heff [Hlt Hout]. destruct Heff as [issued _ Hf Eo|_ _ Ek Eo|ids sampled Eo Ek _ _ _ _].
  - apply fresh_ids_cases in Hf as (_ & F1 & _ & F2). split; [lia|]. rewrite Eo.
    destruct issued as [i|]; [|done]. cbn. apply not_elem_of_cons. split; [|done].
    intros ->. destruct (F2 i eq_refl) as (_ & _ & _ & F3). lia.
  - split; by rewrite ?Ek, ?Eo.
  - split; [by rewrite Ek|]. rewrite Eo in Hout. cbn in Hout.
    by apply not_elem_of_cons in Hout as [_ ?].
Qed.

(** Everything the state knows is spent. *)
Lemma known_spent_permit w pid :
  reachable P authority w → known (w_state w) pid → spent_permit w pid.
Proof.
  intros Hw%reachable_ok Hk; [|done]. split; [by apply (world_known _ _ Hw)|].
  intros (i & -> & Hi)%list_elem_of_fmap. by destruct (world_fresh _ _ Hw i Hi) as (? & _).
Qed.
Lemma known_spent_ticket w t :
  reachable P authority w → is_Some (gs_tickets (w_state w) !! t) → spent_ticket w t.
Proof.
  intros Hw%reachable_ok Hk; [|done]. split; [by apply (world_tickets _ _ Hw)|].
  intros (i & -> & Hi)%list_elem_of_fmap. destruct (world_fresh _ _ Hw i Hi) as (_ & E & _).
  rewrite E in Hk. by destruct Hk.
Qed.

Lemma effect_permit_forward w w' pid :
  effect P authority w w' → spent_permit w pid → permit_forward pid (w_state w) (w_state w').
Proof.
  intros [issued -> _ _|Ht _ _ _|ids sampled Eo _ _ Ha _ _] [_ Hout]; [done| |].
  - eapply trace_rel; [apply _|apply tstep_permit_forward|exact Ht].
  - transitivity (commit_time sampled (w_state w)).2.
    + eapply (tstep_permit_forward P), t_clock.
    + eapply arrives_permit_forward; [exact Ha|]. intros ->. apply Hout. rewrite Eo. by left.
Qed.

Lemma effect_ticket_forward w w' t :
  effect P authority w w' → spent_ticket w t →
  custody_forward (custody (w_state w) t) (custody (w_state w') t).
Proof.
  intros [issued -> _ _|_ Hg _ _|ids sampled Eo _ _ _ Ht _] [_ Hout]; [done|apply Hg|].
  unfold custody. rewrite Ht; [done|]. intros ->. apply Hout. rewrite Eo. by left.
Qed.

Lemma later_permit_forward w w' pid :
  reachable P authority w → later P authority w w' → spent_permit w pid →
  permit_forward pid (w_state w) (w_state w').
Proof.
  intros Hw Hl. apply (later_view (λ w, spent_permit w pid) w_state (permit_forward pid)); [|done..].
  intros w1 w2 Heff H. split; [by eapply spent_permit_effect|by eapply effect_permit_forward].
Qed.
End fates.

(** C23: the fate of a permit.  Along any run from a reachable state, a live permit
    never returns to a queue, and as long as it lives it keeps its identity, class,
    operation, scope, capabilities and CPU charge, its phase never goes back and
    its lease, once minted, never changes; an issued identity that is neither live
    nor reserved is never granted again. *)
Theorem permit_fate P authority w w' pid :
  policies_typed P → reachable P authority w → later P authority w w' →
  match gs_permits (w_state w) !! pid with
  | Some r =>
    ¬ reserved (w_state w') pid ∧
    ∀ r', gs_permits (w_state w') !! pid = Some r' → evolves r r'
  | None =>
    spent_permit w pid → ¬ reserved (w_state w) pid →
    gs_permits (w_state w') !! pid = None ∧ ¬ reserved (w_state w') pid
  end.
Proof.
  intros Ht Hw Hl. destruct (gs_permits (w_state w) !! pid) as [r|] eqn:Hr.
  - assert (spent_permit w pid) as Hs by (eapply known_spent_permit; [done..|left; by eexists]).
    destruct (reachable_inv P authority w Ht Hw) as (B & HI & _).
    destruct (later_permit_forward P authority Ht w w' pid Hw Hl Hs) as [Hn Hf].
    { intros (class & q & Hq & E).
      pose proof (custody_fresh _ _ (inv_custody _ _ _ HI) class q Hq). congruence. }
    split; [done|]. intros r' (r0 & Hr0 & He)%Hf. by simplify_eq.
  - intros Hs Hn. destruct (later_permit_forward P authority Ht w w' pid Hw Hl Hs Hn) as [Hn' Hf].
    split; [|done]. apply eq_None_not_Some. intros [r' (r & ? & _)%Hf]. congruence.
Qed.

(** C24: the fate of a ticket.  A ticket already used for an admission goes forward
    only: a waiting one is promoted to one permit or settles, a granted one stays
    with its permit or settles, a settled one stays settled. *)
Theorem ticket_fate P authority w w' t :
  policies_typed P → reachable P authority w → later P authority w w' → spent_ticket w t →
  custody_forward (custody (w_state w) t) (custody (w_state w') t).
Proof.
  intros Ht Hw Hl. apply (later_view P authority Ht (λ w, spent_ticket w t)
    (λ w, custody (w_state w) t) custody_forward); [|done..].
  intros w1 w2 Heff H. split; [by eapply spent_ticket_effect|by eapply effect_ticket_forward].
Qed.

(** ** Nobody overtakes *)

(** [q1] and [q2] are the only requests that reserve their permits, and while [q1]
    waits, the permit of [q2] is not granted. *)
Definition behind (class : TaskClass) (q1 q2 : PendingRequest) (s : GovernedState) : Prop :=
  queues_ok s ∧
  (∀ k q, q ∈ waiting s k → pr_permit_id q = pr_permit_id q1 → k = class ∧ q = q1) ∧
  (∀ k q, q ∈ waiting s k → pr_permit_id q = pr_permit_id q2 → k = class ∧ q = q2) ∧
  (q1 ∈ waiting s class → gs_permits s !! pr_permit_id q2 = None).

Section overtaking.
Context (P : PolicySet) (authority : N) (Htyped : policies_typed P).
Context (class : TaskClass) (q1 q2 : PendingRequest).
Hypothesis Horder : pr_queue_order q1 < pr_queue_order q2.
Hypothesis Hshare : shares_domain (pr_capabilities q1) (pr_capabilities q2).

Lemma tstep_behind s s' : tstep P s s' → behind class q1 q2 s → behind class q1 q2 s'.
Proof.
  intros Hstep (Hok & Hone1 & Hone & Hnone). pose proof (tstep_dequeues _ _ _ Hstep) as Hd.
  split; [by eapply tstep_queues_ok|].
  split; [intros k q Hq; apply Hone1; by eapply dequeues_elem|].
  split; [intros k q Hq; apply Hone; by eapply dequeues_elem|].
  intros Hq1. pose proof (dequeues_elem _ _ _ _ Hd Hq1) as Hq1'.
  destruct (tstep_permits _ _ _ Hstep) as [Hp|k i q s1 r Hrm Hpred _ Ep _].
  { apply eq_None_not_Some. intros [r' (r & Hr & _)%Hp]. rewrite Hnone in Hr; done. }
  rewrite Ep, lookup_insert_ne; [by apply Hnone|]. intros E.
  assert (untag q ∈ waiting s k) as Hq.
  { by eapply list_elem_of_lookup_2, (remove_pending_waiting _ _ _ _ _ Hrm). }
  destruct (Hone k (untag q) Hq E) as [-> Eq].
  assert (ClassState.has_queued_predecessor (class_state s class) q = true); [|congruence].
  apply (predecessor_scan (gs_next_queue_order s) (class_state s class) (Hok class)).
  exists q1. split_and!; [done| |].
  - change (pr_queue_order q) with (pr_queue_order (untag q)). by rewrite Eq.
  - change (pr_capabilities q) with (pr_capabilities (untag q)). by rewrite Eq.
Qed.

Lemma arrives_behind ids s s' :
  arrives P ids s s' → pr_permit_id q1 ≠ id_permit ids → pr_permit_id q2 ≠ id_permit ids →
  (∀ k r, r ∈ waiting s k → pr_seq_no r ≠ id_seq_no ids) →
  behind class q1 q2 s → behind class q1 q2 s'.
Proof.
  assert (∀ s s', trace P s s' → behind class q1 q2 s → behind class q1 q2 s') as Ht.
  { intros ??. apply (trace_keeps P (behind class q1 q2)). apply tstep_behind. }
  intros [Hs|g _ _ Eg _ _ ->|s1 r s2 _ Hs1 Har Hen Hs] Hne1 Hne2 Hfresh Hb; [by eapply Ht| |].
  - destruct Hb as (Hok & Hone1 & Hone & Hnone). pose proof (grant_queues g s) as Hg. split_and!.
    + by eapply same_queues_ok.
    + intros k q. rewrite grant_waiting. apply Hone1.
    + intros k q. rewrite grant_waiting. apply Hone.
    + rewrite grant_waiting. intros Hq1. rewrite grant_permits, lookup_insert_ne by congruence. auto.
  - eapply Ht; [exact Hs|]. eapply (Ht s s1) in Hb; [|by apply retagged_trace].
    destruct Hb as (Hok & Hone1 & Hone & Hnone). pose proof (enqueue_cases _ _ _ Hen) as (_ & Hh & _).
    pose proof (enqueue_waiting _ _ _ Hen) as Hw.
    assert (∀ k q, q ∈ waiting s2 k → q ∈ waiting s1 k ∨ pr_permit_id q = id_permit ids) as Hq.
    { intros k q. rewrite Hw. unfold upd_queue_of. case_decide; [subst k|by left].
      intros [?|Hx%list_elem_of_singleton]%elem_of_app; [by left|subst q].
      right. apply (ar_permit _ _ _ _ Har). }
    split_and!.
    + eapply enqueue_queues_ok; [exact Hen| |done]. intros x.
      rewrite (same_queues_waiting _ _ _ (same_queues_books _ _ (proj1 Hs1))), (ar_seq_no _ _ _ _ Har).
      apply Hfresh.
    + intros k q [?|?]%Hq E; [by apply Hone1|congruence].
    + intros k q [?|?]%Hq E; [by apply Hone|congruence].
    + rewrite (sh_permits _ _ Hh). intros [?|?]%Hq; [by apply Hnone|congruence].
Qed.

Lemma effect_behind w w' :
  world_queues w → spent_permit w (pr_permit_id q1) → spent_permit w (pr_permit_id q2) →
  effect P authority w w' → behind class q1 q2 (w_state w) → behind class q1 q2 (w_state w').
Proof.
  intros Hwq [_ S1] [_ S2] [issued -> _ _|Ht _ _ _|ids sampled Eo _ _ Ha _ _] Hb; [done| |].
  - eapply (trace_keeps P (behind class q1 q2)); [apply tstep_behind|done|done].
  - eapply arrives_behind; [exact Ha| | | |].
    + intros E. apply S1. rewrite E, Eo. by left.
    + intros E. apply S2. rewrite E, Eo. by left.
    + intros k r. change (waiting _ k) with (waiting (w_state w) k).
      apply (wq_fresh _ Hwq). rewrite Eo. by left.
    + eapply tstep_behind; [apply t_clock|done].
Qed.
End overtaking.

Lemma reachable_arrival_order P authority w class i j q1 q2 :
  policies_typed P → reachable P authority w →
  cs_queue (class_state (w_state w) class) !! i = Some q1 →
  cs_queue (class_state (w_state w) class) !! j = Some q2 → (i < j)%nat →
  pr_queue_order q1 < pr_queue_order q2.
Proof.
  intros Ht Hw Hi Hj Hlt.
  pose proof (wq_ok _ (reachable_queues P authority Ht w Hw) class) as Hok.
  apply (sorted_lookup_lt _ i j (untag q1) (untag q2) (cq_sorted _ _ _ _ _ Hok)); [..|done];
    by apply list_lookup_fmap_Some_2.
Qed.

Lemma reachable_behind P authority w class q1 q2 :
  policies_typed P → reachable P authority w →
  q1 ∈ waiting (w_state w) class → q2 ∈ waiting (w_state w) class →
  behind class q1 q2 (w_state w).
Proof.
  intros Ht Hw H1 H2. destruct (reachable_inv P authority w Ht Hw) as (B & HI & _).
  pose proof (inv_custody _ _ _ HI) as HC. split_and!.
  - by eapply reachable_queues.
  - intros k x Hx E. apply (reserved_unique HC k class x q1 Hx H1 E).
  - intros k x Hx E. apply (reserved_unique HC k class x q2 Hx H2 E).
  - intros _. by eapply (custody_fresh _ _ HC).
Qed.

(** C14: requests of one class and domain are served in arrival order.  If two
    requests of a class share a capability (or both need none) and both wait, the
    later one gets its permit, at any later point of any run, only once the earlier
    one waits no more. *)
Theorem domain_fifo P authority w w' class i j q1 q2 :
  policies_typed P → reachable P authority w → later P authority w w' →
  cs_queue (class_state (w_state w) class) !! i = Some q1 →
  cs_queue (class_state (w_state w) class) !! j = Some q2 → (i < j)%nat →
  shares_domain (pr_capabilities q1) (pr_capabilities q2) →
  is_Some (gs_permits (w_state w') !! pr_permit_id q2) →
  ∀ q, q ∈ cs_queue (class_state (w_state w') class) → pr_permit_id q ≠ pr_permit_id q1.
Proof.
  intros Ht Hw Hl Hi Hj Hlt Hs [r Hlive] q Hq Eq.
  assert (untag q1 ∈ waiting (w_state w) class) as Hin1.
  { by apply list_elem_of_fmap_2, list_elem_of_lookup_2 with i. }
  assert (untag q2 ∈ waiting (w_state w) class) as Hin2.
  { by apply list_elem_of_fmap_2, list_elem_of_lookup_2 with j. }
  assert (pr_queue_order q1 < pr_queue_order q2) as Hord by (by eapply reachable_arrival_order).
  set (K := λ w, spent_permit w (pr_permit_id q1) ∧ spent_permit w (pr_permit_id q2) ∧
                 behind class (untag q1) (untag q2) (w_state w)).
  destruct (later_keeps P authority Ht K) with (w := w) (w' := w')
    as (_ & _ & _ & Hone & _ & Hnone); [|done|done| |].
  - intros w1 w2 Hw1 Heff (S1 & S2 & Hb). split_and!; [by eapply spent_permit_effect..|].
    eapply effect_behind; [done|done|by eapply reachable_queues|exact S1|exact S2|done|done].
  - split_and!; [eapply known_spent_permit; [done..|right; by exists class, (untag q1)]|
      eapply known_spent_permit; [done..|right; by exists class, (untag q2)]|].
    by eapply reachable_behind.
  - assert (untag q ∈ waiting (w_state w') class) as Hq' by (by apply list_elem_of_fmap_2).
    destruct (Hone class (untag q) Hq' Eq) as [_ E]. rewrite E in Hq'.
    specialize (Hnone Hq'). cbn in Hnone. congruence.
Qed.

(** ** Concrete runs *)

Lemma run_later P authority ls w w' : run P authority ls w = Some w' → later P authority w w'.
Proof.
  revert w. induction ls as [|l ls IH]; intros w; cbn; [by intros [= <-]|].
  case_decide; [|done]. intros (w1 & H1 & H2)%bind_Some.
  eapply rtc_l; [|by apply IH]. split; [done|]. by eapply exec_sound.
Qed.

Local Open Scope string_scope.

(** One permit runs, two requests of its class wait behind it. *)
Definition fifo_arrivals : list Label := [
  LFresh; LFresh; LFresh;
  LAdmit 10 (demo_task "ingest" "a") None;
  LAdmit 11 (demo_task "ingest" "b") (Some 7);
  LAdmit 12 (demo_task "ingest" "c") (Some 8)].
Definition fifo_before : World :=
  default World_initial (run demo_policy 1 fifo_arrivals World_initial).

(** Both releases later, both were promoted in turn. *)
Definition fifo_releases : list Label := [
  LRelease 20 (mkPermitId 1 3) None; LRelease 21 (mkPermitId 1 2) None].
Definition fifo_after : World :=
  default World_initial (run demo_policy 1 fifo_releases fifo_before).

Lemma fifo_reachable : reachable demo_policy 1 fifo_before.
Proof.
  apply (run_reachable demo_policy 1 fifo_arrivals World_initial); [constructor|].
  vm_compute. reflexivity.
Qed.

Lemma fifo_later : later demo_policy 1 fifo_before fifo_after.
Proof. apply (run_later demo_policy 1 fifo_releases). vm_compute. reflexivity. Qed.

Lemma permit_fate_witness :
  ¬ reserved (w_state fifo_after) (mkPermitId 1 3).
Proof.
  pose proof (permit_fate demo_policy 1 fifo_before fifo_after (mkPermitId 1 3) demo_typed
    fifo_reachable fifo_later) as H.
  destruct (gs_permits (w_state fifo_before) !! mkPermitId 1 3) as [r|] eqn:E; [exact (proj1 H)|].
  vm_compute in E. discriminate E.
Defined.

Lemma ticket_fate_witness :
  custody_forward (custody (w_state fifo_before) (mkTicket 1 1))
    (custody (w_state fifo_after) (mkTicket 1 1)).
Proof.
  apply (ticket_fate demo_policy 1 fifo_before fifo_after (mkTicket 1 1) demo_typed
    fifo_reachable fifo_later).
  split; [vm_compute; reflexivity|]. vm_compute. intros H. by apply not_elem_of_nil in H.
Defined.

Lemma domain_fifo_witness :
  ∃ q1, cs_queue (class_state (w_state fifo_before) "ingest") !! 0%nat = Some q1 ∧
    ∀ q, q ∈ cs_queue (class_state (w_state fifo_after) "ingest") → pr_permit_id q ≠ pr_permit_id q1.
Proof.
  destruct (cs_queue (class_state (w_state fifo_before) "ingest") !! 0%nat) as [q1|] eqn:E1;
    [|vm_compute in E1; discriminate E1].
  destruct (cs_queue (class_state (w_state fifo_before) "ingest") !! 1%nat) as [q2|] eqn:E2;
    [|vm_compute in E2; discriminate E2].
  exists q1. split; [reflexivity|].
  apply (domain_fifo demo_policy 1 fifo_before fifo_after "ingest" 0 1 q1 q2 demo_typed
    fifo_reachable fifo_later E1 E2); [lia| |].
  - vm_compute in E1, E2. injection E1 as <-. injection E2 as <-. right. eexists.
    split; [left|left].
  - vm_compute in E2. injection E2 as <-. eexists. vm_compute. reflexivity.
Defined.

Lemma reachable_queue_index_witness :
  ∃ r, cs_queue (class_state (w_state fifo_before) "ingest") !! 1%nat = Some r ∧
    (ClassState.has_queued_predecessor (class_state (w_state fifo_before) "ingest") r = true ↔
     ∃ j r', (j < 1)%nat ∧ cs_queue (class_state (w_state fifo_before) "ingest") !! j = Some r' ∧
             shares_domain (pr_capabilities r') (pr_capabilities r)).
Proof.
  destruct (cs_queue (class_state (w_state fifo_before) "ingest") !! 1%nat) as [r|] eqn:Hr;
    [|vm_compute in Hr; discriminate Hr].
  exists r. split; [reflexivity|]. revert Hr.
  apply (reachable_queue_index demo_policy 1 fifo_before "ingest" demo_typed fifo_reachable).
Defined.
