(* ===== verification/Grips.v ===== *)
(** * What nobody else can do to a permit

    A submission that keeps its identities to itself shares the engine with callers
    that act on other identities, and with the engine's own sweeps and promotions.
    Between two of its own sections its permit can be granted to it or taken away
    before dispatch, its ticket can settle, and nothing else: nobody leases the
    permit, nobody answers the ticket, and no other permit answers it. *)

From S2P Require Import Prelude Contract Text Kernel Requirements State Assess Fairness Admission.
From S2P Require Import Memory Governor Books Custody Ledger Moves Reads Invariant Steps Selection.
From S2P Require Import Sections Lifecycle Trace System Queues Runs Fifo Consistency Fates.

(** ** Slots *)

(** Who may end a permit: its phase, its lease and the ticket it answers; what it
    charges, and for whom. *)
Definition slot (r : PermitRecord) :=
  (rec_phase r, rec_lease_nonce r, rec_pending_ticket r, rec_capabilities r, record_who r).

(** Where the slot of a live permit comes from. *)
Inductive slot_from (G : Grip) (s : GovernedState) (pid : PermitId) (r' : PermitRecord) : Prop :=
  | slot_kept r : gs_permits s !! pid = Some r → slot r' = slot r → slot_from G s pid r'
  | slot_granted class q :
      q ∈ waiting s class → pr_permit_id q = pid →
      slot r' = (DispatchReserved, None, Some (pr_ticket q), pr_capabilities q, request_who q) →
      slot_from G s pid r'
  | slot_advanced r :
      gs_permits s !! pid = Some r → may_lease G pid → rec_pending_ticket r' = rec_pending_ticket r →
      rec_capabilities r' = rec_capabilities r → record_who r' = record_who r → slot_from G s pid r'
  | slot_answered r t :
      gs_permits s !! pid = Some r → rec_pending_ticket r = Some t → may_answer G t →
      slot r' = (rec_phase r, rec_lease_nonce r, None, rec_capabilities r, record_who r) → slot_from G s pid r'.

Definition slots (G : Grip) (s s' : GovernedState) : Prop :=
  ∀ pid r', gs_permits s' !! pid = Some r' → slot_from G s pid r'.

Lemma slots_eq G s s' : gs_permits s' = gs_permits s → slots G s s'.
Proof. intros E pid r' Hr'. rewrite E in Hr'. by eapply slot_kept. Qed.

Lemma slots_insert G s s' pid r r' :
  gs_permits s !! pid = Some r → slot r' = slot r → gs_permits s' = <[pid := r']> (gs_permits s) →
  slots G s s'.
Proof.
  intros Hr Es E pid' x. rewrite E. intros [[<- <-]|[_ Hx]]%lookup_insert_Some; by eapply slot_kept.
Qed.

Lemma reconcile_slots G pid bytes sequence mode scale now s out s' :
  reconcile pid bytes sequence mode scale now s = (out, s') → slots G s s'.
Proof.
  unfold reconcile. destruct (gs_permits s !! pid) as [r|] eqn:Hr; [|intros [= <- <-]; by apply slots_eq].
  do 2 (case_decide; [intros [= <- <-]; by apply slots_eq|]).
  destruct (effective_units _ _ _ _) as [err|u]; intros [= <- <-].
  - apply slots_eq, record_fault_charges.
  - eapply slots_insert; [exact Hr| |by rewrite memory_delta_permits]. done.
Qed.

Lemma release_stage_slots G pid freed policy sequence now s out s' :
  release_stage_memory pid freed policy sequence now s = (out, s') → slots G s s'.
Proof.
  unfold release_stage_memory. destruct (negb _); [intros [= <- <-]; by apply slots_eq|].
  destruct (gs_permits s !! pid) as [r|] eqn:Hr; [|intros [= <- <-]; by apply slots_eq].
  destruct (match sequence with Some n => _ | None => false end); intros [= <- <-];
    [by apply slots_eq|].
  eapply slots_insert; [exact Hr| |by rewrite memory_delta_permits]. by destruct sequence.
Qed.

Lemma tstep_slots G P s s' : tstep_of G P s s' → slots G s s'.
Proof.
  destruct 1 as [sampled|s' [H _]|f|class i r s1 s2 now Hrm [H2 ?] Hpred s3 g Hg|class i r s' Hrm|t st|t
    |t reason|t|pid r Hr _|pid r r' Hr Hs Hp|pid t r Hr Ht HG|pid phase nonces out nonces' s' HG H
    |pid bytes sq mode scale now out s' _ H|pid freed policy sq now out s' _ H|what|];
    try (by apply slots_eq).
  - apply slots_eq. by rewrite H.
  - intros pid r'. rewrite grant_permits. intros [[<- <-]|[_ Hr']]%lookup_insert_Some.
    + eapply (slot_granted _ _ _ _ class (untag r)); [|done|done].
      eapply list_elem_of_lookup_2, (remove_pending_waiting _ _ _ _ _ Hrm).
    + eapply slot_kept; [|done]. rewrite <-Hr'. cbn. rewrite H2.
      by apply remove_pending_holdings in Hrm as [<-].
  - apply slots_eq. by apply remove_pending_holdings in Hrm as [].
  - apply slots_eq, record_terminal_charges.
  - apply slots_eq, forget_terminal_charges.
  - intros pid' r'. rewrite unwind_charges_permits. intros [_ Hr']%lookup_delete_Some.
    by eapply slot_kept.
  - eapply slots_insert; [exact Hr| |done]. unfold slot. rewrite Hp, (sp_phase _ _ Hs), (sp_lease _ _ Hs).
    pose proof (sp_key _ _ Hs) as E. unfold permit_key in E. cbn in E. unfold record_who.
    by injection E as _ _ -> -> -> _ _ _ -> _.
  - intros pid' r'. cbn. intros [[<- <-]|[_ Hr']]%lookup_insert_Some.
    + by eapply slot_answered.
    + by eapply slot_kept.
  - apply advance_phase_cases in H as [(_ & _ & _ & ->)|(r & Hr & _ & E & _)]; [by apply slots_eq|].
    subst s'. intros pid' r' Hx. change (gs_permits _) with (<[pid := advanced_record phase nonces r]> (gs_permits s)) in Hx.
    revert Hx. intros [[<- <-]|[_ Hr']]%lookup_insert_Some.
    + by eapply slot_advanced.
    + by eapply slot_kept.
  - by eapply reconcile_slots.
  - by eapply release_stage_slots.
  - apply slots_eq, record_fault_charges.
Qed.

(** ** A submission's own identities *)

(** The permit and the ticket issued together stay together: the request that
    reserves the permit waits under the ticket, and nothing else answers it. *)
Record paired (ids : Ids) (s : GovernedState) : Prop := {
  pd_queue class q :
    q ∈ waiting s class → pr_permit_id q = id_permit ids ↔ pr_ticket q = id_ticket ids;
  pd_permit pid r :
    gs_permits s !! pid = Some r → rec_pending_ticket r = Some (id_ticket ids) →
    pid = id_permit ids;
}.

(** Not dispatched by anybody, and charging [caps] once granted. *)
Record undispatched (caps : CapabilityRequirementSet) (pid : PermitId) (s : GovernedState) : Prop := {
  ud_permit r :
    gs_permits s !! pid = Some r →
    rec_phase r = DispatchReserved ∧ rec_lease_nonce r = None ∧ rec_capabilities r = caps;
  ud_queue class q :
    q ∈ waiting s class → pr_permit_id q = pid → pr_capabilities q = caps;
}.

(** Unanswered: a live permit still answers its ticket. *)
Definition unanswered (ids : Ids) (s : GovernedState) : Prop :=
  ∀ r, gs_permits s !! id_permit ids = Some r → rec_pending_ticket r = Some (id_ticket ids).

Section moves.
Context (ids : Ids) (caps : CapabilityRequirementSet).

(** What the slots and the queues of a state keep. *)
Lemma slots_paired G s s' :
  ¬ may_answer G (id_ticket ids) → slots G s s' → dequeues s s' → paired ids s → paired ids s'.
Proof.
  intros HG Hs Hd [Hq Hp]. split.
  - intros class q Hin. eapply Hq. by eapply dequeues_elem.
  - intros pid r' [r Hr E|class q Hin <- E|r Hr _ E _ _|r t _ _ _ E]%Hs Ht.
    + apply (Hp pid r); [done|]. unfold slot in E. congruence.
    + apply (Hq _ _ Hin). unfold slot in E. congruence.
    + apply (Hp pid r); [done|congruence].
    + unfold slot in E. congruence.
Qed.

Lemma slots_undispatched G s s' :
  ¬ may_lease G (id_permit ids) → slots G s s' → dequeues s s' →
  undispatched caps (id_permit ids) s → undispatched caps (id_permit ids) s'.
Proof.
  intros HG Hs Hd [Hp Hq]. split.
  - intros r' [r Hr E|class q Hin Eq E|r _ Hl _ _ _|r t Hr _ _ E]%Hs; [..|done|].
    + destruct (Hp r Hr) as (E1 & E2 & E3). unfold slot in E. split_and!; congruence.
    + pose proof (Hq _ _ Hin Eq). unfold slot in E. split_and!; congruence.
    + destruct (Hp r Hr) as (E1 & E2 & E3). unfold slot in E. split_and!; congruence.
  - intros class q Hin. eapply Hq. by eapply dequeues_elem.
Qed.

Lemma slots_unanswered G s s' :
  ¬ may_answer G (id_ticket ids) → slots G s s' → paired ids s → unanswered ids s → unanswered ids s'.
Proof.
  intros HG Hs [Hq _] Hu r' [r Hr E|class q Hin Eq E|r Hr _ E _ _|r t Hr Ht Ha E]%Hs.
  - specialize (Hu r Hr). unfold slot in E. congruence.
  - apply (Hq _ _ Hin) in Eq. unfold slot in E. congruence.
  - specialize (Hu r Hr). congruence.
  - specialize (Hu r Hr). assert (t = id_ticket ids) as -> by congruence. done.
Qed.
End moves.

(** A leased permit is there until its lease is spent. *)
Definition leased (caps : CapabilityRequirementSet) (pid : PermitId) (nonce : N)
    (s : GovernedState) : Prop :=
  ∃ r, gs_permits s !! pid = Some r ∧ rec_lease_nonce r = Some nonce ∧ rec_capabilities r = caps.

Lemma evolves_capabilities r r' : evolves r r' → rec_capabilities r' = rec_capabilities r.
Proof. intros [K _ _]. unfold permit_key in K. by injection K. Qed.

Lemma tstep_leased G P s s' caps pid nonce :
  ¬ may_spend G pid → tstep_of G P s s' → leased caps pid nonce s → leased caps pid nonce s'.
Proof.
  intros HG Hstep (r & Hr & Hl & Hc).
  assert (is_Some (gs_permits s' !! pid)) as Hs'.
  { destruct Hstep as [sampled|s' [H _]|f|class i q s1 s2 now Hrm [H2 ?] Hpred s3 g Hg|class i q s' Hrm|t st|t
      |t reason|t|pid' x Hx Hp|pid' x x' Hx Hs Hp|pid' t x Hx Ht _|pid' phase nonces out nonces' s' _ H
      |pid' bytes sq mode scale now out s' _ H|pid' freed policy sq now out s' _ H|what|];
      cbn; try (by eexists).
    - rewrite H. by eexists.
    - rewrite grant_permits. apply lookup_insert_is_Some'. right. cbn. rewrite H2.
      rewrite (sh_permits _ _ (remove_pending_holdings _ _ _ _ _ Hrm)). by eexists.
    - rewrite (sh_permits _ _ (remove_pending_holdings _ _ _ _ _ Hrm)). by eexists.
    - rewrite (sc_permits _ _ (record_terminal_charges _ _ _)). by eexists.
    - rewrite (sc_permits _ _ (forget_terminal_charges _ _)). by eexists.
    - rewrite unwind_charges_permits. rewrite lookup_delete_ne; [by eexists|]. intros ->.
      destruct Hp as [Hp|Hp]; [congruence|done].
    - apply lookup_insert_is_Some'. right. by eexists.
    - apply lookup_insert_is_Some'. right. by eexists.
    - apply advance_phase_cases in H as [(_ & _ & _ & ->)|(x & Hx & _ & -> & _)]; [by eexists|].
      apply lookup_insert_is_Some'. right. by eexists.
    - revert H. unfold reconcile. destruct (gs_permits s !! pid') as [x|] eqn:Hx; [|intros [= <- <-]; by eexists].
      do 2 (case_decide; [intros [= <- <-]; by eexists|]).
      destruct (effective_units _ _ _ _) as [err|u]; intros [= <- <-].
      + rewrite (sc_permits _ _ (record_fault_charges _ _)). by eexists.
      + rewrite memory_delta_permits. apply lookup_insert_is_Some'. right. by eexists.
    - revert H. unfold release_stage_memory. destruct (negb _); [intros [= <- <-]; by eexists|].
      destruct (gs_permits s !! pid') as [x|] eqn:Hx; [|intros [= <- <-]; by eexists].
      destruct (match sq with Some n => _ | None => false end); intros [= <- <-]; [by eexists|].
      rewrite memory_delta_permits. apply lookup_insert_is_Some'. right. by eexists.
    - rewrite (sc_permits _ _ (record_fault_charges _ _)). by eexists. }
  destruct Hs' as [r' Hr']. exists r'.
  destruct (tstep_permits _ _ _ (tstep_any _ _ _ _ Hstep)) as [Hf|class i q s1 x Hrm _ _ Ep Hn].
  - destruct (Hf _ _ Hr') as (r0 & Hr0 & Ev). simplify_eq.
    split_and!; [done|by apply (ev_lease _ _ Ev)|by apply evolves_capabilities].
  - split; [done|]. rewrite Ep in Hr'.
    apply lookup_insert_Some in Hr' as [[E <-]|[_ Hr']]; [congruence|by simplify_eq].
Qed.
