(* ===== verification/Total.v ===== *)
(** * No critical section panics

    On every state a run reaches, with room for one promotion pass, each public
    operation answers: no [expect] of the engine fires, no index is out of range, no
    checked sum fails.  Left alone, the drain loop of a caller ends with nothing
    runnable and no wait cycle. *)

From S2P Require Import Prelude Contract Text Kernel PolicyCheck Requirements State Assess Fairness.
From S2P Require Import Admission Memory Governor Books Custody Ledger Moves Reads Invariant Steps.
From S2P Require Import Selection Ring Dispatch Sections Progress Lifecycle Trace System Queues.
From S2P Require Import Runs Fifo Consistency Fates.

Section total.
Context (P : PolicySet) (B : N) (Htyped : policies_typed P) (HB : B ≤ U64_MAX).
Context (Hq : quanta_positive P).
Context (s : GovernedState) (HI : Inv P B s) (Hroom : room (N.of_nat PROMOTION_BUDGET) s).

Lemma promote_after now s1 e :
  keeps P B 0 s s1 → ∃ s' e', absorb_promote P now s1 e = Some (s', e').
Proof.
  intros [H1 Hg1]. eapply (absorb_promote_total P B Htyped HB Hq); [done|by eapply grows_room].
Qed.

(** The continuations all have this shape. *)
Lemma promote_answers {A} (out : A) now s1 e :
  keeps P B 0 s s1 →
  is_Some ('(s', e') ← absorb_promote P now s1 e; Some (out, s', e')).
Proof. intros H. destruct (promote_after now s1 e H) as (s' & e' & ->). by eexists. Qed.

Local Ltac start sampled :=
  pose proof (committed P B s HI sampled) as Hc;
  destruct (commit_time sampled s) as [now s1]; cbn [snd] in Hc.

Lemma release_section_total sampled pid proof : is_Some (release_section P sampled pid proof s).
Proof.
  unfold release_section. start sampled.
  destruct (release_with_proof _ _ _ _) as [[o s2] e2] eqn:Er.
  pose proof (release_keeps P B HB s _ _ _ _ _ _ _ _ Hc Er) as H2.
  destruct o; [by apply promote_answers|by eexists..].
Qed.

Lemma admit_compensate_total sampled pid : is_Some (admit_compensate_section P sampled pid s).
Proof.
  unfold admit_compensate_section. start sampled.
  destruct (release_with_proof _ _ _ _) as [[o s2] e2] eqn:Er.
  pose proof (release_keeps P B HB s _ _ _ _ _ _ _ _ Hc Er) as H2.
  destruct o; [|by eexists..]. destruct (promote_after now s2 e2 H2) as (s' & e' & ->). by eexists.
Qed.

Lemma claim_compensate_total sampled t pid : is_Some (claim_compensate_section P sampled t pid s).
Proof.
  unfold claim_compensate_section. start sampled.
  destruct (gs_tickets s1 !! t) as [[class|pid'|pid'|reason|]|]; try by eexists.
  destruct (release_with_proof_reason _ _ _ _ _) as [[o s2] e2] eqn:Er.
  pose proof (release_keeps P B HB s _ _ _ _ _ _ _ _ Hc Er) as H2.
  destruct o; [|by eexists..]. destruct (promote_after now s2 e2 H2) as (s' & e' & ->). by eexists.
Qed.

Lemma stage_release_total sampled pid freed sequence :
  is_Some (stage_release_section P sampled pid freed sequence s).
Proof.
  unfold stage_release_section. start sampled.
  pose proof (room_committed P B HB s Hroom s1 Hc) as Hroom1.
  destruct (gs_permits s1 !! pid) as [r|]; [|by eexists].
  destruct (ps_class P (rec_class r)) as [policy|]; [|by eexists].
  destruct (release_stage_memory _ _ _ _ _ _) as [o s2] eqn:Er.
  destruct Hc as [H1 Hg1]. apply (inv_release_stage P B) in Er as [H2 Hg2]; [|done..].
  apply promote_answers. split; [done|]. by apply (grows_trans 0 0 s s1).
Qed.

Lemma reconcile_total sampled pid bytes epoch :
  is_Some (reconcile_section P sampled pid bytes epoch s).
Proof.
  unfold reconcile_section. start sampled.
  pose proof (room_committed P B HB s Hroom s1 Hc) as Hroom1.
  destruct (gs_permits s1 !! pid) as [r|]; [|by eexists].
  destruct (ps_class P (rec_class r)) as [policy|]; [|by eexists].
  destruct (match epoch with Some _ => _ | None => _ end) as [o|sequence]; [by eexists|].
  destruct (reconcile _ _ _ _ _ _ _) as [o s2] eqn:Er.
  destruct Hc as [H1 Hg1]. apply (inv_reconcile P B) in Er as [H2 Hg2]; [|done..].
  destruct o; try by eexists.
  - apply promote_answers. split; [done|]. by apply (grows_trans 0 0 s s1).
  - destruct (fault_all_total P B HB s2 no_effects H2) as (s' & e' & ->). by eexists.
Qed.

Lemma reap_total sampled stale : is_Some (reap_section P sampled stale s).
Proof.
  unfold reap_section. start sampled.
  destruct (reap_leaks _ _ _ _ _) as [[rep s2] e2] eqn:Er. apply promote_answers.
  unfold reap_leaks in Er. destruct (reap_permits _ _ _ _) as [[n s4] e4] eqn:Ep. simplify_eq.
  by apply (reap_permits_keeps P B HB s) in Ep.
Qed.

Lemma continue_total sampled : is_Some (continue_section P sampled s).
Proof.
  unfold continue_section. start sampled. destruct Hc as [H1 Hg1].
  destruct (promote_total P B Htyped HB Hq now s1 H1) as (s' & e & -> & _);
    [by eapply grows_room|by eexists].
Qed.

Lemma abandon_queued_total now class t s1 :
  keeps P B 0 s s1 → custody s1 t = Some (Waits class) →
  is_Some (abandon_queued P now class t s1).
Proof.
  intros Hk Ecu. pose proof Hk as [H1 _]. unfold abandon_queued.
  destruct (queued_position_Some P B s1 class t H1 Ecu) as (i & c & r & Epos & Hc & Hi & Hrt).
  destruct (remove_pending_total s1 class i (untag r)) as (r' & s2 & Hrm).
  { unfold waiting. rewrite (class_state_Some _ _ _ Hc). by apply list_lookup_fmap_Some_2. }
  destruct (queued_policy P B s1 class (untag r) H1) as [policy Hp].
  { unfold waiting. rewrite (class_state_Some _ _ _ Hc).
    by apply list_elem_of_fmap_2, list_elem_of_lookup_2 with i. }
  pose proof (remove_pending_cases _ _ _ _ _ Hrm) as (c' & Hc' & Hi' & _).
  assert (r' = r) as -> by congruence. subst t.
  rewrite Epos. cbn [mbind option_bind]. rewrite Hrm. cbn [mbind option_bind]. rewrite Hp.
  cbn [mbind option_bind].
  pose proof (abandoned_keeps P B HB s class i r s1 s2 policy Hk Hrm) as Ha.
  exact (promote_answers AbandonDone now _ (push_retire (pr_waker r) no_effects) Ha).
Qed.

Lemma abandon_held_total now t s1 :
  keeps P B 0 s s1 →
  ∀ pid, is_Some (match release_with_proof_reason pid None Abandoned s1 no_effects with
  | (ReleaseDone, s, e) =>
    '(s, e) ← absorb_promote P now (forget_terminal_ticket t s) e; Some (AbandonDone, s, e)
  | (ReleaseHeldByLease phase, s, e) => Some (AbandonHeldByLease phase, s, e)
  | (ReleaseUnknownPermit, s, e) => Some (AbandonInvalid, upd_gs_tickets (delete t) s, e)
  end).
Proof.
  intros Hk pid. destruct (release_with_proof_reason _ _ _ _ _) as [[o s2] e2] eqn:Er.
  pose proof (release_keeps P B HB s _ _ _ _ _ _ _ _ Hk Er) as H2.
  destruct o; [|by eexists..]. apply promote_answers. eapply (then_settled P B s);
    [done|apply forget_terminal_charges|apply forget_terminal_custody|apply forget_terminal_no_new].
Qed.

Lemma abandon_total sampled t : is_Some (abandon_section P sampled t s).
Proof.
  unfold abandon_section. start sampled.
  destruct (gs_tickets s1 !! t) as [[class|pid|pid|reason|]|] eqn:Et; try by eexists.
  - apply abandon_queued_total; [done|]. unfold custody. by rewrite Et.
  - by apply abandon_held_total.
  - by apply abandon_held_total.
Qed.

(** ** Admission *)

Section admission.
Context (Horder : gs_next_queue_order s < U128_MAX).
Context (now : N) (req : AdmissionRequest) (w : option Waker) (ids : Ids) (e : TransitionEffects).

Lemma enqueue_or_full_total policy class block :
  is_Some (enqueue_or_full policy class req w ids now block s e).
Proof.
  unfold enqueue_or_full. case_decide; [by eexists|].
  pose proof (enqueue_tags_books s class policy (rc_cpu_units (resolve_cost policy)) now) as H0.
  destruct (enqueue_tags _ _ _ _ _) as [tags s0]. cbn [snd] in H0.
  unfold enqueue. rewrite (books_queue_order _ _ H0). unfold checked_add.
  rewrite decide_True by (clear -Horder; lia). by eexists.
Qed.

Lemma admit_block_total policy class degrade block :
  (∀ retry_on fallback, degrade = Some retry_on → is_Some (retry_on fallback)) →
  is_Some (admit_block policy now req class w ids degrade block s e).
Proof.
  intros Hd. unfold admit_block.
  destruct block; try (by eexists); try apply enqueue_or_full_total;
    try (destruct (is_queueable _); [apply enqueue_or_full_total|by eexists]).
  destruct (memory_overcommit_policy policy), degrade as [retry_on|];
    try apply enqueue_or_full_total; try (by eexists). by apply Hd.
Qed.

Lemma admit_class_total hops class : is_Some (admit_class hops P now req class w ids s e).
Proof.
  revert class. induction hops as [|hops IH]; intros class; cbn [admit_class];
    (destruct (ps_class P class) as [policy|]; [|by eexists]);
    (destruct (is_disabled policy); [by eexists|]);
    (destruct (has_operation_identity _ _ _); [by eexists|]);
    (destruct (is_recursive _ _); [by eexists|]);
    destruct (assess _ _ _ _ _ _ _ _) as [|b|w0] eqn:Ea;
    try (by apply admit_block_total; [done..|naive_solver]);
    apply assess_scope_head in Ea as [held Hh]; rewrite Hh; cbn [mbind option_bind].
  - by destruct (memory_overcommit_policy policy); eexists.
  - destruct (memory_overcommit_policy policy), (bool_decide (MemoryBudget ∈ cw_held w0));
      try (by eexists). apply IH.
Qed.
End admission.
End total.

(** ** Runs *)

Lemma no_cycle_queue P s class c policy r w :
  queues_ok s → no_cycle P s → gs_classes s !! class = Some c → ps_class P class = Some policy →
  r ∈ cs_queue c → assess_pending s P r (max_inflight policy) false ≠ IrreversibleWaitCycle w.
Proof.
  intros Hok Hnc Hc Hp Hr Ha. specialize (Hok class). cbn zeta in Hok.
  unfold waiting in Hok. rewrite (class_state_Some _ _ _ Hc) in Hok.
  assert (is_awaited_child (pr_scope r) = true) as Hsc.
  { unfold assess_pending, assess_scope, cycle_witness in Ha.
    destruct (bl_is_empty _); [done|]. destruct (pr_scope r) as [|op l awaited]; [done|].
    by destruct awaited. }
  assert (pr_seq_no r ∈ cs_queued_awaited_children c) as Hseq.
  { apply (cq_awaited _ _ _ _ _ Hok). exists (untag r).
    split_and!; [by apply list_elem_of_fmap_2|done|done]. }
  apply (find_map_None _ _ (class, c)) in Hnc; [|by apply elem_of_btree_to_list].
  unfold class_cycle in Hnc. rewrite decide_False in Hnc by (intros E; rewrite E in Hseq; set_solver).
  rewrite Hp in Hnc. cbn [mbind option_bind] in Hnc.
  destruct (find_enum _ _ _) as [[i r0]|] eqn:Ef.
  - cbn [mbind option_bind] in Hnc. apply find_enum_Some in Ef as (j & _ & _ & Hf & _).
    apply andb_true_iff in Hf as [_ Hf]. by destruct (assess_pending _ _ r0 _ _).
  - apply (proj1 (find_enum_None _ _ _) Ef) in Hr. rewrite Ha, andb_true_r in Hr.
    by apply bool_decide_eq_false in Hr.
Qed.

Section runs.
Context (P : PolicySet) (authority : N) (Hwf : policy_wf P) (Htyped : policies_typed P).

(** A continuation pass that leaves runnable work has shortened the queues. *)
Lemma continue_runs sampled w :
  reachable P authority w → room (N.of_nat PROMOTION_BUDGET) (w_state w) →
  ∃ s e, continue_section P sampled (w_state w) = Some (s, e) ∧
    N.of_nat (size (gs_permits s)) + backlog s ≤
      N.of_nat (size (gs_permits (w_state w))) + backlog (w_state w) ∧
    if eff_more_runnable e then backlog s < backlog (w_state w)
    else has_runnable s P = false ∧ no_cycle P s.
Proof.
  intros Hw Hroom. destruct (reachable_inv P authority w Htyped Hw) as (B & HI & HB).
  unfold continue_section. pose proof (commit_time_books sampled (w_state w)) as Hb.
  destruct (commit_time sampled (w_state w)) as [now s1]. cbn in Hb.
  pose proof (backlog_books _ _ Hb) as Ebl. rewrite <-Hb in HI.
  assert (room (N.of_nat PROMOTION_BUDGET) s1) as Hroom1
    by (unfold room in *; by rewrite (books_permits _ _ Hb)).
  destruct (promote_total P B Htyped ltac:(lia) (policy_wf_quanta P Hwf) now s1 HI Hroom1)
    as (s2 & e2 & Hp & Hsz & Hm).
  exists s2, e2. rewrite (books_permits _ _ Hb), Ebl in *.
  split_and!; [done|done|]. by destruct (eff_more_runnable e2); [|destruct Hm as (_ & ? & ?)].
Qed.

(** One step of a caller's own, taken with room for a promotion pass. *)
Definition own_step (a : Action) : relation World := λ w w',
  room (N.of_nat PROMOTION_BUDGET) (w_state w) ∧ ∃ e, lstep P authority w a e w'.

Lemma own_step_reachable a w w' :
  reachable P authority w → own_step a w w' → reachable P authority w'.
Proof. intros Hw [Hroom [e Hs]]. eapply reachable_step; [done..|by eapply lstep_wstep]. Qed.

Lemma own_steps_reachable a w w' :
  reachable P authority w → rtc (own_step a) w w' → reachable P authority w'.
Proof. intros Hw H. induction H as [|w w1 w' H1 _ IH]; [done|]. by eapply IH, own_step_reachable. Qed.

(** What a caller that is left alone makes of the effects of one of its sections. *)
Lemma drain_runs fuel sampled e w :
  reachable P authority w → room (N.of_nat PROMOTION_BUDGET + backlog (w_state w)) (w_state w) →
  backlog (w_state w) + 1 < N.of_nat fuel →
  ∃ s woken, drain fuel P sampled e (w_state w) = Some (s, woken) ∧
    rtc (own_step AContinue) w (with_state s w) ∧
    (eff_more_runnable e = true → has_runnable s P = false ∧ no_cycle P s).
Proof.
  revert e w. induction fuel as [|fuel IH]; intros e w Hw Hroom Hf; [lia|]. cbn [drain].
  destruct (eff_more_runnable e).
  2: { eexists _, _. split; [done|]. split; [by destruct w|done]. }
  assert (room (N.of_nat PROMOTION_BUDGET) (w_state w)) as Hroom0
    by (by eapply room_mono; [|done]; lia).
  destruct (continue_runs sampled w Hw Hroom0) as (s2 & e2 & Hc & Hsz & Hm).
  assert (own_step AContinue w (with_state s2 w)) as Hs2
    by (split; [done|]; eexists; by eapply step_continue).
  pose proof (own_step_reachable _ _ _ Hw Hs2) as Hw2. rewrite Hc. cbn [mbind option_bind]. destruct (eff_more_runnable e2) eqn:Em.
  - destruct (IH e2 (with_state s2 w) Hw2) as (s' & woken & Hd & Hr & Hdone).
    { cbn. unfold room in *. lia. }
    { cbn. lia. }
    cbn in Hd. rewrite Hd. cbn [mbind option_bind]. rewrite Em in Hdone.
    exists s', (eff_wake e ++ woken). split; [done|]. split; [by eapply rtc_l|by intros _; apply Hdone].
  - destruct fuel as [|fuel]; [lia|]. cbn [drain]. rewrite Em. cbn [mbind option_bind].
    destruct Hm as (Hr & Hn). eexists _, _. split; [done|]. split; [by apply rtc_once|done].
Qed.

(** Admission answers on the identities its caller was issued. *)
Lemma admit_section_total sampled req waker ids w :
  reachable P authority w → ids ∈ w_outstanding w →
  is_Some (admit_section P sampled req waker ids (w_state w)).
Proof.
  intros Hw Hids. unfold admit_section. pose proof (reachable_queues P authority Htyped w Hw) as Hwq.
  pose proof (wq_order _ Hwq) as Ho.
  destruct (reachable_ok P authority Htyped w Hw) as [(B' & _ & _ & Hmax) _ _ _ _ _ _].
  destruct (commit_time sampled (w_state w)) as [now s1] eqn:Ec. unfold admit_request.
  destruct (gs_admission_closed s1); [by eexists|]. apply admit_class_total.
  assert (gs_next_queue_order s1 = gs_next_queue_order (w_state w)) as ->
    by (unfold commit_time in Ec; by simplify_eq).
  ulia.
Qed.
End runs.

(** C5: no critical section panics.  In every run, as long as a promotion pass has
    room, each public operation answers on any input: admission with the identities
    its caller was issued, compensation, abandonment, release, reconciliation, stage
    release, the leak sweep and the continuation pass all return; none of their
    [expect]s, indexings or checked sums fails. *)
Theorem sections_total P authority w sampled :
  policy_wf P → policies_typed P → reachable P authority w →
  room (N.of_nat PROMOTION_BUDGET) (w_state w) →
  let s := w_state w in
  (∀ req waker ids, ids ∈ w_outstanding w → is_Some (admit_section P sampled req waker ids s)) ∧
  (∀ pid, is_Some (admit_compensate_section P sampled pid s)) ∧
  (∀ t pid, is_Some (claim_compensate_section P sampled t pid s)) ∧
  (∀ t, is_Some (abandon_section P sampled t s)) ∧
  (∀ pid proof, is_Some (release_section P sampled pid proof s)) ∧
  (∀ pid bytes epoch, is_Some (reconcile_section P sampled pid bytes epoch s)) ∧
  (∀ pid freed sequence, is_Some (stage_release_section P sampled pid freed sequence s)) ∧
  (∀ stale, is_Some (reap_section P sampled stale s)) ∧
  is_Some (continue_section P sampled s).
Proof.
  intros Hwf Ht Hw Hroom s. destruct (reachable_inv P authority w Ht Hw) as (B & HI & HB).
  assert (B ≤ U64_MAX) as HB' by lia. pose proof (policy_wf_quanta P Hwf) as Hq.
  split_and!; intros.
  - by apply (admit_section_total P authority Ht).
  - by apply (admit_compensate_total P B).
  - by apply (claim_compensate_total P B).
  - by apply (abandon_total P B).
  - by apply (release_section_total P B).
  - by apply (reconcile_total P B).
  - by apply (stage_release_total P B).
  - by apply (reap_total P B).
  - by apply (continue_total P B).
Qed.

(** C15: promotion drains.  From any state of a run, a caller that is left alone and
    has to continue promotion ends its loop, within one pass more than there are
    queued requests; what it leaves is a state of a run in which no request can be
    dispatched and no queued request sits in an irreversible wait cycle. *)
Theorem drain_settles P authority w sampled e :
  policy_wf P → policies_typed P → reachable P authority w →
  room (N.of_nat PROMOTION_BUDGET + backlog (w_state w)) (w_state w) →
  eff_more_runnable e = true →
  ∃ s woken, drain (N.to_nat (backlog (w_state w)) + 2) P sampled e (w_state w) = Some (s, woken) ∧
    reachable P authority (with_state s w) ∧ has_runnable s P = false ∧
    ∀ class policy r cycle, ps_class P class = Some policy → r ∈ cs_queue (class_state s class) →
      assess_pending s P r (max_inflight policy) false ≠ IrreversibleWaitCycle cycle.
Proof.
  intros Hwf Ht Hw Hroom He.
  destruct (drain_runs P authority Hwf Ht (N.to_nat (backlog (w_state w)) + 2) sampled e w)
    as (s & woken & Hd & Hr & Hdone); [done|done|lia|].
  apply own_steps_reachable in Hr; [|done].
  destruct (Hdone He) as [Hrun Hnc]. exists s, woken. split_and!; [done..|].
  intros class policy r cycle Hp Hin. unfold class_state in Hin.
  destruct (gs_classes s !! class) as [c|] eqn:Hc; [|by apply not_elem_of_nil in Hin].
  eapply no_cycle_queue; [|done..].
  exact (wq_ok _ (reachable_queues P authority Ht _ Hr)).
Qed.

(** ** Concrete runs *)

Local Open Scope string_scope.

Lemma select_dispatches_witness :
  match select (w_state fifo_before) demo_policy with
  | None => False
  | Some (None, s') => has_runnable (w_state fifo_before) demo_policy = false ∧ s' = w_state fifo_before
  | Some (Some _, _) => has_runnable (w_state fifo_before) demo_policy = true
  end.
Proof.
  pose proof (select_dispatches (w_state fifo_before) demo_policy demo_wf) as H.
  destruct (select (w_state fifo_before) demo_policy) as [[[sel|] s']|]; [exact (proj1 H)|exact H|exact H].
Defined.

Lemma fifo_room : room (N.of_nat PROMOTION_BUDGET + backlog (w_state fifo_before)) (w_state fifo_before).
Proof. vm_compute. discriminate. Qed.

Lemma sections_total_witness :
  is_Some (release_section demo_policy 20 (mkPermitId 1 3) None (w_state fifo_before)).
Proof.
  assert (room (N.of_nat PROMOTION_BUDGET) (w_state fifo_before)) as Hroom
    by (eapply room_mono; [|exact fifo_room]; lia).
  destruct (sections_total demo_policy 1 fifo_before 20 demo_wf demo_typed fifo_reachable Hroom)
    as (_ & _ & _ & _ & H & _).
  exact (H (mkPermitId 1 3) None).
Defined.

Lemma drain_settles_witness :
  ∃ s woken, drain (N.to_nat (backlog (w_state fifo_before)) + 2) demo_policy 20
      (upd_eff_more_runnable (λ _, true) no_effects) (w_state fifo_before) = Some (s, woken) ∧
    has_runnable s demo_policy = false.
Proof.
  destruct (drain_settles demo_policy 1 fifo_before 20 (upd_eff_more_runnable (λ _, true) no_effects)
    demo_wf demo_typed fifo_reachable fifo_room eq_refl) as (s & woken & H1 & _ & H2 & _).
  exists s, woken. exact (conj H1 H2).
Defined.
