(* ===== verification/Contracts.v ===== *)
(** * What the lifecycle operations answer

    Release asks for the right proof of custody: without it only the clock moves;
    with it the permit is gone and every other one stays.  A granted ticket can be
    claimed exactly once: the two halves of a claim hand over its permit and forget
    the ticket. *)

From S2P Require Import Prelude Contract Text Kernel PolicyCheck Requirements State Assess Fairness.
From S2P Require Import Admission Memory Governor Books Custody Ledger Moves Reads Invariant Steps.
From S2P Require Import Selection Ring Dispatch Sections Progress Lifecycle Trace System Queues.
From S2P Require Import Runs Fifo Consistency Fates Total.

(** ** Promotion takes no permit away *)

Section promotion.
Context (P : PolicySet) (B : N) (Htyped : policies_typed P) (HB : B ≤ U64_MAX).
Implicit Types s : GovernedState.

Lemma terminalize_permits s e t s' e' :
  terminalize_wait_cycle P s e = Some (t, s', e') → gs_permits s' = gs_permits s.
Proof.
  unfold terminalize_wait_cycle. intros H.
  destruct (find_map _ _) as [[[class index] w]|]; [|by simplify_eq].
  destruct (remove_pending class index s) as [[r s1]|] eqn:Hrm; [|by simplify_eq].
  apply bind_Some in H as (policy & _ & H). apply bind_Some in H as (held & _ & H). simplify_eq.
  rewrite (sc_permits _ _ (record_terminal_charges _ _ _)).
  transitivity (gs_permits s1); [done|]. by apply remove_pending_holdings in Hrm as [].
Qed.

Lemma promote_one_permits now s e granted s' e' :
  promote_one P now s e = Some (granted, s', e') → Inv P B s → gs_permits s ⊆ gs_permits s'.
Proof.
  unfold promote_one. intros H HI. apply bind_Some in H as ([sel s1] & Hsel & H).
  pose proof (select_books _ _ _ _ Hsel) as H1. rewrite <-(books_permits _ _ H1).
  destruct sel as [sel|]; [|by simplify_eq].
  destruct (remove_pending _ _ s1) as [[head s2]|] eqn:Hrm; [|by simplify_eq].
  apply bind_Some in H as (policy & _ & H). simplify_eq. rewrite grant_permits. cbn.
  assert (gs_permits s1 = gs_permits s2) as ->
    by (symmetry; by apply remove_pending_holdings in Hrm as []).
  apply insert_subseteq.
  change (gs_permits s2 !! pr_permit_id head = None).
  pose proof (remove_pending_waiting _ _ _ _ _ Hrm) as [Hi _].
  pose proof (remove_pending_holdings _ _ _ _ _ Hrm) as Hh. rewrite (sh_permits _ _ Hh).
  rewrite <-H1 in HI.
  exact (custody_fresh _ _ (inv_custody _ _ _ HI) _ _ (list_elem_of_lookup_2 _ _ _ Hi)).
Qed.

Lemma promote_loop_permits slots now changed s e changed' budget s' e' :
  promote_loop slots P now changed s e = Some (changed', budget, s', e') →
  room (N.of_nat slots) s → Inv P B s → gs_permits s ⊆ gs_permits s'.
Proof.
  revert changed s e. induction slots as [|slots IH]; intros changed s e H Hroom HI; cbn in H.
  { by simplify_eq. }
  apply bind_Some in H as ([[granted s1] e1] & Hone & H).
  pose proof (promote_one_permits _ _ _ _ _ _ Hone HI) as Hsub.
  apply (promote_one_keeps P B Htyped HB) in Hone as [HI1 Hg1];
    [|by eapply room_mono; [|done]; lia|done].
  destruct granted; [|by simplify_eq]. etransitivity; [done|]. eapply IH; [done| |done].
  eapply grows_room; [done|]. by rewrite <-Nat2N.inj_add.
Qed.

Lemma promote_permits now s s' e :
  promote P now s = Some (s', e) → room (N.of_nat PROMOTION_BUDGET) s → Inv P B s →
  gs_permits s ⊆ gs_permits s'.
Proof.
  unfold promote. intros H Hroom HI.
  apply bind_Some in H as ([[r1 s1] e1] & H1 & H).
  apply bind_Some in H as ([[[c2 b2] s2] e2] & H2 & H).
  apply bind_Some in H as ([[r3 s3] e3] & H3 & H). simplify_eq.
  pose proof (terminalize_permits _ _ _ _ _ H1) as <-.
  apply (terminalize_keeps P B HB) in H1 as [HI1 Hg1]; [|done].
  apply promote_loop_permits in H2; [|by eapply grows_room|done].
  assert (gs_permits s3 = gs_permits s2) as E.
  { destruct c2; [|by simplify_eq].
    apply bind_Some in H3 as ([[t s4] e4] & H3 & ?). simplify_eq. by eapply terminalize_permits. }
  change (gs_permits s1 ⊆ gs_permits s3). by rewrite E.
Qed.
End promotion.

(** ** Release *)

Lemma unwind_live pid reason s e r :
  gs_permits s !! pid = Some r →
  ∃ r' s' e', unwind pid reason s e = (Some r', s', e') ∧
    gs_permits s' = delete pid (gs_permits s).
Proof.
  intros Hr. unfold unwind. rewrite Hr. destruct (rec_pending_ticket r) as [t|].
  - eexists _, _, _. split; [done|].
    by rewrite (sc_permits _ _ (record_terminal_charges _ _ _)), unwind_charges_permits.
  - eexists _, _, _. split; [done|]. by rewrite unwind_charges_permits.
Qed.

(** What a release answers and leaves. *)
Lemma release_section_spec P authority w sampled pid proof :
  policy_wf P → policies_typed P → reachable P authority w →
  room (N.of_nat PROMOTION_BUDGET) (w_state w) →
  let s := w_state w in
  ∃ out s' e, release_section P sampled pid proof s = Some (out, s', e) ∧
    match gs_permits s !! pid with
    | None => out = ReleaseUnknownPermit ∧ s' = (commit_time sampled s).2 ∧ e = no_effects
    | Some r =>
      if decide (rec_lease_nonce r = proof)
      then out = ReleaseDone ∧ gs_permits s' !! pid = None ∧
           delete pid (gs_permits s) ⊆ gs_permits s'
      else out = ReleaseHeldByLease (rec_phase r) ∧ s' = (commit_time sampled s).2 ∧ e = no_effects
    end.
Proof.
  intros Hwf Ht Hw Hroom s. destruct (reachable_inv P authority w Ht Hw) as (B & HI & HB).
  fold s in HI, Hroom. pose proof (committed P B s HI sampled) as Hc.
  pose proof (commit_time_books sampled s) as Hb. unfold release_section.
  destruct (commit_time sampled s) as [now s1]. cbn [snd] in *.
  rewrite <-(books_permits _ _ Hb).
  unfold release_with_proof, release_with_proof_reason.
  destruct (gs_permits s1 !! pid) as [r|] eqn:Hr; [|by eexists _, _, _].
  case_decide as Hp; [|by eexists _, _, _].
  destruct (unwind_live pid Released s1 no_effects r Hr) as (r' & s2 & e2 & Hu & Ep).
  rewrite Hu. pose proof Hc as [HI1 Hg1].
  pose proof Hu as Hk2. apply (inv_unwind P B) in Hk2 as [HI2 Hg2]; [|done..].
  assert (keeps P B 0 s s2) as Hk by (split; [done|]; by apply (grows_trans 0 0 s s1)).
  destruct (promote_after P B Ht HB (policy_wf_quanta P Hwf) s Hroom now s2 e2 Hk) as (s' & e' & Hpr).
  rewrite Hpr. cbn [mbind option_bind]. eexists _, _, _. split; [done|]. split; [done|].
  unfold absorb_promote in Hpr. apply bind_Some in Hpr as ([s3 e3] & Hpr & ?). simplify_eq.
  assert (room (N.of_nat PROMOTION_BUDGET) s2) as Hroom2 by (eapply grows_room; [apply Hk|done]).
  pose proof (promote_permits P B Ht HB _ _ _ _ Hpr Hroom2 HI2) as Hsub. split.
  - apply eq_None_not_Some. intros [x Hx].
    assert (trace P s2 s') as Htr by (by eapply (promote_trace P B)).
    assert (permit_forward pid s2 s') as Hf
      by (eapply trace_rel; [apply _|apply tstep_permit_forward|exact Htr]).
    destruct Hf as [_ Hf].
    + intros (class & q & Hq & Eq).
      assert (q ∈ waiting s1 class) as Hq1.
      { eapply dequeues_elem; [|exact Hq]. eapply (trace_dequeues P), unwind_trace; [|done..]. by right. }
      pose proof (custody_fresh _ _ (inv_custody _ _ _ HI1) _ _ Hq1) as Hfr. congruence.
    + destruct (Hf x Hx) as (r0 & Hr0 & _). rewrite Ep, lookup_delete_eq in Hr0. done.
  - rewrite <-Ep. exact Hsub.
Qed.

(** C25: release is a check of custody.  An unknown permit and a wrong proof are
    refused and nothing but the clock moves; with the right proof (no token before
    dispatch, the leased nonce after) the release succeeds, the permit is gone and
    all others stay as they were. *)
Theorem release_contract P authority w sampled pid proof :
  policy_wf P → policies_typed P → reachable P authority w →
  room (N.of_nat PROMOTION_BUDGET) (w_state w) →
  let s := w_state w in
  ∃ out s' e, release_section P sampled pid proof s = Some (out, s', e) ∧
    match gs_permits s !! pid with
    | None => out = ReleaseUnknownPermit ∧ s' = (commit_time sampled s).2 ∧ e = no_effects
    | Some r =>
      if decide (rec_lease_nonce r = proof)
      then out = ReleaseDone ∧ gs_permits s' !! pid = None ∧
           delete pid (gs_permits s) ⊆ gs_permits s'
      else out = ReleaseHeldByLease (rec_phase r) ∧ s' = (commit_time sampled s).2 ∧ e = no_effects
    end.
Proof. apply release_section_spec. Qed.

(** ** Claims *)

(** C26: a granted ticket is claimed exactly once.  The two critical sections of a
    claim answer [ClaimProceeds] and then [Ready] with the permit the ticket was
    granted, which stays live, keeps what identifies it and its phase, and carries
    no ticket and no notifier any more; in between the ticket reads as pending,
    afterwards it is unknown and a second claim is refused. *)
Theorem claim_round_trip P authority w t pid at1 at2 at3 :
  policies_typed P → reachable P authority w →
  gs_tickets (w_state w) !! t = Some (TGranted pid) →
  ∃ r e s1 s2 r',
    gs_permits (w_state w) !! pid = Some r ∧
    claim_begin_section at1 t (w_state w) = (ClaimProceeds pid, s1, e) ∧
    ticket_status s1 t = ClaimPending ∧
    claim_finish_section at2 t s1 = (Ready pid, s2) ∧
    gs_permits s2 !! pid = Some r' ∧ same_permit r r' ∧
    rec_pending_ticket r' = None ∧ rec_claim_waker r' = None ∧
    ticket_status s2 t = ClaimInvalid ∧
    (claim_begin_section at3 t s2).1.1 = ClaimReturns ClaimInvalid.
Proof.
  intros Ht Hw Hg. set (s := w_state w) in *.
  destruct (reachable_inv P authority w Ht Hw) as (B & HI & _). fold s in HI.
  assert (custody s t = Some (Holds pid)) as Hcu by (unfold custody; by rewrite Hg).
  apply (custody_live _ _ (inv_custody _ _ _ HI)) in Hcu as (r & Hr & _).
  eexists r, _, _, _, _. split; [done|].
  unfold claim_begin_section, claim_finish_section, commit_time.
  cbn [gs_tickets gs_permits upd_gs_commit_watermark_ms]. rewrite Hg, Hr. split; [done|].
  unfold ticket_status. cbn [gs_tickets gs_permits upd_gs_tickets upd_gs_permits].
  rewrite !lookup_insert_eq. split; [done|]. split; [done|].
  cbn [gs_tickets gs_permits upd_gs_tickets upd_gs_permits upd_gs_commit_watermark_ms].
  rewrite lookup_insert_eq, lookup_delete_eq. by split_and!.
Qed.

(** ** Concrete runs *)

Local Open Scope string_scope.

Lemma release_contract_witness :
  ∃ s' e, release_section demo_policy 20 (mkPermitId 1 3) None (w_state fifo_before) =
      Some (ReleaseDone, s', e) ∧ gs_permits s' !! mkPermitId 1 3 = None.
Proof.
  destruct (release_contract demo_policy 1 fifo_before 20 (mkPermitId 1 3) None demo_wf demo_typed
    fifo_reachable) as (out & s' & e & H1 & H2).
  { eapply room_mono; [|exact fifo_room]. lia. }
  destruct (gs_permits (w_state fifo_before) !! mkPermitId 1 3) as [r|] eqn:Hr;
    [|vm_compute in Hr; discriminate Hr].
  assert (rec_lease_nonce r = None) as Hl by (vm_compute in Hr; by injection Hr as <-).
  destruct (decide (rec_lease_nonce r = None)) as [_|Hn]; [|by destruct Hn].
  destruct H2 as (Ho & Hp & _). rewrite Ho in H1. exists s', e. exact (conj H1 Hp).
Defined.

(** The first waiting ticket after one release. *)
Definition fifo_promoted : World :=
  default World_initial (run demo_policy 1 [LRelease 20 (mkPermitId 1 3) None] fifo_before).

Lemma fifo_promoted_reachable : reachable demo_policy 1 fifo_promoted.
Proof.
  apply (run_reachable demo_policy 1 [LRelease 20 (mkPermitId 1 3) None] fifo_before);
    [apply fifo_reachable|]. vm_compute. reflexivity.
Qed.

Lemma claim_round_trip_witness :
  ∃ e s1 s2, claim_begin_section 30 (mkTicket 1 2) (w_state fifo_promoted) =
      (ClaimProceeds (mkPermitId 1 2), s1, e) ∧
    claim_finish_section 31 (mkTicket 1 2) s1 = (Ready (mkPermitId 1 2), s2).
Proof.
  destruct (claim_round_trip demo_policy 1 fifo_promoted (mkTicket 1 2) (mkPermitId 1 2) 30 31 32
    demo_typed fifo_promoted_reachable) as (r & e & s1 & s2 & r' & _ & H1 & _ & H2 & _).
  { vm_compute. reflexivity. }
  exists e, s1, s2. exact (conj H1 H2).
Defined.
