(* ===== verification/Calls.v ===== *)
(** * The governor called by one thread

    engine/governor.rs and governor/memory_governance.rs: the public methods, called
    one after the other by a thread that is alone with the engine and registers no
    notifiers.  Each is its critical sections in order, followed by the drain loop
    where the source drains; [sampled] is the clock reading the method starts with.
    Every call answers, and is a run of steps of [System]. *)

From S2P Require Import Prelude Contract Text Validation Kernel PolicyCheck Requirements State.
From S2P Require Import Assess Fairness Admission Memory Governor Policies Books Custody Ledger.
From S2P Require Import Moves Reads Invariant Steps Selection Ring Dispatch Sections Progress.
From S2P Require Import Lifecycle Trace System Queues Runs Fifo Consistency Fates Total Contracts.

Section calls.
Context (P : PolicySet) (authority : N).
Implicit Types (w : World).

(** ** The calls *)

(** [drain_effects]: promote again while a pass leaves runnable work.  The fuel is
    enough ([Total.drain_runs]). *)
Definition drain_call (sampled : N) (e : TransitionEffects) (w : World) : option World :=
  '(s, _) ← drain (N.to_nat (backlog (w_state w)) + 2) P sampled e (w_state w);
  Some (with_state s w).

(** [admit]. *)
Definition admit_call (sampled : N) (spec : TaskSpec) (w : World)
  : option (AdmissionDecision * World) :=
  '(decision, k, s, _) ← admit_spec authority P sampled spec None (w_counters w) (w_state w);
  Some (decision, mkWorld s k (w_outstanding w) (w_claims w) (w_nonces w)).

(** What an admission leaves behind, once its effects are applied: [None] is a panic. *)
Definition entered (w : World) (a : Admission) : option (AdmissionDecision * World) :=
  '(decision, k, s, _) ← a;
  Some (decision, mkWorld s k (w_outstanding w) (w_claims w) (w_nonces w)).

(** [admit_waitable]. *)
Definition admit_waitable_call (sampled : N) (spec : TaskSpec) (waker : Waker) (w : World)
  : option (AdmissionDecision * World) :=
  entered w (admit_spec authority P sampled spec (Some waker) (w_counters w) (w_state w)).

(** [admit_validated]. *)
Definition admit_validated_call (sampled : N) (plan : ValidatedTaskPlan) (w : World)
  : option (AdmissionDecision * World) :=
  entered w (admit_validated authority P sampled plan (w_counters w) (w_state w)).

(** [admit_resolved]: a capability of another policy is refused before anything else. *)
Definition admit_resolved_call (sampled : N) (spec : TaskSpec) (capability : ResolvedCapability)
    (waker : option Waker) (w : World)
  : CapabilityResolutionError + option (AdmissionDecision * World) :=
  a ← admit_resolved authority P sampled spec capability waker (w_counters w) (w_state w);
  inr (entered w a).

(** [admit_validated_requirements]. *)
Definition admit_requirements_call (sampled : N) (plan : ValidatedTaskPlan)
    (requirements : CapabilityRequirementSet) (waker : option Waker) (w : World)
  : CapabilityResolutionError + option (AdmissionDecision * World) :=
  a ← admit_validated_requirements authority P sampled plan requirements waker (w_counters w) (w_state w);
  inr (entered w a).

(** [claim]. *)
Definition claim_call (sampled : N) (t : Ticket) (w : World) : ClaimOutcome * World :=
  let '(out, s, _) := claim_begin_section sampled t (w_state w) in
  let w := mkWorld s (w_counters w) (w_outstanding w) (begun t out (w_claims w)) (w_nonces w) in
  match out with
  | ClaimReturns outcome => (outcome, w)
  | ClaimProceeds _ =>
    let '(outcome, s) := claim_finish_section sampled t (w_state w) in (outcome, with_state s w)
  end.

(** [abandon]. *)
Definition abandon_call (sampled : N) (t : Ticket) (w : World) : option (AbandonOutcome * World) :=
  '(outcome, s, e) ← abandon_section P sampled t (w_state w);
  w ← drain_call sampled e (with_state s w);
  Some (outcome, w).

(** [release] and [release_leased]. *)
Definition release_call (sampled : N) (pid : PermitId) (proof : option N) (w : World)
  : option (ReleaseOutcome * World) :=
  '(outcome, s, e) ← release_section P sampled pid proof (w_state w);
  w ← drain_call sampled e (with_state s w);
  Some (outcome, w).

(** [advance_phase]. *)
Definition advance_call (pid : PermitId) (phase : ExecutionPhase) (w : World)
  : AdvanceOutcome * World :=
  let '(outcome, nonces, s) := advance_phase pid phase (w_nonces w) (w_state w) in
  (outcome, mkWorld s (w_counters w) (w_outstanding w) (w_claims w) nonces).

(** [reconcile_memory_at]. *)
Definition reconcile_call (sampled : N) (pid : PermitId) (measured_bytes epoch : N) (w : World)
  : option (ReconcileOutcome * World) :=
  '(outcome, s, e) ← reconcile_section P sampled pid measured_bytes (Some epoch) (w_state w);
  w ← drain_call sampled e (with_state s w);
  Some (outcome, w).

(** [reconcile_memory]: the epoch is the next one. *)
Definition reconcile_memory_call (sampled : N) (pid : PermitId) (measured_bytes : N) (w : World)
  : option (ReconcileOutcome * World) :=
  '(outcome, s, e) ← reconcile_section P sampled pid measured_bytes None (w_state w);
  w ← drain_call sampled e (with_state s w);
  Some (outcome, w).

(** [release_stage_memory]. *)
Definition stage_release_call (sampled : N) (pid : PermitId) (freed_units : N) (w : World)
  : option (StageReleaseOutcome * World) :=
  '(outcome, s, e) ← stage_release_section P sampled pid freed_units None (w_state w);
  w ← drain_call sampled e (with_state s w);
  Some (outcome, w).

(** [release_stage_memory_seq]. *)
Definition stage_release_seq_call (sampled : N) (pid : PermitId) (freed_units sequence : N)
    (w : World) : option (StageReleaseOutcome * World) :=
  '(outcome, s, e) ← stage_release_section P sampled pid freed_units (Some sequence) (w_state w);
  w ← drain_call sampled e (with_state s w);
  Some (outcome, w).

(** [reap_leaks_with]. *)
Definition reap_call (sampled stale_after_ms : N) (w : World) : option (LeakSweepReport * World) :=
  '(report, s, e) ← reap_section P sampled stale_after_ms (w_state w);
  w ← drain_call sampled e (with_state s w);
  Some (report, w).

(** [reap_leaks]. *)
Definition reap_leaks_call (sampled : N) (w : World) : option (LeakSweepReport * World) :=
  reap_call sampled DEFAULT_LEAK_STALE_MS w.

(** [close_admission]. *)
Definition close_call (w : World) : World := with_state (close_admission (w_state w)) w.
End calls.

(** ** The load of the engine

    The live permits and the requests that wait for one: only an admission adds to
    them, and only by one. *)

Definition load (s : GovernedState) : N := N.of_nat (size (gs_permits s)) + backlog s.

Lemma dequeues_backlog s s' : dequeues s s' → backlog s' ≤ backlog s.
Proof. intros [H _]. apply backlog_le. intros class. by apply sublist_length. Qed.

Lemma permits_from_size m m' : permits_from m m' → (size m' ≤ size m)%nat.
Proof.
  intros H. rewrite <-!size_dom. apply subseteq_size. intros pid [r' Hr']%elem_of_dom.
  apply H in Hr' as (r & Hr & _). apply elem_of_dom. by eexists.
Qed.

Lemma tstep_load G P s s' : tstep_of G P s s' → load s' ≤ load s.
Proof.
  intros Hs%tstep_any. pose proof (tstep_dequeues _ _ _ Hs) as Hd%dequeues_backlog. unfold load.
  destruct (tstep_permits _ _ _ Hs) as [Hp%permits_from_size|class i q s1 r Hrm _ Hq -> Hn]; [lia|].
  rewrite (backlog_removed _ _ _ _ _ Hrm), map_size_insert_None by done.
  rewrite (backlog_waiting s1 s'); [lia|]. intros k. by rewrite (same_queues_waiting _ _ _ Hq).
Qed.

Lemma trace_load G P s s' : trace_of G P s s' → load s' ≤ load s.
Proof. intros H. induction H as [|s1 s2 s3 H1 _ IH]; [done|]. apply tstep_load in H1. lia. Qed.

Lemma enqueue_load r s s' : enqueue r s = Some s' → load s' ≤ load s + 1.
Proof.
  intros Hen. pose proof (enqueue_cases _ _ _ Hen) as (_ & Hh & _). unfold load.
  rewrite (sh_permits _ _ Hh). assert (backlog s' ≤ backlog s + 1) as Hb; [|lia].
  unfold enqueue in Hen. apply bind_Some in Hen as (next & _ & [= <-]).
  unfold backlog, class_mut, class_state. cbn.
  set (f := λ c, N.of_nat (length (cs_queue c))). set (c := default _ (gs_classes s !! pr_class r)).
  assert (f (upd_cs_queue (λ q, q ++ [upd_pr_queue_order (λ _, next) r])
    (ClassState.index_pending (upd_pr_queue_order (λ _, next) r) c)) = f c + 1) as E.
  { unfold f. destruct (index_pending_reads (upd_pr_queue_order (λ _, next) r) c) as [Eq _].
    cbn [cs_queue upd_cs_queue]. rewrite Eq, length_app. cbn. lia. }
  pose proof (msum_insert_default f ClassState_default (gs_classes s) (pr_class r) _ _ eq_refl E). lia.
Qed.

Lemma answered_load G P s ids req d s' :
  answered (G := G) P s ids req d s' → ids_fresh s ids → load s' ≤ load s + 1.
Proof.
  intros [v s1 H|g _ Hg Eg _ _ _|s1 r s2 s3 _ H1 _ _ Hen Ht] Hf.
  - assert (load s1 ≤ load s); [|lia]. apply refused_state in H as [->|[what ->]]; [done|].
    by apply (tstep_load any P), t_fault.
  - unfold load. rewrite grant_permits, map_size_insert_None by apply Hg.
    rewrite (backlog_waiting s); [lia|]. intros k. by rewrite grant_waiting.
  - apply trace_load in Ht. apply enqueue_load in Hen.
    assert (load s1 ≤ load s); [|lia]. by apply (tstep_load any P), t_tags.
Qed.

(** ** Every call answers *)

(** Room for every request there is to become a permit, with one promotion pass. *)
Definition roomy (w : World) : Prop := load (w_state w) + 65 ≤ U32_MAX.

Lemma roomy_room w : roomy w → room (N.of_nat PROMOTION_BUDGET + backlog (w_state w)) (w_state w).
Proof. unfold roomy, load, room, PROMOTION_BUDGET. lia. Qed.

Lemma roomy_pass w : roomy w → room (N.of_nat PROMOTION_BUDGET) (w_state w).
Proof. intros H%roomy_room. eapply room_mono; [|exact H]. lia. Qed.

Section answers.
Context (P : PolicySet) (authority : N) (Hwf : policy_wf P) (Htyped : policies_typed P).
Implicit Types (w : World) (s : GovernedState).
Local Abbreviation own_step := (own_step P authority).

(** A call is one section of its caller, and then promotion until nothing is left to
    promote. *)
Definition then_drained (a : Action) (w : World) (s : GovernedState) (nonces : N) (w' : World)
  : Prop :=
  let w1 := mkWorld s (w_counters w) (w_outstanding w) (w_claims w) nonces in
  own_step a w w1 ∧ rtc (own_step AContinue) w1 w'.

Lemma own_step_load a w w' :
  reachable P authority w → own_step a w w' → (∀ ids, a ≠ AAdmit ids) →
  load (w_state w') ≤ load (w_state w).
Proof.
  intros Hw [Hroom [e Hs]] Ha. apply lstep_effect in Hs as Heff; [|done|by eapply reachable_ok|done].
  destruct Heff as [issued -> _ _|Ht _ _ _|ids sampled Eo Ek _ _ _ _]; [done|by eapply trace_load|].
  assert (∀ w1 : World, w_outstanding w ≡ₚ ids :: w_outstanding w1 →
    w_outstanding w1 = w_outstanding w → False) as Hne.
  { intros w1 Hp E. apply Permutation_length in Hp. rewrite E in Hp. cbn in Hp. lia. }
  destruct Hs; try (by edestruct (λ w1 H, Hne w1 H eq_refl); eassumption);
    try (by destruct (Hne _ Eo)).
  - apply Permutation_length in Eo. cbn in Eo. lia.
  - by destruct (Ha ids0).
Qed.

Lemma drain_call_runs sampled e w :
  reachable P authority w → roomy w →
  ∃ w', drain_call P sampled e w = Some w' ∧ rtc (own_step AContinue) w w'.
Proof.
  intros Hw Hr. destruct (drain_runs P authority Hwf Htyped (N.to_nat (backlog (w_state w)) + 2)
    sampled e w Hw (roomy_room _ Hr)) as (s & woken & Hd & Hs & _); [lia|].
  unfold drain_call. rewrite Hd. cbn. eauto.
Qed.

Lemma total_at w :
  reachable P authority w → roomy w →
  ∃ B, Inv P B (w_state w) ∧ B ≤ U64_MAX ∧ room (N.of_nat PROMOTION_BUDGET) (w_state w) ∧
    quanta_positive P.
Proof.
  intros Hw Hr. destruct (reachable_inv P authority w Htyped Hw) as (B & HI & HB).
  exists B. split_and!; [done..|by apply roomy_pass|by apply policy_wf_quanta].
Qed.

(** A section that answers, followed by the drain loop. *)
Lemma section_then_drain {A} a (section : option (A * GovernedState * TransitionEffects)) sampled w :
  reachable P authority w → roomy w → (∀ ids, a ≠ AAdmit ids) → is_Some section →
  (∀ out s e, section = Some (out, s, e) → lstep P authority w a e (with_state s w)) →
  ∃ out s e w', section = Some (out, s, e) ∧
    ('(out, s, e) ← section; w' ← drain_call P sampled e (with_state s w); Some (out, w'))
      = Some (out, w') ∧
    then_drained a w s (w_nonces w) w'.
Proof.
  intros Hw Hr Ha [[[out s] e] Hsec] Hstep. pose proof (Hstep _ _ _ Hsec) as Hl.
  assert (own_step a w (with_state s w)) as Ho by (split; [by apply roomy_pass|by exists e]).
  pose proof (own_step_reachable P authority _ _ _ Hw Ho) as Hw1.
  assert (roomy (with_state s w)) as Hr1.
  { pose proof (own_step_load _ _ _ Hw Ho Ha). unfold roomy in *. lia. }
  destruct (drain_call_runs sampled e _ Hw1 Hr1) as (w' & Hd & Hs).
  exists out, s, e, w'. split; [done|]. rewrite Hsec. cbn. rewrite Hd. cbn. by split_and!.
Qed.

Lemma release_call_runs sampled pid proof w :
  reachable P authority w → roomy w →
  ∃ out s e w', release_section P sampled pid proof (w_state w) = Some (out, s, e) ∧
    release_call P sampled pid proof w = Some (out, w') ∧
    then_drained (ARelease pid proof) w s (w_nonces w) w'.
Proof.
  intros Hw Hr. destruct (total_at w Hw Hr) as (B & HI & HB & Hroom & Hq).
  apply section_then_drain; [done|done|done| |intros; by eapply step_release].
  by apply (release_section_total P B).
Qed.

Lemma abandon_call_runs sampled t w :
  reachable P authority w → roomy w →
  ∃ out s e w', abandon_section P sampled t (w_state w) = Some (out, s, e) ∧
    abandon_call P sampled t w = Some (out, w') ∧ then_drained (AAbandon t) w s (w_nonces w) w'.
Proof.
  intros Hw Hr. destruct (total_at w Hw Hr) as (B & HI & HB & Hroom & Hq).
  apply section_then_drain; [done|done|done| |intros; by eapply step_abandon].
  by apply (abandon_total P B).
Qed.

Lemma reconcile_call_runs sampled pid bytes epoch w :
  reachable P authority w → roomy w →
  ∃ out s e w', reconcile_section P sampled pid bytes (Some epoch) (w_state w) = Some (out, s, e) ∧
    reconcile_call P sampled pid bytes epoch w = Some (out, w') ∧
    then_drained (AReconcile pid) w s (w_nonces w) w'.
Proof.
  intros Hw Hr. destruct (total_at w Hw Hr) as (B & HI & HB & Hroom & Hq).
  apply section_then_drain; [done|done|done| |intros; by eapply step_reconcile].
  by apply (reconcile_total P B).
Qed.

Lemma stage_release_call_runs sampled pid freed w :
  reachable P authority w → roomy w →
  ∃ out s e w', stage_release_section P sampled pid freed None (w_state w) = Some (out, s, e) ∧
    stage_release_call P sampled pid freed w = Some (out, w') ∧
    then_drained (AStageRelease pid) w s (w_nonces w) w'.
Proof.
  intros Hw Hr. destruct (total_at w Hw Hr) as (B & HI & HB & Hroom & Hq).
  apply section_then_drain; [done|done|done| |intros; by eapply step_stage_release].
  by apply (stage_release_total P B).
Qed.

Lemma reconcile_memory_call_runs sampled pid bytes w :
  reachable P authority w → roomy w →
  ∃ out s e w', reconcile_section P sampled pid bytes None (w_state w) = Some (out, s, e) ∧
    reconcile_memory_call P sampled pid bytes w = Some (out, w') ∧
    then_drained (AReconcile pid) w s (w_nonces w) w'.
Proof.
  intros Hw Hr. destruct (total_at w Hw Hr) as (B & HI & HB & Hroom & Hq).
  apply section_then_drain; [done|done|done| |intros; by eapply step_reconcile].
  by apply (reconcile_total P B).
Qed.

Lemma stage_release_seq_call_runs sampled pid freed sequence w :
  reachable P authority w → roomy w →
  ∃ out s e w', stage_release_section P sampled pid freed (Some sequence) (w_state w) = Some (out, s, e) ∧
    stage_release_seq_call P sampled pid freed sequence w = Some (out, w') ∧
    then_drained (AStageRelease pid) w s (w_nonces w) w'.
Proof.
  intros Hw Hr. destruct (total_at w Hw Hr) as (B & HI & HB & Hroom & Hq).
  apply section_then_drain; [done|done|done| |intros; by eapply step_stage_release].
  by apply (stage_release_total P B).
Qed.

Lemma reap_call_runs sampled stale w :
  reachable P authority w → roomy w →
  ∃ report s e w', reap_section P sampled stale (w_state w) = Some (report, s, e) ∧
    reap_call P sampled stale w = Some (report, w') ∧ then_drained AReap w s (w_nonces w) w'.
Proof.
  intros Hw Hr. destruct (total_at w Hw Hr) as (B & HI & HB & Hroom & Hq).
  apply section_then_drain; [done|done|done| |intros; by eapply step_reap].
  by apply (reap_total P B).
Qed.

Lemma advance_call_runs pid phase w :
  roomy w → own_step (AAdvance pid) w (advance_call pid phase w).2.
Proof.
  intros Hr. split; [by apply roomy_pass|]. unfold advance_call.
  destruct (advance_phase _ _ _ _) as [[out nonces] s] eqn:E. eexists. by eapply step_advance.
Qed.

Lemma close_call_runs w : roomy w → own_step AClose w (close_call w).
Proof. intros Hr. split; [by apply roomy_pass|]. eexists. apply step_close. Qed.

(** A claim that returns early takes one step, one that proceeds two. *)
Lemma claim_call_runs sampled t w :
  reachable P authority w → roomy w →
  let '(out, s, e) := claim_begin_section sampled t (w_state w) in
  let w1 := mkWorld s (w_counters w) (w_outstanding w) (begun t out (w_claims w)) (w_nonces w) in
  own_step (AClaimBegin t) w w1 ∧
  match out with
  | ClaimReturns outcome => claim_call sampled t w = (outcome, w1)
  | ClaimProceeds _ =>
    claim_call sampled t w =
      ((claim_finish_section sampled t s).1, with_state (claim_finish_section sampled t s).2 w1) ∧
    own_step (AClaimFinish t) w1 (claim_call sampled t w).2
  end.
Proof.
  intros Hw Hr. unfold claim_call. destruct (claim_begin_section _ _ _) as [[out s] e] eqn:E.
  assert (own_step (AClaimBegin t) w
    (mkWorld s (w_counters w) (w_outstanding w) (begun t out (w_claims w)) (w_nonces w))) as Ho
    by (split; [by apply roomy_pass|]; eexists; by eapply step_claim_begin).
  split; [done|]. destruct out as [o|pid]; [done|]. cbn [w_state].
  destruct (claim_finish_section sampled t s) as [o s2] eqn:Ef. split; [done|]. split.
  - pose proof (own_step_load _ _ _ Hw Ho) as Hl. apply roomy_pass. unfold roomy in *.
    specialize (Hl ltac:(done)). lia.
  - eexists. by eapply step_claim_finish.
Qed.

(** An admission with identities left: they are issued and used up. *)
Lemma admit_call_runs sampled spec ids k w :
  reachable P authority w → roomy w → validate_borrowed spec = inr () →
  fresh_ids authority (w_counters w) = (Some ids, k) →
  let w1 := mkWorld (w_state w) k (ids :: w_outstanding w) (w_claims w) (w_nonces w) in
  ∃ caps d s e, declared_requirements P spec = Some caps ∧
    admit_section P sampled (mkRequest spec caps) None ids (w_state w) = Some (d, s, e) ∧
    admit_call P authority sampled spec w =
      Some (d, mkWorld s k (w_outstanding w) (w_claims w) (w_nonces w)) ∧
    own_step AIssue w w1 ∧
    own_step (AAdmit ids) w1 (mkWorld s k (w_outstanding w) (w_claims w) (w_nonces w)).
Proof.
  intros Hw Hr Hv Hf w1.
  assert (own_step AIssue w w1) as Hi.
  { split; [by apply roomy_pass|]. eexists. by apply step_fresh. }
  pose proof (own_step_reachable P authority _ _ _ Hw Hi) as Hw1.
  destruct (declared_requirements_resolve P spec Hwf) as (pools & caps & Hpools & Hcaps & Hd & _).
  destruct (admit_section_total P authority Htyped sampled (mkRequest spec caps) None ids w1 Hw1)
    as [[[d s] e] Ha]; [by left|]. change (w_state w1) with (w_state w) in Ha.
  exists caps, d, s, e. split_and!; try done.
  - unfold admit_call, admit_spec. rewrite Hv, Hd. cbn. unfold admit_inner. rewrite Hf.
    cbn [mbind option_bind]. rewrite Ha. done.
  - split; [by apply (roomy_pass w)|]. exists e.
    apply (step_admit P authority w1 sampled (mkRequest spec caps) pools None ids (w_outstanding w) d s e);
      [reflexivity|exact Hcaps|exact Ha].
Qed.

(** ** Runs *)

Lemma own_step_later a w w' : own_step a w w' → later P authority w w'.
Proof. intros [Hr [e Hs]]. apply rtc_once. split; [done|by eapply lstep_wstep]. Qed.

Lemma own_steps_later a w w' : rtc (own_step a) w w' → later P authority w w'.
Proof.
  unfold later. induction 1 as [|w1 w2 w3 H _ IH]; [done|].
  etransitivity; [by eapply own_step_later|done].
Qed.

Lemma then_drained_later a w s nonces w' : then_drained a w s nonces w' → later P authority w w'.
Proof.
  intros [Ho Hd]. unfold later. etransitivity; [by eapply own_step_later|by eapply own_steps_later].
Qed.

(** A call that answers, by steps of the system. *)
Definition returns {A} (call : option (A * World)) (w : World) : Prop :=
  ∃ out w', call = Some (out, w') ∧ later P authority w w'.

Lemma drained_returns {A} a (section : option (A * GovernedState * TransitionEffects)) call w :
  (∃ out s e w', section = Some (out, s, e) ∧ call = Some (out, w') ∧
     then_drained a w s (w_nonces w) w') → returns call w.
Proof. intros (out & s & e & w' & _ & Hc & Hd). exists out, w'. split; [done|by eapply then_drained_later]. Qed.

(** [admit_inner] with any requirements and any notifier. *)
Lemma admit_inner_returns sampled spec pools caps waker w :
  reachable P authority w → roomy w → from_resolved pools = inr caps →
  returns (entered w (admit_inner authority P sampled spec caps waker (w_counters w) (w_state w))) w.
Proof.
  intros Hw Hr Hcaps. unfold admit_inner. destruct (fresh_ids authority (w_counters w)) as [[ids|] k] eqn:Hf.
  - set (w1 := mkWorld (w_state w) k (ids :: w_outstanding w) (w_claims w) (w_nonces w)).
    assert (own_step AIssue w w1) as Hi.
    { split; [by apply roomy_pass|]. eexists. by apply step_fresh. }
    pose proof (own_step_reachable P authority _ _ _ Hw Hi) as Hw1.
    destruct (admit_section_total P authority Htyped sampled (mkRequest spec caps) waker ids w1 Hw1)
      as [[[d s] e] Ha]; [by left|]. change (w_state w1) with (w_state w) in Ha.
    cbn [mbind option_bind]. rewrite Ha. eexists _, _. split; [reflexivity|]. unfold later.
    transitivity w1; [by eapply own_step_later|]. apply (own_step_later (AAdmit ids)).
    split; [by apply (roomy_pass w)|]. exists e.
    by apply (step_admit P authority w1 sampled (mkRequest spec caps) pools waker ids (w_outstanding w) d s e).
  - eexists _, _. split; [reflexivity|]. apply (own_step_later AIssue). split; [by apply roomy_pass|].
    eexists. by apply step_exhausted.
Qed.

Lemma entered_unchanged w d :
  returns (entered w (Some (d, w_counters w, w_state w, no_effects))) w.
Proof. exists d, w. split; [by destruct w|]. unfold later. reflexivity. Qed.

Lemma admit_spec_returns sampled spec waker w :
  reachable P authority w → roomy w →
  returns (entered w (admit_spec authority P sampled spec waker (w_counters w) (w_state w))) w.
Proof.
  intros Hw Hr. unfold admit_spec. destruct (validate_borrowed spec) as [err|[]];
    [apply entered_unchanged|].
  destruct (declared_requirements_resolve P spec Hwf) as (pools & caps & _ & Hcaps & -> & _).
  by eapply admit_inner_returns.
Qed.

Lemma admit_validated_returns sampled plan w :
  reachable P authority w → roomy w → returns (admit_validated_call P authority sampled plan w) w.
Proof.
  intros Hw Hr. unfold admit_validated_call, admit_validated.
  destruct (declared_requirements_resolve P (as_spec plan) Hwf) as (pools & caps & _ & Hcaps & -> & _).
  by eapply admit_inner_returns.
Qed.

(** A call that may refuse a capability of another policy, before it enters. *)
Definition returns_unless_foreign {A} (call : CapabilityResolutionError + option (A * World))
    (w : World) : Prop :=
  match call with inl err => err = ForeignId | inr call => returns call w end.

Lemma admit_resolved_returns sampled spec capability waker w :
  reachable P authority w → roomy w →
  returns_unless_foreign (admit_resolved_call P authority sampled spec capability waker w) w.
Proof.
  intros Hw Hr. unfold admit_resolved_call, admit_resolved.
  destruct (validate_resolved_capability P capability) as [err|[]] eqn:Hv; cbn [mbind result_bind].
  { cbn. destruct capability; cbn in Hv; [done|]. destruct (ps_capabilities P !! _); by simplify_eq. }
  destruct (validate_borrowed spec) as [err|[]]; [apply entered_unchanged|].
  destruct (from_resolved [capability]) as [err|caps] eqn:Hcaps; [by destruct capability|].
  cbn [mbind result_bind]. by eapply admit_inner_returns.
Qed.

Lemma admit_requirements_returns sampled plan pools requirements waker w :
  reachable P authority w → roomy w → from_resolved pools = inr requirements →
  returns_unless_foreign (admit_requirements_call P authority sampled plan requirements waker w) w.
Proof.
  intros Hw Hr Hcaps. unfold admit_requirements_call, admit_validated_requirements, validate_requirements.
  destruct (forallb _ _); cbn; [|done]. by eapply admit_inner_returns.
Qed.
End answers.

(** C16: Every public method that changes the engine returns.  Called by a thread that
    nobody interrupts, on any state a run reaches in which the live permits and the
    queued requests together, with 65 more, are fewer than 2^32, with any arguments and
    any clock reading, each method answers: no panic, the loop that promotes until
    nothing is runnable ends, and what the method did is a run of the governor's critical
    sections.  A requirement set is one [from_resolved] built; the two methods that take
    capabilities may refuse one of another policy instead. *)
Theorem public_calls_return P authority w sampled :
  policy_wf P → policies_typed P → reachable P authority w → roomy w →
  (∀ spec, returns P authority (admit_call P authority sampled spec w) w) ∧
  (∀ spec waker, returns P authority (admit_waitable_call P authority sampled spec waker w) w) ∧
  (∀ plan, returns P authority (admit_validated_call P authority sampled plan w) w) ∧
  (∀ spec capability waker,
     returns_unless_foreign P authority
       (admit_resolved_call P authority sampled spec capability waker w) w) ∧
  (∀ plan pools requirements waker, from_resolved pools = inr requirements →
     returns_unless_foreign P authority
       (admit_requirements_call P authority sampled plan requirements waker w) w) ∧
  (∀ t, returns P authority (abandon_call P sampled t w) w) ∧
  (∀ pid proof, returns P authority (release_call P sampled pid proof w) w) ∧
  (∀ pid bytes epoch, returns P authority (reconcile_call P sampled pid bytes epoch w) w) ∧
  (∀ pid bytes, returns P authority (reconcile_memory_call P sampled pid bytes w) w) ∧
  (∀ pid units, returns P authority (stage_release_call P sampled pid units w) w) ∧
  (∀ pid units sequence, returns P authority (stage_release_seq_call P sampled pid units sequence w) w) ∧
  (∀ stale, returns P authority (reap_call P sampled stale w) w) ∧
  returns P authority (reap_leaks_call P sampled w) w ∧
  (∀ t, later P authority w (claim_call sampled t w).2) ∧
  (∀ pid phase, later P authority w (advance_call pid phase w).2) ∧
  later P authority w (close_call w).
Proof.
  intros Hwf Ht Hw Hr. split_and!.
  - intros spec. by apply admit_spec_returns.
  - intros spec waker. by apply admit_spec_returns.
  - intros plan. by apply admit_validated_returns.
  - intros spec capability waker. by apply admit_resolved_returns.
  - intros plan pools requirements waker Hcaps. by eapply admit_requirements_returns.
  - intros t. by eapply drained_returns, abandon_call_runs.
  - intros pid proof. by eapply drained_returns, release_call_runs.
  - intros pid bytes epoch. by eapply drained_returns, reconcile_call_runs.
  - intros pid bytes. by eapply drained_returns, reconcile_memory_call_runs.
  - intros pid units. by eapply drained_returns, stage_release_call_runs.
  - intros pid units sequence. by eapply drained_returns, stage_release_seq_call_runs.
  - intros stale. by eapply drained_returns, reap_call_runs.
  - by eapply drained_returns, reap_call_runs.
  - intros t. pose proof (claim_call_runs P authority Ht sampled t w Hw Hr) as H.
    destruct (claim_begin_section sampled t (w_state w)) as [[out s] e]. destruct H as [Ho H].
    destruct out as [o|pid]; [rewrite H; by eapply own_step_later|]. destruct H as [_ Ho2]. unfold later.
    etransitivity; [by eapply own_step_later|by eapply own_step_later].
  - intros pid phase. by eapply own_step_later, advance_call_runs.
  - by eapply own_step_later, close_call_runs.
Qed.

Lemma public_calls_return_witness :
  ∃ w', release_call demo_policy 20 (mkPermitId 1 3) None fifo_before = Some (ReleaseDone, w') ∧
    later demo_policy 1 fifo_before w'.
Proof.
  destruct (public_calls_return demo_policy 1 fifo_before 20 demo_wf demo_typed fifo_reachable)
    as (_ & _ & _ & _ & _ & _ & Hr & _); [vm_compute; discriminate|].
  destruct (Hr (mkPermitId 1 3) None) as (out & w' & Hc & Hl). exists w'.
  assert (fst <$> release_call demo_policy 20 (mkPermitId 1 3) None fifo_before = Some ReleaseDone) as E
    by (vm_compute; reflexivity).
  rewrite Hc in E |- *. injection E as ->. split; [reflexivity|exact Hl].
Defined.
