(* ===== verification/Churn.v ===== *)
(** * The admission churn fuzz target

    fuzz/fuzz_targets/admission_churn.rs: a driver that decodes any input into a
    policy and a sequence of public calls, makes the calls on a governor of its own
    and asserts, after each, what the engine promises about the answer and about the
    state it publishes.  Every [assert!], [panic!], [unreachable!] and index of the
    target is here; a failed one is [None], as is a panic of the engine.  The witness
    log of support/mod.rs is not modelled, and rendering a refused verdict is total. *)

From stdpp Require Import pretty.
From S2P Require Import Prelude Contract Text Validation Kernel Executors PolicyCheck State Assess.
From S2P Require Import Fairness Admission Memory Observe Governor System Calls.

Local Open Scope string_scope.
Local Open Scope N_scope.

(** [assert!]. *)
Definition assert_that (holds : bool) : option () := if holds then Some () else None.

Definition CLASSES : list string := ["alpha"; "beta"; "gamma"].

(** ** The input *)

(** [u8] fields. *)
Record ClassShape := mkClassShape {
  sh_max_inflight : N;
  sh_max_queue_depth : N;
  sh_cpu_units : N;
  sh_memory_units : N;
  sh_overflow : N;
  sh_overcommit : N;
  sh_release : N;
  sh_permit_mode : N;
}.

Inductive Op :=
  | OpAdmit (class substrate scope root : N)
  | OpClaim (index : N)
  | OpAbandon (index : N)
  | OpRelease (index : N)
  | OpAdvance (permit phase : N)
  | OpReleaseLeased (index : N)
  | OpStageRelease (permit units : N)
  | OpReconcile (permit bytes epoch : N)
  | OpClock (ms : N)
  | OpReap (stale_ms : N)
  | OpClose.

Record Scenario := mkScenario {
  sc_classes : ClassShape * ClassShape * ClassShape;
  sc_fairness : N;
  sc_budget_cpu : N;
  sc_budget_memory : N;
  sc_blocking_limit : N;
  sc_ops : list Op;
}.

(** What the types of the fields guarantee where it matters: [fairness] is a [u8] and
    a measurement's [bytes] a [u16]. *)
Definition op_typed (o : Op) : Prop :=
  match o with OpReconcile _ bytes _ => bytes ≤ 65535 | _ => True end.
Record scenario_typed (sc : Scenario) : Prop := {
  sct_fairness : sc_fairness sc ≤ U8_MAX;
  sct_ops : ∀ o, o ∈ sc_ops sc → op_typed o;
}.

(** ** The policy of a scenario *)

(** One fairness tier for every class. *)
Definition fairness_of (selector index : N) : FairnessPolicy :=
  match selector `mod` 4 with
  | 0 => Fifo
  | 1 => DeficitRoundRobin (1 + selector / 4 + index)
  | 2 => WeightedFairQueue (1 + selector / 4 * 7 + index) 0
  | _ => BestEffortScavenger
  end.

(** [CLASSES[(index + 1) % CLASSES.len()]]. *)
Definition fallback_of (index : N) : option TaskClass :=
  CLASSES !! N.to_nat ((index + 1) `mod` N.of_nat (length CLASSES)).

Definition class_policy (shape : ClassShape) (fair : FairnessPolicy) (index : N)
  : option ClassPolicy :=
  let overflow := match sh_overflow shape `mod` 3 with
                  | 0 => OverflowReject
                  | 1 => QueueWithinDepth
                  | _ => DropBestEffort
                  end in
  overcommit ← match sh_overcommit shape `mod` 3 with
               | 0 => Some OvercommitReject
               | 1 => Some OvercommitQueue
               | _ => fallback ← fallback_of index; Some (DegradeToLight fallback)
               end;
  let release := match sh_release shape `mod` 3 with
                 | 0 => OnTaskCompletion
                 | 1 => OnStageBoundary
                 | _ => LeakDetecting
                 end in
  let permit_mode := match sh_permit_mode shape `mod` 3 with
                     | 0 => Estimated
                     | 1 => Measured
                     | _ => Hybrid
                     end in
  Some {| max_inflight := sh_max_inflight shape `mod` 6;
          max_queue_depth := sh_max_queue_depth shape `mod` 6;
          permit_cost := mkPermitCost (sh_cpu_units shape `mod` 4) (sh_memory_units shape `mod` 4);
          fairness := fair;
          memory_permit_mode := permit_mode;
          memory_release_policy := release;
          memory_overcommit_policy := overcommit;
          overflow_policy := overflow;
          retry_after_policy := retry_after_policy ClassPolicy_default;
          cancellation_policy := cancellation_policy ClassPolicy_default;
          checkpoint_policy := checkpoint_policy ClassPolicy_default;
          best_effort := best_effort ClassPolicy_default |}.

(** ** Submissions *)

(** The root a permit belongs to, and whether it is that root's own. *)
Record Origin := mkOrigin { or_root : string; or_is_root : bool }.

(** [format!] of a name and a number. *)
Definition numbered (name : string) (n : N) : string := name +:+ pretty n.

(** [spec]: the submission of one admission, its origin, and whether it declares a
    wait. *)
Definition spec (class substrate scope root : N) (roots : list string) (seq : N)
  : option (TaskSpec * Origin * bool) :=
  class ← CLASSES !! N.to_nat (class `mod` N.of_nat (length CLASSES));
  let base := task_base class match substrate `mod` 4 with
                              | 0 => AsyncIo
                              | 1 => BlockingPool
                              | 2 => SharedCpuExecutor
                              | _ => LocalRuntime
                              end in
  root_name ← match roots with
              | [] => Some (numbered "orphan" (root `mod` 4))
              | _ => roots !! N.to_nat (root `mod` N.of_nat (length roots))
              end;
  match scope `mod` 3 with
  | 0 =>
    let name := numbered "root" seq in
    Some (with_operation name base, mkOrigin name true, false)
  | 1 =>
    Some (child_of root_name root_name (numbered "stage" seq)
            (with_operation (numbered "op" seq) base),
          mkOrigin root_name false, false)
  | _ =>
    Some (awaited_child_of root_name root_name (numbered "stage" seq)
            (with_operation (numbered "op" seq) base),
          mkOrigin root_name false, true)
  end.

(** ** The harness *)

Record Harness := mkHarness {
  hn_world : World;
  hn_clock : ManualClock;
  hn_limits : gmap string (N * N);
  hn_memory_cost : gmap string (N * option TaskClass);
  hn_budget : N * N;
  hn_reconciled_upward : bool;
  hn_blocking_limit : N;
  hn_tickets : list Ticket;
  hn_permits : list PermitId;
  hn_tokens : list LeaseToken;
  hn_ended : list PermitId;
  hn_closed : bool;
  hn_roots : list string;
  hn_permit_origin : gmap PermitId Origin;
  hn_ticket_origin : gmap Ticket Origin;
}.

Definition upd_hn_world (f : World → World) (h : Harness) : Harness :=
  mkHarness (f (hn_world h)) (hn_clock h) (hn_limits h) (hn_memory_cost h) (hn_budget h)
    (hn_reconciled_upward h) (hn_blocking_limit h) (hn_tickets h) (hn_permits h) (hn_tokens h)
    (hn_ended h) (hn_closed h) (hn_roots h) (hn_permit_origin h) (hn_ticket_origin h).
Definition upd_hn_clock (f : ManualClock → ManualClock) (h : Harness) : Harness :=
  mkHarness (hn_world h) (f (hn_clock h)) (hn_limits h) (hn_memory_cost h) (hn_budget h)
    (hn_reconciled_upward h) (hn_blocking_limit h) (hn_tickets h) (hn_permits h) (hn_tokens h)
    (hn_ended h) (hn_closed h) (hn_roots h) (hn_permit_origin h) (hn_ticket_origin h).
Definition upd_hn_reconciled_upward (f : bool → bool) (h : Harness) : Harness :=
  mkHarness (hn_world h) (hn_clock h) (hn_limits h) (hn_memory_cost h) (hn_budget h)
    (f (hn_reconciled_upward h)) (hn_blocking_limit h) (hn_tickets h) (hn_permits h)
    (hn_tokens h) (hn_ended h) (hn_closed h) (hn_roots h) (hn_permit_origin h)
    (hn_ticket_origin h).
Definition upd_hn_tickets (f : list Ticket → list Ticket) (h : Harness) : Harness :=
  mkHarness (hn_world h) (hn_clock h) (hn_limits h) (hn_memory_cost h) (hn_budget h)
    (hn_reconciled_upward h) (hn_blocking_limit h) (f (hn_tickets h)) (hn_permits h)
    (hn_tokens h) (hn_ended h) (hn_closed h) (hn_roots h) (hn_permit_origin h)
    (hn_ticket_origin h).
Definition upd_hn_permits (f : list PermitId → list PermitId) (h : Harness) : Harness :=
  mkHarness (hn_world h) (hn_clock h) (hn_limits h) (hn_memory_cost h) (hn_budget h)
    (hn_reconciled_upward h) (hn_blocking_limit h) (hn_tickets h) (f (hn_permits h))
    (hn_tokens h) (hn_ended h) (hn_closed h) (hn_roots h) (hn_permit_origin h)
    (hn_ticket_origin h).
Definition upd_hn_tokens (f : list LeaseToken → list LeaseToken) (h : Harness) : Harness :=
  mkHarness (hn_world h) (hn_clock h) (hn_limits h) (hn_memory_cost h) (hn_budget h)
    (hn_reconciled_upward h) (hn_blocking_limit h) (hn_tickets h) (hn_permits h)
    (f (hn_tokens h)) (hn_ended h) (hn_closed h) (hn_roots h) (hn_permit_origin h)
    (hn_ticket_origin h).
Definition upd_hn_ended (f : list PermitId → list PermitId) (h : Harness) : Harness :=
  mkHarness (hn_world h) (hn_clock h) (hn_limits h) (hn_memory_cost h) (hn_budget h)
    (hn_reconciled_upward h) (hn_blocking_limit h) (hn_tickets h) (hn_permits h) (hn_tokens h)
    (f (hn_ended h)) (hn_closed h) (hn_roots h) (hn_permit_origin h) (hn_ticket_origin h).
Definition upd_hn_closed (f : bool → bool) (h : Harness) : Harness :=
  mkHarness (hn_world h) (hn_clock h) (hn_limits h) (hn_memory_cost h) (hn_budget h)
    (hn_reconciled_upward h) (hn_blocking_limit h) (hn_tickets h) (hn_permits h) (hn_tokens h)
    (hn_ended h) (f (hn_closed h)) (hn_roots h) (hn_permit_origin h) (hn_ticket_origin h).
Definition upd_hn_roots (f : list string → list string) (h : Harness) : Harness :=
  mkHarness (hn_world h) (hn_clock h) (hn_limits h) (hn_memory_cost h) (hn_budget h)
    (hn_reconciled_upward h) (hn_blocking_limit h) (hn_tickets h) (hn_permits h) (hn_tokens h)
    (hn_ended h) (hn_closed h) (f (hn_roots h)) (hn_permit_origin h) (hn_ticket_origin h).
Definition upd_hn_permit_origin (f : gmap PermitId Origin → gmap PermitId Origin) (h : Harness) : Harness :=
  mkHarness (hn_world h) (hn_clock h) (hn_limits h) (hn_memory_cost h) (hn_budget h)
    (hn_reconciled_upward h) (hn_blocking_limit h) (hn_tickets h) (hn_permits h) (hn_tokens h)
    (hn_ended h) (hn_closed h) (hn_roots h) (f (hn_permit_origin h)) (hn_ticket_origin h).
Definition upd_hn_ticket_origin (f : gmap Ticket Origin → gmap Ticket Origin) (h : Harness) : Harness :=
  mkHarness (hn_world h) (hn_clock h) (hn_limits h) (hn_memory_cost h) (hn_budget h)
    (hn_reconciled_upward h) (hn_blocking_limit h) (hn_tickets h) (hn_permits h) (hn_tokens h)
    (hn_ended h) (hn_closed h) (hn_roots h) (hn_permit_origin h) (f (hn_ticket_origin h)).

(** [Vec::swap_remove]; [None] is its panic. *)
Definition swap_remove {A} (i : nat) (l : list A) : option (A * list A) :=
  x ← l !! i;
  y ← last l;
  Some (x, take (length l - 1) (<[i := y]> l)).

(** [usize::from(selector) % len]. *)
Definition pick {A} (selector : N) (l : list A) : nat :=
  N.to_nat (selector `mod` N.of_nat (length l)).

(** A [u128] sum; the target is built with overflow checks. *)
Fixpoint checked_sum (l : list N) : option N :=
  match l with
  | [] => Some 0
  | x :: l => n ← checked_sum l; checked_add U128_MAX x n
  end.

Section harness.
Context (P : PolicySet) (authority : N).
Implicit Types (h : Harness).

Definition engine (h : Harness) : GovernedState := w_state (hn_world h).
Definition now (h : Harness) : N := manual_now_ms (hn_clock h).

(** A call that answers and moves the engine. *)
Definition after {A} (call : option (A * World)) (h : Harness) : option (A * Harness) :=
  '(x, w) ← call; Some (x, upd_hn_world (λ _, w) h).

(** ** What a [NestedWaitCycle] verdict claims *)

(** Unclaimed promotions belong to whoever owns their ticket. *)
Definition attribute (h : Harness) (m : gmap PermitId Origin) (entry : Ticket * Origin)
  : gmap PermitId Origin :=
  match ticket_status (engine h) (fst entry) with
  | Ready pid => <[pid := snd entry]> m
  | _ => m
  end.
Definition origins (h : Harness) : gmap PermitId Origin :=
  foldl (attribute h) (hn_permit_origin h) (btree_to_list (hn_ticket_origin h)).

Definition holds (held : HeldCapacity) (ledger : PermitLedgerView) : bool :=
  match held with
  | ClassInflight class => bool_decide (lv_class ledger = class)
  | CapabilityPool pool =>
    existsb (λ id, bool_decide (resolved_capability_name P (Registered id) = Some pool))
      (lv_capabilities ledger)
  | CpuBudget => bool_decide (0 < lv_cpu_units ledger)
  | MemoryBudget => bool_decide (0 < lv_effective_units ledger)
  end.

(** [assert_cycle_is_real]. *)
Definition assert_cycle_is_real (root : string) (held : HeldCapacity) (h : Harness) : option () :=
  let holders := List.filter (holds held) (permit_ledgers (engine h)) in
  _ ← assert_that (negb (bool_decide (holders = [])));
  assert_that (forallb (λ ledger,
    match origins h !! lv_permit_id ledger with
    | Some who => or_is_root who && bool_decide (or_root who = root)
    | None => false
    end) holders).

(** ** The published invariants *)

(** One class of a snapshot, with the held units summed so far. *)
Definition check_class (h : Harness) (sums : option (N * N)) (entry : string * ClassSnapshot)
  : option (N * N) :=
  '(cpu, memory) ← sums;
  let '(class, observed) := entry in
  '(max_inflight, max_queue_depth) ← hn_limits h !! class;
  _ ← assert_that (bool_decide (sn_inflight observed ≤ max_inflight));
  _ ← assert_that (bool_decide (sn_queued observed ≤ max_queue_depth));
  cpu ← checked_add U128_MAX cpu (sn_cpu_units_held observed);
  memory ← checked_add U128_MAX memory (sn_memory_units_held observed);
  Some (cpu, memory).

(** [check]. *)
Definition check (h : Harness) : option () :=
  let sn := snapshot P (engine h) in
  _ ← assert_that (if conservation_violation sn is None then true else false);
  _ ← assert_that (bool_decide (gs_accounting_fault (engine h) = None));
  '(cpu, memory) ← foldl (check_class h) (Some (0, 0)) (btree_to_list (sn_classes sn));
  let '(budget_cpu, budget_memory) := hn_budget h in
  _ ← assert_that (bool_decide (budget_cpu = 0) || bool_decide (cpu ≤ budget_cpu));
  _ ← assert_that (bool_decide (budget_memory = 0) || hn_reconciled_upward h
                   || bool_decide (memory ≤ budget_memory));
  _ ← assert_that match sn_capabilities sn !! "blocking" with
                  | Some pool => bool_decide (hn_blocking_limit h = 0)
                                 || bool_decide (cu_in_use pool ≤ hn_blocking_limit h)
                  | None => true
                  end;
  _ ← assert_that (forallb (λ pid, if permit_ledger pid (engine h) is None then true else false)
                     (hn_ended h));
  assert_that (negb (hn_closed h) || gs_admission_closed (engine h)).

(** ** Steps *)

(** The budget is spent: only free work may enter, the class itself or the fallback it
    degrades to. *)
Definition check_free_entry (class : TaskClass) (held_before : N) (h : Harness) : option () :=
  let budget_memory := snd (hn_budget h) in
  if negb (bool_decide (budget_memory = 0)) && bool_decide (budget_memory ≤ held_before) then
    '(cost, fallback) ← hn_memory_cost h !! class;
    fallback_cost ← match fallback with
                    | None => Some None
                    | Some fallback => entry ← hn_memory_cost h !! fallback; Some (Some (fst entry))
                    end;
    assert_that (bool_decide (cost = 0) || bool_decide (fallback_cost = Some 0))
  else Some ().

(** [self.closed] decides between a refusal as unavailable and any other one. *)
Definition check_refusal (v : AdmissionVerdict) (h : Harness) : option () :=
  assert_that (if hn_closed h then bool_decide (v = RuntimeUnavailable)
               else negb (bool_decide (v = RuntimeUnavailable))).

Definition step_admission (class substrate scope root seq : N) (h : Harness) : option Harness :=
  '(task, origin, declared) ← spec class substrate scope root (hn_roots h) seq;
  let h := if or_is_root origin then upd_hn_roots (λ l, (l ++ [or_root origin])%list) h else h in
  held_before ← checked_sum (map sn_memory_units_held
                               (btree_values (sn_classes (snapshot P (engine h)))));
  '(decision, h) ← after (admit_call P authority (now h) task (hn_world h)) h;
  match decision with
  | AdmittedPermit pid =>
    _ ← assert_that (negb (hn_closed h));
    _ ← check_free_entry (ts_class task) held_before h;
    Some (upd_hn_permit_origin (insert pid origin) (upd_hn_permits (λ l, (l ++ [pid])%list) h))
  | Queued t =>
    _ ← assert_that (negb (hn_closed h));
    Some (upd_hn_ticket_origin (insert t origin) (upd_hn_tickets (λ l, (l ++ [t])%list) h))
  | Rejected (NestedWaitCycle held_by_root) =>
    _ ← assert_that declared;
    _ ← assert_that (negb (hn_closed h));
    _ ← assert_cycle_is_real (or_root origin) held_by_root h;
    Some h
  | Rejected verdict => _ ← check_refusal verdict h; Some h
  end.

Definition step_claim (index : N) (h : Harness) : option Harness :=
  match hn_tickets h with
  | [] => Some h
  | tickets =>
    let at_ := pick index tickets in
    t ← tickets !! at_;
    let '(outcome, w) := claim_call (now h) t (hn_world h) in
    let h := upd_hn_world (λ _, w) h in
    match outcome with
    | Ready pid =>
      '(_, rest) ← swap_remove at_ tickets;
      let h := upd_hn_permits (λ l, (l ++ [pid])%list) (upd_hn_tickets (λ _, rest) h) in
      match hn_ticket_origin h !! t with
      | Some origin =>
        Some (upd_hn_permit_origin (insert pid origin) (upd_hn_ticket_origin (delete t) h))
      | None => Some h
      end
    | ClaimPending => Some h
    | ClaimTerminal _ =>
      '(_, rest) ← swap_remove at_ tickets; Some (upd_hn_tickets (λ _, rest) h)
    | ClaimInvalid => None
    end
  end.

(** [matches!((before, outcome), ..)]. *)
Definition abandon_agrees (before : ClaimOutcome) (outcome : AbandonOutcome) : bool :=
  match before, outcome with
  | ClaimPending, AbandonDone | Ready _, AbandonDone => true
  | ClaimTerminal _, TerminalDiscarded => true
  | ClaimInvalid, AbandonInvalid => true
  | _, _ => false
  end.

(** [abandon], judged against the ticket's state before it. *)
Definition abandon_checked (t : Ticket) (h : Harness) : option Harness :=
  let before := ticket_status (engine h) t in
  '(outcome, h) ← after (abandon_call P (now h) t (hn_world h)) h;
  _ ← assert_that (abandon_agrees before outcome);
  Some h.

Definition step_abandon (index : N) (h : Harness) : option Harness :=
  match hn_tickets h with
  | [] => Some h
  | tickets =>
    '(t, rest) ← swap_remove (pick index tickets) tickets;
    h ← abandon_checked t (upd_hn_tickets (λ _, rest) h);
    _ ← assert_that (if ticket_status (engine h) t is ClaimInvalid then true else false);
    Some h
  end.

(** [release] of a permit the harness never advanced. *)
Definition release_unleased (pid : PermitId) (h : Harness) : option Harness :=
  '(outcome, h) ← after (release_call P (now h) pid None (hn_world h)) h;
  match outcome with
  | ReleaseDone | ReleaseUnknownPermit => Some h
  | ReleaseHeldByLease _ => None
  end.

Definition step_release (index : N) (h : Harness) : option Harness :=
  match hn_permits h with
  | [] => Some h
  | permits =>
    '(pid, rest) ← swap_remove (pick index permits) permits;
    h ← release_unleased pid (upd_hn_permits (λ _, rest) h);
    Some (upd_hn_ended (λ l, (l ++ [pid])%list) h)
  end.

Definition step_advance (permit phase : N) (h : Harness) : option Harness :=
  match hn_permits h with
  | [] => Some h
  | permits =>
    let at_ := pick permit permits in
    pid ← permits !! at_;
    let phase := match phase `mod` 3 with
                 | 0 => Accepted
                 | 1 => Running
                 | _ => CleanupPending
                 end in
    let '(outcome, w) := advance_call pid phase (hn_world h) in
    let h := upd_hn_world (λ _, w) h in
    match outcome with
    | Leased token =>
      _ ← assert_that (bool_decide (lease_permit_id token = pid));
      '(_, rest) ← swap_remove at_ permits;
      Some (upd_hn_tokens (λ l, (l ++ [token])%list) (upd_hn_permits (λ _, rest) h))
    | Advanced => None
    | AdvanceRefused _ =>
      match permit_ledger pid (engine h) with
      | None =>
        '(_, rest) ← swap_remove at_ permits;
        Some (upd_hn_ended (λ l, (l ++ [pid])%list) (upd_hn_permits (λ _, rest) h))
      | Some _ => Some h
      end
    end
  end.

(** [release_leased] of a lease the harness holds. *)
Definition release_token (token : LeaseToken) (h : Harness) : option Harness :=
  '(outcome, h) ← after (release_call P (now h) (lease_permit_id token)
                           (Some (lease_token_nonce token)) (hn_world h)) h;
  _ ← assert_that (if outcome is ReleaseDone then true else false);
  Some h.

Definition step_release_leased (index : N) (h : Harness) : option Harness :=
  match hn_tokens h with
  | [] => Some h
  | tokens =>
    '(token, rest) ← swap_remove (pick index tokens) tokens;
    h ← release_token token (upd_hn_tokens (λ _, rest) h);
    Some (upd_hn_ended (λ l, (l ++ [lease_permit_id token])%list) h)
  end.

(** [any_live]: the outer option is its panic. *)
Definition any_live (selector : N) (h : Harness) : option (option PermitId) :=
  let total := (length (hn_permits h) + length (hn_tokens h))%nat in
  if decide (total = 0%nat) then Some None
  else
    let at_ := N.to_nat (selector `mod` N.of_nat total) in
    if decide (at_ < length (hn_permits h))%nat
    then pid ← hn_permits h !! at_; Some (Some pid)
    else token ← hn_tokens h !! (at_ - length (hn_permits h))%nat;
         Some (Some (lease_permit_id token)).

Definition step_stage_release (permit units : N) (h : Harness) : option Harness :=
  live ← any_live permit h;
  match live with
  | None => Some h
  | Some pid =>
    '(_, h) ← after (stage_release_call P (now h) pid units (hn_world h)) h; Some h
  end.

Definition step_reconcile (permit bytes epoch : N) (h : Harness) : option Harness :=
  live ← any_live permit h;
  match live with
  | None => Some h
  | Some pid =>
    let before := lv_effective_units <$> permit_ledger pid (engine h) in
    '(outcome, h) ← after (reconcile_call P (now h) pid bytes epoch (hn_world h)) h;
    Some match outcome, before with
         | ReconcileApplied held_units, Some before =>
           if decide (before < held_units) then upd_hn_reconciled_upward (λ _, true) h else h
         | _, _ => h
         end
  end.

Definition step_reap (stale_ms : N) (h : Harness) : option Harness :=
  '(report, h) ← after (reap_call P (now h) stale_ms (hn_world h)) h;
  _ ← assert_that (bool_decide (reclaimed_permits report ≤ suspected_leaks report));
  Some h.

(** [step]. *)
Definition step (o : Op) (seq : N) (h : Harness) : option Harness :=
  match o with
  | OpAdmit class substrate scope root => step_admission class substrate scope root seq h
  | OpClaim index => step_claim index h
  | OpAbandon index => step_abandon index h
  | OpRelease index => step_release index h
  | OpAdvance permit phase => step_advance permit phase h
  | OpReleaseLeased index => step_release_leased index h
  | OpStageRelease permit units => step_stage_release permit units h
  | OpReconcile permit bytes epoch => step_reconcile permit bytes epoch h
  | OpClock ms => Some (upd_hn_clock (ManualClock_advance ms) h)
  | OpReap stale_ms => step_reap stale_ms h
  | OpClose => Some (upd_hn_closed (λ _, true) (upd_hn_world close_call h))
  end.

(** [for (seq, op) in ops.into_iter().enumerate()], each step checked. *)
Fixpoint run_ops (seq : N) (ops : list Op) (h : Harness) : option Harness :=
  match ops with
  | [] => Some h
  | o :: ops =>
    h ← step o seq h;
    _ ← check h;
    run_ops (seq + 1) ops h
  end.

(** ** Everything is given back *)

Fixpoint each {A} (f : A → Harness → option Harness) (l : list A) (h : Harness) : option Harness :=
  match l with
  | [] => Some h
  | x :: l => h ← f x h; each f l h
  end.

Definition quiescent_class (observed : ClassSnapshot) : bool :=
  bool_decide (sn_inflight observed = 0 ∧ sn_queued observed = 0) &&
  bool_decide (sn_admitted_total observed = sn_terminated_total observed) &&
  bool_decide (sn_cpu_units_held observed = 0 ∧ sn_memory_units_held observed = 0).

(** [finish]. *)
Definition finish (h : Harness) : option () :=
  let tickets := hn_tickets h in
  h ← each abandon_checked tickets (upd_hn_tickets (λ _, []) h);
  let permits := hn_permits h in
  h ← each release_unleased permits (upd_hn_permits (λ _, []) h);
  let tokens := hn_tokens h in
  h ← each release_token tokens (upd_hn_tokens (λ _, []) h);
  let sn := snapshot P (engine h) in
  _ ← assert_that (forallb quiescent_class (btree_values (sn_classes sn)));
  _ ← assert_that (forallb (λ usage, bool_decide (cu_in_use usage = 0))
                     (btree_values (sn_capabilities sn)));
  _ ← assert_that (if conservation_violation sn is None then true else false);
  assert_that (if permit_ledgers (engine h) is [] then true else false).
End harness.

(** ** The target *)

(** The classes of a scenario, numbered. *)
Definition shapes (sc : Scenario) : list (N * ClassShape) :=
  let '(alpha, beta, gamma) := sc_classes sc in [(0, alpha); (1, beta); (2, gamma)].

(** [limits], [memory_cost] and [classes], filled class by class. *)
Record Declared := mkDeclared {
  de_limits : gmap string (N * N);
  de_memory_cost : gmap string (N * option TaskClass);
  de_classes : gmap string ClassPolicy;
}.

Definition declare_shape (tier : N) (d : option Declared) (entry : N * ClassShape)
  : option Declared :=
  d ← d;
  let '(index, shape) := entry in
  class ← CLASSES !! N.to_nat index;
  policy ← class_policy shape (fairness_of tier index) index;
  let fallback := match memory_overcommit_policy policy with
                  | DegradeToLight fallback_class => Some fallback_class
                  | _ => None
                  end in
  Some (mkDeclared
    (<[class := (max_inflight policy, max_queue_depth policy)]> (de_limits d))
    (<[class := (pc_memory_units (permit_cost policy), fallback)]> (de_memory_cost d))
    (<[class := policy]> (de_classes d))).

Definition declare (sc : Scenario) : option Declared :=
  foldl (declare_shape (sc_fairness sc)) (Some (mkDeclared ∅ ∅ ∅)) (shapes sc).

Definition scenario_budget (sc : Scenario) : N * N :=
  (sc_budget_cpu sc `mod` 64, sc_budget_memory sc `mod` 64).
Definition scenario_blocking_limit (sc : Scenario) : N := sc_blocking_limit sc `mod` 5.

Definition scenario_resources (sc : Scenario) : ResourceBudget := {|
  max_cpu_units := fst (scenario_budget sc);
  max_memory_units := snd (scenario_budget sc);
  per_request_max_cpu_units := per_request_max_cpu_units ResourceBudget_new;
  per_request_max_memory_units := per_request_max_memory_units ResourceBudget_new;
  memory_unit_scale := mkMemoryUnitScale 64;
|}.

(** The harness over a new governor. *)
Definition new_harness (sc : Scenario) (d : Declared) (governor : Governor) : Harness := {|
  hn_world := mkWorld (gv_state governor) (gv_counters governor) [] [] 1;
  hn_clock := ManualClock_new 1000;
  hn_limits := de_limits d;
  hn_memory_cost := de_memory_cost d;
  hn_budget := scenario_budget sc;
  hn_reconciled_upward := false;
  hn_blocking_limit := scenario_blocking_limit sc;
  hn_tickets := [];
  hn_permits := [];
  hn_tokens := [];
  hn_ended := [];
  hn_closed := false;
  hn_roots := [];
  hn_permit_origin := ∅;
  hn_ticket_origin := ∅;
|}.

(** [fuzz_target!]: the process-wide counters for registry authorities and governors
    are arguments; lease nonces are counted from one.  A policy the validator refuses
    is no failure. *)
Definition fuzz_target (registry next_authority : N) (sc : Scenario) : option () :=
  d ← declare sc;
  policy ← PolicySet_new registry (scenario_resources sc) (de_classes d);
  match with_capability_limits {["blocking" := scenario_blocking_limit sc]} policy with
  | inl _ => None
  | inr policy =>
    match fst (Governor_new policy next_authority) with
    | inl _ => Some ()
    | inr governor =>
      let h := new_harness sc d governor in
      _ ← check policy h;
      h ← run_ops policy (gv_authority governor) 0 (take 256 (sc_ops sc)) h;
      finish policy h
    end
  end.
