(* ===== verification/Decision.v ===== *)
(** * When admission is immediate

    A request gets its permit at once exactly when the gate is open, the class it is
    judged under is enabled, its operation is new, every limit has room, and nobody of
    its domain waits in front of it; it is queued only where it would otherwise have to
    be refused, and only within the depth of that class.  The class is its own, or the
    one its class degrades to when memory is what stands in the way. *)

From S2P Require Import Prelude Contract Text Kernel PolicyCheck Requirements State Assess Fairness.
From S2P Require Import Admission Memory Governor Books Custody Ledger Moves Reads Invariant Steps.
From S2P Require Import Selection Ring Dispatch Sections Progress Lifecycle Trace System Queues.
From S2P Require Import Runs Fifo Consistency Fates Total.

(** ** The fit test is complete *)

Lemma over_budget_intro held cost budget :
  held + cost ≤ U128_MAX → (budget ≠ 0 → held + cost ≤ budget) → over_budget held cost budget = false.
Proof.
  intros Hw H. unfold over_budget. case_decide; [done|]. unfold checked_add.
  rewrite decide_True by done. apply bool_decide_eq_false. specialize (H ltac:(done)). lia.
Qed.

Lemma blocked_capabilities_intro s P caps :
  (∀ id, id ∈ caps → ∃ r, capability_record P id = Some r ∧
    (capacity_limit (cr_capacity r) ≠ 0 → capability_in_use s id < capacity_limit (cr_capacity r))) →
  blocked_capabilities s P caps = ([], false).
Proof.
  induction caps as [|a caps IH]; intros H; [done|]. cbn.
  rewrite IH by (intros id Hid; apply H; by right).
  destruct (H a) as (r & Hr & Hl); [by left|]. rewrite Hr.
  destruct (decide (capacity_limit (cr_capacity r) = 0)) as [E|E].
  - by rewrite bool_decide_eq_true_2.
  - specialize (Hl E). rewrite (bool_decide_eq_false_2 (_ = 0)) by done.
    by rewrite bool_decide_eq_false_2 by lia.
Qed.

Lemma fits_runnable s P root sc parent class policy cost caps :
  gs_cpu_units_held s + rc_cpu_units cost ≤ U128_MAX →
  gs_memory_units_held s + rc_memory_units cost ≤ U128_MAX →
  fits P s class policy cost caps →
  assess_scope s P root sc parent class (max_inflight policy) cost caps false = Runnable.
Proof.
  intros Hc Hm [F1 F2 F3 F4 F5]. unfold assess_scope, blockers_for.
  rewrite blocked_capabilities_intro by done. rewrite inflight_class_state, F5.
  rewrite !over_budget_intro by done. unfold bl_is_empty. cbn.
  by rewrite bool_decide_eq_false_2 by lia.
Qed.

(** ** Waiting in front *)

Lemma queued_zero s class : queued s class = 0 ↔ cs_queue (class_state s class) = [].
Proof.
  unfold queued, class_state. destruct (gs_classes s !! class) as [c|]; cbn; [|done].
  unfold ClassState.queued. split; [|by intros ->]. intros H. destruct (cs_queue c); [done|].
  exfalso. cbn in H. ulia.
Qed.

(** Someone is served before the request: a queued one of its domain, or, while a
    promotion pass is owed, whatever the class would promote first. *)
Definition waits_behind (s : GovernedState) (policy : ClassPolicy) (class : TaskClass)
    (caps : CapabilityRequirementSet) : Prop :=
  (∃ q, q ∈ cs_queue (class_state s class) ∧ shares_domain (pr_capabilities q) caps) ∨
  (gs_promotion_pending s = true ∧ class_can_queue policy = true ∧
   cs_queue (class_state s class) = []).

Lemma admit_queued_behind_spec s policy class caps :
  queues_ok s → admit_queued_behind s policy class caps = true ↔ waits_behind s policy class caps.
Proof.
  intros Hok. unfold admit_queued_behind, waits_behind.
  rewrite orb_true_iff, !andb_true_iff, bool_decide_eq_true, queued_zero.
  assert (match gs_classes s !! class with
    | Some c => ClassState.has_queued_domain c caps | None => false end = true ↔
    ∃ q, q ∈ cs_queue (class_state s class) ∧ shares_domain (pr_capabilities q) caps) as ->; [|tauto].
  pose proof (Hok class) as Hc. cbn zeta in Hc. unfold waiting, class_state in Hc |- *.
  destruct (gs_classes s !! class) as [c|]; cbn [default] in Hc |- *.
  - rewrite (domain_scan _ _ Hc). split.
    + intros (x & (q & -> & Hq)%list_elem_of_fmap & Hs). by exists q.
    + intros (q & Hq & Hs). exists (untag q). split; [by apply list_elem_of_fmap_2|done].
  - split; [done|]. intros (q & Hq & _). by apply not_elem_of_nil in Hq.
Qed.

(** ** The decision *)

(** What is checked of a class before any capacity. *)
Record eligible (P : PolicySet) (s : GovernedState) (spec : TaskSpec) (class : TaskClass)
    (policy : ClassPolicy) : Prop := {
  el_open : gs_admission_closed s = false;
  el_class : ps_class P class = Some policy;
  el_enabled : max_inflight policy ≠ 0;
  el_operation : has_operation_identity s (ts_root_operation_id spec) (ts_operation spec) = false;
  el_recursion : is_recursive s spec = false;
}.

Definition immediate (d : AdmissionDecision) : bool :=
  match d with AdmittedPermit _ => true | _ => false end.

(** The resolver's answer about a request under a class. *)
Definition resolved (P : PolicySet) (s : GovernedState) (req : AdmissionRequest) (class : TaskClass)
    (policy : ClassPolicy) : CapacityAssessment :=
  assess s P (ar_spec req) class (max_inflight policy) (resolve_cost policy) (ar_capabilities req)
    (admit_queued_behind s policy class (ar_capabilities req)).

(** Every limit but the memory budget has room. *)
Record lacks_memory_only (P : PolicySet) (s : GovernedState) (class : TaskClass)
    (policy : ClassPolicy) (caps : CapabilityRequirementSet) : Prop := {
  lm_inflight : cs_inflight (class_state s class) < max_inflight policy;
  lm_pools id : id ∈ caps → ∃ r, capability_record P id = Some r ∧
    (capacity_limit (cr_capacity r) ≠ 0 → capability_in_use s id < capacity_limit (cr_capacity r));
  lm_cpu : max_cpu_units (ps_resources P) ≠ 0 →
    gs_cpu_units_held s + rc_cpu_units (resolve_cost policy) ≤ max_cpu_units (ps_resources P);
  lm_memory : max_memory_units (ps_resources P) ≠ 0;
  lm_held : max_memory_units (ps_resources P) <
    gs_memory_units_held s + rc_memory_units (resolve_cost policy);
  lm_fault : gs_accounting_fault s = None;
}.

(** Memory is what stands in the way: everything else has room, or the wait would be a
    cycle over, among others, the memory budget. *)
Definition short_of_memory (P : PolicySet) (s : GovernedState) (req : AdmissionRequest)
    (class : TaskClass) (policy : ClassPolicy) : Prop :=
  match resolved P s req class policy with
  | IrreversibleWaitCycle w => MemoryBudget ∈ cw_held w
  | _ => lacks_memory_only P s class policy (ar_capabilities req)
  end.

(** The class a request is judged under: its own, or, when that is enabled, degrades
    and is short of memory, its fallback. *)
Inductive judged (P : PolicySet) (s : GovernedState) (req : AdmissionRequest)
  : TaskClass → ClassPolicy → Prop :=
  | judged_own policy :
      ps_class P (ts_class (ar_spec req)) = Some policy →
      (∀ fallback, memory_overcommit_policy policy = DegradeToLight fallback →
         ¬ short_of_memory P s req (ts_class (ar_spec req)) policy) →
      judged P s req (ts_class (ar_spec req)) policy
  | judged_fallback policy fallback policy' :
      ps_class P (ts_class (ar_spec req)) = Some policy → max_inflight policy ≠ 0 →
      memory_overcommit_policy policy = DegradeToLight fallback →
      short_of_memory P s req (ts_class (ar_spec req)) policy →
      ps_class P fallback = Some policy' →
      judged P s req fallback policy'.

(** Sums with what a class costs are representable. *)
Definition representable (s : GovernedState) (policy : ClassPolicy) : Prop :=
  gs_cpu_units_held s + rc_cpu_units (resolve_cost policy) ≤ U128_MAX ∧
  gs_memory_units_held s + rc_memory_units (resolve_cost policy) ≤ U128_MAX.

Lemma over_budget_spec held cost budget :
  held + cost ≤ U128_MAX → over_budget held cost budget = true ↔ budget ≠ 0 ∧ budget < held + cost.
Proof.
  intros Hw. unfold over_budget, checked_add. case_decide; [naive_solver|].
  rewrite decide_True by done. rewrite bool_decide_eq_true. naive_solver.
Qed.

(** The blocker named first is memory exactly when nothing else lacks room. *)
Lemma primary_memory s P class policy caps behind :
  representable s policy →
  primary (with_queued_behind behind
    (blockers_for s P class (max_inflight policy) (resolve_cost policy) caps)) = BlockMemory ↔
  lacks_memory_only P s class policy caps.
Proof.
  intros [Hc Hm]. unfold blockers_for.
  destruct (blocked_capabilities s P caps) as [blocked unknown] eqn:E. unfold primary. cbn.
  split.
  - destruct (_ || _) eqn:Ef; [done|]. apply orb_false_iff in Ef as [Ef%bool_decide_eq_false ->].
    case_bool_decide as Hi; [done|]. destruct blocked; [|done].
    destruct (over_budget (gs_cpu_units_held s) _ _) eqn:Ecpu; [done|].
    destruct (over_budget (gs_memory_units_held s) _ _) eqn:Emem; [|by destruct behind].
    apply over_budget_spec in Emem as [H1 H2]; [|done]. rewrite inflight_class_state in Hi.
    intros _. split; [lia|by apply blocked_capabilities_nil|by apply over_budget_false|done|done|].
    destruct (gs_accounting_fault s); [|done]. destruct Ef. by eexists.
  - intros [H1 H2 H3 H4 H5 H6]. rewrite (blocked_capabilities_intro _ _ _ H2) in E. injection E as <- <-.
    rewrite H6, inflight_class_state. cbn. rewrite bool_decide_eq_false_2 by lia.
    rewrite over_budget_intro by done. cbn.
    by rewrite (proj2 (over_budget_spec _ _ _ Hm)).
Qed.

Lemma enqueue_or_full_queued policy class req w ids now block s e d s' e' :
  enqueue_or_full policy class req w ids now block s e = Some (d, s', e') →
  immediate d = false ∧ (∀ t, d = Queued t → t = id_ticket ids ∧ queued s class < max_queue_depth policy).
Proof.
  unfold enqueue_or_full, refuse. case_decide as Hd; [by intros [= <- <- <-]|].
  destruct (enqueue_tags _ _ _ _ _) as [tags s0]. intros (s1 & _ & [= <- <- <-])%bind_Some.
  split; [done|]. intros t [= <-]. split; [done|lia].
Qed.

(** A block that is not passed on to a fallback class. *)
Lemma admit_block_decides policy now req class w ids degrade block s e d s' e' :
  (∀ c, block = BlockMemory → memory_overcommit_policy policy = DegradeToLight c → degrade = None) →
  admit_block policy now req class w ids degrade block s e = Some (d, s', e') →
  (immediate d = true ↔ block = BlockOk) ∧
  (∀ t, d = Queued t → t = id_ticket ids ∧ queued s class < max_queue_depth policy).
Proof.
  intros Hdeg. unfold admit_block.
  assert (∀ b, b ≠ BlockOk → enqueue_or_full policy class req w ids now b s e = Some (d, s', e') →
    (immediate d = true ↔ b = BlockOk) ∧
    (∀ t, d = Queued t → t = id_ticket ids ∧ queued s class < max_queue_depth policy)) as Hq.
  { intros b Hb [Hi Ht]%enqueue_or_full_queued. split; [|done]. by rewrite Hi. }
  destruct block; try (by apply Hq);
    try (destruct (is_queueable _); [by apply Hq|by intros [= <- <- <-]]).
  - by intros [= <- <- <-].
  - destruct (memory_overcommit_policy policy) as [| |c];
      [by intros [= <- <- <-]|by apply Hq|]. rewrite (Hdeg c) by done. by intros [= <- <- <-].
  - by intros [= <- <- <-].
Qed.

Section decision.
Context (P : PolicySet) (s : GovernedState) (req : AdmissionRequest).
Context (now : N) (w : option Waker) (ids : Ids) (e : TransitionEffects).
Hypothesis Hok : queues_ok s.
Hypothesis Hopen : gs_admission_closed s = false.
Hypothesis Hrep : ∀ class policy, ps_class P class = Some policy → representable s policy.
Local Abbreviation caps := (ar_capabilities req).

(** The decision under a class that does not pass the request on. *)
Definition decided (class : TaskClass) (policy : ClassPolicy) (d : AdmissionDecision) : Prop :=
  (immediate d = true ↔
     eligible P s (ar_spec req) class policy ∧
     fits P s class policy (resolve_cost policy) caps ∧ ¬ waits_behind s policy class caps) ∧
  (∀ t, d = Queued t → t = id_ticket ids ∧ eligible P s (ar_spec req) class policy ∧
     queued s class < max_queue_depth policy ∧
     (fits P s class policy (resolve_cost policy) caps → waits_behind s policy class caps)).

Lemma refused_decided class policy v :
  ¬ eligible P s (ar_spec req) class policy → decided class policy (Rejected v).
Proof. intros H. split; [|done]. split; [done|tauto]. Qed.

(** What [admit_class] asks before any capacity, in one go. *)
Lemma admit_class_eligible hops class policy :
  eligible P s (ar_spec req) class policy →
  admit_class hops P now req class w ids s e =
    let degrade := match hops with
                   | O => None
                   | S hops' => Some (λ fallback, admit_class hops' P now req fallback w ids s e)
                   end in
    match resolved P s req class policy with
    | Runnable => admit_block policy now req class w ids degrade BlockOk s e
    | ReversiblyBlocked b => admit_block policy now req class w ids degrade (primary b) s e
    | IrreversibleWaitCycle c =>
      match memory_overcommit_policy policy, degrade, bool_decide (MemoryBudget ∈ cw_held c) with
      | DegradeToLight fallback, Some retry_on, true => retry_on fallback
      | _, _, _ =>
        held_by_root ← head (cw_held c);
        refuse (NestedWaitCycle held_by_root) w s e
      end
    end.
Proof.
  intros [_ Hp He Hi Hr]. destruct hops; cbn [admit_class];
    (rewrite Hp; assert (is_disabled policy = false) as -> by (by apply bool_decide_eq_false);
     by rewrite Hi, Hr).
Qed.

Lemma admit_class_ineligible hops class policy d s' e' :
  ps_class P class = Some policy → ¬ eligible P s (ar_spec req) class policy →
  admit_class hops P now req class w ids s e = Some (d, s', e') → decided class policy d.
Proof.
  intros Hp Hne H.
  assert (∃ v, Some (d, s', e') = refuse v w s e) as [v [= -> _ _]].
  { destruct hops; cbn [admit_class] in H; rewrite Hp in H;
      (destruct (is_disabled policy) eqn:Ed; [by eexists|];
       destruct (has_operation_identity _ _ _) eqn:Ei; [by eexists|];
       destruct (is_recursive _ _) eqn:Er; [by eexists|];
       destruct Hne; split; try done; by apply bool_decide_eq_false in Ed). }
  by apply refused_decided.
Qed.

Lemma resolved_runnable class policy :
  ps_class P class = Some policy →
  resolved P s req class policy = Runnable ↔
  fits P s class policy (resolve_cost policy) caps ∧ ¬ waits_behind s policy class caps.
Proof.
  intros Hp. destruct (Hrep _ _ Hp) as [Hc Hm].
  pose proof (admit_queued_behind_spec s policy class caps Hok) as Hb. split.
  - intros [Hf Hbe]%assess_scope_fits. split; [done|]. by rewrite <-Hb, Hbe.
  - intros [Hf Hn]. unfold resolved. destruct (admit_queued_behind _ _ _ _); [by destruct Hn; apply Hb|].
    by apply fits_runnable.
Qed.

Lemma resolved_blocked class policy b :
  ps_class P class = Some policy → resolved P s req class policy = ReversiblyBlocked b →
  primary b ≠ BlockOk ∧ (primary b = BlockMemory ↔ lacks_memory_only P s class policy caps).
Proof.
  intros Hp H. pose proof (assess_scope_blocked _ _ _ _ _ _ _ _ _ _ _ H) as Hne. split; [done|].
  revert H. unfold resolved, assess, assess_scope. destruct (bl_is_empty _); [done|].
  destruct (cycle_witness _ _ _ _ _ _ _); [done|]. intros [= <-]. by apply primary_memory, (Hrep class).
Qed.

(** The class keeps the request: it has no fallback to pass it on to, may not, or memory
    is not what stands in the way. *)
Lemma degraded_admission hops class policy d s' e' :
  ps_class P class = Some policy →
  (∀ fallback, memory_overcommit_policy policy = DegradeToLight fallback →
     hops = 0%nat ∨ ¬ short_of_memory P s req class policy) →
  admit_class hops P now req class w ids s e = Some (d, s', e') → decided class policy d.
Proof.
  intros Hp Hkeep H.
  assert (eligible P s (ar_spec req) class policy ∨ ¬ eligible P s (ar_spec req) class policy) as [Hel|Hne].
  { destruct (decide (max_inflight policy = 0)); [right; by intros []|].
    destruct (has_operation_identity s (ts_root_operation_id (ar_spec req)) (ts_operation (ar_spec req))) eqn:Ei;
      [right; intros []; congruence|].
    destruct (is_recursive s (ar_spec req)) eqn:Er; [right; intros []; congruence|by left]. }
  2: { by eapply admit_class_ineligible. }
  rewrite (admit_class_eligible _ _ _ Hel) in H. cbn zeta in H.
  pose proof (resolved_runnable class policy Hp) as Hrun. unfold short_of_memory in Hkeep.
  assert (∀ P' : Prop, (immediate d = true ↔ P') → (P' ↔ resolved P s req class policy = Runnable) →
    (∀ t, d = Queued t → t = id_ticket ids ∧ queued s class < max_queue_depth policy) →
    decided class policy d) as Hfin.
  { intros P' HP' Hr Hq. split; [rewrite HP', Hr, Hrun; tauto|]. intros t Ht.
    destruct (Hq t Ht) as [Et Hd]. split_and!; [done..|]. intros Hf.
    pose proof (admit_queued_behind_spec s policy class caps Hok) as Hb. apply Hb.
    destruct (admit_queued_behind s policy class caps); [done|exfalso].
    assert (¬ waits_behind s policy class caps) as Hn by (intros Hx; by apply Hb in Hx).
    assert (immediate d = true) as Hi by (by apply HP', Hr, Hrun). by subst d. }
  destruct (resolved P s req class policy) as [|b|c] eqn:Ea.
  - apply admit_block_decides in H as [Hi Hq]; [|done]. by eapply Hfin.
  - destruct (resolved_blocked _ _ _ Hp Ea) as [Hne Hmem].
    apply admit_block_decides in H as [Hi Hq].
    + eapply Hfin; [exact Hi| |exact Hq]. by split.
    + intros fallback Eb Edeg. destruct (Hkeep fallback Edeg) as [->|Hn]; [done|].
      by destruct Hn; apply Hmem.
  - assert (∃ held, d = Rejected (NestedWaitCycle held)) as [held ->].
    { destruct (memory_overcommit_policy policy) as [| |fallback] eqn:Edeg;
        [| |destruct hops as [|hops]; [|case_bool_decide as Hin; [by destruct (Hkeep fallback eq_refl) as [|[]]|]]];
        apply bind_Some in H as (held & _ & [= <- _ _]); eauto. }
    by apply (Hfin False).
Qed.

(** The class passes the request on to its fallback. *)
Lemma admit_class_passes hops class policy fallback :
  eligible P s (ar_spec req) class policy →
  memory_overcommit_policy policy = DegradeToLight fallback → short_of_memory P s req class policy →
  admit_class (S hops) P now req class w ids s e = admit_class hops P now req fallback w ids s e.
Proof.
  intros Hel Hd Hm. rewrite (admit_class_eligible _ _ _ Hel). cbn zeta. unfold short_of_memory in Hm.
  pose proof (el_class _ _ _ _ _ Hel) as Hp.
  destruct (resolved P s req class policy) as [|b|c] eqn:Ea.
  - apply resolved_runnable in Ea as [[_ _ _ Hf _] _]; [|done]. destruct Hm as [_ _ _ H4 H5 _].
    specialize (Hf H4). lia.
  - apply (resolved_blocked _ _ _ Hp Ea) in Hm. rewrite Hm. cbn. by rewrite Hd.
  - rewrite Hd. by rewrite bool_decide_eq_true_2.
Qed.

Lemma short_of_memory_dec class policy :
  ps_class P class = Some policy →
  short_of_memory P s req class policy ∨ ¬ short_of_memory P s req class policy.
Proof.
  intros Hp. unfold short_of_memory. destruct (resolved P s req class policy) as [|b|c] eqn:Ea.
  - right. intros [_ _ _ H4 H5 _]. apply resolved_runnable in Ea as [[_ _ _ Hf _] _]; [|done].
    specialize (Hf H4). lia.
  - destruct (resolved_blocked _ _ _ Hp Ea) as [_ <-]. destruct (primary b); (by left) || (by right).
  - destruct (decide (MemoryBudget ∈ cw_held c)); [by left|by right].
Qed.

(** The whole decision: that of the class the request is judged under. *)
Lemma admit_class_judged d s' e' :
  admit_class 1 P now req (ts_class (ar_spec req)) w ids s e = Some (d, s', e') →
  (∃ class policy, judged P s req class policy ∧ decided class policy d ∧
     ∀ class' policy', judged P s req class' policy' → class' = class ∧ policy' = policy) ∨
  ((∃ v, d = Rejected v) ∧ ∀ class policy, judged P s req class policy →
     ¬ eligible P s (ar_spec req) class policy).
Proof.
  intros H. destruct (ps_class P (ts_class (ar_spec req))) as [policy|] eqn:Hp.
  2: { right. split; [|by intros ?? []; congruence]. cbn [admit_class] in H. rewrite Hp in H.
       injection H as <- _ _. by eexists. }
  assert ((∃ fallback, memory_overcommit_policy policy = DegradeToLight fallback ∧
             short_of_memory P s req (ts_class (ar_spec req)) policy) ∨
          ∀ fallback, memory_overcommit_policy policy = DegradeToLight fallback →
             ¬ short_of_memory P s req (ts_class (ar_spec req)) policy) as [(fallback & Hd & Hm)|Hkeep].
  { destruct (memory_overcommit_policy policy) as [| |fallback]; [by right..|].
    destruct (short_of_memory_dec _ _ Hp); [left; eauto|by right; intros ? [= <-]]. }
  2: { left. exists (ts_class (ar_spec req)), policy. split; [by apply judged_own|]. split.
       - eapply degraded_admission; [done| |exact H]. intros fallback Hd. right. by eapply Hkeep.
       - intros class' policy' [p Hp' _|p fallback p' Hp' _ Hd Hm _]; [by simplify_eq|].
         simplify_eq. by destruct (Hkeep _ Hd Hm). }
  assert (∀ class' policy', judged P s req class' policy' →
    class' = fallback ∧ ps_class P fallback = Some policy' ∧ max_inflight policy ≠ 0) as Huniq.
  { intros class' policy' [p Hp' Hk|p fb p' Hp' He Hd' _ Hfb]; simplify_eq; [by destruct (Hk _ Hd Hm)|split_and!; congruence]. }
  destruct (decide (max_inflight policy = 0)) as [E0|En0].
  { right. split; [|by intros ?? (_ & _ & ?)%Huniq]. cbn [admit_class] in H. rewrite Hp in H.
    assert (is_disabled policy = true) as Hdis by (by apply bool_decide_eq_true). rewrite Hdis in H.
    injection H as <- _ _. by eexists. }
  destruct (has_operation_identity s (ts_root_operation_id (ar_spec req)) (ts_operation (ar_spec req))
            || is_recursive s (ar_spec req)) eqn:Eid.
  { right. split.
    - assert (is_disabled policy = false) as Hdis by (by apply bool_decide_eq_false).
      cbn [admit_class] in H. rewrite Hp, Hdis in H.
      destruct (has_operation_identity _ _ _); [injection H as <- _ _; by eexists|].
      destruct (is_recursive _ _); [injection H as <- _ _; by eexists|done].
    - intros ?? _ [_ _ _ E1 E2]. by rewrite E1, E2 in Eid. }
  apply orb_false_iff in Eid as [E1 E2].
  assert (eligible P s (ar_spec req) (ts_class (ar_spec req)) policy) as Hel by done.
  rewrite (admit_class_passes _ _ _ _ Hel Hd Hm) in H.
  destruct (ps_class P fallback) as [policy'|] eqn:Hp'.
  - left. exists fallback, policy'. split; [by eapply judged_fallback|]. split.
    + eapply degraded_admission; [done| |exact H]. by left.
    + intros class2 policy2 (-> & E & _)%Huniq. split; [done|congruence].
  - right. split; [|by intros ?? (_ & ? & _)%Huniq]. cbn [admit_class] in H. rewrite Hp' in H.
    injection H as <- _ _. by eexists.
Qed.
End decision.

(** C20: admission is immediate exactly when nothing stands in the way.  In every run
    with fewer than 2^32 live permits, a request is granted on the spot if and only if the
    gate is open, the class it is judged under enabled, its operation new and not
    recursive, every limit (class, pools, CPU, memory, no fault) has room for it under
    that class, and nobody of its domain is to be served first; it is queued only when
    eligible, within the depth of that class, and only if it does not fit or somebody is
    to be served first.  The class it is judged under is its own; only if its own class
    is enabled, degrades, and lacks nothing but memory (or the wait would be a cycle over
    the memory budget) is it the fallback class. *)
Theorem admission_immediate P authority w sampled req waker ids d s' e :
  policies_typed P → reachable P authority w → room 0 (w_state w) →
  admit_section P sampled req waker ids (w_state w) = Some (d, s', e) →
  let s := (commit_time sampled (w_state w)).2 in
  let caps := ar_capabilities req in
  (immediate d = true ↔
     ∃ class policy, judged P s req class policy ∧ eligible P s (ar_spec req) class policy ∧
       fits P s class policy (resolve_cost policy) caps ∧ ¬ waits_behind s policy class caps) ∧
  (∀ t, d = Queued t →
     t = id_ticket ids ∧
     ∃ class policy, judged P s req class policy ∧ eligible P s (ar_spec req) class policy ∧
       queued s class < max_queue_depth policy ∧
       (fits P s class policy (resolve_cost policy) caps → waits_behind s policy class caps)).
Proof.
  intros Ht Hw Hroom H s caps.
  pose proof (wq_ok _ (reachable_queues P authority Ht w Hw)) as Hok.
  destruct (reachable_inv P authority w Ht Hw) as (B & [[HL HP _] _ _] & _).
  pose proof (commit_time_books sampled (w_state w)) as Hb.
  assert (same_queues (w_state w) s) as Hq by (by apply same_queues_books).
  apply (same_queues_ok _ _ Hq) in Hok.
  assert (∀ g, gauge_read (w_state w) g ≤ U32_MAX * U32_MAX) as Hg by (intros g; by eapply gauge_bound).
  pose proof (Hg GCpu) as Hc. pose proof (Hg GMemory) as Hm. cbn in Hc, Hm.
  assert (∀ class policy, ps_class P class = Some policy → representable s policy) as Hrep.
  { intros class policy Hp. destruct (Ht _ _ Hp) as [_ _ Tc Tm _].
    change (gs_cpu_units_held (w_state w)) with (gs_cpu_units_held s) in Hc.
    change (gs_memory_units_held (w_state w)) with (gs_memory_units_held s) in Hm.
    split; unfold resolve_cost; cbn [rc_cpu_units rc_memory_units]; ulia. }
  unfold admit_section in H. unfold s, caps.
  destruct (commit_time sampled (w_state w)) as [now s1]. cbn [snd] in *. subst s.
  unfold admit_request in H. destruct (gs_admission_closed s1) eqn:Eo.
  { injection H as <- _ _. split; [|done]. split; [done|]. intros (? & ? & _ & [] & _). congruence. }
  apply admit_class_judged in H as [(class & policy & Hj & [Hi Hqd] & Huniq)|([v ->] & Hno)]; [|..|done|done|done].
  - split.
    + rewrite Hi. split; [by eauto 6|]. intros (class' & policy' & Hj' & H).
      by destruct (Huniq _ _ Hj') as [-> ->].
    + intros t Hd. destruct (Hqd t Hd) as (-> & ? & ? & ?). split; [done|]. by exists class, policy.
  - split; [|done]. split; [done|]. intros (class & policy & Hj & Hel & _). by destruct (Hno _ _ Hj).
Qed.

(** The third arrival of the run is refused the spot: its class has two waiting. *)
Lemma admission_immediate_witness :
  ∃ d s' e, admit_section demo_policy 13 (mkRequest (demo_task "ingest" "d") [mkCapabilityId "cpu" 7]) None
      (mkIds (mkPermitId 1 4) (mkTicket 1 4) 4) (w_state fifo_before) = Some (d, s', e) ∧
    immediate d = false.
Proof.
  destruct (admit_section demo_policy 13 _ None _ (w_state fifo_before)) as [[[d s'] e]|] eqn:H;
    [|vm_compute in H; discriminate H].
  exists d, s', e. split; [reflexivity|].
  assert (room 0 (w_state fifo_before)) as Hroom by (vm_compute; discriminate).
  destruct (admission_immediate demo_policy 1 fifo_before 13
    (mkRequest (demo_task "ingest" "d") [mkCapabilityId "cpu" 7]) None
    (mkIds (mkPermitId 1 4) (mkTicket 1 4) 4) d s' e demo_typed fifo_reachable Hroom H) as [Hi _].
  assert (∃ q, cs_queue (class_state (w_state fifo_before) "ingest") !! 0%nat = Some q ∧
    pr_capabilities q = [mkCapabilityId "cpu" 7]) as (q & Hq & Ec).
  { destruct (cs_queue (class_state (w_state fifo_before) "ingest") !! 0%nat) as [q|] eqn:Hq;
      [|vm_compute in Hq; discriminate Hq].
    exists q. split; [reflexivity|]. vm_compute in Hq. injection Hq as <-. reflexivity. }
  clear H Hroom. revert Hi Hq. generalize (w_state fifo_before) as s. intros s Hi Hq.
  apply not_true_is_false. intros E. apply Hi in E as (class & policy & Hj & _ & _ & Hn).
  apply Hn. left. exists q. split.
  - assert (class = "ingest"%string) as ->.
    { destruct Hj as [p _ _|p fallback p' Hp _ Hd _ _]; [reflexivity|].
      vm_compute in Hp. injection Hp as <-. discriminate Hd. }
    apply list_elem_of_lookup_2 with 0%nat. exact Hq.
  - right. rewrite Ec. eexists. split; left.
Defined.
