(* ===== verification/Identities.v ===== *)
(** * One holder per operation

    The engine refuses an operation of a root that is already live or queued.  Two
    indexes answer the question: the operation index of live permits and the
    queued-identity index.  Both are exact in every run, and an operation has one
    holder at most. *)

From S2P Require Import Prelude Contract Text Kernel Requirements State Assess Fairness Admission.
From S2P Require Import Memory Governor Books Custody Ledger Moves Reads Invariant Steps Selection.
From S2P Require Import Sections Lifecycle Trace System Queues Runs Fifo Consistency Fates.

(** ** The invariant *)

Definition permit_operation (r : PermitRecord) : string * string :=
  (rec_root_operation_id r, rec_operation r).
Definition request_operation (q : PendingRequest) : string * string :=
  (pr_root_operation_id q, pr_operation q).

(** The two indexes as lookups of one operation. *)
Definition live_operation (m : gmap string RootOperationPermits) (k : string * string)
  : option PermitId := m !! k.1 ≫= RootOperationPermits.get k.1 k.2.
Definition queued_operation (m : gmap string (gset string)) (k : string * string) : bool :=
  match m !! k.1 with Some ops => bool_decide (k.2 ∈ ops) | None => false end.

Lemma has_operation_identity_split s root op :
  has_operation_identity s root op = false ↔
  live_operation (gs_operation_permits s) (root, op) = None ∧
  queued_operation (gs_queued_operation_identities s) (root, op) = false.
Proof.
  unfold has_operation_identity, permits_for_operation, live_operation, queued_operation. cbn.
  rewrite orb_false_iff, bool_decide_eq_false, eq_None_not_Some. done.
Qed.

Record identities_ok (s : GovernedState) : Prop := {
  io_live k pid :
    live_operation (gs_operation_permits s) k = Some pid ↔
    ∃ r, gs_permits s !! pid = Some r ∧ permit_operation r = k;
  io_queued k :
    queued_operation (gs_queued_operation_identities s) k = true ↔
    ∃ class q, q ∈ waiting s class ∧ request_operation q = k;
  io_apart k pid : live_operation (gs_operation_permits s) k = Some pid →
    queued_operation (gs_queued_operation_identities s) k = false;
  io_one class class' i i' q q' :
    waiting s class !! i = Some q → waiting s class' !! i' = Some q' →
    request_operation q = request_operation q' → class = class' ∧ i = i';
}.

(** ** Index updates *)

Lemma live_operation_insert m root op pid k :
  live_operation (<[root := RootOperationPermits.insert root op pid
                     (default RootOperationPermits_default (m !! root))]> m) k =
    if decide (k = (root, op)) then Some pid else live_operation m k.
Proof.
  unfold live_operation. destruct k as [root' op']; cbn [fst snd].
  destruct (decide (root' = root)) as [->|Hr].
  - rewrite lookup_insert_eq. cbn [mbind option_bind].
    assert (RootOperationPermits.get root op' (RootOperationPermits.insert root op pid
      (default RootOperationPermits_default (m !! root))) =
      if decide (op' = op) then Some pid
      else RootOperationPermits.get root op' (default RootOperationPermits_default (m !! root))) as ->.
    { unfold RootOperationPermits.get, RootOperationPermits.insert.
      destruct (decide (op = root)) as [->|]; destruct (decide (op' = root)) as [->|]; cbn;
        repeat (case_decide; simplify_eq); try done.
      - by rewrite lookup_insert_eq.
      - by rewrite lookup_insert_ne by congruence. }
    repeat case_decide; simplify_eq; try done.
    destruct (m !! root) as [r|]; [done|]. cbn. unfold RootOperationPermits.get.
    destruct (decide (op' = root)); [done|apply lookup_empty].
  - rewrite lookup_insert_ne by congruence. by rewrite decide_False by congruence.
Qed.

Lemma live_operation_forget m root op k :
  live_operation (forget_operation root op m) k =
    if decide (k = (root, op)) then None else live_operation m k.
Proof.
  unfold live_operation, forget_operation. destruct k as [root' op']; cbn [fst snd].
  destruct (m !! root) as [r|] eqn:E.
  2: { case_decide; simplify_eq; [|done]. by rewrite E. }
  assert (RootOperationPermits.get root op' (RootOperationPermits.remove root op r) =
    if decide (op' = op) then None else RootOperationPermits.get root op' r) as Hget.
  { unfold RootOperationPermits.get, RootOperationPermits.remove.
    destruct (decide (op = root)) as [->|]; destruct (decide (op' = root)) as [->|]; cbn;
      repeat (case_decide; simplify_eq); try done.
    - by rewrite lookup_delete_eq.
    - by rewrite lookup_delete_ne by congruence. }
  destruct (decide (root' = root)) as [->|Hr].
  - destruct (RootOperationPermits.is_empty _) eqn:Ee.
    + rewrite lookup_delete_eq, E. cbn.
      assert (RootOperationPermits.get root op' (RootOperationPermits.remove root op r) = None) as Hn.
      { apply andb_true_iff in Ee as [E1%bool_decide_eq_true E2%bool_decide_eq_true].
        unfold RootOperationPermits.get. rewrite E1, E2. destruct (decide (op' = root)); [done|apply lookup_empty]. }
      rewrite Hget in Hn. repeat case_decide; simplify_eq; done.
    + rewrite lookup_insert_eq, E. cbn. rewrite Hget. repeat case_decide; simplify_eq; done.
  - rewrite decide_False by congruence.
    destruct (RootOperationPermits.is_empty _);
      [by rewrite lookup_delete_ne by congruence|by rewrite lookup_insert_ne by congruence].
Qed.

Lemma queued_operation_insert m root op k :
  queued_operation (<[root := {[op]} ∪ default ∅ (m !! root)]> m) k =
    bool_decide (k = (root, op)) || queued_operation m k.
Proof.
  unfold queued_operation. destruct k as [root' op']; cbn [fst snd].
  destruct (decide (root' = root)) as [->|Hr].
  - rewrite lookup_insert_eq. destruct (m !! root) as [ops|]; cbn.
    + apply eq_bool_prop_intro. rewrite orb_True, !bool_decide_spec. set_solver.
    + rewrite orb_false_r. apply bool_decide_ext. set_solver.
  - rewrite lookup_insert_ne by congruence. by rewrite bool_decide_eq_false_2 by congruence.
Qed.

Lemma queued_operation_forget m root op k :
  queued_operation (forget_queued_identity root op m) k =
    negb (bool_decide (k = (root, op))) && queued_operation m k.
Proof.
  unfold queued_operation, forget_queued_identity. destruct k as [root' op']; cbn [fst snd].
  destruct (m !! root) as [ops|] eqn:E.
  2: { case_bool_decide; simplify_eq; cbn; [by rewrite E|done]. }
  destruct (decide (root' = root)) as [->|Hr].
  - rewrite E. case_decide as He.
    + rewrite lookup_delete_eq. symmetry. apply andb_false_iff.
      destruct (decide (op' = op)) as [->|]; [left; by rewrite bool_decide_eq_true_2|].
      right. apply bool_decide_eq_false. set_solver.
    + rewrite lookup_insert_eq.
      destruct (decide (op' = op)) as [->|].
      * rewrite (bool_decide_eq_true_2 ((root, op) = _)) by done. cbn.
        apply bool_decide_eq_false. set_solver.
      * rewrite (bool_decide_eq_false_2 ((root, op') = _)) by congruence. cbn.
        apply bool_decide_ext. set_solver.
  - rewrite (bool_decide_eq_false_2 ((root', op') = _)) by congruence. cbn.
    case_decide; [by rewrite lookup_delete_ne by congruence|by rewrite lookup_insert_ne by congruence].
Qed.

(** ** The frame *)

(** Nothing the invariant reads moves. *)
Record same_identities (s s' : GovernedState) : Prop := {
  si_queues : same_queues s s';
  si_index : gs_operation_permits s' = gs_operation_permits s;
  si_records pid : permit_operation <$> gs_permits s' !! pid = permit_operation <$> gs_permits s !! pid;
}.

Lemma same_identities_permits s s' :
  same_queues s s' → gs_operation_permits s' = gs_operation_permits s →
  gs_permits s' = gs_permits s → same_identities s s'.
Proof. intros H E Ep. split; [done|done|]. intros pid. by rewrite Ep. Qed.

Lemma same_identities_insert s s' pid r r' :
  same_queues s s' → gs_operation_permits s' = gs_operation_permits s →
  gs_permits s' = <[pid := r']> (gs_permits s) → gs_permits s !! pid = Some r →
  permit_operation r' = permit_operation r → same_identities s s'.
Proof.
  intros H E Ep Hr Eo. split; [done|done|]. intros pid'. rewrite Ep.
  destruct (decide (pid' = pid)) as [->|]; [|by rewrite lookup_insert_ne].
  rewrite lookup_insert_eq, Hr. cbn. by rewrite Eo.
Qed.

Lemma same_identities_records s s' k :
  same_identities s s' →
  ∀ pid, (∃ r, gs_permits s' !! pid = Some r ∧ permit_operation r = k) ↔
         ∃ r, gs_permits s !! pid = Some r ∧ permit_operation r = k.
Proof.
  intros [_ _ Hr] pid. specialize (Hr pid).
  destruct (gs_permits s' !! pid) as [r'|], (gs_permits s !! pid) as [r|]; try done.
  apply (inj Some) in Hr. split; intros (x & [= <-] & <-); eexists; (split; [done|]); congruence.
Qed.

Lemma same_identities_ok s s' : same_identities s s' → identities_ok s → identities_ok s'.
Proof.
  intros H [I1 I2 I3 I4]. pose proof (λ k, same_identities_records _ _ k H) as Hrec.
  destruct H as [Hq Ei Hr]. pose proof (λ c, same_queues_waiting _ _ c Hq) as Ew.
  split.
  - intros k pid. rewrite Ei, I1. symmetry. by apply Hrec.
  - intros k. rewrite (sq_identities _ _ Hq), I2. by setoid_rewrite Ew.
  - intros k pid. rewrite Ei, (sq_identities _ _ Hq). apply I3.
  - intros class class' i i' q q'. rewrite !Ew. apply I4.
Qed.

(** ** The transitions that move identities *)

Lemma unwind_identities s pid r :
  identities_ok s → gs_permits s !! pid = Some r → identities_ok (unwind_charges r pid s).
Proof.
  intros [I1 I2 I3 I4] Hr. pose proof (unwind_charges_queues r pid s) as Hq.
  pose proof (λ c, same_queues_waiting _ _ c Hq) as Ew.
  assert (gs_operation_permits (unwind_charges r pid s) =
    forget_operation (rec_root_operation_id r) (rec_operation r) (gs_operation_permits s)) as Eo
    by (unfold unwind_charges; by destruct (is_child _)).
  split.
  - intros k pid'. rewrite Eo, live_operation_forget, unwind_charges_permits.
    setoid_rewrite lookup_delete_Some. case_decide as Hk; [|rewrite I1].
    + split; [done|]. intros (r' & [Hne Hr'] & Ek).
      assert (live_operation (gs_operation_permits s) k = Some pid') as H1 by (apply I1; eauto).
      assert (live_operation (gs_operation_permits s) k = Some pid) as H2
        by (apply I1; exists r; split; [done|by rewrite Hk]).
      congruence.
    + split; intros (r' & Hr' & Ek); exists r'; (split; [|done]).
      * split; [|done]. intros <-. apply Hk. by simplify_eq.
      * apply Hr'.
  - intros k. rewrite (sq_identities _ _ Hq), I2. by setoid_rewrite Ew.
  - intros k pid'. rewrite Eo, live_operation_forget, (sq_identities _ _ Hq).
    case_decide; [done|apply I3].
  - intros class class' i i' q q'. rewrite !Ew. apply I4.
Qed.

Lemma remove_pending_index class i s r s' :
  remove_pending class i s = Some (r, s') →
  gs_queued_operation_identities s' =
    forget_queued_identity (pr_root_operation_id r) (pr_operation r)
      (gs_queued_operation_identities s) ∧
  gs_operation_permits s' = gs_operation_permits s.
Proof.
  unfold remove_pending. intros (? & _ & H)%bind_Some. by apply bind_Some in H as (? & _ & [= <- <-]).
Qed.

(** The queues after a removal, as the requests at the other positions. *)
Lemma waiting_removed class i s r s' class' i' q :
  remove_pending class i s = Some (r, s') → waiting s' class' !! i' = Some q →
  ∃ i'', waiting s class' !! i'' = Some q ∧ ¬ (class' = class ∧ i'' = i) ∧
    (class' = class → i'' = if decide (i' < i)%nat then i' else S i') ∧ (class' ≠ class → i'' = i').
Proof.
  intros [_ Ew]%remove_pending_waiting. rewrite Ew. unfold upd_queue_of.
  case_decide as Hc; [subst class'|intros H; exists i'; naive_solver].
  intros H. destruct (decide (i' < i)%nat) as [Hlt|Hge].
  - rewrite list_lookup_delete_lt in H by lia. exists i'. naive_solver lia.
  - rewrite list_lookup_delete_ge in H by lia. exists (S i'). naive_solver lia.
Qed.

Lemma waiting_kept class i s r s' class' i' q :
  remove_pending class i s = Some (r, s') → waiting s class' !! i' = Some q →
  ¬ (class' = class ∧ i' = i) → q ∈ waiting s' class'.
Proof.
  intros [_ Ew]%remove_pending_waiting Hq Hne. rewrite Ew. unfold upd_queue_of.
  case_decide as Hc; [subst class'|by eapply list_elem_of_lookup_2].
  destruct (decide (i' < i)%nat) as [Hlt|Hge].
  - apply list_elem_of_lookup_2 with i'. by rewrite list_lookup_delete_lt.
  - assert (i' ≠ i) by naive_solver. apply list_elem_of_lookup_2 with (pred i'). rewrite list_lookup_delete_ge by lia.
    by replace (S (pred i')) with i' by lia.
Qed.

Lemma removed_identities class i s r s' :
  remove_pending class i s = Some (r, s') → identities_ok s →
  identities_ok s' ∧ live_operation (gs_operation_permits s') (request_operation r) = None ∧
  queued_operation (gs_queued_operation_identities s') (request_operation r) = false.
Proof.
  intros Hrm [I1 I2 I3 I4]. pose proof (remove_pending_index _ _ _ _ _ Hrm) as [Eq Eo].
  pose proof (remove_pending_waiting _ _ _ _ _ Hrm) as [Hi _].
  pose proof (remove_pending_holdings _ _ _ _ _ Hrm) as Hh.
  assert (queued_operation (gs_queued_operation_identities s) (request_operation r) = true) as Hrq.
  { apply I2. exists class, (untag r). split; [by eapply list_elem_of_lookup_2|done]. }
  split; [split|split].
  - intros k pid. rewrite Eo, (sh_permits _ _ Hh). apply I1.
  - intros k. rewrite Eq, queued_operation_forget, andb_true_iff, negb_true_iff, bool_decide_eq_false.
    split.
    + intros [Hk (class' & q & Hq & Ek)%I2]. exists class', q. split; [|done].
      apply list_elem_of_lookup in Hq as [i' Hq].
      eapply waiting_kept; [done..|]. intros [-> ->]. apply Hk. rewrite Hi in Hq. by simplify_eq.
    + intros (class' & q & (i' & Hq)%list_elem_of_lookup & Ek).
      destruct (waiting_removed _ _ _ _ _ _ _ _ Hrm Hq) as (i'' & Hq' & Hne & _). split.
      * intros Ek'. apply Hne. apply (I4 _ _ _ _ _ _ Hq' Hi). by rewrite Ek, Ek'.
      * apply I2. exists class', q. split; [by eapply list_elem_of_lookup_2|done].
  - intros k pid. rewrite Eo, Eq, queued_operation_forget. intros H%I3. by rewrite H, andb_false_r.
  - intros c1 c2 i1 i2 q1 q2 H1 H2 E.
    destruct (waiting_removed _ _ _ _ _ _ _ _ Hrm H1) as (j1 & J1 & _ & A1 & B1).
    destruct (waiting_removed _ _ _ _ _ _ _ _ Hrm H2) as (j2 & J2 & _ & A2 & B2).
    destruct (I4 _ _ _ _ _ _ J1 J2 E) as [-> ->]. split; [done|].
    destruct (decide (c2 = class)) as [Hc|Hc]; [specialize (A1 Hc); specialize (A2 Hc)
      |specialize (B1 Hc); specialize (B2 Hc); congruence].
    repeat case_decide; lia.
  - rewrite Eo. apply eq_None_not_Some. intros [pid Hp%I3]. congruence.
  - rewrite Eq, queued_operation_forget. by rewrite bool_decide_eq_true_2.
Qed.

Lemma granted_identities g s :
  identities_ok s → gs_permits s !! gr_permit_id g = None →
  live_operation (gs_operation_permits s) (gr_root_operation_id g, gr_operation g) = None →
  queued_operation (gs_queued_operation_identities s) (gr_root_operation_id g, gr_operation g) = false →
  identities_ok (grant g s).
Proof.
  intros [I1 I2 I3 I4] Hfresh Hl Hq. pose proof (grant_queues g s) as Hs.
  assert (gs_operation_permits (grant g s) =
    <[gr_root_operation_id g := RootOperationPermits.insert (gr_root_operation_id g) (gr_operation g)
       (gr_permit_id g) (default RootOperationPermits_default
          (gs_operation_permits s !! gr_root_operation_id g))]> (gs_operation_permits s)) as Eo
    by (unfold grant; by destruct (is_child _), (gr_pending_ticket g)).
  split.
  - intros k pid. rewrite Eo, live_operation_insert, grant_permits. case_decide as Hk.
    + subst k. split.
      * intros [= <-]. exists (granted_record g). by rewrite lookup_insert_eq.
      * intros (r & [[-> _]|[_ Hr]]%lookup_insert_Some & Ek); [done|].
        assert (live_operation (gs_operation_permits s) (gr_root_operation_id g, gr_operation g)
          = Some pid); [apply I1; eauto|congruence].
    + rewrite I1. split; intros (r & Hr & Ek); exists r; (split; [|done]).
      * rewrite lookup_insert_ne; [done|]. intros <-. congruence.
      * apply lookup_insert_Some in Hr as [[_ <-]|[_ ?]]; [|done]. by destruct Hk.
  - intros k. rewrite (sq_identities _ _ Hs), I2. by setoid_rewrite (same_queues_waiting _ _ _ Hs).
  - intros k pid. rewrite Eo, live_operation_insert, (sq_identities _ _ Hs).
    case_decide; [by subst k|apply I3].
  - intros class class' i i' q q'. rewrite !(same_queues_waiting _ _ _ Hs). apply I4.
Qed.

Lemma enqueued_identities r s s' :
  enqueue r s = Some s' → identities_ok s →
  has_operation_identity s (pr_root_operation_id r) (pr_operation r) = false → identities_ok s'.
Proof.
  intros Hen [I1 I2 I3 I4] [Hl Hq]%has_operation_identity_split.
  pose proof (enqueue_cases _ _ _ Hen) as (_ & Hh & _).
  pose proof (enqueue_waiting _ _ _ Hen) as Ew. unfold upd_queue_of in Ew.
  assert (gs_operation_permits s' = gs_operation_permits s ∧ gs_queued_operation_identities s' =
    <[pr_root_operation_id r := {[pr_operation r]} ∪
        default ∅ (gs_queued_operation_identities s !! pr_root_operation_id r)]>
      (gs_queued_operation_identities s)) as [Eo Eq].
  { unfold enqueue in Hen. by apply bind_Some in Hen as (? & _ & [= <-]). }
  assert (∀ class i q, waiting s' class !! i = Some q → waiting s class !! i = Some q ∨
    (class = pr_class r ∧ i = length (waiting s class) ∧ request_operation q = request_operation r))
    as Hw.
  { intros class i q. rewrite Ew. case_decide; [subst class|by left].
    intros [Hi|[Hi Hx]]%lookup_app_Some; [by left|].
    apply list_lookup_singleton_Some in Hx as [Hx <-]. right. split_and!; [done|lia|done]. }
  assert (∀ class i q, waiting s class !! i = Some q → request_operation q ≠ request_operation r) as Hne.
  { intros class i q Hi E. assert (queued_operation (gs_queued_operation_identities s)
      (request_operation r) = true); [|unfold request_operation in *; congruence].
    apply I2. exists class, q. split; [by eapply list_elem_of_lookup_2|done]. }
  split.
  - intros k pid. rewrite Eo, (sh_permits _ _ Hh). apply I1.
  - intros k. rewrite Eq, queued_operation_insert, orb_true_iff, bool_decide_eq_true, I2. split.
    + intros [->|(class & q & Hi & Ek)].
      * eexists (pr_class r), _. rewrite Ew, decide_True by done.
        split; [apply elem_of_app; right; by apply list_elem_of_singleton|done].
      * exists class, q. split; [|done]. rewrite Ew. case_decide; [subst class|done].
        apply elem_of_app. by left.
    + intros (class & q & (i & Hi)%list_elem_of_lookup & Ek).
      apply Hw in Hi as [Hi|(_ & _ & E)]; [right|left; by rewrite <-Ek].
      exists class, q. split; [by eapply list_elem_of_lookup_2|done].
  - intros k pid. rewrite Eo, Eq, queued_operation_insert. intros H. rewrite (I3 _ _ H), orb_false_r.
    apply bool_decide_eq_false. intros ->. congruence.
  - intros c1 c2 i1 i2 q1 q2 H1%Hw H2%Hw E.
    destruct H1 as [H1|(-> & -> & E1)], H2 as [H2|(-> & -> & E2)]; [by eapply I4| | |done].
    + exfalso. eapply Hne; [exact H1|congruence].
    + exfalso. eapply Hne; [exact H2|congruence].
Qed.

(** ** Every run keeps it *)

Lemma memory_delta_index class root delta s :
  gs_operation_permits (apply_memory_delta class root delta s) = gs_operation_permits s.
Proof.
  unfold apply_memory_delta, record_accounting_fault. case_decide; destruct root; try done;
    destruct (_ || _); try destruct (gs_accounting_fault _); done.
Qed.

Lemma record_fault_identities what s : same_identities s (record_accounting_fault what s).
Proof.
  unfold record_accounting_fault.
  destruct (gs_accounting_fault s); by apply same_identities_permits; [apply same_queues_classes|..].
Qed.

Lemma reconcile_identities pid bytes sequence mode scale now s out s' :
  reconcile pid bytes sequence mode scale now s = (out, s') → same_identities s s'.
Proof.
  intros H. pose proof (reconcile_queues _ _ _ _ _ _ _ _ _ H) as Hq. revert H.
  unfold reconcile. destruct (gs_permits s !! pid) as [r|] eqn:Hr.
  2: { intros [= <- <-]. by apply same_identities_permits. }
  do 2 (case_decide; [by intros [= <- <-]; apply same_identities_permits|]).
  destruct (effective_units _ _ _ _) as [err|u]; intros [= <- <-].
  - apply record_fault_identities.
  - eapply same_identities_insert;
      [done|by rewrite memory_delta_index|by rewrite memory_delta_permits|done|done].
Qed.

Lemma release_stage_identities pid freed policy sequence now s out s' :
  release_stage_memory pid freed policy sequence now s = (out, s') → same_identities s s'.
Proof.
  intros H. pose proof (release_stage_queues _ _ _ _ _ _ _ _ H) as Hq. revert H.
  unfold release_stage_memory.
  destruct (negb _); [intros [= <- <-]; by apply same_identities_permits|].
  destruct (gs_permits s !! pid) as [r|] eqn:Hr;
    [|intros [= <- <-]; by apply same_identities_permits].
  destruct (match sequence with Some _ => _ | None => _ end); intros [= <- <-];
    [by apply same_identities_permits|].
  eapply same_identities_insert;
    [done|by rewrite memory_delta_index|by rewrite memory_delta_permits|done|by destruct sequence].
Qed.

Lemma advance_identities pid phase nonces s out nonces' s' :
  advance_phase pid phase nonces s = (out, nonces', s') → same_identities s s'.
Proof.
  intros H. pose proof (advance_queues _ _ _ _ _ _ _ H) as Hq.
  apply advance_phase_cases in H as [(_ & _ & _ & ->)|(r & Hr & _ & -> & _)].
  - by apply same_identities_permits.
  - by eapply same_identities_insert; [done|..|exact Hr|].
Qed.

Lemma evict_terminal_index fuel s :
  gs_operation_permits (evict_terminal fuel s) = gs_operation_permits s.
Proof.
  revert s. induction fuel as [|fuel IH]; intros s; [done|]. cbn. case_decide; [done|].
  destruct (btree_first _) as [[seq oldest]|]; [|done]. rewrite IH.
  by destruct (gs_tickets _ !! oldest) as [[]|].
Qed.

Lemma record_terminal_identities t reason s : same_identities s (record_terminal_ticket t reason s).
Proof.
  apply same_identities_permits; [apply record_terminal_queues| |apply record_terminal_charges].
  unfold record_terminal_ticket. rewrite evict_terminal_index. by destruct (gs_terminal_index _ !! t).
Qed.

Lemma forget_terminal_identities t s : same_identities s (forget_terminal_ticket t s).
Proof.
  apply same_identities_permits; [apply forget_terminal_queues| |apply forget_terminal_charges].
  unfold forget_terminal_ticket.
  destruct (gs_terminal_index s !! t); cbn [gs_tickets upd_gs_terminal_order upd_gs_terminal_index];
    by destruct (gs_tickets s !! t) as [[]|].
Qed.

Lemma same_identities_books s s' : same_books s' s → same_identities s s'.
Proof. intros H. apply same_identities_permits; [by apply same_queues_books|by rewrite H..]. Qed.

Lemma same_identities_fields s s' :
  gs_classes s' = gs_classes s → gs_next_queue_order s' = gs_next_queue_order s →
  gs_queued_operation_identities s' = gs_queued_operation_identities s →
  gs_operation_permits s' = gs_operation_permits s → gs_permits s' = gs_permits s →
  same_identities s s'.
Proof. intros. apply same_identities_permits; [by apply same_queues_classes|done..]. Qed.

Lemma promoted_identities class i r s s1 s2 s3 now :
  remove_pending class i s = Some (r, s1) → same_books s2 s1 → same_identities s2 s3 →
  gs_permits s3 !! pr_permit_id r = None → identities_ok s →
  identities_ok (grant (promotion_grant class r now s3) s3).
Proof.
  intros Hrm H2 H3 Hfresh Hok.
  destruct (removed_identities _ _ _ _ _ Hrm Hok) as (Hok1 & Hl & Hq).
  assert (same_identities s1 s3) as H13.
  { pose proof (same_identities_books _ _ H2) as [A1 B1 C1]. destruct H3 as [A2 B2 C2].
    split; [by etransitivity|congruence|]. intros pid. by rewrite C2. }
  pose proof (si_index _ _ H13) as Hi. pose proof (si_queues _ _ H13) as Hs.
  apply granted_identities.
  - by eapply same_identities_ok.
  - done.
  - rewrite Hi. exact Hl.
  - rewrite (sq_identities _ _ Hs). exact Hq.
Qed.

Lemma recorded_identities s pid r r' :
  gs_permits s !! pid = Some r → same_permit r r' →
  same_identities s (upd_gs_permits (insert pid r') s).
Proof.
  intros Hr Hs. eapply same_identities_insert; [|done|done|done|].
  - by apply same_queues_classes.
  - pose proof (sp_key _ _ Hs) as E. unfold permit_key in E. cbn in E.
    injection E as _ _ E1 E2 _ _ _ _ _ _. unfold permit_operation. by rewrite E1, E2.
Qed.

Lemma tstep_identities P s s' : tstep P s s' → identities_ok s → identities_ok s'.
Proof.
  intros Hstep Hok.
  destruct Hstep as [sampled|s' [H _]|f|class i r s1 s2 now Hrm [H2 _] Hpred s3 g Hg|class i r s' Hrm
    |t st|t|t reason|t|pid r Hr _|pid r r' Hr Hs _|pid t r Hr Ht _|pid phase nonces out nonces' s' _ H
    |pid bytes sq mode scale now out s' _ H|pid freed policy sq now out s' _ H|what|];
    try (by eapply (same_identities_ok s); [apply same_identities_fields|]).
  - by eapply (same_identities_ok s); [apply same_identities_books|].
  - eapply promoted_identities; [done|done| |apply Hg|done]. by apply same_identities_fields.
  - by eapply removed_identities.
  - by eapply (same_identities_ok s); [apply record_terminal_identities|].
  - by eapply (same_identities_ok s); [apply forget_terminal_identities|].
  - by apply unwind_identities.
  - eapply (same_identities_ok s); [|done]. by eapply recorded_identities.
  - eapply (same_identities_ok s); [|done]. by eapply recorded_identities, same_permit_pending.
  - by eapply (same_identities_ok s); [eapply advance_identities|].
  - by eapply (same_identities_ok s); [eapply reconcile_identities|].
  - by eapply (same_identities_ok s); [eapply release_stage_identities|].
  - by eapply (same_identities_ok s); [apply record_fault_identities|].
Qed.

Lemma identities_ok_default : identities_ok GovernedState_default.
Proof.
  split; cbn.
  - intros k pid. unfold live_operation. rewrite lookup_empty. split; [done|].
    intros (r & Hr & _). by rewrite lookup_empty in Hr.
  - intros k. unfold queued_operation. rewrite lookup_empty. split; [done|].
    intros (class & q & Hq & _). by apply not_elem_of_nil in Hq.
  - intros k pid. unfold live_operation. by rewrite lookup_empty.
  - done.
Qed.

Lemma reachable_identities_ok P authority w :
  policies_typed P → reachable P authority w → identities_ok (w_state w).
Proof.
  intros Ht. revert w. apply reachable_state; [done|apply identities_ok_default| | |].
  - intros s s'. apply tstep_identities.
  - intros s ids g Hk Hg _ _ Hid. apply has_operation_identity_split in Hid as [Hl Hq].
    apply granted_identities; [done|apply Hg|done..].
  - intros s ids r s' Hk Har Hen. eapply enqueued_identities; [done..|apply Har].
Qed.

(** C22: an operation has one holder.  In every run the reentrancy test of admission
    answers exactly whether a live permit or a queued request carries the operation
    of that root, and no two of them do: two live permits, two queued requests, or a
    permit and a request with the same root and operation are the same one. *)
Theorem reachable_one_holder P authority w root op :
  policies_typed P → reachable P authority w →
  let s := w_state w in
  let live pid := ∃ r, gs_permits s !! pid = Some r ∧
    rec_root_operation_id r = root ∧ rec_operation r = op in
  let waits class i := ∃ q, cs_queue (class_state s class) !! i = Some q ∧
    pr_root_operation_id q = root ∧ pr_operation q = op in
  (has_operation_identity s root op = true ↔ (∃ pid, live pid) ∨ ∃ class i, waits class i) ∧
  (∀ pid pid', live pid → live pid' → pid = pid') ∧
  (∀ pid class i, live pid → ¬ waits class i) ∧
  (∀ class class' i i', waits class i → waits class' i' → class = class' ∧ i = i').
Proof.
  intros Ht Hw s live waits. pose proof (reachable_identities_ok P authority w Ht Hw) as [I1 I2 I3 I4].
  fold s in I1, I2, I3, I4.
  assert (∀ pid, live pid ↔ live_operation (gs_operation_permits s) (root, op) = Some pid) as Hlive.
  { intros pid. rewrite I1. split; intros (r & Hr & E); exists r; (split; [done|]).
    - destruct E as [<- <-]. done.
    - unfold permit_operation in E. by simplify_eq. }
  assert (∀ class i, waits class i ↔ ∃ q, waiting s class !! i = Some q ∧
    request_operation q = (root, op)) as Hwaits.
  { intros class i. split.
    - intros (q & Hq & <- & <-). exists (untag q). split; [by apply list_lookup_fmap_Some_2|done].
    - intros (q & (q' & -> & Hq')%list_lookup_fmap_Some & E). exists q'.
      unfold request_operation in E. cbn in E. by simplify_eq. }
  assert ((∃ class i, waits class i) ↔
    queued_operation (gs_queued_operation_identities s) (root, op) = true) as Hqueued.
  { rewrite I2. setoid_rewrite Hwaits. split.
    - intros (class & i & q & Hq & E). exists class, q. split; [by eapply list_elem_of_lookup_2|done].
    - intros (class & q & (i & Hq)%list_elem_of_lookup & E). by exists class, i, q. }
  split_and!.
  - rewrite Hqueued. setoid_rewrite Hlive.
    rewrite <-(not_false_iff_true (has_operation_identity s root op)), has_operation_identity_split.
    destruct (live_operation _ _) as [pid|] eqn:El, (queued_operation _ _) eqn:Eq; clear; naive_solver.
  - intros pid pid' H1%Hlive H2%Hlive. congruence.
  - intros pid class i H1%Hlive H2. apply I3 in H1.
    assert (∃ class i, waits class i) as H3%Hqueued by eauto. congruence.
  - intros class class' i i' (q & Hq & E)%Hwaits (q' & Hq' & E')%Hwaits.
    eapply I4; [done..|congruence].
Qed.

Lemma reachable_one_holder_witness :
  has_operation_identity (w_state fifo_before) "b" "b" = true ∧
  ∀ class class' i i',
    (∃ q, cs_queue (class_state (w_state fifo_before) class) !! i = Some q ∧
      pr_root_operation_id q = "b"%string ∧ pr_operation q = "b"%string) →
    (∃ q, cs_queue (class_state (w_state fifo_before) class') !! i' = Some q ∧
      pr_root_operation_id q = "b"%string ∧ pr_operation q = "b"%string) →
    class = class' ∧ i = i'.
Proof.
  split; [vm_compute; reflexivity|].
  apply (reachable_one_holder demo_policy 1 fifo_before "b" "b" demo_typed fifo_reachable).
Defined.
