(* ===== verification/Gates.v ===== *)
(** * The clock, the gate, the fault, and what is retained

    The state's one-way switches: the committed clock never runs back, a closed
    admission gate stays closed and lets nothing in, the first accounting fault
    stays.  What the engine keeps is bounded: the order of eviction by its cap, each
    queue by its class's depth. *)

From S2P Require Import Prelude Contract Text Kernel Requirements State Assess Fairness Admission.
From S2P Require Import Memory Governor Books Custody Ledger Moves Reads Invariant Steps Selection.
From S2P Require Import Sections Lifecycle Trace System Queues Runs Fifo Consistency Fates.

(** ** The switches under the primitive transitions *)

Definition switches (s : GovernedState) :=
  (gs_commit_watermark_ms s, gs_admission_closed s, gs_accounting_fault s, gs_terminal_order s).

Record switched (s s' : GovernedState) : Prop := {
  sw_clock : gs_commit_watermark_ms s ≤ gs_commit_watermark_ms s';
  sw_closed : gs_admission_closed s = true → gs_admission_closed s' = true;
  sw_fault f : gs_accounting_fault s = Some f → gs_accounting_fault s' = Some f;
  sw_retained : retained_terminal_tickets s ≤ MAX_TERMINAL_TICKETS →
    retained_terminal_tickets s' ≤ MAX_TERMINAL_TICKETS;
}.

#[export] Instance switched_preorder : PreOrder switched.
Proof.
  split; [split; auto; lia|]. intros s1 s2 s3 [A1 B1 C1 D1] [A2 B2 C2 D2]. split; auto; lia.
Qed.

Lemma switched_same s s' : switches s' = switches s → switched s s'.
Proof.
  unfold switches. intros [= E1 E2 E3 E4].
  split; unfold retained_terminal_tickets; rewrite ?E1, ?E2, ?E3, ?E4; auto; lia.
Qed.

Lemma retagged_switched P s s' : retagged P s s' → switched s s'.
Proof. intros (H & E & _). apply switched_same. unfold switches. by rewrite E, H. Qed.

Lemma remove_pending_switches class i s r s' :
  remove_pending class i s = Some (r, s') → switches s' = switches s.
Proof.
  unfold remove_pending. intros H. apply bind_Some in H as (? & _ & H).
  apply bind_Some in H as (? & _ & H). by simplify_eq.
Qed.

Lemma enqueue_switches r s s' : enqueue r s = Some s' → switches s' = switches s.
Proof. unfold enqueue. intros H. apply bind_Some in H as (? & _ & H). by simplify_eq. Qed.

Lemma grant_switches g s : switches (grant g s) = switches s.
Proof. unfold grant. by destruct (is_child _), (gr_pending_ticket g). Qed.

Lemma unwind_charges_switches r pid s : switches (unwind_charges r pid s) = switches s.
Proof. unfold unwind_charges. by destruct (is_child _). Qed.

Lemma advance_switches pid phase nonces s out nonces' s' :
  advance_phase pid phase nonces s = (out, nonces', s') → switches s' = switches s.
Proof. by intros [(_ & _ & _ & ->)|(r & _ & _ & -> & _)]%advance_phase_cases. Qed.

Lemma record_fault_switched what s : switched s (record_accounting_fault what s).
Proof.
  unfold record_accounting_fault. destruct (gs_accounting_fault s) eqn:E; [done|].
  split; cbn; [reflexivity|done|congruence|done].
Qed.

Lemma memory_delta_switched class root delta s :
  switched s (apply_memory_delta class root delta s).
Proof.
  unfold apply_memory_delta. case_decide; [apply switched_same; by destruct root|].
  destruct (_ || _); [|apply switched_same; by destruct root].
  etransitivity; [|apply record_fault_switched]. apply switched_same. by destruct root.
Qed.

Lemma reconcile_switched pid bytes sequence mode scale now s out s' :
  reconcile pid bytes sequence mode scale now s = (out, s') → switched s s'.
Proof.
  unfold reconcile. destruct (gs_permits s !! pid) as [r|]; [|by intros [= <- <-]].
  do 2 (case_decide; [by intros [= <- <-]|]).
  destruct (effective_units _ _ _ _) as [err|u]; intros [= <- <-]; [apply record_fault_switched|].
  etransitivity; [|apply memory_delta_switched]. by apply switched_same.
Qed.

Lemma release_stage_switched pid freed policy sequence now s out s' :
  release_stage_memory pid freed policy sequence now s = (out, s') → switched s s'.
Proof.
  unfold release_stage_memory. destruct (negb _); [by intros [= <- <-]|].
  destruct (gs_permits s !! pid) as [r|]; [|by intros [= <- <-]].
  destruct (match sequence with Some _ => _ | None => _ end); intros [= <- <-]; [done|].
  etransitivity; [|apply memory_delta_switched]. by apply switched_same.
Qed.

(** ** Eviction *)

(** Dropping the oldest record until the cap is met needs one round per record. *)
Lemma evict_terminal_retained fuel s :
  (size (gs_terminal_order s) ≤ fuel + N.to_nat MAX_TERMINAL_TICKETS)%nat →
  retained_terminal_tickets (evict_terminal fuel s) ≤ MAX_TERMINAL_TICKETS.
Proof.
  unfold retained_terminal_tickets.
  revert s. induction fuel as [|fuel IH]; intros s H; cbn [evict_terminal]; [lia|].
  case_decide as Hd; [done|].
  destruct (btree_first (gs_terminal_order s)) as [[seq oldest]|] eqn:E.
  - apply btree_first_Some in E as [Hs _]. apply IH.
    assert (∀ s', gs_terminal_order s' = delete seq (gs_terminal_order s) →
      (size (gs_terminal_order s') ≤ fuel + N.to_nat MAX_TERMINAL_TICKETS)%nat) as Hsz.
    { intros s' ->. rewrite map_size_delete_Some by eauto. lia. }
    apply Hsz. by destruct (gs_tickets _ !! oldest) as [[]|].
  - exfalso. apply Hd. unfold btree_first in E.
    destruct (btree_to_list (gs_terminal_order s)) as [|] eqn:El; [|done].
    assert (gs_terminal_order s = ∅) as ->; [|by rewrite map_size_empty].
    apply map_to_list_empty_iff, Permutation_nil_r. by rewrite <-El, btree_to_list_perm.
Qed.

Lemma evict_terminal_switches fuel s :
  let s' := evict_terminal fuel s in
  gs_commit_watermark_ms s' = gs_commit_watermark_ms s ∧
  gs_admission_closed s' = gs_admission_closed s ∧ gs_accounting_fault s' = gs_accounting_fault s.
Proof.
  revert s. induction fuel as [|fuel IH]; intros s; [done|]. cbn.
  case_decide; [done|]. destruct (btree_first _) as [[seq oldest]|]; [|done].
  destruct (IH (match gs_tickets s !! oldest with
                | Some (TTerminal _) => upd_gs_tickets (delete oldest)
                    (upd_gs_terminal_index (delete oldest) (upd_gs_terminal_order (delete seq) s))
                | _ => upd_gs_terminal_index (delete oldest) (upd_gs_terminal_order (delete seq) s)
                end)) as (E1 & E2 & E3).
  rewrite E1, E2, E3. by destruct (gs_tickets s !! oldest) as [[]|].
Qed.

Lemma record_terminal_switched t reason s : switched s (record_terminal_ticket t reason s).
Proof.
  unfold record_terminal_ticket. set (s1 := upd_gs_terminal_index (insert t _) _).
  assert (gs_commit_watermark_ms s1 = gs_commit_watermark_ms s ∧
    gs_admission_closed s1 = gs_admission_closed s ∧
    gs_accounting_fault s1 = gs_accounting_fault s) as (E1 & E2 & E3).
  { unfold s1. by destruct (gs_terminal_index _ !! t). }
  destruct (evict_terminal_switches (size (gs_terminal_order s1)) s1) as (F1 & F2 & F3).
  split; rewrite ?F1, ?F2, ?F3, ?E1, ?E2, ?E3; [reflexivity|done|done|].
  intros _. apply evict_terminal_retained. lia.
Qed.

Lemma forget_terminal_switched t s : switched s (forget_terminal_ticket t s).
Proof.
  unfold forget_terminal_ticket, retained_terminal_tickets.
  destruct (gs_terminal_index s !! t) as [seq|];
    cbn [gs_tickets upd_gs_terminal_order upd_gs_terminal_index].
  - assert (∀ s', gs_commit_watermark_ms s' = gs_commit_watermark_ms s →
      gs_admission_closed s' = gs_admission_closed s → gs_accounting_fault s' = gs_accounting_fault s →
      gs_terminal_order s' = delete seq (gs_terminal_order s) → switched s s') as H.
    { intros s' E1 E2 E3 E4. split; unfold retained_terminal_tickets;
        rewrite ?E1, ?E2, ?E3, ?E4; [reflexivity|done|done|]. rewrite map_size_delete.
      intros. destruct (gs_terminal_order s !! seq); unfold id; lia. }
    destruct (gs_tickets s !! t) as [[]|]; by apply H.
  - apply switched_same. by destruct (gs_tickets s !! t) as [[]|].
Qed.

Lemma tstep_switched P s s' : tstep P s s' → switched s s'.
Proof.
  destruct 1 as [sampled|s' H|f|class i r s1 s2 now Hrm H2 Hpred s3 g Hg|class i r s' Hrm|t st|t
    |t reason|t|pid r Hr _|pid r r' Hr Hs _|pid t r Hr Ht _|pid phase nonces out nonces' s' _ H
    |pid bytes sq mode scale now out s' _ H|pid freed policy sq now out s' _ H|what|];
    try (by apply switched_same).
  - split; cbn; auto; reflexivity || lia.
  - by eapply retagged_switched.
  - transitivity s1; [by eapply switched_same, remove_pending_switches|].
    transitivity s2; [by eapply retagged_switched|].
    transitivity s3; [by apply switched_same|]. apply switched_same, grant_switches.
  - by eapply switched_same, remove_pending_switches.
  - apply record_terminal_switched.
  - apply forget_terminal_switched.
  - apply switched_same, unwind_charges_switches.
  - by eapply switched_same, advance_switches.
  - by eapply reconcile_switched.
  - by eapply release_stage_switched.
  - apply record_fault_switched.
  - split; cbn; auto; reflexivity || lia.
Qed.

Lemma arrives_switched P ids s s' : arrives P ids s s' → switched s s'.
Proof.
  assert (∀ s s', trace P s s' → switched s s') as Ht.
  { intros ?? H. eapply trace_rel; [apply _|apply tstep_switched|exact H]. }
  intros [Hs|g _ _ _ _ _ ->|s1 r s2 _ Hs1 _ Hen Hs]; [by apply Ht| |].
  - apply switched_same, grant_switches.
  - transitivity s1; [by eapply retagged_switched|]. transitivity s2; [|by apply Ht].
    by eapply switched_same, enqueue_switches.
Qed.

Lemma effect_switched P authority w w' :
  effect P authority w w' → switched (w_state w) (w_state w').
Proof.
  intros [issued -> _ _|Ht _ _ _|ids sampled _ _ _ Ha _ _]; [done| |].
  - eapply trace_rel; [apply _|apply tstep_switched|exact Ht].
  - etransitivity; [eapply (tstep_switched P), t_clock|by eapply arrives_switched].
Qed.

(** ** What the switches promise *)

(** Primitive transitions grant and reserve nothing new. *)
Lemma tstep_known P s s' pid : tstep P s s' → known s' pid → known s pid.
Proof.
  intros Hstep [Hp|(class & q & Hq & <-)].
  - destruct (tstep_permits _ _ _ Hstep) as [Hf|class i q s1 r Hrm _ _ Ep _].
    + destruct Hp as [r' (r & Hr & _)%Hf]. left. by eexists.
    + rewrite Ep in Hp. destruct Hp as [r' [[E _]|[_ Hr]]%lookup_insert_Some]; [|left; by eexists].
      right. exists class, (untag q). split; [|done].
      by eapply list_elem_of_lookup_2, (remove_pending_waiting _ _ _ _ _ Hrm).
  - right. exists class, q. split; [|done]. eapply dequeues_elem; [by eapply tstep_dequeues|done].
Qed.

Lemma trace_known P s s' pid : trace P s s' → known s' pid → known s pid.
Proof. intros Ht. induction Ht as [|s1 s2 s3 Hs _ IH]; [done|]. intros H. by eapply tstep_known, IH. Qed.

Lemma effect_closed P authority w w' pid :
  effect P authority w w' → gs_admission_closed (w_state w) = true →
  known (w_state w') pid → known (w_state w) pid.
Proof.
  intros [issued -> _ _|Ht _ _ _|ids sampled _ _ _ Ha _ _] Hc; [done|by eapply trace_known|].
  assert (∀ s, known (commit_time sampled s).2 pid → known s pid) as Hclock by done.
  intros Hk. apply Hclock. destruct Ha as [Ht|g Ho _ _ _ _ _|s1 r s2 Ho _ _ _ _].
  - by eapply trace_known.
  - cbn in Ho. congruence.
  - cbn in Ho. congruence.
Qed.

(** C32: the switches are one-way.  Along any run the committed clock never runs
    back, a closed gate stays closed, the first accounting fault stays the recorded
    one; and once the gate is closed, no permit identity becomes live or reserved
    that was not already: what is left only drains. *)
Theorem switches_one_way P authority w w' :
  policies_typed P → reachable P authority w → later P authority w w' →
  gs_commit_watermark_ms (w_state w) ≤ gs_commit_watermark_ms (w_state w') ∧
  (∀ f, gs_accounting_fault (w_state w) = Some f → gs_accounting_fault (w_state w') = Some f) ∧
  (gs_admission_closed (w_state w) = true →
     gs_admission_closed (w_state w') = true ∧
     ∀ pid, known (w_state w') pid → known (w_state w) pid).
Proof.
  intros Ht Hw Hl.
  assert (switched (w_state w) (w_state w')) as [S1 S2 S3 _].
  { apply (later_view P authority Ht (λ _, True) w_state switched); try done.
    intros w1 w2 Heff _. split; [done|by eapply effect_switched]. }
  split_and!; [done..|]. intros Hc. split; [auto|]. intros pid.
  set (K := λ x, gs_admission_closed (w_state x) = true ∧
                 (known (w_state x) pid → known (w_state w) pid)).
  destruct (later_keeps P authority Ht K) with (w := w) (w' := w') as [_ Hk]; [|done..].
  intros w1 w2 _ Heff [Hc1 Hk1]. split.
  - by apply (effect_switched _ _ _ _ Heff).
  - intros Hk2. apply Hk1. by eapply effect_closed.
Qed.

Lemma switches_one_way_witness :
  gs_commit_watermark_ms (w_state fifo_before) ≤ gs_commit_watermark_ms (w_state fifo_after).
Proof.
  apply (switches_one_way demo_policy 1 fifo_before fifo_after demo_typed fifo_reachable fifo_later).
Defined.

(** ** Bounded memory *)

Definition retention_ok (P : PolicySet) (s : GovernedState) : Prop :=
  retained_terminal_tickets s ≤ MAX_TERMINAL_TICKETS ∧
  ∀ class policy, ps_class P class = Some policy →
    N.of_nat (length (waiting s class)) ≤ max_queue_depth policy.

Lemma queued_waiting s class : queued s class = N.min (N.of_nat (length (waiting s class))) U32_MAX.
Proof.
  unfold queued, waiting, class_state. destruct (gs_classes s !! class) as [c|]; cbn; [|done].
  unfold ClassState.queued. by rewrite length_map.
Qed.

Lemma retention_le P s s' :
  switched s s' → (∀ class, (length (waiting s' class) ≤ length (waiting s class))%nat) →
  retention_ok P s → retention_ok P s'.
Proof.
  intros Hs Hl [H1 H2]. split; [by apply Hs|]. intros class policy Hp.
  specialize (H2 class policy Hp). specialize (Hl class). lia.
Qed.

Lemma arrival_retention P ids r s s' :
  policies_typed P → arrival P ids r s → enqueue r s = Some s' →
  retention_ok P s → retention_ok P s'.
Proof.
  intros Ht Har Hen [H1 H2].
  destruct (ar_policy _ _ _ _ Har) as (policy & Hp & _ & Hd). rewrite queued_waiting in Hd.
  pose proof (typed_max_queue_depth _ (Ht _ _ Hp)) as Hmax. split.
  - apply (sw_retained s s'); [by eapply switched_same, enqueue_switches|done].
  - intros class policy' Hp'. rewrite (enqueue_waiting _ _ _ Hen). unfold upd_queue_of.
    case_decide; [subst class|by apply H2]. simplify_eq. rewrite length_app. cbn. lia.
Qed.

Lemma reachable_retained P authority w :
  policies_typed P → reachable P authority w → retention_ok P (w_state w).
Proof.
  intros Ht Hw. revert w Hw. apply reachable_state; [done| | | |].
  - split; [by vm_compute|]. intros class policy _. change (0 ≤ max_queue_depth policy). lia.
  - intros s s' Hs. apply retention_le; [by eapply tstep_switched|]. intros class.
    apply sublist_length. apply (tstep_dequeues _ _ _ Hs).
  - intros s ids g Hk _ _ _ _. eapply retention_le; [apply switched_same, grant_switches| |done].
    intros class. by rewrite grant_waiting.
  - intros s ids r s' Hk Har Hen. by eapply arrival_retention.
Qed.
