(* ===== verification/Refinement.v ===== *)
(** * What the governor promises: an abstract specification

    The specification knows live permits and queues, nothing else: no totals, no
    indexes, no tags, no tickets.  A permit is granted only where the permits
    already live leave room, a request waits at the tail of its class, and is
    promoted only when none of its domain waits before it.  The engine's state
    refines it: every critical section is a sequence of its steps. *)

From S2P Require Import Prelude Contract Text Kernel Requirements State Assess Fairness Admission.
From S2P Require Import Memory Governor Books Custody Ledger Moves Reads Invariant Steps Selection.
From S2P Require Import Sections Lifecycle Trace System Queues Runs Fifo Consistency Fates.
From S2P Require Import Identities Gates.

(** ** The specification *)

Record Holding := mkHolding {
  h_class : TaskClass;
  h_operation : string * string;
  h_phase : ExecutionPhase;
  h_cpu : N;
  h_memory : N;
  h_capabilities : CapabilityRequirementSet;
}.

Record Waiting := mkWaiting {
  wt_permit : PermitId;
  wt_operation : string * string;
  wt_cost : ResolvedCost;
  wt_capabilities : CapabilityRequirementSet;
}.

Record Spec := mkSpec {
  sp_live : gmap PermitId Holding;
  sp_queue : TaskClass → list Waiting;
  sp_closed : bool;
}.

(** What a set of live permits adds up to. *)
Definition holds_class (class : TaskClass) (h : Holding) : N :=
  if decide (h_class h = class) then 1 else 0.
Definition holds_capability (id : CapabilityId) (h : Holding) : N :=
  N.of_nat (length (filter (λ x, x = id) (h_capabilities h))).

(** The live permits leave room for one more of the class. *)
Record has_room (P : PolicySet) (live : gmap PermitId Holding) (class : TaskClass)
    (cost : ResolvedCost) (caps : CapabilityRequirementSet) : Prop := {
  hr_class : ∃ policy, ps_class P class = Some policy ∧ cost = resolve_cost policy ∧
    msum (holds_class class) live < max_inflight policy;
  hr_pool id : id ∈ caps → ∃ r, capability_record P id = Some r ∧
    (capacity_limit (cr_capacity r) ≠ 0 →
     msum (holds_capability id) live < capacity_limit (cr_capacity r));
  hr_cpu : max_cpu_units (ps_resources P) ≠ 0 →
    msum h_cpu live + rc_cpu_units cost ≤ max_cpu_units (ps_resources P);
  hr_memory : max_memory_units (ps_resources P) ≠ 0 →
    msum h_memory live + rc_memory_units cost ≤ max_memory_units (ps_resources P);
}.

Definition operation_unused (a : Spec) (k : string * string) : Prop :=
  (∀ pid h, sp_live a !! pid = Some h → h_operation h ≠ k) ∧
  (∀ class w, w ∈ sp_queue a class → wt_operation w ≠ k).

(** The permit a waiting request turns into. *)
Definition promoted (class : TaskClass) (w : Waiting) : Holding :=
  mkHolding class (wt_operation w) DispatchReserved (rc_cpu_units (wt_cost w))
    (rc_memory_units (wt_cost w)) (wt_capabilities w).

Definition with_queue (a : Spec) (class : TaskClass) (q : list Waiting) (class' : TaskClass)
  : list Waiting := if decide (class' = class) then q else sp_queue a class'.

(** The next state, given by its parts. *)
Record becomes (live : gmap PermitId Holding) (queue : TaskClass → list Waiting) (closed : bool)
    (a' : Spec) : Prop := {
  be_live : sp_live a' = live;
  be_queue class : sp_queue a' class = queue class;
  be_closed : sp_closed a' = closed;
}.

Inductive spec_step (P : PolicySet) (a a' : Spec) : Prop :=
  | spec_idle : becomes (sp_live a) (sp_queue a) (sp_closed a) a' → spec_step P a a'
  | spec_grant pid h :
      sp_closed a = false → sp_live a !! pid = None → operation_unused a (h_operation h) →
      has_room P (sp_live a) (h_class h) (mkCost (h_cpu h) (h_memory h)) (h_capabilities h) →
      h_phase h = DispatchReserved →
      becomes (<[pid := h]> (sp_live a)) (sp_queue a) false a' → spec_step P a a'
  | spec_queue class policy w :
      sp_closed a = false → operation_unused a (wt_operation w) →
      ps_class P class = Some policy → wt_cost w = resolve_cost policy →
      N.of_nat (length (sp_queue a class)) < max_queue_depth policy →
      becomes (sp_live a) (with_queue a class (sp_queue a class ++ [w])) false a' →
      spec_step P a a'
  | spec_promote class i w :
      sp_queue a class !! i = Some w → sp_live a !! wt_permit w = None →
      (∀ j w', (j < i)%nat → sp_queue a class !! j = Some w' →
         ¬ shares_domain (wt_capabilities w') (wt_capabilities w)) →
      has_room P (sp_live a) class (wt_cost w) (wt_capabilities w) →
      becomes (<[wt_permit w := promoted class w]> (sp_live a))
        (with_queue a class (delete i (sp_queue a class))) (sp_closed a) a' → spec_step P a a'
  | spec_withdraw class i :
      becomes (sp_live a) (with_queue a class (delete i (sp_queue a class))) (sp_closed a) a' →
      spec_step P a a'
  | spec_finish pid :
      becomes (delete pid (sp_live a)) (sp_queue a) (sp_closed a) a' → spec_step P a a'
  | spec_advance pid h phase :
      sp_live a !! pid = Some h → rank (h_phase h) < rank phase →
      becomes (<[pid := mkHolding (h_class h) (h_operation h) phase (h_cpu h) (h_memory h)
                          (h_capabilities h)]> (sp_live a))
        (sp_queue a) (sp_closed a) a' → spec_step P a a'
  | spec_resize pid h memory :
      sp_live a !! pid = Some h →
      becomes (<[pid := mkHolding (h_class h) (h_operation h) (h_phase h) (h_cpu h) memory
                          (h_capabilities h)]> (sp_live a))
        (sp_queue a) (sp_closed a) a' → spec_step P a a'
  | spec_close : becomes (sp_live a) (sp_queue a) true a' → spec_step P a a'.

(** ** The abstraction *)

Definition abs_holding (r : PermitRecord) : Holding :=
  mkHolding (rec_class r) (permit_operation r) (rec_phase r) (pl_cpu_units (rec_ledger r))
    (pl_effective_units (rec_ledger r)) (rec_capabilities r).

Definition abs_waiting (r : PendingRequest) : Waiting :=
  mkWaiting (pr_permit_id r) (request_operation r) (pr_cost r) (pr_capabilities r).

Definition abs (s : GovernedState) : Spec :=
  mkSpec (abs_holding <$> gs_permits s) (λ class, abs_waiting <$> cs_queue (class_state s class))
    (gs_admission_closed s).

Lemma abs_queue s class : sp_queue (abs s) class = abs_waiting <$> waiting s class.
Proof. unfold waiting. cbn. rewrite <-list_fmap_compose. done. Qed.

Lemma msum_fmap {K A B} `{Countable K} (f : B → N) (g : A → B) (m : gmap K A) :
  msum f (g <$> m) = msum (λ x, f (g x)) m.
Proof.
  induction m as [|k x m Hk IH] using map_ind; [by rewrite fmap_empty, !msum_empty|].
  rewrite fmap_insert, !msum_insert, IH; [done|done|]. by rewrite lookup_fmap, Hk.
Qed.

(** Where the books balance, the engine's fit test is the specification's. *)
Lemma fits_has_room P s class policy cost caps :
  ledger_ok s → ps_class P class = Some policy → cost = resolve_cost policy →
  fits P s class policy cost caps → has_room P (sp_live (abs s)) class cost caps.
Proof.
  intros HL Hp Hc [F1 F2 F3 F4 _]. cbn.
  pose proof (HL (GInflight class)) as E1. pose proof (HL GCpu) as E2. pose proof (HL GMemory) as E3.
  cbn [gauge_read] in E1, E2, E3. split.
  - exists policy. split_and!; [done..|]. rewrite msum_fmap. rewrite E1 in F1.
    erewrite msum_ext; [exact F1|]. intros k r _. cbn. unfold in_class, when, holds_class. cbn.
    by case_bool_decide; case_decide.
  - intros id Hid. destruct (F2 id Hid) as (r & Hr & Hl). exists r. split; [done|]. intros Hne.
    specialize (Hl Hne). pose proof (HL (GCapability id)) as E4. cbn [gauge_read] in E4.
    rewrite E4 in Hl. by rewrite msum_fmap.
  - intros Hne. rewrite msum_fmap. rewrite E2 in F3. by apply F3.
  - intros Hne. rewrite msum_fmap. rewrite E3 in F4. by apply F4.
Qed.

(** ** Each primitive transition is a step of the specification *)

Lemma idle P s s' :
  (abs_holding <$> gs_permits s') = (abs_holding <$> gs_permits s) → same_queues s s' →
  gs_admission_closed s' = gs_admission_closed s → spec_step P (abs s) (abs s').
Proof.
  intros Ep Hq Ec. apply spec_idle. split; [exact Ep| |exact Ec]. intros class.
  by rewrite !abs_queue, (same_queues_waiting _ _ _ Hq).
Qed.

Lemma idle_permits P s s' :
  gs_permits s' = gs_permits s → same_queues s s' → switches s' = switches s →
  spec_step P (abs s) (abs s').
Proof.
  intros Ep Hq Hs. apply idle; [by rewrite Ep|done|]. unfold switches in Hs. by injection Hs.
Qed.

Lemma switches_closed s s' :
  switches s' = switches s → gs_admission_closed s' = gs_admission_closed s.
Proof. unfold switches. by intros [= _ ->]. Qed.

Lemma abs_holding_same r r' : same_permit r r' → abs_holding r' = abs_holding r.
Proof.
  intros [K Ph _ E]. unfold permit_key in K. injection K as _ E1 E2 E3 _ _ _ _ E4 E5.
  unfold abs_holding, permit_operation. by rewrite E1, E2, E3, E4, E5, Ph, E.
Qed.

Lemma idle_record P s s' pid r r' :
  gs_permits s !! pid = Some r → gs_permits s' = <[pid := r']> (gs_permits s) →
  abs_holding r' = abs_holding r → same_queues s s' →
  gs_admission_closed s' = gs_admission_closed s → spec_step P (abs s) (abs s').
Proof.
  intros Hr Ep Ea Hq Hc. apply idle; [|done|done].
  rewrite Ep, fmap_insert, Ea. apply insert_id. by rewrite lookup_fmap, Hr.
Qed.

Lemma resize P s s' pid r r' memory :
  gs_permits s !! pid = Some r → gs_permits s' = <[pid := r']> (gs_permits s) →
  permit_key r' = permit_key r → rec_phase r' = rec_phase r →
  pl_effective_units (rec_ledger r') = memory → same_queues s s' →
  gs_admission_closed s' = gs_admission_closed s → spec_step P (abs s) (abs s').
Proof.
  intros Hr Ep K Ph Em Hq Hc. eapply (spec_resize _ _ _ pid (abs_holding r) memory).
  { cbn. by rewrite lookup_fmap, Hr. }
  split; [|intros class; by rewrite !abs_queue, (same_queues_waiting _ _ _ Hq)|done].
  cbn. rewrite Ep, fmap_insert. f_equal.
  unfold permit_key in K. injection K as _ E1 E2 E3 _ _ _ _ E4 E5.
  unfold abs_holding, permit_operation. cbn. by rewrite E1, E2, E3, E4, E5, Ph, Em.
Qed.

Lemma memory_delta_closed class root delta s :
  gs_admission_closed (apply_memory_delta class root delta s) = gs_admission_closed s.
Proof.
  unfold apply_memory_delta, record_accounting_fault. case_decide; destruct root; try done;
    destruct (_ || _); try destruct (gs_accounting_fault _); done.
Qed.

Lemma reconcile_spec P pid bytes sequence mode scale now s out s' :
  reconcile pid bytes sequence mode scale now s = (out, s') → spec_step P (abs s) (abs s').
Proof.
  intros H. pose proof (reconcile_queues _ _ _ _ _ _ _ _ _ H) as Hq. revert H.
  unfold reconcile. destruct (gs_permits s !! pid) as [r|] eqn:Hr;
    [|intros [= <- <-]; by apply idle].
  do 2 (case_decide; [intros [= <- <-]; by apply idle|]).
  destruct (effective_units _ _ _ _) as [err|u]; intros [= <- <-].
  - apply idle; [|done|]; unfold record_accounting_fault; by destruct (gs_accounting_fault s).
  - eapply resize; [exact Hr|by rewrite memory_delta_permits|done|done|done|done|].
    by rewrite memory_delta_closed.
Qed.

Lemma release_stage_spec P pid freed policy sequence now s out s' :
  release_stage_memory pid freed policy sequence now s = (out, s') → spec_step P (abs s) (abs s').
Proof.
  intros H. pose proof (release_stage_queues _ _ _ _ _ _ _ _ H) as Hq. revert H.
  unfold release_stage_memory. destruct (negb _); [intros [= <- <-]; by apply idle|].
  destruct (gs_permits s !! pid) as [r|] eqn:Hr; [|intros [= <- <-]; by apply idle].
  destruct (match sequence with Some _ => _ | None => _ end); intros [= <- <-]; [by apply idle|].
  eapply resize; [exact Hr|by rewrite memory_delta_permits|by destruct sequence|by destruct sequence|
    done|done|by rewrite memory_delta_closed].
Qed.

Lemma advance_spec P pid phase nonces s out nonces' s' :
  advance_phase pid phase nonces s = (out, nonces', s') → spec_step P (abs s) (abs s').
Proof.
  intros H. pose proof (advance_queues _ _ _ _ _ _ _ H) as Hq.
  apply advance_phase_cases in H as [(_ & _ & _ & ->)|(r & Hr & Hrank & -> & _)]; [by apply idle|].
  eapply (spec_advance _ _ _ pid (abs_holding r) phase).
  { cbn. by rewrite lookup_fmap, Hr. }
  { cbn. lia. }
  split; [|intros class; by rewrite !abs_queue, (same_queues_waiting _ _ _ Hq)|done].
  exact (fmap_insert abs_holding (gs_permits s) pid (advanced_record phase nonces r)).
Qed.

Lemma record_terminal_closed t reason s :
  gs_admission_closed (record_terminal_ticket t reason s) = gs_admission_closed s.
Proof.
  unfold record_terminal_ticket.
  match goal with |- gs_admission_closed (evict_terminal ?f ?x) = _ =>
    destruct (evict_terminal_switches f x) as (_ & -> & _) end.
  by destruct (gs_terminal_index _ !! t).
Qed.

Lemma forget_terminal_closed t s :
  gs_admission_closed (forget_terminal_ticket t s) = gs_admission_closed s.
Proof.
  unfold forget_terminal_ticket.
  destruct (gs_terminal_index s !! t); cbn [gs_tickets upd_gs_terminal_order upd_gs_terminal_index];
    by destruct (gs_tickets s !! t) as [[]|].
Qed.

(** The queues after a removal. *)
Lemma removed_queue class i s r s' s2 class' :
  remove_pending class i s = Some (r, s') → same_queues s' s2 →
  sp_queue (abs s2) class' = with_queue (abs s) class (delete i (sp_queue (abs s) class)) class'.
Proof.
  intros Hrm Hq. pose proof (remove_pending_waiting _ _ _ _ _ Hrm) as [_ Ew].
  rewrite !abs_queue, (same_queues_waiting _ _ _ Hq), Ew. unfold with_queue, upd_queue_of.
  case_decide; [by rewrite list_fmap_delete|by rewrite abs_queue].
Qed.

Lemma remove_pending_closed class i s r s' :
  remove_pending class i s = Some (r, s') → gs_admission_closed s' = gs_admission_closed s.
Proof. intros H. by eapply switches_closed, remove_pending_switches. Qed.

Lemma promote_spec P class i r s s1 s2 now :
  remove_pending class i s = Some (r, s1) → same_books s2 s1 →
  ClassState.has_queued_predecessor (class_state s class) r = false →
  let s3 := upd_gs_tickets (delete (pr_ticket r)) s2 in
  let g := promotion_grant class r now s3 in
  grantable P g s3 → ledger_ok s → queues_ok s → spec_step P (abs s) (abs (grant g s3)).
Proof.
  intros Hrm H2 Hpred s3 g [(policy & Hp & Hc & Hfits) Hfresh _] HL Hok.
  pose proof (remove_pending_waiting _ _ _ _ _ Hrm) as [Hi _].
  pose proof (remove_pending_holdings _ _ _ _ _ Hrm) as Hh.
  assert (gs_permits s3 = gs_permits s) as Ep.
  { change (gs_permits s3) with (gs_permits s2). rewrite (books_permits _ _ H2). apply Hh. }
  assert (same_queues s1 (grant g s3)) as Hq.
  { etransitivity; [|apply grant_queues].
    etransitivity; [by apply same_queues_books|by apply same_queues_classes]. }
  apply (spec_promote _ _ _ class i (abs_waiting r)).
  - rewrite abs_queue. by rewrite list_lookup_fmap, Hi.
  - change (gs_permits s3 !! pr_permit_id r = None) in Hfresh. rewrite Ep in Hfresh.
    cbn. by rewrite lookup_fmap, Hfresh.
  - intros j w' Hlt Hj Hs. rewrite abs_queue in Hj.
    apply list_lookup_fmap_Some in Hj as (q & -> & Hj).
    assert (ClassState.has_queued_predecessor (class_state s class) r = true); [|congruence].
    pose proof (Hok class) as Hcq. cbn zeta in Hcq.
    apply (predecessor_scan _ _ Hcq). exists q. split_and!; [by eapply list_elem_of_lookup_2| |done].
    change (pr_queue_order r) with (pr_queue_order (untag r)).
    by apply (sorted_lookup_lt _ _ _ _ _ (cq_sorted _ _ _ _ _ Hcq) Hj Hi).
  - eapply fits_has_room; [done|exact Hp|done|].
    eapply (fits_gauge P s3); [| |exact Hfits].
    + intros gg. symmetry. rewrite <-(same_holdings_gauge s s1) by done.
      transitivity (gauge_read s2 gg); [|by rewrite H2]. by apply same_charges_gauge.
    + change (gs_accounting_fault s3) with (gs_accounting_fault s2).
      by rewrite H2, (remove_pending_fault _ _ _ _ _ Hrm).
  - split.
    + cbn. rewrite grant_permits, fmap_insert, Ep. cbn. f_equal.
    + intros class'. by eapply removed_queue.
    + cbn. rewrite <-(remove_pending_closed class i s r s1 Hrm), <-(books_closed _ _ H2).
      exact (switches_closed _ _ (grant_switches g s3)).
Qed.

Lemma tstep_spec P s s' : tstep P s s' → queues_ok s → spec_step P (abs s) (abs s').
Proof.
  intros Hstep Hok.
  destruct Hstep as [sampled|s' [H _]|f|class i r s1 s2 now Hrm [H2 _] Hpred s3 g Hg HL|class i r s' Hrm
    |t st|t|t reason|t|pid r Hr _|pid r r' Hr Hs _|pid t r Hr Ht _|pid phase nonces out nonces' s' _ H
    |pid bytes sq mode scale now out s' _ H|pid freed policy sq now out s' _ H|what|];
    try (by apply idle; [|apply same_queues_classes|]).
  - apply idle; [by rewrite (books_permits _ _ H)|by apply same_queues_books|by rewrite (books_closed _ _ H)].
  - by eapply promote_spec.
  - apply (spec_withdraw _ _ _ class i). split.
    + cbn. by rewrite (sh_permits _ _ (remove_pending_holdings _ _ _ _ _ Hrm)).
    + intros class'. by eapply removed_queue.
    + exact (remove_pending_closed _ _ _ _ _ Hrm).
  - apply idle; [|apply record_terminal_queues|apply record_terminal_closed].
    by rewrite (sc_permits _ _ (record_terminal_charges _ _ _)).
  - apply idle; [|apply forget_terminal_queues|apply forget_terminal_closed].
    by rewrite (sc_permits _ _ (forget_terminal_charges _ _)).
  - apply (spec_finish _ _ _ pid). split.
    + cbn. rewrite unwind_charges_permits. apply fmap_delete.
    + intros class. by rewrite !abs_queue, unwind_charges_waiting.
    + exact (switches_closed _ _ (unwind_charges_switches r pid s)).
  - eapply idle_record; [exact Hr|done|by apply abs_holding_same|by apply same_queues_classes|done].
  - eapply idle_record; [exact Hr|done|by apply abs_holding_same, same_permit_pending|by apply same_queues_classes|done].
  - by eapply advance_spec.
  - by eapply reconcile_spec.
  - by eapply release_stage_spec.
  - apply idle; [|apply same_queues_classes|]; unfold record_accounting_fault;
      by destruct (gs_accounting_fault s).
  - apply spec_close. by split.
Qed.

Definition spec_run (P : PolicySet) : relation Spec := rtc (spec_step P).

Lemma trace_spec P s s' : trace P s s' → queues_ok s → spec_run P (abs s) (abs s') ∧ queues_ok s'.
Proof.
  intros Ht. induction Ht as [|s1 s2 s3 Hs _ IH]; intros Hok; [done|].
  destruct IH as [Hr Hok3]; [by eapply tstep_queues_ok|]. split; [|done].
  eapply rtc_l; [by apply tstep_spec|done].
Qed.

(** ** Arrivals *)

Lemma unused s k :
  identities_ok s → live_operation (gs_operation_permits s) k = None →
  queued_operation (gs_queued_operation_identities s) k = false → operation_unused (abs s) k.
Proof.
  intros [I1 I2 _ _] Hl Hq. split.
  - intros pid h Hh E. cbn in Hh. rewrite lookup_fmap in Hh.
    destruct (gs_permits s !! pid) as [r|] eqn:Hr; [|done]. injection Hh as <-.
    assert (live_operation (gs_operation_permits s) k = Some pid); [|congruence].
    apply I1. by exists r.
  - intros class w Hw E. rewrite abs_queue in Hw. apply list_elem_of_fmap in Hw as (q & -> & Hq').
    assert (queued_operation (gs_queued_operation_identities s) k = true); [|congruence].
    apply I2. by exists class, q.
Qed.

Lemma grant_spec P s g :
  ledger_ok s → identities_ok s → gs_admission_closed s = false → grantable P g s →
  has_operation_identity s (gr_root_operation_id g) (gr_operation g) = false →
  spec_step P (abs s) (abs (grant g s)).
Proof.
  intros HL HI Hopen [(policy & Hp & Hc & Hfits) Hfresh _] [Hl Hq]%has_operation_identity_split.
  apply (spec_grant _ _ _ (gr_permit_id g) (abs_holding (granted_record g))).
  - done.
  - cbn. by rewrite lookup_fmap, Hfresh.
  - by apply unused.
  - cbn. assert (mkCost (rc_cpu_units (gr_cost g)) (rc_memory_units (gr_cost g)) = gr_cost g) as ->
      by (by destruct (gr_cost g)).
    by eapply fits_has_room.
  - done.
  - split.
    + cbn. by rewrite grant_permits, fmap_insert.
    + intros class. by rewrite !abs_queue, grant_waiting.
    + rewrite <-Hopen. exact (switches_closed _ _ (grant_switches g s)).
Qed.

Lemma enqueue_spec P ids r s s' :
  policies_typed P → identities_ok s → gs_admission_closed s = false → arrival P ids r s →
  enqueue r s = Some s' → spec_step P (abs s) (abs s').
Proof.
  intros Ht HI Hopen Har Hen.
  destruct (ar_policy _ _ _ _ Har) as (policy & Hp & Hc & Hd). rewrite queued_waiting in Hd.
  pose proof (typed_max_queue_depth _ (Ht _ _ Hp)) as Hmax.
  pose proof (ar_identity _ _ _ _ Har) as [Hl Hq]%has_operation_identity_split.
  pose proof (enqueue_cases _ _ _ Hen) as (_ & Hh & _).
  apply (spec_queue _ _ _ (pr_class r) policy (abs_waiting r)).
  - done.
  - by apply unused.
  - done.
  - done.
  - rewrite abs_queue, length_fmap. lia.
  - split.
    + cbn. by rewrite (sh_permits _ _ Hh).
    + intros class. rewrite abs_queue, (enqueue_waiting _ _ _ Hen). unfold upd_queue_of, with_queue.
      case_decide; [subst class|by rewrite abs_queue].
      by rewrite fmap_app, abs_queue.
    + rewrite <-Hopen. exact (switches_closed _ _ (enqueue_switches _ _ _ Hen)).
Qed.

(** C1: the governor implements its specification.  Every critical section, in
    every run, is a sequence of steps of the abstract governor: permits are granted
    by the live permits' own sums and only for an unused operation, queues grow at
    the tail within their depth, promotion takes a request that nothing of its
    domain precedes, and nothing is granted or queued after close. *)
Theorem governor_refines_spec P authority w w' :
  policies_typed P → reachable P authority w → room (N.of_nat PROMOTION_BUDGET) (w_state w) →
  wstep P authority w w' → spec_run P (abs (w_state w)) (abs (w_state w')).
Proof.
  intros Ht Hw Hroom Hstep. pose proof (reachable_ok P authority Ht w Hw) as Hok.
  pose proof (reachable_queues P authority Ht w Hw) as Hwq. pose proof (wq_ok _ Hwq) as Hq.
  pose proof (reachable_identities_ok P authority w Ht Hw) as HI.
  destruct (reachable_inv P authority w Ht Hw) as (B & [[HL _ _] _ _] & _).
  destruct (wstep_effect P authority Ht w w' Hok Hroom Hstep)
    as [issued -> _ _|Htr _ _ _|ids sampled Eo _ _ Ha _ _]; [done|by apply trace_spec|].
  set (s1 := (commit_time sampled (w_state w)).2) in *.
  assert (same_books s1 (w_state w)) as Hb by apply commit_time_books.
  assert (tstep P (w_state w) s1) as H1 by apply t_clock.
  eapply rtc_l; [by apply tstep_spec|].
  apply (tstep_queues_ok _ _ _ H1) in Hq. apply (tstep_identities _ _ _ H1) in HI.
  rewrite <-Hb in HL. clearbody s1.
  destruct Ha as [Htr|g Hopen Hg _ _ Hid ->|s2 r s3 Hopen H2 Har Hen Htr].
  - by apply trace_spec.
  - by apply rtc_once, grant_spec.
  - assert (tstep P s1 s2) as Hs2 by (by apply t_tags). destruct H2 as [H2 _].
    pose proof (tstep_identities _ _ _ Hs2 HI) as HI2.
    eapply rtc_l; [by apply tstep_spec|]. eapply rtc_l.
    { eapply enqueue_spec; [done|done| |done|done]. by rewrite (books_closed _ _ H2). }
    apply trace_spec; [done|]. eapply enqueue_queues_ok; [exact Hen| |by eapply tstep_queues_ok].
    intros x. rewrite (books_waiting _ _ H2 _ _ eq_refl), (books_waiting _ _ Hb _ _ eq_refl).
    rewrite (ar_seq_no _ _ _ _ Har). apply (wq_fresh _ Hwq). rewrite Eo. by left.
Qed.

(** ** A concrete step *)

Local Open Scope string_scope.

Definition fifo_release : Label := LRelease 20 (mkPermitId 1 3) None.
Definition fifo_released : World := default World_initial (exec demo_policy 1 fifo_release fifo_before).

Lemma governor_refines_spec_witness :
  spec_run demo_policy (abs (w_state fifo_before)) (abs (w_state fifo_released)).
Proof.
  apply (governor_refines_spec demo_policy 1 fifo_before fifo_released demo_typed fifo_reachable).
  - vm_compute. discriminate.
  - apply (exec_sound demo_policy 1 fifo_release). vm_compute. reflexivity.
Defined.
