(* ===== verification/Snapshots.v ===== *)
(** * Snapshots of reachable states

    Observation is truthful: a snapshot taken at any point of any run passes the
    conservation check its consumers run, and agrees with the independent view of
    the live permits. *)

From S2P Require Import Prelude Contract Text Validation Kernel PolicyCheck Requirements State.
From S2P Require Import Assess Fairness Admission Memory Observe Governor Policies Builds Books.
From S2P Require Import Custody Ledger Moves Reads Invariant Sections System Runs Consistency.

(** ** Reading a snapshot *)

Lemma project_class_lookup s classes (m : gmap string ClassSnapshot) class :
  (∀ k sn, m !! k = Some sn → sn = class_projection (class_state s k)) →
  ∀ sn, foldl (project_class s) m classes !! class = Some sn →
    sn = class_projection (class_state s class).
Proof.
  revert m. induction classes as [|k classes IH]; intros m Hm sn; cbn; [by apply Hm|].
  apply IH. unfold project_class. destruct (m !! k) as [x|] eqn:E; [done|].
  intros k' sn' [[<- <-]|[_ ?]]%lookup_insert_Some; [|by apply Hm].
  unfold class_state. by destruct (gs_classes s !! k).
Qed.

Lemma snapshot_class P s class sn :
  sn_classes (snapshot P s) !! class = Some sn → sn = class_projection (class_state s class).
Proof. apply project_class_lookup. intros k x. by rewrite lookup_empty. Qed.

Lemma project_class_dom s classes (m : gmap string ClassSnapshot) class :
  is_Some (m !! class) ∨ class ∈ classes →
  is_Some (foldl (project_class s) m classes !! class).
Proof.
  revert m. induction classes as [|k classes IH]; intros m [H|H]; cbn; try done.
  - by apply elem_of_nil in H.
  - apply IH. left. unfold project_class. destruct (m !! k); [done|].
    rewrite lookup_insert_is_Some'. by right.
  - apply IH. apply elem_of_cons in H as [->|H]; [left|by right].
    unfold project_class. destruct (m !! k) eqn:E; [by rewrite E|]. by rewrite lookup_insert_eq.
Qed.

(** Every class of the policy or of the state is in a snapshot. *)
Lemma snapshot_covers P s class :
  is_Some (ps_classes P !! class) ∨ is_Some (gs_classes s !! class) →
  is_Some (sn_classes (snapshot P s) !! class).
Proof.
  intros Hk. apply project_class_dom. right. apply elem_of_app.
  assert (∀ A (m : gmap string A), is_Some (m !! class) → class ∈ btree_keys m) as Hkeys.
  { intros A m [x Hx]. apply list_elem_of_fmap. exists (class, x). split; [done|].
    by apply elem_of_btree_to_list. }
  destruct Hk; [left|right]; by apply Hkeys.
Qed.

Lemma project_class_from s classes (m : gmap string ClassSnapshot) class :
  is_Some (foldl (project_class s) m classes !! class) → is_Some (m !! class) ∨ class ∈ classes.
Proof.
  revert m. induction classes as [|k classes IH]; intros m H; cbn in H; [by left|].
  apply IH in H as [H|H]; [|by right; right]. unfold project_class in H.
  destruct (m !! k) eqn:E; [by left|]. apply lookup_insert_is_Some in H as [->|[_ H]]; [right; left|by left].
Qed.

(** And no other one is. *)
Lemma snapshot_known P s class :
  is_Some (sn_classes (snapshot P s) !! class) →
  is_Some (ps_classes P !! class) ∨ is_Some (gs_classes s !! class).
Proof.
  intros [[? H]|Hin]%project_class_from; [by rewrite lookup_empty in H|].
  apply elem_of_app in Hin as [H|H]; [left|right];
    apply list_elem_of_fmap in H as ([k x] & -> & H%elem_of_btree_to_list); by exists x.
Qed.

(** A pool of a snapshot shows a registered record. *)
Lemma project_capability_from s rs (m : gmap string CapabilityUsage) pool u :
  foldl (project_capability s) m rs !! pool = Some u →
  m !! pool = Some u ∨ ∃ r, r ∈ rs ∧ cap_name (cr_id r) = pool ∧
    u = mkUsage (capability_in_use s (cr_id r)) (capacity_limit (cr_capacity r)).
Proof.
  revert m. induction rs as [|r rs IH]; intros m H; cbn in H; [by left|].
  apply IH in H as [H|(r' & Hr' & H)]; [|right; exists r'; split; [by right|done]].
  unfold project_capability in H.
  apply lookup_insert_Some in H as [[En <-]|[_ H]]; [right; exists r; split; [left|done]|by left].
Qed.

Lemma snapshot_pool P s pool u :
  built P → sn_capabilities (snapshot P s) !! pool = Some u →
  ∃ id r, ps_capabilities P !! id = Some r ∧ cap_name id = pool ∧ cr_id r = id ∧
    capability_capacity P pool = Some (cr_capacity r) ∧
    u = mkUsage (capability_in_use s id) (capacity_limit (cr_capacity r)).
Proof.
  intros Hb Hu. apply project_capability_from in Hu as [Hu|(r & Hr & En & ->)]; [by rewrite lookup_empty in Hu|].
  apply list_elem_of_fmap in Hr as ([id r'] & -> & Hr%elem_of_btree_to_list). cbn [snd] in *.
  destruct (built_keyed P Hb id r' Hr) as [E Ea]. exists id, r'. rewrite E in *. split_and!; try done.
  rewrite (capacity_keyed _ _ _ (built_keyed P Hb)).
  assert (mkCapabilityId pool (ps_capability_authority P) = id) as -> by (destruct id; cbn in *; congruence).
  by rewrite Hr.
Qed.

Lemma project_capability_lookup s rs (m : gmap string CapabilityUsage) pool u :
  (∀ r, r ∈ rs → capacity_limit (cr_capacity r) ≠ 0 →
     capability_in_use s (cr_id r) ≤ capacity_limit (cr_capacity r)) →
  (∀ k x, m !! k = Some x → cu_limit x ≠ 0 → cu_in_use x ≤ cu_limit x) →
  foldl (project_capability s) m rs !! pool = Some u → cu_limit u ≠ 0 → cu_in_use u ≤ cu_limit u.
Proof.
  revert m. induction rs as [|r rs IH]; intros m Hr Hm; cbn; [by apply Hm|].
  apply IH; [intros; apply Hr; [by right|done]|]. unfold project_capability.
  intros k x [[_ <-]|[_ ?]]%lookup_insert_Some; [cbn; apply Hr; by left|by eapply Hm].
Qed.

Lemma first_class_violation_None entries :
  (∀ class c, (class, c) ∈ entries → class_violation c = None) →
  first_class_violation entries = None.
Proof.
  induction entries as [|[class c] entries IH]; intros H; cbn; [done|].
  rewrite (H class c) by (by left). apply IH. intros. eapply H. by right.
Qed.

Lemma first_capability_violation_None entries :
  (∀ pool u, (pool, u) ∈ entries → cu_limit u ≠ 0 → cu_in_use u ≤ cu_limit u) →
  first_capability_violation entries = None.
Proof.
  induction entries as [|[pool u] entries IH]; intros H; cbn; [done|].
  assert (negb (bool_decide (cu_limit u = 0)) && bool_decide (cu_limit u < cu_in_use u) = false)
    as ->; [|apply IH; intros; eapply H; [by right|done]].
  apply andb_false_iff. destruct (decide (cu_limit u = 0)) as [E|E].
  - left. by rewrite bool_decide_eq_true_2.
  - right. apply bool_decide_eq_false_2. pose proof (H pool u ltac:(by left) E). lia.
Qed.

(** ** Conservation *)

Lemma class_conserved P B s class :
  Inv P B s → B ≤ U64_MAX → class_violation (class_projection (class_state s class)) = None.
Proof.
  intros HI HB. pose proof (inv_books _ _ _ HI) as [HL _ HC].
  pose proof (phase_partition s class HL) as Hp. cbn zeta in Hp. destruct (HC class) as [H1 H2 H3 H4].
  unfold class_violation. cbn [class_projection sn_inflight sn_dispatch_reserved sn_accepted
    sn_running sn_cleanup_pending sn_admitted_total sn_started_total sn_terminated_total].
  rewrite bool_decide_eq_true_2 by lia. cbn [negb].
  destruct (checked_add _ _ _) as [n|] eqn:E.
  - apply checked_add_Some in E as [-> _]. rewrite bool_decide_eq_true_2 by done. cbn [negb].
    rewrite decide_False by lia. rewrite decide_False by lia. done.
  - apply checked_add_None in E. ulia.
Qed.

Lemma Inv_conserves P B s :
  built P → Inv P B s → B ≤ U64_MAX → conservation_violation (snapshot P s) = None.
Proof.
  intros Hb HI HB. unfold conservation_violation. rewrite first_class_violation_None.
  - apply first_capability_violation_None. intros pool u Hu%elem_of_btree_to_list.
    revert Hu. apply project_capability_lookup.
    + intros r Hr Hl. apply list_elem_of_fmap in Hr as ([id r'] & -> & Hr%elem_of_btree_to_list).
      destruct (built_keyed P Hb id r' Hr) as [E _]. cbn [snd] in *. rewrite E.
      by apply (capacity_pool _ _ (inv_capacity _ _ _ HI)).
    + intros k x. by rewrite lookup_empty.
  - intros class c Hc%elem_of_btree_to_list. apply snapshot_class in Hc as ->.
    by eapply class_conserved.
Qed.

(** C29: a snapshot never reports a violation: in every state a run reaches, for a
    policy made by the public constructors, [Snapshot::conservation_violation]
    answers [None], and every class of the policy or of the state is in it. *)
Theorem snapshot_conserves P authority w :
  policies_typed P → built P → reachable P authority w →
  conservation_violation (snapshot P (w_state w)) = None ∧
  ∀ class, is_Some (ps_classes P !! class) ∨ is_Some (gs_classes (w_state w) !! class) →
    is_Some (sn_classes (snapshot P (w_state w)) !! class).
Proof.
  intros Ht Hb Hw. destruct (reachable_inv P authority w Ht Hw) as (B & HI & HB). split.
  - by eapply Inv_conserves.
  - intros class. apply snapshot_covers.
Qed.

(** The demonstration policy of Runs.v is made by [PolicySet::new]. *)
Lemma demo_built : built demo_policy.
Proof.
  eapply (built_new 7 (mkResourceBudget 1 100 0 0 (mkMemoryUnitScale 10))
            {["ingest"%string := demo_class 1; "query"%string := demo_class 2]}).
  vm_compute. reflexivity.
Qed.

Lemma snapshot_conserves_witness :
  conservation_violation (snapshot demo_policy (w_state demo_world)) = None.
Proof.
  exact (proj1 (snapshot_conserves demo_policy 1 demo_world demo_typed demo_built demo_reachable)).
Defined.

(** A sum over the ledger views is a sum over the live permits. *)
Lemma ledgers_sum (f : PermitLedgerView → N) s :
  lsum f (permit_ledgers s) = msum (λ r, f (ledger_view (rec_permit_id r) r)) (gs_permits s).
Proof. unfold permit_ledgers. rewrite lsum_map. apply lsum_values. Qed.

Lemma gauge_ledgers s g (f : PermitLedgerView → N) :
  ledger_ok s → (∀ r, gauge_weight g r = f (ledger_view (rec_permit_id r) r)) →
  gauge_read s g = lsum f (permit_ledgers s).
Proof. intros HL Hf. rewrite ledgers_sum, HL. apply msum_ext. intros k r _. apply Hf. Qed.

(** What a snapshot shows as held by its classes is all that is held. *)
Lemma snapshot_sum P s (f : ClassSnapshot → N) (weight : PermitRecord → N) :
  ledger_ok s →
  (∀ class, f (class_projection (class_state s class)) =
            msum (λ r, when (in_class class r) (weight r)) (gs_permits s)) →
  lsum (λ e, f e.2) (btree_to_list (sn_classes (snapshot P s))) = msum weight (gs_permits s).
Proof.
  intros HL Hf. apply entries_total.
  - apply btree_to_list_NoDup.
  - intros class c H%elem_of_btree_to_list. by apply snapshot_class in H as ->.
  - intros pid r Hr. destruct (live_class s pid r HL Hr) as [c Hc].
    destruct (snapshot_covers P s (rec_class r)) as [sn Hsn]; [right; by eexists|].
    apply list_elem_of_fmap. exists (rec_class r, sn). split; [done|]. by apply elem_of_btree_to_list.
Qed.

(** C30: the counters of a snapshot and the ledger views of the live permits, two
    independent observations of one state, agree: per class, [inflight], both held
    totals and each phase gauge are the sums over the views; and each view is the
    one [permit_ledger] gives for its own identity. *)
Theorem snapshot_matches_ledgers P authority w class sn :
  policies_typed P → reachable P authority w →
  sn_classes (snapshot P (w_state w)) !! class = Some sn →
  let total (f : PermitLedgerView → N) :=
    lsum (λ v, if decide (lv_class v = class) then f v else 0) (permit_ledgers (w_state w)) in
  let in_phase p := total (λ v, if decide (lv_phase v = p) then 1 else 0) in
  sn_inflight sn = total (λ _, 1) ∧
  sn_cpu_units_held sn = total lv_cpu_units ∧ sn_memory_units_held sn = total lv_effective_units ∧
  sn_dispatch_reserved sn = in_phase DispatchReserved ∧ sn_accepted sn = in_phase Accepted ∧
  sn_running sn = in_phase Running ∧ sn_cleanup_pending sn = in_phase CleanupPending ∧
  ∀ v, v ∈ permit_ledgers (w_state w) → permit_ledger (lv_permit_id v) (w_state w) = Some v.
Proof.
  intros Ht Hw ->%snapshot_class. destruct (reachable_inv P authority w Ht Hw) as (B & HI & _).
  destruct (inv_books _ _ _ HI) as [HL HP _]. cbn zeta. cbn [class_projection
    sn_inflight sn_cpu_units_held sn_memory_units_held sn_dispatch_reserved sn_accepted
    sn_running sn_cleanup_pending].
  assert (∀ p, ClassState.phase_slot p (class_state (w_state w) class) =
    lsum (λ v, if decide (lv_class v = class) then if decide (lv_phase v = p) then 1 else 0 else 0)
      (permit_ledgers (w_state w))) as Hph.
  { intros p. apply (gauge_ledgers _ (GPhase class p)); [done|]. intros r. cbn.
    unfold in_class, when. repeat case_bool_decide; repeat case_decide; done. }
  split_and!; try (exact (Hph DispatchReserved) || exact (Hph Accepted) || exact (Hph Running)
    || exact (Hph CleanupPending)).
  - apply (gauge_ledgers _ (GInflight class)); [done|]. intros r. cbn. unfold in_class, when.
    by case_bool_decide; case_decide.
  - apply (gauge_ledgers _ (GClassCpu class)); [done|]. intros r. cbn. unfold in_class, when.
    by case_bool_decide; case_decide.
  - apply (gauge_ledgers _ (GClassMemory class)); [done|]. intros r. cbn. unfold in_class, when.
    by case_bool_decide; case_decide.
  - unfold permit_ledgers. intros v (r & -> & Hr)%list_elem_of_fmap.
    apply list_elem_of_fmap in Hr as ([pid r'] & -> & Hr%elem_of_btree_to_list). cbn [snd].
    destruct (HP pid r' Hr) as [E _ _ _ _ _]. unfold permit_ledger. cbn [ledger_view lv_permit_id].
    by rewrite E, Hr.
Qed.

Lemma snapshot_matches_ledgers_witness :
  ∃ sn, sn_classes (snapshot demo_policy (w_state demo_world)) !! "ingest"%string = Some sn ∧
    sn_inflight sn = 1 ∧
    lsum (λ v, if decide (lv_class v = "ingest"%string) then 1 else 0)
      (permit_ledgers (w_state demo_world)) = 1.
Proof.
  assert (∃ sn, sn_classes (snapshot demo_policy (w_state demo_world)) !! "ingest"%string = Some sn ∧
                sn_inflight sn = 1) as (sn & Hsn & H1).
  { eexists. vm_compute. split; reflexivity. }
  exists sn. split; [exact Hsn|]. split; [exact H1|].
  pose proof (snapshot_matches_ledgers demo_policy 1 demo_world "ingest"%string sn demo_typed
    demo_reachable Hsn) as [E _].
  rewrite H1 in E. symmetry. exact E.
Defined.

Lemma declared_requirements_total_witness :
  ∃ caps, declared_requirements demo_policy (demo_task "query" "b") = Some caps ∧
    (length caps ≤ 5)%nat ∧ "cpu"%string ∈ map cap_name caps.
Proof.
  destruct (declared_requirements_total demo_policy (demo_task "query" "b") demo_wf)
    as (caps & E & Hl & H).
  exists caps. split; [exact E|]. split; [exact Hl|]. apply H.
  exists (mkStage "query" "cpu" SharedCpuExecutor false None). split; [left|reflexivity].
Defined.
