(* ===== verification/Owned.v ===== *)
(** * The life of a submission's own permit

    A submission keeps the permit and ticket issued to it to itself.  These are the
    situations its identities can be in, from admission to the end, what each call of
    its own makes of them, and that no step of anybody else's changes them. *)

From S2P Require Import Prelude Contract Text Kernel PolicyCheck Requirements State Assess Fairness.
From S2P Require Import Admission Memory Governor Books Custody Ledger Moves Reads Invariant Steps.
From S2P Require Import Selection Sections Lifecycle Trace System Queues Runs Fifo Consistency.
From S2P Require Import Fates Grips Contracts.

(** What a step is not allowed to touch. *)
Record leaves_alone (ids : Ids) (a : Action) : Prop := {
  la_lease : ¬ may_lease (grip a) (id_permit ids);
  la_spend : ¬ may_spend (grip a) (id_permit ids);
  la_answer : ¬ may_answer (grip a) (id_ticket ids);
}.

Section situations.
Context (ids : Ids) (caps : CapabilityRequirementSet).
Implicit Types (w : World) (s : GovernedState).

(** Identities used for an admission, by this submission. *)
Definition used w : Prop := spent_permit w (id_permit ids) ∧ spent_ticket w (id_ticket ids).

(** The ticket was handed out, and nobody answered it yet. *)
Record waiting_state s : Prop := {
  ws_paired : paired ids s;
  ws_undispatched : undispatched caps (id_permit ids) s;
  ws_unanswered : unanswered ids s;
}.
Definition own_waiting w : Prop := used w ∧ waiting_state (w_state w).

(** The ticket is out of the way and the permit in nobody's queue. *)
Definition settled w : Prop :=
  used w ∧ ¬ reserved (w_state w) (id_permit ids) ∧ custody (w_state w) (id_ticket ids) = None.

(** The permit was handed out.  Until it is dispatched the leak sweep may take it. *)
Definition own_granted w : Prop := settled w ∧ undispatched caps (id_permit ids) (w_state w).

(** The permit is dispatched under a lease; it is live and charges [caps]. *)
Definition own_leased (nonce : N) w : Prop :=
  settled w ∧ leased caps (id_permit ids) nonce (w_state w).

(** Nothing is left of it, and nothing can come back. *)
Definition own_gone w : Prop := settled w ∧ gs_permits (w_state w) !! id_permit ids = None.

Lemma settled_unwaiting w class q :
  settled w → q ∈ waiting (w_state w) class → pr_permit_id q ≠ id_permit ids.
Proof. intros (_ & Hr & _) Hq E. apply Hr. by exists class, q. Qed.
End situations.

(** ** Arrivals of others *)

Section others.
Context (P : PolicySet) (ids other : Ids) (caps : CapabilityRequirementSet).
Context (Hp : id_permit other ≠ id_permit ids) (Ht : id_ticket other ≠ id_ticket ids).
Implicit Types s : GovernedState.

Lemma retagged_kept s s' :
  retagged P s s' → gs_permits s' = gs_permits s ∧ ∀ class, waiting s' class = waiting s class.
Proof. intros [H _]. split; [by rewrite H|intros class; by rewrite H]. Qed.

(** A grant to another permit, an arrival of another request. *)
Lemma grant_waiting_state g s :
  gr_permit_id g = id_permit other → gr_pending_ticket g = None →
  waiting_state ids caps s → waiting_state ids caps (grant g s).
Proof.
  intros Eg Et [[Q1 Q2] [U1 U2] A]. split; [split|split|].
  - intros class q. rewrite grant_waiting. apply Q1.
  - intros pid r. rewrite grant_permits. intros [[<- <-]|[_ Hr]]%lookup_insert_Some Hpt; [|eauto].
    cbn in Hpt. congruence.
  - intros r. rewrite grant_permits, lookup_insert_ne by congruence. apply U1.
  - intros class q. rewrite grant_waiting. apply U2.
  - intros r. rewrite grant_permits, lookup_insert_ne by congruence. apply A.
Qed.

Lemma arrival_waiting s s' r class q :
  arrival P other r s → enqueue r s = Some s' → q ∈ waiting s' class →
  q ∈ waiting s class ∨ pr_permit_id q = id_permit other ∧ pr_ticket q = id_ticket other.
Proof.
  intros Har Hen. rewrite (enqueue_waiting _ _ _ Hen). unfold upd_queue_of.
  case_decide; [subst class|by left].
  intros [?|Hq%list_elem_of_singleton]%elem_of_app; [by left|right]. rewrite Hq. cbn.
  split; [apply (ar_permit _ _ _ _ Har)|apply (ar_ticket _ _ _ _ Har)].
Qed.

Lemma enqueue_waiting_state s s' r :
  arrival P other r s → enqueue r s = Some s' → waiting_state ids caps s →
  waiting_state ids caps s'.
Proof.
  intros Har Hen [[Q1 Q2] [U1 U2] A]. pose proof (enqueue_cases _ _ _ Hen) as (_ & Hh & _).
  split; [split|split|].
  - intros class q [Hq|[E1 E2]]%(arrival_waiting _ _ _ _ _ Har Hen); [by eapply Q1|].
    rewrite E1, E2. by split.
  - rewrite (sh_permits _ _ Hh). apply Q2.
  - rewrite (sh_permits _ _ Hh). apply U1.
  - intros class q [Hq|[E1 E2]]%(arrival_waiting _ _ _ _ _ Har Hen) E; [by eapply U2|congruence].
  - unfold unanswered. rewrite (sh_permits _ _ Hh). apply A.
Qed.
End others.

(** ** Steps of others *)

Section steps.
Context (P : PolicySet) (authority : N) (Htyped : policies_typed P).
Context (ids : Ids) (caps : CapabilityRequirementSet).
Implicit Types (w : World) (s : GovernedState).

(** Primitive transitions. *)
Lemma tstep_waiting_state G s s' :
  ¬ may_lease G (id_permit ids) → ¬ may_answer G (id_ticket ids) →
  tstep_of G P s s' → waiting_state ids caps s → waiting_state ids caps s'.
Proof.
  intros H1 H2 Hs [Hp Hu Ha]. pose proof (tstep_slots _ _ _ _ Hs) as Hsl.
  pose proof (tstep_dequeues _ _ _ (tstep_any _ _ _ _ Hs)) as Hd. split.
  - by eapply slots_paired.
  - by eapply slots_undispatched.
  - by eapply slots_unanswered.
Qed.

Lemma tstep_undispatched G s s' :
  ¬ may_lease G (id_permit ids) → tstep_of G P s s' →
  undispatched caps (id_permit ids) s → undispatched caps (id_permit ids) s'.
Proof.
  intros H1 Hs. eapply slots_undispatched; [done|by eapply tstep_slots|].
  eapply tstep_dequeues, tstep_any, Hs.
Qed.

(** Any step leaves used identities used, and settled ones settled. *)
Lemma used_step w w' : effect P authority w w' → used ids w → used ids w'.
Proof. intros He [H1 H2]. split; [by eapply spent_permit_effect|by eapply spent_ticket_effect]. Qed.

Lemma settled_step w w' : effect P authority w w' → settled ids w → settled ids w'.
Proof.
  intros He (Hu & Hr & Ht). split; [by eapply used_step|]. split.
  - by apply (effect_permit_forward _ _ _ _ (id_permit ids) He); [apply Hu|].
  - pose proof (effect_ticket_forward _ _ _ _ (id_ticket ids) He (proj2 Hu)) as Hf.
    rewrite Ht in Hf. by inversion Hf.
Qed.

Lemma gone_step w w' : effect P authority w w' → own_gone ids w → own_gone ids w'.
Proof.
  intros He [Hs Hn]. split; [by eapply settled_step|]. destruct Hs as (Hu & Hr & _).
  destruct (effect_permit_forward _ _ _ _ (id_permit ids) He (proj1 Hu) Hr) as [_ Hf].
  apply eq_None_not_Some. intros [r' (r & Hr' & _)%Hf]. congruence.
Qed.

(** An effect of somebody else's, on a property of the state. *)
Lemma others_keep (K : GovernedState → Prop) a w w' :
  (∀ s s', tstep_of (grip a) P s s' → K s → K s') →
  (∀ other g s, id_permit other ≠ id_permit ids → id_ticket other ≠ id_ticket ids →
     gr_permit_id g = id_permit other → gr_pending_ticket g = None → K s → K (grant g s)) →
  (∀ other r s s', id_permit other ≠ id_permit ids → id_ticket other ≠ id_ticket ids →
     arrival P other r s → enqueue r s = Some s' → K s → K s') →
  effect_of (grip a) P authority w w' → used ids w → K (w_state w) → K (w_state w').
Proof.
  intros Ht Hg He Heff [[_ Hup] [_ Hut]] HK.
  pose proof (λ s s', rtc_ind_l (R := tstep_of (grip a) P)
    (λ s, K s → K s') s' (λ H, H) (λ s1 s2 H _ IH H1, IH (Ht _ _ H H1)) s) as Htr.
  destruct Heff as [issued -> _ _|Hs _ _ _|other sampled Eo _ _ Ha _ _]; [done|by eapply Htr|].
  assert (id_permit other ≠ id_permit ids) as Hp.
  { intros E. apply Hup. rewrite Eo, <-E. by left. }
  assert (id_ticket other ≠ id_ticket ids) as Htk.
  { intros E. apply Hut. rewrite Eo, <-E. by left. }
  assert (K (commit_time sampled (w_state w)).2) as H1 by (by eapply Ht, HK; apply t_clock).
  destruct Ha as [Hs|g _ _ Eg Ept _ ->|s1 r s2 _ Hs1 Har Hen Hs].
  - by eapply Htr.
  - by eapply Hg.
  - eapply Htr; [exact Hs|]. eapply He; [done|done|done|done|]. by eapply Ht; [apply t_tags|].
Qed.

Lemma waiting_others a w w' :
  leaves_alone ids a → effect_of (grip a) P authority w w' →
  own_waiting ids caps w → own_waiting ids caps w'.
Proof.
  intros [H1 _ H3] He [Hu Hw]. split; [eapply used_step, Hu; by eapply effect_any|].
  eapply others_keep; [| | |exact He|done..].
  - intros s s'. by eapply tstep_waiting_state.
  - intros other g s Hp _. by apply (grant_waiting_state _ other).
  - intros other r s s' Hp Ht Har Hen. by eapply enqueue_waiting_state.
Qed.

Lemma granted_others a w w' :
  leaves_alone ids a → effect_of (grip a) P authority w w' →
  own_granted ids caps w → own_granted ids caps w'.
Proof.
  intros [H1 _ _] He [Hs Hw]. split; [eapply settled_step, Hs; by eapply effect_any|].
  eapply others_keep; [| | |exact He|apply Hs|done].
  - intros s s'. by eapply tstep_undispatched.
  - intros other g s Hp _ Eg _ [U1 U2]. split.
    + intros r. rewrite grant_permits, lookup_insert_ne by congruence. apply U1.
    + intros class q. rewrite grant_waiting. apply U2.
  - intros other r s s' Hp Ht Har Hen [U1 U2]. pose proof (enqueue_cases _ _ _ Hen) as (_ & Hh & _). split.
    + rewrite (sh_permits _ _ Hh). apply U1.
    + intros class q [Hq|[E _]]%(arrival_waiting P other _ _ _ _ _ Har Hen) E'; [by eapply U2|congruence].
Qed.

Lemma leased_others a w w' nonce :
  leaves_alone ids a → effect_of (grip a) P authority w w' →
  own_leased ids caps nonce w → own_leased ids caps nonce w'.
Proof.
  intros [_ H2 _] He [Hs Hw]. split; [eapply settled_step, Hs; by eapply effect_any|].
  eapply others_keep; [| | |exact He|apply Hs|done].
  - intros s s'. by eapply tstep_leased.
  - intros other g s Hp _ Eg _ (r & Hr & H). exists r.
    by rewrite grant_permits, lookup_insert_ne by congruence.
  - intros other r s s' _ _ _ Hen (x & Hx & H). pose proof (enqueue_cases _ _ _ Hen) as (_ & Hh & _).
    exists x. by rewrite (sh_permits _ _ Hh).
Qed.
End steps.

(** ** Calls of its own *)

(** A section that leases, spends, claims and answers nothing. *)
Definition nobody : Grip :=
  mkGrip (λ _, False) (λ _, False) (λ _, False) (λ _, False) (λ _, True) True True.

Section own_calls.
Context (P : PolicySet) (authority : N) (Htyped : policies_typed P) (Hwf : policy_wf P).
Context (ids : Ids) (caps : CapabilityRequirementSet).
Implicit Types (w : World) (s : GovernedState).

Lemma nobody_waiting_state s s' :
  trace_of nobody P s s' → waiting_state ids caps s → waiting_state ids caps s'.
Proof.
  intros H. induction H as [|s1 s2 s3 Hs _ IH]; [done|]. intros Hw. apply IH.
  eapply (tstep_waiting_state P ids caps nobody); [by intros []|by intros []|exact Hs|done].
Qed.

(** A ticket that is neither waiting nor bound leaves no permit behind. *)
Lemma waiting_settled w :
  reachable P authority w → own_waiting ids caps w → custody (w_state w) (id_ticket ids) = None →
  own_gone ids w.
Proof.
  intros Hw [Hu [[Hq _] _ Ha]] Ht. destruct (reachable_inv P authority w Htyped Hw) as (B & HI & _).
  pose proof (inv_custody _ _ _ HI) as HC. split; [split_and!; [done| |done]|].
  - intros (class & q & Hin & E). apply (Hq _ _ Hin) in E.
    assert (custody (w_state w) (id_ticket ids) = Some (Waits class)); [|congruence].
    apply (custody_queued _ _ HC). rewrite <-E. by apply list_elem_of_fmap_2.
  - apply eq_None_not_Some. intros [r Hr]. pose proof (pending_holds HC _ _ _ Hr (Ha r Hr)). congruence.
Qed.

(** The status of a ticket that is not waiting any more. *)
Lemma status_settled s t :
  match ticket_status s t with
  | ClaimTerminal _ | ClaimInvalid => custody s t = None
  | Ready _ | ClaimPending => is_Some (custody s t)
  end.
Proof. unfold ticket_status, custody. by destruct (gs_tickets s !! t) as [[]|]. Qed.

(** ** Abandoning *)

Section abandoning.
Context (B : N) (HB : B ≤ U64_MAX) (s : GovernedState) (HI : Inv P B s).
Context (Hroom : room (N.of_nat PROMOTION_BUDGET) s).

Lemma promote_forgotten now s2 e s' e' t :
  keeps P B 0 s s2 → absorb_promote P now s2 e = Some (s', e') → gs_tickets s2 !! t = None →
  gs_tickets s' !! t = None.
Proof.
  intros [HI2 Hg2] Hp Ht.
  apply (absorb_promote_keeps P B Htyped HB) in Hp as [_ Hg]; [|by eapply grows_room|done].
  by apply (grows_tickets _ _ _ Hg).
Qed.

Lemma forget_settled t s0 : custody s0 t = None → gs_tickets (forget_terminal_ticket t s0) !! t = None.
Proof.
  unfold custody, forget_terminal_ticket.
  destruct (gs_terminal_index s0 !! t); cbn [gs_tickets upd_gs_terminal_order upd_gs_terminal_index];
    destruct (gs_tickets s0 !! t) as [[]|] eqn:E; try done; intros _; cbn; by rewrite lookup_delete_eq.
Qed.

Lemma abandon_held_forgets now s1 t pid r out s' e' :
  keeps P B 0 s s1 → gs_permits s1 !! pid = Some r → rec_pending_ticket r = Some t →
  rec_lease_nonce r = None →
  match release_with_proof_reason pid None Abandoned s1 no_effects with
  | (ReleaseDone, s, e) =>
    '(s, e) ← absorb_promote P now (forget_terminal_ticket t s) e; Some (AbandonDone, s, e)
  | (ReleaseHeldByLease phase, s, e) => Some (AbandonHeldByLease phase, s, e)
  | (ReleaseUnknownPermit, s, e) => Some (AbandonInvalid, upd_gs_tickets (delete t) s, e)
  end = Some (out, s', e') → out = AbandonDone ∧ gs_tickets s' !! t = None.
Proof.
  intros Hk Hr Hrt Hl H. destruct (release_with_proof_reason _ _ _ _ _) as [[o s2] e2] eqn:Er.
  pose proof (release_keeps P B HB s _ _ _ _ _ _ _ _ Hk Er) as Hk2.
  unfold release_with_proof_reason, unwind in Er. rewrite Hr, Hrt, decide_True in Er by done.
  simplify_eq. apply bind_Some in H as ([s3 e3] & H3 & H). simplify_eq. split; [done|].
  eapply promote_forgotten; [|exact H3|].
  - eapply then_settled; [done|apply forget_terminal_charges|apply forget_terminal_custody|
      apply forget_terminal_no_new].
  - apply forget_settled. by rewrite record_terminal_custody, decide_True.
Qed.

(** What [abandon] answers for a ticket, by its state. *)
Definition abandon_answer (status : ClaimOutcome) : AbandonOutcome :=
  match status with
  | Ready _ | ClaimPending => AbandonDone
  | ClaimTerminal _ => TerminalDiscarded
  | ClaimInvalid => AbandonInvalid
  end.

(** [abandon] of a ticket whose permit is not dispatched answers by the state it finds
    and leaves no trace of the ticket. *)
Lemma abandon_section_spec sampled t out s' e' :
  (∀ pid r, gs_permits s !! pid = Some r → rec_pending_ticket r = Some t → rec_lease_nonce r = None) →
  abandon_section P sampled t s = Some (out, s', e') →
  out = abandon_answer (ticket_status s t) ∧ gs_tickets s' !! t = None.
Proof.
  intros Hl H. pose proof (committed P B s HI sampled) as Hc.
  pose proof (commit_time_books sampled s) as Hb. unfold abandon_section in H.
  assert (ticket_status (commit_time sampled s).2 t = ticket_status s t) as <- by done.
  destruct (commit_time sampled s) as [now s1]. cbn [snd] in *.
  assert (∀ pid, custody s1 t = Some (Holds pid) →
    ∃ r, gs_permits s1 !! pid = Some r ∧ rec_pending_ticket r = Some t ∧ rec_lease_nonce r = None)
    as Hlive.
  { intros pid (r & Hr & Hrt)%(custody_live _ _ (inv_custody _ _ _ (proj1 Hc))). exists r.
    split_and!; [done..|]. rewrite (books_permits _ _ Hb) in Hr. by eapply Hl. }
  unfold ticket_status. destruct (gs_tickets s1 !! t) as [[class|pid|pid|reason|]|] eqn:Et.
  - assert (custody s1 t = Some (Waits class)) as Hcu by (unfold custody; by rewrite Et).
    apply (abandon_queued_cases P B) in H as (i & r & s2 & e & policy & Hpol & Hrm & <- & Eo & H);
      [|apply Hc|done].
    split; [done|]. eapply promote_forgotten; [by eapply abandoned_keeps|exact H|].
    unfold abandoned. destruct (is_child _);
      exact (lookup_delete_eq (gs_tickets s2) (pr_ticket r)).
  - destruct (Hlive pid) as (r & Hr & Hrt & Hn); [unfold custody; by rewrite Et|].
    by eapply abandon_held_forgets.
  - destruct (Hlive pid) as (r & Hr & Hrt & Hn); [unfold custody; by rewrite Et|].
    by eapply abandon_held_forgets.
  - simplify_eq. split; [done|]. apply forget_settled. unfold custody. by rewrite Et.
  - simplify_eq. split; [done|]. apply forget_settled. unfold custody. by rewrite Et.
  - by simplify_eq.
Qed.
End abandoning.

(** ** Admission *)

(** Fresh identities are in nobody's hands. *)
Lemma fresh_waiting_state B s :
  Inv P B s → ids_fresh s ids → waiting_state ids caps s.
Proof.
  intros HI [F1 F3 F2]. pose proof (inv_custody _ _ _ HI) as HC.
  assert (custody s (id_ticket ids) = None) as Hcu by (unfold custody; by rewrite F3).
  split; [split|split|].
  - intros class q Hq. split; [by intros ?%(F2 _ _ Hq)|]. intros E.
    assert (custody s (id_ticket ids) = Some (Waits class)); [|congruence].
    apply (custody_queued _ _ HC). rewrite <-E. by apply list_elem_of_fmap_2.
  - intros pid r Hr Hp. pose proof (pending_holds HC _ _ _ Hr Hp). congruence.
  - intros r Hr. congruence.
  - intros class q Hq E. by apply (F2 _ _ Hq) in E.
  - intros r Hr. congruence.
Qed.

Section admitting.
Context (w : World) (Hw : reachable P authority w).
Context (Hroom : room (N.of_nat PROMOTION_BUDGET) (w_state w)).
Context (out : list Ids) (Hout : w_outstanding w ≡ₚ ids :: out).
Context (sampled : N) (req : AdmissionRequest) (pools : list ResolvedCapability).
Context (Hpools : from_resolved pools = inr (ar_capabilities req)).

Local Abbreviation admitted s :=
  (mkWorld s (w_counters w) out (w_claims w) (w_nonces w)).

Lemma admitted_used s : used ids (admitted s).
Proof.
  pose proof (reachable_ok P authority Htyped w Hw) as Hok.
  destruct (world_fresh _ _ Hok ids) as (_ & _ & H1 & H2); [rewrite Hout; by left|].
  pose proof (world_permits _ _ Hok) as Np. pose proof (world_ticket_ids _ _ Hok) as Nt.
  rewrite Hout in Np, Nt. apply NoDup_cons in Np as [Np _]. apply NoDup_cons in Nt as [Nt _]. done.
Qed.

(** What an admission makes of its identities. *)
Lemma own_admit waker d s e :
  caps = ar_capabilities req → admit_section P sampled req waker ids (w_state w) = Some (d, s, e) →
  match d with
  | Rejected _ => own_gone ids (admitted s)
  | AdmittedPermit pid => pid = id_permit ids ∧ own_granted ids caps (admitted s)
  | Queued t => t = id_ticket ids ∧ own_waiting ids caps (admitted s)
  end.
Proof.
  intros Ecaps Ha. destruct (reachable_inv P authority w Htyped Hw) as (B & HI & _).
  pose proof (reachable_ok P authority Htyped w Hw) as Hok.
  destruct (world_fresh _ _ Hok ids) as (F1 & F2 & _); [rewrite Hout; by left|].
  unfold admit_section in Ha.
  pose proof (commit_time_books sampled (w_state w)) as Hb.
  destruct (commit_time sampled (w_state w)) as [now s1] eqn:E1. cbn [snd] in Hb.
  assert (ids_fresh s1 ids) as Hf.
  { eapply ids_fresh_books; [symmetry; exact Hb|]. split; [|done|].
    - apply eq_None_not_Some. intros H. apply F1. by left.
    - intros class q Hq E. apply F1. right. by exists class, q. }
  rewrite <-Hb in HI. pose proof (fresh_waiting_state B s1 HI Hf) as Hws.
  pose proof (admitted_used s) as Hu.
  assert (NoDup (ar_capabilities req)) as Hnd by (by eapply from_resolved_NoDup).
  apply (admit_request_answered (G := nobody) P s1 ids Hf now req Hnd) in Ha.
  destruct Hf as [Fp Ft Fq]. assert (¬ reserved s1 (id_permit ids)) as Hnr.
  { intros (class & q & Hq & E). by apply (Fq _ _ Hq). }
  assert (custody s1 (id_ticket ids) = None) as Hcu by (unfold custody; by rewrite Ft).
  destruct Ha as [v s2 Hs|g _ _ Eg Ept _ Ec|s2 r s3 s4 _ H2 Har Ec Hen Htr].
  - apply refused_state in Hs as [->|[what ->]]; [done|]. unfold record_accounting_fault.
    by destruct (gs_accounting_fault s1).
  - split; [done|]. split; [split_and!; [done| |]|split].
    + intros (class & q & Hq & E). cbn [w_state] in Hq. rewrite grant_waiting in Hq.
      apply Hnr. by exists class, q.
    + cbn [w_state]. rewrite grant_custody, Ept. done.
    + intros r. cbn [w_state]. rewrite grant_permits, <-Eg, lookup_insert_eq.
      intros [= <-]. cbn. by rewrite Ecaps.
    + intros class q. cbn [w_state]. rewrite grant_waiting. intros Hq E. by apply (Fq _ _ Hq) in E.
  - split; [done|]. split; [done|]. cbn [w_state]. eapply nobody_waiting_state; [exact Htr|].
    eapply (nobody_waiting_state s1 s2) in Hws; [|by apply retagged_trace].
    pose proof (retagged_kept P _ _ H2) as [Ep Ew].
    pose proof (enqueue_cases _ _ _ Hen) as (_ & Hh & _).
    assert (∀ class q, q ∈ waiting s3 class → q ∈ waiting s1 class ∨
      pr_permit_id q = id_permit ids ∧ pr_ticket q = id_ticket ids ∧ pr_capabilities q = caps) as Hq.
    { intros class q. rewrite (enqueue_waiting _ _ _ Hen). unfold upd_queue_of.
      case_decide; [subst class|rewrite Ew; by left].
      intros [?|Hq%list_elem_of_singleton]%elem_of_app; [left; by rewrite <-Ew|right]. rewrite Hq. cbn.
      split_and!; [apply (ar_permit _ _ _ _ Har)|apply (ar_ticket _ _ _ _ Har)|congruence]. }
    destruct Hws as [[Q1 Q2] [U1 U2] A]. split; [split|split|].
    + intros class q [Hin|(-> & -> & _)]%Hq; [apply (Q1 class); by rewrite Ew|done].
    + rewrite (sh_permits _ _ Hh). apply Q2.
    + rewrite (sh_permits _ _ Hh). apply U1.
    + intros class q [Hin|(_ & _ & ->)]%Hq E; [by apply (Fq _ _ Hin) in E|done].
    + unfold unanswered. rewrite (sh_permits _ _ Hh). apply A.
Qed.
End admitting.

(** ** Claiming, abandoning, dispatching, releasing *)

Section holding.
Context (w : World) (Hw : reachable P authority w).
Context (Hroom : room (N.of_nat PROMOTION_BUDGET) (w_state w)).

Lemma own_step a e w' : lstep P authority w a e w' → effect_of (grip a) P authority w w'.
Proof. intros H. eapply lstep_effect; [done|by eapply reachable_ok|done|exact H]. Qed.

Lemma own_reachable a e w' : lstep P authority w a e w' → reachable P authority w'.
Proof. intros H. eapply reachable_step; [done..|by eapply lstep_wstep]. Qed.

(** The second half of a claim: the permit is the issued one, and it is granted. *)
Lemma own_claim_finish sampled out s :
  own_waiting ids caps w → claim_finish_section sampled (id_ticket ids) (w_state w) = (out, s) →
  match out with
  | Ready pid => pid = id_permit ids ∧ own_granted ids caps (with_state s w)
  | _ => own_waiting ids caps (with_state s w)
  end.
Proof.
  intros [Hu Hws]. unfold claim_finish_section.
  destruct (reachable_inv P authority w Htyped Hw) as (B & HI & _).
  pose proof (commit_time_books sampled (w_state w)) as Hb.
  assert (tstep_of nobody P (w_state w) (commit_time sampled (w_state w)).2) as Hc by apply t_clock.
  destruct (commit_time sampled (w_state w)) as [now s1]. cbn [snd] in *.
  rewrite <-Hb in HI. pose proof (inv_custody _ _ _ HI) as HC.
  apply (rtc_once (R := tstep_of nobody P)) in Hc.
  apply (nobody_waiting_state _ _ Hc) in Hws.
  assert (∀ s2, tstep_of nobody P s1 s2 → own_waiting ids caps (with_state s2 w)) as Hk.
  { intros s2 H. split; [done|]. eapply (nobody_waiting_state s1); [by apply rtc_once|done]. }
  destruct (gs_tickets s1 !! id_ticket ids) as [[class|pid|pid|reason|]|] eqn:Et;
    try (by intros [= <- <-]); try (intros [= <- <-]; by apply Hk, t_forget).
  destruct (gs_permits s1 !! pid) as [r|] eqn:Hr; intros [= <- <-]; [|by eapply Hk, settle_held; [exact HC|unfold custody; rewrite Et|..]].
  assert (custody s1 (id_ticket ids) = Some (Holds pid)) as Hcu by (unfold custody; by rewrite Et).
  apply (custody_live _ _ HC) in Hcu as (r' & Hr' & Hp). simplify_eq.
  pose proof Hws as [[_ Hpd] [Hud Huq] _]. pose proof (Hpd _ _ Hr Hp) as ->.
  split; [done|]. split; [split_and!; [done| |]|split].
  - intros (class & q & Hq & E). pose proof (custody_fresh _ _ HC class q Hq). congruence.
  - cbn [w_state with_state]. rewrite delete_ticket_custody. by rewrite decide_True.
  - cbn. intros x. rewrite lookup_insert_eq. intros [= <-]. apply (Hud r Hr).
  - intros class q. apply Huq.
Qed.

(** Abandoning the ticket leaves nothing behind. *)
Lemma own_abandon sampled out s e :
  own_waiting ids caps w → abandon_section P sampled (id_ticket ids) (w_state w) = Some (out, s, e) →
  own_gone ids (with_state s w).
Proof.
  intros Hown H. assert (lstep P authority w (AAbandon (id_ticket ids)) e (with_state s w)) as Hs
    by (by eapply step_abandon).
  apply waiting_settled; [by eapply own_reachable| |].
  - eapply (waiting_others P authority ids caps); [|by apply own_step in Hs|done].
    split; cbn; by naive_solver.
  - destruct (reachable_inv P authority w Htyped Hw) as (B & HI & HB).
    assert (gs_tickets s !! id_ticket ids = None) as En;
      [|unfold custody; cbn [w_state with_state]; by rewrite En].
    eapply abandon_section_spec; [|exact HI|done| |exact H]; [lia|].
    intros pid r Hr Hp. destruct Hown as [_ [[_ Hpd] [Hud _] _]].
    rewrite (Hpd _ _ Hr Hp) in Hr. apply (Hud r Hr).
Qed.

(** Releasing a permit with the right proof ends it; without a live permit nothing
    is left to end. *)
Lemma own_release sampled proof out s e :
  settled ids w →
  (∀ r, gs_permits (w_state w) !! id_permit ids = Some r → rec_lease_nonce r = proof) →
  release_section P sampled (id_permit ids) proof (w_state w) = Some (out, s, e) →
  own_gone ids (with_state s w) ∧
  (is_Some (gs_permits (w_state w) !! id_permit ids) → out = ReleaseDone).
Proof.
  intros Hs Hl H. assert (lstep P authority w (ARelease (id_permit ids) proof) e (with_state s w))
    as Hst by (by eapply step_release).
  apply own_step in Hst. apply effect_any in Hst.
  apply (settled_step P authority ids) in Hst; [|done].
  destruct (release_section_spec P authority w sampled (id_permit ids) proof Hwf Htyped Hw Hroom)
    as (out' & s' & e' & E & Hspec). rewrite H in E. injection E as <- <- <-.
  destruct (gs_permits (w_state w) !! id_permit ids) as [r|] eqn:Hr.
  - rewrite decide_True in Hspec by auto. destruct Hspec as (-> & Hn & _). by split.
  - destruct Hspec as (_ & -> & _). split; [split; [done|exact Hr]|]. by intros [? ?].
Qed.

(** Dispatching: the first advance takes the lease, or finds the permit gone. *)
Lemma own_dispatch phase x nonces s :
  phase ≠ DispatchReserved → own_granted ids caps w →
  advance_phase (id_permit ids) phase (w_nonces w) (w_state w) = (x, nonces, s) →
  let w' := mkWorld s (w_counters w) (w_outstanding w) (w_claims w) nonces in
  match x with
  | Leased token => lease_permit_id token = id_permit ids ∧ own_leased ids caps (lease_token_nonce token) w'
  | Advanced => False
  | AdvanceRefused why => why = RefusedUnknownPermit ∧ own_gone ids w'
  end.
Proof.
  intros Hph [Hs [Hud _]] H w'.
  assert (lstep P authority w (AAdvance (id_permit ids)) no_effects w') as Hst by (by eapply step_advance).
  apply own_step, effect_any, (settled_step P authority ids) in Hst; [|done].
  unfold advance_phase in H. destruct (gs_permits (w_state w) !! id_permit ids) as [r|] eqn:Hr.
  - destruct (Hud r eq_refl) as (E1 & E2 & E3). rewrite E1 in H.
    rewrite decide_False in H by (destruct phase; [done|cbn; lia..]). cbn in H. rewrite E2 in H. simplify_eq.
    split; [done|]. split; [done|]. eexists. split; [apply lookup_insert_eq|done].
  - simplify_eq. done.
Qed.

(** A later phase of a leased permit. *)
Lemma own_advance nonce phase x nonces s :
  own_leased ids caps nonce w →
  advance_phase (id_permit ids) phase (w_nonces w) (w_state w) = (x, nonces, s) →
  own_leased ids caps nonce (mkWorld s (w_counters w) (w_outstanding w) (w_claims w) nonces) ∧
  match x with
  | Advanced => ∃ r, gs_permits s !! id_permit ids = Some r ∧ rec_phase r = phase
  | AdvanceRefused (RefusedNotLater current) => rank phase ≤ rank current
  | _ => False
  end.
Proof.
  intros [Hs (r & Hr & Hn & Hc)] H.
  assert (lstep P authority w (AAdvance (id_permit ids)) no_effects
    (mkWorld s (w_counters w) (w_outstanding w) (w_claims w) nonces)) as Hst by (by eapply step_advance).
  apply own_step, effect_any, (settled_step P authority ids) in Hst; [|done].
  unfold advance_phase in H. rewrite Hr in H. case_decide; [simplify_eq; split; [|done]|].
  - split; [done|]. by exists r.
  - cbn in H. rewrite Hn in H. simplify_eq. split; [split; [done|]|].
    + eexists. split; [apply lookup_insert_eq|done].
    + eexists. split; [apply lookup_insert_eq|done].
Qed.
End holding.
End own_calls.
