(* ===== verification/Watched.v ===== *)
(** * A parked submission and its ticket

    What a submission knows while it waits for a promotion: the request in the queue,
    if it is still there, carries the notifier the submission parks on, and nobody but
    the submission starts a claim of its ticket.  And once it has started one, the
    ticket does not read as granted or queued any more.  No step of anybody else's
    changes either. *)

From S2P Require Import Prelude Contract Text Kernel PolicyCheck Requirements State Assess Fairness.
From S2P Require Import Admission Memory Governor Books Custody Ledger Moves Reads Invariant Steps.
From S2P Require Import Selection Sections Lifecycle Trace System Queues Runs Fifo Consistency.
From S2P Require Import Fates Grips Contracts Owned.

(** ** Live tickets *)

Definition ticket_of (s : GovernedState) (t : Ticket) : option TicketState :=
  live_ticket (gs_tickets s !! t).

Lemma evict_terminal_ticket_of fuel s t : ticket_of (evict_terminal fuel s) t = ticket_of s t.
Proof.
  revert s. induction fuel as [|fuel IH]; intros s; [done|]. cbn.
  case_decide; [done|]. destruct (btree_first _) as [[seq oldest]|]; [|done].
  rewrite IH. destruct (gs_tickets _ !! oldest) as [[]|] eqn:E; try done.
  unfold ticket_of. cbn in *. destruct (decide (t = oldest)) as [->|].
  - by rewrite lookup_delete_eq, E.
  - by rewrite lookup_delete_ne.
Qed.

Lemma record_terminal_ticket_of t reason s t' :
  ticket_of (record_terminal_ticket t reason s) t' = if decide (t' = t) then None else ticket_of s t'.
Proof.
  unfold record_terminal_ticket. rewrite evict_terminal_ticket_of. unfold ticket_of.
  destruct (gs_terminal_index _ !! t); cbn; (case_decide;
    [subst; by rewrite lookup_insert_eq|by rewrite lookup_insert_ne]).
Qed.

Lemma forget_terminal_ticket_of t s t' : ticket_of (forget_terminal_ticket t s) t' = ticket_of s t'.
Proof.
  unfold forget_terminal_ticket, ticket_of.
  destruct (gs_terminal_index s !! t); cbn [gs_tickets upd_gs_terminal_order upd_gs_terminal_index];
    destruct (gs_tickets s !! t) as [[]|] eqn:E; try done; cbn;
    (destruct (decide (t = t')) as [<-|]; [by rewrite lookup_delete_eq, E|by rewrite lookup_delete_ne]).
Qed.

(** What a primitive transition may make of a ticket: leave it, end it, write it, or
    bind it to the permit its request is granted. *)
Inductive ticket_step (G : Grip) (s : GovernedState) (t : Ticket) : option TicketState → Prop :=
  | ticket_still : ticket_step G s t (ticket_of s t)
  | ticket_over : ticket_step G s t None
  | ticket_written st : ticket_ok G s t st → ticket_step G s t (live_ticket (Some st))
  | ticket_granted class q pid :
      q ∈ waiting s class → pr_ticket q = t → ticket_step G s t (Some (TGranted pid)).

Lemma ticket_step_eq G s s' t : gs_tickets s' = gs_tickets s → ticket_step G s t (ticket_of s' t).
Proof. intros E. unfold ticket_of. rewrite E. apply ticket_still. Qed.

(** The ticket table and the terminal records. *)
Definition records (s : GovernedState) :=
  (gs_tickets s, gs_terminal_order s, gs_terminal_index s, gs_terminal_seq s).

Lemma fault_records what s : records (record_accounting_fault what s) = records s.
Proof. unfold record_accounting_fault. by destruct (gs_accounting_fault s). Qed.

Lemma memory_delta_records class root delta s :
  records (apply_memory_delta class root delta s) = records s.
Proof.
  unfold apply_memory_delta. case_decide; [by destruct root|].
  destruct (_ || _); rewrite ?fault_records; by destruct root.
Qed.

Lemma reconcile_records pid bytes sequence mode scale now s out s' :
  reconcile pid bytes sequence mode scale now s = (out, s') → records s' = records s.
Proof.
  unfold reconcile. destruct (gs_permits s !! pid) as [r|]; [|by intros [= <- <-]].
  do 2 (case_decide; [by intros [= <- <-]|]).
  destruct (effective_units _ _ _ _) as [err|u]; intros [= <- <-]; [apply fault_records|].
  by rewrite memory_delta_records.
Qed.

Lemma release_stage_records pid freed policy sequence now s out s' :
  release_stage_memory pid freed policy sequence now s = (out, s') → records s' = records s.
Proof.
  unfold release_stage_memory. destruct (negb _); [by intros [= <- <-]|].
  destruct (gs_permits s !! pid) as [r|]; [|by intros [= <- <-]].
  destruct (match sequence with Some _ => _ | None => _ end); intros [= <- <-]; [done|].
  by rewrite memory_delta_records.
Qed.

Lemma records_tickets s s' : records s' = records s → gs_tickets s' = gs_tickets s.
Proof. by intros [= ? ? ? ?]. Qed.

Lemma tstep_ticket G P s s' t : tstep_of G P s s' → ticket_step G s t (ticket_of s' t).
Proof.
  destruct 1 as [sampled|s' [H _]|f|class i r s1 s2 now Hrm [H2 _] Hpred s3 g Hg|class i r s' Hrm|t' st Hn Hok|t'
    |t' reason|t'|pid r Hr _|pid r r' Hr Hs Hp|pid t' r Hr Ht HG|pid phase nonces out nonces' s' HG H
    |pid bytes sq mode scale now out s' _ H|pid freed policy sq now out s' _ H|what|];
    try (by apply ticket_step_eq).
  - apply ticket_step_eq. by rewrite H.
  - unfold ticket_of. rewrite grant_tickets. cbn. destruct (decide (t = pr_ticket r)) as [->|Hne].
    + rewrite lookup_insert_eq. eapply (ticket_granted _ _ _ class (untag r)); [|done].
      eapply list_elem_of_lookup_2, (remove_pending_waiting _ _ _ _ _ Hrm).
    + rewrite lookup_insert_ne, lookup_delete_ne by done. rewrite H2.
      rewrite (remove_pending_tickets _ _ _ _ _ Hrm). apply ticket_still.
  - apply ticket_step_eq. by eapply remove_pending_tickets.
  - unfold ticket_of. cbn. destruct (decide (t = t')) as [->|Hne].
    + rewrite lookup_insert_eq. by apply ticket_written.
    + rewrite lookup_insert_ne by done. apply ticket_still.
  - unfold ticket_of. cbn. destruct (decide (t = t')) as [->|Hne].
    + rewrite lookup_delete_eq. apply ticket_over.
    + rewrite lookup_delete_ne by done. apply ticket_still.
  - rewrite record_terminal_ticket_of. case_decide; [apply ticket_over|apply ticket_still].
  - rewrite forget_terminal_ticket_of. apply ticket_still.
  - apply ticket_step_eq, unwind_charges_tickets.
  - apply ticket_step_eq. by apply advance_phase_cases in H as [(_ & _ & _ & ->)|(? & _ & _ & -> & _)].
  - apply ticket_step_eq. by eapply records_tickets, reconcile_records.
  - apply ticket_step_eq. by eapply records_tickets, release_stage_records.
  - apply ticket_step_eq. unfold record_accounting_fault. by destruct (gs_accounting_fault s).
Qed.

(** ** The two situations *)

Section facts.
Context (ids : Ids).
Implicit Types s : GovernedState.

(** Waiting under [waker], and nobody is claiming the ticket. *)
Record watched (waker : Waker) (s : GovernedState) : Prop := {
  wt_waker class q :
    q ∈ waiting s class → pr_ticket q = id_ticket ids → pr_waker q = Some waker;
  wt_unclaimed pid : ticket_of s (id_ticket ids) ≠ Some (TClaiming pid);
}.

(** Out of the queue, and being claimed if anything. *)
Record claiming (s : GovernedState) : Prop := {
  cl_queue class q : q ∈ waiting s class → pr_ticket q ≠ id_ticket ids;
  cl_granted pid : ticket_of s (id_ticket ids) ≠ Some (TGranted pid);
  cl_queued class : ticket_of s (id_ticket ids) ≠ Some (TQueued class);
}.

Lemma tstep_watched G P waker s s' :
  ¬ may_claim G (id_ticket ids) → tstep_of G P s s' → watched waker s → watched waker s'.
Proof.
  intros HG Hs [H1 H2]. pose proof (tstep_dequeues _ _ _ (tstep_any _ _ _ _ Hs)) as Hd. split.
  - intros class q Hq. by eapply H1, dequeues_elem.
  - intros pid E. pose proof (tstep_ticket _ _ _ _ (id_ticket ids) Hs) as Ht. rewrite E in Ht.
    inversion Ht as [E'| |st Hok Est|]; [by apply (H2 pid)|]. destruct st; simplify_eq. by destruct Hok.
Qed.

Lemma tstep_claiming G P s s' :
  tstep_of G P s s' → claiming s → claiming s'.
Proof.
  intros Hs [H1 H2 H3]. pose proof (tstep_dequeues _ _ _ (tstep_any _ _ _ _ Hs)) as Hd.
  pose proof (tstep_ticket _ _ _ _ (id_ticket ids) Hs) as Ht. split.
  - intros class q Hq. by eapply H1, dequeues_elem.
  - intros pid E. rewrite E in Ht. inversion Ht as [E'| |st Hok Est|class q pid' Hq Eq]; simplify_eq.
    + by apply (H2 pid).
    + destruct st; by simplify_eq.
    + by apply (H1 class q).
  - intros class E. rewrite E in Ht. inversion Ht as [E'| |st Hok Est|]; simplify_eq.
    + by apply (H3 class).
    + destruct st; simplify_eq. destruct Hok as (q & Hq & Eq). by apply (H1 class q).
Qed.
End facts.

Section steps.
Context (P : PolicySet) (authority : N) (Htyped : policies_typed P).
Context (ids : Ids) (caps : CapabilityRequirementSet) (waker : Waker).
Implicit Types (w : World) (s : GovernedState).

Definition own_watched w : Prop := own_waiting ids caps w ∧ watched ids waker (w_state w).
Definition own_claiming w : Prop := own_waiting ids caps w ∧ claiming ids (w_state w).

(** Somebody else's grant or arrival. *)
Lemma grant_ticket_of g s t :
  gr_pending_ticket g = None → ticket_of (grant g s) t = ticket_of s t.
Proof. intros E. unfold ticket_of. by rewrite grant_tickets, E. Qed.

Lemma enqueue_ticket_of r s s' t : enqueue r s = Some s' → ticket_of s' t = ticket_of s t.
Proof. intros (_ & _ & E & _)%enqueue_cases. unfold ticket_of. by rewrite E. Qed.

Lemma watched_others a w w' :
  leaves_alone ids a → ¬ may_claim (grip a) (id_ticket ids) →
  effect_of (grip a) P authority w w' → own_watched w → own_watched w'.
Proof.
  intros Ha Hc He [Hw Hk]. split; [by eapply waiting_others|]. destruct Hw as [Hu _].
  eapply (others_keep P authority ids); [| | |exact He|done..].
  - intros s s'. by eapply tstep_watched.
  - intros other g s _ _ _ Et [H1 H2]. split.
    + intros class q. rewrite grant_waiting. apply H1.
    + intros pid. rewrite grant_ticket_of by done. apply H2.
  - intros other r s s' Hp Ht Har Hen [H1 H2]. split.
    + intros class q [Hq|[_ E]]%(arrival_waiting P other _ _ _ _ _ Har Hen) E'; [by eapply H1|congruence].
    + intros pid. rewrite (enqueue_ticket_of _ _ _ _ Hen). apply H2.
Qed.

Lemma claiming_others a w w' :
  leaves_alone ids a → effect_of (grip a) P authority w w' → own_claiming w → own_claiming w'.
Proof.
  intros Ha He [Hw Hk]. split; [by eapply waiting_others|]. destruct Hw as [Hu _].
  eapply (others_keep P authority ids); [| | |exact He|done..].
  - intros s s'. by eapply tstep_claiming.
  - intros other g s _ _ _ Et [H1 H2 H3]. split.
    + intros class q. rewrite grant_waiting. apply H1.
    + intros pid. rewrite grant_ticket_of by done. apply H2.
    + intros class. rewrite grant_ticket_of by done. apply H3.
  - intros other r s s' Hp Ht Har Hen [H1 H2 H3]. split.
    + intros class q [Hq|[_ E]]%(arrival_waiting P other _ _ _ _ _ Har Hen); [by eapply H1|congruence].
    + intros pid. rewrite (enqueue_ticket_of _ _ _ _ Hen). apply H2.
    + intros class. rewrite (enqueue_ticket_of _ _ _ _ Hen). apply H3.
Qed.

(** ** Its own calls *)

(** The queue holds a request under the ticket and the notifier. *)
Definition queued_under s : Prop :=
  ∃ class q, q ∈ waiting s class ∧ pr_ticket q = id_ticket ids ∧ pr_waker q = Some waker.

(** The first half of a claim: pending means still in the queue, under the notifier. *)
Lemma own_claim_begin w sampled out s e :
  reachable P authority w → own_watched w →
  claim_begin_section sampled (id_ticket ids) (w_state w) = (out, s, e) →
  match out with
  | ClaimReturns ClaimPending => watched ids waker s ∧ queued_under s
  | ClaimReturns _ => True
  | ClaimProceeds _ => claiming ids s
  end.
Proof.
  intros Hw [_ [H1 H2]] H. destruct (reachable_inv P authority w Htyped Hw) as (B & HI & _).
  pose proof (committed P B (w_state w) HI sampled) as [HI1 _].
  pose proof (commit_time_books sampled (w_state w)) as Hb. unfold claim_begin_section in H.
  destruct (commit_time sampled (w_state w)) as [now s1]. cbn [snd] in *.
  pose proof (inv_custody _ _ _ HI1) as HC.
  assert (∀ class, waiting s1 class = waiting (w_state w) class) as Ew by (intros class; by rewrite Hb).
  assert (∀ t, ticket_of s1 t = ticket_of (w_state w) t) as Et by (intros t; unfold ticket_of; by rewrite Hb).
  destruct (gs_tickets s1 !! id_ticket ids) as [[class|pid|pid|reason|]|] eqn:E; simplify_eq; try done.
  - split.
    + split; [intros k q; rewrite Ew; apply H1|intros pid; rewrite Et; apply H2].
    + assert (custody s (id_ticket ids) = Some (Waits class)) as Hcu by (unfold custody; by rewrite E).
      apply (custody_queued _ _ HC) in Hcu. apply list_elem_of_fmap in Hcu as (q & Eq & Hq).
      exists class, q. split_and!; [done..|]. rewrite Ew in Hq. by eapply H1.
  - destruct (gs_permits s1 !! pid) as [r|] eqn:Hr; simplify_eq; [|done].
    assert (custody s1 (id_ticket ids) = Some (Holds pid)) as Hcu by (unfold custody; by rewrite E).
    split.
    + intros k q Hq Eq. assert (custody s1 (id_ticket ids) = Some (Waits k)); [|congruence].
      apply (custody_queued _ _ HC). rewrite <-Eq. by apply list_elem_of_fmap_2.
    + intros pid'. unfold ticket_of. cbn. by rewrite lookup_insert_eq.
    + intros k. unfold ticket_of. cbn. by rewrite lookup_insert_eq.
  - exfalso. apply (H2 pid). rewrite <-Et. unfold ticket_of. by rewrite E.
Qed.

(** The second half never finds the ticket pending. *)
Lemma own_claim_finish_answers w sampled s :
  own_claiming w → claim_finish_section sampled (id_ticket ids) (w_state w) ≠ (ClaimPending, s).
Proof.
  intros [_ [_ H2 H3]] H. pose proof (commit_time_books sampled (w_state w)) as Hb.
  unfold claim_finish_section in H. destruct (commit_time sampled (w_state w)) as [now s1]. cbn [snd] in *.
  assert (ticket_of s1 (id_ticket ids) = ticket_of (w_state w) (id_ticket ids)) as Et
    by (unfold ticket_of; by rewrite Hb).
  rewrite <-Et in H2, H3. unfold ticket_of in H2, H3.
  destruct (gs_tickets s1 !! id_ticket ids) as [[class|pid|pid|reason|]|]; simplify_eq.
  - by apply (H3 class).
  - by apply (H2 pid).
  - by destruct (gs_permits s1 !! pid).
Qed.

(** Admission queues the request under the notifier it was given. *)
Lemma enqueue_or_full_waker policy class req block now s0 s e e' t :
  enqueue_or_full policy class req (Some waker) ids now block s0 e = Some (Queued t, s, e') →
  (∀ k q, q ∈ waiting s0 k → pr_ticket q ≠ id_ticket ids) →
  watched ids waker s.
Proof.
  unfold enqueue_or_full. case_decide; [done|].
  pose proof (enqueue_tags_books s0 class policy (rc_cpu_units (resolve_cost policy)) now) as H0.
  destruct (enqueue_tags _ _ _ _ _) as [tags s1]. cbn [snd] in H0.
  intros Henq Hno. apply bind_Some in Henq as (s2 & He & ?). simplify_eq.
  assert (∀ r2, (r2 = upd_gs_tickets (insert (id_ticket ids) (TQueued class)) s2 ∨
    r2 = occupy_recursion_guard (ts_root_operation_id (ar_spec req)) (target_stage (ar_spec req))
           (upd_gs_tickets (insert (id_ticket ids) (TQueued class)) s2)) → watched ids waker r2) as Hr.
  { intros r2 Hr2. assert (∀ k, waiting r2 k = waiting s2 k) as Ew by (by intros k; destruct Hr2 as [-> | ->]).
    assert (gs_tickets r2 = <[id_ticket ids := TQueued class]> (gs_tickets s2)) as Et
      by (by destruct Hr2 as [-> | ->]).
    split.
    - intros k q. rewrite Ew, (enqueue_waiting _ _ _ He). unfold upd_queue_of.
      assert (∀ k, waiting s1 k = waiting s0 k) as E1 by (intros k'; by rewrite H0).
      assert (∀ k, q ∈ waiting s1 k → pr_ticket q ≠ id_ticket ids) as Hno1
        by (intros k' Hq; rewrite E1 in Hq; by eapply Hno).
      case_decide; [|intros Hq E; by destruct (Hno1 _ Hq)].
      intros [Hq|Hq%list_elem_of_singleton]%elem_of_app E; [by destruct (Hno1 _ Hq)|].
      rewrite Hq. unfold pending_of. by destruct tags as [[]].
    - intros pid. unfold ticket_of. by rewrite Et, lookup_insert_eq. }
  apply Hr. destruct (is_child _); auto.
Qed.

Lemma admit_block_waker policy now req class degrade block s0 e t s e' :
  (∀ k q, q ∈ waiting s0 k → pr_ticket q ≠ id_ticket ids) →
  (∀ retry_on fallback, degrade = Some retry_on → retry_on fallback = Some (Queued t, s, e') →
     watched ids waker s) →
  admit_block policy now req class (Some waker) ids degrade block s0 e = Some (Queued t, s, e') →
  watched ids waker s.
Proof.
  intros Hno Hd. unfold admit_block, refuse.
  destruct block; try done; try (intros H; by eapply enqueue_or_full_waker);
    try (destruct (is_queueable _); [intros H; by eapply enqueue_or_full_waker|done]).
  destruct (memory_overcommit_policy policy), degrade; try done; eauto using enqueue_or_full_waker.
Qed.

Lemma admit_class_waker hops now req class s0 e t s e' :
  (∀ k q, q ∈ waiting s0 k → pr_ticket q ≠ id_ticket ids) →
  admit_class hops P now req class (Some waker) ids s0 e = Some (Queued t, s, e') → watched ids waker s.
Proof.
  intros Hno. revert class. induction hops as [|hops IH]; intros class; cbn [admit_class]; unfold refuse;
    (destruct (ps_class P class) as [policy|]; [|done]); (destruct (is_disabled policy); [done|]);
    (destruct (has_operation_identity _ _ _); [done|]); (destruct (is_recursive _ _); [done|]);
    (destruct (assess _ _ _ _ _ _ _ _) as [|b|w];
       [apply admit_block_waker; naive_solver|apply admit_block_waker; naive_solver|]).
  - destruct (memory_overcommit_policy policy); by intros (? & _ & ?)%bind_Some.
  - destruct (memory_overcommit_policy policy); [..|destruct (bool_decide _); [eauto|]];
      by intros (? & _ & ?)%bind_Some.
Qed.

Lemma own_admit_watched w out sampled req t s e :
  reachable P authority w → w_outstanding w ≡ₚ ids :: out →
  admit_section P sampled req (Some waker) ids (w_state w) = Some (Queued t, s, e) → watched ids waker s.
Proof.
  intros Hw Hout H. destruct (reachable_ok P authority Htyped w Hw) as [(B & HI & _) _ _ Hf _ _ _].
  destruct (Hf ids) as (_ & Hn & _); [rewrite Hout; by left|].
  pose proof (commit_time_books sampled (w_state w)) as Hb. unfold admit_section in H.
  destruct (commit_time sampled (w_state w)) as [now s1]. cbn [snd] in *. unfold admit_request, refuse in H.
  destruct (gs_admission_closed s1); [done|]. eapply admit_class_waker; [|exact H].
  intros k q Hq E. rewrite Hb in Hq.
  assert (custody (w_state w) (id_ticket ids) = Some (Waits k)) as Hcu.
  { apply (custody_queued _ _ (inv_custody _ _ _ HI)). rewrite <-E. by apply list_elem_of_fmap_2. }
  unfold custody in Hcu. by rewrite Hn in Hcu.
Qed.
End steps.
