(* ===== verification/Health.v ===== *)
(** * The health of the engine between calls

    Its accounting is intact, the memory it has handed out stays within the budget, its
    tables have entries for classes of the policy only, and it still knows how every
    ticket in circulation ended.  A section that does not measure keeps the first two,
    whatever it does otherwise; every section keeps the third; the gate closes only
    when it is told to. *)

From S2P Require Import Prelude Contract Text Kernel Requirements State Assess Fairness Admission.
From S2P Require Import Memory Governor Books Custody Ledger Moves Reads Invariant Steps Selection.
From S2P Require Import Sections Lifecycle Trace System Queues Runs Fifo Consistency Fates Grips.
From S2P Require Import Contracts Gates Refinement Owned Watched.

(** No charge has failed to be represented. *)
Definition calm (s : GovernedState) : Prop := gs_accounting_fault s = None.

(** What is held fits the memory budget, if there is one. *)
Definition within_budget (P : PolicySet) (s : GovernedState) : Prop :=
  max_memory_units (ps_resources P) ≠ 0 →
  gs_memory_units_held s ≤ max_memory_units (ps_resources P).

(** Permits and entries of the class table are of classes of the policy. *)
Record known_classes (P : PolicySet) (s : GovernedState) : Prop := {
  kc_permits pid r : gs_permits s !! pid = Some r → is_Some (ps_class P (rec_class r));
  kc_classes class : is_Some (gs_classes s !! class) → is_Some (ps_class P class);
}.

(** ** The gate *)

Lemma switches_fault s s' : switches s' = switches s → gs_accounting_fault s' = gs_accounting_fault s.
Proof. by intros [= _ _ E _]. Qed.

Lemma measured_closed class root delta s :
  gs_admission_closed (apply_memory_delta class root delta s) = gs_admission_closed s.
Proof.
  unfold apply_memory_delta, record_accounting_fault. case_decide; destruct root; try done;
    destruct (_ || _); try destruct (gs_accounting_fault _); done.
Qed.

Lemma reconcile_closed pid bytes sequence mode scale now s out s' :
  reconcile pid bytes sequence mode scale now s = (out, s') →
  gs_admission_closed s' = gs_admission_closed s.
Proof.
  unfold reconcile. destruct (gs_permits s !! pid) as [r|]; [|by intros [= <- <-]].
  do 2 (case_decide; [by intros [= <- <-]|]).
  destruct (effective_units _ _ _ _) as [err|u]; intros [= <- <-]; [|by rewrite measured_closed].
  unfold record_accounting_fault. by destruct (gs_accounting_fault s).
Qed.

Lemma release_stage_closed pid freed policy sequence now s out s' :
  release_stage_memory pid freed policy sequence now s = (out, s') →
  gs_admission_closed s' = gs_admission_closed s.
Proof.
  unfold release_stage_memory. destruct (negb _); [by intros [= <- <-]|].
  destruct (gs_permits s !! pid) as [r|]; [|by intros [= <- <-]].
  destruct (match sequence with Some _ => _ | None => _ end); intros [= <- <-]; [done|].
  by rewrite measured_closed.
Qed.

Lemma tstep_gate G P s s' :
  ¬ may_close G → tstep_of G P s s' → gs_admission_closed s' = gs_admission_closed s.
Proof.
  intros HG.
  destruct 1 as [sampled|s' [H _]|f|class i r s1 s2 now Hrm [H2 _] Hpred s3 g Hg|class i r s' Hrm|t st|t
    |t reason|t|pid r Hr _|pid r r' Hr Hs _|pid t r Hr Ht _|pid phase nonces out nonces' s' _ H
    |pid bytes sq mode scale now out s' _ H|pid freed policy sq now out s' _ H|what|]; try done.
  - exact (books_closed _ _ H).
  - rewrite (switches_closed _ _ (grant_switches g s3)). change (gs_admission_closed s2 = gs_admission_closed s).
    rewrite (books_closed _ _ H2). by eapply remove_pending_closed.
  - by eapply remove_pending_closed.
  - apply record_terminal_closed.
  - apply forget_terminal_closed.
  - exact (switches_closed _ _ (unwind_charges_switches r pid s)).
  - exact (switches_closed _ _ (advance_switches _ _ _ _ _ _ _ H)).
  - by eapply reconcile_closed.
  - by eapply release_stage_closed.
  - unfold record_accounting_fault. by destruct (gs_accounting_fault s).
Qed.

Lemma trace_gate G P s s' :
  ¬ may_close G → trace_of G P s s' → gs_admission_closed s' = gs_admission_closed s.
Proof.
  intros HG H. induction H as [|s1 s2 s3 Hs _ IH]; [done|]. by rewrite IH, (tstep_gate G P s1 s2).
Qed.

(** ** The accounting *)

Lemma record_terminal_fault t reason s :
  gs_accounting_fault (record_terminal_ticket t reason s) = gs_accounting_fault s.
Proof.
  unfold record_terminal_ticket.
  match goal with |- gs_accounting_fault (evict_terminal ?f ?x) = _ =>
    destruct (evict_terminal_switches f x) as (_ & _ & ->) end.
  by destruct (gs_terminal_index _ !! t).
Qed.

Lemma forget_terminal_fault t s :
  gs_accounting_fault (forget_terminal_ticket t s) = gs_accounting_fault s.
Proof.
  unfold forget_terminal_ticket.
  destruct (gs_terminal_index s !! t); cbn [gs_tickets upd_gs_terminal_order upd_gs_terminal_index];
    by destruct (gs_tickets s !! t) as [[]|].
Qed.

Section accounting.
Context (G : Grip) (P : PolicySet).
Implicit Types s : GovernedState.

Lemma tstep_fault s s' :
  ¬ may_measure G → tstep_of G P s s' → gs_accounting_fault s' = gs_accounting_fault s.
Proof.
  intros HG.
  destruct 1 as [sampled|s' [H _]|f|class i r s1 s2 now Hrm [H2 _] Hpred s3 g Hg|class i r s' Hrm|t st|t
    |t reason|t|pid r Hr _|pid r r' Hr Hs _|pid t r Hr Ht _|pid phase nonces out nonces' s' _ H
    |pid bytes sq mode scale now out s' ? H|pid freed policy sq now out s' ? H|what|]; try done.
  - by rewrite H.
  - rewrite (switches_fault _ _ (grant_switches g s3)). change (gs_accounting_fault s2 = gs_accounting_fault s).
    rewrite H2. by eapply remove_pending_fault.
  - by eapply remove_pending_fault.
  - apply record_terminal_fault.
  - apply forget_terminal_fault.
  - exact (switches_fault _ _ (unwind_charges_switches r pid s)).
  - exact (switches_fault _ _ (advance_switches _ _ _ _ _ _ _ H)).
Qed.

Lemma trace_calm s s' : ¬ may_measure G → trace_of G P s s' → calm s → calm s'.
Proof.
  intros HG. apply trace_keeps. intros s1 s2 Hs. unfold calm. by rewrite (tstep_fault s1 s2).
Qed.

(** A grant takes what fits. *)
Lemma grant_within_budget g s :
  grantable P g s → within_budget P (grant g s).
Proof.
  intros [(policy & Hp & Ec & [_ _ _ Hm _]) _ _] Hb. specialize (Hm Hb).
  destruct (grant_totals g s) as (_ & -> & _).
  unfold wadd. etransitivity; [apply N.Div0.mod_le|done].
Qed.

Lemma tstep_budget s s' :
  ¬ may_measure G → tstep_of G P s s' → within_budget P s → within_budget P s'.
Proof.
  intros HG.
  assert (∀ s s', gs_memory_units_held s' ≤ gs_memory_units_held s → within_budget P s → within_budget P s')
    as Hle by (unfold within_budget; intros; etransitivity; eauto).
  destruct 1 as [sampled|s' [H _]|f|class i r s1 s2 now Hrm [H2 _] Hpred s3 g Hg|class i r s' Hrm|t st|t
    |t reason|t|pid r Hr _|pid r r' Hr Hs _|pid t r Hr _ _|pid phase nonces out nonces' s' _ H
    |pid bytes sq mode scale now out s' ? H|pid freed policy sq now out s' ? H|what|]; try done.
  - apply Hle. by rewrite H.
  - intros _. by apply grant_within_budget.
  - apply Hle. by rewrite (sh_memory _ _ (remove_pending_holdings _ _ _ _ _ Hrm)).
  - apply Hle. by rewrite (sc_memory _ _ (record_terminal_charges _ _ _)).
  - apply Hle. by rewrite (sc_memory _ _ (forget_terminal_charges _ _)).
  - apply Hle. destruct (unwind_charges_totals r pid s) as (_ & -> & _). lia.
  - apply Hle. by apply advance_phase_cases in H as [(_ & _ & _ & ->)|(? & _ & _ & -> & _)].
Qed.

Lemma trace_budget s s' :
  ¬ may_measure G → trace_of G P s s' → within_budget P s → within_budget P s'.
Proof. intros HG. apply trace_keeps. intros s1 s2. by apply tstep_budget. Qed.
End accounting.

(** ** The class table *)

Section classes.
Context (P : PolicySet).
Implicit Types s : GovernedState.

Lemma known_same s s' :
  classes_from P s s' →
  (∀ pid r', gs_permits s' !! pid = Some r' →
     ∃ pid0 r, gs_permits s !! pid0 = Some r ∧ rec_class r' = rec_class r) →
  known_classes P s → known_classes P s'.
Proof.
  intros Hc Hp [H1 H2]. split.
  - intros pid r' (pid0 & r & Hr & ->)%Hp. by eapply H1.
  - intros class [H|H]%Hc; [by apply H2|done].
Qed.

Lemma kept_permits s s' :
  gs_permits s' = gs_permits s →
  ∀ pid r', gs_permits s' !! pid = Some r' →
    ∃ pid0 r, gs_permits s !! pid0 = Some r ∧ rec_class r' = rec_class r.
Proof. intros E pid r'. rewrite E. eauto. Qed.

Lemma classes_eq s s' : gs_classes s' = gs_classes s → classes_from P s s'.
Proof. intros E class. rewrite E. by left. Qed.

Lemma alter_classes s s' class f :
  gs_classes s' = alter f class (gs_classes s) → classes_from P s s'.
Proof. intros E class'. rewrite E, lookup_alter_is_Some. by left. Qed.

Lemma grant_classes g s :
  gs_classes (grant g s) = <[gr_class g := class_charge (gr_cost g) (class_state s (gr_class g))]> (gs_classes s).
Proof. unfold grant. by destruct (is_child _), (gr_pending_ticket g). Qed.

Lemma enqueue_classes r s s' :
  enqueue r s = Some s' → is_Some (ps_class P (pr_class r)) → classes_from P s s'.
Proof.
  unfold enqueue. intros (order & _ & [= <-])%bind_Some Hc class. unfold class_mut. cbn.
  intros [<-|[_ H]]%lookup_insert_is_Some; [by right|by left].
Qed.

Lemma memory_delta_classes class root delta s :
  classes_from P s (apply_memory_delta class root delta s).
Proof.
  unfold apply_memory_delta, record_accounting_fault. case_decide; destruct root;
    try (by eapply alter_classes); destruct (_ || _); try destruct (gs_accounting_fault _);
    by eapply alter_classes.
Qed.

Lemma reconcile_classes pid bytes sequence mode scale now s out s' :
  reconcile pid bytes sequence mode scale now s = (out, s') → classes_from P s s'.
Proof.
  unfold reconcile. destruct (gs_permits s !! pid) as [r|]; [|by intros [= <- <-]].
  do 2 (case_decide; [by intros [= <- <-]|]).
  destruct (effective_units _ _ _ _) as [err|u]; intros [= <- <-].
  - apply classes_eq, record_fault_charges.
  - etransitivity; [|apply memory_delta_classes]. by apply classes_eq.
Qed.

Lemma release_stage_classes pid freed policy sequence now s out s' :
  release_stage_memory pid freed policy sequence now s = (out, s') → classes_from P s s'.
Proof.
  unfold release_stage_memory. destruct (negb _); [by intros [= <- <-]|].
  destruct (gs_permits s !! pid) as [r|]; [|by intros [= <- <-]].
  destruct (match sequence with Some _ => _ | None => _ end); intros [= <- <-]; [done|].
  etransitivity; [|apply memory_delta_classes]. by apply classes_eq.
Qed.

Lemma grant_known g s : grantable P g s → known_classes P s → known_classes P (grant g s).
Proof.
  intros [(policy & Hp & _) _ _] [H1 H2]. split.
  - intros pid r. rewrite grant_permits. intros [[<- <-]|[_ Hr]]%lookup_insert_Some; [by eexists|by eapply H1].
  - intros class. rewrite grant_classes. intros [<-|[_ H]]%lookup_insert_is_Some; [by eexists|by apply H2].
Qed.

Lemma evolved_classes m m' pid r' :
  permits_from m m' → m' !! pid = Some r' → ∃ pid0 r, m !! pid0 = Some r ∧ rec_class r' = rec_class r.
Proof.
  intros H (r & Hr & E)%H. exists pid, r. split; [done|].
  pose proof (ev_key _ _ E) as K. unfold permit_key in K. by injection K.
Qed.

Lemma tstep_known_classes G s s' : tstep_of G P s s' → known_classes P s → known_classes P s'.
Proof.
  intros Hstep HK. pose proof (tstep_permits _ _ _ (tstep_any _ _ _ _ Hstep)) as Hmove.
  assert (classes_from P s s' → gs_permits s' = gs_permits s → known_classes P s') as Hsame.
  { intros Hc E. eapply known_same; [done|by apply kept_permits|done]. }
  assert (classes_from P s s' → permits_from (gs_permits s) (gs_permits s') → known_classes P s') as Hev.
  { intros Hc Hf. eapply known_same; [done|intros; by eapply evolved_classes|done]. }
  destruct Hstep as [sampled|s' [H [_ Hc]]|f|class i r s1 s2 now Hrm [H2 [_ Hc]] Hpred s3 g Hg|class i r s' Hrm|t st|t
    |t reason|t|pid r Hr _|pid r r' Hr Hs _|pid t r Hr Ht _|pid phase nonces out nonces' s' _ H
    |pid bytes sq mode scale now out s' _ H|pid freed policy sq now out s' _ H|what|];
    try (by apply Hsame; [apply classes_eq|]).
  - apply Hsame; [done|by rewrite H].
  - apply grant_known; [done|].
    assert (classes_from P s s2) as Hc2.
    { transitivity s1; [|done]. unfold remove_pending in Hrm. apply bind_Some in Hrm as (c & _ & Hrm).
      apply bind_Some in Hrm as (q & _ & [= _ <-]). by eapply alter_classes. }
    eapply (known_same s); [exact Hc2| |done]. apply kept_permits. cbn. rewrite H2.
    by apply remove_pending_holdings in Hrm as [].
  - apply Hsame; [|by apply remove_pending_holdings in Hrm as []].
    unfold remove_pending in Hrm. apply bind_Some in Hrm as (c & _ & Hrm).
    apply bind_Some in Hrm as (q & _ & [= _ <-]). by eapply alter_classes.
  - apply Hsame; [apply classes_eq|]; apply record_terminal_charges.
  - apply Hsame; [apply classes_eq|]; apply forget_terminal_charges.
  - apply Hev; [|rewrite unwind_charges_permits; apply permits_from_delete].
    unfold unwind_charges. destruct (is_child _); by eapply alter_classes.
  - apply Hev; [by apply classes_eq|]. eapply permits_from_insert; [done|by apply same_permit_evolves].
  - apply Hev; [by apply classes_eq|].
    eapply permits_from_insert; [done|by apply same_permit_evolves, same_permit_pending].
  - apply Hev; [|by eapply advance_permits].
    apply advance_phase_cases in H as [(_ & _ & _ & ->)|(r & Hr & _ & -> & _)]; [by apply classes_eq|].
    apply (classes_from_mut P (upd_gs_permits _ s)). right. by eapply (kc_permits _ _ HK).
  - apply Hev; [by eapply reconcile_classes|by eapply reconcile_permits].
  - apply Hev; [by eapply release_stage_classes|by eapply release_stage_permits].
  - apply Hsame; [apply classes_eq|]; apply record_fault_charges.
Qed.

Lemma trace_known_classes G s s' : trace_of G P s s' → known_classes P s → known_classes P s'.
Proof. apply trace_keeps. intros s1 s2. apply tstep_known_classes. Qed.
End classes.

(** ** Settled tickets are kept for their callers

    A caller that has not asked yet learns how its ticket ended: while no more than
    [MAX_TERMINAL_TICKETS] tickets are in circulation nothing is evicted, and a ticket
    with an entry keeps it until the engine is called with that ticket.  [X] is the set
    of tickets in circulation. *)

(** Every retained record is the latest one of a terminal ticket. *)
Definition records_ok (s : GovernedState) : Prop :=
  ∀ seq t, gs_terminal_order s !! seq = Some t →
    gs_terminal_index s !! t = Some seq ∧ is_terminal (gs_tickets s !! t) = true.

(** Only tickets of [X] are listed or wait. *)
Record circulates (X : gset Ticket) (s : GovernedState) : Prop := {
  ci_listed t : listed s t → t ∈ X;
  ci_waiting class q : q ∈ waiting s class → pr_ticket q ∈ X;
  ci_records : records_ok s;
}.

Definition few (X : gset Ticket) : Prop := N.of_nat (size X) ≤ MAX_TERMINAL_TICKETS.

Lemma circulates_mono X Y s : X ⊆ Y → circulates X s → circulates Y s.
Proof. intros H [H1 H2 H3]. split; [..|done]; intros; apply H; eauto. Qed.

(** ** Nothing is evicted *)

Lemma retained_few (X : gset Ticket) s :
  (∀ t, listed s t → t ∈ X) → records_ok s → (size (gs_terminal_order s) ≤ size X)%nat.
Proof.
  intros Hl Hr. set (tickets := (map_to_list (gs_terminal_order s)).*2).
  assert (size (gs_terminal_order s) = size (list_to_set tickets : gset Ticket)) as ->.
  - rewrite size_list_to_set.
    + unfold tickets. by rewrite length_fmap, length_map_to_list.
    + apply NoDup_fmap_2_strong; [|apply NoDup_map_to_list].
      intros [q1 t1] [q2 t2] H1%elem_of_map_to_list H2%elem_of_map_to_list E. cbn in E. subst.
      apply Hr in H1 as [H1 _]. apply Hr in H2 as [H2 _]. congruence.
  - apply subseteq_size. intros t Hin. apply elem_of_list_to_set in Hin.
    apply list_elem_of_fmap in Hin as ([seq t'] & -> & Hin%elem_of_map_to_list).
    apply Hl. unfold listed. apply Hr in Hin as [_ Hin]. unfold is_terminal in Hin. cbn.
    destruct (gs_tickets s !! t'); [by eexists|done].
Qed.

Lemma evict_nothing fuel s :
  N.of_nat (size (gs_terminal_order s)) ≤ MAX_TERMINAL_TICKETS → evict_terminal fuel s = s.
Proof. intros H. destruct fuel; [done|]. cbn. by rewrite decide_True. Qed.

(** The state a terminal record is written in, before the eviction loop. *)
Definition recorded (t : Ticket) (reason : TerminalReason) (s : GovernedState) : GovernedState :=
  let s := upd_gs_tickets (insert t (TTerminal reason)) s in
  let s := match gs_terminal_index s !! t with
           | Some previous =>
             upd_gs_terminal_order (delete previous) (upd_gs_terminal_index (delete t) s)
           | None => s
           end in
  let seq := gs_terminal_seq s in
  let s := upd_gs_terminal_seq (λ n, wadd U64_MAX n 1) s in
  upd_gs_terminal_index (insert t seq) (upd_gs_terminal_order (insert seq t) s).

Lemma recorded_fields t reason s :
  let seq := gs_terminal_seq s in
  let order := match gs_terminal_index s !! t with
               | Some previous => delete previous (gs_terminal_order s)
               | None => gs_terminal_order s end in
  gs_tickets (recorded t reason s) = <[t := TTerminal reason]> (gs_tickets s) ∧
  gs_terminal_order (recorded t reason s) = <[seq := t]> order ∧
  gs_terminal_index (recorded t reason s) = <[t := seq]> (gs_terminal_index s).
Proof.
  unfold recorded. cbn. destruct (gs_terminal_index s !! t) as [p|]; cbn; split_and!; try done.
  by rewrite insert_delete_eq.
Qed.

Lemma recorded_records t reason s : records_ok s → records_ok (recorded t reason s).
Proof.
  intros Hr. destruct (recorded_fields t reason s) as (E1 & E2 & E3).
  intros seq t'. rewrite E1, E2, E3. intros [[<- <-]|[Hne H]]%lookup_insert_Some.
  { by rewrite !lookup_insert_eq. }
  assert (gs_terminal_order s !! seq = Some t' ∧ t' ≠ t) as [Ho Ht].
  { destruct (gs_terminal_index s !! t) as [p|] eqn:E.
    - apply lookup_delete_Some in H as [Hp H]. split; [done|]. intros ->.
      apply Hr in H as [H _]. congruence.
    - split; [done|]. intros ->. apply Hr in H as [H _]. congruence. }
  rewrite !lookup_insert_ne by done. by apply Hr.
Qed.

(** A terminal record in a small circulation is written and nothing else happens. *)
Lemma record_terminal_few X t reason s :
  few X → circulates X s → listed s t → record_terminal_ticket t reason s = recorded t reason s.
Proof.
  intros HX [Hl _ Hr] Ht. destruct (recorded_fields t reason s) as (E1 & _ & _).
  change (record_terminal_ticket t reason s) with
    (evict_terminal (size (gs_terminal_order (recorded t reason s))) (recorded t reason s)).
  apply evict_nothing. etransitivity; [|exact HX].
  enough (size (gs_terminal_order (recorded t reason s)) ≤ size X)%nat by lia.
  apply retained_few; [|by apply recorded_records]. intros t'. unfold listed. rewrite E1.
  intros [->|[_ H]]%lookup_insert_is_Some; by apply Hl.
Qed.

Lemma forget_fields t s :
  gs_terminal_order (forget_terminal_ticket t s) =
    match gs_terminal_index s !! t with
    | Some seq => delete seq (gs_terminal_order s) | None => gs_terminal_order s end ∧
  gs_terminal_index (forget_terminal_ticket t s) = delete t (gs_terminal_index s) ∧
  gs_tickets (forget_terminal_ticket t s) =
    match gs_tickets s !! t with
    | Some (TTerminal _) | Some TFaulted => delete t (gs_tickets s) | _ => gs_tickets s end.
Proof.
  unfold forget_terminal_ticket.
  destruct (gs_terminal_index s !! t) as [seq|] eqn:E; cbn;
    destruct (gs_tickets s !! t) as [[]|]; cbn; rewrite ?(delete_id (gs_terminal_index s)) by done; done.
Qed.

(** ** Primitive transitions *)

Lemma remove_pending_records class i s r s' :
  remove_pending class i s = Some (r, s') → records s' = records s.
Proof.
  unfold remove_pending. intros H. apply bind_Some in H as (? & _ & H).
  apply bind_Some in H as (? & _ & H). by simplify_eq.
Qed.

Lemma enqueue_records r s1 s2 : enqueue r s1 = Some s2 → records s2 = records s1.
Proof. unfold enqueue. intros H. apply bind_Some in H as (? & _ & H). by simplify_eq. Qed.

Lemma grant_records g s :
  records (grant g s) =
    (match gr_pending_ticket g with
     | Some t => <[t := TGranted (gr_permit_id g)]> (gs_tickets s)
     | None => gs_tickets s
     end, gs_terminal_order s, gs_terminal_index s, gs_terminal_seq s).
Proof. unfold grant, records. by destruct (is_child _), (gr_pending_ticket g). Qed.

Section steps.
Context (G : Grip) (P : PolicySet) (X : gset Ticket) (HX : few X).
Implicit Types s : GovernedState.

(** The transitions that leave the table and the terminal records alone. *)
Lemma circulates_same s s' :
  records s' = records s → dequeues s s' → circulates X s → circulates X s'.
Proof.
  intros [= E1 E2 E3 _] Hd [H1 H2 H3]. split.
  - intros t. unfold listed. rewrite E1. apply H1.
  - intros class q Hq. by eapply H2, dequeues_elem.
  - intros seq t. rewrite E1, E2, E3. apply H3.
Qed.

(** A ticket that is no terminal one is written. *)
Lemma circulates_ticket s s' t st :
  is_terminal (gs_tickets s !! t) = false → t ∈ X →
  records s' = (partial_alter (λ _, st) t (gs_tickets s), gs_terminal_order s, gs_terminal_index s, gs_terminal_seq s) →
  dequeues s s' → circulates X s → circulates X s'.
Proof.
  intros Ht HtX [= E1 E2 E3 _] Hd [H1 H2 H3]. split.
  - intros t'. unfold listed. rewrite E1. destruct (decide (t' = t)) as [->|Hne]; [done|].
    rewrite lookup_partial_alter_ne by done. apply H1.
  - intros class q Hq. by eapply H2, dequeues_elem.
  - intros seq t'. rewrite E1, E2, E3. intros H. destruct (H3 _ _ H) as [Hi Hx]. split; [done|].
    destruct (decide (t' = t)) as [->|Hne]; [congruence|]. by rewrite lookup_partial_alter_ne.
Qed.

Lemma circulates_recorded s t reason :
  listed s t → circulates X s → circulates X (recorded t reason s).
Proof.
  intros Ht [H1 H2 H3]. destruct (recorded_fields t reason s) as (E1 & _ & _). split.
  - intros t'. unfold listed. rewrite E1. intros [->|[_ H]]%lookup_insert_is_Some; by apply H1.
  - intros class q. replace (waiting (recorded t reason s) class) with (waiting s class); [apply H2|].
    unfold recorded. by destruct (gs_terminal_index _ !! t).
  - by apply recorded_records.
Qed.

Lemma circulates_forget s t : circulates X s → circulates X (forget_terminal_ticket t s).
Proof.
  intros [H1 H2 H3]. destruct (forget_fields t s) as (E1 & E2 & E3). split.
  - intros t'. unfold listed. rewrite E3. intros H. apply H1. unfold listed.
    destruct (gs_tickets s !! t) as [[]|] eqn:E; try done;
      (destruct (decide (t' = t)) as [->|]; [by rewrite lookup_delete_eq in H; destruct H|];
       by rewrite lookup_delete_ne in H).
  - intros class q. rewrite (same_queues_waiting _ _ _ (forget_terminal_queues t s)). apply H2.
  - intros seq t'. rewrite E1, E2, E3. intros H.
    assert (gs_terminal_order s !! seq = Some t' ∧ t' ≠ t) as [Ho Hne].
    { destruct (gs_terminal_index s !! t) as [p|] eqn:E.
      - apply lookup_delete_Some in H as [Hp H]. split; [done|]. intros ->. apply H3 in H as [? _]. congruence.
      - split; [done|]. intros ->. apply H3 in H as [? _]. congruence. }
    destruct (H3 _ _ Ho) as [Hi Hx]. rewrite lookup_delete_ne by done. split; [done|].
    destruct (gs_tickets s !! t) as [[]|]; try done; by rewrite lookup_delete_ne.
Qed.

(** What circulates keeps circulating, and an entry is given up only by a call with
    its ticket. *)
Lemma tstep_circulates s s' :
  tstep_of G P s s' → circulates X s →
  circulates X s' ∧ ∀ t, ¬ may_forget G t → listed s t → listed s' t.
Proof.
  intros Hstep HX'. pose proof (tstep_dequeues _ _ _ (tstep_any _ _ _ _ Hstep)) as Hd.
  assert (records s' = records s → circulates X s' ∧
    ∀ t, ¬ may_forget G t → listed s t → listed s' t) as Hsame.
  { intros E. split; [by eapply circulates_same|]. intros t _. unfold listed.
    by rewrite (records_tickets _ _ E). }
  pose proof HX' as [H1 H2 H3].
  destruct Hstep as [sampled|s' [H _]|f|class i r s1 s2 now Hrm [H21 _] Hpred s3 g Hg HL Hnt|class i r s' Hrm|t st Hnt Hok|t Hnt HF
    |t reason Ht|t HF|pid r Hr _|pid r r' Hr Hs Hp|pid t r Hr Ht HG|pid phase nonces out nonces' s' HG H
    |pid bytes sq mode scale now out s' _ H|pid freed policy sq now out s' _ H|what|];
    try (by apply Hsame).
  - apply Hsame. exact (f_equal records (proj1 H)).
  - pose proof (remove_pending_waiting _ _ _ _ _ Hrm) as [Hi _].
    assert (pr_ticket r ∈ X) as HrX by (by eapply (H2 class (untag r)), list_elem_of_lookup_2).
    assert (records s2 = records s) as E2.
    { transitivity (records s1); [exact (f_equal records (proj1 H21))|]. by eapply remove_pending_records. }
    assert (records (grant g s3) = (partial_alter (λ _, Some (TGranted (pr_permit_id r)))
      (pr_ticket r) (gs_tickets s), gs_terminal_order s, gs_terminal_index s, gs_terminal_seq s)) as E.
    { rewrite grant_records. cbn. injection E2 as -> -> -> ->. by rewrite insert_delete_eq. }
    split; [by eapply circulates_ticket|]. intros t _ Ht. unfold listed.
    pose proof (f_equal (λ x, x.1.1.1) E) as E1. change (gs_tickets (grant g s3) =
      <[pr_ticket r := TGranted (pr_permit_id r)]> (gs_tickets s)) in E1. rewrite E1.
    apply lookup_insert_is_Some'. by right.
  - apply Hsame. by eapply remove_pending_records.
  - assert (t ∈ X) as HtX.
    { destruct st; cbn in Hok; try done.
      - destruct Hok as (q & Hq & <-). by eapply H2.
      - by apply H1, open_listed, Hok.
      - by apply H1. }
    split; [by apply (circulates_ticket s _ t (Some st))|]. intros t' _ Ht'.
    apply lookup_insert_is_Some'. by right.
  - split.
    + destruct (gs_tickets s !! t) as [st|] eqn:E.
      * apply (circulates_ticket s _ t None); [by rewrite E| |done..]. apply H1. unfold listed. by rewrite E.
      * eapply circulates_same; [|done..]. unfold records. cbn. by rewrite delete_id.
    + intros t' HF' Ht'. unfold listed. cbn. rewrite lookup_delete_ne; [done|]. by intros ->.
  - apply open_listed in Ht. erewrite record_terminal_few by done. split; [by apply circulates_recorded|].
    intros t' _ Ht'. destruct (recorded_fields t reason s) as (E & _ & _). unfold listed. rewrite E.
    apply lookup_insert_is_Some'. by right.
  - split; [by apply circulates_forget|]. intros t' HF' Ht'.
    destruct (forget_fields t s) as (_ & _ & E). unfold listed. rewrite E.
    destruct (gs_tickets s !! t) as [[]|]; try done; (rewrite lookup_delete_ne; [done|]; by intros ->).
  - apply Hsame. unfold unwind_charges. by destruct (is_child _).
  - apply Hsame. by apply advance_phase_cases in H as [(_ & _ & _ & ->)|(? & _ & _ & -> & _)].
  - apply Hsame. by eapply reconcile_records.
  - apply Hsame. by eapply release_stage_records.
  - apply Hsame, fault_records.
Qed.

Lemma trace_circulates s s' :
  trace_of G P s s' → circulates X s →
  circulates X s' ∧ ∀ t, ¬ may_forget G t → listed s t → listed s' t.
Proof.
  intros H. induction H as [|s1 s2 s3 Hs _ IH]; [done|]. intros H1.
  destruct (tstep_circulates _ _ Hs H1) as [H2 L2]. destruct (IH H2) as [H3 L3]. split; [done|]. eauto.
Qed.
End steps.
