(* ===== verification/Retained.v ===== *)
(** * What the engine retains for its callers

    A settled ticket is kept as a terminal entry of the ticket table until its caller
    asks, or until it is evicted.  The order of eviction and its reverse index list
    exactly those entries: each ticket is settled at most once, so the 64-bit sequence
    that orders them never repeats, and an eviction takes the entry with it. *)

From S2P Require Import Prelude Contract Text Kernel State Assess Fairness Admission Memory.
From S2P Require Import Requirements Books Custody Ledger Moves Reads Invariant Governor Steps Selection.
From S2P Require Import Sections Lifecycle Trace System Queues Runs Fifo Consistency.
From S2P Require Import Fates Grips Contracts Gates Owned Watched Health.

(** ** The terminal entries and their index *)

Record tombs_ok (s : GovernedState) : Prop := {
  tb_order seq t : gs_terminal_order s !! seq = Some t ↔ gs_terminal_index s !! t = Some seq;
  tb_seq seq t : gs_terminal_order s !! seq = Some t → seq < gs_terminal_seq s;
  tb_terminal t : is_Some (gs_terminal_index s !! t) ↔ is_terminal (gs_tickets s !! t) = true;
}.

Lemma tombs_same s s' : records s' = records s → tombs_ok s → tombs_ok s'.
Proof. intros [= E1 E2 E3 E4] [H1 H2 H3]. split; rewrite ?E1, ?E2, ?E3, ?E4; done. Qed.

Lemma tombs_open s t :
  tombs_ok s → is_terminal (gs_tickets s !! t) = false →
  gs_terminal_index s !! t = None ∧ ∀ seq, gs_terminal_order s !! seq ≠ Some t.
Proof.
  intros H Ht. assert (gs_terminal_index s !! t = None) as E.
  { apply eq_None_not_Some. intros Hs. apply (tb_terminal _ H) in Hs. congruence. }
  split; [done|]. intros seq Ho. apply (tb_order _ H) in Ho. congruence.
Qed.

(** A ticket that is not settled is written, and stays so. *)
Lemma tombs_ticket s s' t st :
  is_terminal (gs_tickets s !! t) = false → is_terminal st = false →
  records s' = (partial_alter (λ _, st) t (gs_tickets s), gs_terminal_order s, gs_terminal_index s,
                gs_terminal_seq s) →
  tombs_ok s → tombs_ok s'.
Proof.
  intros Ht Hst [= E1 E2 E3 E4] H. pose proof (tombs_open s t H Ht) as [Hi _]. destruct H as [H1 H2 H3].
  split; rewrite ?E2, ?E3, ?E4; [done..|]. intros x. rewrite E1.
  destruct (decide (x = t)) as [->|Hne]; [|by rewrite lookup_partial_alter_ne].
  rewrite lookup_partial_alter_eq, Hi, Hst. split; [by intros [? ?]|done].
Qed.

Lemma recorded_seq t reason s : gs_terminal_seq (recorded t reason s) = wadd U64_MAX (gs_terminal_seq s) 1.
Proof. unfold recorded. cbn. by destruct (gs_terminal_index s !! t). Qed.

Lemma tombs_recorded t reason s :
  is_terminal (gs_tickets s !! t) = false → gs_terminal_seq s + 1 ≤ U64_MAX → tombs_ok s →
  tombs_ok (recorded t reason s).
Proof.
  intros Ht Hseq H. destruct (tombs_open s t H Ht) as [Hi Ho]. destruct H as [H1 H2 H3].
  destruct (recorded_fields t reason s) as (E1 & E2 & E3). cbn zeta in E2. rewrite Hi in E2.
  split.
  - intros q x. rewrite E2, E3. rewrite !lookup_insert_Some. split.
    + intros [[<- <-]|[Hq Hx]]; [by left|right]. split; [by intros <-; eapply Ho|by apply H1].
    + intros [[<- <-]|[Hx Hq]]; [by left|right]. apply H1 in Hq. split; [|done].
      intros <-. apply H2 in Hq. lia.
  - intros q x. rewrite E2, recorded_seq, wadd_small by done. intros [[<- _]|[_ Hq]]%lookup_insert_Some; [lia|].
    apply H2 in Hq. lia.
  - intros x. rewrite E1, E3. destruct (decide (x = t)) as [->|Hne].
    + rewrite !lookup_insert_eq. split; [done|by eexists].
    + by rewrite !lookup_insert_ne.
Qed.

(** Dropping an entry of the order, of the index and of the table. *)
Lemma tombs_dropped s s' seq t :
  gs_terminal_order s !! seq = Some t →
  gs_terminal_order s' = delete seq (gs_terminal_order s) →
  gs_terminal_index s' = delete t (gs_terminal_index s) → gs_tickets s' = delete t (gs_tickets s) →
  gs_terminal_seq s' = gs_terminal_seq s → tombs_ok s → tombs_ok s'.
Proof.
  intros Ho E1 E2 E3 E4 [H1 H2 H3]. pose proof (proj1 (H1 _ _) Ho) as Hi. split.
  - intros q x. rewrite E1, E2, !lookup_delete_Some, <-H1. split; intros [Hne Hq]; (split; [|done]).
    + intros <-. apply H1 in Hq. congruence.
    + intros <-. congruence.
  - intros q x. rewrite E1, E4. intros [_ Hq]%lookup_delete_Some. by eapply H2.
  - intros x. rewrite E2, E3. destruct (decide (x = t)) as [->|Hne].
    + rewrite !lookup_delete_eq. split; [by intros [? ?]|done].
    + by rewrite !lookup_delete_ne.
Qed.

Lemma tombs_evict fuel s :
  tombs_ok s → tombs_ok (evict_terminal fuel s) ∧
  gs_terminal_seq (evict_terminal fuel s) = gs_terminal_seq s.
Proof.
  revert s. induction fuel as [|fuel IH]; intros s H; cbn [evict_terminal]; [done|].
  case_decide; [done|]. destruct (btree_first _) as [[seq t]|] eqn:E; [|done].
  apply btree_first_Some in E as [Ho _].
  assert (is_terminal (gs_tickets s !! t) = true) as Ht.
  { apply (tb_terminal _ H). apply (tb_order _ H) in Ho. by eexists. }
  cbn [gs_tickets upd_gs_terminal_index upd_gs_terminal_order].
  destruct (gs_tickets s !! t) as [[]|]; try done.
  match goal with |- tombs_ok (evict_terminal _ ?x) ∧ _ => destruct (IH x) as [IH1 IH2] end.
  - by eapply (tombs_dropped s).
  - split; [done|]. by rewrite IH2.
Qed.

Lemma tombs_terminal t reason s :
  is_terminal (gs_tickets s !! t) = false → gs_terminal_seq s + 1 ≤ U64_MAX → tombs_ok s →
  tombs_ok (record_terminal_ticket t reason s) ∧
  gs_terminal_seq (record_terminal_ticket t reason s) = gs_terminal_seq s + 1.
Proof.
  intros Ht Hseq H.
  change (record_terminal_ticket t reason s) with
    (evict_terminal (size (gs_terminal_order (recorded t reason s))) (recorded t reason s)).
  destruct (tombs_evict (size (gs_terminal_order (recorded t reason s))) (recorded t reason s)) as [H1 H2].
  { by apply tombs_recorded. }
  split; [done|]. by rewrite H2, recorded_seq, wadd_small.
Qed.

Lemma forget_seq t s : gs_terminal_seq (forget_terminal_ticket t s) = gs_terminal_seq s.
Proof.
  unfold forget_terminal_ticket. destruct (gs_terminal_index s !! t);
    cbn [gs_tickets upd_gs_terminal_order upd_gs_terminal_index]; by destruct (gs_tickets s !! t) as [[]|].
Qed.

Lemma tombs_forget t s : tombs_ok s → tombs_ok (forget_terminal_ticket t s).
Proof.
  intros H. destruct (forget_fields t s) as (E1 & E2 & E3). pose proof (forget_seq t s) as E4.
  destruct (gs_terminal_index s !! t) as [seq|] eqn:Hi.
  - assert (is_terminal (gs_tickets s !! t) = true) as Ht by (apply (tb_terminal _ H); by eexists).
    eapply (tombs_dropped s _ seq t); [by apply (tb_order _ H)|done|done| |done|done].
    rewrite E3. by destruct (gs_tickets s !! t) as [[]|].
  - assert (is_terminal (gs_tickets s !! t) = false) as Ht.
    { apply not_true_is_false. intros Ht. apply (tb_terminal _ H) in Ht as [? ?]. congruence. }
    rewrite delete_id in E2 by done.
    destruct (gs_tickets s !! t) as [[]|] eqn:Et; try done;
      first [by apply (tombs_same s); [unfold records; rewrite E1, E2, E3, E4|]
            |eapply (tombs_ticket s _ t None); [by rewrite Et|done| |done]; unfold records;
             by rewrite E1, E2, E3, E4].
Qed.

(** ** A ticket is settled at most once *)

(** Tickets that may still be settled: the live ones, and those requests are queued
    under. *)
Definition unsettled (s : GovernedState) (t : Ticket) : Prop :=
  is_Some (ticket_of s t) ∨ ∃ class q, q ∈ waiting s class ∧ pr_ticket q = t.

(** At most [n] tickets have been settled or may still be. *)
Record kept (n : N) (s : GovernedState) : Prop := {
  kp_tombs : tombs_ok s;
  kp_open : ∃ A : gset Ticket, (∀ t, unsettled s t → t ∈ A) ∧
    gs_terminal_seq s + N.of_nat (size A) ≤ n;
}.

Lemma kept_le n s s' :
  tombs_ok s' → gs_terminal_seq s' = gs_terminal_seq s →
  (∀ t, unsettled s' t → unsettled s t) → kept n s → kept n s'.
Proof.
  intros Ht E Hu [_ (A & HA & Hn)]. split; [done|]. exists A. rewrite E. split; [eauto|done].
Qed.

(** No transition but an arrival makes a ticket that may be settled. *)
Lemma tstep_unsettled G P s s' t : tstep_of G P s s' → unsettled s' t → unsettled s t.
Proof.
  intros Hs [Ht|(class & q & Hq & <-)].
  - pose proof (tstep_ticket _ _ _ _ t Hs) as Hstep. revert Ht.
    destruct Hstep as [| |st Hok|class q pid Hq <-]; [by left|by intros [? ?]| |by right; eauto].
    destruct st as [class|pid|pid|reason|]; cbn in Hok |- *; try done; try (by intros [? ?]).
    + destruct Hok as (q & Hq & <-). right. eauto.
    + intros _. left. apply Hok.
  - right. exists class, q. split; [|done].
    eapply dequeues_elem; [by eapply tstep_dequeues, tstep_any|done].
Qed.

Section steps.
Context (P : PolicySet) (n : N) (Hn : n ≤ U64_MAX).
Implicit Types s : GovernedState.

Lemma kept_terminal s t reason :
  open_entry s t → unqueued s t → kept n s → kept n (record_terminal_ticket t reason s).
Proof.
  intros Ht Hu [Hb (A & HA & HAn)].
  assert (t ∈ A) as HtA by (apply HA; by left).
  assert (size A = S (size (A ∖ {[t]}))) as Hsz.
  { rewrite size_difference by set_solver. rewrite size_singleton.
    assert (size A ≠ 0%nat); [|lia]. intros E. apply size_empty_inv in E. set_solver. }
  destruct (tombs_terminal t reason s (open_not_terminal _ _ Ht)) as [H1 H2]; [lia|done|].
  split; [done|]. exists (A ∖ {[t]}). split; [|rewrite H2; lia].
  intros x Hx. apply elem_of_difference. split.
  - apply HA. eapply (tstep_unsettled any P); [|exact Hx]. by apply t_terminal.
  - intros ->%elem_of_singleton. destruct Hx as [Hx|(class & q & Hq & E)].
    + rewrite record_terminal_ticket_of, decide_True in Hx by done. by destruct Hx.
    + rewrite (same_queues_waiting _ _ class (record_terminal_queues t reason s)) in Hq. by eapply Hu.
Qed.

Lemma tstep_kept s s' : tstep P s s' → kept n s → kept n s'.
Proof.
  intros Hs Hk. pose proof (λ t, tstep_unsettled _ _ _ _ t Hs) as Hu. pose proof (kp_tombs _ _ Hk) as Hb.
  assert (records s' = records s → kept n s') as Hsame.
  { intros E. apply (kept_le n s); [by eapply tombs_same|by injection E|done..]. }
  assert (∀ t st, is_terminal (gs_tickets s !! t) = false → is_terminal st = false →
    records s' = (partial_alter (λ _, st) t (gs_tickets s), gs_terminal_order s, gs_terminal_index s,
                  gs_terminal_seq s) → kept n s') as Hticket.
  { intros t st H1 H2 E. apply (kept_le n s); [by eapply tombs_ticket|by injection E|done..]. }
  destruct Hs as [sampled|s' [H _]|f|class i r s1 s2 now Hrm [H21 _] Hpred s3 g Hg HL Hnt|class i r s' Hrm
    |t st Hnt Hok|t Hnt HF|t reason Ht Hq|t HF|pid r Hr _|pid r r' Hr _ Hp|pid t r Hr Ht _
    |pid phase nonces out nonces' s' _ H|pid bytes sq mode scale now out s' _ H
    |pid freed policy sq now out s' _ H|what|];
    try (by apply Hsame).
  - apply Hsame. exact (f_equal records (proj1 H)).
  - assert (records s2 = records s) as [= E1 E2 E3 E4].
    { transitivity (records s1); [exact (f_equal records (proj1 H21))|]. by eapply remove_pending_records. }
    apply (Hticket (pr_ticket r) (Some (TGranted (pr_permit_id r)))); [done|done|].
    rewrite grant_records. cbn. by rewrite E1, E2, E3, E4, insert_delete_eq.
  - apply Hsame. by eapply remove_pending_records.
  - apply (Hticket t (Some st)); [done| |done]. by destruct st.
  - by apply (Hticket t None).
  - by apply kept_terminal.
  - apply (kept_le n s); [by apply tombs_forget|apply forget_seq|done..].
  - apply Hsame. unfold unwind_charges. by destruct (is_child _).
  - apply Hsame. by apply advance_phase_cases in H as [(_ & _ & _ & ->)|(? & _ & _ & -> & _)].
  - apply Hsame. by eapply reconcile_records.
  - apply Hsame. by eapply release_stage_records.
  - apply Hsame, fault_records.
Qed.

Lemma trace_kept s s' : trace P s s' → kept n s → kept n s'.
Proof. apply trace_keeps, tstep_kept. Qed.
End steps.

(** An arrival brings one ticket that may be settled. *)
Lemma enqueue_kept P ids n r s s' :
  arrival P ids r s → enqueue r s = Some s' → kept n s → kept (n + 1) s'.
Proof.
  intros Har Hen [Hb (A & HA & Hn)]. pose proof (enqueue_records _ _ _ Hen) as E.
  split; [by eapply tombs_same|]. pose proof E as [= E1 _ _ E4]. exists ({[pr_ticket r]} ∪ A). split.
  - intros t Ht. apply elem_of_union. destruct Ht as [Ht|(class & q & Hq & <-)].
    + right. apply HA. left. unfold ticket_of in *. by rewrite E1 in Ht.
    + rewrite (enqueue_waiting _ _ _ Hen) in Hq. unfold upd_queue_of in Hq. case_decide.
      * apply elem_of_app in Hq as [Hq|Hq%list_elem_of_singleton]; [|left; subst q; by apply elem_of_singleton].
        right. apply HA. right. eauto.
      * right. apply HA. right. eauto.
  - rewrite E4. pose proof (size_union_alt {[pr_ticket r]} A) as Hsz. rewrite Hsz, size_singleton.
    assert (size (A ∖ {[pr_ticket r]}) ≤ size A)%nat by (apply subseteq_size; set_solver). lia.
Qed.

(** ** In every run *)

Lemma reachable_kept P authority w :
  policies_typed P → reachable P authority w →
  ∃ n, kept n (w_state w) ∧ n + N.of_nat (length (w_outstanding w)) < next_permit (w_counters w).
Proof.
  intros Ht Hw. revert w Hw. apply reachable_effects; [done| |].
  - exists 0. split; [|by vm_compute]. split.
    + assert (∀ seq, gs_terminal_order GovernedState_default !! seq = None) as E1 by (intros; apply lookup_empty).
      assert (∀ t, gs_terminal_index GovernedState_default !! t = None) as E2 by (intros; apply lookup_empty).
      assert (∀ t, gs_tickets GovernedState_default !! t = None) as E3 by (intros; apply lookup_empty).
      split; intros *; cbn [w_state World_initial]; rewrite ?E1, ?E2, ?E3;
        [done|done|split; [by intros [? ?]|done]].
    + exists ∅. split; [|done]. intros t [[st H]|(class & q & H & _)].
      * assert (gs_tickets GovernedState_default !! t = None) as E by apply lookup_empty.
        unfold ticket_of in H. cbn [w_state World_initial] in H. by rewrite E in H.
      * by apply not_elem_of_nil in H.
  - intros w w' Hok (n & Hk & Hlt) Heff.
    destruct (world_inv _ _ Hok) as (_ & _ & _ & Hmax).
    destruct Heff as [issued E Hf Eo|Hs _ Ek Eo|ids sampled Eo Ek _ Ha _ _].
    + exists n. rewrite E. split; [done|]. destruct (fresh_ids_cases _ _ _ _ Hf) as (Hle & _ & _ & Hi).
      rewrite Eo. destruct issued as [ids|]; simpl; [|lia].
      destruct (Hi ids eq_refl) as (-> & _). lia.
    + exists n. rewrite Ek, Eo. split; [|done]. eapply (trace_kept P n); [lia|done..].
    + exists (n + 1). apply Permutation_length in Eo. cbn in Eo. rewrite Ek. split; [|lia].
      assert (kept n (commit_time sampled (w_state w)).2) as Hk1
        by (eapply (tstep_kept P n); [lia|apply t_clock|done]).
      assert (∀ s, kept n s → kept (n + 1) s) as Hup.
      { intros s [Hb (A & HA & HAn)]. split; [done|]. exists A. split; [done|lia]. }
      destruct Ha as [Hs|g _ _ _ Hp _ E|s1 r s2 _ H1 Har Hen Hs].
      * apply Hup. eapply (trace_kept P n); [lia|done..].
      * apply Hup. rewrite E.
        assert (records (grant g (commit_time sampled (w_state w)).2) =
          records (commit_time sampled (w_state w)).2) as Er by (rewrite grant_records; by rewrite Hp).
        apply (kept_le n (commit_time sampled (w_state w)).2); [|exact (f_equal snd Er)| |done].
        -- eapply tombs_same; [done|apply Hk1].
        -- intros t [Htk|(class & q & Hq & <-)].
           ++ left. pose proof (records_tickets _ _ Er) as Et. unfold ticket_of in *. by rewrite Et in Htk.
           ++ right. rewrite grant_waiting in Hq. eauto.
      * eapply (trace_kept P (n + 1)); [lia|done|]. eapply enqueue_kept; [done|done|].
        eapply (tstep_kept P n); [lia|by apply t_tags|done].
Qed.

(** The entries kept for callers whose tickets are settled. *)
Definition tombstones (s : GovernedState) : gmap Ticket TicketState :=
  filter (λ e, is_terminal (Some e.2) = true) (gs_tickets s).

(** The order of eviction lists each of them once. *)
Lemma tombs_count s : tombs_ok s → size (gs_terminal_order s) = size (tombstones s).
Proof.
  intros [H1 _ H3]. set (tickets := (map_to_list (gs_terminal_order s)).*2).
  assert (NoDup tickets) as Hnd.
  { apply NoDup_fmap_2_strong; [|apply NoDup_map_to_list].
    intros [q1 t1] [q2 t2] E1%elem_of_map_to_list E2%elem_of_map_to_list E. cbn in E. subst t2.
    apply H1 in E1, E2. congruence. }
  assert (dom (tombstones s) = (list_to_set tickets : gset Ticket)) as E.
  { apply set_eq. intros t. rewrite elem_of_dom, elem_of_list_to_set. unfold tickets, tombstones.
    rewrite list_elem_of_fmap. transitivity (is_Some (gs_terminal_index s !! t)).
    - rewrite H3. split.
      + intros [st [E Ht]%map_lookup_filter_Some]. by rewrite E.
      + intros Ht. destruct (gs_tickets s !! t) as [st|] eqn:E; [|done].
        exists st. by apply map_lookup_filter_Some.
    - split.
      + intros [q Hq]. exists (q, t). split; [done|]. by apply elem_of_map_to_list, H1.
      + intros ([q t'] & -> & Hq%elem_of_map_to_list). exists q. by apply H1. }
  rewrite <-(size_dom (tombstones s)), E, size_list_to_set by done.
  unfold tickets. by rewrite length_fmap, length_map_to_list.
Qed.

(** C33: what the engine retains is bounded.  In every run at most 4096 tickets have a
    terminal entry in the ticket table; the count the engine publishes is the number of
    those entries, and an entry whose ticket has left the order of eviction is gone.  And
    no class queue is longer than its policy's depth. *)
Theorem reachable_retention P authority w :
  policies_typed P → reachable P authority w →
  retained_terminal_tickets (w_state w) = N.of_nat (size (tombstones (w_state w))) ∧
  N.of_nat (size (tombstones (w_state w))) ≤ MAX_TERMINAL_TICKETS ∧
  ∀ class policy, ps_class P class = Some policy →
    N.of_nat (length (cs_queue (class_state (w_state w) class))) ≤ max_queue_depth policy.
Proof.
  intros Ht Hw. destruct (reachable_retained P authority w Ht Hw) as [H1 H2].
  destruct (reachable_kept P authority w Ht Hw) as (n & [Hb _] & _).
  assert (retained_terminal_tickets (w_state w) = N.of_nat (size (tombstones (w_state w)))) as E
    by (unfold retained_terminal_tickets; by rewrite tombs_count).
  rewrite <-E. split_and!; [done..|]. intros class policy Hp. specialize (H2 class policy Hp).
  unfold waiting in H2. by rewrite length_map in H2.
Qed.

Lemma reachable_retention_witness :
  N.of_nat (size (tombstones (w_state fifo_before))) ≤ 4096 ∧
  N.of_nat (length (cs_queue (class_state (w_state fifo_before) "ingest"))) ≤ 3.
Proof.
  destruct (reachable_retention demo_policy 1 fifo_before demo_typed fifo_reachable) as (_ & H1 & H2).
  split; [exact H1|]. apply (H2 "ingest"%string (demo_class 1)). vm_compute. reflexivity.
Defined.
