(* ===== verification/Client.v ===== *)
(** * A caller that is alone with the engine

    What a single thread that keeps every identity it is handed knows about the engine:
    every live permit is one it holds, is leased to it under a token it holds, or
    answers a ticket it holds; every queued request waits under one of its tickets;
    what it holds is still there.  Each public call of Calls.v keeps this, and its
    answer is the one the caller counts on. *)

From S2P Require Import Prelude Contract Text Validation Kernel PolicyCheck Requirements State.
From S2P Require Import Assess Fairness Admission Memory Governor Policies Books Custody Ledger.
From S2P Require Import Moves Reads Invariant Steps Selection Ring Dispatch Sections Progress.
From S2P Require Import Lifecycle Trace System Queues Runs Fifo Consistency Fates Grips Total.
From S2P Require Import Contracts Calls Gates Refinement Owned Watched Health.

(** A section that hands out no permit: it answers no claim and leases nothing. *)
Record modest (G : Grip) : Prop := {
  md_lease pid : ¬ may_lease G pid;
  md_answer t : ¬ may_answer G t;
}.

(** ** What the caller holds *)

Section holdings.
Context (ts : list Ticket) (ps : list PermitId) (ls : list LeaseToken).
Implicit Types s : GovernedState.

(** Nothing is live or queued that the caller does not hold. *)
Record covers s : Prop := {
  cv_live pid r :
    gs_permits s !! pid = Some r →
    match rec_lease_nonce r, rec_pending_ticket r with
    | Some nonce, _ => mkLease pid nonce ∈ ls
    | None, Some t => t ∈ ts
    | None, None => pid ∈ ps
    end;
  cv_queued class q : q ∈ waiting s class → pr_ticket q ∈ ts;
}.

Lemma slots_covers G s s' : modest G → slots G s s' → dequeues s s' → covers s → covers s'.
Proof.
  intros [HL HA] Hs Hd [H1 H2]. split; [|intros class q Hq; by eapply H2, dequeues_elem].
  intros pid r' [r Hr E|class q Hin <- E|r _ Hl _ _ _|r t _ _ Ha _]%Hs;
    [..|by destruct (HL pid)|by destruct (HA t)].
  - specialize (H1 pid r Hr). unfold slot in E. injection E as _ -> -> _ _. done.
  - unfold slot in E. injection E as _ -> -> _ _. by eapply H2.
Qed.
End holdings.

(** A permit the caller holds: out of the queues, and, while it is live, not leased and
    not to be claimed. *)
Record holds_permit (pid : PermitId) (s : GovernedState) : Prop := {
  hp_unreserved : ¬ reserved s pid;
  hp_free r : gs_permits s !! pid = Some r → rec_lease_nonce r = None ∧ rec_pending_ticket r = None;
}.

(** A permit leased to the caller. *)
Definition holds_lease (token : LeaseToken) (s : GovernedState) : Prop :=
  ∃ r, gs_permits s !! lease_permit_id token = Some r ∧
    rec_lease_nonce r = Some (lease_token_nonce token) ∧ rec_pending_ticket r = None.

(** A ticket the caller holds: listed, and nobody claims it. *)
Record holds_ticket (t : Ticket) (s : GovernedState) : Prop := {
  ht_listed : listed s t;
  ht_unclaimed pid : gs_tickets s !! t ≠ Some (TClaiming pid);
}.

Lemma claiming_ticket_of s t pid :
  gs_tickets s !! t = Some (TClaiming pid) ↔ ticket_of s t = Some (TClaiming pid).
Proof. unfold ticket_of. by destruct (gs_tickets s !! t) as [[]|]. Qed.

(** What is gone need not be held. *)
Lemma covers_ticket t ts ps ls s :
  (∃ P B, Inv P B s) → covers (t :: ts) ps ls s → gs_tickets s !! t = None → covers ts ps ls s.
Proof.
  intros (P & B & HI) [C1 C2] Hn.
  assert (custody s t = None) as Hcu by (unfold custody; by rewrite Hn).
  pose proof (inv_custody _ _ _ HI) as HC. split.
  - intros pid r Hr. specialize (C1 pid r Hr).
    destruct (rec_lease_nonce r); [done|]. destruct (rec_pending_ticket r) as [t'|] eqn:E; [|done].
    apply elem_of_cons in C1 as [->|]; [|done]. pose proof (pending_holds HC _ _ _ Hr E). congruence.
  - intros class q Hq. destruct (elem_of_cons ts (pr_ticket q) t) as [Hin _].
    destruct (Hin (C2 _ _ Hq)) as [E|]; [|done].
    assert (custody s t = Some (Waits class)); [|congruence].
    apply (custody_queued _ _ HC). rewrite <-E. by apply list_elem_of_fmap_2.
Qed.

Lemma covers_permit pid ts ps ls s :
  covers ts (pid :: ps) ls s → gs_permits s !! pid = None → covers ts ps ls s.
Proof.
  intros [C1 C2] Hn. split; [|done]. intros pid' r Hr. specialize (C1 pid' r Hr).
  destruct (rec_lease_nonce r); [done|]. destruct (rec_pending_ticket r); [done|].
  apply elem_of_cons in C1 as [->|]; [congruence|done].
Qed.

Lemma covers_lease l ts ps ls s :
  covers ts ps (l :: ls) s → gs_permits s !! lease_permit_id l = None → covers ts ps ls s.
Proof.
  intros [C1 C2] Hn. split; [|done]. intros pid r Hr. specialize (C1 pid r Hr).
  destruct (rec_lease_nonce r); [|done].
  apply elem_of_cons in C1 as [<-|]; [cbn in Hn; congruence|done].
Qed.

Section steps.
Context (P : PolicySet) (G : Grip).
Implicit Types s : GovernedState.

Lemma trace_covers ts ps ls s s' :
  modest G → trace_of G P s s' → covers ts ps ls s → covers ts ps ls s'.
Proof.
  intros HG. apply trace_keeps. intros s1 s2 Hs. eapply slots_covers; [done|by eapply tstep_slots|].
  by eapply tstep_dequeues, tstep_any.
Qed.

Lemma trace_holds_permit pid s s' :
  ¬ may_lease G pid → trace_of G P s s' → holds_permit pid s → holds_permit pid s'.
Proof.
  intros HG. apply trace_keeps. intros s1 s2 Hs [H1 H2]. split.
  - intros Hr. apply H1. eapply dequeues_reserved; [by eapply tstep_dequeues, tstep_any|done].
  - intros r' [r Hr E|class q Hin E _|r _ Hl _ _ _|r t Hr Ht _ _]%(tstep_slots _ _ _ _ Hs); [| |done|].
    + apply H2 in Hr as [E1 E2]. unfold slot in E. injection E as _ -> -> _ _. done.
    + destruct H1. by exists class, q.
    + apply H2 in Hr as [_ E2]. congruence.
Qed.

Lemma trace_holds_lease token s s' :
  ¬ may_spend G (lease_permit_id token) → trace_of G P s s' →
  holds_lease token s → holds_lease token s'.
Proof.
  intros Hsp. apply trace_keeps. intros s1 s2 Hs (r & Hr & Hl & Hp).
  destruct (tstep_leased G P s1 s2 (rec_capabilities r) (lease_permit_id token) (lease_token_nonce token)
    Hsp Hs) as (r' & Hr' & Hl' & _); [by exists r|]. exists r'. split_and!; [done..|].
  pose proof (tstep_slots _ _ _ _ Hs _ _ Hr') as [r0 Hr0 E|class q _ _ E|r0 Hr0 _ E _ _|r0 t _ _ _ E];
    unfold slot in E; simplify_eq; congruence.
Qed.

Lemma trace_holds_ticket X t s s' :
  few X → circulates X s → ¬ may_forget G t → ¬ may_claim G t → trace_of G P s s' →
  holds_ticket t s → holds_ticket t s'.
Proof.
  intros HX HC HF HG Htr [H1 H2]. split; [by eapply (trace_circulates G P X HX s s' Htr HC)|].
  revert Htr H2. apply (trace_keeps P (λ s, ∀ pid, gs_tickets s !! t ≠ Some (TClaiming pid))).
  intros s1 s2 Hs Hn pid E%claiming_ticket_of. pose proof (tstep_ticket _ _ _ _ t Hs) as Ht. rewrite E in Ht.
  inversion Ht as [E'| |st Hok Est|]; [by apply (Hn pid), claiming_ticket_of|]. destruct st; simplify_eq.
  by destruct Hok.
Qed.
End steps.

(** ** The caller's view of a world *)

(** As many identities as the engine keeps the ends of. *)
Definition within_retention (n : nat) : Prop := N.of_nat n ≤ MAX_TERMINAL_TICKETS.

Section client.
Context (P : PolicySet) (authority : N) (Hwf : policy_wf P) (Htyped : policies_typed P).
Implicit Types (w : World) (s : GovernedState).
Local Abbreviation own_step := (Total.own_step P authority).
Local Abbreviation then_drained := (then_drained P authority).

(** After [n] admissions, the caller holds [ts], [ps] and [ls]. *)
Record holding (n : nat) (ts : list Ticket) (ps : list PermitId) (ls : list LeaseToken) w : Prop := {
  hd_reachable : reachable P authority w;
  hd_idle : w_outstanding w = [];
  hd_counters : w_counters w = mkCounters (N.of_nat n + 1) (N.of_nat n + 1) (N.of_nat n + 1);
  hd_load : load (w_state w) ≤ N.of_nat n;
  hd_circulates : ∃ X, (size X ≤ n)%nat ∧ circulates X (w_state w);
  hd_known : known_classes P (w_state w);
  hd_tickets_once : NoDup ts;
  hd_tickets t : t ∈ ts → holds_ticket t (w_state w);
  hd_permits_once : NoDup ps;
  hd_permits pid : pid ∈ ps → holds_permit pid (w_state w) ∧ spent_permit w pid;
  hd_leases_once : NoDup (lease_permit_id <$> ls);
  hd_leases l : l ∈ ls → holds_lease l (w_state w);
}.

(** And holds everything there is. *)
Definition client n ts ps ls w : Prop :=
  holding n ts ps ls w ∧ covers ts ps ls (w_state w).

Lemma holding_perm n ts ts' ps ps' ls ls' w :
  ts ≡ₚ ts' → ps ≡ₚ ps' → ls ≡ₚ ls' → holding n ts ps ls w → holding n ts' ps' ls' w.
Proof.
  intros Et Ep El []. split; try done; intros *; try (rewrite <-?Et, <-?Ep, <-?El; eauto).
Qed.

Lemma client_perm n ts ts' ps ps' ls ls' w :
  ts ≡ₚ ts' → ps ≡ₚ ps' → ls ≡ₚ ls' → client n ts ps ls w → client n ts' ps' ls' w.
Proof.
  intros Et Ep El [Hh [C1 C2]]. split; [by eapply holding_perm|]. split.
  - intros pid r Hr. specialize (C1 pid r Hr).
    destruct (rec_lease_nonce r), (rec_pending_ticket r); by rewrite <-?Et, <-?Ep, <-?El.
  - intros class q. rewrite <-Et. apply C2.
Qed.

(** A permit that is no more, and never will be. *)
Definition ended (pid : PermitId) w : Prop :=
  spent_permit w pid ∧ ¬ reserved (w_state w) pid ∧ gs_permits (w_state w) !! pid = None.

(** ** Moves *)

(** A run of sections of the caller's that issues no identity and admits nothing. *)
Record moved (G : Grip) w w' : Prop := {
  mv_trace : trace_of G P (w_state w) (w_state w');
  mv_later : later P authority w w';
  mv_counters : w_counters w' = w_counters w;
  mv_outstanding : w_outstanding w' = w_outstanding w;
  mv_tickets : no_new_tickets (w_state w) (w_state w');
}.

Lemma moved_trans G w1 w2 w3 : moved G w1 w2 → moved G w2 w3 → moved G w1 w3.
Proof.
  intros [T1 L1 C1 O1 N1] [T2 L2 C2 O2 N2].
  split; [by etransitivity|unfold later in *; by etransitivity|congruence|congruence|].
  intros t Ht. by apply N2, N1.
Qed.

Lemma moved_grip G G' w w' : grip_le G G' → moved G w w' → moved G' w w'.
Proof. intros HG []. split; try done. by eapply trace_grip. Qed.

Lemma own_moved a w w' :
  reachable P authority w → own_step a w w' → a ≠ AIssue → (∀ ids, a ≠ AAdmit ids) →
  moved (grip a) w w'.
Proof.
  intros Hw [Hroom [e Hs]] Hi Ha. apply lstep_effect in Hs as Heff; [|done|by eapply reachable_ok|done].
  assert (w_counters w' = w_counters w ∧ w_outstanding w' = w_outstanding w) as [Ek Eo]
    by (destruct Hs; try done; by edestruct Ha).
  assert (trace_of (grip a) P (w_state w) (w_state w') ∧ no_new_tickets (w_state w) (w_state w')) as [??].
  - destruct Heff as [issued E _ _|Ht [_ _ ? _] _ _|ids Eids' Ep _ _ _ _ _]; [rewrite E; split; [done|by intros t]|done|].
    apply Permutation_length in Ep. rewrite Eo in Ep. cbn in Ep. lia.
  - split; [done|apply rtc_once; split; [done|by eapply lstep_wstep]|done..].
Qed.

Lemma continue_least G : grip_le (grip AContinue) G.
Proof. split; cbn; intros; destruct_or?; naive_solver. Qed.

Lemma drain_moved w w' :
  reachable P authority w → rtc (own_step AContinue) w w' → moved (grip AContinue) w w'.
Proof.
  intros Hw Hd. revert Hw. induction Hd as [w1|w1 w2 w3 H1 _ IH]; intros Hw; [by split; try done; intros t|].
  eapply moved_trans; [by eapply own_moved|]. apply IH. by eapply own_step_reachable.
Qed.

Lemma drained_moved a w s nonces w' :
  reachable P authority w → then_drained a w s nonces w' → a ≠ AIssue → (∀ ids, a ≠ AAdmit ids) →
  moved (grip a) w w'.
Proof.
  intros Hw [Ho Hd] Hi Ha. eapply moved_trans; [by eapply own_moved|].
  apply own_step_reachable in Ho; [|done]. eapply moved_grip; [apply continue_least|].
  by apply drain_moved.
Qed.

(** What the caller is left with after a move. *)
Lemma holding_moved G n ts ps ls w w' :
  within_retention n → moved G w w' →
  (∀ t, t ∈ ts → ¬ may_forget G t ∧ ¬ may_claim G t) → (∀ pid, pid ∈ ps → ¬ may_lease G pid) →
  (∀ l, l ∈ ls → ¬ may_spend G (lease_permit_id l)) →
  holding n ts ps ls w → holding n ts ps ls w'.
Proof.
  intros Hn [Ht Hl Ek Eo _] Gt Gp Gl [Hw Hi Hk Hld (X & HX & HC) Hkn Nt Kt Np Kp Nl Kl].
  assert (few X) as Hfew by (unfold few, within_retention in *; lia).
  split; try done.
  - by eapply later_reachable.
  - by rewrite Eo.
  - by rewrite Ek.
  - apply trace_load in Ht. lia.
  - exists X. split; [done|]. by apply (trace_circulates G P X Hfew _ _ Ht).
  - by eapply trace_known_classes.
  - intros t Hin. destruct (Gt t Hin). eapply trace_holds_ticket; [done|done|done|done|done|by apply Kt].
  - intros pid Hin. destruct (Kp pid Hin) as [K1 K2]. split.
    + eapply trace_holds_permit; [by apply Gp|done..].
    + revert K2. apply (later_keeps P authority Htyped (λ w, spent_permit w pid)) with (w := w);
        [|done..]. intros w1 w2 _. apply spent_permit_effect.
  - intros l Hin. eapply trace_holds_lease; [by apply Gl|done|by apply Kl].
Qed.

Lemma ended_later pid w w' :
  reachable P authority w → later P authority w w' → ended pid w → ended pid w'.
Proof.
  intros Hw Hl (H1 & H2 & H3).
  destruct (later_permit_forward P authority Htyped w w' pid Hw Hl H1 H2) as [H2' H3']. split_and!.
  - revert H1. apply (later_keeps P authority Htyped (λ w, spent_permit w pid)) with (w := w);
      [|done..]. intros w1 w2 _. apply spent_permit_effect.
  - done.
  - apply eq_None_not_Some. intros [r' (r & Hr & _)%H3']. congruence.
Qed.

(** What a call took away stays away. *)
Lemma drained_ended pid a w s nonces w' :
  reachable P authority w → then_drained a w s nonces w' → a ≠ AIssue → (∀ ids, a ≠ AAdmit ids) →
  spent_permit w pid → ¬ reserved (w_state w) pid → gs_permits s !! pid = None → ended pid w'.
Proof.
  intros Hw [Ho Hd] Hi Ha Hsp Hres Hn. pose proof (own_moved _ _ _ Hw Ho Hi Ha) as [_ Hl1 _ _ _].
  pose proof (own_step_reachable _ _ _ _ _ Hw Ho) as Hw1.
  pose proof (drain_moved _ _ Hw1 Hd) as [_ Hl2 _ _ _].
  eapply ended_later; [exact Hw1|exact Hl2|]. split_and!; [| |done].
  - revert Hsp. apply (later_keeps P authority Htyped (λ w, spent_permit w pid)) with (w := w);
      [|done..]. intros w1 w2 _. apply spent_permit_effect.
  - by apply (later_permit_forward P authority Htyped w _ pid Hw Hl1).
Qed.

(** ** Calls *)

Section calls.
Context (n : nat) (Hn : within_retention n).
Implicit Types (ts : list Ticket) (ps : list PermitId) (ls : list LeaseToken).

Lemma holding_roomy ts ps ls w : holding n ts ps ls w → roomy w.
Proof.
  intros []. unfold roomy, within_retention, MAX_TERMINAL_TICKETS in *. ulia.
Qed.

Lemma holding_inv ts ps ls w :
  holding n ts ps ls w → ∃ B, Inv P B (w_state w) ∧ B ≤ U64_MAX.
Proof.
  intros [Hw _ _ _ _ _ _ _ _ _ _ _]. destruct (reachable_inv P authority w Htyped Hw) as (B & HI & HB).
  exists B. split; [done|lia].
Qed.

(** Dropping what is held first. *)
Lemma holding_ticket_tail t ts ps ls w : holding n (t :: ts) ps ls w → holding n ts ps ls w.
Proof.
  intros []. split; try done; [by eapply NoDup_cons_1_2|]. intros. apply hd_tickets0. by right.
Qed.
Lemma holding_permit_tail pid ts ps ls w : holding n ts (pid :: ps) ls w → holding n ts ps ls w.
Proof.
  intros []. split; try done; [by eapply NoDup_cons_1_2|]. intros. apply hd_permits0. by right.
Qed.
Lemma holding_lease_tail l ts ps ls w : holding n ts ps (l :: ls) w → holding n ts ps ls w.
Proof.
  intros []. split; try done; [by eapply NoDup_cons_1_2|]. intros. apply hd_leases0. by right.
Qed.

(** Actions that concern nothing the caller holds. *)
Definition aloof (a : Action) : Prop :=
  match a with AReconcile _ | AStageRelease _ | AReap | AContinue | AClose => True | _ => False end.

Lemma client_aloof a ts ps ls w w' :
  aloof a → moved (grip a) w w' → client n ts ps ls w → client n ts ps ls w'.
Proof.
  intros Ha Hm [Hh Hc]. split.
  - eapply holding_moved; [done|done|..|done]; destruct a; cbn; try done; naive_solver.
  - eapply trace_covers; [|apply Hm|done]. destruct a; split; cbn; try done; naive_solver.
Qed.

(** A ticket's permit is not leased: the caller would hold it. *)
Lemma pending_unleased ts ps ls w pid r t :
  client n ts ps ls w → gs_permits (w_state w) !! pid = Some r → rec_pending_ticket r = Some t →
  rec_lease_nonce r = None.
Proof.
  intros [Hh [C1 _]] Hr Ht. specialize (C1 pid r Hr). destruct (rec_lease_nonce r) as [nonce|]; [|done].
  apply (hd_leases _ _ _ _ _ Hh) in C1 as (r' & Hr' & _ & Hp). cbn in Hr'. congruence.
Qed.

(** [abandon] of a ticket the caller holds: it answers by the state of the ticket, and
    what the ticket stood for is gone. *)
Lemma client_abandon sampled t ts ps ls w :
  client n (t :: ts) ps ls w →
  ∃ w', abandon_call P sampled t w = Some (abandon_answer (ticket_status (w_state w) t), w') ∧
    client n ts ps ls w' ∧ moved (grip (AAbandon t)) w w' ∧
    ticket_status (w_state w') t = ClaimInvalid.
Proof.
  intros Hcl. pose proof Hcl as [Hh Hc]. pose proof (hd_reachable _ _ _ _ _ Hh) as Hw.
  pose proof (holding_roomy _ _ _ _ Hh) as Hr.
  destruct (abandon_call_runs P authority Hwf Htyped sampled t w Hw Hr)
    as (out & s & e & w' & Hs & Hcall & Hd).
  destruct (holding_inv _ _ _ _ Hh) as (B & HI & HB).
  destruct (abandon_section_spec P Htyped B HB (w_state w) HI (roomy_pass _ Hr) sampled t out s e)
    as [-> Hn']; [|done|].
  { intros pid r Hp. by eapply pending_unleased. }
  pose proof (drained_moved _ _ _ _ _ Hw Hd ltac:(done) ltac:(done)) as Hm.
  assert (gs_tickets (w_state w') !! t = None) as Hgone.
  { destruct Hd as [Ho Hd]. apply own_step_reachable in Ho; [|done].
    by apply (mv_tickets _ _ _ (drain_moved _ _ Ho Hd)). }
  exists w'. split; [done|]. split_and!; [|done|by unfold ticket_status; rewrite Hgone].
  assert (holding n ts ps ls w') as Hh'.
  { eapply holding_moved; [done|exact Hm|..|by eapply holding_ticket_tail]; cbn; try naive_solver.
    intros t' Hin. split; [|naive_solver]. intros [E|[E|[= E]]]; [done..|]. subst.
    pose proof (hd_tickets_once _ _ _ _ _ Hh) as Hnd. by apply NoDup_cons in Hnd as [? _]. }
  split; [done|]. eapply covers_ticket; [| |exact Hgone].
  { destruct (holding_inv _ _ _ _ Hh') as (B' & ? & _). by exists P, B'. }
  eapply trace_covers; [|apply Hm|done]. split; cbn; naive_solver.
Qed.

(** [release] of a permit the caller holds: it may be gone already, and is gone
    afterwards. *)
Lemma client_release sampled pid ts ps ls w :
  client n ts (pid :: ps) ls w →
  ∃ out w', release_call P sampled pid None w = Some (out, w') ∧
    (∀ phase, out ≠ ReleaseHeldByLease phase) ∧
    client n ts ps ls w' ∧ moved (grip (ARelease pid None)) w w' ∧ ended pid w'.
Proof.
  intros Hcl. pose proof Hcl as [Hh Hc]. pose proof (hd_reachable _ _ _ _ _ Hh) as Hw.
  pose proof (holding_roomy _ _ _ _ Hh) as Hr.
  destruct (release_call_runs P authority Hwf Htyped sampled pid None w Hw Hr)
    as (out & s & e & w' & Hs & Hcall & Hd).
  destruct (release_section_spec P authority w sampled pid None Hwf Htyped Hw (roomy_pass _ Hr))
    as (out' & s' & e' & Hs' & Hspec). rewrite Hs in Hs'. injection Hs' as <- <- <-.
  destruct (hd_permits _ _ _ _ _ Hh pid) as [[Hres Hfree] Hsp]; [by left|].
  pose proof (drained_moved _ _ _ _ _ Hw Hd ltac:(done) ltac:(done)) as Hm.
  assert ((∀ phase, out ≠ ReleaseHeldByLease phase) ∧ gs_permits s !! pid = None) as [Hout Hnone].
  { destruct (gs_permits (w_state w) !! pid) as [r|] eqn:E.
    - rewrite decide_True in Hspec by apply (Hfree r eq_refl). by destruct Hspec as (-> & ? & _).
    - by destruct Hspec as (-> & -> & _). }
  assert (ended pid w') as Hend by by eapply drained_ended.
  exists out, w'. split_and!; [done..| |done|done]. split.
  - eapply holding_moved; [done|exact Hm|..|by eapply holding_permit_tail]; cbn; naive_solver.
  - eapply covers_permit; [|apply Hend]. eapply trace_covers; [|apply Hm|done]. split; cbn; naive_solver.
Qed.

(** [release_leased] of a lease the caller holds succeeds. *)
Lemma client_release_leased sampled l ts ps ls w :
  client n ts ps (l :: ls) w →
  ∃ w', release_call P sampled (lease_permit_id l) (Some (lease_token_nonce l)) w = Some (ReleaseDone, w') ∧
    client n ts ps ls w' ∧
    moved (grip (ARelease (lease_permit_id l) (Some (lease_token_nonce l)))) w w' ∧
    ended (lease_permit_id l) w'.
Proof.
  intros Hcl. pose proof Hcl as [Hh Hc]. pose proof (hd_reachable _ _ _ _ _ Hh) as Hw.
  pose proof (holding_roomy _ _ _ _ Hh) as Hr. set (pid := lease_permit_id l).
  destruct (release_call_runs P authority Hwf Htyped sampled pid (Some (lease_token_nonce l)) w Hw Hr)
    as (out & s & e & w' & Hs & Hcall & Hd).
  destruct (release_section_spec P authority w sampled pid (Some (lease_token_nonce l)) Hwf Htyped Hw
    (roomy_pass _ Hr)) as (out' & s' & e' & Hs' & Hspec). rewrite Hs in Hs'. injection Hs' as <- <- <-.
  destruct (hd_leases _ _ _ _ _ Hh l) as (r & E & Hl & _); [by left|]. fold pid in E.
  rewrite E, decide_True in Hspec by done. destruct Hspec as (-> & Hnone & _).
  pose proof (drained_moved _ _ _ _ _ Hw Hd ltac:(done) ltac:(done)) as Hm.
  assert (known (w_state w) pid) as Hk by (left; by eexists).
  destruct (holding_inv _ _ _ _ Hh) as (B & HI & _).
  assert (ended pid w') as Hend.
  { eapply drained_ended; [done|exact Hd|done|done| | |done].
    - by eapply known_spent_permit.
    - intros (class & q & Hq & Eq). pose proof (custody_fresh _ _ (inv_custody _ _ _ HI) _ _ Hq). congruence. }
  exists w'. split_and!; [done| |done|done]. split.
  - eapply holding_moved; [done|exact Hm|..|by eapply holding_lease_tail]; cbn; try naive_solver.
    intros l' Hin (nonce & [= E' _]). pose proof (hd_leases_once _ _ _ _ _ Hh) as Hnd.
    apply NoDup_cons in Hnd as [Hnin _]. apply Hnin. fold pid. rewrite E'. by apply list_elem_of_fmap_2.
  - eapply covers_lease; [|apply Hend]. eapply trace_covers; [|apply Hm|done]. split; cbn; naive_solver.
Qed.
(** ** Holding more *)

Lemma holding_ticket_cons t ts ps ls w :
  holding n ts ps ls w → t ∉ ts → holds_ticket t (w_state w) → holding n (t :: ts) ps ls w.
Proof.
  intros [] Ht Hh. split; try done; [by apply NoDup_cons|].
  intros t' [->|]%elem_of_cons; [done|by apply hd_tickets0].
Qed.

Lemma holding_permit_cons pid ts ps ls w :
  holding n ts ps ls w → pid ∉ ps → holds_permit pid (w_state w) → spent_permit w pid →
  holding n ts (pid :: ps) ls w.
Proof.
  intros [] Hp Hh Hs. split; try done; [by apply NoDup_cons|]. intros pid' [->|]%elem_of_cons; [done|by apply hd_permits0].
Qed.

Lemma holding_lease_cons l ts ps ls w :
  holding n ts ps ls w → lease_permit_id l ∉ lease_permit_id <$> ls → holds_lease l (w_state w) →
  holding n ts ps (l :: ls) w.
Proof.
  intros [] Hl Hh. split; try done; [by apply NoDup_cons|].
  intros l' [->|]%elem_of_cons; [done|by apply hd_leases0].
Qed.

Lemma holds_permit_unleased pid ts ps ls w :
  holding n ts (pid :: ps) ls w → pid ∉ lease_permit_id <$> ls.
Proof.
  intros Hh (l & -> & Hin)%list_elem_of_fmap.
  destruct (hd_leases _ _ _ _ _ Hh l Hin) as (r & Hr & Hl & _).
  destruct (hd_permits _ _ _ _ _ Hh (lease_permit_id l)) as [[_ Hf] _]; [by left|].
  destruct (Hf r Hr). congruence.
Qed.

(** The first [advance_phase] of a permit the caller holds leases it, unless it is
    gone. *)
Lemma client_advance pid phase ts ps ls w :
  phase ≠ DispatchReserved → client n ts (pid :: ps) ls w →
  match advance_call pid phase w with
  | (Leased token, w') =>
    lease_permit_id token = pid ∧ client n ts ps (token :: ls) w' ∧ moved (grip (AAdvance pid)) w w'
  | (Advanced, _) => False
  | (AdvanceRefused _, w') => w' = w ∧ client n ts ps ls w ∧ ended pid w
  end.
Proof.
  intros Hph Hcl. pose proof Hcl as [Hh Hc]. pose proof (hd_reachable _ _ _ _ _ Hh) as Hw.
  pose proof (holding_roomy _ _ _ _ Hh) as Hr.
  destruct (hd_permits _ _ _ _ _ Hh pid) as [[Hres Hfree] Hsp]; [by left|].
  pose proof (advance_call_runs P authority pid phase w Hr) as Ho.
  pose proof (own_moved _ _ _ Hw Ho ltac:(done) ltac:(done)) as Hm.
  destruct (holding_inv _ _ _ _ Hh) as (B & HI & _).
  unfold advance_call in *. destruct (advance_phase _ _ _ _) as [[out nonces] s] eqn:E. cbn [snd] in Ho, Hm.
  pose proof (advance_queues _ _ _ _ _ _ _ E) as Hq.
  destruct (gs_permits (w_state w) !! pid) as [r|] eqn:Hrec.
  - destruct (Hfree r eq_refl) as [Hl Hp].
    pose proof (books_permits_ok _ _ (inv_books _ _ _ HI) _ _ Hrec) as Hok.
    assert (rec_phase r = DispatchReserved) as Hres'.
    { destruct (decide (rec_phase r = DispatchReserved)) as [|Hne]; [done|].
      apply (permit_ok_lease _ _ Hok) in Hne as [? ?]. congruence. }
    assert (out = Leased (mkLease pid (w_nonces w)) ∧
      gs_permits s = <[pid := advanced_record phase (w_nonces w) r]> (gs_permits (w_state w))) as [-> Ep].
    { rewrite (advance_phase_leases _ _ _ _ _ Hrec) in E; [by simplify_eq| |done].
      rewrite Hres'. destruct phase; [done|cbn; lia..]. }
    assert (holding n ts ps ls (mkWorld s (w_counters w) (w_outstanding w) (w_claims w) nonces)) as Hh'.
    { eapply holding_moved; [done|exact Hm|..|by eapply holding_permit_tail]; cbn; try naive_solver.
      intros pid' Hin [= <-]. pose proof (hd_permits_once _ _ _ _ _ Hh) as Hnd.
      by apply NoDup_cons in Hnd as [? _]. }
    split; [done|]. split; [split|done].
    + eapply holding_lease_cons; [done|by eapply holds_permit_unleased|]. eexists.
      cbn [w_state lease_permit_id]. rewrite Ep, lookup_insert_eq. split; [done|]. cbn. by rewrite Hl.
    + destruct Hc as [C1 C2]. split; cbn [w_state].
      * intros pid' r'. rewrite Ep. intros [[<- <-]|[Hne Hr']]%lookup_insert_Some.
        -- cbn. rewrite Hl. by left.
        -- specialize (C1 pid' r' Hr'). destruct (rec_lease_nonce r'); [by right|].
           destruct (rec_pending_ticket r'); [done|]. by apply elem_of_cons in C1 as [->|].
      * intros class q. rewrite (same_queues_waiting _ _ _ Hq). apply C2.
  - unfold advance_phase in E. rewrite Hrec in E. simplify_eq.
    split; [by destruct w|]. split; [|by split_and!].
    split; [by eapply holding_permit_tail|by eapply covers_permit].
Qed.
(** ** Claiming *)

(** What a claim of a granted ticket leaves, half-way and in the end. *)
Lemma claim_granted sampled t pid r w :
  gs_tickets (w_state w) !! t = Some (TGranted pid) → gs_permits (w_state w) !! pid = Some r →
  ∃ w' r', claim_call sampled t w = (Ready pid, w') ∧
    gs_tickets (w_state w') = delete t (gs_tickets (w_state w)) ∧
    gs_permits (w_state w') = <[pid := r']> (gs_permits (w_state w)) ∧
    gs_classes (w_state w') = gs_classes (w_state w) ∧
    slot r' = (rec_phase r, rec_lease_nonce r, None, rec_capabilities r, record_who r).
Proof.
  intros Ht Hr. unfold claim_call, claim_begin_section, commit_time.
  cbn [gs_tickets gs_permits upd_gs_commit_watermark_ms]. rewrite Ht, Hr.
  unfold claim_finish_section, commit_time, with_state. cbn [w_state].
  cbn [gs_tickets gs_permits upd_gs_tickets upd_gs_permits upd_gs_commit_watermark_ms].
  rewrite !lookup_insert_eq. eexists _, _. split; [reflexivity|]. cbn [w_state].
  cbn [gs_tickets gs_permits gs_classes upd_gs_tickets upd_gs_permits upd_gs_commit_watermark_ms].
  rewrite delete_insert_eq, insert_insert_eq. split_and!; [|done|done|done].
  done.
Qed.

(** [claim] of a ticket the caller holds: a granted one becomes a permit of the
    caller's, a waiting one stays, and one that has ended is settled. *)
Lemma client_claim sampled t ts ps ls w :
  client n (t :: ts) ps ls w →
  let '(out, w') := claim_call sampled t w in
  moved (mkGrip (λ _, False) (λ _, False) (eq t) (eq t) (eq t) False False) w w' ∧
  out = ticket_status (w_state w) t ∧
  match out with
  | Ready pid => client n ts (pid :: ps) ls w'
  | ClaimPending => client n (t :: ts) ps ls w'
  | ClaimTerminal _ => client n ts ps ls w'
  | ClaimInvalid => False
  end.
Proof.
  intros Hcl. pose proof Hcl as [Hh Hc]. pose proof (hd_reachable _ _ _ _ _ Hh) as Hw.
  pose proof (holding_roomy _ _ _ _ Hh) as Hr.
  pose proof (hd_tickets _ _ _ _ _ Hh t ltac:(by left)) as [Hlisted Hun].
  pose proof (hd_tickets_once _ _ _ _ _ Hh) as Hnd. apply NoDup_cons in Hnd as [Hnin Hnd].
  destruct (holding_inv _ _ _ _ Hh) as (B & HI & _).
  set (G := mkGrip _ _ _ _ _ _ _).
  pose proof (claim_call_runs P authority Htyped sampled t w Hw Hr) as Hrun.
  assert (moved G w (claim_call sampled t w).2) as Hm.
  { destruct (claim_begin_section sampled t (w_state w)) as [[out s] e] eqn:Eb.
    destruct Hrun as [Ho Hrun]. pose proof (own_moved _ _ _ Hw Ho ltac:(done) ltac:(done)) as Hm1.
    assert (grip_le (grip (AClaimBegin t)) G) as HG1 by (split; cbn; naive_solver).
    destruct out as [o|pid]; [rewrite Hrun; by eapply moved_grip|]. destruct Hrun as [_ Ho2].
    pose proof (own_step_reachable _ _ _ _ _ Hw Ho) as Hw1.
    pose proof (own_moved _ _ _ Hw1 Ho2 ltac:(done) ltac:(done)) as Hm2.
    eapply moved_trans; [by eapply moved_grip|]. eapply moved_grip; [|exact Hm2].
    split; cbn; naive_solver. }
  assert (holding n ts ps ls (claim_call sampled t w).2) as Hh'.
  { eapply holding_moved; [done|exact Hm|..|by eapply holding_ticket_tail]; cbn; naive_solver. }
  clear Hrun.
  assert (custody (w_state w) t = None →
    w_state (claim_call sampled t w).2 = forget_terminal_ticket t (commit_time sampled (w_state w)).2 →
    client n ts ps ls (claim_call sampled t w).2) as Hsettled.
  { intros Hcu E. split; [done|]. destruct (holding_inv _ _ _ _ Hh') as (B' & HI' & _).
    eapply covers_ticket; [by exists P, B'| |rewrite E; by apply forget_settled].
    rewrite E. destruct Hc as [C1 C2]. split.
    - intros pid r. rewrite (sc_permits _ _ (forget_terminal_charges _ _)). apply C1.
    - intros class q. rewrite (same_queues_waiting _ _ _ (forget_terminal_queues _ _)). apply C2. }
  unfold claim_call, claim_begin_section, commit_time in *.
  cbn [gs_tickets upd_gs_commit_watermark_ms] in *. unfold ticket_status.
  destruct (gs_tickets (w_state w) !! t) as [[class|pid|pid|reason|]|] eqn:Et;
    [| |by destruct (Hun pid)| | |by unfold listed in Hlisted; rewrite Et in Hlisted; destruct Hlisted].
  - do 2 (split; [done|]). split; [|by destruct Hc]. apply holding_ticket_cons; [done|done|].
    split; cbn; [unfold listed; cbn|]; by rewrite Et.
  - destruct (custody_live _ _ (inv_custody _ _ _ HI) t pid) as [Hlive _].
    destruct Hlive as (r & Hrec & Hp); [unfold custody; by rewrite Et|].
    pose proof (pending_unleased _ _ _ _ _ _ _ Hcl Hrec Hp) as Hl.
    destruct (claim_granted sampled t pid r w Et Hrec) as (w' & r' & E & Etk & Epm & Ecl & Esl).
    unfold claim_call, claim_begin_section, commit_time in E.
    cbn [gs_tickets upd_gs_commit_watermark_ms] in E. rewrite Et in E.
    rewrite E in *. cbn [snd] in *. split; [done|]. split; [done|].
    assert (waiting (w_state w') = waiting (w_state w)) as Ew by (unfold waiting, class_state; by rewrite Ecl).
    assert (¬ reserved (w_state w) pid) as Hres.
    { intros (class & q & Hq & <-). pose proof (custody_fresh _ _ (inv_custody _ _ _ HI) _ _ Hq). congruence. }
    assert (spent_permit w pid) as Hsp by (apply (known_spent_permit P authority Htyped); [done|left; by eexists]).
    unfold slot in Esl. injection Esl as _ El Ep' _ _.
    assert (holding n ts (pid :: ps) ls w') as Hh2.
    { apply holding_permit_cons; [done| | |].
      - intros Hin. destruct (hd_permits _ _ _ _ _ Hh pid Hin) as [[_ Hf] _].
        destruct (Hf r Hrec). congruence.
      - split.
        + intros (class & q & Hq & Eq). apply Hres. exists class, q. by rewrite <-Ew.
        + intros x. rewrite Epm, lookup_insert_eq. intros [= <-]. split; congruence.
      - revert Hsp. apply (later_keeps P authority Htyped (λ w, spent_permit w pid)) with (w := w);
          [|done|apply Hm]. intros w1 w2 _. apply spent_permit_effect. }
    split; [done|]. destruct (holding_inv _ _ _ _ Hh2) as (B' & HI' & _).
    eapply covers_ticket; [by exists P, B'| |by rewrite Etk, lookup_delete_eq].
    destruct Hc as [C1 C2]. split; [|intros class q; rewrite Ew; apply C2].
    intros pid' x. rewrite Epm. intros [[<- <-]|[_ Hx]]%lookup_insert_Some.
    + rewrite El, Hl, Ep'. by left.
    + specialize (C1 pid' x Hx). destruct (rec_lease_nonce x); [done|].
      destruct (rec_pending_ticket x); [done|]. by right.
  - do 2 (split; [done|]). apply Hsettled; [unfold custody; by rewrite Et|done].
  - do 2 (split; [done|]). apply Hsettled; [unfold custody; by rewrite Et|done].
Qed.
End calls.
End client.
