(* ===== verification/Metered.v ===== *)
(** * Measurements and admissions of a lone caller

    [reconcile_memory_at] and [release_stage_memory] of a caller that is alone with the
    engine: the measurements it makes are representable, so the accounting stays
    intact, and the memory handed out leaves the budget only when a measurement raises
    what a permit holds.  [admit], as a caller that holds everything there is sees it:
    whatever the answer, it still holds everything there is, with the new permit or the
    new ticket added. *)

From S2P Require Import Prelude Contract Text Validation Kernel PolicyCheck Requirements State.
From S2P Require Import Assess Fairness Admission Memory Governor Policies Books Custody Ledger.
From S2P Require Import Moves Reads Invariant Steps Selection Ring Dispatch Sections Progress.
From S2P Require Import Lifecycle Trace System Queues Runs Fifo Consistency Numbers Fates Grips.
From S2P Require Import Total Contracts Calls Gates Refinement Owned Watched Health Client.

(** A measurement the unit scale can express. *)
Definition representable (P : PolicySet) (bytes : N) : Prop :=
  let unit := bytes_per_unit (memory_unit_scale (ps_resources P)) in
  unit ≠ 0 ∧ bytes ≤ U32_MAX * unit.

Lemma representable_units P mode reservation bytes :
  representable P bytes →
  ∃ u, effective_units mode reservation bytes (memory_unit_scale (ps_resources P)) = inr u.
Proof.
  intros [H0 Hb]. pose proof (units_for_correct (memory_unit_scale (ps_resources P)) bytes) as Hu.
  unfold effective_units. destruct mode; [eauto|..];
    destruct (units_for _ _) as [[]|u]; eauto; try done; destruct Hu as (_ & -> & _ & ?); lia.
Qed.

Lemma committed_reads sampled s :
  gs_accounting_fault (commit_time sampled s).2 = gs_accounting_fault s ∧
  gs_memory_units_held (commit_time sampled s).2 = gs_memory_units_held s ∧
  gs_permits (commit_time sampled s).2 = gs_permits s.
Proof. done. Qed.

Lemma bind_Some_pair {A B C} (m : option (A * B)) (f : A → B → option C) c :
  ('(a, b) ← m; f a b) = Some c → ∃ a b, m = Some (a, b) ∧ f a b = Some c.
Proof. destruct m as [[a b]|]; [|done]. cbn. eauto. Qed.

Section sections.
Context (P : PolicySet) (B : N) (Htyped : policies_typed P) (HB : B ≤ U64_MAX).
Context (s : GovernedState) (HI : Inv P B s) (Hroom : room (N.of_nat PROMOTION_BUDGET) s).
Local Abbreviation still := (trace_of (grip AContinue) P).

(** A measurement, then sections that measure nothing. *)
Lemma reconcile_section_parts sampled pid bytes epoch out s' e' :
  representable P bytes → reconcile_section P sampled pid bytes (Some epoch) s = Some (out, s', e') →
  ∃ s2, still s2 s' ∧ gs_accounting_fault s2 = gs_accounting_fault s ∧
    match out with
    | ReconcileApplied units =>
      ∃ r, gs_permits s !! pid = Some r ∧
        gs_memory_units_held s2 + pl_effective_units (rec_ledger r) = gs_memory_units_held s + units
    | _ => gs_memory_units_held s2 = gs_memory_units_held s
    end.
Proof.
  intros Hrep. unfold reconcile_section.
  pose proof (committed P B s HI sampled) as Hc.
  destruct (committed_reads sampled s) as (E1 & E2 & E3).
  destruct (commit_time sampled s) as [now s1] eqn:Ects. cbn [snd] in *.
  assert (room (N.of_nat PROMOTION_BUDGET) s1) as Hroom1 by (by eapply grows_room; [apply Hc|]).
  pose proof (room_committed P B HB s Hroom s1 Hc) as Hroom0.
  destruct (gs_permits s1 !! pid) as [r|] eqn:Hr; [|intros [= <- <- <-]; by exists s1].
  destruct (ps_class P (rec_class r)) as [policy|]; [|intros [= <- <- <-]; by exists s1].
  destruct (reconcile _ _ _ _ _ _ _) as [o s2] eqn:Er. pose proof Er as Hk.
  destruct Hc as [H1 Hg1]. apply (inv_reconcile P B) in Hk as [H2 Hg2]; [|done..].
  apply (reconcile_on_books B) in Er; [|apply H1|done].
  destruct o as [units| |last|last|err].
  - intros (s3 & e3 & Hp & [= <- <- <-])%bind_Some_pair.
    destruct Er as (r0 & r' & Hr0 & _ & _ & Ep & Ekey & Eu & _ & Ef & Hg).
    exists s2. split; [|split; [congruence|]].
    + eapply (absorb_promote_trace P B); [done|done|exact Hp| |done].
      eapply grows_room; [exact Hg2|]. done.
    + exists r0. split; [congruence|]. specialize (Hg GMemory). cbn in Hg. rewrite Eu in Hg. lia.
  - intros [= <- <- <-]. destruct Er as [-> _]. by exists s1.
  - intros [= <- <- <-]. destruct Er as [-> _]. by exists s1.
  - intros [= <- <- <-]. destruct Er as [-> _]. by exists s1.
  - destruct Er as (r0 & _ & Eu & _).
    destruct (representable_units P (memory_permit_mode policy)
      (pl_remaining_reservation_units (rec_ledger r0)) bytes Hrep) as [u Eu']. congruence.
Qed.

Lemma stage_release_section_parts sampled pid freed sequence out s' e' :
  stage_release_section P sampled pid freed sequence s = Some (out, s', e') →
  ∃ s2, still s2 s' ∧ gs_accounting_fault s2 = gs_accounting_fault s ∧
    gs_memory_units_held s2 ≤ gs_memory_units_held s.
Proof.
  unfold stage_release_section. pose proof (committed P B s HI sampled) as Hc.
  destruct (committed_reads sampled s) as (E1 & E2 & E3).
  destruct (commit_time sampled s) as [now s1] eqn:Ects. cbn [snd] in *.
  assert (room (N.of_nat PROMOTION_BUDGET) s1) as Hroom1 by (by eapply grows_room; [apply Hc|]).
  pose proof (room_committed P B HB s Hroom s1 Hc) as Hroom0.
  destruct (gs_permits s1 !! pid) as [r|] eqn:Hr; [|intros [= <- <- <-]; exists s1; split_and!; [done..|lia]].
  destruct (ps_class P (rec_class r)) as [policy|]; [|intros [= <- <- <-]; exists s1; split_and!; [done..|lia]].
  destruct (release_stage_memory _ _ _ _ _ _) as [o s2] eqn:Er. pose proof Er as Hk.
  destruct Hc as [H1 Hg1]. apply (inv_release_stage P B) in Hk as [H2 Hg2]; [|done..].
  apply (stage_release_on_books B) in Er; [|apply H1|done].
  intros (s3 & e3 & Hp & [= <- <- <-])%bind_Some_pair. exists s2. split.
  - eapply (absorb_promote_trace P B); [done|done|exact Hp| |done].
    eapply grows_room; [exact Hg2|]. done.
  - destruct o as [units| | |last]; [|by destruct Er as [-> _]; split; [|lia]..].
    destruct Er as (r0 & r' & Hr0 & _ & _ & Ep & _ & Eu & _ & Ef & Hg & _). split; [congruence|].
    specialize (Hg GMemory). cbn in Hg. lia.
Qed.
End sections.

Section calls.
Context (P : PolicySet) (authority : N) (Hwf : policy_wf P) (Htyped : policies_typed P).
Context (n : nat) (Hn : within_retention n).
Implicit Types (w : World) (ts : list Ticket) (ps : list PermitId) (ls : list LeaseToken).
Local Abbreviation client := (client P authority n).
Local Abbreviation moved := (moved P authority).

Lemma still_keeps s s' :
  trace_of (grip AContinue) P s s' →
  gs_accounting_fault s' = gs_accounting_fault s ∧ (within_budget P s → within_budget P s').
Proof.
  intros H. split; [|eapply trace_budget; [|exact H]; by intros []].
  induction H as [|s1 s2 s3 Hs _ IH]; [done|]. rewrite IH. eapply tstep_fault; [|exact Hs]. by intros [].
Qed.

(** A drained call whose section keeps the accounting, and the budget unless told
    otherwise. *)
Lemma drained_health w1 w' s :
  reachable P authority w1 → rtc (Total.own_step P authority AContinue) w1 w' → trace_of (grip AContinue) P s (w_state w1) →
  (calm s → calm (w_state w')) ∧ (within_budget P s → within_budget P (w_state w')).
Proof.
  intros Hw Hd Ht. pose proof (mv_trace _ _ _ _ _ (drain_moved P authority Htyped _ _ Hw Hd)) as Ht2.
  destruct (still_keeps _ _ Ht) as [F1 B1], (still_keeps _ _ Ht2) as [F2 B2].
  unfold calm. split; [congruence|auto].
Qed.

Lemma client_reconcile sampled pid bytes epoch ts ps ls w :
  representable P bytes → client ts ps ls w →
  ∃ out w', reconcile_call P sampled pid bytes epoch w = Some (out, w') ∧
    client ts ps ls w' ∧ moved (grip (AReconcile pid)) w w' ∧
    (calm (w_state w) → calm (w_state w')) ∧
    (within_budget P (w_state w) →
     (∀ units r, out = ReconcileApplied units → gs_permits (w_state w) !! pid = Some r →
        units ≤ pl_effective_units (rec_ledger r)) →
     within_budget P (w_state w')).
Proof.
  intros Hrep Hcl. pose proof Hcl as [Hh _]. pose proof (hd_reachable _ _ _ _ _ _ _ Hh) as Hw.
  pose proof (holding_roomy _ _ n Hn _ _ _ _ Hh) as Hr.
  destruct (reconcile_call_runs P authority Hwf Htyped sampled pid bytes epoch w Hw Hr)
    as (out & s & e & w' & Hs & Hcall & Hd).
  pose proof (drained_moved _ _ Htyped _ _ _ _ _ Hw Hd ltac:(done) ltac:(done)) as Hm.
  destruct (holding_inv _ _ Htyped _ _ _ _ _ Hh) as (B & HI & HB).
  destruct (reconcile_section_parts P B Htyped HB (w_state w) HI (roomy_pass _ Hr) _ _ _ _ _ _ _ Hrep Hs)
    as (s2 & Ht & Ef & Hmem).
  destruct Hd as [Ho Hd]. pose proof (own_step_reachable _ _ _ _ _ Hw Ho) as Hw1.
  destruct (drained_health _ _ s2 Hw1 Hd Ht) as [Hc Hb].
  exists out, w'. split; [done|]. split; [by eapply (client_aloof P authority Htyped n Hn (AReconcile pid))|]. split; [done|]. split.
  - intros Hcalm. apply Hc. unfold calm. congruence.
  - intros Hwb Hle. apply Hb. intros Hne. specialize (Hwb Hne).
    destruct out; try (rewrite Hmem; done). destruct Hmem as (r & Hr' & Hmem).
    specialize (Hle _ _ eq_refl Hr'). lia.
Qed.

Lemma client_stage_release sampled pid freed ts ps ls w :
  client ts ps ls w →
  ∃ out w', stage_release_call P sampled pid freed w = Some (out, w') ∧
    client ts ps ls w' ∧ moved (grip (AStageRelease pid)) w w' ∧
    (calm (w_state w) → calm (w_state w')) ∧
    (within_budget P (w_state w) → within_budget P (w_state w')).
Proof.
  intros Hcl. pose proof Hcl as [Hh _]. pose proof (hd_reachable _ _ _ _ _ _ _ Hh) as Hw.
  pose proof (holding_roomy _ _ n Hn _ _ _ _ Hh) as Hr.
  destruct (stage_release_call_runs P authority Hwf Htyped sampled pid freed w Hw Hr)
    as (out & s & e & w' & Hs & Hcall & Hd).
  pose proof (drained_moved _ _ Htyped _ _ _ _ _ Hw Hd ltac:(done) ltac:(done)) as Hm.
  destruct (holding_inv _ _ Htyped _ _ _ _ _ Hh) as (B & HI & HB).
  destruct (stage_release_section_parts P B Htyped HB (w_state w) HI (roomy_pass _ Hr) _ _ _ _ _ _ _ Hs)
    as (s2 & Ht & Ef & Hmem).
  destruct Hd as [Ho Hd]. pose proof (own_step_reachable _ _ _ _ _ Hw Ho) as Hw1.
  destruct (drained_health _ _ s2 Hw1 Hd Ht) as [Hc Hb].
  exists out, w'. split; [done|]. split; [by eapply (client_aloof P authority Htyped n Hn (AStageRelease pid))|]. split; [done|]. split.
  - intros Hcalm. apply Hc. unfold calm. congruence.
  - intros Hwb. apply Hb. intros Hne. specialize (Hwb Hne). lia.
Qed.

(** The leak sweep. *)
Lemma client_reap sampled stale ts ps ls w :
  client ts ps ls w →
  ∃ report w', reap_call P sampled stale w = Some (report, w') ∧
    client ts ps ls w' ∧ moved (grip AReap) w w'.
Proof.
  intros Hcl. pose proof Hcl as [Hh _]. pose proof (hd_reachable _ _ _ _ _ _ _ Hh) as Hw.
  pose proof (holding_roomy _ _ n Hn _ _ _ _ Hh) as Hr.
  destruct (reap_call_runs P authority Hwf Htyped sampled stale w Hw Hr)
    as (report & s & e & w' & Hs & Hcall & Hd).
  pose proof (drained_moved _ _ Htyped _ _ _ _ _ Hw Hd ltac:(done) ltac:(done)) as Hm.
  exists report, w'. split_and!; [done|by eapply (client_aloof P authority Htyped n Hn AReap)|done].
Qed.

Lemma client_close ts ps ls w : client ts ps ls w → client ts ps ls (close_call w) ∧ moved (grip AClose) w (close_call w).
Proof.
  intros Hcl. pose proof Hcl as [Hh _]. pose proof (hd_reachable _ _ _ _ _ _ _ Hh) as Hw.
  pose proof (holding_roomy _ _ n Hn _ _ _ _ Hh) as Hr.
  pose proof (own_moved P authority Htyped _ _ _ Hw (close_call_runs P authority w Hr) ltac:(done) ltac:(done)) as Hm.
  split; [by eapply (client_aloof P authority Htyped n Hn AClose)|done].
Qed.
End calls.

(** ** Admissions *)

(** An admission measures, and does nothing to what others hold. *)
Definition admitting : Grip :=
  mkGrip (λ _, False) (λ _, False) (λ _, False) (λ _, False) (λ _, False) True False.

Lemma admitting_modest : modest admitting.
Proof. split; by intros ? []. Qed.

Section states.
Context (P : PolicySet) (s : GovernedState) (ids : Ids) (Hf : ids_fresh s ids).
Context (req : AdmissionRequest).
Local Abbreviation answered := (answered (G := admitting) P s ids req).

Lemma refused_trace v s' : refused P s req v s' → trace_of admitting P s s'.
Proof. intros [->|[what ->]]%refused_state; [done|by apply trace_one, t_fault]. Qed.

(** A property that traces keep, that survives the grant of a new permit and the
    arrival of a new request. *)
Lemma answered_keeps (K : GovernedState → Prop) d s' :
  (∀ s1 s2, trace_of admitting P s1 s2 → K s1 → K s2) →
  (∀ g, grantable P g s → gr_permit_id g = id_permit ids → gr_pending_ticket g = None → K s → K (grant g s)) →
  (∀ r s1 s2, ids_fresh s1 ids → arrival P ids r s1 → enqueue r s1 = Some s2 → K s1 → K s2) →
  answered d s' → K s → K s'.
Proof.
  intros Ht Hg He [v s2 H|g _ H1 H2 H3 _ _ _ _|s1 r s2 s3 _ H1 H2 _ H3 H4 _ _] HK.
  - eapply Ht; [by eapply refused_trace|done].
  - by apply Hg.
  - eapply Ht; [exact H4|]. eapply He; [|done..|].
    + eapply ids_fresh_books; [|exact Hf]. symmetry. apply H1.
    + eapply Ht; [|exact HK]. by apply retagged_trace.
Qed.

Lemma arrival_queue r s1 s2 class q :
  arrival P ids r s1 → enqueue r s1 = Some s2 → q ∈ waiting s2 class →
  q ∈ waiting s1 class ∨ pr_permit_id q = id_permit ids ∧ pr_ticket q = id_ticket ids.
Proof. intros Har Hen. by eapply arrival_waiting. Qed.

Lemma answered_circulates X d s' :
  few ({[id_ticket ids]} ∪ X) → answered d s' → circulates X s →
  circulates ({[id_ticket ids]} ∪ X) s' ∧ ∀ t, listed s t → listed s' t.
Proof.
  intros HX Hd HC. set (Y := {[id_ticket ids]} ∪ X) in *.
  assert (circulates Y s ∧ ∀ t, listed s t → listed s t) as HY
    by (split; [eapply circulates_mono, HC; set_solver|done]).
  revert Hd HY.
  apply (answered_keeps (λ s', circulates Y s' ∧ ∀ t, listed s t → listed s' t)).
  - intros s1 s2 Ht [H1 H2]. destruct (trace_circulates admitting P Y HX _ _ Ht H1) as [H3 H4].
    split; [done|]. intros t Hl. apply H4; [by intros []|by apply H2].
  - intros g _ Eg Ep [[H1 H2 H3] _].
    assert (gs_tickets (grant g s) = gs_tickets s) as Et by (rewrite grant_tickets; by rewrite Ep).
    split; [split|].
    + intros t. unfold listed. rewrite Et. apply H1.
    + intros class q. rewrite grant_waiting. apply H2.
    + pose proof (grant_records g s) as E.
      assert (gs_terminal_order (grant g s) = gs_terminal_order s) as E2 by exact (f_equal (λ x, x.1.1.2) E).
      assert (gs_terminal_index (grant g s) = gs_terminal_index s) as E3 by exact (f_equal (λ x, x.1.2) E).
      intros seq t. rewrite E2, E3, Et. apply H3.
    + intros t. unfold listed. by rewrite Et.
  - intros r s1 s2 _ Har Hen [[H1 H2 H3] H4]. pose proof (enqueue_records _ _ _ Hen) as [= E1 E2 E3 _].
    split; [split|].
    + intros t. unfold listed. rewrite E1. apply H1.
    + intros class q [Hq|[_ ->]]%(arrival_queue _ _ _ _ _ Har Hen); [by eapply H2|].
      unfold Y. set_solver.
    + intros seq t. rewrite E1, E2, E3. apply H3.
    + intros t Ht. unfold listed. rewrite E1. by apply H4.
Qed.

Lemma answered_known_classes d s' : answered d s' → known_classes P s → known_classes P s'.
Proof.
  apply answered_keeps.
  - intros s1 s2. apply trace_known_classes.
  - intros g Hg _ _. by apply grant_known.
  - intros r s1 s2 _ Har Hen. pose proof (enqueue_cases _ _ _ Hen) as (_ & Hh & _).
    destruct (ar_policy _ _ _ _ Har) as (policy & Hp & _).
    apply known_same; [by eapply enqueue_classes|]. by apply kept_permits, Hh.
Qed.

Lemma answered_permit pid d s' :
  pid ≠ id_permit ids → answered d s' → holds_permit pid s → holds_permit pid s'.
Proof.
  intros Hne. apply answered_keeps.
  - intros s1 s2. apply trace_holds_permit. by intros [].
  - intros g _ Eg _ [H1 H2]. split.
    + intros (class & q & Hq & E). apply H1. exists class, q. by rewrite grant_waiting in Hq.
    + intros r. rewrite grant_permits, lookup_insert_ne by congruence. apply H2.
  - intros r s1 s2 _ Har Hen [H1 H2]. pose proof (enqueue_cases _ _ _ Hen) as (_ & Hh & _). split.
    + intros (class & q & [Hq|[E' _]]%(arrival_queue _ _ _ _ _ Har Hen) & E); [|congruence].
      apply H1. by exists class, q.
    + rewrite (sh_permits _ _ Hh). apply H2.
Qed.

Lemma answered_lease l d s' : answered d s' → holds_lease l s → holds_lease l s'.
Proof.
  apply answered_keeps.
  - intros s1 s2. apply trace_holds_lease. by intros [].
  - intros g Hg _ _ (r & Hr & H). exists r. rewrite grant_permits, lookup_insert_ne; [done|].
    intros E. pose proof (gt_fresh _ _ _ Hg). congruence.
  - intros r s1 s2 _ _ Hen (x & Hx & H). pose proof (enqueue_cases _ _ _ Hen) as (_ & Hh & _).
    exists x. by rewrite (sh_permits _ _ Hh).
Qed.

Lemma answered_ticket X t d s' :
  few ({[id_ticket ids]} ∪ X) → circulates X s → answered d s' → holds_ticket t s → holds_ticket t s'.
Proof.
  intros HX HC Hd [H1 H2]. split; [by eapply answered_circulates|]. revert Hd H2.
  apply (answered_keeps (λ s, ∀ pid, gs_tickets s !! t ≠ Some (TClaiming pid))).
  - apply (trace_keeps P (λ s, ∀ pid, gs_tickets s !! t ≠ Some (TClaiming pid))).
    intros s1 s2 Hs Hn pid E%claiming_ticket_of. pose proof (tstep_ticket _ _ _ _ t Hs) as Ht.
    rewrite E in Ht. inversion Ht as [E'| |st Hok Est|]; [by apply (Hn pid), claiming_ticket_of|].
    destruct st; simplify_eq. by destruct Hok.
  - intros g _ _ Ep. by rewrite grant_tickets, Ep.
  - intros r s1 s2 _ _ Hen. pose proof (enqueue_records _ _ _ Hen) as [= -> _ _ _]. done.
Qed.

Lemma answered_identity d s' :
  answered d s' →
  match d with
  | AdmittedPermit pid => pid = id_permit ids
  | Queued t => t = id_ticket ids
  | Rejected _ => True
  end.
Proof. by intros []. Qed.

(** Sections that measure nothing and close nothing. *)
Lemma quiet_trace s1 s2 :
  trace_of (grip AContinue) P s1 s2 → (calm s1 → calm s2) ∧
  (within_budget P s1 → within_budget P s2) ∧ gs_admission_closed s2 = gs_admission_closed s1.
Proof.
  intros Ht. split_and!.
  - eapply trace_calm, Ht. by intros [].
  - eapply trace_budget, Ht. by intros [].
  - by eapply (trace_gate (grip AContinue) P).
Qed.

(** No answer takes more memory than the budget has. *)
Lemma answered_budget d s' :
  Trace.answered (G := grip AContinue) P s ids req d s' → within_budget P s → within_budget P s'.
Proof.
  intros [v s2 H|g _ Hg _ _ _ _ _ _|s1 r s2 s3 _ H1 _ _ Hen H4 _ _] Hb.
  - apply refused_state in H as [->|[what ->]]; [done|]. intros Hne.
    rewrite (sc_memory _ _ (record_fault_charges _ _)). by apply Hb.
  - by apply grant_within_budget.
  - destruct (quiet_trace s s1) as (_ & A & _); [by apply retagged_trace|].
    destruct (quiet_trace s2 s3 H4) as (_ & C & _). apply C. intros Hne.
    pose proof (enqueue_cases _ _ _ Hen) as (_ & Hh & _). rewrite (sh_memory _ _ Hh). by apply A.
Qed.

(** The accounting and the gate after an answer, when every pool is known. *)
Lemma answered_health d s' :
  (∀ id, id ∈ ar_capabilities req → is_Some (capability_record P id)) →
  Trace.answered (G := grip AContinue) P s ids req d s' → calm s →
  calm s' ∧ gs_admission_closed s' = gs_admission_closed s.
Proof.
  intros Hcaps [v s2 H|g _ Hg _ _ _ _ _ _|s1 r s2 s3 _ H1 _ _ Hen H4 _ _] Hcalm.
  - destruct H as [|what _ [[? E]|(id & Hid & E)]| |]; try done; [by unfold calm in Hcalm; rewrite E in Hcalm|].
    apply Hcaps in Hid as [? Hid]. congruence.
  - pose proof (grant_switches g s) as Hs. split; [|exact (switches_closed _ _ Hs)].
    unfold calm. by rewrite (switches_fault _ _ Hs).
  - destruct (quiet_trace s s1) as (A1 & _ & A3); [by apply retagged_trace|].
    destruct (quiet_trace s2 s3 H4) as (C1 & _ & C3). pose proof (enqueue_switches _ _ _ Hen) as Hs. split.
    + apply C1. unfold calm. rewrite (switches_fault _ _ Hs). by apply A1.
    + rewrite C3, (switches_closed _ _ Hs). apply A3.
Qed.

(** What the caller holds of it. *)
Lemma answered_covers ts ps ls d s' :
  answered d s' → covers ts ps ls s →
  match d with
  | AdmittedPermit pid => covers ts (pid :: ps) ls s' ∧ holds_permit pid s'
  | Queued t => covers (t :: ts) ps ls s' ∧ holds_ticket t s'
  | Rejected _ => covers ts ps ls s'
  end.
Proof.
  assert (∀ s1 s2 ts, trace_of admitting P s1 s2 → covers ts ps ls s1 → covers ts ps ls s2) as Htr
    by (intros s1 s2 ts'; apply trace_covers, admitting_modest).
  intros [v s2 H|g _ H1 Eg Ep _ _ _ _|s1 r s2 s3 _ H1 Har _ Hen H4 _ Et] HC.
  - eapply Htr; [by eapply refused_trace|done].
  - destruct HC as [C1 C2]. split; split.
    + intros pid x. rewrite grant_permits. intros [[<- <-]|[_ Hx]]%lookup_insert_Some.
      * cbn. rewrite Ep, Eg. by left.
      * specialize (C1 pid x Hx). destruct (rec_lease_nonce x), (rec_pending_ticket x); try done. by right.
    + intros class q. rewrite grant_waiting. apply C2.
    + intros (class & q & Hq & E). rewrite grant_waiting in Hq. by apply (fresh_reserved _ _ Hf) in Hq.
    + intros x. rewrite grant_permits, Eg, lookup_insert_eq. intros [= <-]. by cbn.
  - split; [|split; [unfold listed|]; rewrite Et; [by eexists|done]].
    eapply Htr; [exact H4|].
    apply (Htr s s1) in HC as [C1 C2]; [|by apply retagged_trace].
    pose proof (enqueue_cases _ _ _ Hen) as (_ & Hh & _). split.
    + intros pid x Hx. rewrite (sh_permits _ _ Hh) in Hx. specialize (C1 pid x Hx).
      destruct (rec_lease_nonce x), (rec_pending_ticket x); try done. by right.
    + intros class q [Hq|[_ ->]]%(arrival_queue _ _ _ _ _ Har Hen); [right; by eapply C2|by left].
Qed.
End states.

Section calls.
Context (P : PolicySet) (authority : N) (Hwf : policy_wf P) (Htyped : policies_typed P).
Implicit Types (w : World) (ts : list Ticket) (ps : list PermitId) (ls : list LeaseToken).
Local Abbreviation client := (client P authority).
Local Abbreviation holding := (holding P authority).

(** The identities of the admission after [n] others. *)
Definition next_ids (n : nat) : Ids :=
  let k := N.of_nat n + 1 in mkIds (mkPermitId authority k) (mkTicket authority k) k.

Lemma next_fresh n :
  within_retention n →
  let k := N.of_nat n + 1 in
  fresh_ids authority (mkCounters k k k) = (Some (next_ids n), mkCounters (k + 1) (k + 1) (k + 1)).
Proof.
  unfold within_retention, MAX_TERMINAL_TICKETS. intros Hn. unfold fresh_ids, take_sequence. cbn.
  rewrite (proj2 (checked_add_Some U64_MAX (N.of_nat n + 1) 1 (N.of_nat n + 1 + 1))) by ulia. done.
Qed.

(** What the caller holds after an answer. *)
Definition enrolled (n : nat) ts ps ls (d : AdmissionDecision) w : Prop :=
  match d with
  | AdmittedPermit pid => client (S n) ts (pid :: ps) ls w
  | Queued t => client (S n) (t :: ts) ps ls w
  | Rejected _ => client (S n) ts ps ls w
  end.

Lemma client_enrolled n ts ps ls w w' s1 req d :
  within_retention (S n) → client n ts ps ls w → same_books s1 (w_state w) → trace_of admitting P (w_state w) s1 →
  ids_fresh s1 (next_ids n) → answered (G := admitting) P s1 (next_ids n) req d (w_state w') →
  reachable P authority w' → w_outstanding w' = [] → later P authority w w' →
  w_counters w' = mkCounters (N.of_nat (S n) + 1) (N.of_nat (S n) + 1) (N.of_nat (S n) + 1) →
  enrolled n ts ps ls d w'.
Proof.
  intros Hn [Hh HC] Hb Ht1 Hf Hd Hw' Ho Hl Hk.
  destruct Hh as [Hw Hi Hk0 Hld (X & HX & HCi) Hkn Nt Kt Np Kp Nl Kl].
  set (Y := {[id_ticket (next_ids n)]} ∪ X).
  assert (few X) as HfX by (unfold few, within_retention in *; lia).
  assert (few Y) as HfY.
  { unfold few, within_retention, Y in *. pose proof (size_union_alt {[id_ticket (next_ids n)]} X) as E.
    rewrite E, size_singleton. pose proof (subseteq_size (X ∖ {[id_ticket (next_ids n)]}) X ltac:(set_solver)). lia. }
  assert (size Y ≤ S n)%nat as HsY.
  { unfold Y. pose proof (size_union_alt {[id_ticket (next_ids n)]} X) as E.
    rewrite E, size_singleton. pose proof (subseteq_size (X ∖ {[id_ticket (next_ids n)]}) X ltac:(set_solver)). lia. }
  destruct (trace_circulates admitting P X HfX _ _ Ht1 HCi) as [HC1 _].
  destruct (answered_circulates P s1 _ Hf req X d _ HfY Hd HC1) as [HC2 _].
  assert (holding (S n) ts ps ls w') as Hh'.
  { split; try done.
    - apply answered_load in Hd; [|done]. apply trace_load in Ht1. lia.
    - by exists Y.
    - eapply answered_known_classes; [done|done|]. by eapply trace_known_classes.
    - intros t Hin. eapply answered_ticket; [done|exact HfY|exact HC1|done|].
      eapply (trace_holds_ticket P admitting X); [done|exact HCi|by intros []..|exact Ht1|by apply Kt].
    - intros pid Hin. destruct (Kp pid Hin) as [K1 K2]. split.
      + eapply answered_permit; [done| |exact Hd|].
        * intros ->. destruct K2 as [K2 _]. rewrite Hk0 in K2. cbn in K2. lia.
        * eapply trace_holds_permit; [|exact Ht1|done]. by intros [].
      + revert K2. apply (later_keeps P authority Htyped (λ w, spent_permit w pid)) with (w := w);
          [|done..]. intros w1 w2 _. apply spent_permit_effect.
    - intros l Hin. eapply answered_lease; [exact Hf|exact Hd|].
      eapply trace_holds_lease; [|exact Ht1|by apply Kl]. by intros []. }
  pose proof (answered_covers P s1 _ Hf req ts ps ls d _ Hd) as HC'.
  specialize (HC' (trace_covers P admitting ts ps ls _ _ admitting_modest Ht1 HC)).
  pose proof (answered_identity P s1 _ req d _ Hd) as Hid.
  destruct d as [pid|t|v]; cbn [enrolled]; [subst pid|subst t|by split].
  - destruct HC' as [HC' Hp]. split; [|done]. apply holding_permit_cons; [done| |done|].
    + intros Hin. destruct (Kp _ Hin) as [_ [K2 _]]. rewrite Hk0 in K2. cbn in K2. lia.
    + split; [rewrite Hk; cbn; lia|rewrite Ho; apply not_elem_of_nil].
  - destruct HC' as [HC' Ht]. split; [|done]. apply holding_ticket_cons; [done| |done].
    intros Hin. destruct (Kt _ Hin) as [Hlist _]. pose proof (fresh_ticket _ _ Hf) as Hno.
    unfold listed in Hlist. rewrite <-Hb, Hno in Hlist. by destruct Hlist.
Qed.

Lemma client_admit sampled spec n ts ps ls w :
  within_retention (S n) → client n ts ps ls w → validate_borrowed spec = inr () →
  ∃ caps d w',
    declared_requirements P spec = Some caps ∧
    admit_call P authority sampled spec w = Some (d, w') ∧
    (∀ G, answered (G := G) P (commit_time sampled (w_state w)).2 (next_ids n)
            (mkRequest spec caps) d (w_state w')) ∧
    ids_fresh (commit_time sampled (w_state w)).2 (next_ids n) ∧
    later P authority w w' ∧ enrolled n ts ps ls d w'.
Proof.
  intros Hn [Hh HC] Hv. pose proof (hd_reachable _ _ _ _ _ _ _ Hh) as Hw.
  assert (within_retention n) as Hn0 by (unfold within_retention in *; lia).
  pose proof (holding_roomy P authority n Hn0 _ _ _ _ Hh) as Hr.
  pose proof (next_fresh n Hn0) as Hfr. cbn zeta in Hfr. rewrite <-(hd_counters _ _ _ _ _ _ _ Hh) in Hfr.
  set (k := mkCounters _ _ _) in Hfr.
  destruct (admit_call_runs P authority Hwf Htyped sampled spec (next_ids n) k w Hw Hr Hv Hfr)
    as (caps & d & s & e & Hcaps & Hsec & Hcall & Ho1 & Ho2).
  pose proof (own_step_reachable P authority _ _ _ Hw Ho1) as Hw1.
  pose proof (own_step_reachable P authority _ _ _ Hw1 Ho2) as Hw2.
  set (w1 := mkWorld _ _ (next_ids n :: _) _ _) in *. set (w2 := mkWorld s _ _ _ _) in *.
  assert (later P authority w w2) as Hl.
  { destruct Ho1 as [R1 [e1 S1]], Ho2 as [R2 [e2 S2]].
    eapply rtc_l; [split; [done|by eapply lstep_wstep]|]. apply rtc_once.
    split; [done|by eapply lstep_wstep]. }
  exists caps, d, w2. split; [done|]. split; [done|].
  unfold admit_section in Hsec. pose proof (commit_time_books sampled (w_state w)) as Hb.
  destruct (commit_time sampled (w_state w)) as [now s1] eqn:Ec. cbn [snd] in *.
  assert (ids_fresh s1 (next_ids n)) as Hf.
  { pose proof (reachable_ok P authority Htyped w1 Hw1) as Hok.
    destruct (world_fresh _ _ Hok (next_ids n)) as (F1 & F2 & _); [by left|].
    eapply ids_fresh_books; [symmetry; exact Hb|]. split; [|done|].
    - apply eq_None_not_Some. intros H. apply F1. by left.
    - intros class q Hq E. apply F1. right. by exists class, q. }
  assert (NoDup caps) as Hnd.
  { destruct (declared_requirements_resolve P spec Hwf) as (pools & caps' & _ & Hres & Hcaps' & _).
    assert (caps' = caps) as -> by congruence. by eapply from_resolved_NoDup. }
  assert (∀ G, answered (G := G) P s1 (next_ids n) (mkRequest spec caps) d (w_state w2)) as Hans
    by (intros G; by eapply (admit_request_answered (G := G) P s1 (next_ids n) Hf now (mkRequest spec caps) Hnd)).
  do 3 (split; [done|]).
  eapply (client_enrolled n ts ps ls w w2 s1); try done.
  - assert (s1 = (commit_time sampled (w_state w)).2) as -> by (by rewrite Ec). by apply trace_one, t_clock.
  - apply (hd_idle _ _ _ _ _ _ _ Hh).
  - unfold w2. cbn. f_equal; lia.
Qed.
End calls.
