(* ===== verification/Budget.v ===== *)
(** * The memory budget

    Consistency.v bounds inflight permits, pools and CPU.  Memory is bounded by
    admission only: a measurement records what is so, and may say more than the budget
    has.  Nothing else ever takes the memory held past it. *)

From S2P Require Import Prelude Contract Text Validation Kernel PolicyCheck Requirements State.
From S2P Require Import Assess Fairness Admission Memory Governor Policies Books Custody Ledger.
From S2P Require Import Moves Reads Invariant Steps Selection Ring Dispatch Sections Progress.
From S2P Require Import Lifecycle Trace System Queues Runs Fifo Consistency Cycles Numbers Fates.
From S2P Require Import Grips Total Contracts Calls Gates Refinement Owned Watched Health Client.
From S2P Require Import Metered.

Section budget.
Context (P : PolicySet) (authority : N) (Htyped : policies_typed P).
Implicit Types w : World.

Lemma admit_section_budget w sampled req caps waker ids out d s e :
  reachable P authority w → w_outstanding w ≡ₚ ids :: out → from_resolved caps = inr (ar_capabilities req) →
  admit_section P sampled req waker ids (w_state w) = Some (d, s, e) →
  within_budget P (w_state w) → within_budget P s.
Proof.
  intros Hw Hout Hcaps Ha. pose proof (reachable_ok P authority Htyped w Hw) as Hok.
  destruct (world_fresh _ _ Hok ids) as (F1 & F2 & _); [rewrite Hout; by left|].
  unfold admit_section in Ha. pose proof (commit_time_books sampled (w_state w)) as Hb.
  destruct (committed_reads sampled (w_state w)) as (_ & Em & _).
  destruct (commit_time sampled (w_state w)) as [now s1]. cbn [snd] in *.
  assert (ids_fresh s1 ids) as Hf.
  { eapply ids_fresh_books; [symmetry; exact Hb|]. split; [|done|].
    - apply eq_None_not_Some. intros H. apply F1. by left.
    - intros class q Hq E. apply F1. right. by exists class, q. }
  intros Hwb. eapply answered_budget.
  - eapply (admit_request_answered P s1 ids Hf); [by eapply from_resolved_NoDup|exact Ha].
  - intros Hne. rewrite Em. by apply Hwb.
Qed.

(** A step that is no measurement of a permit. *)
Definition unmeasured (a : Action) : Prop := ∀ pid, a ≠ AReconcile pid.

Lemma lstep_budget w a e w' :
  reachable P authority w → room (N.of_nat PROMOTION_BUDGET) (w_state w) → lstep P authority w a e w' →
  unmeasured a → within_budget P (w_state w) → within_budget P (w_state w').
Proof.
  intros Hw Hroom Hs Ha Hb.
  assert (a ≠ AIssue → (∀ ids, a ≠ AAdmit ids) → ¬ may_measure (grip a) → within_budget P (w_state w'))
    as Hquiet.
  { intros Hi Had Hm. assert (Total.own_step P authority a w w') as Ho by (split; [done|by exists e]).
    eapply trace_budget; [exact Hm|apply (mv_trace _ _ _ _ _ (own_moved P authority Htyped a w w' Hw Ho Hi Had))|done]. }
  destruct Hs as [| |sampled req caps waker ids out d s e Hout Hcaps Hsec| | | | | | | |
    |sampled pid freed sequence out s e Hsec| | |]; try done; try (by apply Hquiet; [..|intros []]).
  - by eapply admit_section_budget.
  - by destruct (Ha pid).
  - destruct (reachable_inv P authority w Htyped Hw) as (B & HI & HB).
    destruct (stage_release_section_parts P B Htyped HB (w_state w) HI Hroom _ _ _ _ _ _ _ Hsec)
      as (s2 & Ht & _ & Hle).
    apply (still_keeps P _ _ Ht). intros Hne. specialize (Hb Hne). cbn. lia.
Qed.

(** Runs without a measurement. *)
Definition unmeasured_run : relation World :=
  rtc (λ w w', room (N.of_nat PROMOTION_BUDGET) (w_state w) ∧
                 ∃ a e, lstep P authority w a e w' ∧ unmeasured a).
End budget.

(** A run of labels that measure nothing. *)
Lemma run_unmeasured P authority ls w w' :
  forallb (λ l, negb (measures l)) ls = true → run P authority ls w = Some w' →
  unmeasured_run P authority w w'.
Proof.
  revert w. induction ls as [|l ls IH]; intros w; cbn.
  { intros _ [= <-]. apply rtc_refl. }
  intros [Hl%negb_true_iff Hls]%andb_true_iff. case_decide as Hr; [|done].
  intros (w1 & H1 & H)%bind_Some. apply exec_lstep in H1 as (a & e & Hs & Ha).
  eapply rtc_l; [|by apply IH]. split; [done|]. exists a, e. split; [done|exact (Ha Hl)].
Qed.

(** C4: Memory never exceeds its budget by admission.  Along any run in which no
    permit is measured, whatever else happens (admissions, promotions, claims,
    releases, stage releases, sweeps), the memory units of the live permits stay within
    a budget they were within at the start; so they do in every such run from a new
    governor. *)
Theorem memory_within_budget P authority w w' :
  policies_typed P → reachable P authority w → unmeasured_run P authority w w' →
  let held (s : GovernedState) := msum (λ r, pl_effective_units (rec_ledger r)) (gs_permits s) in
  let budget := max_memory_units (ps_resources P) in
  budget ≠ 0 → held (w_state w) ≤ budget → held (w_state w') ≤ budget.
Proof.
  intros Ht Hw Hrun held budget Hne.
  assert (∀ w, reachable P authority w → gs_memory_units_held (w_state w) = held (w_state w)) as Hheld.
  { intros w0 H0. destruct (reachable_inv P authority w0 Ht H0) as (B & [[HL _ _] _ _] & _).
    apply (HL GMemory). }
  rewrite <-(Hheld w Hw). intros Hb.
  assert (within_budget P (w_state w)) as Hwb by (by intros _). clear Hb.
  revert Hw Hwb. induction Hrun as [w1|w1 w2 w3 [Hroom (a & e & Hs & Ha)] _ IH]; intros Hw Hwb.
  - rewrite <-(Hheld w1 Hw). by apply Hwb.
  - apply IH; [|by eapply lstep_budget].
    eapply reachable_step; [exact Hw|exact Hroom|by eapply lstep_wstep].
Qed.

(** Admitting a task of two memory units takes a new governor's total to two. *)
Lemma memory_within_budget_witness :
  let held (s : GovernedState) := msum (λ r, pl_effective_units (rec_ledger r)) (gs_permits s) in
  held (w_state parent_world) = 2 ∧ held (w_state parent_world) ≤ 100.
Proof.
  split; [vm_compute; reflexivity|].
  apply (memory_within_budget demo_policy 1 World_initial parent_world demo_typed
    (reachable_initial demo_policy 1)); [|vm_compute; discriminate|vm_compute; discriminate].
  apply (run_unmeasured demo_policy 1 [LFresh; LAdmit 10 (demo_task "ingest" "p") None]);
    [reflexivity|vm_compute; reflexivity].
Defined.
