(* ===== verification/ChurnPolicy.v ===== *)
(** * The policies of the admission churn target

    Every scenario yields a policy over the three classes, whose budget and blocking
    limit are the scenario's; the tables the harness keeps about it agree with it. *)

From S2P Require Import Prelude Contract Text Validation Kernel Executors PolicyCheck State Assess.
From S2P Require Import Fairness Admission Memory Observe Governor Policies Plan Builds Sections.
From S2P Require Import System Calls Churn Metered.

Local Open Scope N_scope.

(** ** The classes of a scenario *)

(** The class a policy degrades to. *)
Definition fallback_class_of (p : ClassPolicy) : option TaskClass :=
  match memory_overcommit_policy p with DegradeToLight fallback => Some fallback | _ => None end.

Lemma fallback_of_Some index : ∃ fallback, fallback_of index = Some fallback ∧ fallback ∈ CLASSES.
Proof.
  destruct (lookup_lt_is_Some_2 CLASSES (N.to_nat ((index + 1) `mod` N.of_nat (length CLASSES))))
    as [c Hc].
  { pose proof (N.mod_lt (index + 1) (N.of_nat (length CLASSES)) ltac:(done)). lia. }
  exists c. split; [done|]. by eapply list_elem_of_lookup_2.
Qed.

Lemma mod_u32 x m : 0 < m → m ≤ U32_MAX → x `mod` m ≤ U32_MAX.
Proof. intros H ?. pose proof (N.mod_lt x m ltac:(lia)). lia. Qed.

Lemma fairness_of_typed selector index :
  selector ≤ U8_MAX → index ≤ 2 →
  match fairness_of selector index with
  | WeightedFairQueue w b => w ≤ U32_MAX ∧ b ≤ U32_MAX
  | DeficitRoundRobin q => q ≤ U32_MAX
  | DeadlineAware s => s ≤ U64_MAX
  | _ => True
  end.
Proof.
  intros Hs Hi. assert (selector / 4 ≤ selector) as Hd by (apply N.Div0.div_le_upper_bound; lia).
  unfold fairness_of. destruct (selector `mod` 4) as [|[[]|[]|]]; try done; ulia.
Qed.

Lemma class_policy_Some shape tier index :
  tier ≤ U8_MAX → index ≤ 2 →
  ∃ p, class_policy shape (fairness_of tier index) index = Some p ∧ policy_typed p ∧
    (∀ fallback, fallback_class_of p = Some fallback → fallback ∈ CLASSES).
Proof.
  intros Ht Hi. destruct (fallback_of_Some index) as (fallback & Hf & Hin).
  assert (∃ overcommit,
    match sh_overcommit shape `mod` 3 with
    | 0 => Some OvercommitReject
    | 1 => Some OvercommitQueue
    | _ => f ← fallback_of index; Some (DegradeToLight f)
    end = Some overcommit ∧ (∀ f, overcommit = DegradeToLight f → f ∈ CLASSES)) as (o & Ho & Hoin).
  { rewrite Hf. cbn [mbind option_bind]. destruct (sh_overcommit shape `mod` 3) as [|[]];
      eexists; split; try done; by intros f [= <-]. }
  unfold class_policy. rewrite Ho. cbn [mbind option_bind]. eexists. split; [reflexivity|]. split.
  - split; [apply mod_u32; ulia..|]. by apply fairness_of_typed.
  - unfold fallback_class_of. cbn. destruct o; try done. intros f [= <-]. by apply Hoin.
Qed.

(** The tables of the harness describe the classes declared so far. *)
Record tables (d : Declared) : Prop := {
  tb_class class : is_Some (de_classes d !! class) → class ∈ CLASSES;
  tb_typed class p : de_classes d !! class = Some p → policy_typed p;
  tb_fallback class p fallback :
    de_classes d !! class = Some p → fallback_class_of p = Some fallback → fallback ∈ CLASSES;
  tb_limits class :
    de_limits d !! class = (λ p, (max_inflight p, max_queue_depth p)) <$> de_classes d !! class;
  tb_memory_cost class :
    de_memory_cost d !! class =
      (λ p, (pc_memory_units (permit_cost p), fallback_class_of p)) <$> de_classes d !! class;
}.

Lemma declare_shape_tables tier d index shape :
  tier ≤ U8_MAX → index ≤ 2 → tables d →
  ∃ class p, CLASSES !! N.to_nat index = Some class ∧
    ∃ d', declare_shape tier (Some d) (index, shape) = Some d' ∧ tables d' ∧
      de_classes d' = <[class := p]> (de_classes d).
Proof.
  intros Ht Hi [H1 H2 H3 H4 H5].
  destruct (class_policy_Some shape tier index Ht Hi) as (p & Hp & Htyped & Hfb).
  destruct (lookup_lt_is_Some_2 CLASSES (N.to_nat index)) as [class Hc]; [cbn; lia|].
  exists class, p. split; [done|]. unfold declare_shape. cbn [mbind option_bind]. rewrite Hc.
  cbn [mbind option_bind]. rewrite Hp. cbn [mbind option_bind]. eexists. split; [reflexivity|].
  split; [|done]. split; cbn [de_classes de_limits de_memory_cost]; intros k; intros *.
  - intros [->|[_ H]]%lookup_insert_is_Some; [by eapply list_elem_of_lookup_2|by apply H1].
  - intros [[<- <-]|[_ H]]%lookup_insert_Some; [done|by eapply H2].
  - intros [[<- <-]|[_ H]]%lookup_insert_Some; [apply Hfb|by eapply H3].
  - destruct (decide (k = class)) as [->|Hne]; [by rewrite !lookup_insert_eq|].
    by rewrite !lookup_insert_ne.
  - destruct (decide (k = class)) as [->|Hne]; [by rewrite !lookup_insert_eq|].
    by rewrite !lookup_insert_ne.
Qed.

Lemma declare_tables sc :
  scenario_typed sc →
  ∃ d, declare sc = Some d ∧ tables d ∧ ∀ class, class ∈ CLASSES → is_Some (de_classes d !! class).
Proof.
  intros [Hf _]. unfold declare, shapes. destruct (sc_classes sc) as [[alpha beta] gamma]. cbn [foldl].
  assert (tables (mkDeclared ∅ ∅ ∅)) as T0.
  { split; intros *; cbn; rewrite ?lookup_empty; try done; by intros []. }
  destruct (declare_shape_tables (sc_fairness sc) _ 0 alpha Hf ltac:(done) T0) as (c0 & p0 & [= <-] & d0 & -> & T1 & E0).
  destruct (declare_shape_tables (sc_fairness sc) _ 1 beta Hf ltac:(done) T1) as (c1 & p1 & [= <-] & d1 & -> & T2 & E1).
  destruct (declare_shape_tables (sc_fairness sc) _ 2 gamma Hf ltac:(done) T2) as (c2 & p2 & [= <-] & d2 & -> & T3 & E2).
  exists d2. split_and!; [done..|]. intros class. rewrite E2, E1, E0. unfold CLASSES.
  rewrite !elem_of_cons, elem_of_nil, !lookup_insert_is_Some'. naive_solver.
Qed.

(** ** The governor of a scenario *)

(** A policy the target runs. *)
Record target_policy (sc : Scenario) (d : Declared) (P : PolicySet) : Prop := {
  tp_wf : policy_wf P;
  tp_built : built P;
  tp_classes : ps_classes P = de_classes d;
  tp_resources : ps_resources P = scenario_resources sc;
  tp_blocking : capability_capacity P "blocking" = Some (capacity_of (scenario_blocking_limit sc));
}.

Lemma target_typed sc d P : tables d → target_policy sc d P → policies_typed P.
Proof. intros T H class p. unfold ps_class. rewrite (tp_classes _ _ _ H). apply (tb_typed _ T). Qed.

(** A measurement of 16 bits fits the scale of the target. *)
Lemma target_representable sc d P bytes :
  target_policy sc d P → bytes ≤ 65535 → representable P bytes.
Proof.
  intros H Hb. unfold representable. rewrite (tp_resources _ _ _ H). cbn. split; [done|ulia].
Qed.

Lemma PolicySet_new_fields registry resources classes :
  ∃ P0, PolicySet_new registry resources classes = Some P0 ∧ ps_substrates P0 = builtin_registry ∧
    ps_classes P0 = classes ∧ ps_resources P0 = resources.
Proof. unfold PolicySet_new. rewrite builtin_registry_ok. eexists. by split_and!. Qed.

(** A pool the registry provides can be limited. *)
Lemma declares_blocking limit P v :
  ps_substrates P = builtin_registry →
  with_capability_limits {["blocking"%string := limit]} P ≠ inl v.
Proof.
  intros Es. unfold with_capability_limits.
  assert (btree_to_list ({["blocking"%string := limit]} : gmap string N) = [("blocking"%string, limit)]) as ->.
  { apply Permutation_singleton_r. by rewrite btree_to_list_perm, map_to_list_singleton. }
  cbn [declare_limits]. unfold declare_limit.
  assert (is_blank "blocking" = false) as -> by (vm_compute; reflexivity).
  destruct (existsb _ _) eqn:En; [cbn; discriminate|]. exfalso. rewrite Es in En.
  destruct (builtin_name "blocking") as (s & Hs & Hn); [by right; left|].
  apply builtin_records_ok in Hs as (_ & Hk & Hp & _ & _ & Hl).
  eapply diff_true_false. rewrite <-En. symmetry. apply existsb_exists. exists s. split.
  - apply list_elem_of_In, list_elem_of_fmap. exists (sr_name s, s). split; [reflexivity|].
    by apply elem_of_btree_to_list.
  - rewrite bool_decide_eq_false_2 by done. by rewrite bool_decide_eq_true_2 by congruence.
Qed.

Lemma blocking_declares registry resources classes limit :
  ∃ P0 P, PolicySet_new registry resources classes = Some P0 ∧
    with_capability_limits {["blocking"%string := limit]} P0 = inr P ∧ built P ∧
    ps_classes P = classes ∧ ps_resources P = resources ∧
    capability_capacity P "blocking" = Some (capacity_of limit).
Proof.
  destruct (PolicySet_new_fields registry resources classes) as (P0 & E0 & Es & Ec & Er).
  assert (built P0) as Hb by (by eapply built_new). exists P0.
  destruct (with_capability_limits {["blocking"%string := limit]} P0) as [v|P] eqn:E.
  - exfalso. eapply declares_blocking, E. congruence.
  - exists P. pose proof (with_capability_limits_inr _ _ _ (built_keyed _ Hb) E) as (_ & Hc & Hr & Hcap).
    split_and!; [done|done|by eapply built_limits|..].
    + by rewrite Hc.
    + by rewrite Hr.
    + by rewrite Hcap, lookup_singleton_eq.
Qed.

(** The target gets as far as a governor, unless its policy is refused. *)
Lemma target_starts registry next_authority sc :
  scenario_typed sc →
  fuzz_target registry next_authority sc = Some () ∨
  ∃ d P authority, tables d ∧ (∀ class, class ∈ CLASSES → is_Some (de_classes d !! class)) ∧
    target_policy sc d P ∧
    let h := mkHarness World_initial (ManualClock_new 1000) (de_limits d) (de_memory_cost d)
      (scenario_budget sc) false (scenario_blocking_limit sc) [] [] [] [] false [] ∅ ∅ in
    fuzz_target registry next_authority sc =
      (_ ← check P h; h ← run_ops P authority 0 (take 256 (sc_ops sc)) h; finish P h).
Proof.
  intros Hsc. destruct (declare_tables sc Hsc) as (d & Hd & T & Hall).
  destruct (blocking_declares registry (scenario_resources sc) (de_classes d) (scenario_blocking_limit sc))
    as (P0 & P & H0 & H1 & Hb & Hc & Hr & Hcap).
  unfold fuzz_target. rewrite Hd. cbn [mbind option_bind]. rewrite H0. cbn [mbind option_bind]. rewrite H1.
  unfold Governor_new. destruct (validate_policy P) as [v|[]] eqn:Ev; [by left|].
  apply validate_policy_inr in Ev. unfold construct, take_sequence.
  destruct (checked_add _ _ _) as [n|]; [|by left]. right. exists d, P, next_authority.
  split; [done|]. split; [done|]. split; [by split|]. done.
Qed.
