(* ===== verification/ChurnOrigins.v ===== *)
(** * Who submitted what: the origins of the admission churn target

    The harness notes the root of every submission.  Its notes are about the permits
    and requests there are, whatever promotes them; and a wait cycle the engine reports
    is one by them: the capacity named is held, and by the root's own permit alone. *)

From stdpp Require Import pretty.
From S2P Require Import Prelude Contract Text Validation Kernel Executors PolicyCheck Requirements.
From S2P Require Import State Assess Fairness Admission Memory Observe Governor Policies Books.
From S2P Require Import Custody Ledger Moves Reads Invariant Steps Selection Ring Dispatch Sections.
From S2P Require Import Progress Lifecycle Trace System Queues Runs Fifo Consistency Cycles Fates.
From S2P Require Import Grips Total Contracts Calls Churn Identities Gates Refinement Owned Watched.
From S2P Require Import Health Client Metered ChurnPolicy.

Local Open Scope N_scope.

(** ** Names *)

(** The first characters tell the names of the target apart. *)
Lemma op_is_no_root j k : numbered "op" j ≠ numbered "root" k.
Proof. unfold numbered. by intros [=]. Qed.
Lemma op_is_no_orphan j k : numbered "op" j ≠ numbered "orphan" k.
Proof. unfold numbered. by intros [=]. Qed.

(** The names of the first 256 steps are identifiers. *)
Lemma numbered_identifier name k :
  name ∈ ["root"; "op"; "stage"; "orphan"]%string → k < 256 → identifier (numbered name k).
Proof.
  intros Hn Hk. apply identifier_violation_none.
  assert (forallb (λ name, forallb (λ k,
    bool_decide (identifier_violation (numbered name (N.of_nat k)) = None)) (seq 0 256))
    ["root"; "op"; "stage"; "orphan"]%string = true) as H by (vm_compute; reflexivity).
  rewrite forallb_forall in H. specialize (H name (proj1 (list_elem_of_In _ _) Hn)).
  rewrite forallb_forall in H. specialize (H (N.to_nat k)). rewrite N2Nat.id in H.
  rewrite bool_decide_eq_true in H. apply H, in_seq. split; [apply Nat.le_0_l|lia].
Qed.

Lemma class_identifier class : class ∈ CLASSES → identifier class.
Proof.
  intros Hc. apply identifier_violation_none.
  assert (forallb (λ class, bool_decide (identifier_violation class = None)) CLASSES = true) as H
    by (vm_compute; reflexivity).
  rewrite forallb_forall in H. specialize (H class (proj1 (list_elem_of_In _ _) Hc)).
  by rewrite bool_decide_eq_true in H.
Qed.

(** An origin is whose the identity says. *)
Definition belongs (o : Origin) (who : string * string * TaskScope) : Prop :=
  let '(root, op, scope) := who in
  or_root o = root ∧
  if or_is_root o then op = root ∧ scope = Root else ∃ k, op = numbered "op" k.

(** The roots named before step [seq]. *)
Definition roots_before (seq : N) (roots : list string) : Prop :=
  ∀ name, name ∈ roots → ∃ k, k < seq ∧ name = numbered "root" k.

(** What the harness knows of a submission it makes. *)
Record submission (seq : N) (roots : list string) (task : TaskSpec) (origin : Origin) (declared : bool)
  : Prop := {
  sb_valid : validate_borrowed task = inr ();
  sb_class : ts_class task ∈ CLASSES;
  sb_belongs : belongs origin (spec_who task);
  sb_roots : roots_before (seq + 1) (if or_is_root origin then roots ++ [or_root origin] else roots);
  sb_awaits op stage :
    ts_scope task = Child op stage true →
    declared = true ∧ op = or_root origin ∧ ts_root_operation_id task = or_root origin ∧
    ∀ k, numbered "op" k ≠ or_root origin;
}.

Lemma base_valid class hint name :
  class ∈ CLASSES → identifier name → plan_wf (with_operation name (task_base class hint)).
Proof.
  intros Hc Hn. split; cbn; try done.
  - by apply class_identifier.
  - constructor; [|constructor]. split_and!; cbn; try done.
    apply identifier_violation_none. destruct hint; vm_compute; reflexivity.
  - apply NoDup_singleton.
Qed.

Lemma child_valid class hint root op stage awaits :
  class ∈ CLASSES → identifier root → identifier op → identifier stage → op ≠ root →
  plan_wf (with_scope root root stage awaits (with_operation op (task_base class hint))).
Proof.
  intros Hc Hr Ho Hs Hne. destruct (base_valid class hint op Hc Ho). split; cbn in *; try done.
Qed.

Lemma pick_lt {A} (l : list A) (n : N) :
  l ≠ [] → is_Some (l !! N.to_nat (n `mod` N.of_nat (length l))).
Proof.
  intros Hl. apply lookup_lt_is_Some_2. destruct l as [|x l]; [done|].
  pose proof (N.mod_lt n (N.of_nat (length (x :: l))) ltac:(cbn; lia)). lia.
Qed.

Lemma spec_submission class substrate scope root roots seq :
  seq < 256 → roots_before seq roots →
  ∃ task origin declared, spec class substrate scope root roots seq = Some (task, origin, declared) ∧
    submission seq roots task origin declared.
Proof.
  intros Hseq Hroots. unfold spec. destruct (pick_lt CLASSES class) as [c Hc]; [done|].
  rewrite Hc. cbn [mbind option_bind]. apply list_elem_of_lookup_2 in Hc.
  set (hint := match substrate `mod` 4 with 0 => AsyncIo | 1 => BlockingPool | 2 => SharedCpuExecutor | _ => LocalRuntime end).
  assert (∀ n, n ∈ ["root"; "op"; "stage"; "orphan"]%string → identifier (numbered n seq)) as Hid
    by (intros; by apply numbered_identifier).
  assert (∃ name, match roots with
     | [] => Some (numbered "orphan" (root `mod` 4))
     | _ => roots !! N.to_nat (root `mod` N.of_nat (length roots))
     end = Some name ∧ identifier name ∧ ∀ k, numbered "op" k ≠ name) as (name & Hname & Hni & Hop).
  { destruct roots as [|r roots'] eqn:E.
    - eexists. split; [done|]. split; [|intros k'; apply op_is_no_orphan].
      apply numbered_identifier; [set_solver|]. pose proof (N.mod_lt root 4 ltac:(done)). lia.
    - rewrite <-E in *. destruct (pick_lt roots root) as [name Hn]; [by rewrite E|]. exists name.
      split; [done|]. apply list_elem_of_lookup_2, Hroots in Hn as (k & Hk & ->).
      split; [apply numbered_identifier; [set_solver|lia]|intros k'; apply op_is_no_root]. }
  rewrite Hname. cbn [mbind option_bind].
  assert (roots_before (seq + 1) roots) as Hroots'.
  { intros x (k & ? & ->)%Hroots. exists k. split; [lia|done]. }
  assert (∀ awaits, submission seq roots
    (with_scope name name (numbered "stage" seq) awaits (with_operation (numbered "op" seq) (task_base c hint)))
    (mkOrigin name false) awaits) as Hchild.
  { intros awaits. split; cbn; try done.
    - apply validate_task_spec_inr, child_valid; [done|done|apply Hid; set_solver..|apply Hop].
    - split; [done|]. by exists seq.
    - by intros op stage [= <- _ ->]. }
  destruct (scope `mod` 3) as [|[p|p| ]].
  - eexists _, _, _. split; [done|]. split; cbn; try done.
    + apply validate_task_spec_inr, base_valid; [done|]. apply Hid. set_solver.
    + intros x [Hx| ->%list_elem_of_singleton]%elem_of_app; [by apply Hroots'|]. exists seq. split; [lia|done].
  - eexists _, _, _. split; [done|]. apply (Hchild true).
  - eexists _, _, _. split; [done|]. apply (Hchild true).
  - eexists _, _, _. split; [done|]. apply (Hchild false).
Qed.

(** ** Attribution *)

(** Where the harness looks up a permit: an unclaimed one belongs to its ticket. *)
Definition origin_of (po : gmap PermitId Origin) (to : gmap Ticket Origin) (pid : PermitId)
    (r : PermitRecord) : option Origin :=
  match rec_pending_ticket r with Some t => to !! t | None => po !! pid end.

(** What is live or waits has an origin, which is whose it says. *)
Record attributed (po : gmap PermitId Origin) (to : gmap Ticket Origin) (s : GovernedState) : Prop := {
  at_live pid r :
    gs_permits s !! pid = Some r → ∃ o, origin_of po to pid r = Some o ∧ belongs o (record_who r);
  at_queued class q :
    q ∈ waiting s class → ∃ o, to !! pr_ticket q = Some o ∧ belongs o (request_who q);
}.

Section attribution.
Context (P : PolicySet).
Implicit Types (s : GovernedState) (po : gmap PermitId Origin) (to : gmap Ticket Origin).

(** Promotion keeps it. *)
Lemma trace_attributed G po to s s' :
  (∀ t, ¬ may_answer G t) → trace_of G P s s' → attributed po to s → attributed po to s'.
Proof.
  intros HG. apply trace_keeps. intros s1 s2 Hs [H1 H2].
  split; [|intros class q Hq; eapply H2, dequeues_elem; [by eapply tstep_dequeues, tstep_any|done]].
  intros pid r' [r Hr E|class q Hin _ E|r Hr _ Ep _ Ew|r t _ _ Ha _]%(tstep_slots _ _ _ _ Hs);
    [..|by destruct (HG t)].
  - destruct (H1 pid r Hr) as (o & Ho & Hb). injection E as _ _ Ep _ Er Eo Es.
    exists o. unfold origin_of, record_who in *. by rewrite Ep, Er, Eo, Es.
  - destruct (H2 class q Hin) as (o & Ho & Hb). injection E as _ _ Ep _ Er Eo Es.
    exists o. unfold origin_of, record_who, request_who in *. by rewrite Ep, Er, Eo, Es.
  - destruct (H1 pid r Hr) as (o & Ho & Hb). exists o. unfold origin_of in *. by rewrite Ep, Ew.
Qed.

(** A claim hands the ticket's origin to its permit. *)
Lemma claimed_attributed po to s s' t pid r r' o :
  custody_ok P s → attributed po to s → gs_permits s !! pid = Some r →
  rec_pending_ticket r = Some t → to !! t = Some o →
  gs_permits s' = <[pid := r']> (gs_permits s) → gs_classes s' = gs_classes s →
  slot r' = (rec_phase r, rec_lease_nonce r, None, rec_capabilities r, record_who r) →
  attributed (<[pid := o]> po) (delete t to) s'.
Proof.
  intros HC [H1 H2] Hr Hp Ho Ep Ec E. injection E as _ _ Ep' _ Er Eo Es.
  assert (custody s t = Some (Holds pid)) as Hcu by (by eapply pending_holds). split.
  - intros pid' x. rewrite Ep. intros [[<- <-]|[Hne Hx]]%lookup_insert_Some.
    + exists o. unfold origin_of. rewrite Ep', lookup_insert_eq. split; [done|].
      destruct (H1 pid r Hr) as (o' & Ho' & Hb). unfold origin_of in Ho'. rewrite Hp in Ho'.
      simplify_eq. unfold record_who in *. by rewrite Er, Eo, Es.
    + destruct (H1 pid' x Hx) as (o' & Ho' & Hb). exists o'. split; [|done]. unfold origin_of in *.
      destruct (rec_pending_ticket x) as [t'|] eqn:Ex; [|by rewrite lookup_insert_ne].
      rewrite lookup_delete_ne; [done|]. intros ->. pose proof (pending_holds HC _ _ _ Hx Ex). congruence.
  - intros class q Hq. assert (waiting s' class = waiting s class) as Ew
      by (unfold waiting, class_state; by rewrite Ec).
    rewrite Ew in Hq. destruct (H2 class q Hq) as (o' & Ho' & Hb). exists o'. split; [|done].
    rewrite lookup_delete_ne; [done|]. intros ->.
    assert (custody s (pr_ticket q) = Some (Waits class)); [|congruence].
    apply (custody_queued _ _ HC). by apply list_elem_of_fmap_2.
Qed.

(** An admission notes the origin of what it handed out. *)
Lemma answered_attributed po to s ids req d s' o :
  custody_ok P s → ids_fresh s ids → answered (G := admitting) P s ids req d s' → belongs o (spec_who (ar_spec req)) →
  attributed po to s →
  match d with
  | AdmittedPermit pid => attributed (<[pid := o]> po) to s'
  | Queued t => attributed po (<[t := o]> to) s'
  | Rejected _ => attributed po to s'
  end.
Proof.
  intros HC Hf Hd Hb Hat.
  assert (∀ to s1 s2, trace_of admitting P s1 s2 → attributed po to s1 → attributed po to s2) as Htr
    by (intros to' s1 s2; apply trace_attributed; by intros t []).
  destruct Hd as [v s2 H|g _ Hg Eg Ep _ _ Ew _|s1 r s2 s3 _ H1 Har _ Hen H4 Ew _].
  - eapply Htr; [by eapply refused_trace|done].
  - destruct Hat as [A1 A2]. split; [|intros class q; rewrite grant_waiting; apply A2].
    intros pid x. rewrite grant_permits, Eg. intros [[<- <-]|[Hne Hx]]%lookup_insert_Some.
    + exists o. unfold origin_of. cbn. rewrite Ep, lookup_insert_eq. split; [done|].
      change (belongs o (grant_who g)). by rewrite Ew.
    + destruct (A1 pid x Hx) as (o' & Ho' & Hb'). exists o'. split; [|done]. unfold origin_of in *.
      destruct (rec_pending_ticket x); [done|by rewrite lookup_insert_ne].
  - eapply Htr; [exact H4|]. apply (Htr _ _ s1) in Hat as [A1 A2]; [|by apply retagged_trace].
    pose proof (enqueue_cases _ _ _ Hen) as (_ & Hh & _).
    assert (ids_fresh s1 ids) as Hf1 by (eapply ids_fresh_books; [symmetry; apply H1|done]).
    assert (custody_ok P s1) as HC1 by (eapply custody_ok_books; [apply H1|done]).
    assert (custody s1 (id_ticket ids) = None) as Hcu
      by (unfold custody; by rewrite (fresh_ticket _ _ Hf1)).
    split.
    + intros pid x Hx. rewrite (sh_permits _ _ Hh) in Hx.
      destruct (A1 pid x Hx) as (o' & Ho' & Hb'). exists o'. split; [|done]. unfold origin_of in *.
      destruct (rec_pending_ticket x) as [t|] eqn:Ex; [|done]. rewrite lookup_insert_ne; [done|].
      intros <-. pose proof (pending_holds HC1 _ _ _ Hx Ex). congruence.
    + intros class q. rewrite (enqueue_waiting _ _ _ Hen). unfold upd_queue_of.
      assert (∀ class q, q ∈ waiting s1 class →
        ∃ o', <[id_ticket ids := o]> to !! pr_ticket q = Some o' ∧ belongs o' (request_who q)) as Hold.
      { intros k x Hx. destruct (A2 k x Hx) as (o' & Ho' & Hb'). exists o'. split; [|done].
        rewrite lookup_insert_ne; [done|]. intros E.
        assert (custody s1 (pr_ticket x) = Some (Waits k)); [|congruence].
        apply (custody_queued _ _ HC1). by apply list_elem_of_fmap_2. }
      case_decide; [subst class|apply Hold].
      intros [Hq|Hq%list_elem_of_singleton]%elem_of_app; [by eapply Hold|]. exists o. rewrite Hq.
      assert (pr_ticket r = id_ticket ids) as Et by apply (ar_ticket _ _ _ _ Har).
      split; [cbn; by rewrite Et, lookup_insert_eq|]. by rewrite <-Ew in Hb.
Qed.
End attribution.

(** ** The oracle of wait cycles *)

Section oracle.
Context (P : PolicySet) (B : N) (Hkeyed : ∃ a, keyed a (ps_capabilities P)).
Context (h : Harness) (HI : Inv P B (engine h)) (Hids : identities_ok (engine h)).
Context (Hat : attributed (hn_permit_origin h) (hn_ticket_origin h) (engine h)).
(** Nobody is half-way through a claim. *)
Context (Hun : ∀ pid r t, gs_permits (engine h) !! pid = Some r → rec_pending_ticket r = Some t →
  ticket_status (engine h) t = Ready pid).

Let s := engine h.
Let HC : custody_ok P s := inv_custody _ _ _ HI.

Lemma attribute_lookup l m pid o :
  (∀ e, e ∈ l → ticket_status s e.1 = Ready pid → e.2 = o) →
  m !! pid = Some o ∨ (∃ e, e ∈ l ∧ ticket_status s e.1 = Ready pid) →
  foldl (attribute h) m l !! pid = Some o.
Proof.
  revert m. induction l as [|e l IH]; intros m Hall [Hm|(e' & Hin & He')]; cbn; try done.
  - by apply elem_of_nil in Hin.
  - apply IH; [intros; apply Hall; [by right|done]|]. left. unfold attribute.
    destruct (ticket_status (engine h) e.1) as [p| | |] eqn:E; try done.
    destruct (decide (p = pid)) as [->|]; [|by rewrite lookup_insert_ne].
    rewrite lookup_insert_eq. f_equal. apply Hall; [by left|done].
  - apply IH; [intros; apply Hall; [by right|done]|].
    apply elem_of_cons in Hin as [->|Hin]; [left|right; by exists e'].
    unfold attribute. fold s. rewrite He', lookup_insert_eq. f_equal. apply Hall; [by left|done].
Qed.

Lemma ready_holds t pid :
  ticket_status s t = Ready pid → ∃ r, gs_permits s !! pid = Some r ∧ rec_pending_ticket r = Some t.
Proof.
  unfold ticket_status. intros H. apply (custody_live _ _ HC). unfold custody.
  destruct (gs_tickets s !! t) as [[]|]; by simplify_eq.
Qed.

(** The harness's map gives every live permit its origin. *)
Lemma origins_live pid r :
  gs_permits s !! pid = Some r → ∃ o, origins h !! pid = Some o ∧ belongs o (record_who r).
Proof.
  intros Hr. destruct (at_live _ _ _ Hat pid r Hr) as (o & Ho & Hb). exists o. split; [|done].
  unfold origins. unfold origin_of in Ho. destruct (rec_pending_ticket r) as [t|] eqn:Ep.
  - pose proof (Hun pid r t Hr Ep) as Hs. apply attribute_lookup.
    + intros [t' o'] Hin%elem_of_btree_to_list (r' & Hr' & Ep')%ready_holds. cbn in *. congruence.
    + right. exists (t, o). split; [by apply elem_of_btree_to_list|done].
  - apply attribute_lookup; [|by left].
    intros [t' o'] _ (r' & Hr' & Ep')%ready_holds. cbn in *. congruence.
Qed.

(** The parent of an awaited child of a root is the root's own permit. *)
Lemma ancestor_of_root root ancestor l :
  (∀ k, numbered "op" k ≠ root) → permits_for_operation s root root = Some ancestor →
  wait_chain s ∅ ancestor l →
  origins h !! ancestor = Some (mkOrigin root true) ∧ ∀ pid, pid ∈ l → pid = ancestor.
Proof.
  intros Hop Ha Hl. destruct (proj1 (io_live _ Hids (root, root) ancestor)) as (r & Hr & E); [done|].
  destruct (origins_live ancestor r Hr) as ([o_root is_root] & Ho & Hb).
  unfold permit_operation in E. injection E as E1 E2. unfold record_who in Hb. rewrite E1, E2 in Hb.
  destruct Hb as [Hroot Hb]. cbn in Hroot, Hb. subst o_root.
  destruct is_root; [|by destruct Hb as [k E]; edestruct Hop]. destruct Hb as [_ Hscope].
  split; [done|]. intros pid. inversion Hl as [? ? Hx|? ? r' Hv Hr' _|? ? r' next l' Hv Hr' Hsc]; subst.
  - by intros ?%elem_of_nil.
  - by intros ?%list_elem_of_singleton.
  - assert (r' = r) as -> by (fold s in Hr; congruence). by rewrite Hscope in Hsc.
Qed.

Lemma pool_holds id cr caps :
  capability_record P id = Some cr →
  existsb (λ x, bool_decide (resolved_capability_name P (Registered x) = Some (cap_name (cr_id cr)))) caps
    = true ↔ id ∈ caps.
Proof.
  destruct Hkeyed as [a Hk]. intros Hcr. destruct (Hk _ _ Hcr) as [Ei Ea].
  rewrite existsb_exists. setoid_rewrite bool_decide_eq_true. unfold resolved_capability_name. split.
  - intros (x & Hx%list_elem_of_In & H). destruct (ps_capabilities P !! x) as [crx|] eqn:Ex; [|done].
    destruct (Hk _ _ Ex) as [Eix Eax]. cbn in H.
    assert (x = id) as ->; [|done]. rewrite Ei, Eix in H. destruct x, id; cbn in *; congruence.
  - intros Hin. exists id. split; [by apply list_elem_of_In|].
    unfold capability_record in Hcr. by rewrite Hcr.
Qed.

(** What the harness counts as holding is what the engine does. *)
Lemma stuck_holds b class l held :
  stuck_on P s b class l held →
  (∃ pid r, gs_permits s !! pid = Some r ∧ holds P held (ledger_view pid r) = true) ∧
  ∀ pid r, gs_permits s !! pid = Some r → holds P held (ledger_view pid r) = true → pid ∈ l.
Proof.
  intros [_ (pid & r & Hr & Hh) Hall|id cr _ Hcr (pid & r & Hr & Hh) Hall
    |_ (pid & r & Hr & Hh) Hall|_ (pid & r & Hr & Hh) Hall]; cbn -[resolved_capability_name].
  - split; [exists pid, r; by rewrite bool_decide_eq_true_2|]. intros ?? H ?%bool_decide_eq_true. eauto.
  - split; [exists pid, r; split; [done|by apply (pool_holds id cr)]|].
    intros ?? H Hx%(pool_holds id cr); [eauto|done].
  - split; [exists pid, r; by rewrite bool_decide_eq_true_2|]. intros ?? H ?%bool_decide_eq_true. eauto.
  - split; [exists pid, r; by rewrite bool_decide_eq_true_2|]. intros ?? H ?%bool_decide_eq_true. eauto.
Qed.

Lemma elem_of_permit_ledgers v :
  v ∈ permit_ledgers s ↔ ∃ pid r, gs_permits s !! pid = Some r ∧ v = ledger_view pid r.
Proof.
  unfold permit_ledgers, btree_values. rewrite list_elem_of_fmap. split.
  - intros (r & -> & Hr). apply list_elem_of_fmap in Hr as ([pid r'] & -> & Hr%elem_of_btree_to_list).
    exists pid, r'. split; [done|]. cbn.
    by rewrite (permit_ok_id _ _ (books_permits_ok _ _ (inv_books _ _ _ HI) _ _ Hr)).
  - intros (pid & r & Hr & ->). exists r.
    rewrite (permit_ok_id _ _ (books_permits_ok _ _ (inv_books _ _ _ HI) _ _ Hr)). split; [done|].
    apply list_elem_of_fmap. exists (pid, r). split; [done|]. by apply elem_of_btree_to_list.
Qed.

(** The oracle agrees with every cycle the engine reports about a declared wait. *)
Lemma cycle_is_real task root class mx cost caps behind cycle held :
  (∀ op stage, ts_scope task = Child op stage true →
     op = root ∧ ts_root_operation_id task = root ∧ ∀ k, numbered "op" k ≠ root) →
  assess s P task class mx cost caps behind = IrreversibleWaitCycle cycle → held ∈ cw_held cycle →
  (∃ op stage, ts_scope task = Child op stage true) ∧ assert_cycle_is_real P root held h = Some ().
Proof.
  intros Htask Hcycle Hheld.
  destruct (wait_cycle_spec _ _ _ _ _ _ _ _ _ _ _ (books_ledger _ _ (inv_books _ _ _ HI)) Hcycle)
    as (op & stage & ancestor & l & Hsc & _ & [?|[_ Ha]] & Hl & _ & _ & _ & Hstuck); [done|].
  destruct (Htask op stage Hsc) as (-> & Hroot & Hop). rewrite Hroot in Ha.
  split; [by eauto|]. destruct (ancestor_of_root root ancestor l Hop Ha Hl) as [Ho Hone].
  destruct (stuck_holds _ _ _ _ (proj1 (Hstuck held) Hheld)) as [(pid & r & Hr & Hh) Hall].
  unfold assert_cycle_is_real. fold s. set (holders := List.filter _ _).
  assert (∀ v, v ∈ holders ↔ v ∈ permit_ledgers s ∧ holds P held v = true) as Hin
    by (intros v; rewrite !list_elem_of_In; apply filter_In).
  assert (holders ≠ []) as Hne.
  { intros E. apply (not_elem_of_nil (ledger_view pid r)). rewrite <-E. apply Hin.
    split; [|done]. apply elem_of_permit_ledgers. by exists pid, r. }
  rewrite bool_decide_eq_false_2 by done. cbn [negb assert_that mbind option_bind].
  assert (forallb (λ ledger, match origins h !! lv_permit_id ledger with
    | Some who => or_is_root who && bool_decide (or_root who = root) | None => false end) holders = true) as ->;
    [|done].
  apply forallb_forall. intros v [Hv Hvh]%list_elem_of_In%Hin.
  apply elem_of_permit_ledgers in Hv as (pid' & r' & Hr' & ->).
  apply (Hall _ _ Hr') in Hvh as ->%Hone. cbn. rewrite Ho. cbn. by rewrite bool_decide_eq_true_2.
Qed.
End oracle.
