(* ===== verification/ChurnCheck.v ===== *)
(** * The published invariants of the admission churn target

    What the harness knows about its engine between two calls ([sound]), and that it is
    enough for every assertion of [check], and of [finish] once everything is given
    back. *)

From S2P Require Import Prelude Contract Text Validation Kernel Executors PolicyCheck Requirements.
From S2P Require Import State Assess Fairness Admission Memory Observe Governor Policies Plan.
From S2P Require Import Builds Books Custody Ledger Moves Reads Invariant Steps Selection Ring.
From S2P Require Import Dispatch Sections Progress Lifecycle Trace System Queues Runs Fifo.
From S2P Require Import Consistency Cycles Fates Grips Total Contracts Calls Churn Identities Gates.
From S2P Require Import Refinement Snapshots Owned Watched Health Client Metered ChurnPolicy.
From S2P Require Import ChurnOrigins.

Local Open Scope N_scope.

Lemma assert_true b : b = true → assert_that b = Some ().
Proof. by intros ->. Qed.

(** An assertion that holds does nothing. *)
Lemma assert_bind {A} b (k : () → option A) r :
  b = true → k () = r → (assert_that b ≫= k) = r.
Proof. by intros -> <-. Qed.

(** A checked sum of a list that fits. *)
Lemma checked_sum_fits l : lsum id l ≤ U128_MAX → checked_sum l = Some (lsum id l).
Proof.
  induction l as [|x l IH]; intros H; [done|]. cbn in H |- *. rewrite IH by lia. cbn [mbind option_bind].
  apply checked_add_Some. unfold id in *. split; lia.
Qed.

Section target.
Context (sc : Scenario) (d : Declared) (P : PolicySet) (authority : N).
Context (T : tables d) (TP : target_policy sc d P).
Implicit Types (h : Harness).

(** The harness's tables are the policy's. *)
Record same_policy h : Prop := {
  sp_limits : hn_limits h = de_limits d;
  sp_memory_cost : hn_memory_cost h = de_memory_cost d;
  sp_budget : hn_budget h = scenario_budget sc;
  sp_blocking : hn_blocking_limit h = scenario_blocking_limit sc;
}.

(** What holds of the harness after [n] admissions. *)
Record sound (n : nat) h : Prop := {
  so_client : client P authority n (hn_tickets h) (hn_permits h) (hn_tokens h) (hn_world h);
  so_calm : calm (engine h);
  so_budget : hn_reconciled_upward h = false → within_budget P (engine h);
  so_gate : gs_admission_closed (engine h) = hn_closed h;
  so_ended pid : pid ∈ hn_ended h → ended pid (hn_world h);
  so_attributed : attributed (hn_permit_origin h) (hn_ticket_origin h) (engine h);
  so_policy : same_policy h;
}.

Let Hwf : policy_wf P := tp_wf _ _ _ TP.
Let Htyped : policies_typed P := target_typed _ _ _ T TP.
Let Hbuilt : built P := tp_built _ _ _ TP.

Lemma sound_reachable n h : sound n h → reachable P authority (hn_world h).
Proof. intros [[Hh _] _ _ _ _ _ _]. apply Hh. Qed.

Lemma sound_inv n h : sound n h → ∃ B, Inv P B (engine h) ∧ B ≤ U64_MAX.
Proof. intros H%sound_reachable. by apply (reachable_inv P authority). Qed.

(** The totals are far from overflowing. *)
Lemma sound_total n h g : within_retention n → sound n h → gauge_read (engine h) g ≤ U32_MAX * U32_MAX.
Proof.
  intros Hn H. destruct (sound_inv n h H) as (B & [[HL HP _] _ _] & _).
  apply (gauge_bound _ _ 0); [done|done|]. eapply room_mono; [|apply roomy_pass].
  - lia.
  - by eapply holding_roomy, (so_client _ _ H).
Qed.

Lemma class_known n h class c :
  sound n h → sn_classes (snapshot P (engine h)) !! class = Some c →
  c = class_projection (class_state (engine h) class) ∧ ∃ p, ps_class P class = Some p.
Proof.
  intros H Hc. split; [by eapply snapshot_class|].
  destruct (snapshot_known P (engine h) class) as [?|Hk]; [by eexists|done|].
  by apply (hd_known _ _ _ _ _ _ _ (proj1 (so_client _ _ H))) in Hk.
Qed.

(** Each class is within its limits. *)
Lemma class_within n h class c :
  sound n h → sn_classes (snapshot P (engine h)) !! class = Some c →
  ∃ mi mq, hn_limits h !! class = Some (mi, mq) ∧ sn_inflight c ≤ mi ∧ sn_queued c ≤ mq.
Proof.
  intros H Hc. destruct (class_known n h class c H Hc) as (-> & p & Hp).
  destruct (sound_inv n h H) as (B & HI & _).
  pose proof (capacity_inflight _ _ (inv_capacity _ _ _ HI) class p Hp) as Hi.
  destruct (reachable_retained P authority _ Htyped (sound_reachable n h H)) as [_ Hq].
  specialize (Hq class p Hp). pose proof (queued_waiting (engine h) class) as Eq.
  exists (max_inflight p), (max_queue_depth p). split.
  - rewrite (sp_limits _ (so_policy _ _ H)), (tb_limits _ T).
    unfold ps_class in Hp. rewrite (tp_classes _ _ _ TP) in Hp. by rewrite Hp.
  - cbn in Hi |- *. split; [done|].
    assert (ClassState.queued (class_state (engine h) class) = queued (engine h) class) as ->.
    { unfold queued, class_state. by destruct (gs_classes _ !! class). }
    rewrite Eq. unfold engine in *. lia.
Qed.

(** The sums of [check] do not overflow, and are the totals of the engine. *)
Lemma check_class_sums h l cpu memory :
  (∀ e, e ∈ l → ∃ mi mq, hn_limits h !! e.1 = Some (mi, mq) ∧ sn_inflight e.2 ≤ mi ∧ sn_queued e.2 ≤ mq) →
  cpu + lsum (λ e, sn_cpu_units_held e.2) l ≤ U128_MAX →
  memory + lsum (λ e, sn_memory_units_held e.2) l ≤ U128_MAX →
  foldl (check_class h) (Some (cpu, memory)) l =
    Some (cpu + lsum (λ e, sn_cpu_units_held e.2) l, memory + lsum (λ e, sn_memory_units_held e.2) l).
Proof.
  revert cpu memory. induction l as [|[class c] l IH]; intros cpu memory Hl Hc Hm.
  { cbn. by rewrite !N.add_0_r. }
  cbn [lsum fst snd foldl] in *. destruct (Hl (class, c)) as (mi & mq & Hlim & Hi & Hq); [by left|].
  cbn [fst snd] in *. unfold check_class at 2. cbn [mbind option_bind]. rewrite Hlim.
  cbn [mbind option_bind]. rewrite !bool_decide_eq_true_2 by done. cbn [assert_that mbind option_bind].
  rewrite (proj2 (checked_add_Some U128_MAX cpu (sn_cpu_units_held c) _)) by (split; [reflexivity|lia]).
  cbn [mbind option_bind].
  rewrite (proj2 (checked_add_Some U128_MAX memory (sn_memory_units_held c) _)) by (split; [reflexivity|lia]).
  cbn [mbind option_bind]. rewrite IH; [do 2 f_equal; lia| |lia|lia].
  intros e He. apply Hl. by right.
Qed.

Lemma held_sum n h :
  sound n h →
  lsum (λ e, sn_cpu_units_held e.2) (btree_to_list (sn_classes (snapshot P (engine h)))) =
    gauge_read (engine h) GCpu ∧
  lsum (λ e, sn_memory_units_held e.2) (btree_to_list (sn_classes (snapshot P (engine h)))) =
    gauge_read (engine h) GMemory.
Proof.
  intros H. destruct (sound_inv n h H) as (B & [[HL _ _] _ _] & _). rewrite !HL. split.
  - apply snapshot_sum; [done|]. intros class. apply (HL (GClassCpu class)).
  - apply snapshot_sum; [done|]. intros class. apply (HL (GClassMemory class)).
Qed.

(** Every assertion of [check] holds. *)
Lemma check_holds n h : within_retention n → sound n h → check P h = Some ().
Proof.
  intros Hn H. destruct (sound_inv n h H) as (B & HI & HB). destruct (held_sum n h H) as [Ec Em].
  pose proof (sound_total n h GCpu Hn H) as Bc. pose proof (sound_total n h GMemory Hn H) as Bm.
  unfold check. rewrite (Inv_conserves P B _ Hbuilt HI HB), (so_calm _ _ H), (bool_decide_eq_true_2 _ eq_refl).
  cbn [assert_that mbind option_bind]. rewrite check_class_sums;
    [|intros [class c] Hin%elem_of_btree_to_list; by eapply class_within|rewrite Ec; ulia|rewrite Em; ulia].
  rewrite Ec, Em. cbn [mbind option_bind]. rewrite !N.add_0_l.
  rewrite (sp_budget _ (so_policy _ _ H)). unfold scenario_budget.
  pose proof (tp_resources _ _ _ TP) as Er.
  assert (max_cpu_units (ps_resources P) = sc_budget_cpu sc `mod` 64) as Er1 by (by rewrite Er).
  assert (max_memory_units (ps_resources P) = sc_budget_memory sc `mod` 64) as Er2 by (by rewrite Er).
  apply assert_bind.
  { apply orb_true_iff. rewrite !bool_decide_eq_true, <-Er1.
       destruct (decide (max_cpu_units (ps_resources P) = 0)) as [|Hz]; [by left|right].
       by apply (capacity_cpu _ _ (inv_capacity _ _ _ HI)). }
  apply assert_bind.
  { rewrite !orb_true_iff, !bool_decide_eq_true, <-Er2.
       destruct (hn_reconciled_upward h) eqn:Eu; [left; by right|].
       destruct (decide (max_memory_units (ps_resources P) = 0)) as [|Hz]; [by left; left|right].
       by apply (so_budget _ _ H Eu). }
  apply assert_bind.
  { destruct (sn_capabilities _ !! _) as [u|] eqn:Eu; [|done].
       destruct (snapshot_pool P _ _ _ Hbuilt Eu) as (id & r & Hr & _ & Ei & Hcap & ->). cbn.
       rewrite orb_true_iff, !bool_decide_eq_true, (sp_blocking _ (so_policy _ _ H)).
       pose proof (tp_blocking _ _ _ TP) as Hb. rewrite Hcap in Hb. injection Hb as Hb.
       destruct (decide (scenario_blocking_limit sc = 0)) as [|Hz]; [by left|right].
       unfold capacity_of in Hb. rewrite decide_False in Hb by done.
       pose proof (capacity_pool _ _ (inv_capacity _ _ _ HI) id r Hr) as Hp. rewrite Hb in Hp. by apply Hp. }
  apply assert_bind.
  { apply forallb_forall. intros pid Hin%list_elem_of_In%(so_ended _ _ H).
       unfold permit_ledger, engine. by rewrite (proj2 (proj2 Hin)). }
  apply assert_true. rewrite (so_gate _ _ H). by destruct (hn_closed h).
Qed.

(** ** Quiescence *)

(** A caller that holds nothing is alone with an idle engine. *)
Lemma client_idle n w :
  client P authority n [] [] [] w →
  gs_permits (w_state w) = ∅ ∧ ∀ class, waiting (w_state w) class = [].
Proof.
  intros [_ [C1 C2]]. split.
  - apply map_empty. intros pid. apply eq_None_not_Some. intros [r Hr]. specialize (C1 pid r Hr).
    destruct (rec_lease_nonce r); [by apply elem_of_nil in C1|].
    destruct (rec_pending_ticket r); by apply elem_of_nil in C1.
  - intros class. destruct (waiting (w_state w) class) as [|q l] eqn:E; [done|].
    specialize (C2 class q). rewrite E in C2. by apply elem_of_nil in C2; [|left].
Qed.

Lemma idle_gauges s g : ledger_ok s → gs_permits s = ∅ → gauge_read s g = 0.
Proof. intros HL E. by rewrite HL, E, msum_empty. Qed.

(** The assertions at the end of [finish]. *)
Lemma quiescent n h :
  sound n h → hn_tickets h = [] → hn_permits h = [] → hn_tokens h = [] →
  (let sn := snapshot P (engine h) in
   _ ← assert_that (forallb quiescent_class (btree_values (sn_classes sn)));
   _ ← assert_that (forallb (λ usage, bool_decide (cu_in_use usage = 0))
                      (btree_values (sn_capabilities sn)));
   _ ← assert_that (if conservation_violation sn is None then true else false);
   assert_that (if permit_ledgers (engine h) is [] then true else false)) = Some ().
Proof.
  intros H Et Ep El. destruct (sound_inv n h H) as (B & HI & HB).
  pose proof (so_client _ _ H) as Hcl. rewrite Et, Ep, El in Hcl.
  destruct (client_idle n _ Hcl) as [Hp Hq]. fold (engine h) in Hp, Hq.
  pose proof (λ g, idle_gauges _ g (books_ledger _ _ (inv_books _ _ _ HI)) Hp) as Hz.
  apply assert_bind; [|apply assert_bind; [|apply assert_bind]].
  - apply forallb_forall. intros c Hc%list_elem_of_In. unfold btree_values in Hc.
    apply list_elem_of_fmap in Hc as ([class c'] & -> & Hc%elem_of_btree_to_list). cbn [snd].
    apply snapshot_class in Hc as ->. unfold quiescent_class. rewrite !andb_true_iff, !bool_decide_eq_true.
    pose proof (Hz (GInflight class)) as H1. pose proof (Hz (GClassCpu class)) as H2.
    pose proof (Hz (GClassMemory class)) as H3. cbn in H1, H2, H3.
    destruct (books_counters _ _ (inv_books _ _ _ HI) class) as [Hadm _ _ _].
    cbn [class_projection sn_inflight sn_queued sn_admitted_total sn_terminated_total sn_cpu_units_held
      sn_memory_units_held]. split_and!; [done| |lia|done|done].
    specialize (Hq class). unfold waiting in Hq. unfold ClassState.queued.
    by rewrite (map_eq_nil _ _ Hq).
  - apply forallb_forall. intros u Hu%list_elem_of_In. unfold btree_values in Hu.
    apply list_elem_of_fmap in Hu as ([pool u'] & -> & Hu%elem_of_btree_to_list). cbn [snd].
    destruct (snapshot_pool P _ _ _ Hbuilt Hu) as (id & r & _ & _ & _ & _ & ->).
    apply bool_decide_eq_true_2, (Hz (GCapability id)).
  - by rewrite (Inv_conserves P B _ Hbuilt HI HB).
  - unfold permit_ledgers, btree_values. by rewrite Hp.
Qed.
End target.
