(* ===== verification/ChurnSteps.v ===== *)
(** * The steps of the admission churn target

    No step of the harness panics and none of its assertions fails: each public call
    answers as the harness expects of the handle it makes the call with, and leaves the
    harness sound. *)

From S2P Require Import Prelude Contract Text Validation Kernel Executors PolicyCheck Requirements.
From S2P Require Import State Assess Fairness Admission Memory Observe Governor Policies Plan.
From S2P Require Import Builds Books Custody Ledger Moves Reads Invariant Steps Selection Ring.
From S2P Require Import Dispatch Sections Progress Lifecycle Trace System Queues Runs Fifo.
From S2P Require Import Consistency Cycles Fates Grips Total Contracts Calls Churn Identities Gates.
From S2P Require Import Refinement Snapshots Owned Watched Health Client Metered ChurnPolicy.
From S2P Require Import ChurnOrigins ChurnCheck.

Local Open Scope N_scope.

(** ** Picking *)

Lemma pick_Some {A} selector (l : list A) : l ≠ [] → is_Some (l !! pick selector l).
Proof. apply pick_lt. Qed.

(** [swap_remove] takes one element out. *)
Lemma swap_remove_Some {A} i (l : list A) x :
  l !! i = Some x → ∃ rest, swap_remove i l = Some (x, rest) ∧ x :: rest ≡ₚ l.
Proof.
  intros Hi. unfold swap_remove. rewrite Hi. cbn [mbind option_bind].
  destruct l as [|y l0 _] using rev_ind; [done|]. rewrite last_snoc. cbn [mbind option_bind].
  eexists. split; [reflexivity|]. rewrite length_app. cbn [length]. rewrite Nat.add_sub.
  apply lookup_app_Some in Hi as [Hi|[Hge Hi]].
  - pose proof (lookup_lt_Some _ _ _ Hi) as Hlt. rewrite insert_app_l by done.
    rewrite take_app_length' by (by rewrite length_insert).
    rewrite (insert_take_drop _ _ _ Hlt). rewrite <-(take_drop_middle l0 i x Hi) at 3. solve_Permutation.
  - apply list_lookup_singleton_Some in Hi as [Hz ->].
    rewrite insert_app_r_alt by done. rewrite take_app_length. apply Permutation_cons_append.
Qed.

(** Taking out the element picked. *)
Lemma pick_remove {A} selector (l : list A) :
  l ≠ [] → ∃ x rest, l !! pick selector l = Some x ∧
    swap_remove (pick selector l) l = Some (x, rest) ∧ l ≡ₚ x :: rest.
Proof.
  intros [x Hx]%(pick_Some selector). destruct (swap_remove_Some _ _ _ Hx) as (rest & E & Hp).
  exists x, rest. by split_and!.
Qed.

Section target.
Context (sc : Scenario) (d : Declared) (P : PolicySet) (authority : N).
Context (T : tables d) (TP : target_policy sc d P).
Implicit Types (h : Harness).
Local Abbreviation sound := (sound sc d P authority).
Local Abbreviation moved := (moved P authority).
Local Abbreviation client := (client P authority).

Let Hwf : policy_wf P := tp_wf _ _ _ TP.
Let Htyped : policies_typed P := target_typed _ _ _ T TP.

(** What a step must leave to leave the harness sound, besides its handles: the
    engine moved without measuring, and what the step says has ended has. *)
Lemma sound_after G n h h' :
  sound n h → moved G (hn_world h) (hn_world h') → ¬ may_measure G → ¬ may_close G →
  client n (hn_tickets h') (hn_permits h') (hn_tokens h') (hn_world h') →
  attributed (hn_permit_origin h') (hn_ticket_origin h') (engine h') →
  (∀ pid, pid ∈ hn_ended h' → pid ∈ hn_ended h ∨ ended pid (hn_world h')) →
  hn_closed h' = hn_closed h → hn_reconciled_upward h' = hn_reconciled_upward h →
  same_policy sc d h' → sound n h'.
Proof.
  intros H [Ht Hl _ _ _] Hm Hc Hcl Hat He Ec Er Hs. pose proof (sound_reachable _ _ _ _ _ _ H) as Hw.
  split; try done.
  - eapply trace_calm; [done|exact Ht|apply H].
  - rewrite Er. intros Eu. eapply trace_budget; [done|exact Ht|]. by apply (so_budget _ _ _ _ _ _ H).
  - rewrite Ec, <-(so_gate _ _ _ _ _ _ H). by eapply trace_gate.
  - intros pid [Hin|?]%He; [|done]. eapply (ended_later P authority Htyped); [exact Hw|exact Hl|].
    by apply (so_ended _ _ _ _ _ _ H).
Qed.

(** A step that answers no ticket leaves the harness's notes as they are. *)
Lemma moved_attributed G po to w w' :
  (∀ t, ¬ may_answer G t) → moved G w w' → attributed po to (w_state w) → attributed po to (w_state w').
Proof. intros HG Hm. eapply trace_attributed; [exact HG|apply Hm]. Qed.

Section steps.
Context (n : nat) (Hn : within_retention n).

(** ** Giving back *)

Lemma abandon_checked_sound t ts h :
  sound n h → hn_tickets h ≡ₚ t :: ts →
  ∃ h', abandon_checked P t (upd_hn_tickets (λ _, ts) h) = Some h' ∧ sound n h' ∧
    ticket_status (engine h') t = ClaimInvalid ∧
    (hn_tickets h', hn_permits h', hn_tokens h', hn_roots h') = (ts, hn_permits h, hn_tokens h, hn_roots h).
Proof.
  intros H Hp. pose proof (so_client _ _ _ _ _ _ H) as Hcl.
  eapply client_perm in Hcl; [|exact Hp|reflexivity..].
  destruct (client_abandon P authority Hwf Htyped n Hn (now (upd_hn_tickets (λ _, ts) h)) t _ _ _ _ Hcl)
    as (w' & Hcall & Hcl' & Hm & Hst).
  unfold abandon_checked, after. cbn [hn_world upd_hn_tickets]. rewrite Hcall. cbn [mbind option_bind].
  assert (abandon_agrees (ticket_status (engine (upd_hn_tickets (λ _, ts) h)) t)
    (abandon_answer (ticket_status (w_state (hn_world h)) t)) = true) as ->
    by (unfold engine; cbn; by destruct (ticket_status _ t)).
  cbn [assert_that mbind option_bind]. eexists. split; [reflexivity|]. split_and!; [|done|done].
  eapply (sound_after _ n h); [done|exact Hm|by intros []|done|exact Hcl'| |by left|done|done|by destruct H as [_ _ _ _ _ _ []]].
  eapply moved_attributed; [|exact Hm|apply H]. cbn. naive_solver.
Qed.

Lemma release_unleased_sound pid ps h :
  sound n h → hn_permits h ≡ₚ pid :: ps →
  ∃ h', release_unleased P pid (upd_hn_permits (λ _, ps) h) = Some h' ∧ sound n h' ∧
    ended pid (hn_world h') ∧
    (hn_tickets h', hn_permits h', hn_tokens h', hn_roots h') = (hn_tickets h, ps, hn_tokens h, hn_roots h).
Proof.
  intros H Hp. pose proof (so_client _ _ _ _ _ _ H) as Hcl.
  eapply client_perm in Hcl; [|reflexivity|exact Hp|reflexivity].
  destruct (client_release P authority Hwf Htyped n Hn (now (upd_hn_permits (λ _, ps) h)) pid _ _ _ _ Hcl)
    as (out & w' & Hcall & Hout & Hcl' & Hm & Hend).
  unfold release_unleased, after. cbn [hn_world upd_hn_permits]. rewrite Hcall. cbn [mbind option_bind].
  set (h' := upd_hn_world (λ _, w') (upd_hn_permits (λ _, ps) h)).
  assert (match out with ReleaseDone | ReleaseUnknownPermit => Some h' | ReleaseHeldByLease _ => None end
    = Some h') as E by (destruct out; try done; by edestruct Hout).
  exists h'. split; [exact E|]. split_and!; [|done|done].
  eapply (sound_after _ n h); [done|exact Hm|by intros []|done|exact Hcl'| |by left|done|done|by destruct H as [_ _ _ _ _ _ []]].
  eapply moved_attributed; [|exact Hm|apply H]. cbn. naive_solver.
Qed.

Lemma release_token_sound l ls h :
  sound n h → hn_tokens h ≡ₚ l :: ls →
  ∃ h', release_token P l (upd_hn_tokens (λ _, ls) h) = Some h' ∧ sound n h' ∧
    ended (lease_permit_id l) (hn_world h') ∧
    (hn_tickets h', hn_permits h', hn_tokens h', hn_roots h') = (hn_tickets h, hn_permits h, ls, hn_roots h).
Proof.
  intros H Hp. pose proof (so_client _ _ _ _ _ _ H) as Hcl.
  eapply client_perm in Hcl; [|reflexivity|reflexivity|exact Hp].
  destruct (client_release_leased P authority Hwf Htyped n Hn (now (upd_hn_tokens (λ _, ls) h)) l _ _ _ _ Hcl)
    as (w' & Hcall & Hcl' & Hm & Hend).
  unfold release_token, after. cbn [hn_world upd_hn_tokens]. rewrite Hcall. cbn [mbind option_bind assert_that].
  eexists. split; [reflexivity|]. split_and!; [|done|done].
  eapply (sound_after _ n h); [done|exact Hm|by intros []|done|exact Hcl'| |by left|done|done|by destruct H as [_ _ _ _ _ _ []]].
  eapply moved_attributed; [|exact Hm|apply H]. cbn. naive_solver.
Qed.

(** Noting what has ended. *)
Lemma sound_ended pid h :
  sound n h → ended pid (hn_world h) → sound n (upd_hn_ended (λ l, (l ++ [pid])%list) h).
Proof.
  intros [] He. split; try done; [|by destruct so_policy].
  intros x [Hx| ->%list_elem_of_singleton]%elem_of_app; [by apply so_ended|done].
Qed.

(** ** Steps on handles *)

(** A step that keeps the number of admissions and the roots. *)
Definition steps_to (step : option Harness) h : Prop :=
  ∃ h', step = Some h' ∧ sound n h' ∧ hn_roots h' = hn_roots h.

Lemma step_abandon_sound index h : sound n h → steps_to (step_abandon P index h) h.
Proof.
  intros H. unfold step_abandon. destruct (decide (hn_tickets h = [])) as [E|E].
  { rewrite E. by exists h. }
  destruct (pick_remove index _ E) as (t & rest & _ & Hs & Hp).
  destruct (abandon_checked_sound t rest h H Hp) as (h' & Hc & H' & Hst & [= _ _ _ Er]).
  destruct (hn_tickets h) as [|t0 ts0] eqn:Et; [done|]. rewrite Hs. cbn [mbind option_bind].
  rewrite Hc. cbn [mbind option_bind]. rewrite Hst. cbn. by exists h'.
Qed.

Lemma step_release_sound index h : sound n h → steps_to (step_release P index h) h.
Proof.
  intros H. unfold step_release. destruct (decide (hn_permits h = [])) as [E|E].
  { rewrite E. by exists h. }
  destruct (pick_remove index _ E) as (pid & rest & _ & Hs & Hp).
  destruct (release_unleased_sound pid rest h H Hp) as (h' & Hc & H' & Hend & [= _ _ _ Er]).
  destruct (hn_permits h) as [|p0 ps0] eqn:Et; [done|]. rewrite Hs. cbn [mbind option_bind].
  rewrite Hc. cbn [mbind option_bind]. eexists. split; [reflexivity|].
  split; [by apply sound_ended|done].
Qed.

Lemma step_release_leased_sound index h : sound n h → steps_to (step_release_leased P index h) h.
Proof.
  intros H. unfold step_release_leased. destruct (decide (hn_tokens h = [])) as [E|E].
  { rewrite E. by exists h. }
  destruct (pick_remove index _ E) as (l & rest & _ & Hs & Hp).
  destruct (release_token_sound l rest h H Hp) as (h' & Hc & H' & Hend & [= _ _ _ Er]).
  destruct (hn_tokens h) as [|l0 ls0] eqn:Et; [done|]. rewrite Hs. cbn [mbind option_bind].
  rewrite Hc. cbn [mbind option_bind]. eexists. split; [reflexivity|].
  split; [by apply sound_ended|done].
Qed.

Lemma step_advance_sound index phase h : sound n h → steps_to (step_advance index phase h) h.
Proof.
  intros H. unfold step_advance. destruct (decide (hn_permits h = [])) as [E|E].
  { rewrite E. by exists h. }
  destruct (pick_remove index _ E) as (pid & rest & Hat & Hs & Hp).
  pose proof (so_client _ _ _ _ _ _ H) as Hcl.
  eapply client_perm in Hcl; [|reflexivity|exact Hp|reflexivity].
  destruct (hn_permits h) as [|p0 ps0] eqn:Et; [done|]. rewrite Hat. cbn [mbind option_bind].
  set (ph := match phase `mod` 3 with 0 => Accepted | 1 => Running | _ => CleanupPending end).
  pose proof (client_advance P authority Htyped n Hn pid ph _ _ _ _ ltac:(by unfold ph; destruct (phase `mod` 3) as [|[]]) Hcl) as Hadv.
  destruct (advance_call pid ph (hn_world h)) as [[token| |err] w']; [|done|].
  - destruct Hadv as (Ept & Hcl' & Hm). rewrite bool_decide_eq_true_2 by done.
    cbn [assert_that mbind option_bind]. rewrite Hs. cbn [mbind option_bind].
    eexists. split; [reflexivity|]. split; [|done].
    eapply (sound_after _ n h); [done|exact Hm|by intros []|done|..].
    + eapply client_perm; [reflexivity|reflexivity| |exact Hcl']. apply Permutation_cons_append.
    + eapply moved_attributed; [|exact Hm|apply H]. cbn. naive_solver.
    + by left.
    + done.
    + done.
    + by destruct H as [_ _ _ _ _ _ []].
  - destruct Hadv as (-> & Hcl' & Hend). pose proof Hend as (_ & _ & Hnone).
    unfold permit_ledger, engine at 1. cbn [hn_world upd_hn_world]. rewrite Hnone. cbn [fmap option_fmap option_map].
    rewrite Hs. cbn [mbind option_bind]. eexists. split; [reflexivity|]. split; [|done].
    apply (sound_ended pid (upd_hn_permits (λ _, rest) (upd_hn_world (λ _, hn_world h) h))); [|done].
    destruct H. split; try done. by destruct so_policy.
Qed.

(** A claim that grants nothing touches no permit and no queue. *)
Lemma claim_settled sampled t w :
  holds_ticket t (w_state w) → (∀ pid, ticket_status (w_state w) t ≠ Ready pid) →
  gs_permits (w_state (claim_call sampled t w).2) = gs_permits (w_state w) ∧
  ∀ class, waiting (w_state (claim_call sampled t w).2) class = waiting (w_state w) class.
Proof.
  intros [_ Hun] Hnr. unfold ticket_status in Hnr. unfold claim_call, claim_begin_section, commit_time.
  set (s1 := upd_gs_commit_watermark_ms _ (w_state w)).
  assert (gs_permits (forget_terminal_ticket t s1) = gs_permits (w_state w) ∧
    ∀ class, waiting (forget_terminal_ticket t s1) class = waiting (w_state w) class) as Hforget.
  { split; [exact (sc_permits _ _ (forget_terminal_charges t s1))|].
    intros class. exact (same_queues_waiting _ _ class (forget_terminal_queues t s1)). }
  change (gs_tickets s1) with (gs_tickets (w_state w)).
  destruct (gs_tickets (w_state w) !! t) as [[class|pid|pid|reason|]|];
    [|by destruct (Hnr pid)|by destruct (Hun pid)| | |].
  - done.
  - exact Hforget.
  - exact Hforget.
  - done.
Qed.

Lemma same_attributed po to s s' :
  gs_permits s' = gs_permits s → (∀ class, waiting s' class = waiting s class) →
  attributed po to s → attributed po to s'.
Proof.
  intros Ep Eq [A1 A2]. split; [intros pid r; rewrite Ep; apply A1|].
  intros class q. rewrite Eq. apply A2.
Qed.

Lemma step_claim_sound index h : sound n h → steps_to (step_claim index h) h.
Proof.
  intros H. unfold step_claim. destruct (decide (hn_tickets h = [])) as [E|E].
  { rewrite E. by exists h. }
  destruct (pick_remove index _ E) as (t & rest & Hat & Hs & Hp).
  pose proof (so_client _ _ _ _ _ _ H) as Hcl.
  eapply client_perm in Hcl; [|exact Hp|reflexivity|reflexivity].
  destruct (hn_tickets h) as [|t0 ts0] eqn:Et; [done|]. rewrite Hat. cbn [mbind option_bind].
  pose proof (client_claim P authority Htyped n Hn (now h) t _ _ _ _ Hcl) as Hclaim.
  pose proof (hd_tickets _ _ _ _ _ _ _ (proj1 Hcl) t ltac:(by left)) as Hheld.
  pose proof (claim_settled (now h) t (hn_world h) Hheld) as Hset.
  destruct (sound_inv sc d P authority T TP n h H) as (B & HI & _).
  pose proof (so_attributed _ _ _ _ _ _ H) as Hat'.
  assert (∀ w', claim_call (now h) t (hn_world h) = (ticket_status (engine h) t, w') →
    ∀ pid, ticket_status (engine h) t = Ready pid →
    ∃ o, hn_ticket_origin h !! t = Some o ∧
      attributed (<[pid := o]> (hn_permit_origin h)) (delete t (hn_ticket_origin h)) (w_state w')) as Hready.
  { intros w' Ew pid Est. destruct (ready_holds P B h HI t pid Est) as (r & Hr & Hpend).
    destruct (at_live _ _ _ Hat' pid r Hr) as (o & Ho & _). unfold origin_of in Ho. rewrite Hpend in Ho.
    exists o. split; [done|].
    assert (gs_tickets (engine h) !! t = Some (TGranted pid)) as Htk.
    { unfold ticket_status in Est. by destruct (gs_tickets (engine h) !! t) as [[]|]; simplify_eq. }
    destruct (claim_granted (now h) t pid r (hn_world h) Htk Hr) as (w2 & r' & E2 & _ & Epm & Ecl & Esl).
    rewrite E2 in Ew. simplify_eq.
    by eapply (claimed_attributed P _ _ (engine h)); [apply (inv_custody _ _ _ HI)|..]. }
  destruct (claim_call (now h) t (hn_world h)) as [out w'] eqn:Ecall.
  destruct Hclaim as (Hm & -> & Hcl'). cbn [snd] in Hset. fold (engine h) in Hcl', Hset |- *.
  specialize (Hready w' eq_refl).
  assert (∀ h', hn_world h' = w' → client n (hn_tickets h') (hn_permits h') (hn_tokens h') w' →
    attributed (hn_permit_origin h') (hn_ticket_origin h') (w_state w') →
    hn_ended h' = hn_ended h → hn_closed h' = hn_closed h →
    hn_reconciled_upward h' = hn_reconciled_upward h → same_policy sc d h' → sound n h') as Hafter.
  { intros h' Ew Hc Ha Ee Ecl Er Hsp. eapply (sound_after _ n h); rewrite ?Ew; [exact H|exact Hm|by intros []|by intros []|..];
      try done; [by unfold engine; rewrite Ew|]. rewrite Ee. by left. }
  pose proof (so_policy _ _ _ _ _ _ H) as Hsp.
  destruct (ticket_status (engine h) t) as [pid| |reason|] eqn:Est; [| | |done].
  - rewrite Hs. cbn [mbind option_bind]. destruct (Hready pid eq_refl) as (o & Ho & Ha).
    cbn [hn_ticket_origin upd_hn_permits upd_hn_tickets upd_hn_world]. rewrite Ho.
    eexists. split; [reflexivity|]. split; [|done]. apply Hafter; try done; [|by destruct Hsp].
    eapply client_perm; [reflexivity| |reflexivity|exact Hcl']. apply Permutation_cons_append.
  - eexists. split; [reflexivity|]. split; [|done]. destruct (Hset ltac:(done)) as [Ep Eq].
    apply Hafter; try done; [|by eapply same_attributed|by destruct Hsp].
    eapply client_perm; [|reflexivity..|exact Hcl']. cbn. by rewrite Et, Hp.
  - rewrite Hs. cbn [mbind option_bind]. eexists. split; [reflexivity|]. split; [|done].
    destruct (Hset ltac:(done)) as [Ep Eq].
    apply Hafter; try done; [by eapply same_attributed|by destruct Hsp].
Qed.

(** ** Measurements and maintenance *)

Lemma any_live_Some selector h :
  (∃ pid, any_live selector h = Some pid).
Proof.
  unfold any_live. case_decide as Et; [by eexists|].
  pose proof (N.mod_lt selector (N.of_nat (length (hn_permits h) + length (hn_tokens h))) ltac:(lia)) as Hlt.
  set (at_ := N.to_nat _). assert (at_ < length (hn_permits h) + length (hn_tokens h))%nat as Hat by lia.
  case_decide.
  - destruct (lookup_lt_is_Some_2 (hn_permits h) at_) as [pid ->]; [done|]. by eexists.
  - destruct (lookup_lt_is_Some_2 (hn_tokens h) (at_ - length (hn_permits h))) as [l ->]; [lia|]. by eexists.
Qed.

(** What measuring leaves: as [sound_after], with the accounting and the budget given. *)
Lemma sound_measured G h w' up :
  sound n h → moved G (hn_world h) w' → ¬ may_close G → (∀ t, ¬ may_answer G t) →
  client n (hn_tickets h) (hn_permits h) (hn_tokens h) w' → calm (w_state w') →
  (hn_reconciled_upward h || up = false → within_budget P (w_state w')) →
  sound n (if up then upd_hn_reconciled_upward (λ _, true) (upd_hn_world (λ _, w') h)
           else upd_hn_world (λ _, w') h).
Proof.
  intros H Hm Hc Ha Hcl Hcalm Hb. pose proof (sound_reachable _ _ _ _ _ _ H) as Hw.
  assert (∀ pid, pid ∈ hn_ended h → ended pid w') as He.
  { intros pid Hin. eapply (ended_later P authority Htyped); [exact Hw|apply Hm|].
    by apply (so_ended _ _ _ _ _ _ H). }
  pose proof (moved_attributed _ _ _ _ _ Ha Hm (so_attributed _ _ _ _ _ _ H)) as Hat.
  pose proof (trace_gate G P _ _ Hc (mv_trace _ _ _ _ _ Hm)) as Hg.
  pose proof (so_gate _ _ _ _ _ _ H) as Hg0. unfold engine in Hg0. rewrite Hg0 in Hg.
  pose proof (so_policy _ _ _ _ _ _ H) as []. rewrite orb_comm in Hb. destruct up; split; try done.
Qed.

Lemma step_stage_release_sound permit units h : sound n h → steps_to (step_stage_release P permit units h) h.
Proof.
  intros H. unfold step_stage_release. destruct (any_live_Some permit h) as [[pid|] ->];
    cbn [mbind option_bind]; [|by exists h].
  destruct (client_stage_release P authority Hwf Htyped n Hn (now h) pid units _ _ _ _ (so_client _ _ _ _ _ _ H))
    as (out & w' & Hcall & Hcl & Hm & Hc & Hb).
  unfold after. rewrite Hcall. cbn [mbind option_bind]. eexists. split; [reflexivity|]. split; [|done].
  eapply (sound_measured _ h w' false); [done|exact Hm|done|cbn; naive_solver|done|by apply Hc, H|].
  rewrite orb_false_r. intros Eu. by apply Hb, (so_budget _ _ _ _ _ _ H).
Qed.

Lemma step_reconcile_sound permit bytes epoch h :
  bytes ≤ 65535 → sound n h → steps_to (step_reconcile P permit bytes epoch h) h.
Proof.
  intros Hbytes H. unfold step_reconcile. destruct (any_live_Some permit h) as [[pid|] ->];
    cbn [mbind option_bind]; [|by exists h].
  destruct (client_reconcile P authority Hwf Htyped n Hn (now h) pid bytes epoch _ _ _ _
    (target_representable sc d P bytes TP Hbytes) (so_client _ _ _ _ _ _ H))
    as (out & w' & Hcall & Hcl & Hm & Hc & Hb).
  unfold after. rewrite Hcall. cbn [mbind option_bind].
  assert (∃ up, match out, lv_effective_units <$> permit_ledger pid (engine h) with
    | ReconcileApplied held_units, Some before =>
      if decide (before < held_units)
      then upd_hn_reconciled_upward (λ _, true) (upd_hn_world (λ _, w') h) else upd_hn_world (λ _, w') h
    | _, _ => upd_hn_world (λ _, w') h
    end = (if up : bool then upd_hn_reconciled_upward (λ _, true) (upd_hn_world (λ _, w') h)
           else upd_hn_world (λ _, w') h) ∧
    (up = false → ∀ units r, out = ReconcileApplied units → gs_permits (engine h) !! pid = Some r →
       units ≤ pl_effective_units (rec_ledger r))) as (up & -> & Hup).
  { unfold permit_ledger. destruct out as [units| | | |]; try (by exists false).
    destruct (gs_permits (engine h) !! pid) as [r|]; [|by exists false]. cbn [fmap option_fmap option_map].
    change (lv_effective_units (ledger_view pid r)) with (pl_effective_units (rec_ledger r)).
    case_decide; [by exists true|]. exists false. split; [done|]. intros _ u r' [= <-] [= <-]. lia. }
  eexists. split; [reflexivity|]. split; [|by destruct up].
  eapply (sound_measured _ h w' up); [done|exact Hm|done|cbn; naive_solver|done|by apply Hc, H|].
  intros [Eu Eup]%orb_false_iff. apply Hb; [by apply (so_budget _ _ _ _ _ _ H)|by apply Hup].
Qed.

(** The sweep reclaims no more than it suspects. *)
Lemma reap_permits_count pids k s e :
  let '(m, _, _) := reap_permits pids k s e in m ≤ k + N.of_nat (length pids) ∧ (k ≤ U32_MAX → m ≤ U32_MAX).
Proof.
  revert k s e. induction pids as [|pid pids IH]; intros k s e; cbn [reap_permits]; [cbn; lia|].
  destruct (unwind pid Reclaimed s e) as [[removed s1] e1].
  specialize (IH (match removed with Some _ => wadd U32_MAX k 1 | None => k end) s1 e1).
  destruct (reap_permits _ _ _ _) as [[m s2] e2]. cbn [length].
  assert (wadd U32_MAX k 1 ≤ k + 1 ∧ wadd U32_MAX k 1 ≤ U32_MAX) as [W1 W2].
  { unfold wadd. split; [apply N.Div0.mod_le|]. pose proof (N.mod_lt (k + 1) (U32_MAX + 1) ltac:(done)). lia. }
  destruct removed; split; try intros; lia.
Qed.

Lemma count_u32_min {A} (l : list A) : count_u32 l = N.min (N.of_nat (length l)) U32_MAX.
Proof.
  unfold count_u32.
  assert (∀ k, k ≤ U32_MAX → foldl (λ n _, saturating_add U32_MAX n 1) k l =
    N.min (k + N.of_nat (length l)) U32_MAX) as E; [|by rewrite E].
  induction l as [|x l IH]; intros k Hk; cbn [foldl length]; [lia|].
  unfold saturating_add in *. rewrite IH by lia. lia.
Qed.

Lemma reap_call_count sampled stale w report w' :
  reap_call P sampled stale w = Some (report, w') → reclaimed_permits report ≤ suspected_leaks report.
Proof.
  unfold reap_call, reap_section. destruct (commit_time sampled (w_state w)) as [t s1].
  unfold reap_leaks. set (suspected := List.filter (suspected_leak _ _ _) _). set (reclaim := map rec_permit_id _).
  pose proof (reap_permits_count reclaim 0 s1 no_effects) as Hc.
  destruct (reap_permits reclaim 0 s1 no_effects) as [[m s2] e2].
  destruct (absorb_promote P t s2 e2) as [[s3 e3]|]; [|done]. cbn [mbind option_bind].
  destruct (drain_call _ _ _ _); [|done]. cbn. intros [= <- _]. cbn.
  assert (length reclaim ≤ length suspected)%nat as Hl.
  { unfold reclaim. rewrite length_map. apply filter_length_le. }
  rewrite count_u32_min. destruct Hc as [H1 H2]. specialize (H2 ltac:(ulia)). lia.
Qed.

Lemma step_reap_sound stale h : sound n h → steps_to (step_reap P stale h) h.
Proof.
  intros H. unfold step_reap.
  destruct (client_reap P authority Hwf Htyped n Hn (now h) stale _ _ _ _ (so_client _ _ _ _ _ _ H))
    as (report & w' & Hcall & Hcl & Hm).
  unfold after. rewrite Hcall. cbn [mbind option_bind].
  rewrite bool_decide_eq_true_2 by (by eapply reap_call_count). cbn [assert_that mbind option_bind].
  eexists. split; [reflexivity|]. split; [|done].
  eapply (sound_after _ n h); [done|exact Hm|by intros []|done|exact Hcl| |by left|done|done|by destruct H as [_ _ _ _ _ _ []]].
  eapply moved_attributed; [|exact Hm|apply H]. cbn. naive_solver.
Qed.

Lemma step_clock_sound ms h : sound n h → sound n (upd_hn_clock (ManualClock_advance ms) h).
Proof. intros []. split; try done. by destruct so_policy. Qed.

Lemma step_close_sound h : sound n h → sound n (upd_hn_closed (λ _, true) (upd_hn_world close_call h)).
Proof.
  intros H. destruct (client_close P authority Htyped n Hn _ _ _ _ (so_client _ _ _ _ _ _ H)) as [Hcl Hm].
  pose proof (sound_reachable _ _ _ _ _ _ H) as Hw. split; cbn.
  - exact Hcl.
  - apply H.
  - apply H.
  - done.
  - intros pid Hin. eapply (ended_later P authority Htyped); [exact Hw|apply Hm|].
    by apply (so_ended _ _ _ _ _ _ H).
  - apply (moved_attributed (grip AClose) _ _ (hn_world h) (close_call (hn_world h))); [|exact Hm|apply H].
    cbn. naive_solver.
  - by destruct H as [_ _ _ _ _ _ []].
Qed.
End steps.
End target.
