(* ===== verification/ChurnSafe.v ===== *)
(** * The admission churn target never fails

    The admission step, and the theorem: whatever the fuzzer feeds it, the target runs
    to its end. *)

From S2P Require Import Prelude Contract Text Validation Kernel Executors PolicyCheck Requirements.
From S2P Require Import State Assess Fairness Admission Memory Observe Governor Policies Plan.
From S2P Require Import Builds Books Custody Ledger Moves Reads Invariant Steps Selection Ring.
From S2P Require Import Dispatch Sections Progress Lifecycle Trace System Queues Runs Fifo.
From S2P Require Import Consistency Cycles Fates Grips Total Contracts Calls Churn Identities Gates.
From S2P Require Import Refinement Snapshots Owned Watched Health Client Metered ChurnPolicy.
From S2P Require Import ChurnOrigins ChurnCheck ChurnSteps.

Local Open Scope N_scope.

Section target.
Context (sc : Scenario) (d : Declared) (P : PolicySet) (authority : N).
Context (T : tables d) (TP : target_policy sc d P).
Context (Hall : ∀ class, class ∈ CLASSES → is_Some (de_classes d !! class)).
Implicit Types (h : Harness).
Local Abbreviation sound := (sound sc d P authority).
Local Abbreviation client := (client P authority).

Let Hwf : policy_wf P := tp_wf _ _ _ TP.
Let Htyped : policies_typed P := target_typed _ _ _ T TP.

(** ** Admission *)

(** The state an admission leaves, whatever the harness notes about it. *)
Lemma sound_admitted n m h h' :
  sound n h → later P authority (hn_world h) (hn_world h') → calm (engine h') →
  (within_budget P (engine h) → within_budget P (engine h')) →
  gs_admission_closed (engine h') = gs_admission_closed (engine h) →
  client m (hn_tickets h') (hn_permits h') (hn_tokens h') (hn_world h') →
  attributed (hn_permit_origin h') (hn_ticket_origin h') (engine h') →
  hn_ended h' = hn_ended h → hn_closed h' = hn_closed h →
  hn_reconciled_upward h' = hn_reconciled_upward h → same_policy sc d h' → sound m h'.
Proof.
  intros H Hl Hc Hb Hg Hcl Hat Ee Ecl Er Hsp. split; try done.
  - rewrite Er. intros Eu. by apply Hb, (so_budget _ _ _ _ _ _ H).
  - rewrite Ecl, Hg. apply H.
  - intros pid. rewrite Ee. intros Hin. eapply (ended_later P authority Htyped); [|exact Hl|].
    + by eapply sound_reachable.
    + by apply (so_ended _ _ _ _ _ _ H).
Qed.

(** What the harness sums up before the call is what is held. *)
Lemma held_before_sum n h :
  within_retention n → sound n h →
  checked_sum (map sn_memory_units_held (btree_values (sn_classes (snapshot P (engine h))))) =
    Some (gs_memory_units_held (engine h)).
Proof.
  intros Hn H. destruct (held_sum sc d P authority T TP n h H) as [_ Em].
  pose proof (sound_total sc d P authority T TP n h GMemory Hn H) as Hb. cbn in Em, Hb.
  assert (lsum id (map sn_memory_units_held (btree_values (sn_classes (snapshot P (engine h))))) =
    gs_memory_units_held (engine h)) as E.
  { rewrite lsum_map, <-Em. unfold btree_values. clear.
    induction (btree_to_list _) as [|e l IH]; [done|]. cbn in IH |- *. by rewrite IH. }
  rewrite checked_sum_fits; [by rewrite E|]. rewrite E. ulia.
Qed.

(** The budget bounds what an admission takes: when it is spent, only free work enters. *)
Lemma free_entry h class g s :
  same_policy sc d h → class ∈ CLASSES → grantable P g s →
  gr_class g = class ∨ (∃ p, ps_class P class = Some p ∧ memory_overcommit_policy p = DegradeToLight (gr_class g)) →
  check_free_entry class (gs_memory_units_held s) h = Some ().
Proof.
  intros [_ Emc Eb _] Hc [(policy & Hp & Ec & [_ _ _ Hm _]) _ _] Hent.
  unfold check_free_entry. rewrite Eb, Emc. cbn [snd scenario_budget].
  assert (max_memory_units (ps_resources P) = sc_budget_memory sc `mod` 64) as Er by (by rewrite (tp_resources _ _ _ TP)).
  destruct (negb _ && _) eqn:E; [|done]. apply andb_true_iff in E as [E1 E2].
  apply negb_true_iff, bool_decide_eq_false in E1. apply bool_decide_eq_true in E2.
  rewrite Ec in Hm. cbn [resolve_cost rc_memory_units] in Hm. rewrite Er in Hm. specialize (Hm E1).
  assert (pc_memory_units (permit_cost policy) = 0) as Hz by lia.
  destruct (Hall class Hc) as [p Hcp]. rewrite (tb_memory_cost _ T), Hcp. cbn [fmap option_fmap option_map mbind option_bind].
  unfold ps_class in Hp, Hent. rewrite (tp_classes _ _ _ TP) in Hp, Hent.
  destruct (fallback_class_of p) as [f|] eqn:Ef.
  - destruct (Hall f) as [pf Hpf]; [by eapply (tb_fallback _ T)|]. rewrite (tb_memory_cost _ T), Hpf.
    cbn [fmap option_fmap option_map mbind option_bind fst]. apply assert_true, orb_true_iff.
    rewrite !bool_decide_eq_true. destruct Hent as [<-|(p' & Hp' & Hd)]; [left; congruence|right].
    assert (p' = p) as -> by congruence. unfold fallback_class_of in Ef. rewrite Hd in Ef. congruence.
  - apply assert_true, orb_true_iff. rewrite !bool_decide_eq_true. left.
    destruct Hent as [<-|(p' & Hp' & Hd)]; [congruence|].
    assert (p' = p) as -> by congruence. unfold fallback_class_of in Ef. by rewrite Hd in Ef.
Qed.

(** Nobody is half-way through a claim. *)
Lemma sound_unclaimed n h pid r t :
  within_retention n → sound n h → gs_permits (engine h) !! pid = Some r →
  rec_pending_ticket r = Some t → ticket_status (engine h) t = Ready pid.
Proof.
  intros Hn H Hr Hp. destruct (sound_inv sc d P authority T TP n h H) as (B & HI & _).
  pose proof (pending_holds (inv_custody _ _ _ HI) _ _ _ Hr Hp) as Hcu.
  pose proof (so_client _ _ _ _ _ _ H) as Hcl.
  pose proof (pending_unleased P authority n _ _ _ _ _ _ _ Hcl Hr Hp) as Hl.
  destruct Hcl as [Hh [C1 _]]. specialize (C1 pid r Hr). rewrite Hl, Hp in C1.
  destruct (hd_tickets _ _ _ _ _ _ _ Hh t C1) as [_ Hun]. unfold ticket_status, engine in *.
  unfold custody in Hcu. destruct (gs_tickets (w_state (hn_world h)) !! t) as [[]|] eqn:E;
    cbn in Hcu; simplify_eq; [done|]. by edestruct Hun.
Qed.

(** A cycle the engine reports is one by the harness's notes. *)
Lemma cycle_accepted n seq h roots task origin declared class mx cost caps behind cycle held :
  within_retention n → sound n h → submission seq roots task origin declared →
  assess (engine h) P task class mx cost caps behind = IrreversibleWaitCycle cycle →
  held ∈ cw_held cycle → declared = true ∧ assert_cycle_is_real P (or_root origin) held h = Some ().
Proof.
  intros Hn H Hsub Hcycle Hheld. destruct (sound_inv sc d P authority T TP n h H) as (B & HI & _).
  assert (∃ a, keyed a (ps_capabilities P)) as Hk by (eexists; by apply built_keyed, TP).
  edestruct (cycle_is_real P B Hk h HI) as [(op & stage & Hsc) Hreal]; [..|exact Hcycle|exact Hheld|].
  - by eapply reachable_identities_ok, sound_reachable.
  - apply H.
  - intros pid r t. by apply (sound_unclaimed n).
  - intros op stage Hs. by apply (sb_awaits _ _ _ _ _ Hsub) in Hs as (_ & ? & ? & ?).
  - split; [|done]. by apply (sb_awaits _ _ _ _ _ Hsub) in Hsc as (? & _).
Qed.

(** A refusal is one the harness expects. *)
Lemma refusal_accepted n seq roots task origin declared s caps v h' :
  within_retention (S n) → sound (S n) h' → submission seq roots task origin declared →
  declared_requirements P task = Some caps → gs_admission_closed s = hn_closed h' → calm s →
  refused P s (mkRequest task caps) v (engine h') →
  match v with
  | NestedWaitCycle held =>
    _ ← assert_that declared; _ ← assert_that (negb (hn_closed h'));
    _ ← assert_cycle_is_real P (or_root origin) held h'; Some h'
  | _ => _ ← check_refusal v h'; Some h'
  end = Some h'.
Proof.
  intros Hn H Hsub Hcaps Hg Hcalm Href. assert ((∃ held, v = NestedWaitCycle held) ∨ ¬ ∃ held, v = NestedWaitCycle held) as [[held ->]|Hv]
    by (destruct v; first [by right; intros []|by left; eexists]).
  - inversion Href as [| |class mx cost behind cycle held' Hopen Hcy Hin E1 E2|? ? ? Hne]; [|by edestruct Hne].
    simplify_eq. cbn [ar_spec ar_capabilities] in Hcy.
    destruct (cycle_accepted (S n) seq h' roots task origin declared class mx cost caps behind cycle held)
      as [-> E]; try done. rewrite <-Hg, Hopen, E. done.
  - assert (check_refusal v h' = Some ()) as E.
    { unfold check_refusal. rewrite <-Hg.
      destruct Href as [Hc|what Hopen [[f Hf]|(id & Hid & Hno)]|class mx cost behind cycle held Hopen Hcy Hin
        |v Hopen Hv1 Hv2].
      - by rewrite Hc.
      - unfold calm in Hcalm. congruence.
      - destruct (declared_requirements_registered P task caps id Hwf Hcaps Hid). congruence.
      - destruct Hv. by eexists.
      - rewrite Hopen. by rewrite bool_decide_eq_false_2. }
    destruct v; try (by rewrite E). destruct Hv. by eexists.
Qed.

Lemma step_admission_sound n seq class substrate scope root h :
  within_retention (S n) → seq < 256 → roots_before seq (hn_roots h) → sound n h →
  ∃ h', step_admission P authority class substrate scope root seq h = Some h' ∧ sound (S n) h' ∧
    roots_before (seq + 1) (hn_roots h').
Proof.
  intros Hn Hseq Hroots H. assert (within_retention n) as Hn0 by (unfold within_retention in *; lia).
  destruct (spec_submission class substrate scope root (hn_roots h) seq Hseq Hroots)
    as (task & origin & declared & Hspec & Hsub).
  unfold step_admission. rewrite Hspec. cbn [mbind option_bind].
  set (h1 := if or_is_root origin then _ else h).
  assert (sound n h1 ∧ hn_world h1 = hn_world h ∧ hn_closed h1 = hn_closed h ∧
    roots_before (seq + 1) (hn_roots h1)) as (H1 & Ew1 & Ec1 & Hr1).
  { pose proof (sb_roots _ _ _ _ _ Hsub) as Hr. unfold h1. destruct (or_is_root origin); [|done].
    split_and!; try done. destruct H as [? ? ? ? ? ? []]. split; try done. }
  clearbody h1. rewrite (held_before_sum n h1 Hn0 H1). cbn [mbind option_bind].
  destruct (client_admit P authority Hwf Htyped (now h1) task n _ _ _ _ Hn (so_client _ _ _ _ _ _ H1)
    (sb_valid _ _ _ _ _ Hsub)) as (caps & dec & w' & Hcaps & Hcall & Hans & Hfresh & Hlater & Hen).
  unfold after. rewrite Hcall. cbn [mbind option_bind].
  set (s1 := (commit_time (now h1) (w_state (hn_world h1))).2) in *.
  destruct (sound_inv sc d P authority T TP n h1 H1) as (B & HI & _).
  assert (custody_ok P s1) as HC.
  { unfold s1. rewrite commit_time_books. apply HI. }
  destruct (answered_health P s1 (next_ids authority n) (mkRequest task caps) dec (w_state w'))
    as (Hcalm & Hgate); [|apply Hans|apply H1|].
  { intros id. by eapply declared_requirements_registered. }
  pose proof (answered_budget P s1 _ _ dec _ (Hans _)) as Hbudget.
  assert (attributed (hn_permit_origin h1) (hn_ticket_origin h1) s1) as Hat1
    by (by eapply (same_attributed _ _ (engine h1)); [..|apply H1]).
  pose proof (answered_attributed P (hn_permit_origin h1) (hn_ticket_origin h1) s1 _ _ dec _ origin HC Hfresh
    (Hans _) (sb_belongs _ _ _ _ _ Hsub) Hat1) as Hat.
  pose proof (so_gate _ _ _ _ _ _ H1) as Hg1. change (gs_admission_closed s1 = hn_closed h1) in Hg1.
  assert (∀ h', hn_world h' = w' → client (S n) (hn_tickets h') (hn_permits h') (hn_tokens h') w' →
    attributed (hn_permit_origin h') (hn_ticket_origin h') (w_state w') → hn_ended h' = hn_ended h1 →
    hn_closed h' = hn_closed h1 → hn_reconciled_upward h' = hn_reconciled_upward h1 →
    same_policy sc d h' → sound (S n) h') as Hafter.
  { intros h' Ew Hcl Ha Ee Ecl Er Hsp. eapply (sound_admitted n (S n) h1); unfold engine; by rewrite ?Ew. }
  pose proof (so_policy _ _ _ _ _ _ H1) as Hsp. specialize (Hans (grip AContinue)).
  remember (w_state w') as sw eqn:Esw in Hans. destruct Hans as [v s' Href|g Hopen Hg Eg Ep _ _ _ Hent|sq r s2 s' Hopen _ _ _ _ _ _ Htk]; cbn [enrolled] in Hen.
  - (* refused *)
    assert (sound (S n) (upd_hn_world (λ _, w') h1)) as H'.
    { apply Hafter; try done. by destruct Hsp. }
    exists (upd_hn_world (λ _, w') h1). split; [|by split].
    eapply (refusal_accepted n seq _ _ _ _ s1 caps); [done|exact H'|done|done|done|apply H1|].
    unfold engine. cbn. by rewrite <-Esw.
  - (* admitted *)
    rewrite Hg1 in Hopen. cbn [hn_closed upd_hn_world]. rewrite Hopen. cbn [negb assert_that mbind option_bind].
    rewrite (free_entry _ (ts_class task) g s1); cbn [mbind option_bind].
    + eexists. split; [reflexivity|]. split; [|done]. apply Hafter; try done; [|by destruct Hsp].
      eapply client_perm; [reflexivity| |reflexivity|exact Hen]. apply Permutation_cons_append.
    + by destruct Hsp.
    + apply Hsub.
    + done.
    + exact Hent.
  - (* queued *)
    rewrite Hg1 in Hopen. cbn [hn_closed upd_hn_world]. rewrite Hopen. cbn [negb assert_that mbind option_bind].
    eexists. split; [reflexivity|]. split; [|done]. apply Hafter; try done; [|by destruct Hsp].
    eapply client_perm; [|reflexivity..|exact Hen]. apply Permutation_cons_append.
Qed.

(** ** The whole run *)

Lemma step_sound n seq o h :
  within_retention (S n) → seq < 256 → op_typed o → roots_before seq (hn_roots h) → sound n h →
  ∃ n' h', step P authority o seq h = Some h' ∧ (n' ≤ S n)%nat ∧ sound n' h' ∧
    roots_before (seq + 1) (hn_roots h').
Proof.
  intros Hn Hseq Ho Hroots H. assert (within_retention n) as Hn0 by (unfold within_retention in *; lia).
  assert (roots_before (seq + 1) (hn_roots h)) as Hroots'.
  { intros x (k & ? & ->)%Hroots. exists k. split; [lia|done]. }
  assert (∀ st, steps_to sc d P authority n st h → ∃ n' h', st = Some h' ∧ (n' ≤ S n)%nat ∧
    sound n' h' ∧ roots_before (seq + 1) (hn_roots h')) as Hstep.
  { intros st (h' & E & H' & Er). exists n, h'. rewrite Er. split_and!; [done|lia|done|done]. }
  destruct o as [class substrate scope root|index|index|index|permit phase|index|permit units
    |permit bytes epoch|ms|stale|]; cbn [step].
  - destruct (step_admission_sound n seq class substrate scope root h Hn Hseq Hroots H) as (h' & E & H' & Hr).
    exists (S n), h'. by split_and!.
  - by apply Hstep, step_claim_sound.
  - by apply Hstep, step_abandon_sound.
  - by apply Hstep, step_release_sound.
  - by apply Hstep, step_advance_sound.
  - by apply Hstep, step_release_leased_sound.
  - by apply Hstep, step_stage_release_sound.
  - by apply Hstep, step_reconcile_sound.
  - apply Hstep. eexists. split; [reflexivity|]. split; [by apply step_clock_sound|done].
  - by apply Hstep, step_reap_sound.
  - apply Hstep. eexists. split; [reflexivity|]. split; [by apply step_close_sound|done].
Qed.

Lemma run_ops_sound ops n seq h :
  (n ≤ N.to_nat seq)%nat → seq + N.of_nat (length ops) ≤ 256 → (∀ o, o ∈ ops → op_typed o) →
  roots_before seq (hn_roots h) → sound n h →
  ∃ n' h', run_ops P authority seq ops h = Some h' ∧ (n' ≤ 256)%nat ∧ sound n' h'.
Proof.
  revert n seq h. induction ops as [|o ops IH]; intros n seq h Hn Hlen Hty Hroots H; cbn [run_ops length] in *.
  { exists n, h. split_and!; [done|lia|done]. }
  destruct (step_sound n seq o h) as (n' & h' & -> & Hn' & H' & Hr'); try done.
  - unfold within_retention, MAX_TERMINAL_TICKETS. lia.
  - lia.
  - apply Hty. by left.
  - cbn [mbind option_bind]. rewrite (check_holds sc d P authority T TP n');
      [|unfold within_retention, MAX_TERMINAL_TICKETS; lia|done]. cbn [mbind option_bind].
    apply (IH n'); [lia|lia| |done|done]. intros x Hx. apply Hty. by right.
Qed.

(** Giving back one by one what is held in one of the harness's lists, taken out
    first; [frame] is what the calls leave alone. *)
Lemma each_sound {A F} n (held : Harness → list A) (put : list A → Harness → Harness)
    (frame : Harness → F) (f : A → Harness → option Harness) :
  (∀ h, put (held h) h = h) → (∀ l h, put [] (put l h) = put [] h) →
  (∀ x h, f x (put [] h) = put [] <$> f x h) →
  (∀ x l h, sound n h → held h = x :: l →
     ∃ h', f x (put l h) = Some h' ∧ sound n h' ∧ held h' = l ∧ frame h' = frame h) →
  ∀ l h, sound n h → held h = l →
    ∃ h', each f l (put [] h) = Some h' ∧ sound n h' ∧ held h' = [] ∧ frame h' = frame h.
Proof.
  intros Hid Hput Hind Hstep. induction l as [|x l IH]; intros h H Hh; cbn [each].
  - exists h. rewrite <-Hh, Hid. by split_and!.
  - destruct (Hstep x l h H Hh) as (h1 & E & H1 & Hh1 & Ef1).
    destruct (IH h1 H1 Hh1) as (h' & E' & H' & Hh' & Ef'). exists h'.
    rewrite <-(Hput l h), Hind, E. cbn [fmap option_fmap option_map mbind option_bind].
    rewrite Ef', Ef1. by split_and!.
Qed.

Lemma after_put {A} (call : option (A * World)) (put : Harness → Harness) (k : A → Harness → option Harness) h :
  (∀ f h, upd_hn_world f (put h) = put (upd_hn_world f h)) →
  (∀ x h, k x (put h) = put <$> k x h) →
  ('(x, h') ← after call (put h); k x h') = put <$> ('(x, h') ← after call h; k x h').
Proof.
  intros Hw Hk. unfold after. destruct call as [[x w]|]; [|done]. cbn. by rewrite Hw, Hk.
Qed.

Lemma finish_holds n h : within_retention n → sound n h → finish P h = Some ().
Proof.
  intros Hn H. unfold finish.
  destruct (each_sound n hn_tickets (λ l, upd_hn_tickets (λ _, l)) (λ h, (hn_permits h, hn_tokens h))
    (abandon_checked P)) with (l := hn_tickets h) (h := h) as (h1 & -> & H1 & Ht1 & Ef1); try done.
  { by intros []. }
  { intros t h0. unfold abandon_checked. apply after_put; [done|]. intros out h2. by destruct (assert_that _). }
  { intros t l h0 H0 E0.
    destruct (abandon_checked_sound sc d P authority T TP n Hn t l h0 H0) as (h' & E & H' & _ & Ef);
      [by rewrite E0|]. exists h'. by injection Ef as -> -> -> _. }
  cbn [mbind option_bind].
  destruct (each_sound n hn_permits (λ l, upd_hn_permits (λ _, l)) (λ h, (hn_tickets h, hn_tokens h))
    (release_unleased P)) with (l := hn_permits h1) (h := h1) as (h2 & -> & H2 & Hp2 & Ef2); try done.
  { by intros []. }
  { intros t h0. unfold release_unleased. apply after_put; [done|]. by intros [] h2. }
  { intros t l h0 H0 E0.
    destruct (release_unleased_sound sc d P authority T TP n Hn t l h0 H0) as (h' & E & H' & _ & Ef);
      [by rewrite E0|]. exists h'. by injection Ef as -> -> -> _. }
  cbn [mbind option_bind].
  destruct (each_sound n hn_tokens (λ l, upd_hn_tokens (λ _, l)) (λ h, (hn_tickets h, hn_permits h))
    (release_token P)) with (l := hn_tokens h2) (h := h2) as (h3 & -> & H3 & Hl3 & Ef3); try done.
  { by intros []. }
  { intros t h0. unfold release_token. apply after_put; [done|]. by intros [] h3. }
  { intros t l h0 H0 E0.
    destruct (release_token_sound sc d P authority T TP n Hn t l h0 H0) as (h' & E & H' & _ & Ef);
      [by rewrite E0|]. exists h'. by injection Ef as -> -> -> _. }
  cbn [mbind option_bind]. injection Ef2 as Et2 _. injection Ef3 as Et3 Ep3.
  apply (quiescent sc d P authority T TP n); [done|congruence..].
Qed.

(** The harness over a new governor is sound. *)
Lemma client_initial : client 0 [] [] [] World_initial.
Proof.
  split.
  - split; try (by intros ? ?%elem_of_nil); try apply NoDup_nil_2; try done.
    + constructor.
    + exists ∅. split; [done|]. split; [by intros t []|by intros class q ?%elem_of_nil|done].
    + split; [done|]. by intros class [].
  - split; [done|]. by intros class q ?%elem_of_nil.
Qed.

Lemma initial_sound :
  sound 0 (mkHarness World_initial (ManualClock_new 1000) (de_limits d) (de_memory_cost d)
    (scenario_budget sc) false (scenario_blocking_limit sc) [] [] [] [] false [] ∅ ∅).
Proof.
  split; try done.
  - apply client_initial.
  - intros _ _. apply N.le_0_l.
  - by intros pid ?%elem_of_nil.
  - split; [done|]. by intros class q ?%elem_of_nil.
Qed.
End target.

(** C6: The admission churn fuzz target never fails.  Whatever scenario the fuzzer
    decodes (any class shapes, budgets, limits and sequence of public calls), and
    whatever identities the process hands its governor, the target runs to its end: no
    call panics, and every assertion the target makes holds, after each call about the
    published counters, limits and budgets, about each outcome of a call with a handle
    it holds, about each reported wait cycle, and at the end about quiescence. *)
Theorem churn_never_panics registry next_authority sc :
  scenario_typed sc → fuzz_target registry next_authority sc = Some ().
Proof.
  intros Hsc. destruct (target_starts registry next_authority sc Hsc)
    as [|(d & P & authority & T & Hall & TP & E)]; [done|]. cbn zeta in E. rewrite E.
  pose proof (initial_sound sc d P authority) as H0. set (h := mkHarness _ _ _ _ _ _ _ _ _ _ _ _ _ _ _) in *.
  rewrite (check_holds sc d P authority T TP 0); [|done|exact H0]. cbn [mbind option_bind].
  destruct (run_ops_sound sc d P authority T TP Hall (take 256 (sc_ops sc)) 0 0 h) as (n & h' & -> & Hn & H').
  - done.
  - rewrite length_take. lia.
  - intros o (i & Hi & _)%elem_of_take. apply (sct_ops _ Hsc). by eapply list_elem_of_lookup_2.
  - intros x Hx. by apply elem_of_nil in Hx.
  - done.
  - cbn [mbind option_bind]. apply (finish_holds sc d P authority T TP n); [|done].
    unfold within_retention, MAX_TERMINAL_TICKETS. lia.
Qed.

(** ** A scenario that drives a governor *)

Local Open Scope string_scope.

(** Two slots per class and a memory budget of four; the shared blocking pool has one
    slot. *)
Definition demo_shape : ClassShape := mkClassShape 2 2 1 2 1 1 0 1.
Definition demo_scenario : Scenario := {|
  sc_classes := (demo_shape, demo_shape, demo_shape);
  sc_fairness := 4; sc_budget_cpu := 8; sc_budget_memory := 4; sc_blocking_limit := 1;
  sc_ops := [OpAdmit 0 0 0 0; OpAdmit 1 1 0 0; OpAdmit 1 1 0 0; OpAdmit 2 2 2 0; OpAdvance 0 1;
             OpReconcile 1 500 1; OpReleaseLeased 0; OpClaim 0; OpRelease 0; OpClock 40; OpReap 5;
             OpAbandon 0; OpStageRelease 0 1; OpClose; OpAdmit 0 0 0 0];
|}.

Lemma demo_scenario_typed : scenario_typed demo_scenario.
Proof.
  split; [vm_compute; discriminate|]. intros o Ho.
  assert (Forall op_typed (sc_ops demo_scenario)) as H by (cbn; repeat constructor; vm_compute; discriminate).
  by eapply Forall_forall in H.
Qed.

Lemma churn_never_panics_witness :
  (d ← declare demo_scenario;
   policy ← PolicySet_new 7 (scenario_resources demo_scenario) (de_classes d);
   match with_capability_limits {["blocking" := 1]} policy with
   | inl _ => None
   | inr policy =>
     match fst (Governor_new policy 1) with
     | inl _ => None
     | inr governor =>
       h ← run_ops policy 1 0 (sc_ops demo_scenario) (new_harness demo_scenario d governor);
       Some (length (hn_tickets h), length (hn_permits h), length (hn_tokens h), length (hn_ended h))
     end
   end) = Some (1, 0, 0, 2)%nat ∧
  fuzz_target 7 1 demo_scenario = Some ().
Proof.
  split; [vm_compute; reflexivity|]. exact (churn_never_panics 7 1 demo_scenario demo_scenario_typed).
Defined.
