(* ===== verification/Tasks.v ===== *)
(** * Asynchronous tasks and a rely-guarantee logic for them

    The host's asynchronous functions are sequences of calls to their surroundings
    (the governor, clocks, channels), with other threads running between any two of
    them, and may be dropped wherever they are suspended.  A [task] is such a
    function in direct style over a signature of calls; [task_step] runs it one call
    at a time; [wp] is what it guarantees under interference, dropped or not, and
    includes that it neither spins nor gets stuck ([lively]). *)

From S2P Require Import Prelude.

(** ** Tasks *)

(** [Scope m cleanup k] owns a guard while [m] runs: if the task is dropped inside
    [m], [cleanup] is what the guard's destructor does. *)
Inductive task (F : Type → Type) (A : Type) : Type :=
  | Ret (a : A)
  | Call {X : Type} (o : F X) (k : X → task F A)
  | Loop {I R : Type} (body : I → task F (I + R)) (i : I) (k : R → task F A)
  | Scope {B : Type} (m : task F B) (cleanup : task F ()) (k : B → task F A).
Arguments Ret {F A}.
Arguments Call {F A X}.
Arguments Loop {F A I R}.
Arguments Scope {F A B}.

Fixpoint task_bind {F A B} (f : A → task F B) (m : task F A) : task F B :=
  match m with
  | Ret a => f a
  | Call o k => Call o (λ x, task_bind f (k x))
  | Loop body i k => Loop body i (λ r, task_bind f (k r))
  | Scope m cleanup k => Scope m cleanup (λ b, task_bind f (k b))
  end.

#[export] Instance task_mret F : MRet (task F) := λ A a, Ret a.
#[export] Instance task_mbind F : MBind (task F) := λ A B f m, task_bind f m.

(** One call; a loop; a guarded part. *)
Definition call {F X} (o : F X) : task F X := Call o Ret.
Definition loop {F I R} (i : I) (body : I → task F (I + R)) : task F R := Loop body i Ret.
Definition guarded {F B} (cleanup : task F ()) (m : task F B) : task F B := Scope m cleanup Ret.

(** [result?] in a function whose error type is [E]: stop with the error, or go on. *)
Definition try {F E A B} (r : E + A) (k : A → task F (E + B)) : task F (E + B) :=
  match r with inl e => Ret (inl e) | inr a => k a end.

Section semantics.
Context {F : Type → Type} {Σ : Type}.

(** What a call may do: its result and the state after it.  [suspends] are the calls
    a task waits at.  [demands] is what must hold where a call is about to run. *)
Context (acts : ∀ X, F X → Σ → X → Σ → Prop).
Context (suspends : ∀ X, F X → bool).
Context (demands : ∀ X, F X → Σ → Prop).
Arguments acts {X}.
Arguments suspends {X}.
Arguments demands {X}.

(** One step of a task. *)
Fixpoint task_step {A} (p : task F A) (σ : Σ) (q : task F A) (σ' : Σ) : Prop :=
  match p with
  | Ret _ => False
  | Call o k => ∃ x, acts o σ x σ' ∧ q = k x
  | Loop body i k =>
    σ' = σ ∧ q = Scope (body i) (Ret ())
                   (λ x, match x with inl j => Loop body j k | inr r => k r end)
  | Scope (Ret b) _ k => σ' = σ ∧ q = k b
  | Scope m cleanup k => ∃ m', task_step m σ m' σ' ∧ q = Scope m' cleanup k
  end.

(** A task on its own, nobody else moving the state: its steps, and whether every
    sequence of them is finite. *)
Definition quiet_step {A} : relation (task F A * Σ) := λ c c', task_step c.1 c.2 c'.1 c'.2.
Definition finishes {A} (p : task F A) (σ : Σ) : Prop := sn quiet_step (p, σ).

(** What is left to run when a suspended task is dropped: the destructors of the
    guards it is inside of, innermost first. *)
Fixpoint dropped {A} (p : task F A) : option (task F ()) :=
  match p with
  | Ret _ | Loop _ _ _ => None
  | Call o _ => if suspends o then Some (Ret ()) else None
  | Scope m cleanup _ => task_bind (λ _, cleanup) <$> dropped m
  end.

(** The demand of the call a task is at. *)
Fixpoint demanded {A} (p : task F A) (σ : Σ) : Prop :=
  match p with
  | Call o _ => demands o σ
  | Scope m _ _ => demanded m σ
  | Ret _ | Loop _ _ _ => True
  end.

(** The call a task is at, one that [may_wait] says it may wait at. *)
Fixpoint waits (may_wait : ∀ X, F X → Σ → Prop) {A} (p : task F A) (σ : Σ) : Prop :=
  match p with
  | Call o _ => may_wait _ o σ
  | Scope m _ _ => waits may_wait m σ
  | Ret _ | Loop _ _ _ => False
  end.

(** Neither spinning nor stuck: left alone it stops, and it stops only when it has
    returned or where it may wait. *)
Definition lively (may_wait : ∀ X, F X → Σ → Prop) {A} (p : task F A) (σ : Σ) : Prop :=
  finishes p σ ∧
  ((∃ a, p = Ret a) ∨ (∃ q σ', task_step p σ q σ') ∨ waits may_wait p σ).

Lemma scope_finishes {A B} (m : task F B) cleanup (k : B → task F A) σ :
  finishes m σ → (∀ b σ', rtc quiet_step (m, σ) (Ret b, σ') → finishes (k b) σ') →
  finishes (Scope m cleanup k) σ.
Proof.
  intros H. unfold finishes in H. remember (m, σ) as c eqn:Ec. revert m σ Ec.
  induction H as [c _ IH]; intros m σ -> Hk. constructor. intros [q σ1] Hs.
  assert (∀ m', task_step m σ m' σ1 → finishes (Scope m' cleanup k) σ1) as Hm.
  { intros m' Hm. apply (IH (m', σ1) Hm m' σ1 eq_refl). intros b σ' Hr. apply Hk.
    eapply rtc_l; [|exact Hr]. exact Hm. }
  change (task_step (Scope m cleanup k) σ q σ1) in Hs. cbn in Hs. destruct m as [b| | |].
  - destruct Hs as [-> ->]. by apply Hk.
  - destruct Hs as (m' & Hs & ->). by apply Hm.
  - destruct Hs as (m' & Hs & ->). by apply Hm.
  - destruct Hs as (m' & Hs & ->). by apply Hm.
Qed.

Lemma demanded_progress (may_wait : ∀ X, F X → Σ → Prop) {A} (p : task F A) σ :
  (∀ X (o : F X), demands o σ → (∃ x σ', acts o σ x σ') ∨ may_wait X o σ) → demanded p σ →
  (∃ a, p = Ret a) ∨ (∃ q σ', task_step p σ q σ') ∨ waits may_wait p σ.
Proof.
  intros Hd. induction p as [A a|A X o k IH|A I R body IHb i k IHk|A B m IHm c IHc k IHk]; cbn.
  - left. by exists a.
  - intros [(x & σ' & Hx)|Hi]%Hd; [|by right; right]. right; left. by exists (k x), σ', x.
  - intros _. right; left. by eexists _, σ.
  - intros [[b ->]|[(m' & σ' & Hm)|Hw]]%IHm.
    + right; left. by exists (k b), σ.
    + right; left. exists (Scope m' c k), σ'. destruct m; [by destruct Hm|..]; by exists m'.
    + by right; right.
Qed.

(** ** The logic *)

Section logic.
Context (rely guarantee : relation Σ) `{!PreOrder rely}.

(** From [σ], whatever other threads do within [rely], [p] only does what
    [guarantee] allows, meets every demand, ends in [Q] if it returns and in [D] if
    it is dropped.  A loop has an invariant, and a measure that falls from one round
    to the next as long as nobody else interferes. *)
Fixpoint wp {A} (p : task F A) (Q : A → Σ → Prop) (D : Σ → Prop) (σ : Σ) : Prop :=
  match p with
  | Ret a => ∀ σ1, rely σ σ1 → Q a σ1
  | Call o k => ∀ σ1, rely σ σ1 →
      demands o σ1 ∧ (suspends o = true → D σ1) ∧
      ∀ x σ2, acts o σ1 x σ2 → guarantee σ1 σ2 ∧ wp (k x) Q D σ2
  | Loop body i k => ∃ (J : _ → Σ → Prop) (measure : _ → Σ → nat),
      J i σ ∧ (∀ j σ1 σ2, rely σ1 σ2 → J j σ1 → J j σ2) ∧
      (∀ j σ1 j' σ2, J j σ1 → rtc quiet_step (body j, σ1) (Ret (inl j'), σ2) →
         (measure j' σ2 < measure j σ1)%nat) ∧
      ∀ j σ1, J j σ1 →
        wp (body j) (λ x σ2, match x with inl j' => J j' σ2 | inr r => wp (k r) Q D σ2 end) D σ1
  | Scope m cleanup k =>
      wp m (λ b, wp (k b) Q D) (λ σ1, wp cleanup (λ _, D) (λ _, False) σ1) σ
  end.

Lemma wp_rely {A} (p : task F A) Q D σ σ' : rely σ σ' → wp p Q D σ → wp p Q D σ'.
Proof.
  intros Hr. revert Q D. induction p as [A a|A X o k IH|A I R body IHb i k IHk|A B m IHm c IHc k IHk];
    intros Q D; cbn.
  - intros H σ1 H1. apply H. by transitivity σ'.
  - intros H σ1 H1. apply H. by transitivity σ'.
  - intros (J & m & H1 & HJ & Hm & H2). exists J, m. split; [by eapply HJ|done].
  - apply IHm.
Qed.

Lemma wp_mono {A} (p : task F A) (Q Q' : A → Σ → Prop) (D D' : Σ → Prop) σ :
  (∀ a σ, Q a σ → Q' a σ) → (∀ σ, D σ → D' σ) → wp p Q D σ → wp p Q' D' σ.
Proof.
  revert Q Q' D D' σ. induction p as [A a|A X o k IH|A I R body IHb i k IHk|A B m IHm c IHc k IHk];
    intros Q Q' D D' σ HQ HD; cbn.
  - eauto.
  - intros H σ1 Hr. destruct (H σ1 Hr) as (H1 & H2 & H3). split_and!; [done|eauto|].
    intros x σ2 Hx. destruct (H3 x σ2 Hx) as [? ?]. split; [done|]. by eapply IH.
  - intros (J & m & H1 & HJ & Hm & H2). exists J, m. split_and!; [done..|]. intros j σ1 Hj.
    eapply IHb; [|exact HD|by apply H2]. intros [j'|r] σ2; [done|]. by apply IHk.
  - apply IHm.
    + intros b σ1. by apply IHk.
    + intros σ1. by apply IHc.
Qed.

Lemma wp_bind {A B} (m : task F A) (f : A → task F B) Q D σ :
  wp m (λ a, wp (f a) Q D) D σ → wp (task_bind f m) Q D σ.
Proof.
  revert B f Q D σ. induction m as [A a|A X o k IH|A I R body IHb i k IHk|A C m IHm c IHc k IHk];
    intros B f Q D σ; cbn.
  - intros H. by apply H.
  - intros H σ1 Hr. destruct (H σ1 Hr) as (H1 & H2 & H3). split_and!; [done..|].
    intros x σ2 Hx. destruct (H3 x σ2 Hx). eauto.
  - intros (J & m' & H1 & HJ & Hm & H2). exists J, m'. split_and!; [done..|]. intros j σ1 Hj.
    eapply wp_mono; [| |by apply H2]; [|done]. intros [j'|r] σ2; [done|]. by apply IHk.
  - apply wp_mono; [|done]. intros b σ1. by apply IHk.
Qed.

(** The rules a proof uses. *)
Lemma wp_call {A X} (o : F X) (k : X → task F A) Q D σ :
  (∀ σ1, rely σ σ1 →
     demands o σ1 ∧ (suspends o = true → D σ1) ∧
     ∀ x σ2, acts o σ1 x σ2 → guarantee σ1 σ2 ∧ wp (k x) Q D σ2) →
  wp (Call o k) Q D σ.
Proof. done. Qed.

Lemma wp_scope {A B} (m : task F B) cleanup (k : B → task F A) Q D σ :
  wp m (λ b, wp (k b) Q D) (λ σ1, wp cleanup (λ _, D) (λ _, False) σ1) σ →
  wp (Scope m cleanup k) Q D σ.
Proof. done. Qed.

Lemma wp_loop {A I R} (J : I → Σ → Prop) (measure : I → Σ → nat) (body : I → task F (I + R)) i
    (k : R → task F A) Q D σ :
  J i σ → (∀ j σ1 σ2, rely σ1 σ2 → J j σ1 → J j σ2) →
  (∀ j σ1 j' σ2, J j σ1 → rtc quiet_step (body j, σ1) (Ret (inl j'), σ2) →
     (measure j' σ2 < measure j σ1)%nat) →
  (∀ j σ1, J j σ1 →
     wp (body j) (λ x σ2, match x with inl j' => J j' σ2 | inr r => wp (k r) Q D σ2 end) D σ1) →
  wp (Loop body i k) Q D σ.
Proof. intros. by exists J, measure. Qed.

(** ** Soundness *)

(** Every step keeps the promise. *)
Lemma wp_step {A} (p q : task F A) Q D σ σ' :
  wp p Q D σ → task_step p σ q σ' → guarantee σ σ' ∨ σ' = σ.
Proof.
  revert q Q D σ σ'. induction p as [A a|A X o k IH|A I R body IHb i k IHk|A B m IHm c IHc k IHk];
    intros q Q D σ σ'; cbn.
  - done.
  - intros H (x & Hx & _). left. by destruct (H σ (reflexivity σ)) as (_ & _ & [? _]%(λ f, f x σ' Hx)).
  - intros _ [-> _]. by right.
  - intros H Hs. destruct m as [b| | |]; [destruct Hs as [-> _]; by right|..];
      destruct Hs as (m' & Hs & _); by eapply IHm.
Qed.

Lemma wp_steps {A} (p q : task F A) Q (D : Σ → Prop) σ σ' :
  (∀ σ1 σ2, rely σ1 σ2 → D σ1 → D σ2) →
  wp p Q D σ → task_step p σ q σ' → wp q Q D σ'.
Proof.
  revert q Q D σ σ'. induction p as [A a|A X o k IH|A I R body IHb i k IHk|A B m IHm c IHc k IHk];
    intros q Q D σ σ' HD.
  - done.
  - intros H (x & Hx & ->). cbn in H. by destruct (H σ (reflexivity σ)) as (_ & _ & [_ ?]%(λ f, f x σ' Hx)).
  - intros (J & m & H1 & HJ & Hm & H2) [-> ->]. apply wp_scope.
    eapply wp_mono; [| |by apply H2]; [|cbn; eauto].
    intros [j|r] σ1 Hx; [|done]. by exists J, m.
  - cbn. intros H Hs.
    destruct m as [b|X o k'|I R body i k'|C m' c' k']; [destruct Hs as [-> ->]; by apply H|..];
      destruct Hs as (q' & Hs & ->); cbn [wp]; (eapply IHm; [|done|done]);
      intros σ1 σ2; apply wp_rely.
Qed.

(** What a task that is left alone returns. *)
Lemma wp_returns {A} (p : task F A) Q (D : Σ → Prop) σ a σ' :
  wp p Q D σ → rtc quiet_step (p, σ) (Ret a, σ') → Q a σ'.
Proof.
  intros H Hr. assert (wp p Q (λ _, True) σ) as H' by (by eapply wp_mono; [| |exact H]).
  clear H. remember (p, σ) as c eqn:Ec. remember (Ret a, σ') as c' eqn:Ec'. revert p σ Ec H'.
  induction Hr as [c|c [q σ1] c' Hs _ IH]; intros p σ -> H; [simplify_eq; by apply H|].
  apply (IH Ec' q σ1); [done|]. by eapply wp_steps; [by intros|exact H|exact Hs].
Qed.

(** Every task ends when it is left alone. *)
Lemma wp_finishes {A} (p : task F A) Q D σ : wp p Q D σ → finishes p σ.
Proof.
  revert Q D σ. induction p as [A a|A X o k IH|A I R body IHb i k IHk|A B m IHm c IHc k IHk]; intros Q D σ.
  - intros _. constructor. by intros [q σ1] [].
  - intros H. constructor. intros [q σ1] (x & Hx & E). cbn in E. subst q.
    cbn in H. destruct (H σ (reflexivity σ)) as (_ & _ & [_ Hwp]%(λ f, f x σ1 Hx)). by eapply IH.
  - intros (J & measure & H1 & _ & Hm & H2). remember (measure i σ) as n eqn:En. revert i σ En H1.
    induction (lt_wf n) as [n _ IH]; intros i σ -> H1. constructor. intros [q σ1] [Eσ Eq].
    cbn in Eσ, Eq. subst q σ1.
    apply scope_finishes; [by eapply IHb, H2|]. intros [j|r] σ2 Hr.
    + eapply IH; [by eapply Hm|done|]. exact (wp_returns _ _ _ _ _ _ (H2 _ _ H1) Hr).
    + eapply IHk. exact (wp_returns _ _ _ _ _ _ (H2 _ _ H1) Hr).
  - cbn. intros H. apply scope_finishes; [by eapply IHm|]. intros b σ1 Hr.
    eapply IHk. exact (wp_returns _ _ _ _ _ _ H Hr).
Qed.

(** A dropped task's destructors run within the promise. *)
Lemma wp_dropped {A} (p : task F A) Q D σ c :
  wp p Q D σ → dropped p = Some c → wp c (λ _, D) (λ _, False) σ.
Proof.
  revert Q D σ c. induction p as [A a|A X o k IH|A I R body IHb i k IHk|A B m IHm c' IHc k IHk];
    intros Q D σ c; cbn; try done.
  - intros H. destruct (suspends o) eqn:Es; [|done]. intros [= <-] σ1 Hr. by apply H.
  - intros H (d & Hd & ->)%fmap_Some. apply wp_bind.
    eapply wp_mono; [| |by eapply IHm]; [|done]. intros []; done.
Qed.

Lemma wp_demanded {A} (p : task F A) Q D σ : wp p Q D σ → demanded p σ.
Proof.
  revert Q D σ. induction p as [A a|A X o k IH|A I R body IHb i k IHk|A B m IHm c IHc k IHk];
    intros Q D σ; cbn; try done.
  - intros H. by apply (H σ).
  - apply IHm.
Qed.
End logic.

(** ** Runs amid interference *)

Section runs.
Context (env : relation Σ).

(** Between two steps of the task, [env] moves the state any number of times. *)
Inductive moves {A} : relation (task F A * Σ) :=
  | moves_step p σ q σ' : task_step p σ q σ' → moves (p, σ) (q, σ')
  | moves_env p σ σ' : env σ σ' → moves (p, σ) (p, σ').

(** How a run of [p] ends: it returns, or it is dropped where it is suspended and
    its destructors run to their end. *)
Inductive ends {A} (p : task F A) (σ : Σ) : option A → Σ → Prop :=
  | ends_returned a σ' : rtc moves (p, σ) (Ret a, σ') → ends p σ (Some a) σ'
  | ends_dropped q σ1 c σ' :
      rtc moves (p, σ) (q, σ1) → dropped q = Some c → rtc moves (c, σ1) (Ret (), σ') →
      ends p σ None σ'.

Section soundness.
Context (guarantee : relation Σ).
Local Abbreviation wp := (wp (rtc env) guarantee).

Lemma wp_runs {A} (p q : task F A) Q (D : Σ → Prop) σ σ' :
  (∀ σ1 σ2, env σ1 σ2 → D σ1 → D σ2) →
  rtc moves (p, σ) (q, σ') → wp p Q D σ → wp q Q D σ'.
Proof.
  intros HD H. remember (p, σ) as c eqn:Ec. remember (q, σ') as c' eqn:Ec'.
  revert p σ q σ' Ec Ec'.
  induction H as [c|c c1 c' Hm _ IH]; intros p σ q σ' -> E Hwp; [by simplify_eq|].
  inversion Hm; subst; (eapply IH; [reflexivity|reflexivity|]).
  - eapply wp_steps; [apply _| |exact Hwp|eassumption]. intros σ1 σ2 Hr. induction Hr; eauto.
  - eapply wp_rely; [apply _| |exact Hwp]. by apply rtc_once.
Qed.

Lemma wp_ends {A} (p : task F A) Q (D : Σ → Prop) σ out σ' :
  (∀ σ1 σ2, env σ1 σ2 → D σ1 → D σ2) →
  ends p σ out σ' → wp p Q D σ → match out with Some a => Q a σ' | None => D σ' end.
Proof.
  intros HD [a σ1 Hr|q σ1 c σ2 Hr Hd Hc] Hwp; apply (wp_runs _ _ _ _ _ _ HD Hr) in Hwp.
  - by apply Hwp.
  - assert (wp c (λ _, D) (λ _, False) σ1) as Hwp'
      by (eapply wp_dropped; [apply _|exact Hwp|exact Hd]).
    eapply (wp_runs c _ _ _ σ1) in Hwp'; [|by intros|exact Hc]. by apply Hwp'.
Qed.

(** Nowhere in a run is the task spinning or stuck. *)
Lemma wp_runs_lively may_wait {A} (p q : task F A) Q (D : Σ → Prop) σ σ' :
  (∀ σ1 σ2, env σ1 σ2 → D σ1 → D σ2) →
  (∀ X (o : F X), demands o σ' → (∃ x σ'', acts o σ' x σ'') ∨ may_wait X o σ') →
  rtc moves (p, σ) (q, σ') → wp p Q D σ → lively may_wait q σ'.
Proof.
  intros HD Hi Hr Hwp. apply (wp_runs _ _ _ _ _ _ HD Hr) in Hwp. split.
  - by apply wp_finishes in Hwp; [|apply _].
  - eapply demanded_progress; [exact Hi|]. by apply (wp_demanded (rtc env) guarantee _ _ _ _ Hwp).
Qed.

(** A run is at a demand only where it is met. *)
Lemma wp_runs_demanded {A} (p q : task F A) Q (D : Σ → Prop) σ σ' :
  (∀ σ1 σ2, env σ1 σ2 → D σ1 → D σ2) →
  rtc moves (p, σ) (q, σ') → wp p Q D σ → demanded q σ'.
Proof. intros HD Hr Hwp. eapply (wp_demanded (rtc env) guarantee), (wp_runs p q Q D σ σ'); done. Qed.
End soundness.

(** ** Executing a task *)

Section stepping.
Context (act : ∀ X, F X → Σ → option (X * Σ)).
Arguments act {X}.

(** One step, when [act] has a result for its call. *)
Fixpoint step_task {A} (p : task F A) (σ : Σ) : option (task F A * Σ) :=
  match p with
  | Ret _ => None
  | Call o k => '(x, σ') ← act o σ; Some (k x, σ')
  | Loop body i k =>
    Some (Scope (body i) (Ret ()) (λ x, match x with inl j => Loop body j k | inr r => k r end), σ)
  | Scope (Ret b) _ k => Some (k b, σ)
  | Scope m cleanup k => '(m', σ') ← step_task m σ; Some (Scope m' cleanup k, σ')
  end.

Lemma step_task_step {A} (p q : task F A) σ σ' :
  (∀ X (o : F X) σ x σ', act o σ = Some (x, σ') → acts o σ x σ') →
  step_task p σ = Some (q, σ') → task_step p σ q σ'.
Proof.
  intros Hact. revert q σ σ'. induction p as [A a|A X o k IH|A I R body IHb i k IHk|A B m IHm c IHc k IHk];
    intros q σ σ'; cbn.
  - done.
  - intros ([x σ1] & Hx & [= <- <-])%bind_Some. exists x. by split; [apply Hact|].
  - by intros [= <- <-].
  - destruct m as [b| | |]; [by intros [= <- <-]|..];
      intros ([m' σ1] & Hm & [= <- <-])%bind_Some; exists m'; by split; [apply IHm|].
Qed.

(** Steps until the task has returned or [act] has no result for its call. *)
Fixpoint walk {A} (fuel : nat) (p : task F A) (σ : Σ) : task F A * Σ :=
  match fuel with
  | O => (p, σ)
  | S fuel => match step_task p σ with Some (q, σ') => walk fuel q σ' | None => (p, σ) end
  end.

Lemma walk_moves {A} fuel (p : task F A) σ :
  (∀ X (o : F X) σ x σ', act o σ = Some (x, σ') → acts o σ x σ') →
  rtc moves (p, σ) (walk fuel p σ).
Proof.
  intros Hact. revert p σ. induction fuel as [|fuel IH]; intros p σ; [done|]. cbn [walk].
  destruct (step_task p σ) as [[q σ']|] eqn:Es; [|done].
  eapply rtc_l; [|apply IH]. by apply moves_step, step_task_step.
Qed.
End stepping.

Section executing.
Context (act : ∀ X, F X → Σ → option (X * Σ)).
Arguments act {X}.
Hypothesis act_ok : ∀ X (o : F X) σ x σ', act o σ = Some (x, σ') → acts o σ x σ'.

Fixpoint execute {A} (fuel : nat) (p : task F A) (σ : Σ) : option (A * Σ) :=
  match fuel with
  | O => None
  | S fuel =>
    match p with
    | Ret a => Some (a, σ)
    | Call o k => '(x, σ) ← act o σ; execute fuel (k x) σ
    | Loop body i k =>
      '(x, σ) ← execute fuel (body i) σ;
      match x with
      | inl j => execute fuel (Loop body j k) σ
      | inr r => execute fuel (k r) σ
      end
    | Scope m _ k => '(b, σ) ← execute fuel m σ; execute fuel (k b) σ
    end
  end.

Lemma scope_moves {A B} (m m' : task F B) cleanup (k : B → task F A) σ σ' :
  rtc moves (m, σ) (m', σ') → rtc moves (Scope m cleanup k, σ) (Scope m' cleanup k, σ').
Proof.
  intros H. remember (m, σ) as c eqn:Ec. remember (m', σ') as c' eqn:Ec'.
  revert m σ Ec. induction H as [c|c c1 c' Hm _ IH]; intros m σ ->; [by simplify_eq|].
  inversion Hm as [p0 σ0 q σ1 Hs|p0 σ0 σ1 Hs]; subst.
  - eapply rtc_l; [|by apply IH]. apply moves_step. destruct m; [done|..]; cbn; by exists q.
  - eapply rtc_l; [|by apply IH]. by apply moves_env.
Qed.

Lemma scope_returns {A B} (m : task F B) cleanup (k : B → task F A) σ b σ1 (q : task F A) σ' :
  rtc moves (m, σ) (Ret b, σ1) → rtc moves (k b, σ1) (q, σ') →
  rtc moves (Scope m cleanup k, σ) (q, σ').
Proof.
  intros Hm Hk. etransitivity; [by apply scope_moves|].
  eapply rtc_l; [|exact Hk]. by apply moves_step.
Qed.

Lemma execute_moves {A} fuel (p : task F A) σ a σ' :
  execute fuel p σ = Some (a, σ') → rtc moves (p, σ) (Ret a, σ').
Proof.
  revert A p σ a σ'. induction fuel as [|fuel IH]; intros A p σ a σ'; [done|].
  destruct p as [a0|X o k|I R body i k|B m c k]; cbn [execute].
  - by intros [= -> ->].
  - intros ([x σ1] & Hx & H)%bind_Some. eapply rtc_l; [|by apply IH].
    apply moves_step. exists x. split; [by apply act_ok|done].
  - intros ([x σ1] & Hx & H)%bind_Some. eapply rtc_l; [by apply moves_step|].
    eapply scope_returns; [by apply IH|]. destruct x; by apply IH.
  - intros ([b σ1] & Hb & H)%bind_Some. eapply scope_returns; by apply IH.
Qed.
End executing.
End runs.
End semantics.
