(* ===== verification/Host.v ===== *)
(** * The host around a submission

    What the asynchronous submission paths of crates/taskmesh/src/runtime.rs and
    runtime/ call, and what those calls may do: the governor's critical sections,
    clocks and cancellation tokens, notifiers, the caller's work, and the channels
    and worker of a detached job.  Tokio, the executors and the caller's own code are
    known by what they document: each call is a relation that allows every behaviour
    they may show.  Notifiers do not panic ([TokioPermitWaker]). *)

From S2P Require Import Prelude Contract Text Validation Kernel Errors Arbiter PolicyCheck State.
From S2P Require Import Assess Admission Observe Governor Books Custody Ledger Invariant Sections.
From S2P Require Import System Tasks.

(** ** Execution leases: [ExecutionLease] and [Custody] of runtime.rs *)

Module LeaseCustody.
Inductive t :=
  | Reserved
  | Leased (token : LeaseToken)
  | Gone.
End LeaseCustody.
Abbreviation LeaseCustody := LeaseCustody.t.

Record ExecutionLease := mkExecutionLease {
  el_permit_id : PermitId;
  el_custody : LeaseCustody;
}.

(** ** Calls *)

(** How the caller's own work ended: [catch_unwind] around a job, or the poll of a
    future. *)
Inductive JobOutcome (T E : Type) := JobReturned (result : E + T) | JobPanicked.
Arguments JobReturned {T E}.
Arguments JobPanicked {T E}.

(** The arms of the selects the host waits at. *)
Inductive WorkSelect (T E : Type) :=
  | WorkCancelled | WorkTimedOut | WorkReady (completed_at : Instant) (result : E + T).
Arguments WorkCancelled {T E}.
Arguments WorkTimedOut {T E}.
Arguments WorkReady {T E}.

(** [block_on] of a select on a worker's own runtime: the work panicked, the caller's
    end of the channel is gone, or the work's own select ended. *)
Inductive BlockOn (T E : Type) :=
  | BlockPanicked | BlockClosed | BlockWork (x : WorkSelect T E).
Arguments BlockPanicked {T E}.
Arguments BlockClosed {T E}.
Arguments BlockWork {T E}.

Inductive DoneSelect (M : Type) :=
  | DoneCancelled | DoneResponseBy | DoneExpired | DoneReceived (message : option M).
Arguments DoneCancelled {M}.
Arguments DoneResponseBy {M}.
Arguments DoneExpired {M}.
Arguments DoneReceived {M}.

(** Where a detached job is sent, and what the call that sends it does. *)
Inductive Executor := TokioBlockingPool | DedicatedThread | CpuExecutorPort.
Inductive SpawnOutcome := SpawnTaken | SpawnRefused (error : string) | SpawnPanicked.

Inductive op (T E M : Type) : Type → Type :=
  (* clocks, tokens, the ambient runtime *)
  | ONow : op T E M Instant
  | OIsCancelled (token : CancellationToken) : op T E M bool
  | OInTokioContext : op T E M bool
  (* the governor: its clock, its identities, its critical sections *)
  | OSampleClock : op T E M N
  | OFreshIds : op T E M (option Ids)
  | OAdmit (sampled : N) (req : AdmissionRequest) (waker : option Waker) (ids : Ids)
    : op T E M (AdmissionDecision * TransitionEffects)
  | OClaimBegin (sampled : N) (t : Ticket) : op T E M (ClaimBegin * TransitionEffects)
  | OClaimFinish (sampled : N) (t : Ticket) : op T E M ClaimOutcome
  | OTicketStatus (t : Ticket) : op T E M ClaimOutcome
  | OPendingBlockReason (t : Ticket) : op T E M (option CapacityBlock)
  | OAbandon (sampled : N) (t : Ticket) : op T E M (AbandonOutcome * TransitionEffects)
  | ORelease (sampled : N) (pid : PermitId) (proof : option N)
    : op T E M (ReleaseOutcome * TransitionEffects)
  | OAdvance (pid : PermitId) (phase : ExecutionPhase) : op T E M AdvanceOutcome
  | OContinue (sampled : N) : op T E M TransitionEffects
  | OSettled : op T E M ()
  (* notifiers: [Notify] behind [TokioPermitWaker] *)
  | ONewNotify : op T E M Waker
  | OWake (w : Waker) : op T E M ()
  | OPark (cancel : option CancellationToken) (w : Waker) (deadline : option Instant) : op T E M ()
  (* the caller's work: a future polled in a select, a job called by a worker, a
     future driven by a worker's own runtime *)
  | OPollWork (cancel : option CancellationToken) (deadline : option Instant)
    : op T E M (WorkSelect T E)
  | ORunJob : op T E M (JobOutcome T E)
  | OBlockOn (cancel : option CancellationToken) (deadline : option Instant)
    : op T E M (BlockOn T E)
  (* detached workers: the executor takes the job, or refuses it *)
  | OSpawn (on : Executor) (lease : ExecutionLease) : op T E M SpawnOutcome
  | OBuildRuntime : op T E M (option string)
  | ODropRuntime (used : bool) : op T E M ()
  | OSendStarted (at_ : Instant) : op T E M ()
  | OSendDone (m : M) : op T E M (option M)
  | OReceiverClosed : op T E M bool
  | ODropSenders : op T E M ()
  | OAwaitDone (cancel : option CancellationToken) (response_by : option Instant)
      (run_budget : option Duration) : op T E M (DoneSelect M)
  | ODropReceiver : op T E M (option M).
Arguments ONow {T E M}.
Arguments OIsCancelled {T E M}.
Arguments OInTokioContext {T E M}.
Arguments OSampleClock {T E M}.
Arguments OFreshIds {T E M}.
Arguments OAdmit {T E M}.
Arguments OClaimBegin {T E M}.
Arguments OClaimFinish {T E M}.
Arguments OTicketStatus {T E M}.
Arguments OPendingBlockReason {T E M}.
Arguments OAbandon {T E M}.
Arguments ORelease {T E M}.
Arguments OAdvance {T E M}.
Arguments OContinue {T E M}.
Arguments OSettled {T E M}.
Arguments ONewNotify {T E M}.
Arguments OWake {T E M}.
Arguments OPark {T E M}.
Arguments OPollWork {T E M}.
Arguments ORunJob {T E M}.
Arguments OBlockOn {T E M}.
Arguments OReceiverClosed {T E M}.
Arguments OSpawn {T E M}.
Arguments OBuildRuntime {T E M}.
Arguments ODropRuntime {T E M}.
Arguments OSendStarted {T E M}.
Arguments OSendDone {T E M}.
Arguments ODropSenders {T E M}.
Arguments OAwaitDone {T E M}.
Arguments ODropReceiver {T E M}.

(** The calls a future waits at: only there can it be dropped. *)
Definition suspends {T E M} X (o : op T E M X) : bool :=
  match o with
  | OPark _ _ _ | OPollWork _ _ | OAwaitDone _ _ _ => true
  | _ => false
  end.

(** ** State *)

(** The worker of a detached job: not spawned, holding the job with the lease that
    was moved into it, or started (or dropped) and done with that lease. *)
Inductive WorkerSlot := NoWorker | Submitted (lease : ExecutionLease) | Begun.

(** The completion channel: open, holding a message, emptied by its receiver, or
    closed from one end. *)
Inductive Channel (M : Type) :=
  | ChannelOpen | ChannelSent (m : M) | ChannelTaken (m : M) | NoReceiver | NoSender.
Arguments ChannelOpen {M}.
Arguments ChannelSent {M}.
Arguments ChannelTaken {M}.
Arguments NoReceiver {M}.
Arguments NoSender {M}.

(** [h_notified] are the stored notifications, [h_owed] those that critical sections
    of other calls left to be delivered after the lock. *)
Record Host (M : Type) := mkHost {
  h_world : World;
  h_now : Instant;
  h_fired : gset CancellationToken;
  h_notified : gset Waker;
  h_owed : list Waker;
  h_own : option Ids;
  h_worker : WorkerSlot;
  h_started : option Instant;
  h_done : Channel M;
}.
Arguments mkHost {M}.
Arguments h_world {M}.
Arguments h_now {M}.
Arguments h_fired {M}.
Arguments h_notified {M}.
Arguments h_owed {M}.
Arguments h_own {M}.
Arguments h_worker {M}.
Arguments h_started {M}.
Arguments h_done {M}.

Section updates.
Context {M : Type}.
Implicit Types σ : Host M.

Definition upd_world (w : World) σ : Host M :=
  mkHost w (h_now σ) (h_fired σ) (h_notified σ) (h_owed σ)
    (h_own σ) (h_worker σ) (h_started σ) (h_done σ).
Definition upd_now (now : Instant) σ : Host M :=
  mkHost (h_world σ) now (h_fired σ) (h_notified σ) (h_owed σ)
    (h_own σ) (h_worker σ) (h_started σ) (h_done σ).
Definition upd_fired (t : CancellationToken) σ : Host M :=
  mkHost (h_world σ) (h_now σ) ({[t]} ∪ h_fired σ) (h_notified σ) (h_owed σ)
    (h_own σ) (h_worker σ) (h_started σ) (h_done σ).
Definition upd_notified (f : gset Waker → gset Waker) σ : Host M :=
  mkHost (h_world σ) (h_now σ) (h_fired σ) (f (h_notified σ)) (h_owed σ)
    (h_own σ) (h_worker σ) (h_started σ) (h_done σ).
Definition upd_owed (f : list Waker → list Waker) σ : Host M :=
  mkHost (h_world σ) (h_now σ) (h_fired σ) (h_notified σ) (f (h_owed σ))
    (h_own σ) (h_worker σ) (h_started σ) (h_done σ).
Definition upd_own (own : option Ids) σ : Host M :=
  mkHost (h_world σ) (h_now σ) (h_fired σ) (h_notified σ) (h_owed σ)
    own (h_worker σ) (h_started σ) (h_done σ).
Definition upd_worker (v : WorkerSlot) σ : Host M :=
  mkHost (h_world σ) (h_now σ) (h_fired σ) (h_notified σ) (h_owed σ)
    (h_own σ) v (h_started σ) (h_done σ).
Definition upd_started (v : option Instant) σ : Host M :=
  mkHost (h_world σ) (h_now σ) (h_fired σ) (h_notified σ) (h_owed σ)
    (h_own σ) (h_worker σ) v (h_done σ).
Definition upd_done (v : Channel M) σ : Host M :=
  mkHost (h_world σ) (h_now σ) (h_fired σ) (h_notified σ) (h_owed σ)
    (h_own σ) (h_worker σ) (h_started σ) v.

(** A critical section run on the world. *)
Definition upd_state (s : GovernedState) σ : Host M := upd_world (with_state s (h_world σ)) σ.
Definition h_state σ : GovernedState := w_state (h_world σ).
End updates.

(** ** What a call may do *)

Section acts.
Context (P : PolicySet) (authority : N) {T E M : Type}.
Implicit Types σ : Host M.

(** A critical section is entered while the live permits are fewer than 2^32. *)
Definition spacious σ : Prop := room (N.of_nat PROMOTION_BUDGET) (h_state σ).

Definition fired_in σ (t : CancellationToken) : bool := bool_decide (t ∈ h_fired σ).

Definition act_fresh_ids σ (x : option Ids) σ' : Prop :=
  spacious σ ∧ ∃ k, fresh_ids authority (w_counters (h_world σ)) = (x, k) ∧
  σ' = upd_own x (upd_world (mkWorld (h_state σ) k (option_list x ++ w_outstanding (h_world σ))
         (w_claims (h_world σ)) (w_nonces (h_world σ))) σ).

Definition act_admit sampled req waker ids σ (x : AdmissionDecision * TransitionEffects) σ' : Prop :=
  spacious σ ∧ ∃ s out, w_outstanding (h_world σ) ≡ₚ ids :: out ∧
  admit_section P sampled req waker ids (h_state σ) = Some (x.1, s, x.2) ∧
  σ' = upd_world (mkWorld s (w_counters (h_world σ)) out (w_claims (h_world σ))
         (w_nonces (h_world σ))) σ.

Definition act_claim_begin sampled t σ (x : ClaimBegin * TransitionEffects) σ' : Prop :=
  spacious σ ∧ ∃ s, claim_begin_section sampled t (h_state σ) = (x.1, s, x.2) ∧
  σ' = upd_world (mkWorld s (w_counters (h_world σ)) (w_outstanding (h_world σ))
         (begun t x.1 (w_claims (h_world σ))) (w_nonces (h_world σ))) σ.

Definition act_claim_finish sampled t σ (x : ClaimOutcome) σ' : Prop :=
  spacious σ ∧ ∃ s, claim_finish_section sampled t (h_state σ) = (x, s) ∧ σ' = upd_state s σ.

Definition act_abandon sampled t σ (x : AbandonOutcome * TransitionEffects) σ' : Prop :=
  spacious σ ∧ ∃ s, abandon_section P sampled t (h_state σ) = Some (x.1, s, x.2) ∧
  σ' = upd_state s σ.

Definition act_release sampled pid proof σ (x : ReleaseOutcome * TransitionEffects) σ' : Prop :=
  spacious σ ∧ ∃ s, release_section P sampled pid proof (h_state σ) = Some (x.1, s, x.2) ∧
  σ' = upd_state s σ.

Definition act_advance pid phase σ (x : AdvanceOutcome) σ' : Prop :=
  spacious σ ∧ ∃ nonces s,
  advance_phase pid phase (w_nonces (h_world σ)) (h_state σ) = (x, nonces, s) ∧
  σ' = upd_world (mkWorld s (w_counters (h_world σ)) (w_outstanding (h_world σ))
         (w_claims (h_world σ)) nonces) σ.

Definition act_continue sampled σ (x : TransitionEffects) σ' : Prop :=
  spacious σ ∧ ∃ s, continue_section P sampled (h_state σ) = Some (s, x) ∧ σ' = upd_state s σ.

(** A stored notification is consumed by the wait it ends. *)
Definition act_park cancel w deadline σ σ' : Prop :=
  (is_cancelled (fired_in σ) cancel = true ∧ σ' = σ) ∨
  (w ∈ h_notified σ ∧ σ' = upd_notified (.∖ {[w]}) σ) ∨
  (has_passed (h_now σ) deadline = true ∧ σ' = σ).

Definition act_poll_work cancel deadline σ (x : WorkSelect T E) : Prop :=
  match x with
  | WorkCancelled => is_cancelled (fired_in σ) cancel = true
  | WorkTimedOut => has_passed (h_now σ) deadline = true
  | WorkReady completed_at _ => completed_at = h_now σ
  end.
Definition act_block_on cancel deadline σ (x : BlockOn T E) : Prop :=
  match x with
  | BlockPanicked => True
  | BlockClosed => h_done σ = NoReceiver
  | BlockWork x => act_poll_work cancel deadline σ x
  end.

Definition act_spawn (on : Executor) lease σ (x : SpawnOutcome) σ' : Prop :=
  h_worker σ = NoWorker ∧
  match x, on with
  | SpawnTaken, _ | SpawnPanicked, CpuExecutorPort => σ' = upd_worker (Submitted lease) σ
  | SpawnRefused _, DedicatedThread => σ' = σ
  | _, _ => False
  end.

Definition act_send_done (m : M) σ (x : option M) σ' : Prop :=
  match h_done σ with
  | ChannelOpen => x = None ∧ σ' = upd_done (ChannelSent m) σ
  | NoReceiver => x = Some m ∧ σ' = σ
  | _ => False
  end.

Definition act_await_done cancel response_by run_budget σ (x : DoneSelect M) σ' : Prop :=
  match x with
  | DoneCancelled => is_cancelled (fired_in σ) cancel = true ∧ σ' = σ
  | DoneResponseBy => has_passed (h_now σ) response_by = true ∧ σ' = σ
  | DoneExpired =>
    (∃ budget started, run_budget = Some budget ∧ h_started σ = Some started ∧
       has_passed (h_now σ) (instant_add started budget) = true) ∧ σ' = σ
  | DoneReceived (Some m) => h_done σ = ChannelSent m ∧ σ' = upd_done (ChannelTaken m) σ
  | DoneReceived None => h_done σ = NoSender ∧ σ' = σ
  end.

Definition act_drop_receiver σ (x : option M) σ' : Prop :=
  match h_done σ with
  | ChannelOpen => x = None ∧ σ' = upd_done NoReceiver σ
  | ChannelSent m => x = Some m ∧ σ' = upd_done (ChannelTaken m) σ
  | _ => x = None ∧ σ' = σ
  end.

Definition drop_senders (d : Channel M) : Channel M :=
  match d with ChannelOpen => NoSender | _ => d end.

Definition receiver_closed (d : Channel M) : bool :=
  match d with NoReceiver => true | _ => false end.

Definition acts X (o : op T E M X) : Host M → X → Host M → Prop :=
  match o in op _ _ _ X return Host M → X → Host M → Prop with
  | ONow => λ σ x σ', x = h_now σ ∧ σ' = σ
  | OIsCancelled token => λ σ x σ', x = fired_in σ token ∧ σ' = σ
  | OInTokioContext => λ σ _ σ', σ' = σ
  | OSampleClock => λ σ _ σ', σ' = σ
  | OFreshIds => act_fresh_ids
  | OAdmit sampled req waker ids => act_admit sampled req waker ids
  | OClaimBegin sampled t => act_claim_begin sampled t
  | OClaimFinish sampled t => act_claim_finish sampled t
  | OTicketStatus t => λ σ x σ', x = ticket_status (h_state σ) t ∧ σ' = σ
  | OPendingBlockReason t => λ σ x σ', x = pending_block_reason P t (h_state σ) ∧ σ' = σ
  | OAbandon sampled t => act_abandon sampled t
  | ORelease sampled pid proof => act_release sampled pid proof
  | OAdvance pid phase => act_advance pid phase
  | OContinue sampled => act_continue sampled
  | OSettled => λ σ _ σ', σ' = σ
  | ONewNotify => λ σ w σ', w ∉ h_notified σ ∧ σ' = σ
  | OWake w => λ σ _ σ', σ' = upd_notified ({[w]} ∪.) σ
  | OPark cancel w deadline => λ σ _ σ', act_park cancel w deadline σ σ'
  | OPollWork cancel deadline => λ σ x σ', act_poll_work cancel deadline σ x ∧ σ' = σ
  | ORunJob => λ σ _ σ', σ' = σ
  | OBlockOn cancel deadline => λ σ x σ', act_block_on cancel deadline σ x ∧ σ' = σ
  | OSpawn on lease => act_spawn on lease
  | OBuildRuntime => λ σ _ σ', σ' = σ
  | ODropRuntime _ => λ σ _ σ', σ' = σ
  | OSendStarted at_ => λ σ _ σ', σ' = upd_started (Some at_) σ
  | OSendDone m => act_send_done m
  | OReceiverClosed => λ σ x σ', x = receiver_closed (h_done σ) ∧ σ' = σ
  | ODropSenders => λ σ _ σ', σ' = upd_done (drop_senders (h_done σ)) σ
  | OAwaitDone cancel response_by run_budget => act_await_done cancel response_by run_budget
  | ODropReceiver => act_drop_receiver
  end.

(** ** What the others may do *)

(** An action of another caller that is given this submission's identities. *)
Definition names (ids : Ids) (a : Action) : Prop :=
  match a with
  | AAdmit i => i = ids
  | AAdmitCompensate pid | ARelease pid _ | AAdvance pid => pid = id_permit ids
  | AClaimBegin t | AClaimCompensate t | AClaimFinish t | AAbandon t => t = id_ticket ids
  | AIssue | AReconcile _ | AStageRelease _ | AReap | AContinue | AClose => False
  end.

(** Any other caller's critical section, on identities of its own, with what it wants
    woken; time; tokens firing; the delivery of a notification. *)
Inductive interferes : relation (Host M) :=
  | others_act a e w' σ :
      spacious σ → lstep P authority (h_world σ) a e w' →
      (∀ ids, h_own σ = Some ids → ¬ names ids a) →
      interferes σ (upd_owed (eff_wake e ++.) (upd_world w' σ))
  | others_wait now σ : h_now σ ≤ now → interferes σ (upd_now now σ)
  | others_fire t σ : interferes σ (upd_fired t σ)
  | others_notify w rest σ :
      h_owed σ ≡ₚ w :: rest → interferes σ (upd_owed (λ _, rest) (upd_notified ({[w]} ∪.) σ)).
End acts.
