(* ===== verification/Acquire.v ===== *)
(** * Acquiring a permit for a submission

    The governor's public calls as the host makes them (engine/governor.rs), and the
    acquisition of crates/taskmesh/src/runtime/acquisition.rs on top of them, with the
    [ExecutionLease] and [TicketGuard] of runtime.rs.  Every function is a task of
    Host.v; what a destructor does is a function of its own ([drop_lease],
    [governor_abandon]) that the task runs where the source's scope ends. *)

From stdpp Require Import pretty.
From S2P Require Import Prelude Contract Text Validation Topology Kernel Errors Arbiter Executors.
From S2P Require Import PolicyCheck State Assess Admission Observe Governor Plan Tasks Host.

Section acquisition.
Context (P : PolicySet) {T E M : Type}.
Local Abbreviation prog := (task (op T E M)).

(** ** The governor's calls *)

(** [apply_effects]: notify every waiter; what is retired is only dropped. *)
Fixpoint wake_all (wakers : list Waker) : prog () :=
  match wakers with
  | [] => Ret ()
  | w :: wakers => Call (OWake w) (λ _, wake_all wakers)
  end.

(** [drain_effects]: notify, and promote again while a pass leaves runnable work; then
    tell the settlement port. *)
Definition drain_pass (sampled : N) (effects : TransitionEffects) : prog (TransitionEffects + ()) :=
  _ ← wake_all (eff_wake effects);
  if eff_more_runnable effects
  then effects ← call (OContinue sampled); Ret (inl effects)
  else Ret (inr ()).
Definition drain_effects (effects : TransitionEffects) (sampled : N) : prog () :=
  _ ← loop effects (drain_pass sampled); call OSettled.

(** [admit_inner] and [admit_validated_requirements]. *)
Definition governor_admit_inner (spec : TaskSpec) (capabilities : CapabilityRequirementSet)
    (waker : option Waker) : prog AdmissionDecision :=
  sampled ← call OSampleClock;
  ids ← call OFreshIds;
  match ids with
  | None => Ret (Rejected IdentityExhausted)
  | Some ids =>
    '(decision, effects) ← call (OAdmit sampled (mkRequest spec capabilities) waker ids);
    _ ← wake_all (eff_wake effects);
    Ret decision
  end.

Definition governor_admit (plan : ValidatedTaskPlan) (requirements : CapabilityRequirementSet)
    (waker : option Waker) : prog (CapabilityResolutionError + AdmissionDecision) :=
  match validate_requirements P requirements with
  | inl error => Ret (inl error)
  | inr () => decision ← governor_admit_inner (as_spec plan) requirements waker; Ret (inr decision)
  end.

(** [claim]. *)
Definition governor_claim (t : Ticket) : prog ClaimOutcome :=
  sampled ← call OSampleClock;
  '(begin_, effects) ← call (OClaimBegin sampled t);
  match begin_ with
  | ClaimReturns outcome => Ret outcome
  | ClaimProceeds _ => _ ← wake_all (eff_wake effects); call (OClaimFinish sampled t)
  end.

(** [abandon]. *)
Definition governor_abandon (t : Ticket) : prog AbandonOutcome :=
  sampled ← call OSampleClock;
  '(outcome, effects) ← call (OAbandon sampled t);
  _ ← drain_effects effects sampled;
  Ret outcome.

(** [release] and [release_leased]. *)
Definition governor_release (pid : PermitId) (proof : option N) : prog ReleaseOutcome :=
  sampled ← call OSampleClock;
  '(outcome, effects) ← call (ORelease sampled pid proof);
  _ ← drain_effects effects sampled;
  Ret outcome.

(** ** The execution lease *)

Definition lease_reserved (pid : PermitId) : ExecutionLease :=
  mkExecutionLease pid LeaseCustody.Reserved.
Definition upd_custody (c : LeaseCustody) (l : ExecutionLease) : ExecutionLease :=
  mkExecutionLease (el_permit_id l) c.

Definition reclaimed (l : ExecutionLease) : GovernorError :=
  GovernorError.LeaseReclaimed (permit_sequence (el_permit_id l)).

(** What an answer to [advance_phase] makes of a lease. *)
Definition advanced_lease (l : ExecutionLease) (phase : ExecutionPhase) (x : AdvanceOutcome)
  : ExecutionLease * (GovernorError + ()) :=
  match x, el_custody l with
  | Leased token, _ => (upd_custody (LeaseCustody.Leased token) l, inr ())
  | Advanced, LeaseCustody.Leased _ => (l, inr ())
  | Advanced, _ =>
    (upd_custody LeaseCustody.Gone l,
     inl (policy_violation ("permit " +:+ permit_text (el_permit_id l) +:+
       " was leased outside its runtime lease; " +:+
       "the runtime cannot release it and will not run under it")))
  | AdvanceRefused RefusedUnknownPermit, _ =>
    (upd_custody LeaseCustody.Gone l, inl (reclaimed l))
  | AdvanceRefused (RefusedNotLater current), _ =>
    (l, inl (policy_violation ("execution phase " +:+ phase_text phase +:+
       " does not advance permit " +:+ permit_text (el_permit_id l) +:+
       " (currently " +:+ phase_text current +:+ ")")))
  end.

(** [ExecutionLease::advance]. *)
Definition advance (l : ExecutionLease) (phase : ExecutionPhase)
  : prog (ExecutionLease * (GovernorError + ())) :=
  match el_custody l with
  | LeaseCustody.Gone => Ret (l, inl (reclaimed l))
  | _ => x ← call (OAdvance (el_permit_id l) phase); Ret (advanced_lease l phase x)
  end.

(** [Drop for ExecutionLease]. *)
Definition drop_lease (l : ExecutionLease) : prog () :=
  match el_custody l with
  | LeaseCustody.Gone => Ret ()
  | LeaseCustody.Reserved => _ ← governor_release (el_permit_id l) None; Ret ()
  | LeaseCustody.Leased token =>
    _ ← governor_release (lease_permit_id token) (Some (lease_token_nonce token)); Ret ()
  end.

(** ** Acquisition *)

(** [arbiter.rejection(Instant::now(), queued)]. *)
Definition rejected (arbiter : AcquisitionArbiter) (queued : bool)
  : prog (option AcquisitionRejection) :=
  now ← call ONow;
  match arb_cancel arbiter with
  | None => Ret (rejection (λ _, false) arbiter now queued)
  | Some token =>
    fired ← call (OIsCancelled token);
    Ret (rejection (λ _, fired) arbiter now queued)
  end.

(** [matches!(blocker, Some(CapacityBlock::Capability))]. *)
Definition capability_blocked (blocker : option CapacityBlock) : bool :=
  match blocker with Some BlockCapability => true | _ => false end.

(** [return_unstarted]. *)
Definition return_unstarted (pid : PermitId) : prog () := drop_lease (lease_reserved pid).

(** [finalize_acquired]. *)
Definition finalize_acquired (pid : PermitId) (arbiter : AcquisitionArbiter) (queued : bool)
    (current_blocker : option CapacityBlock) : prog (GovernorError + PermitId) :=
  r ← rejected arbiter queued;
  match r with
  | Some rejection =>
    _ ← return_unstarted pid;
    Ret (inl (to_governor_error rejection (capability_blocked current_blocker)))
  | None => Ret (inr pid)
  end.

(** The errors of a claim that cannot be answered any more. *)
Definition claim_terminated (t : Ticket) (reason : TerminalReason) : GovernorError :=
  GovernorError.TicketClaimTerminated (ticket_sequence t) reason.
Definition claim_invalid (t : Ticket) : GovernorError :=
  GovernorError.InvalidTicketClaim (ticket_sequence t).

(** One iteration of [await_promotion]: [inl ()] is another one. *)
Definition await_once (t : Ticket) (w : Waker) (arbiter : AcquisitionArbiter)
  : prog (() + (GovernorError + PermitId)) :=
  current_blocker ← call (OPendingBlockReason t);
  r ← rejected arbiter true;
  outcome ← governor_claim t;
  match outcome with
  | Ready pid => x ← finalize_acquired pid arbiter true current_blocker; Ret (inr x)
  | ClaimTerminal reason => Ret (inr (inl (claim_terminated t reason)))
  | ClaimInvalid => Ret (inr (inl (claim_invalid t)))
  | ClaimPending =>
    match r with
    | Some rejection =>
      Ret (inr (inl (to_governor_error rejection (capability_blocked current_blocker))))
    | None =>
      _ ← call (OPark (arb_cancel arbiter) w (wake_deadline arbiter));
      Ret (inl ())
    end
  end.

(** [await_promotion]. *)
Definition await_promotion (t : Ticket) (w : Waker) (arbiter : AcquisitionArbiter)
  : prog (GovernorError + PermitId) :=
  loop () (λ _, await_once t w arbiter).

(** The queued arm of [acquire]: the guard's destructor is [governor_abandon]. *)
Definition acquire_queued (t : Ticket) (w : Waker) (arbiter : AcquisitionArbiter)
  : prog (GovernorError + PermitId) :=
  result ← guarded (_ ← governor_abandon t; Ret ()) (await_promotion t w arbiter);
  status ← call (OTicketStatus t);
  match status with
  | ClaimTerminal _ | ClaimInvalid => Ret result
  | _ => _ ← governor_abandon t; Ret result
  end.

(** [acquire]. *)
Definition acquire (plan : ValidatedDispatchPlan) (arbiter : AcquisitionArbiter)
  : prog (GovernorError + PermitId) :=
  r ← rejected arbiter false;
  match r with
  | Some rejection => Ret (inl (to_governor_error rejection false))
  | None =>
    w ← call ONewNotify;
    decision ← governor_admit (vp_task plan) (vp_requirements plan) (Some w);
    match decision with
    | inr (AdmittedPermit pid) => finalize_acquired pid arbiter false None
    | inr (Rejected verdict) => Ret (inl (GovernorError.Rejected verdict))
    | inr (Queued ticket) => acquire_queued ticket w arbiter
    | inl error =>
      Ret (inl (policy_violation
        ("validated dispatch requirements rejected: " +:+ resolution_text error)))
    end
  end.

(** ** Preflight of the runtime context *)

(** [plan_supports_absolute_deadline]. *)
Definition plan_supports_absolute_deadline (plan : ValidatedDispatchPlan) : bool :=
  match vp_dispatch plan with
  | DispatchKind.CallerFuture | DispatchKind.DedicatedStackRuntime => true
  | DispatchKind.BlockingPool | DispatchKind.CpuExecutor | DispatchKind.DedicatedStackThread => false
  end.

(** [require_tokio_context_v1]. *)
Definition require_tokio_context (context : string) : prog (GovernorError + ()) :=
  inside ← call OInTokioContext;
  Ret (if inside : bool then inr ()
       else inl (GovernorError.WorkerUnavailable context
              "an active Tokio runtime context is required before admission")).

Definition timer_required (opts : SubmitOptions) (plan : ValidatedDispatchPlan)
    (response_by : option Instant) : bool :=
  bool_decide (is_Some response_by)
  || match so_acquire_timeout opts with Some budget => negb (bool_decide (budget = 0)) | None => false end
  || match vp_dispatch plan with
     | DispatchKind.CallerFuture => bool_decide (is_Some (vp_deadline plan))
     | DispatchKind.BlockingPool | DispatchKind.CpuExecutor | DispatchKind.DedicatedStackThread =>
       bool_decide (is_Some (run_budget plan))
     | DispatchKind.DedicatedStackRuntime => bool_decide (is_Some (absolute_deadline plan))
     end.

(** The service a submission needs Tokio for, if any. *)
Definition required_context (cpu : ExecutorCapabilities) (opts : SubmitOptions)
    (plan : ValidatedDispatchPlan) (response_by : option Instant) : option string :=
  match vp_dispatch plan with
  | DispatchKind.BlockingPool => Some "blocking worker"
  | _ =>
    if bool_decide (vp_dispatch plan = DispatchKind.CpuExecutor) && ec_requires_tokio_context cpu
    then Some "cpu executor"
    else if timer_required opts plan response_by then Some "submission timer" else None
  end.

(** [preflight_runtime_context]. *)
Definition preflight_runtime_context (cpu : ExecutorCapabilities) (opts : SubmitOptions)
    (plan : ValidatedDispatchPlan) (response_by : option Instant) : prog (GovernorError + ()) :=
  outside ← (if bool_decide (primary_substrate_hint (as_spec (vp_task plan)) = LocalRuntime)
             then inside ← call OInTokioContext; Ret (negb inside)
             else Ret false);
  if outside : bool then Ret (inl GovernorError.LocalRuntimeUnavailable)
  else match required_context cpu opts plan response_by with
       | Some context => require_tokio_context context
       | None => Ret (inr ())
       end.

(** [acquire_execution_lease_response_by]. *)
Definition acquire_execution_lease (cpu : ExecutorCapabilities) (opts : SubmitOptions)
    (plan : ValidatedDispatchPlan) (response_by : option Instant)
  : prog (RunError E + ExecutionLease) :=
  let deadline := absolute_deadline plan in
  let fail e := Ret (inl (RunError.Governor e)) in
  if bool_decide (is_Some deadline) && negb (plan_supports_absolute_deadline plan)
  then fail (policy_violation "absolute completion deadline requires cooperative async work")
  else
    now ← call ONow;
    match AcquisitionArbiter_new opts
            (match response_by with Some at_ => Some at_ | None => deadline end) now with
    | inl e => fail e
    | inr arbiter =>
      r ← rejected arbiter false;
      match r with
      | Some rejection => fail (to_governor_error rejection false)
      | None =>
        context ← preflight_runtime_context cpu opts plan response_by;
        match context with
        | inl e => fail e
        | inr () =>
          permit ← acquire plan arbiter;
          match permit with
          | inl e => fail e
          | inr pid => Ret (inr (lease_reserved pid))
          end
        end
      end
    end.
End acquisition.
