(* ===== verification/HostRuns.v ===== *)
(** * An executable host

    One behaviour of the host's surroundings, for running paths on concrete inputs:
    the clock stands still, nothing is cancelled, Tokio is there, work answers a fixed
    result at once, executors take what they are given. *)

From S2P Require Import Prelude Contract Text Validation Kernel Errors Arbiter PolicyCheck State.
From S2P Require Import Assess Admission Observe Governor Books Custody Ledger Invariant Sections.
From S2P Require Import System Tasks Host.

#[export] Instance Ids_eq_dec : EqDecision Ids.
Proof. solve_decision. Defined.

Section performs.
Context (P : PolicySet) (authority : N) {T E M : Type} (answer : E + T).
Implicit Types σ : Host M.

#[local] Instance spacious_dec σ : Decision (spacious σ).
Proof. unfold spacious, room. apply _. Defined.

(** A critical section, where there is room. *)
Definition section {X} (σ : Host M) (r : option (X * Host M)) : option (X * Host M) :=
  if decide (spacious σ) then r else None.

Definition perform_admit sampled req waker ids σ : option ((AdmissionDecision * TransitionEffects) * Host M) :=
  match w_outstanding (h_world σ) with
  | ids' :: out =>
    if decide (ids' = ids) then
      '(d, s, e) ← admit_section P sampled req waker ids (h_state σ);
      Some ((d, e), upd_world (mkWorld s (w_counters (h_world σ)) out (w_claims (h_world σ))
                      (w_nonces (h_world σ))) σ)
    else None
  | [] => None
  end.

Definition perform X (o : op T E M X) : Host M → option (X * Host M) :=
  match o in op _ _ _ X return Host M → option (X * Host M) with
  | ONow => λ σ, Some (h_now σ, σ)
  | OIsCancelled token => λ σ, Some (fired_in σ token, σ)
  | OInTokioContext => λ σ, Some (true, σ)
  | OSampleClock => λ σ, Some (0, σ)
  | OFreshIds => λ σ, section σ (
      let '(x, k) := fresh_ids authority (w_counters (h_world σ)) in
      Some (x, upd_own x (upd_world (mkWorld (h_state σ) k (option_list x ++ w_outstanding (h_world σ))
                 (w_claims (h_world σ)) (w_nonces (h_world σ))) σ)))
  | OAdmit sampled req waker ids => λ σ, section σ (perform_admit sampled req waker ids σ)
  | ORelease sampled pid proof => λ σ, section σ (
      '(out, s, e) ← release_section P sampled pid proof (h_state σ);
      Some ((out, e), upd_state s σ))
  | OAbandon sampled t => λ σ, section σ (
      '(out, s, e) ← abandon_section P sampled t (h_state σ);
      Some ((out, e), upd_state s σ))
  | OAdvance pid phase => λ σ, section σ (
      let '(x, nonces, s) := advance_phase pid phase (w_nonces (h_world σ)) (h_state σ) in
      Some (x, upd_world (mkWorld s (w_counters (h_world σ)) (w_outstanding (h_world σ))
                 (w_claims (h_world σ)) nonces) σ))
  | OContinue sampled => λ σ, section σ (
      '(s, e) ← continue_section P sampled (h_state σ); Some (e, upd_state s σ))
  | OClaimBegin sampled t => λ σ, section σ (
      let '(x, s, e) := claim_begin_section sampled t (h_state σ) in
      Some ((x, e), upd_world (mkWorld s (w_counters (h_world σ)) (w_outstanding (h_world σ))
                 (begun t x (w_claims (h_world σ))) (w_nonces (h_world σ))) σ))
  | OClaimFinish sampled t => λ σ, section σ (
      let '(x, s) := claim_finish_section sampled t (h_state σ) in Some (x, upd_state s σ))
  | OTicketStatus t => λ σ, Some (ticket_status (h_state σ) t, σ)
  | OPendingBlockReason t => λ σ, Some (pending_block_reason P t (h_state σ), σ)
  | OPark _ w _ => λ σ, if decide (w ∈ h_notified σ) then Some ((), upd_notified (.∖ {[w]}) σ) else None
  | OSettled => λ σ, Some ((), σ)
  | ONewNotify => λ σ, if decide (0 ∈ h_notified σ) then None else Some (0, σ)
  | OWake w => λ σ, Some ((), upd_notified ({[w]} ∪.) σ)
  | OPollWork _ _ => λ σ, Some (WorkReady (h_now σ) answer, σ)
  | ORunJob => λ σ, Some (JobReturned answer, σ)
  | OBlockOn _ _ => λ σ, Some (BlockWork (WorkReady (h_now σ) answer), σ)
  | OSpawn _ lease => λ σ,
      match h_worker σ with NoWorker => Some (SpawnTaken, upd_worker (Submitted lease) σ) | _ => None end
  | OBuildRuntime => λ σ, Some (None, σ)
  | ODropRuntime _ => λ σ, Some ((), σ)
  | OSendStarted at_ => λ σ, Some ((), upd_started (Some at_) σ)
  | OSendDone m => λ σ,
      match h_done σ with
      | ChannelOpen => Some (None, upd_done (ChannelSent m) σ)
      | NoReceiver => Some (Some m, σ)
      | _ => None
      end
  | OReceiverClosed => λ σ, Some (receiver_closed (h_done σ), σ)
  | OAwaitDone _ _ _ => λ σ,
      match h_done σ with
      | ChannelSent m => Some (DoneReceived (Some m), upd_done (ChannelTaken m) σ)
      | NoSender => Some (DoneReceived None, σ)
      | _ => None
      end
  | ODropReceiver => λ σ,
      match h_done σ with
      | ChannelOpen => Some (None, upd_done NoReceiver σ)
      | ChannelSent m => Some (Some m, upd_done (ChannelTaken m) σ)
      | _ => Some (None, σ)
      end
  | _ => λ _, None
  end.

Lemma section_Some {X} σ (r : option (X * Host M)) y : section σ r = Some y → spacious σ ∧ r = Some y.
Proof. unfold section. by case_decide. Qed.

Lemma perform_acts X (o : op T E M X) σ x σ' :
  perform X o σ = Some (x, σ') → acts P authority X o σ x σ'.
Proof.
  destruct o; cbn -[claim_begin_section claim_finish_section]; intros H; try done;
    try (apply section_Some in H as [Hroom H]); try (by simplify_eq);
    try (unfold act_spawn, act_send_done, act_await_done, act_drop_receiver; repeat case_match; by simplify_eq);
    try (unfold act_park; case_decide; by simplify_eq; auto).
  - destruct (fresh_ids _ _) as [y k] eqn:Ef. simplify_eq. split; [done|]. by exists k.
  - unfold perform_admit in H. destruct (w_outstanding _) as [|ids' out] eqn:Eo; [done|].
    case_decide; [subst|done]. apply bind_Some in H as ([[d s] e] & Ha & [= <- <-]).
    split; [done|]. exists s, out. by rewrite Eo.
  - destruct (claim_begin_section _ _ _) as [[y s] e] eqn:Ec. simplify_eq. split; [done|]. by exists s.
  - destruct (claim_finish_section _ _ _) as [y s] eqn:Ec. simplify_eq. split; [done|]. by exists s.
  - apply bind_Some in H as ([[d s] e] & Ha & [= <- <-]). split; [done|]. by exists s.
  - apply bind_Some in H as ([[d s] e] & Ha & [= <- <-]). split; [done|]. by exists s.
  - destruct (advance_phase _ _ _ _) as [[y nonces] s] eqn:Ea. simplify_eq. split; [done|]. by exists nonces, s.
  - apply bind_Some in H as ([s e] & Ha & [= <- <-]). split; [done|]. by exists s.
Qed.
End performs.
