(* ===== verification/Holding.v ===== *)
(** * What a submission knows about its permit while others run

    Assertions about the governor and a submission's own identities that no other
    caller's step can falsify, and what each call of the host makes of them, in any
    thread whose surroundings leave those identities alone. *)

From S2P Require Import Prelude Contract Text Validation Kernel Errors Arbiter Executors.
From S2P Require Import PolicyCheck Requirements State Assess Admission Memory Observe Governor.
From S2P Require Import Policies Plan Books Custody Ledger Invariant Dispatch Sections Progress.
From S2P Require Import Trace System Queues Wakes Consistency Fates Grips Total Contracts Owned.
From S2P Require Import Watched Tasks Host Acquire.

(** ** Facts *)

(** A fact about the issued identities, if any, and the world. *)
Abbreviation Fact := (option Ids → World → Prop).

Definition issued_none : Fact := λ own _, own = None.
Definition of_own (K : Ids → World → Prop) : Fact := λ own w, ∃ ids, own = Some ids ∧ K ids w.
Definition either (K K' : Fact) : Fact := λ own w, K own w ∨ K' own w.

(** Nothing was issued, or nothing is left of what was. *)
Definition clear : Fact := either issued_none (of_own own_gone).

(** A step of somebody else. *)
Definition foreign (P : PolicySet) (authority : N) (own : option Ids) (w w' : World) : Prop :=
  room (N.of_nat PROMOTION_BUDGET) (w_state w) ∧
  ∃ a e, lstep P authority w a e w' ∧ ∀ ids, own = Some ids → ¬ names ids a.

Lemma names_leaves_alone ids a : ¬ names ids a → leaves_alone ids a.
Proof.
  intros H. split; cbn.
  - by intros ->.
  - by intros [nonce ->].
  - by intros [-> | ->].
Qed.

Existing Class policies_typed.

Class Lasting (P : PolicySet) (authority : N) (K : Fact) : Prop :=
  lasting own w w' : reachable P authority w → foreign P authority own w w' → K own w → K own w'.

Section lasting.
Context (P : PolicySet) (authority : N) (Htyped : policies_typed P).

Lemma foreign_effect own w w' :
  reachable P authority w → foreign P authority own w w' →
  ∃ a, (∀ ids, own = Some ids → ¬ names ids a) ∧ effect_of (grip a) P authority w w' ∧
    (∃ e, lstep P authority w a e w').
Proof.
  intros Hw (Hroom & a & e & Hs & Hn). exists a. split; [done|]. split; [|by exists e].
  eapply lstep_effect; [done|by eapply reachable_ok|done|exact Hs].
Qed.

Lemma foreign_reachable own w w' :
  reachable P authority w → foreign P authority own w w' → reachable P authority w'.
Proof. intros Hw (Hroom & a & e & Hs & _). by eapply reachable_step, lstep_wstep. Qed.

#[export] Instance lasting_none : Lasting P authority issued_none.
Proof. by intros own w w' _ _ H. Qed.

#[export] Instance lasting_either K K' :
  Lasting P authority K → Lasting P authority K' → Lasting P authority (either K K').
Proof. intros H H' own w w' Hw Hf [?|?]; [left; by eapply H|right; by eapply H']. Qed.

(** A fact every step of somebody else keeps, by its effect. *)
Lemma lasting_own (K : Ids → World → Prop) :
  (∀ ids a w w', leaves_alone ids a → effect_of (grip a) P authority w w' → K ids w → K ids w') →
  Lasting P authority (of_own K).
Proof.
  intros H own w w' Hw Hf (ids & -> & HK).
  destruct (foreign_effect _ _ _ Hw Hf) as (a & Hn & He & _). exists ids. split; [done|].
  eapply H; [apply names_leaves_alone; by apply Hn|done|done].
Qed.

#[export] Instance lasting_waiting caps : Lasting P authority (of_own (λ ids, own_waiting ids caps)).
Proof. apply lasting_own. intros. by eapply waiting_others. Qed.
#[export] Instance lasting_watched caps waker :
  Lasting P authority (of_own (λ ids, own_watched ids caps waker)).
Proof.
  intros own w w' Hw Hf (ids & -> & HK).
  destruct (foreign_effect _ _ _ Hw Hf) as (a & Hn & He & _). exists ids. split; [done|].
  specialize (Hn ids eq_refl). eapply watched_others; [by apply names_leaves_alone| |exact He|done].
  cbn. by intros ->.
Qed.
#[export] Instance lasting_claiming caps :
  Lasting P authority (of_own (λ ids, own_claiming ids caps)).
Proof. apply lasting_own. intros. by eapply claiming_others. Qed.
#[export] Instance lasting_granted caps : Lasting P authority (of_own (λ ids, own_granted ids caps)).
Proof. apply lasting_own. intros. by eapply granted_others. Qed.
#[export] Instance lasting_leased caps nonce :
  Lasting P authority (of_own (λ ids, own_leased ids caps nonce)).
Proof. apply lasting_own. intros. by eapply leased_others. Qed.
#[export] Instance lasting_gone : Lasting P authority (of_own own_gone).
Proof. apply lasting_own. intros. eapply gone_step; [|done]. by eapply effect_any. Qed.
#[export] Instance lasting_clear : Lasting P authority clear.
Proof. unfold clear. apply _. Qed.

(** With a constraint on the identities themselves. *)
Lemma lasting_and (R : Ids → Prop) K :
  Lasting P authority (of_own K) → Lasting P authority (of_own (λ ids w, R ids ∧ K ids w)).
Proof.
  intros H own w w' Hw Hf (ids & -> & HR & HK).
  destruct (H (Some ids) w w' Hw Hf) as (ids' & [= <-] & HK'); [by exists ids|]. by exists ids.
Qed.

(** Identities issued and not used yet. *)
#[export] Instance lasting_outstanding :
  Lasting P authority (of_own (λ ids w, ids ∈ w_outstanding w)).
Proof.
  intros own w w' Hw Hf (ids & -> & Hin).
  destruct (foreign_effect _ _ _ Hw Hf) as (a & Hn & _ & e & Hs). exists ids. split; [done|].
  specialize (Hn ids eq_refl).
  destruct Hs as [| |sampled req pools waker other d out s e Ho _ _| | | | | | | | | | | |]; cbn; try done.
  - by right.
  - rewrite Ho in Hin. apply elem_of_cons in Hin as [->|?]; [|done]. by destruct Hn.
Qed.
End lasting.

#[export] Hint Extern 2 (Lasting _ _ (of_own (λ ids w, _ ∧ _))) => apply lasting_and : typeclass_instances.

(** ** Threads *)

(** How a thread sits among the others: [F] is what it knows about the channel and
    the worker; others keep it and only make steps foreign to the submission; its own
    moves of the governor and the notifiers keep it, and are allowed. *)
Record frame {M} (P : PolicySet) (authority : N) (rely guarantee : relation (Host M))
    (F : Host M → Prop) : Prop := {
  fr_preorder : PreOrder rely;
  fr_rely σ σ' : rely σ σ' → F σ →
    F σ' ∧ h_own σ' = h_own σ ∧ rtc (foreign P authority (h_own σ)) (h_world σ) (h_world σ');
  fr_same σ : F σ → guarantee σ σ;
  fr_world w σ : F σ → F (upd_world w σ) ∧ guarantee σ (upd_world w σ);
  fr_notified f σ : F σ → F (upd_notified f σ) ∧ guarantee σ (upd_notified f σ);
}.

(** Nobody changes which identities the submission was given. *)
Lemma frame_own {M} P authority (rely guarantee : relation (Host M)) F own :
  frame P authority rely guarantee F →
  frame P authority rely guarantee (λ σ, F σ ∧ h_own σ = own).
Proof.
  intros H. split.
  - apply H.
  - intros σ σ' Hr [HF Eo]. destruct (fr_rely _ _ _ _ _ H _ _ Hr HF) as (HF' & Eo' & Hf).
    split; [split; [done|congruence]|done].
  - intros σ [HF _]. by apply H.
  - intros w σ [HF Eo]. by destruct (fr_world _ _ _ _ _ H w σ HF).
  - intros f σ [HF Eo]. by destruct (fr_notified _ _ _ _ _ H f σ HF).
Qed.

(** ** Notifications on their way *)

(** The wake-up of a waiter parked on [waker] is not lost: its request is still in the
    queue under it, or a notification is stored, or some call under way owes one. *)
Definition awake {M} (waker : Waker) (σ : Host M) : Prop :=
  ∃ ids, h_own σ = Some ids ∧
    (queued_under ids waker (h_state σ) ∨ waker ∈ h_notified σ ∨ waker ∈ h_owed σ).

Lemma interferes_awake {M} P authority waker (σ σ' : Host M) :
  interferes P authority σ σ' → awake waker σ → awake waker σ'.
Proof.
  intros [a e w' σ1 _ Hs Hn|now σ1|t σ1|w rest σ1 Ho] (ids & Eo & Ha); exists ids; (split; [done|]); try done.
  - destruct Ha as [(class & q & Hq & Et & Ew)|[Ha|Ha]]; [|by right; left|].
    + apply lstep_announces in Hs as [Hs _].
      destruct (Hs class q waker Hq Ew) as [?|?].
      * intros ->. apply (Hn ids Eo). cbn. by rewrite Et.
      * left. by exists class, q.
      * right; right. apply elem_of_app. by left.
    + right; right. apply elem_of_app. by right.
  - destruct Ha as [Ha|[Ha|Ha]]; [by left|right; left; set_solver|]. cbn. rewrite Ho in Ha.
    apply elem_of_cons in Ha as [->|Ha]; [right; left; set_solver|by right; right].
Qed.

(** Others keep the wake-up of this thread. *)
Definition watches {M} (rely : relation (Host M)) (F : Host M → Prop) : Prop :=
  ∀ waker σ σ', rely σ σ' → F σ → awake waker σ → awake waker σ'.

Section threads.
Context (P : PolicySet) (authority : N) (Htyped : policies_typed P) (Hwf : policy_wf P).
Context (caps : CapabilityRequirementSet).
Context {T E M : Type}.
Local Abbreviation prog := (task (op T E M)).

(** Work runs only while the submission's permit is live, dispatched under a lease,
    and charges [caps]; a waiter parks only where its wake-up is not lost. *)
Definition covered (σ : Host M) : Prop :=
  ∃ nonce, of_own (λ ids, own_leased ids caps nonce) (h_own σ) (h_world σ).

(** A call that does not wait is answered. *)
Definition answers X (o : op T E M X) (σ : Host M) : Prop :=
  suspends X o = false → spacious σ → ∃ x σ', acts P authority X o σ x σ'.

Definition demands X (o : op T E M X) (σ : Host M) : Prop :=
  answers X o σ ∧
  match o with
  | OPollWork _ _ | ORunJob | OBlockOn _ _ | ODropRuntime true => covered σ
  | OPark _ waker _ => awake waker σ
  | OAwaitDone _ _ _ => match h_done σ with ChannelTaken _ | NoReceiver => False | _ => True end
  | _ => True
  end.

(** Where a task may stand still: parked while its request is still in the queue or its
    notification on the way, or waiting for the caller's work or for its worker,
    neither cancelled nor late; and before a critical section, when the live permits
    have come to 2^32. *)
Definition may_wait X (o : op T E M X) (σ : Host M) : Prop :=
  match o with
  | OPark cancel waker deadline =>
    is_cancelled (fired_in σ) cancel = false ∧ has_passed (h_now σ) deadline = false ∧
    ∃ ids, h_own σ = Some ids ∧ (queued_under ids waker (h_state σ) ∨ waker ∈ h_owed σ)
  | OPollWork cancel deadline =>
    is_cancelled (fired_in σ) cancel = false ∧ has_passed (h_now σ) deadline = false
  | OAwaitDone cancel response_by run_budget =>
    is_cancelled (fired_in σ) cancel = false ∧ has_passed (h_now σ) response_by = false ∧
    h_done σ = ChannelOpen
  | _ => ¬ spacious σ
  end.

#[local] Instance spacious_decision σ : Decision (@spacious M σ).
Proof. unfold spacious, room. apply _. Defined.

Lemma demands_may_wait X (o : op T E M X) σ :
  demands X o σ → (∃ x σ', acts P authority X o σ x σ') ∨ may_wait X o σ.
Proof.
  intros [Ha Hd]. destruct (suspends X o) eqn:Es.
  - destruct o; try done; cbn in *.
    + destruct (is_cancelled _ _) eqn:Ec; [left; exists (), σ; by left|].
      destruct (has_passed _ _) eqn:Ep; [left; exists (), σ; by right; right|].
      destruct Hd as (ids & Eo & [Hq|[Hn|Ho]]); [|left; exists (); eexists; right; left; by split|];
        right; (split; [done|]; split; [done|]); exists ids; (split; [done|]); auto.
    + destruct (is_cancelled _ _) eqn:Ec; [left; by exists WorkCancelled, σ|].
      destruct (has_passed _ _) eqn:Ep; [left; by exists WorkTimedOut, σ|]. by right.
    + destruct (is_cancelled _ _) eqn:Ec; [left; by exists DoneCancelled, σ|].
      destruct (has_passed _ response_by) eqn:Ep; [left; by exists DoneResponseBy, σ|].
      destruct (h_done σ) as [|m|m| |] eqn:Ed; try done; [by right| |].
      * left. exists (DoneReceived (Some m)). by eexists.
      * left. by exists (DoneReceived None), σ.
  - destruct (decide (spacious σ)); [left; auto|]. right. by destruct o.
Qed.

(** Calls that are answered in every state that has room, and those of them that
    change none. *)
Definition free X (o : op T E M X) : bool :=
  match o with
  | OAdmit _ _ _ _ | OAbandon _ _ | ORelease _ _ _ | OContinue _ | OSpawn _ _ | OSendDone _
  | OPark _ _ _ | OPollWork _ _ | OAwaitDone _ _ _ => false
  | _ => true
  end.
Definition reads X (o : op T E M X) : bool :=
  match o with
  | ONow | OIsCancelled _ | OInTokioContext | OSampleClock | OTicketStatus _ | OPendingBlockReason _
  | OSettled | ONewNotify | OBuildRuntime | ODropRuntime false | OReceiverClosed => true
  | _ => false
  end.

Lemma free_answers X (o : op T E M X) σ : free X o = true → answers X o σ.
Proof.
  intros H _ Hroom. destruct o; try done; cbn -[claim_begin_section claim_finish_section];
    try (first [by exists true, σ|by exists 0, σ|by exists None, σ|by exists (), σ|by exists JobPanicked, σ
      |by exists BlockPanicked, σ|by eexists _, σ|by eexists (), _]).
  - destruct (fresh_ids authority (w_counters (h_world σ))) as [x k] eqn:Ef.
    eexists x, _. split; [done|]. by exists k.
  - destruct (claim_begin_section sampled t (h_state σ)) as [[x s] e] eqn:Ec.
    eexists (x, e), _. split; [done|]. by exists s.
  - destruct (claim_finish_section sampled t (h_state σ)) as [x s] eqn:Ec.
    eexists x, _. split; [done|]. by exists s.
  - destruct (advance_phase pid phase (w_nonces (h_world σ)) (h_state σ)) as [[x nonces] s] eqn:Ea.
    eexists x, _. split; [done|]. by exists nonces, s.
  - exists (fresh (h_notified σ)), σ. split; [apply is_fresh|done].
  - unfold act_drop_receiver. destruct (h_done σ); by eexists _, _.
Qed.

Lemma reads_demands X (o : op T E M X) σ : reads X o = true → demands X o σ.
Proof. intros H. split; [apply free_answers; by destruct o|]. destruct o; try done. by destruct used. Qed.

(** Calls that run the work, or tear down what ran it. *)
Definition works X (o : op T E M X) : bool :=
  match o with ORunJob | OBlockOn _ _ | ODropRuntime true => true | _ => false end.

Lemma works_demands X (o : op T E M X) σ : works X o = true → covered σ → demands X o σ.
Proof.
  intros H Hc. destruct o; try done; [..|destruct used; [|done]]; (split; [by apply free_answers|done]).
Qed.

Context (rely guarantee : relation (Host M)) (F : Host M → Prop).
Context (Hframe : frame P authority rely guarantee F).

#[local] Instance rely_preorder : PreOrder rely := fr_preorder _ _ _ _ _ Hframe.
Local Abbreviation wp := (wp (acts P authority (T:=T) (E:=E)) suspends demands rely guarantee).

Definition tied (K : Fact) (σ : Host M) : Prop :=
  F σ ∧ reachable P authority (h_world σ) ∧ K (h_own σ) (h_world σ).

Lemma foreign_steps (K : Fact) `{HL : !Lasting P authority K} own w w' :
  rtc (foreign P authority own) w w' →
  reachable P authority w → K own w → reachable P authority w' ∧ K own w'.
Proof.
  intros H. induction H as [w|w w1 w' Hf _ IH]; intros Hw HK; [done|].
  apply IH; [by eapply foreign_reachable|by eapply HL].
Qed.

Lemma tied_rely K `{HL : !Lasting P authority K} σ σ' : rely σ σ' → tied K σ → tied K σ'.
Proof.
  intros Hr (HF & Hw & HK). destruct (fr_rely _ _ _ _ _ Hframe _ _ Hr HF) as (HF' & Eo & Hf).
  destruct (foreign_steps K _ _ _ Hf Hw HK) as [Hw' HK']. by rewrite <-Eo in HK'.
Qed.

Lemma tied_mono (K K' : Fact) σ : (∀ own w, K own w → K' own w) → tied K σ → tied K' σ.
Proof. intros H (HF & Hw & HK). split_and!; auto. Qed.

(** A move of this thread on the world. *)
Lemma tied_world (K : Fact) w σ :
  F σ → reachable P authority w → K (h_own σ) w →
  tied K (upd_world w σ) ∧ guarantee σ (upd_world w σ).
Proof. intros HF Hw HK. destruct (fr_world _ _ _ _ _ Hframe w σ HF). done. Qed.

(** ** Critical sections are answered *)

Lemma continue_demands K sampled σ : tied K σ → demands _ (OContinue sampled) σ.
Proof.
  intros (_ & Hw & _). split; [|done]. intros _ Hroom.
  destruct (continue_runs P authority Hwf Htyped sampled (h_world σ) Hw Hroom) as (s & e & Hs & _).
  eexists e, _. split; [done|]. by exists s.
Qed.

Lemma release_demands K sampled pid proof σ : tied K σ → demands _ (ORelease sampled pid proof) σ.
Proof.
  intros (_ & Hw & _). split; [|done]. intros _ Hroom.
  destruct (reachable_inv P authority _ Htyped Hw) as (B & HI & HB).
  destruct (release_section_total P B Htyped ltac:(lia) (policy_wf_quanta P Hwf) _ HI Hroom sampled pid proof)
    as [[[out s] e] Hs].
  eexists (out, e), _. split; [done|]. by exists s.
Qed.

Lemma abandon_demands K sampled t σ : tied K σ → demands _ (OAbandon sampled t) σ.
Proof.
  intros (_ & Hw & _). split; [|done]. intros _ Hroom.
  destruct (reachable_inv P authority _ Htyped Hw) as (B & HI & HB).
  destruct (abandon_total P B Htyped ltac:(lia) (policy_wf_quanta P Hwf) _ HI Hroom sampled t)
    as [[[out s] e] Hs].
  eexists (out, e), _. split; [done|]. by exists s.
Qed.

Lemma admit_demands ids sampled req waker σ :
  tied (of_own (λ i w, i = ids ∧ i ∈ w_outstanding w)) σ → demands _ (OAdmit sampled req waker ids) σ.
Proof.
  intros (_ & Hw & i & _ & -> & Hin). split; [|done]. intros _ Hroom.
  destruct (admit_section_total P authority Htyped sampled req waker ids (h_world σ) Hw Hin) as [[[d s] e] Hs].
  apply elem_of_Permutation in Hin as [out Hout]. eexists (d, e), _. split; [done|]. by exists s, out.
Qed.

Lemma free_demands X (o : op T E M X) σ :
  free X o = true → match o with ORunJob | OBlockOn _ _ | ODropRuntime _ => False | _ => True end →
  demands X o σ.
Proof. intros H Ho. split; [by apply free_answers|]. by destruct o. Qed.

(** ** Rules *)

Section rules.
Context {A : Type}.
Implicit Types (Q : A → Host M → Prop) (D : Host M → Prop) (K : Fact).

Lemma wp_ret K `{HL : !Lasting P authority K} (a : A) Q D σ :
  tied K σ → (∀ σ, tied K σ → Q a σ) → wp (Ret a) Q D σ.
Proof. intros H HQ σ1 Hr. apply HQ. by eapply tied_rely. Qed.

(** A call that waits for nothing and changes nothing. *)
Lemma wp_read K `{HL : !Lasting P authority K} {X} (o : op T E M X) (k : X → prog A) Q D σ :
  reads X o = true →
  (∀ σ x σ', acts P authority X o σ x σ' → σ' = σ) →
  tied K σ → (∀ x σ σ', acts P authority X o σ x σ' → tied K σ → wp (k x) Q D σ) →
  wp (Call o k) Q D σ.
Proof.
  intros Ho Ha H Hk σ1 Hr. split; [by apply reads_demands|]. split; [by destruct o|].
  intros x σ2 Hx. pose proof (Ha _ _ _ Hx) as ->.
  assert (tied K σ1) as H1 by (by eapply tied_rely). split; [apply Hframe, H1|]. by eapply Hk.
Qed.

(** A critical section of this thread. *)
Lemma wp_section K `{HL : !Lasting P authority K} {X} (o : op T E M X) (k : X → prog A) Q D σ :
  suspends X o = false → (∀ σ, tied K σ → demands X o σ) → tied K σ →
  (∀ σ x σ', acts P authority X o σ x σ' → tied K σ →
     ∃ K' w, σ' = upd_world w σ ∧ reachable P authority w ∧ K' (h_own σ) w ∧
       ∀ σ, tied K' σ → wp (k x) Q D σ) →
  wp (Call o k) Q D σ.
Proof.
  intros Hs Hd H Hk σ1 Hr. assert (tied K σ1) as H1 by (by eapply tied_rely).
  split; [by apply Hd|]. split; [by rewrite Hs|]. intros x σ2 Hx.
  destruct (Hk _ _ _ Hx H1) as (K' & w & -> & Hw & HK & Hwp).
  destruct (tied_world K' w σ1) as [H2 HG]; [apply H1|done|done|]. auto.
Qed.

Lemma wp_wake K `{HL : !Lasting P authority K} w (k : () → prog A) Q D σ :
  tied K σ → (∀ σ, tied K σ → wp (k ()) Q D σ) →
  wp (Call (OWake w) k) Q D σ.
Proof.
  intros H Hk σ1 Hr. split; [by split; [apply free_answers|]|]. split; [done|]. intros [] σ2 ->.
  assert (tied K σ1) as (HF & Hw & HK) by (by eapply tied_rely).
  destruct (fr_notified _ _ _ _ _ Hframe ({[w]} ∪.) σ1 HF). split; [done|]. by apply Hk.
Qed.
End rules.

(** Sequencing with an assertion in between. *)
Lemma wp_then {A B} (m : prog A) (f : A → prog B) (Q1 : A → Host M → Prop) Q D σ :
  wp m Q1 D σ → (∀ a σ, Q1 a σ → wp (f a) Q D σ) → wp (m ≫= f) Q D σ.
Proof. intros Hm Hf. apply wp_bind; [apply _|]. eapply wp_mono; [|done|exact Hm]. auto. Qed.

(** ** The governor's calls *)

Implicit Types (D : Host M → Prop) (σ : Host M).

(** A continuation pass names nobody. *)
Lemma act_continue_foreign own sampled σ x σ' :
  act_continue P sampled σ x σ' →
  ∃ w, σ' = upd_world w σ ∧ foreign P authority own (h_world σ) w.
Proof.
  intros (Hroom & s & Hs & ->). eexists. split; [done|]. split; [done|]. exists AContinue, x.
  split; [by eapply step_continue|by intros ids _ []].
Qed.

Lemma wp_wake_all K `{HL : !Lasting P authority K} ws D σ :
  tied K σ → wp (wake_all ws) (λ _, tied K) D σ.
Proof.
  revert σ. induction ws as [|w ws IH]; intros σ H; cbn [wake_all].
  - by eapply wp_ret.
  - eapply wp_wake; [done..|]. intros σ1 H1. by apply IH.
Qed.

(** ** Promotion passes come to an end *)

(** A task that nobody interferes with. *)
Local Abbreviation quiet := (Tasks.wp (acts P authority (T:=T) (E:=E)) suspends (λ _ _ _, True) eq (λ _ _, True)).

Lemma quiet_wake_all ws σ :
  quiet (wake_all ws) (λ _ σ', h_world σ' = h_world σ) (λ _, True) σ.
Proof.
  revert σ. induction ws as [|w ws IH]; intros σ; cbn [wake_all]; intros σ1 <-; [done|].
  split; [done|]. split; [done|]. intros [] σ2 ->. split; [done|]. exact (IH (upd_notified ({[w]} ∪.) σ)).
Qed.

Definition drain_measure (e : TransitionEffects) σ : nat :=
  if eff_more_runnable e then S (N.to_nat (backlog (h_state σ))) else 0.

Lemma drain_pass_falls sampled e σ e' σ' :
  reachable P authority (h_world σ) →
  rtc (quiet_step (acts P authority (T:=T) (E:=E))) (drain_pass sampled e, σ) (Ret (inl e'), σ') →
  (drain_measure e' σ' < drain_measure e σ)%nat.
Proof.
  intros Hw Hr. assert (quiet (drain_pass sampled e) (λ x σ', match x with
    | inl e' => (drain_measure e' σ' < drain_measure e σ)%nat | inr _ => True end) (λ _, True) σ) as Hq.
  { apply wp_bind; [apply _|]. eapply wp_mono; [| |apply quiet_wake_all]; [|done]. cbn beta.
    intros _ σ1 Ew. unfold drain_measure at 2. destruct (eff_more_runnable e); [|by intros σ2 <-].
    intros σ2 <-. split; [done|]. split; [done|]. intros x σ3 (Hroom & s & Hs & ->). split; [done|].
    intros σ4 <-. unfold spacious, h_state in *. rewrite Ew in Hroom, Hs.
    destruct (continue_runs P authority Hwf Htyped sampled (h_world σ) Hw Hroom) as (s' & e2 & Hs' & _ & Hm).
    rewrite Hs in Hs'. simplify_eq. unfold drain_measure, h_state. cbn.
    destruct (eff_more_runnable e2); lia. }
  exact (wp_returns _ _ _ eq (λ _ _, True) _ _ _ _ _ _ Hq Hr).
Qed.

Lemma wp_drain_effects K `{HL : !Lasting P authority K} e sampled D σ :
  tied K σ → wp (drain_effects e sampled) (λ _, tied K) D σ.
Proof.
  intros H. unfold drain_effects. apply (wp_then _ _ (λ _, tied K)).
  - apply (wp_loop _ _ _ _ _ (λ _, tied K) drain_measure);
      [done|intros _ σ1 σ2; by apply tied_rely|intros e1 σ1 e2 σ2 (_ & Hw & _); by apply drain_pass_falls|].
    clear σ e H. intros e σ H. unfold drain_pass. eapply wp_then; [by apply (wp_wake_all K)|]. cbn beta. intros _ σ1 H1.
    destruct (eff_more_runnable e).
    + eapply (wp_section K); [done|intros σ2; apply continue_demands|done|]. intros σ2 x σ3 Hx (HF & Hw & HK).
      destruct (act_continue_foreign (h_own σ2) _ _ _ _ Hx) as (w & -> & Hf). exists K, w.
      split_and!; [done|by eapply foreign_reachable|by eapply HL|].
      intros σ4 H4. by eapply (wp_ret K).
    + eapply (wp_ret K); [done..|]. intros σ2 H2. by eapply (wp_ret K).
  - cbn beta. intros _ σ1 H1. eapply (wp_read K); [done..|by intros ??? ->|done|].
    intros [] σ2 _ _ H2. by eapply (wp_ret K).
Qed.

(** [release]: what the section makes of a fact. *)
Lemma wp_governor_release K K' `{HL : !Lasting P authority K, HL' : !Lasting P authority K'} pid proof D σ :
  (∀ own w sampled out s e, reachable P authority w → room (N.of_nat PROMOTION_BUDGET) (w_state w) →
     release_section P sampled pid proof (w_state w) = Some (out, s, e) → K own w →
     K' own (with_state s w)) →
  tied K σ → wp (governor_release pid proof) (λ _, tied K') D σ.
Proof.
  intros Hsec H. unfold governor_release.
  eapply (wp_read K); [done..|by intros ??? ->|done|]. intros sampled σ1 _ _ H1.
  eapply (wp_section K); [done|intros σ2; apply release_demands|done|].
  intros σ2 [out e] σ3 (Hroom & s & Hs & ->) (HF & Hw & HK).
  exists K', (with_state s (h_world σ2)). split_and!; [done| |by eapply Hsec|].
  - eapply reachable_step; [done..|]. eapply lstep_wstep, step_release, Hs.
  - cbn beta. intros σ4 H4. eapply wp_then; [by apply (wp_drain_effects K')|]. cbn beta. intros _ σ5 H5.
    by eapply (wp_ret K').
Qed.

Lemma wp_governor_abandon K K' `{HL : !Lasting P authority K, HL' : !Lasting P authority K'} t D σ :
  (∀ own w sampled out s e, reachable P authority w → room (N.of_nat PROMOTION_BUDGET) (w_state w) →
     abandon_section P sampled t (w_state w) = Some (out, s, e) → K own w →
     K' own (with_state s w)) →
  tied K σ → wp (governor_abandon t) (λ _, tied K') D σ.
Proof.
  intros Hsec H. unfold governor_abandon.
  eapply (wp_read K); [done..|by intros ??? ->|done|]. intros sampled σ1 _ _ H1.
  eapply (wp_section K); [done|intros σ2; apply abandon_demands|done|].
  intros σ2 [out e] σ3 (Hroom & s & Hs & ->) (HF & Hw & HK).
  exists K', (with_state s (h_world σ2)). split_and!; [done| |by eapply Hsec|].
  - eapply reachable_step; [done..|]. eapply lstep_wstep, step_abandon, Hs.
  - cbn beta. intros σ4 H4. eapply wp_then; [by apply (wp_drain_effects K')|]. cbn beta. intros _ σ5 H5.
    by eapply (wp_ret K').
Qed.

(** ** The lease *)

(** What holding a lease value means. *)
Definition lease_fact (l : ExecutionLease) : Fact :=
  match el_custody l with
  | LeaseCustody.Reserved =>
    of_own (λ ids w, el_permit_id l = id_permit ids ∧ own_granted ids caps w)
  | LeaseCustody.Leased token =>
    of_own (λ ids w, (lease_permit_id token = id_permit ids ∧ el_permit_id l = id_permit ids) ∧
      own_leased ids caps (lease_token_nonce token) w)
  | LeaseCustody.Gone => of_own own_gone
  end.

#[local] Instance lease_fact_lasting l : Lasting P authority (lease_fact l).
Proof. unfold lease_fact. destruct (el_custody l); apply _. Qed.

(** Dropping a lease, whatever it holds, leaves nothing behind. *)
Lemma wp_drop_lease l D σ :
  tied (lease_fact l) σ → wp (drop_lease l) (λ _, tied (of_own own_gone)) D σ.
Proof.
  unfold lease_fact, drop_lease. destruct (el_custody l) as [|token|]; intros H.
  - apply (wp_then _ _ (λ _, tied (of_own own_gone))); [|intros _ σ1 H1; by eapply (wp_ret (of_own own_gone))].
    match type of H with tied ?K _ => apply (wp_governor_release K (of_own own_gone)) end; [|exact H].
    intros own w sampled out s e Hw Hroom Hs (ids & -> & Epid & Hg). rewrite Epid in Hs.
    exists ids. split; [done|]. destruct Hg as [Hset [Hud _]].
    apply (own_release P authority Htyped Hwf ids w Hw Hroom _ _ _ _ _ Hset) in Hs as [? _]; [done|].
    intros r Hr. by apply (Hud r Hr).
  - apply (wp_then _ _ (λ _, tied (of_own own_gone))); [|intros _ σ1 H1; by eapply (wp_ret (of_own own_gone))].
    match type of H with tied ?K _ => apply (wp_governor_release K (of_own own_gone)) end; [|exact H].
    intros own w sampled out s e Hw Hroom Hs (ids & -> & [Epid _] & Hset & r & Hr & Hn & _).
    rewrite Epid in Hs. exists ids. split; [done|].
    apply (own_release P authority Htyped Hwf ids w Hw Hroom _ _ _ _ _ Hset) in Hs as [? _]; [done|].
    intros r' Hr'. congruence.
  - by eapply (wp_ret (of_own own_gone)).
Qed.

(** What declaring a phase leaves: the first one takes the lease, or finds the permit
    taken away; a lease once held stays held. *)
Definition advance_post (l : ExecutionLease) (x : ExecutionLease * (GovernorError + ())) σ : Prop :=
  tied (lease_fact x.1) σ ∧
  (x.2 = inr () → ∃ token, el_custody x.1 = LeaseCustody.Leased token) ∧
  (∀ token, el_custody l = LeaseCustody.Leased token → x.1 = l).

Lemma wp_advance l phase D σ :
  phase ≠ DispatchReserved → tied (lease_fact l) σ → wp (advance l phase) (advance_post l) D σ.
Proof.
  intros Hph H. unfold advance. pose proof (lease_fact_lasting l) as HL.
  assert (∀ l' (r : GovernorError + ()),
    (r = inr () → ∃ token, el_custody l' = LeaseCustody.Leased token) →
    (∀ token, el_custody l = LeaseCustody.Leased token → l' = l) →
    ∀ σ, tied (lease_fact l') σ → wp (Ret (l', r)) (advance_post l) D σ) as Hret.
  { intros l' r H1 H2 σ1 H3. by eapply (wp_ret (lease_fact l')). }
  destruct (el_custody l) as [|token|] eqn:Ec; [..|by apply Hret; [done|congruence|]].
  - eapply (wp_section (lease_fact l)); [done|by intros; apply free_demands|done|].
    intros σ1 x σ2 (Hroom & nonces & s & Hs & ->) (HF & Hw & HK). unfold lease_fact in HK. rewrite Ec in HK.
    destruct HK as (ids & Eo & Epid & Hg). rewrite Epid in Hs.
    pose proof (own_dispatch P authority Htyped ids caps (h_world σ1) Hw Hroom _ _ _ _ Hph Hg Hs) as Hd.
    eexists (lease_fact (advanced_lease l phase x).1), _. split; [done|]. split.
    { eapply reachable_step; [done..|]. by eapply lstep_wstep, step_advance. }
    destruct x as [token| |[|current]]; cbn in Hd; [|done| |by destruct Hd].
    + destruct Hd as [E1 E2]. split; [by exists ids|]. apply Hret; [by eexists|congruence].
    + destruct Hd as [_ E2]. split; [by exists ids|]. apply Hret; [done|congruence].
  - eapply (wp_section (lease_fact l)); [done|by intros; apply free_demands|done|].
    intros σ1 x σ2 (Hroom & nonces & s & Hs & ->) (HF & Hw & HK). unfold lease_fact in HK. rewrite Ec in HK.
    destruct HK as (ids & Eo & [Etok Epid] & Hg). rewrite Epid in Hs.
    pose proof (own_advance P authority Htyped ids caps (h_world σ1) Hw Hroom _ _ _ _ _ Hg Hs) as [Hl Hx].
    eexists (lease_fact l), _. split; [done|]. split.
    { eapply reachable_step; [done..|]. by eapply lstep_wstep, step_advance. }
    split; [unfold lease_fact; rewrite Ec; by exists ids|].
    destruct x as [token'| |[|current]]; [done| |done|].
    + unfold advanced_lease. rewrite Ec. apply Hret; [by eexists|done].
    + unfold advanced_lease. apply Hret; [done|done].
Qed.
End threads.
