(* ===== verification/Acquired.v ===== *)
(** * Acquisition leaks nothing

    crates/taskmesh/src/runtime/acquisition.rs, run among any other callers: a
    successful acquisition hands out the submission's own permit, granted with exactly
    the pools its plan charges; a failed or dropped one leaves nothing behind. *)

From S2P Require Import Prelude Contract Text Validation Kernel Errors Arbiter Executors.
From S2P Require Import PolicyCheck Requirements State Assess Admission Memory Observe Governor.
From S2P Require Import Policies Plan Books Custody Ledger Invariant Sections Trace System Runs.
From S2P Require Import Fates Grips Contracts Owned Watched Tasks Host Acquire Holding.

Section acquiring.
Context (P : PolicySet) (authority : N) (Htyped : policies_typed P) (Hwf : policy_wf P).
Context (caps : CapabilityRequirementSet).
Context {T E M : Type}.
Local Abbreviation prog := (task (op T E M)).
Context (rely guarantee : relation (Host M)) (F : Host M → Prop).
Context (Hframe : frame P authority rely guarantee F).
Context (Hwatch : watches rely F).
#[local] Instance rely_pre : PreOrder rely := fr_preorder _ _ _ _ _ Hframe.
Local Abbreviation wp := (wp (acts P authority (T:=T) (E:=E)) suspends (demands P authority caps) rely guarantee).
Local Abbreviation tied := (tied P authority F).
Implicit Types (D : Host M → Prop) (σ : Host M).
Local Abbreviation wp_ret := (Holding.wp_ret P authority caps rely guarantee F Hframe).
Local Abbreviation wp_read := (Holding.wp_read P authority caps rely guarantee F Hframe).
Local Abbreviation wp_section := (Holding.wp_section P authority caps rely guarantee F Hframe).
Local Abbreviation wp_then := (Holding.wp_then P authority caps rely guarantee F Hframe).
Local Abbreviation wp_wake_all := (Holding.wp_wake_all P authority caps rely guarantee F Hframe).
Local Abbreviation wp_governor_abandon :=
  (Holding.wp_governor_abandon P authority Htyped Hwf caps rely guarantee F Hframe).
Local Abbreviation wp_drop_lease :=
  (Holding.wp_drop_lease P authority Htyped Hwf caps rely guarantee F Hframe).
Local Abbreviation tied_rely := (Holding.tied_rely P authority rely guarantee F Hframe).

(** The ticket is the submission's own, unanswered; the permit is its own, granted. *)
Definition k_waiting (t : Ticket) : Fact := of_own (λ ids w, t = id_ticket ids ∧ own_waiting ids caps w).
Definition k_granted (pid : PermitId) : Fact :=
  of_own (λ ids w, pid = id_permit ids ∧ own_granted ids caps w).
(** Its request, if it waits, carries the notifier; the ticket is being claimed. *)
Definition k_watched (t : Ticket) (waker : Waker) : Fact :=
  of_own (λ ids w, t = id_ticket ids ∧ own_watched ids caps waker w).
Definition k_claiming (t : Ticket) : Fact :=
  of_own (λ ids w, t = id_ticket ids ∧ own_claiming ids caps w).

#[local] Instance k_waiting_lasting t : Lasting P authority (k_waiting t).
Proof. unfold k_waiting. apply _. Qed.
#[local] Instance k_granted_lasting pid : Lasting P authority (k_granted pid).
Proof. unfold k_granted. apply _. Qed.
#[local] Instance k_watched_lasting t waker : Lasting P authority (k_watched t waker).
Proof. unfold k_watched. apply _. Qed.
#[local] Instance k_claiming_lasting t : Lasting P authority (k_claiming t).
Proof. unfold k_claiming. apply _. Qed.

Lemma watched_waiting t waker own w : k_watched t waker own w → k_waiting t own w.
Proof. intros (ids & -> & -> & Hw & _). by exists ids. Qed.
Lemma claiming_waiting t own w : k_claiming t own w → k_waiting t own w.
Proof. intros (ids & -> & -> & Hw & _). by exists ids. Qed.

(** ** Reading the budget *)

Lemma wp_rejected K `{HL : !Lasting P authority K} arbiter queued D σ :
  tied K σ → wp (rejected arbiter queued) (λ _, tied K) D σ.
Proof.
  intros H. unfold rejected. eapply (wp_read K); [done..|by intros ??? [_ ->]|done|].
  cbn beta. intros now σ1 _ _ H1. destruct (arb_cancel arbiter) as [token|].
  - eapply (wp_read K); [done..|by intros ??? [_ ->]|done|]. cbn beta. intros fired σ2 _ _ H2.
    by eapply (wp_ret K).
  - by eapply (wp_ret K).
Qed.

(** ** Claiming and abandoning the ticket *)

(** A claim that stays pending leaves the wake-up on its way; and it leaves what no
    critical section touches. *)
Section claiming.
Context (untouched : Host M → Prop).
Context (Huntouched : ∀ σ σ', rely σ σ' → F σ → untouched σ → untouched σ').
Context (Hsections : ∀ w σ, untouched σ → untouched (upd_world w σ)).

Definition claim_post (t : Ticket) (waker : Waker) (out : ClaimOutcome) σ : Prop :=
  match out with
  | Ready pid => tied (k_granted pid) σ
  | ClaimPending => tied (k_watched t waker) σ ∧ awake waker σ ∧ untouched σ
  | _ => tied (k_waiting t) σ
  end.

Lemma claim_begin_not_ready sampled t s pid s' e :
  claim_begin_section sampled t s ≠ (ClaimReturns (Ready pid), s', e).
Proof.
  unfold claim_begin_section. destruct (commit_time sampled s) as [now s1].
  destruct (gs_tickets s1 !! t) as [[]|]; try done. by destruct (gs_permits s1 !! _).
Qed.

(** The answer of a claim that did not proceed, with the wake-up. *)
Lemma wp_claim_returns t waker out D σ :
  (∀ pid, out ≠ Ready pid) →
  match out with
  | ClaimPending => tied (k_watched t waker) σ ∧ awake waker σ ∧ untouched σ
  | _ => tied (k_waiting t) σ
  end → wp (Ret out) (claim_post t waker) D σ.
Proof.
  intros Hno H. destruct out as [pid| |reason|]; [by destruct (Hno pid)|..].
  - destruct H as (H & Ha & Hu). intros σ1 Hr. split; [by apply (tied_rely (k_watched t waker) σ)|].
    split; [eapply Hwatch; [done|apply H|done]|]. eapply Huntouched; [done|apply H|done].
  - by eapply (wp_ret (k_waiting t)).
  - by eapply (wp_ret (k_waiting t)).
Qed.

Lemma claim_finish_posts t waker out D σ :
  tied (match out with Ready pid => k_granted pid | _ => k_waiting t end) σ → out ≠ ClaimPending →
  wp (Ret out) (claim_post t waker) D σ.
Proof.
  intros H Hp. destruct out as [pid| |reason|]; [by apply (wp_ret (k_granted pid))|done|..];
    by apply (wp_ret (k_waiting t)).
Qed.

Lemma wp_claim_finish t waker sampled D σ :
  tied (k_claiming t) σ → wp (call (OClaimFinish sampled t)) (claim_post t waker) D σ.
Proof.
  intros H σ1 Hr. split; [by apply free_demands|]. split; [done|].
  intros out σ2 (Hroom & s & Hs & ->). assert (tied (k_claiming t) σ1) as H1 by (by apply (tied_rely (k_claiming t) σ)).
  destruct H1 as (HF & Hw & ids & Eo & -> & Hc). pose proof (proj1 Hc) as Hown.
  assert (out ≠ ClaimPending) as Hp.
  { intros ->. by apply (own_claim_finish_answers ids caps _ _ _ Hc Hs). }
  pose proof (own_claim_finish P authority Htyped ids caps _ Hw _ _ _ Hown Hs) as Hpost.
  destruct (tied_world P authority rely guarantee F Hframe
    (match out with Ready pid => k_granted pid | _ => k_waiting (id_ticket ids) end)
    (with_state s (h_world σ1)) σ1) as [H2 HG]; [done| | |].
  - by eapply own_reachable; [..|by eapply step_claim_finish].
  - by destruct out; destruct_and?; exists ids.
  - split; [exact HG|]. by apply claim_finish_posts.
Qed.

Lemma wp_governor_claim t waker D σ :
  tied (k_watched t waker) σ → untouched σ → wp (governor_claim t) (claim_post t waker) D σ.
Proof.
  intros H Hu σ0 Hr0. split; [by apply reads_demands|]. split; [done|]. intros sampled σ1 ->.
  assert (tied (k_watched t waker) σ0) as H1 by (by apply (tied_rely (k_watched t waker) σ)).
  assert (untouched σ0) as Hu1 by (eapply Huntouched; [done|apply H|done]).
  split; [apply Hframe, H1|]. clear σ H Hu Hr0. rename σ0 into σ1.
  intros σ2 Hr. split; [by apply free_demands|]. split; [done|].
  intros [b e] σ3 (Hroom & s & Hs & ->). cbn [fst snd] in Hs.
  assert (tied (k_watched t waker) σ2) as (HF & Hw & ids & Eo & -> & Hown)
    by (by apply (tied_rely (k_watched t waker) σ1)).
  set (w := mkWorld s _ _ _ _).
  assert (lstep P authority (h_world σ2) (AClaimBegin (id_ticket ids)) e w) as Hst by (by eapply step_claim_begin).
  assert (reachable P authority w) as Hw' by (by eapply own_reachable).
  assert (own_waiting ids caps w) as Hown'.
  { eapply (waiting_others P authority ids caps (AClaimBegin _)); [| |apply Hown];
      [|by eapply (own_step P authority Htyped (h_world σ2))].
    by split; cbn; naive_solver. }
  pose proof (own_claim_begin P authority Htyped ids caps waker _ _ _ _ _ Hw Hown Hs) as Hpost.
  destruct (fr_world _ _ _ _ _ Hframe w σ2 HF) as [HF' HG]. split; [exact HG|]. destruct b as [out|pid].
  - apply wp_claim_returns; [intros pid ->; by eapply claim_begin_not_ready|].
    destruct out as [pid| |reason|]; try (split_and!; [done..|by exists ids]).
    destruct Hpost as [Hwt Hq]. split; [split_and!; [done..|by exists ids]|].
    split; [exists ids; split; [done|by left]|]. apply Hsections. eapply Huntouched; [done|apply H1|done].
  - eapply wp_then; [apply (wp_wake_all (k_claiming (id_ticket ids))); split_and!; [done..|by exists ids]|].
    cbn beta. intros _ σ5 H5. by apply wp_claim_finish.
Qed.
End claiming.

(** Abandoning the ticket leaves nothing behind. *)
Lemma wp_abandon t D σ :
  tied (k_waiting t) σ → wp (governor_abandon t) (λ _, tied (of_own own_gone)) D σ.
Proof.
  apply (wp_governor_abandon (k_waiting t) (of_own own_gone)).
  intros own w sampled out s e Hw Hroom Hs (ids & -> & -> & Hown).
  exists ids. split; [done|]. by eapply own_abandon.
Qed.

(** ** The handoff *)

(** What an acquisition answers: its own granted permit, or an error with [K] left. *)
Definition answer (K : Fact) (r : GovernorError + PermitId) σ : Prop :=
  match r with inr pid => tied (k_granted pid) σ | inl _ => tied K σ end.

Lemma answer_mono (K K' : Fact) r σ :
  (∀ own w, K own w → K' own w) → answer K r σ → answer K' r σ.
Proof. intros H. destruct r; [by apply tied_mono|done]. Qed.

Lemma wp_answer (K : Fact) `{HL : !Lasting P authority K} r D σ :
  answer K r σ → wp (Ret r) (answer K) D σ.
Proof. destruct r as [e|pid]; intros H; [by apply (wp_ret K)|by apply (wp_ret (k_granted pid))]. Qed.

Lemma wp_finalize_acquired pid arbiter queued blocker D σ :
  tied (k_granted pid) σ →
  wp (finalize_acquired pid arbiter queued blocker) (answer (of_own own_gone)) D σ.
Proof.
  intros H. unfold finalize_acquired. eapply wp_then; [by apply (wp_rejected (k_granted pid))|].
  cbn beta. intros [rej|] σ1 H1; [|by apply (wp_ret (k_granted pid))].
  eapply wp_then; [by apply (wp_drop_lease (lease_reserved pid))|]. cbn beta. intros _ σ2 H2.
  by apply (wp_ret (of_own own_gone)).
Qed.

End acquiring.

(** ** Nobody else about *)

(** While nobody interferes, an acquisition that is woken for nothing has fewer
    notifications left to be woken by. *)
Section quiet.
Context (P : PolicySet) (authority : N) (Htyped : policies_typed P) (Hwf : policy_wf P).
Context (caps : CapabilityRequirementSet).
Context {T E M : Type}.
Implicit Types σ : Host M.
Local Abbreviation wp :=
  (wp (acts P authority (T:=T) (E:=E)) suspends (demands P authority caps) eq (λ _ _, True)).

(** The clock stands still and no token fires. *)
Definition still (now : Instant) (fired : gset CancellationToken) σ : Prop :=
  h_now σ = now ∧ h_fired σ = fired.

Lemma frame_still now fired : frame P authority eq (λ _ _, True) (still now fired).
Proof. split; [apply _|by intros σ σ' <-|done..]. Qed.

Lemma watches_still now fired : watches eq (still now fired).
Proof. by intros waker σ σ' <-. Qed.

Lemma quiet_then {A B} (m : task (op T E M) A) (f : A → task (op T E M) B) (Q1 : A → Host M → Prop) Q D σ :
  wp m Q1 D σ → (∀ a σ, Q1 a σ → wp (f a) Q D σ) → wp (m ≫= f) Q D σ.
Proof. intros Hm Hf. apply wp_bind; [apply _|]. eapply wp_mono; [| |exact Hm]; auto. Qed.

Lemma quiet_rejected arbiter queued D σ :
  wp (rejected arbiter queued)
    (λ r σ', σ' = σ ∧ r = rejection (fired_in σ) arbiter (h_now σ) queued) D σ.
Proof.
  intros σ1 <-. split; [by apply reads_demands|]. split; [done|]. intros now σ2 [-> ->]. split; [done|].
  destruct (arb_cancel arbiter) as [token|] eqn:Ec.
  - intros σ2 <-. split; [by apply reads_demands|]. split; [done|]. intros x σ3 [-> ->]. split; [done|].
    intros σ3 <-. split; [done|]. apply rejection_fired. intros token' Et. congruence.
  - intros σ2 <-. split; [done|]. apply rejection_fired. congruence.
Qed.

Lemma await_once_falls t w arbiter F σ σ' :
  tied P authority F (k_watched caps t w) σ →
  rtc (quiet_step (acts P authority (T:=T) (E:=E))) (await_once t w arbiter, σ) (Ret (inl ()), σ') →
  (size (h_notified σ') < size (h_notified σ))%nat.
Proof.
  intros (_ & Hw & HK) Hr. pose (F' := still (h_now σ) (h_fired σ)).
  pose proof (frame_still (h_now σ) (h_fired σ)) as Hframe.
  pose proof (watches_still (h_now σ) (h_fired σ)) as Hwatch.
  pose (untouched := λ σ1, h_notified σ1 = h_notified σ).
  assert (wp (await_once t w arbiter) (λ x σ', match x with
    | inl _ => (size (h_notified σ') < size (h_notified σ))%nat | inr _ => True end) (λ _, True) σ) as Hwp.
  { unfold await_once. apply (quiet_then _ _ (λ _ σ1, σ1 = σ)).
    { intros σ1 <-. split; [by apply reads_demands|]. split; [done|].
      intros blocker σ2 [_ ->]. split; [done|]. by intros σ3 <-. }
    intros blocker σ1 ->. eapply quiet_then; [apply quiet_rejected|]. cbn beta. intros r σ1 [-> ->].
    eapply quiet_then; [apply (wp_governor_claim P authority Htyped caps eq (λ _ _, True) F' Hframe Hwatch untouched)
      with (waker := w); [by intros ? ? <-|done|by split|done]|].
    cbn beta. intros out σ1 H1. destruct out as [pid| |reason|]; try by intros σ2 <-.
    - eapply quiet_then; [by apply (wp_finalize_acquired P authority Htyped Hwf caps eq (λ _ _, True) F' Hframe)|].
      cbn beta. intros x σ2 _. by intros σ3 <-.
    - destruct H1 as (([En Ef] & _) & Ha & Hu). destruct (rejection _ _ _ _) as [rej|] eqn:Erej; [by intros σ2 <-|].
      intros σ2 <-. split; [by split|]. split; [done|]. intros [] σ2 Hp. split; [done|]. intros σ3 <-.
      unfold untouched in Hu. rewrite <-Hu. destruct Hp as [[Hc ->]|[[Hn ->]|[Hp ->]]].
      + unfold rejection in Erej. unfold fired_in in Hc. rewrite Ef in Hc. unfold fired_in in Erej. by rewrite Hc in Erej.
      + cbn. assert (w ∈ h_notified σ1) as Hin by done. pose proof (size_difference_alt (h_notified σ1) {[w]}) as Hs.
        assert (h_notified σ1 ∩ {[w]} = {[w]}) as Ei by set_solver.
        rewrite Ei, size_singleton in Hs. assert (size (h_notified σ1) ≠ 0%nat); [|lia].
        rewrite size_non_empty_iff. set_solver.
      + rewrite En in Hp. by apply (wake_deadline_rejects (fired_in σ)) in Hp. }
  exact (wp_returns _ _ _ eq (λ _ _, True) _ _ _ _ _ _ Hwp Hr).
Qed.
End quiet.

(** ** Waiting for a promotion *)

Section waiting.
Context (P : PolicySet) (authority : N) (Htyped : policies_typed P) (Hwf : policy_wf P).
Context (caps : CapabilityRequirementSet).
Context {T E M : Type}.
Local Abbreviation prog := (task (op T E M)).
Context (rely guarantee : relation (Host M)) (F : Host M → Prop).
Context (Hframe : frame P authority rely guarantee F).
Context (Hwatch : watches rely F).
#[local] Instance rely_pre_waiting : PreOrder rely := fr_preorder _ _ _ _ _ Hframe.
Local Abbreviation wp := (wp (acts P authority (T:=T) (E:=E)) suspends (demands P authority caps) rely guarantee).
Local Abbreviation tied := (tied P authority F).
Implicit Types (D : Host M → Prop) (σ : Host M).
Local Abbreviation wp_ret := (Holding.wp_ret P authority caps rely guarantee F Hframe).
Local Abbreviation wp_read := (Holding.wp_read P authority caps rely guarantee F Hframe).
Local Abbreviation wp_then := (Holding.wp_then P authority caps rely guarantee F Hframe).
Local Abbreviation tied_rely := (Holding.tied_rely P authority rely guarantee F Hframe).
Local Abbreviation k_waiting := (k_waiting caps).
Local Abbreviation k_granted := (k_granted caps).
Local Abbreviation k_watched := (k_watched caps).
Local Abbreviation answer := (answer P authority caps F).
#[local] Existing Instance k_waiting_lasting.
#[local] Existing Instance k_granted_lasting.
#[local] Existing Instance k_watched_lasting.

Definition k_unclaimed (t : Ticket) : Fact := either (k_waiting t) (of_own own_gone).

#[local] Instance k_unclaimed_lasting t : Lasting P authority (k_unclaimed t).
Proof. unfold k_unclaimed. apply _. Qed.

Lemma wp_park (K : Fact) `{HL : !Lasting P authority K} {A} cancel w deadline (k : () → prog A) Q D σ :
  tied K σ → awake w σ → (∀ σ, tied K σ → D σ) → (∀ σ, tied K σ → wp (k ()) Q D σ) →
  wp (Call (OPark cancel w deadline) k) Q D σ.
Proof.
  intros H Hk HD Hwp σ1 Hr. assert (tied K σ1) as H1 by (by eapply tied_rely).
  split; [split; [done|eapply Hwatch; [done|apply H|done]]|]. split; [auto|].
  intros [] σ2 Hp. pose proof H1 as (HF & Hw & HK).
  destruct Hp as [[_ ->]|[[_ ->]|[_ ->]]].
  - split; [by apply Hframe|auto].
  - destruct (fr_notified _ _ _ _ _ Hframe (.∖ {[w]}) σ1 HF). split; [done|]. by apply Hwp.
  - split; [by apply Hframe|auto].
Qed.

Lemma wp_await_once t w arbiter D σ :
  (∀ σ, tied (k_waiting t) σ → D σ) → tied (k_watched t w) σ →
  wp (await_once t w arbiter)
    (λ x σ, match x with inl _ => tied (k_watched t w) σ | inr r => answer (k_unclaimed t) r σ end) D σ.
Proof.
  intros HD H. unfold await_once.
  eapply (wp_read (k_watched t w)); [done..|by intros ??? [_ ->]|done|]. cbn beta.
  intros blocker σ1 _ _ H1.
  eapply wp_then; [by apply (wp_rejected P authority caps rely guarantee F Hframe (k_watched t w))|].
  cbn beta. intros r σ2 H2.
  eapply wp_then; [by apply (wp_governor_claim P authority Htyped caps rely guarantee F Hframe Hwatch
    (λ _, True) (λ _ _ _ _ _, I) (λ _ _ _, I) t w)|].
  cbn beta. intros out σ3 H3.
  assert (∀ e σ, tied (k_waiting t) σ →
    wp (Ret (inr (inl e) : () + (GovernorError + PermitId))) (λ x σ, match x with
      | inl _ => tied (k_watched t w) σ | inr r => answer (k_unclaimed t) r σ end) D σ) as Herr.
  { intros e σ4 H4. eapply (wp_ret (k_waiting t)); [done|]. intros σ5 H5.
    eapply tied_mono; [|exact H5]. by left. }
  destruct out as [pid| |reason|]; cbn [claim_post] in H3; [|destruct H3 as (H3 & Ha & _)|by apply Herr..].
  - eapply wp_then; [by apply (wp_finalize_acquired P authority Htyped Hwf caps rely guarantee F Hframe)|].
    cbn beta. intros [e|pid'] σ4 H4.
    + eapply (wp_ret (of_own own_gone)); [done|]. intros σ5 H5. eapply tied_mono; [|exact H5]. by right.
    + by eapply (wp_ret (k_granted pid')).
  - destruct r; [apply Herr; eapply tied_mono; [apply watched_waiting|exact H3]|].
    eapply (wp_park (k_watched t w)); [done..| |].
    + intros σ4 H4. apply HD. eapply tied_mono; [apply watched_waiting|exact H4].
    + intros σ4 H4. by eapply (wp_ret (k_watched t w)).
Qed.

Lemma wp_await_promotion t w arbiter D σ :
  (∀ σ, tied (k_waiting t) σ → D σ) → tied (k_watched t w) σ →
  wp (await_promotion t w arbiter) (answer (k_unclaimed t)) D σ.
Proof.
  intros HD H. apply (wp_loop _ _ _ _ _ (λ _, tied (k_watched t w)) (λ _ σ, size (h_notified σ)));
    [done|intros _ σ1 σ2; by apply (tied_rely (k_watched t w))|
     intros _ σ1 [] σ2; by apply (await_once_falls P authority Htyped Hwf caps)|].
  intros _ σ1 H1. eapply wp_mono; [| |by apply wp_await_once]; [|done].
  intros [[]|r] σ2 H2; [done|]. by apply (wp_answer P authority Htyped caps rely guarantee F Hframe (k_unclaimed t)).
Qed.
End waiting.

Section acquired.
Context (P : PolicySet) (authority : N) (Htyped : policies_typed P) (Hwf : policy_wf P).
Context (caps : CapabilityRequirementSet).
Context {T E M : Type}.
Local Abbreviation prog := (task (op T E M)).
Context (rely guarantee : relation (Host M)).
Local Abbreviation wp := (wp (acts P authority (T:=T) (E:=E)) suspends (demands P authority caps) rely guarantee).
Implicit Types (D : Host M → Prop) (σ : Host M).

#[local] Existing Instance k_waiting_lasting.
#[local] Existing Instance k_granted_lasting.
#[local] Existing Instance k_unclaimed_lasting.
#[local] Existing Instance k_watched_lasting.

(** ** The ticket guard *)

Section queued.
Context (F : Host M → Prop) (Hframe : frame P authority rely guarantee F).
Context (ids : Ids) (Hids : ∀ σ, F σ → h_own σ = Some ids).
Local Abbreviation tied := (tied P authority F).

(** A ticket out of the way is not abandoned. *)
Lemma wp_settled_status K `{HL : !Lasting P authority K} (r : GovernorError + PermitId) D σ :
  (∀ w, K (Some ids) w → custody (w_state w) (id_ticket ids) = None) →
  tied K σ →
  wp (status ← call (OTicketStatus (id_ticket ids));
      match status with
      | ClaimTerminal _ | ClaimInvalid => Ret r
      | _ => _ ← governor_abandon (id_ticket ids); Ret r
      end) (λ r' σ, r' = r ∧ tied K σ) D σ.
Proof.
  intros Hset H. eapply (Holding.wp_read P authority caps rely guarantee F Hframe K);
    [done..|by intros ??? [_ ->]|done|]. cbn beta.
  intros x σ1 _ [-> _] H1. pose proof (status_settled (h_state σ1) (id_ticket ids)) as Hst.
  destruct H1 as (HF & Hw & HK). pose proof HK as HK'. rewrite (Hids _ HF) in HK'. apply Hset in HK'.
  unfold h_state in *. rewrite HK' in Hst.
  destruct (ticket_status _ _); try (by destruct Hst);
    by eapply (Holding.wp_ret P authority caps rely guarantee F Hframe K).
Qed.

(** A ticket still waiting is abandoned, or out of the way and forgotten. *)
Lemma wp_unsettled_status (r : GovernorError + PermitId) D σ :
  tied (k_waiting caps (id_ticket ids)) σ →
  wp (status ← call (OTicketStatus (id_ticket ids));
      match status with
      | ClaimTerminal _ | ClaimInvalid => Ret r
      | _ => _ ← governor_abandon (id_ticket ids); Ret r
      end) (λ r' σ, r' = r ∧ tied (of_own own_gone) σ) D σ.
Proof.
  pose proof (k_waiting_lasting P authority Htyped caps (id_ticket ids)) as HL.
  intros H. eapply (Holding.wp_read P authority caps rely guarantee F Hframe (k_waiting caps (id_ticket ids)));
    [done..|by intros ??? [_ ->]|done|]. cbn beta.
  intros x σ1 _ [-> _] H1. pose proof (status_settled (h_state σ1) (id_ticket ids)) as Hst.
  assert (custody (h_state σ1) (id_ticket ids) = None → tied (of_own own_gone) σ1) as Hgone.
  { intros Hn. destruct H1 as (HF & Hw & ids' & Eo & Et & Hown). split_and!; [done..|].
    exists ids'. split; [done|]. rewrite Et in Hn. by eapply waiting_settled. }
  assert (wp (_ ← governor_abandon (id_ticket ids); Ret r) (λ r' σ, r' = r ∧ tied (of_own own_gone) σ) D σ1)
    as Hab.
  { eapply Holding.wp_then;
      [by apply Hframe|by eapply (wp_abandon P authority Htyped Hwf caps rely guarantee F Hframe)|]. cbn beta.
    intros _ σ2 H2. by eapply (Holding.wp_ret P authority caps rely guarantee F Hframe (of_own own_gone)). }
  destruct (ticket_status _ _); [done|done|..];
    by eapply (Holding.wp_ret P authority caps rely guarantee F Hframe (of_own own_gone)); auto.
Qed.

(** Either way, whatever the wait answered. *)
Lemma wp_status (r : GovernorError + PermitId) D σ :
  answer P authority caps F (k_unclaimed caps (id_ticket ids)) r σ →
  wp (status ← call (OTicketStatus (id_ticket ids));
      match status with
      | ClaimTerminal _ | ClaimInvalid => Ret r
      | _ => _ ← governor_abandon (id_ticket ids); Ret r
      end) (answer P authority caps F (of_own own_gone)) D σ.
Proof.
  destruct r as [e|pid]; [intros (HF & Hw & [HK|HK])|intros H].
  - eapply wp_mono; [| |by apply (wp_unsettled_status (inl e))]; [|done].
    by intros ? σ1 [-> H1].
  - eapply wp_mono; [| |apply (wp_settled_status (of_own own_gone) (inl e)); [|by split_and!]]; [|done|].
    + by intros ? σ1 [-> H1].
    + by intros w (ids' & [= <-] & (_ & _ & ?) & _).
  - eapply wp_mono; [| |apply (wp_settled_status (k_granted caps pid) (inr pid)); [|exact H]]; [|done|].
    + by intros ? σ1 [-> H1].
    + by intros w (ids' & [= <-] & _ & (_ & _ & ?) & _).
Qed.
End queued.

(** ** The queued arm *)

Section acquire.
Context (F : Host M → Prop) (Hframe : frame P authority rely guarantee F).
Context (Hwatch : watches rely F).
Local Abbreviation tied := (tied P authority F).
Local Abbreviation wp_then := (Holding.wp_then P authority caps rely guarantee F Hframe).

Lemma wp_acquire_queued t w arbiter D σ :
  (∀ σ, tied clear σ → D σ) → tied (k_watched caps t w) σ →
  wp (acquire_queued t w arbiter) (answer P authority caps F clear) D σ.
Proof.
  intros HD (HF & Hw & ids & Eo & -> & Hown). unfold acquire_queued.
  pose proof (frame_own P authority rely guarantee F (Some ids) Hframe) as Hframe'.
  set (F' := λ σ, F σ ∧ h_own σ = Some ids) in *.
  assert (∀ K σ, Holding.tied P authority F' K σ → tied K σ) as Hweak.
  { by intros K σ1 ([HF1 _] & Hw1 & HK). }
  assert (∀ σ, F' σ → h_own σ = Some ids) as Hids by (by intros σ1 [_ ?]).
  assert (watches rely F') as Hwatch' by (intros waker σ1 σ2 Hr [HF1 _]; by eapply Hwatch).
  assert (Holding.tied P authority F' (k_watched caps (id_ticket ids) w) σ) as H
    by (split_and!; [done..|by exists ids]).
  apply (wp_then _ _ (answer P authority caps F' (k_unclaimed caps (id_ticket ids)))).
  - apply (wp_scope _ _ _ _ _).
    eapply wp_mono; [| |apply (wp_await_promotion P authority Htyped Hwf caps rely guarantee F' Hframe' Hwatch');
      [|exact H]].
    + intros b σ1 H1. by apply (wp_answer P authority Htyped caps rely guarantee F' Hframe' (k_unclaimed _ _)).
    + intros σ1 H1. exact H1.
    + intros σ1 H1. cbn beta.
      apply (Holding.wp_then P authority caps rely guarantee F' Hframe' _ _
         (λ _, Holding.tied P authority F' (of_own own_gone))).
      * by apply (wp_abandon P authority Htyped Hwf caps rely guarantee F' Hframe' (id_ticket ids)).
      * cbn beta. intros _ σ2 H2.
        eapply (Holding.wp_ret P authority caps rely guarantee F' Hframe' (of_own own_gone)); [done|].
        intros σ3 H3. apply HD. eapply tied_mono; [|by apply Hweak]. by right.
  - cbn beta. intros r σ1 H1. eapply wp_mono; [|done|by apply (wp_status F' Hframe' ids Hids)].
    intros [e|pid] σ2 H2; [|by apply Hweak]. eapply tied_mono; [|by apply Hweak]. by right.
Qed.

(** ** Admission *)

(** The thread may be given its identities, once. *)
Definition issues : Prop :=
  ∀ own w σ, F σ → h_own σ = None →
    F (upd_own own (upd_world w σ)) ∧ guarantee σ (upd_own own (upd_world w σ)).

Context (Hissue : issues).
Context (pools : list ResolvedCapability) (Hpools : from_resolved pools = inr caps).

Definition k_admitted (waker : Waker) (d : AdmissionDecision) : Fact :=
  match d with
  | AdmittedPermit pid => k_granted caps pid
  | Rejected _ => clear
  | Queued t => k_watched caps t waker
  end.

#[local] Instance k_admitted_lasting waker d : Lasting P authority (k_admitted waker d).
Proof. destruct d; apply _. Qed.

Lemma act_fresh_ids_steps σ x σ' :
  reachable P authority (h_world σ) → act_fresh_ids authority σ x σ' →
  ∃ w, σ' = upd_own x (upd_world w σ) ∧ reachable P authority w ∧
    ∀ ids, x = Some ids → ids ∈ w_outstanding w.
Proof.
  intros Hw (Hroom & k & Hf & ->). eexists. split; [done|]. split.
  - eapply reachable_step; [done..|]. exists AIssue, no_effects.
    destruct x; [by eapply step_fresh|by eapply step_exhausted].
  - intros ids ->. by left.
Qed.

Lemma wp_governor_admit_inner spec waker D σ :
  tied issued_none σ →
  wp (governor_admit_inner spec caps (Some waker)) (λ d, tied (k_admitted waker d)) D σ.
Proof.
  intros H. unfold governor_admit_inner.
  eapply (Holding.wp_read P authority caps rely guarantee F Hframe issued_none);
    [done..|by intros ??? ->|done|]. cbn beta. intros sampled σ1 _ _ H1.
  intros σ2 Hr. split; [by apply free_demands|]. split; [done|]. intros x σ3 Hx.
  assert (tied issued_none σ2) as (HF & Hw & Eo)
    by (by apply (Holding.tied_rely P authority rely guarantee F Hframe issued_none) in Hr).
  apply act_fresh_ids_steps in Hx as (w & -> & Hw3 & Hout); [|done].
  destruct (Hissue x w σ2 HF Eo) as [HF3 HG]. split; [done|]. cbn beta.
  destruct x as [ids|].
  2: { eapply (Holding.wp_ret P authority caps rely guarantee F Hframe issued_none); [done|].
       intros σ4 H4. eapply tied_mono; [|exact H4]. by left. }
  assert (tied (of_own (λ i w, i = ids ∧ i ∈ w_outstanding w)) (upd_own (Some ids) (upd_world w σ2))) as H3.
  { split; [done|]. split; [done|]. exists ids. split_and!; [done..|by apply Hout]. }
  eapply (Holding.wp_section P authority caps rely guarantee F Hframe
    (of_own (λ i w, i = ids ∧ i ∈ w_outstanding w))); [done|intros σ4; by apply admit_demands|exact H3|].
  intros σ4 [d e] σ5 (Hroom & s & out & Hp & Ha & ->) (HF4 & Hw4 & ids' & Eo4 & -> & Hin).
  pose proof (own_admit P authority Htyped ids caps (h_world σ4) Hw4 out Hp sampled (mkRequest spec caps) pools Hpools
    (Some waker) d s e eq_refl Ha) as Hpost.
  exists (k_admitted waker d).
  eexists. split; [done|]. split.
  { eapply reachable_step; [done..|]. eapply lstep_wstep, (step_admit _ _ _ sampled (mkRequest spec caps));
      [exact Hp|exact Hpools|exact Ha]. }
  split.
  { destruct d as [pid|t|v]; cbn in Hpost; [destruct Hpost as [-> Hpost]; by exists ids|
      destruct Hpost as [-> Hpost]|right; by exists ids].
    exists ids. split_and!; [done..|]. split; [done|].
    by eapply (own_admit_watched P authority Htyped ids waker (h_world σ4)). }
  intros σ6 H6. cbn beta iota.
  eapply wp_then; [by apply (Holding.wp_wake_all P authority caps rely guarantee F Hframe
    (k_admitted waker d))|].
  cbn beta. intros _ σ7 H7.
  by eapply (Holding.wp_ret P authority caps rely guarantee F Hframe (k_admitted waker d)).
Qed.

Lemma wp_governor_admit plan requirements waker D σ :
  requirements = caps → tied issued_none σ →
  wp (governor_admit P plan requirements (Some waker))
    (λ x, tied (match x with inl _ => issued_none | inr d => k_admitted waker d end)) D σ.
Proof.
  intros -> H. unfold governor_admit. destruct (validate_requirements P caps) as [e|[]].
  - by eapply (Holding.wp_ret P authority caps rely guarantee F Hframe issued_none).
  - eapply wp_then; [by apply wp_governor_admit_inner|]. cbn beta. intros d σ1 H1.
    by eapply (Holding.wp_ret P authority caps rely guarantee F Hframe (k_admitted waker d)).
Qed.

(** ** Acquiring *)

Lemma answer_weaken (K K' : Fact) r σ :
  (∀ own w, K own w → K' own w) →
  answer P authority caps F K r σ → answer P authority caps F K' r σ.
Proof. intros H. destruct r; [by apply tied_mono|done]. Qed.

Lemma wp_error K `{HL : !Lasting P authority K} e D σ :
  (∀ own w, K own w → clear own w) →
  tied K σ → wp (Ret (inl e)) (answer P authority caps F clear) D σ.
Proof.
  intros H Hσ. eapply (Holding.wp_ret P authority caps rely guarantee F Hframe K); [done|].
  intros σ1. by apply tied_mono.
Qed.

(** Nothing is left behind when nothing is handed out. *)
Lemma wp_acquire plan arbiter D σ :
  vp_requirements plan = caps → (∀ σ, tied clear σ → D σ) → tied issued_none σ →
  wp (acquire P plan arbiter) (answer P authority caps F clear) D σ.
Proof.
  intros Ecaps HD H. unfold acquire.
  eapply wp_then; [by apply (wp_rejected P authority caps rely guarantee F Hframe issued_none)|]. cbn beta.
  intros [rej|] σ1 H1; [by eapply (wp_error issued_none); [by left|]|].
  eapply (Holding.wp_read P authority caps rely guarantee F Hframe issued_none);
    [done..|by intros ??? [_ ->]|done|]. cbn beta. intros w σ2 _ _ H2.
  eapply wp_then; [by apply wp_governor_admit|]. cbn beta. intros [e|[pid|t|v]] σ3 H3.
  - by eapply (wp_error issued_none); [by left|].
  - eapply wp_mono; [| |by apply (wp_finalize_acquired P authority Htyped Hwf caps rely guarantee F Hframe)];
      [|done].
    intros r σ4. apply answer_weaken. by right.
  - by apply wp_acquire_queued.
  - by eapply (wp_error clear).
Qed.

(** The context checks touch nothing. *)
Lemma wp_preflight_runtime_context K `{HL : !Lasting P authority K} cpu opts plan response_by D σ :
  tied K σ → wp (preflight_runtime_context cpu opts plan response_by) (λ _, tied K) D σ.
Proof.
  intros H. unfold preflight_runtime_context.
  eapply (wp_then _ _ (λ _, tied K)).
  - case_bool_decide; [|by eapply (Holding.wp_ret P authority caps rely guarantee F Hframe K)].
    eapply (Holding.wp_read P authority caps rely guarantee F Hframe K); [done..|by intros ??? ->|done|].
    cbn beta. intros x σ1 _ _ H1. by eapply (Holding.wp_ret P authority caps rely guarantee F Hframe K).
  - cbn beta. intros [] σ1 H1; [by eapply (Holding.wp_ret P authority caps rely guarantee F Hframe K)|].
    destruct (required_context _ _ _ _) as [context|];
      [|by eapply (Holding.wp_ret P authority caps rely guarantee F Hframe K)].
    eapply (Holding.wp_read P authority caps rely guarantee F Hframe K); [done..|by intros ??? ->|done|].
    cbn beta. intros x σ2 _ _ H2. by eapply (Holding.wp_ret P authority caps rely guarantee F Hframe K).
Qed.

(** The lease of a successful acquisition holds the granted permit, undispatched. *)
Definition lease_post (r : RunError E + ExecutionLease) σ : Prop :=
  match r with
  | inl e => RunError.is_governor e = true ∧ tied clear σ
  | inr l => el_custody l = LeaseCustody.Reserved ∧ tied (lease_fact caps l) σ
  end.

Lemma wp_fail e D σ :
  tied issued_none σ → wp (Ret (inl (RunError.Governor e))) lease_post D σ.
Proof.
  intros H. eapply (Holding.wp_ret P authority caps rely guarantee F Hframe issued_none); [done|].
  intros σ1 H1. split; [done|]. eapply tied_mono; [|exact H1]. by left.
Qed.

Lemma wp_acquire_execution_lease cpu opts plan response_by D σ :
  vp_requirements plan = caps → (∀ σ, tied clear σ → D σ) → tied issued_none σ →
  wp (acquire_execution_lease P cpu opts plan response_by) lease_post D σ.
Proof.
  intros Ecaps HD H. unfold acquire_execution_lease. cbn zeta.
  destruct (bool_decide _ && _); [by apply wp_fail|].
  eapply (Holding.wp_read P authority caps rely guarantee F Hframe issued_none);
    [done..|by intros ??? [_ ->]|done|]. cbn beta. intros now σ1 _ _ H1.
  destruct (AcquisitionArbiter_new _ _ _) as [e|arbiter]; [by apply wp_fail|].
  eapply wp_then; [by apply (wp_rejected P authority caps rely guarantee F Hframe issued_none)|]. cbn beta.
  intros [rej|] σ2 H2; [by apply wp_fail|].
  eapply wp_then; [by apply (wp_preflight_runtime_context issued_none)|]. cbn beta.
  intros [e|[]] σ3 H3; [by apply wp_fail|].
  eapply wp_then; [by apply wp_acquire|]. cbn beta. intros [e|pid] σ4 H4.
  - by eapply (Holding.wp_ret P authority caps rely guarantee F Hframe clear).
  - by eapply (Holding.wp_ret P authority caps rely guarantee F Hframe (k_granted caps pid)).
Qed.
End acquire.
End acquired.
