(* ===== verification/Threads.v ===== *)
(** * A caller and its worker

    A detached job is two threads: the caller's future, which may be dropped where it
    is suspended, and the worker its executor starts.  They interleave with each other
    and with everybody else.  Each is proved on its own, against what the other
    promises ([gc], [gw]); together they keep both proofs. *)

From S2P Require Import Prelude Tasks.

Section pair.
Context {F : Type → Type} {Σ A : Type}.
Context (acts : ∀ X, F X → Σ → X → Σ → Prop).
Context (suspends : ∀ X, F X → bool).
Context (demands : ∀ X, F X → Σ → Prop).

(** How the worker comes to life: with which program, and what that does to the state. *)
Context (starts : Σ → task F () → Σ → Prop).
Context (env : relation Σ).

(** The caller runs, or was dropped and its destructors run. *)
Inductive Caller := Calling (p : task F A) | Dropping (c : task F ()).

Record Config := mkConfig {
  cf_caller : Caller;
  cf_worker : option (task F ());
  cf_state : Σ;
}.

Inductive pstep : relation Config :=
  | p_call p q w σ σ' :
      task_step acts p σ q σ' →
      pstep (mkConfig (Calling p) w σ) (mkConfig (Calling q) w σ')
  | p_drop p c w σ :
      dropped suspends p = Some c →
      pstep (mkConfig (Calling p) w σ) (mkConfig (Dropping c) w σ)
  | p_unwind p q w σ σ' :
      task_step acts p σ q σ' →
      pstep (mkConfig (Dropping p) w σ) (mkConfig (Dropping q) w σ')
  | p_start c p σ σ' :
      starts σ p σ' → pstep (mkConfig c None σ) (mkConfig c (Some p) σ')
  | p_work c p q σ σ' :
      task_step acts p σ q σ' → pstep (mkConfig c (Some p) σ) (mkConfig c (Some q) σ')
  | p_env c w σ σ' : env σ σ' → pstep (mkConfig c w σ) (mkConfig c w σ').

(** ** A schedule *)

(** The worker first, once it can run; the caller otherwise. *)
Section driving.
Context (act : ∀ X, F X → Σ → option (X * Σ)).
Context (act_ok : ∀ X (o : F X) σ x σ', act X o σ = Some (x, σ') → acts X o σ x σ').
Context (start : Σ → option (task F () * Σ)).
Context (start_ok : ∀ σ p σ', start σ = Some (p, σ') → starts σ p σ').

Definition drive_caller (c : Config) : option Config :=
  match cf_caller c with
  | Calling p =>
    '(q, σ) ← step_task act p (cf_state c); Some (mkConfig (Calling q) (cf_worker c) σ)
  | Dropping p =>
    '(q, σ) ← step_task act p (cf_state c); Some (mkConfig (Dropping q) (cf_worker c) σ)
  end.

Definition drive_worker (c : Config) : option Config :=
  match cf_worker c with
  | Some p => '(q, σ) ← step_task act p (cf_state c); Some (mkConfig (cf_caller c) (Some q) σ)
  | None => '(p, σ) ← start (cf_state c); Some (mkConfig (cf_caller c) (Some p) σ)
  end.

Fixpoint drive (fuel : nat) (c : Config) : Config :=
  match fuel with
  | O => c
  | S fuel =>
    match drive_worker c with
    | Some c' => drive fuel c'
    | None => match drive_caller c with Some c' => drive fuel c' | None => c end
    end
  end.

Lemma drive_caller_step c c' : drive_caller c = Some c' → pstep c c'.
Proof.
  unfold drive_caller. destruct c as [[p|p] w σ]; cbn;
    intros ([q σ'] & H & [= <-])%bind_Some; constructor; by eapply step_task_step.
Qed.
Lemma drive_worker_step c c' : drive_worker c = Some c' → pstep c c'.
Proof.
  unfold drive_worker. destruct c as [c [p|] σ]; cbn;
    intros ([q σ'] & H & [= <-])%bind_Some; constructor; [by eapply step_task_step|by apply start_ok].
Qed.

Lemma drive_runs fuel c : rtc pstep c (drive fuel c).
Proof.
  revert c. induction fuel as [|fuel IH]; intros c; cbn [drive]; [done|].
  destruct (drive_worker c) as [c'|] eqn:Ew; [eapply rtc_l; [by apply drive_worker_step|apply IH]|].
  destruct (drive_caller c) as [c'|] eqn:Ec; [|done]. eapply rtc_l; [by apply drive_caller_step|apply IH].
Qed.
End driving.

(** ** Composition *)

Section soundness.
(** Where the two threads are about to call, the demands hold. *)
Definition demands_met (c : Config) : Prop :=
  match cf_caller c with Calling p => demanded demands p (cf_state c) | Dropping p => demanded demands p (cf_state c) end ∧
  match cf_worker c with Some p => demanded demands p (cf_state c) | None => True end.

(** Neither thread spins, and neither is stuck except where [may_wait] lets it stand. *)
Definition threads_lively (may_wait : ∀ X, F X → Σ → Prop) (c : Config) : Prop :=
  match cf_caller c with
  | Calling p => lively acts may_wait p (cf_state c)
  | Dropping p => lively acts may_wait p (cf_state c)
  end ∧
  match cf_worker c with Some p => lively acts may_wait p (cf_state c) | None => True end.

Context (gc gw : relation Σ).
Definition others (g : relation Σ) : relation Σ := rtc (λ σ σ', env σ σ' ∨ g σ σ').

Local Abbreviation wpc := (wp acts suspends demands (others gw) gc).
Local Abbreviation wpw := (wp acts suspends demands (others gc) gw).

Context (Q : A → Σ → Prop) (D : Σ → Prop) (R : Σ → Prop) (Qw : () → Σ → Prop).
Context (HD : ∀ σ σ', others gw σ σ' → D σ → D σ').
Context (HR : ∀ σ σ', others gc σ σ' → R σ → R σ').
Context (Hstart : ∀ σ p σ', starts σ p σ' → R σ → gw σ σ' ∧ wpw p Qw (λ _, False) σ').

Definition caller_ok (c : Caller) (σ : Σ) : Prop :=
  match c with
  | Calling p => wpc p Q D σ
  | Dropping p => wpc p (λ _, D) (λ _, False) σ
  end.
Definition worker_ok (w : option (task F ())) (σ : Σ) : Prop :=
  match w with Some p => wpw p Qw (λ _, False) σ | None => R σ end.
Definition pair_ok (c : Config) : Prop :=
  caller_ok (cf_caller c) (cf_state c) ∧ worker_ok (cf_worker c) (cf_state c).

Lemma others_preorder g : PreOrder (others g).
Proof. unfold others; apply _. Qed.
#[local] Existing Instance others_preorder.

Lemma others_env g σ σ' : env σ σ' → others g σ σ'.
Proof. intros. apply rtc_once. by left. Qed.
Lemma others_guarantee (g : relation Σ) σ σ' : g σ σ' ∨ σ' = σ → others g σ σ'.
Proof. intros [?| ->]; [apply rtc_once; by right|done]. Qed.

Lemma caller_ok_rely c σ σ' : others gw σ σ' → caller_ok c σ → caller_ok c σ'.
Proof. destruct c; cbn [caller_ok]; apply wp_rely, _. Qed.
Lemma worker_ok_rely w σ σ' : others gc σ σ' → worker_ok w σ → worker_ok w σ'.
Proof. destruct w; cbn [worker_ok]; [apply wp_rely, _|apply HR]. Qed.

Lemma pair_step c c' : pair_ok c → pstep c c' → pair_ok c'.
Proof.
  intros [Hc Hw] Hs. destruct Hs as [p q w σ σ' Hs|p d w σ Hd|p q w σ σ' Hs|c p σ σ' Hs|c p q σ σ' Hs|c w σ σ' He];
    cbn in *.
  - split; cbn; [by eapply wp_steps; [apply _|exact HD|exact Hc|exact Hs]|].
    eapply worker_ok_rely; [|exact Hw]. apply others_guarantee.
    eapply wp_step; [apply others_preorder|exact Hc|exact Hs].
  - split; [|exact Hw]. cbn. eapply wp_dropped; [apply _|exact Hc|exact Hd].
  - split; cbn; [eapply wp_steps; [apply _| |exact Hc|exact Hs]; by intros|].
    eapply worker_ok_rely; [|exact Hw]. apply others_guarantee.
    eapply wp_step; [apply others_preorder|exact Hc|exact Hs].
  - destruct (Hstart _ _ _ Hs Hw) as [HG Hp]. split; [|exact Hp].
    eapply caller_ok_rely; [|exact Hc]. apply others_guarantee. by left.
  - split; cbn; [|eapply wp_steps; [apply _| |exact Hw|exact Hs]; by intros].
    eapply caller_ok_rely; [|exact Hc]. apply others_guarantee.
    eapply wp_step; [apply others_preorder|exact Hw|exact Hs].
  - split; [apply (caller_ok_rely c σ)|apply (worker_ok_rely w σ)]; try done; by apply others_env.
Qed.

Lemma pair_runs c c' : pair_ok c → rtc pstep c c' → pair_ok c'.
Proof. intros H Hr. induction Hr as [|c c1 c' Hs _ IH]; [done|]. by apply IH, (pair_step c). Qed.

(** What a run's configurations satisfy. *)
Lemma pair_demanded c : pair_ok c → demands_met c.
Proof.
  intros [Hc Hw]. split.
  - destruct (cf_caller c); eapply wp_demanded, Hc; apply _.
  - destruct (cf_worker c); [|done]. eapply wp_demanded, Hw; apply _.
Qed.

Lemma pair_lively may_wait c :
  (∀ X (o : F X) σ, demands X o σ → (∃ x σ', acts X o σ x σ') ∨ may_wait X o σ) →
  pair_ok c → threads_lively may_wait c.
Proof.
  intros Hi [Hc Hw].
  assert (∀ g g' B (p : task F B) Q' D', wp acts suspends demands (others g) g' p Q' D' (cf_state c) →
    lively acts may_wait p (cf_state c)) as Hl.
  { intros g g' B p Q' D' H. split; [by eapply wp_finishes in H; [|apply _]|].
    eapply demanded_progress; [intros X o; apply Hi|]. eapply wp_demanded, H. apply _. }
  split.
  - destruct (cf_caller c); by eapply Hl.
  - destruct (cf_worker c); [|done]. by eapply Hl.
Qed.

Lemma pair_returned a w σ : pair_ok (mkConfig (Calling (Ret a)) w σ) → Q a σ.
Proof. intros [Hc _]. by apply Hc. Qed.
Lemma pair_unwound w σ : pair_ok (mkConfig (Dropping (Ret ())) w σ) → D σ.
Proof. intros [Hc _]. by apply Hc. Qed.
Lemma pair_worked c σ : pair_ok (mkConfig c (Some (Ret ())) σ) → Qw () σ.
Proof. intros [_ Hw]. by apply Hw. Qed.
End soundness.
End pair.
Arguments Calling {F A}.
Arguments Dropping {F A}.
Arguments mkConfig {F Σ A}.
Arguments cf_caller {F Σ A}.
Arguments cf_worker {F Σ A}.
Arguments cf_state {F Σ A}.
