(* ===== verification/Submit.v ===== *)
(** * The submission paths

    crates/taskmesh/src/runtime.rs, runtime/synchronous.rs and runtime/detached.rs: the
    run paths of a runtime on top of the acquisition of Acquire.v, and the bodies of
    the workers the detached ones start.  A [Result<T, RunError<E>>] is
    [RunError E + T]; a lease that goes out of scope is dropped where the source drops
    it. *)

From stdpp Require Import pretty.
From S2P Require Import Prelude Contract Text Validation Topology Kernel Errors Arbiter Executors.
From S2P Require Import PolicyCheck State Assess Admission Observe Governor Plan Build Tasks Host.
From S2P Require Import Acquire.

(** ** Messages on the completion channel *)

(** [DetachedOutcome]: a synchronous worker's result, with the lease. *)
Record DetachedOutcome (T E : Type) := mkDetachedOutcome {
  do_result : RunError E + T;
  do_started_at : Instant;
  do_completed_at : Instant;
  do_lease : ExecutionLease;
}.
Arguments mkDetachedOutcome {T E}.
Arguments do_result {T E}.
Arguments do_started_at {T E}.
Arguments do_completed_at {T E}.
Arguments do_lease {T E}.

(** [AsyncThreadOutcome]: only a completed result carries the lease. *)
Inductive AsyncThreadOutcome (T E : Type) :=
  | AsyncCompleted (result : RunError E + T) (lease : ExecutionLease)
  | AsyncTerminated (error : RunError E).
Arguments AsyncCompleted {T E}.
Arguments AsyncTerminated {T E}.

(** The lease a message carries: dropped with the message. *)
Class Carries (M : Type) := carried : M → option ExecutionLease.

#[export] Instance DetachedOutcome_carries T E : Carries (DetachedOutcome T E) :=
  λ m, Some (do_lease m).
#[export] Instance AsyncThreadOutcome_carries T E : Carries (AsyncThreadOutcome T E) :=
  λ m, match m with AsyncCompleted _ lease => Some lease | AsyncTerminated _ => None end.

(** ** Pieces the paths share *)

Section pieces.
Context {T E M : Type} `{!Carries M}.
Local Abbreviation prog := (task (op T E M)).

Definition governor_error {A} (e : GovernorError) : RunError E + A := inl (RunError.Governor e).

(** [is_some_and(|token| token.is_cancelled())] and
    [is_some_and(|deadline| Instant::now() >= deadline)]. *)
Definition cancelled_now (cancel : option CancellationToken) : prog bool :=
  match cancel with Some token => call (OIsCancelled token) | None => Ret false end.
Definition passed_now (deadline : option Instant) : prog bool :=
  match deadline with
  | Some _ => now ← call ONow; Ret (has_passed now deadline)
  | None => Ret false
  end.

(** [finalize_released_response]. *)
Definition finalize_released_response (result : RunError E + T) (cancel : option CancellationToken)
    (response_by : option Instant) : prog (RunError E + T) :=
  cancelled ← cancelled_now cancel;
  if cancelled : bool then Ret (governor_error GovernorError.Cancelled)
  else
    late ← passed_now response_by;
    Ret (if late : bool then governor_error GovernorError.DeadlineExceeded else result).

(** The completion deadline of [run_cancellable]. *)
Definition completion_deadline (deadline : option SubmissionDeadline)
  : prog (RunError E + option Instant) :=
  match deadline with
  | Some (RunFor duration) =>
    now ← call ONow;
    Ret (match instant_add now duration with
         | Some at_ => inr (Some at_)
         | None => governor_error (policy_violation "relative run deadline exceeds Instant range")
         end)
  | Some (CompleteBy instant) => Ret (inr (Some instant))
  | None => Ret (inr None)
  end.

Definition task_result (r : E + T) : RunError E + T :=
  match r with inl e => inl (RunError.Task e) | inr v => inr v end.

(** What [run_cancellable] makes of its select. *)
Definition work_outcome (deadline : option Instant) (x : WorkSelect T E) : RunError E + T :=
  match x with
  | WorkCancelled => governor_error GovernorError.Cancelled
  | WorkTimedOut => governor_error GovernorError.DeadlineExceeded
  | WorkReady completed_at result =>
    if has_passed completed_at deadline then governor_error GovernorError.DeadlineExceeded
    else task_result result
  end.

(** [run_cancellable]. *)
Definition run_cancellable (token : option CancellationToken) (deadline : option SubmissionDeadline)
  : prog (RunError E + T) :=
  at_ ← completion_deadline deadline;
  try at_ (λ at_, x ← call (OPollWork token at_); Ret (work_outcome at_ x)).

(** Dropping a message, and the receiver with what it may hold. *)
Definition drop_message (m : option M) : prog () :=
  match m ≫= carried with Some lease => drop_lease lease | None => Ret () end.
Definition drop_receiver : prog () :=
  m ← call ODropReceiver; drop_message m.

(** [lease.advance(phase)?]: on an error the lease is dropped on the way out. *)
Definition advance_or_return (lease : ExecutionLease) (phase : ExecutionPhase)
    (k : ExecutionLease → prog (RunError E + T)) : prog (RunError E + T) :=
  '(lease, x) ← advance lease phase;
  match x with
  | inl error => _ ← drop_lease lease; Ret (governor_error error)
  | inr () => k lease
  end.

(** [response_by.is_some_and(|deadline| Instant::now() >= deadline)] before dispatch. *)
Definition unless_late (lease : ExecutionLease) (response_by : option Instant)
    (k : ExecutionLease → prog (RunError E + T)) : prog (RunError E + T) :=
  late ← passed_now response_by;
  if late : bool then _ ← drop_lease lease; Ret (governor_error GovernorError.DeadlineExceeded)
  else k lease.
End pieces.

(** ** Futures polled by the caller *)

Section polled.
Context (rt : TokioRuntime) {T E M : Type}.
Local Abbreviation prog := (task (op T E M)).
Local Abbreviation P := (gv_policy (rt_governor rt)).

(** [run_io_acquired]. *)
Definition run_io_acquired (lease : ExecutionLease) (plan : ValidatedDispatchPlan)
  : prog (RunError E + T) :=
  advance_or_return lease Running (λ lease,
    result ← guarded (drop_lease lease) (run_cancellable (vp_cancel plan) (vp_deadline plan));
    _ ← drop_lease lease;
    finalize_released_response result (vp_cancel plan) (absolute_deadline plan)).

(** [run_io_with]. *)
Definition run_io_with (spec : TaskSpec) (opts : SubmitOptions) : prog (RunError E + T) :=
  match Build.plan rt spec opts RunIo with
  | inl error => Ret (governor_error error)
  | inr plan =>
    lease ← acquire_execution_lease P (rt_cpu_capabilities rt) opts plan None;
    try lease (λ lease, run_io_acquired lease plan)
  end.

(** [run_local_with]: the future runs on a [LocalSet] of the caller's. *)
Definition run_local_with (spec : TaskSpec) (opts : SubmitOptions) : prog (RunError E + T) :=
  match Build.plan rt spec opts RunLocal with
  | inl error => Ret (governor_error error)
  | inr plan =>
    lease ← acquire_execution_lease P (rt_cpu_capabilities rt) opts plan None;
    try lease (λ lease,
      advance_or_return lease Running (λ lease,
        result ← guarded (drop_lease lease) (run_cancellable (vp_cancel plan) (vp_deadline plan));
        _ ← drop_lease lease;
        finalize_released_response result (vp_cancel plan) (absolute_deadline plan)))
  end.

(** The trait's entry points. *)
Definition run_io (spec : TaskSpec) : prog (RunError E + T) := run_io_with spec unbounded.
Definition run_local (spec : TaskSpec) : prog (RunError E + T) := run_local_with spec unbounded.
End polled.

(** ** Detached synchronous jobs *)

Section detached.
Context (rt : TokioRuntime) {T E : Type}.
Local Abbreviation prog := (task (op T E (DetachedOutcome T E))).
Local Abbreviation P := (gv_policy (rt_governor rt)).

(** The result of a job and of its last phase. *)
Definition job_result (context : string) (outcome : JobOutcome T E) (cleanup : GovernorError + ())
  : RunError E + T :=
  match outcome, cleanup with
  | _, inl error => governor_error error
  | JobReturned result, inr () => task_result result
  | JobPanicked, inr () => governor_error (GovernorError.WorkerPanicked context)
  end.

(** [run_detached_job]. *)
Definition run_detached_job (lease : ExecutionLease) (context : string)
    (response_by : option Instant) : prog () :=
  started_at ← call ONow;
  '(lease, result) ←
    (if has_passed started_at response_by
     then Ret (lease, governor_error GovernorError.DeadlineExceeded)
     else
       '(lease, running) ← advance lease Running;
       match running with
       | inl error => Ret (lease, governor_error error)
       | inr () =>
         _ ← call (OSendStarted started_at);
         outcome ← call ORunJob;
         '(lease, cleanup) ← advance lease CleanupPending;
         Ret (lease, job_result context outcome cleanup)
       end);
  completed_at ← call ONow;
  undelivered ← call (OSendDone (mkDetachedOutcome result started_at completed_at lease));
  drop_message undelivered.

(** A job its executor drops instead of running. *)
Definition discard_job (lease : ExecutionLease) : prog () :=
  _ ← drop_lease lease; call ODropSenders.

(** Whether the run budget was over when the job completed. *)
Definition run_expired (run_budget : option Duration) (outcome : DetachedOutcome T E) : bool :=
  has_passed (do_completed_at outcome)
    (budget ← run_budget; instant_add (do_started_at outcome) budget).

(** [await_detached]. *)
Definition await_detached (cancel : option CancellationToken) (run_budget : option Duration)
    (context : string) (response_by : option Instant) : prog (RunError E + T) :=
  selected ← guarded drop_receiver (call (OAwaitDone cancel response_by run_budget));
  match selected with
  | DoneCancelled => _ ← drop_receiver; Ret (governor_error GovernorError.Cancelled)
  | DoneResponseBy | DoneExpired =>
    _ ← drop_receiver; Ret (governor_error GovernorError.DeadlineExceeded)
  | DoneReceived (Some outcome) =>
    _ ← drop_lease (do_lease outcome);
    finalize_released_response
      (if run_expired run_budget outcome then governor_error GovernorError.DeadlineExceeded
       else do_result outcome) cancel response_by
  | DoneReceived None => Ret (governor_error (GovernorError.JobAbandoned context))
  end.

(** [run_blocking_on_pool]. *)
Definition run_blocking_on_pool (lease : ExecutionLease) (plan : ValidatedDispatchPlan)
    (response_by : option Instant) : prog (RunError E + T) :=
  advance_or_return lease Accepted (λ lease,
    _ ← call (OSpawn TokioBlockingPool lease);
    await_detached (vp_cancel plan) (run_budget plan) "blocking worker" response_by).

(** [worker_unavailable_v1]. *)
Definition worker_unavailable {A} (context error : string) : RunError E + A :=
  governor_error (GovernorError.WorkerUnavailable context error).

(** [run_blocking_on_dedicated_thread]. *)
Definition run_blocking_on_dedicated_thread (lease : ExecutionLease) (plan : ValidatedDispatchPlan)
    (response_by : option Instant) : prog (RunError E + T) :=
  advance_or_return lease Accepted (λ lease,
    spawned ← call (OSpawn DedicatedThread lease);
    match spawned with
    | SpawnRefused error => _ ← drop_lease lease; Ret (worker_unavailable "large-stack worker" error)
    | _ => await_detached (vp_cancel plan) (run_budget plan) "large-stack worker" response_by
    end).

(** The refusal of a response boundary next to a run deadline. *)
Definition boundary_conflict (opts : SubmitOptions) (response_by : option Instant) : bool :=
  bool_decide (is_Some response_by) && bool_decide (is_Some (so_deadline opts)).
Definition conflict_error {A} : RunError E + A :=
  governor_error (policy_violation "response boundary cannot be combined with a run deadline").

(** [run_blocking_with_response_boundary]. *)
Definition run_blocking_with_response_boundary (spec : TaskSpec) (opts : SubmitOptions)
    (response_by : option Instant) : prog (RunError E + T) :=
  match Build.plan rt spec opts RunBlocking with
  | inl error => Ret (governor_error error)
  | inr plan =>
    if boundary_conflict opts response_by then Ret conflict_error
    else
      lease ← acquire_execution_lease P (rt_cpu_capabilities rt) opts plan response_by;
      try lease (λ lease, unless_late lease response_by (λ lease,
        match vp_dispatch plan with
        | DispatchKind.DedicatedStackThread =>
          run_blocking_on_dedicated_thread lease plan response_by
        | _ => run_blocking_on_pool lease plan response_by
        end))
  end.

(** The rest of [run_cpu_with_response_boundary], once the lease is held. *)
Definition run_cpu_acquired (lease : ExecutionLease) (plan : ValidatedDispatchPlan)
    (response_by : option Instant) : prog (RunError E + T) :=
  advance_or_return lease Accepted (λ lease,
    spawned ← call (OSpawn CpuExecutorPort lease);
    match spawned with
    | SpawnPanicked =>
      _ ← drop_receiver; Ret (governor_error (GovernorError.WorkerPanicked "cpu executor spawn"))
    | _ => await_detached (vp_cancel plan) (run_budget plan) "cpu worker" response_by
    end).

(** [run_cpu_with_response_boundary]. *)
Definition run_cpu_with_response_boundary (spec : TaskSpec) (opts : SubmitOptions)
    (response_by : option Instant) : prog (RunError E + T) :=
  match Build.plan rt spec opts RunCpu with
  | inl error => Ret (governor_error error)
  | inr plan =>
    if boundary_conflict opts response_by then Ret conflict_error
    else
      lease ← acquire_execution_lease P (rt_cpu_capabilities rt) opts plan response_by;
      try lease (λ lease, unless_late lease response_by (λ lease,
        run_cpu_acquired lease plan response_by))
  end.

(** The public paths. *)
Definition run_blocking_with (spec : TaskSpec) (opts : SubmitOptions) : prog (RunError E + T) :=
  run_blocking_with_response_boundary spec opts None.
Definition run_blocking_response_by (spec : TaskSpec) (opts : SubmitOptions) (response_by : Instant)
  : prog (RunError E + T) := run_blocking_with_response_boundary spec opts (Some response_by).
Definition run_cpu_with (spec : TaskSpec) (opts : SubmitOptions) : prog (RunError E + T) :=
  run_cpu_with_response_boundary spec opts None.
Definition run_cpu_response_by (spec : TaskSpec) (opts : SubmitOptions) (response_by : Instant)
  : prog (RunError E + T) := run_cpu_with_response_boundary spec opts (Some response_by).
Definition run_blocking (spec : TaskSpec) : prog (RunError E + T) := run_blocking_with spec unbounded.
Definition run_cpu (spec : TaskSpec) : prog (RunError E + T) := run_cpu_with spec unbounded.
End detached.

(** ** Futures driven by a requested-stack worker *)

(** [requested_stack_thread_name_v1]: a bounded label of plain characters. *)
Definition MAX_THREAD_NAME_BYTES : N := 48.
Definition THREAD_NAME_PREFIX : string := "taskmesh.large_stack:".

(** The character a class character becomes: ASCII letters, digits and "._-" stay. *)
Definition label_char (ch : N) : Ascii.ascii :=
  if is_ascii_alphanumeric ch || bool_decide (ch ∈ [46; 95; 45]) then Ascii.ascii_of_N ch
  else Ascii.ascii_of_N 95.

Fixpoint push_label (name : string) (class : list N) : string :=
  match class with
  | [] => name
  | ch :: class =>
    if decide (MAX_THREAD_NAME_BYTES ≤ str_len name) then name
    else push_label (name +:+ String (label_char ch) "") class
  end.

Definition requested_stack_thread_name (spec : TaskSpec) : string :=
  push_label THREAD_NAME_PREFIX (chars (ts_class spec)).

Section requested_stack.
Context (rt : TokioRuntime) {T E : Type}.
Local Abbreviation prog := (task (op T E (AsyncThreadOutcome T E))).
Local Abbreviation P := (gv_policy (rt_governor rt)).

Definition REQUESTED_STACK_CONTEXT : string := "requested-stack async worker".

(** [tx.take().map(|tx| tx.send(..))]. *)
Definition reply (m : AsyncThreadOutcome T E) : prog () :=
  undelivered ← call (OSendDone m); drop_message undelivered.

(** [runtime.block_on]: the select of [closed] and [run_cancellable]; [None] when it
    panicked. *)
Definition block_on (cancel : option CancellationToken) (deadline : option SubmissionDeadline)
  : prog (option (RunError E + T)) :=
  closed ← call OReceiverClosed;
  if closed : bool then Ret (Some (governor_error GovernorError.Cancelled))
  else
    at_ ← completion_deadline deadline;
    match at_ with
    | inl error => Ret (Some (inl error))
    | inr at_ =>
      x ← call (OBlockOn cancel at_);
      Ret (match x with
           | BlockPanicked => None
           | BlockClosed => Some (governor_error GovernorError.Cancelled)
           | BlockWork x => Some (work_outcome at_ x)
           end)
    end.

(** A worker that replied before its runtime is torn down. *)
Definition terminate (error : RunError E) (used : bool) (lease : ExecutionLease) : prog () :=
  _ ← reply (AsyncTerminated error);
  _ ← call (ODropRuntime used);
  drop_lease lease.

(** Whether a result is the caller's answer before teardown. *)
Definition terminal_result (result : RunError E + T) : option (RunError E) :=
  match result with
  | inl (RunError.Governor GovernorError.Cancelled as error)
  | inl (RunError.Governor GovernorError.DeadlineExceeded as error) => Some error
  | _ => None
  end.

(** The body of the thread [run_async_with_requested_stack_v1] spawns. *)
Definition requested_stack_worker (cancel : option CancellationToken)
    (deadline : option SubmissionDeadline) (lease : ExecutionLease) : prog () :=
  built ← call OBuildRuntime;
  match built with
  | Some detail =>
    _ ← reply (AsyncTerminated (RunError.Governor
          (GovernorError.WorkerUnavailable REQUESTED_STACK_CONTEXT detail)));
    drop_lease lease
  | None =>
    '(lease, running) ← advance lease Running;
    match running with
    | inl error => terminate (RunError.Governor error) false lease
    | inr () =>
      outcome ← block_on cancel deadline;
      match outcome with
      | None =>
        terminate (RunError.Governor (GovernorError.WorkerPanicked REQUESTED_STACK_CONTEXT)) true lease
      | Some result =>
        '(lease, cleanup) ← advance lease CleanupPending;
        match cleanup with
        | inl error => terminate (RunError.Governor error) true lease
        | inr () =>
          match terminal_result result with
          | Some error => terminate error true lease
          | None =>
            _ ← call (ODropRuntime true);
            reply (AsyncCompleted result lease)
          end
        end
      end
    end
  end.

(** The caller's half of [run_async_with_requested_stack_v1]. *)
Definition run_async_with_requested_stack_v1 (plan : ValidatedDispatchPlan) (lease : ExecutionLease)
  : prog (RunError E + T) :=
  advance_or_return lease Accepted (λ lease,
    spawned ← call (OSpawn DedicatedThread lease);
    match spawned with
    | SpawnRefused error =>
      _ ← drop_lease lease; Ret (worker_unavailable REQUESTED_STACK_CONTEXT error)
    | _ =>
      received ← guarded drop_receiver
                   (call (OAwaitDone (vp_cancel plan) (absolute_deadline plan) None));
      match received with
      | DoneCancelled => _ ← drop_receiver; Ret (governor_error GovernorError.Cancelled)
      | DoneResponseBy | DoneExpired =>
        _ ← drop_receiver; Ret (governor_error GovernorError.DeadlineExceeded)
      | DoneReceived (Some (AsyncCompleted result lease)) =>
        _ ← drop_lease lease;
        finalize_released_response result (vp_cancel plan) (absolute_deadline plan)
      | DoneReceived (Some (AsyncTerminated error)) => Ret (inl error)
      | DoneReceived None => Ret (governor_error (GovernorError.JobAbandoned REQUESTED_STACK_CONTEXT))
      end
    end).

(** [run_async_with_requested_stack_with]. *)
Definition run_async_with_requested_stack_with (spec : TaskSpec) (opts : SubmitOptions)
  : prog (RunError E + T) :=
  match Build.plan rt spec opts RunRequestedStack with
  | inl error => Ret (governor_error error)
  | inr plan =>
    lease ← acquire_execution_lease P (rt_cpu_capabilities rt) opts plan None;
    try lease (λ lease, run_async_with_requested_stack_v1 plan lease)
  end.

Definition run_async_with_requested_stack (spec : TaskSpec) : prog (RunError E + T) :=
  run_async_with_requested_stack_with spec unbounded.
End requested_stack.

(** ** Thread names *)

Local Open Scope string_scope.
Local Open Scope N_scope.

(** A byte every platform takes in a thread name: a letter, a digit or one of "._-". *)
Definition plain_byte (a : Ascii.ascii) : bool :=
  is_ascii_alphanumeric (byte_of a) || bool_decide (byte_of a ∈ [46; 95; 45]).

Lemma label_char_plain ch : plain_byte (label_char ch) = true.
Proof.
  unfold label_char. destruct (is_ascii_alphanumeric ch || bool_decide (ch ∈ [46; 95; 45])) eqn:E; [|done].
  assert (ch < 256) as Hlt.
  { apply orb_true_iff in E as [E|E%bool_decide_eq_true].
    - unfold is_ascii_alphanumeric in E. repeat (apply orb_true_iff in E as [E|E] || apply andb_true_iff in E as [? E]
        || apply bool_decide_eq_true in E); lia.
    - repeat (apply elem_of_cons in E as [->|E]; [lia|]). by apply elem_of_nil in E. }
  unfold plain_byte, byte_of. by rewrite Ascii.N_ascii_embedding.
Qed.

Lemma str_len_app s s' : str_len (s +:+ s') = str_len s + str_len s'.
Proof.
  unfold str_len. induction s as [|a s IH]; cbn [String.app String.length]; [done|].
  change (String.length (String a s +:+ s')) with (S (String.length (s +:+ s'))). lia.
Qed.

Lemma app_empty s : s +:+ "" = s.
Proof. induction s as [|a s IH]; [done|]. change (String a (s +:+ "") = String a s). by rewrite IH. Qed.

Lemma app_snoc s a s' : s +:+ String a s' = (s +:+ String a "") +:+ s'.
Proof.
  induction s as [|b s IH]; [done|].
  change (String b (s +:+ String a s') = String b ((s +:+ String a "") +:+ s')). by rewrite IH.
Qed.

(** The label grows by one plain byte per character, up to its bound. *)
Lemma push_label_spec class name :
  str_len name ≤ MAX_THREAD_NAME_BYTES →
  ∃ suffix, push_label name class = name +:+ suffix ∧
    str_len name + str_len suffix = N.min MAX_THREAD_NAME_BYTES (str_len name + N.of_nat (length class)) ∧
    Forall (λ a, plain_byte a = true) (String.list_ascii_of_string suffix).
Proof.
  revert name. induction class as [|ch class IH]; intros name Hn; cbn [push_label length].
  - exists "". split_and!; [by rewrite app_empty|change (str_len "") with 0; lia|constructor].
  - case_decide as Hd.
    + exists "". split_and!; [by rewrite app_empty|change (str_len "") with 0; lia|constructor].
    + assert (str_len (name +:+ String (label_char ch) "") = str_len name + 1) as E
        by (rewrite str_len_app; done).
      destruct (IH (name +:+ String (label_char ch) "")) as (suffix & Es & Hl & Hp); [lia|].
      exists (String (label_char ch) suffix). split_and!.
      * by rewrite Es, <-app_snoc.
      * assert (str_len (String (label_char ch) suffix) = str_len suffix + 1) as -> by (unfold str_len; cbn; lia).
        lia.
      * constructor; [apply label_char_plain|done].
Qed.

(** A dedicated worker's thread name can always be built.  Whatever the class is
    called, the name is the fixed prefix and at most 27 letters, digits or "._-", one
    per character of the class name: never longer than 48 bytes, and without the NUL
    that would make [thread::Builder] panic outside the worker's unwind boundary. *)
Theorem thread_name_safe spec :
  ∃ label, requested_stack_thread_name spec = THREAD_NAME_PREFIX +:+ label ∧
    str_len label = N.min 27 (N.of_nat (length (chars (ts_class spec)))) ∧
    str_len (requested_stack_thread_name spec) ≤ MAX_THREAD_NAME_BYTES ∧
    Forall (λ a, plain_byte a = true) (String.list_ascii_of_string label).
Proof.
  destruct (push_label_spec (chars (ts_class spec)) THREAD_NAME_PREFIX) as (label & E & Hl & Hp); [by vm_compute|].
  unfold requested_stack_thread_name. exists label. rewrite E, str_len_app.
  change (str_len THREAD_NAME_PREFIX) with 21 in *. change MAX_THREAD_NAME_BYTES with 48 in *.
  split_and!; [done|lia|lia|done].
Qed.
