(* ===== verification/Paths.v ===== *)
(** * What a submission path leaves behind

    crates/taskmesh/src/runtime.rs: the pieces every run path is made of, in any
    thread; and the paths that poll the caller's own future.  Work is polled only under
    a lease, and however a path ends nothing is left of its permit. *)

From S2P Require Import Prelude Contract Text Validation Topology Kernel Errors Arbiter Executors.
From S2P Require Import PolicyCheck Requirements State Assess Admission Memory Observe Governor.
From S2P Require Import Policies Plan Build Builds Books Custody Ledger Invariant Sections Trace.
From S2P Require Import System Runs Fates Grips Contracts Owned Watched Tasks Host Acquire HostRuns.
From S2P Require Import Holding Acquired Submit.

Section pieces.
Context (P : PolicySet) (authority : N) (Htyped : policies_typed P) (Hwf : policy_wf P).
Context (caps : CapabilityRequirementSet).
Context {T E M : Type} `{!Carries M}.
Local Abbreviation prog := (task (op T E M)).
Context (rely guarantee : relation (Host M)) (F : Host M → Prop).
Context (Hframe : frame P authority rely guarantee F).
#[local] Instance rely_pre_paths : PreOrder rely := fr_preorder _ _ _ _ _ Hframe.
Local Abbreviation wp := (wp (acts P authority (T:=T) (E:=E)) suspends (demands P authority caps) rely guarantee).
Local Abbreviation tied := (tied P authority F).
Implicit Types (D : Host M → Prop) (σ : Host M).
Local Abbreviation wp_ret := (Holding.wp_ret P authority caps rely guarantee F Hframe).
Local Abbreviation wp_read := (Holding.wp_read P authority caps rely guarantee F Hframe).
Local Abbreviation wp_then := (Holding.wp_then P authority caps rely guarantee F Hframe).
Local Abbreviation wp_drop_lease :=
  (Holding.wp_drop_lease P authority Htyped Hwf caps rely guarantee F Hframe).
Local Abbreviation wp_advance := (Holding.wp_advance P authority Htyped caps rely guarantee F Hframe).
Local Abbreviation tied_rely := (Holding.tied_rely P authority rely guarantee F Hframe).

(** ** Reading the clock and the token *)

Lemma wp_cancelled_now K `{HL : !Lasting P authority K} cancel D σ :
  tied K σ → wp (cancelled_now cancel) (λ _, tied K) D σ.
Proof.
  intros H. destruct cancel as [token|]; cbn [cancelled_now]; [|by eapply (wp_ret K)].
  eapply (wp_read K); [done..|by intros ??? [_ ->]|done|]. intros x σ1 _ _ H1. by eapply (wp_ret K).
Qed.

Lemma wp_passed_now K `{HL : !Lasting P authority K} deadline D σ :
  tied K σ → wp (passed_now deadline) (λ _, tied K) D σ.
Proof.
  intros H. destruct deadline as [at_|]; cbn [passed_now]; [|by eapply (wp_ret K)].
  eapply (wp_read K); [done..|by intros ??? [_ ->]|done|]. intros x σ1 _ _ H1. by eapply (wp_ret K).
Qed.

(** The answer of a released execution is its result, or a governor error. *)
Lemma wp_finalize K `{HL : !Lasting P authority K} result cancel response_by D σ :
  tied K σ → wp (finalize_released_response result cancel response_by) (λ _, tied K) D σ.
Proof.
  intros H. unfold finalize_released_response.
  eapply wp_then; [by apply (wp_cancelled_now K)|]. cbn beta. intros [] σ1 H1; [by eapply (wp_ret K)|].
  eapply wp_then; [by apply (wp_passed_now K)|]. cbn beta. intros late σ2 H2. by eapply (wp_ret K).
Qed.

Lemma wp_completion_deadline K `{HL : !Lasting P authority K} deadline D σ :
  tied K σ → wp (completion_deadline deadline) (λ _, tied K) D σ.
Proof.
  intros H. destruct deadline as [[budget|at_]|]; cbn [completion_deadline]; try by eapply (wp_ret K).
  eapply (wp_read K); [done..|by intros ??? [_ ->]|done|]. intros x σ1 _ _ H1. by eapply (wp_ret K).
Qed.

(** ** Working under a lease *)

(** A lease that was dispatched. *)
Definition dispatched (l : ExecutionLease) : Prop := ∃ token, el_custody l = LeaseCustody.Leased token.

#[local] Instance lease_lasting l : Lasting P authority (lease_fact caps l).
Proof. unfold lease_fact. destruct (el_custody l); apply _. Qed.

Lemma dispatched_covered l σ : dispatched l → tied (lease_fact caps l) σ → covered caps σ.
Proof.
  intros [token El] (_ & _ & HK). unfold lease_fact in HK. rewrite El in HK.
  destruct HK as (ids & Eo & _ & Hl). by exists (lease_token_nonce token), ids.
Qed.

(** Polling the future: cancelled, timed out, ready, or dropped there. *)
Lemma wp_run_cancellable l token deadline D σ :
  dispatched l → (∀ σ, tied (lease_fact caps l) σ → D σ) → tied (lease_fact caps l) σ →
  wp (run_cancellable token deadline) (λ _, tied (lease_fact caps l)) D σ.
Proof.
  intros Hl HD H. unfold run_cancellable.
  eapply wp_then; [by apply (wp_completion_deadline (lease_fact caps l))|]. cbn beta.
  intros [e|at_] σ1 H1; cbn [try]; [by eapply (wp_ret (lease_fact caps l))|].
  intros σ2 Hr. assert (tied (lease_fact caps l) σ2) as H2 by (by apply (tied_rely (lease_fact caps l) σ1)).
  split; [split; [done|exact (dispatched_covered l σ2 Hl H2)]|]. split; [auto|]. intros x σ3 [_ ->].
  split; [apply Hframe, H2|]. by eapply (wp_ret (lease_fact caps l)).
Qed.

(** Declaring a phase, or leaving with nothing. *)
Lemma wp_advance_or_return l phase k (Q : RunError E + T → Host M → Prop) D σ :
  phase ≠ DispatchReserved → tied (lease_fact caps l) σ →
  (∀ e σ, tied (of_own own_gone) σ → Q (governor_error e) σ) →
  (∀ l' σ, dispatched l' → tied (lease_fact caps l') σ → wp (k l') Q D σ) →
  wp (advance_or_return l phase k) Q D σ.
Proof.
  intros Hph H HQ Hk. unfold advance_or_return. eapply wp_then; [by apply wp_advance|]. cbn beta.
  intros [l' x] σ1 (H1 & H2 & _). cbn in *. destruct x as [e|[]]; [|by apply Hk; [apply H2|]].
  eapply wp_then; [by apply wp_drop_lease|]. cbn beta. intros _ σ2 H3.
  eapply (wp_ret (of_own own_gone)); [done|]. apply HQ.
Qed.

Lemma wp_unless_late l response_by k (Q : RunError E + T → Host M → Prop) D σ :
  tied (lease_fact caps l) σ →
  (∀ e σ, tied (of_own own_gone) σ → Q (governor_error e) σ) →
  (∀ σ, tied (lease_fact caps l) σ → wp (k l) Q D σ) →
  wp (unless_late l response_by k) Q D σ.
Proof.
  intros H HQ Hk. unfold unless_late.
  eapply wp_then; [by apply (wp_passed_now (lease_fact caps l))|]. cbn beta. intros [] σ1 H1; [|by apply Hk].
  eapply wp_then; [by apply wp_drop_lease|]. cbn beta. intros _ σ2 H2.
  eapply (wp_ret (of_own own_gone)); [done|]. apply HQ.
Qed.

(** ** Futures polled by the caller *)

(** The guarded run of both polled paths: whatever happens, the lease is dropped. *)
Lemma wp_polled l plan D σ :
  (∀ σ, tied (of_own own_gone) σ → D σ) → dispatched l → tied (lease_fact caps l) σ →
  wp (result ← guarded (drop_lease l) (run_cancellable (vp_cancel plan) (vp_deadline plan));
      _ ← drop_lease l;
      finalize_released_response result (vp_cancel plan) (absolute_deadline plan))
    (λ _, tied (of_own own_gone)) D σ.
Proof.
  intros HD Hl H. apply (wp_then _ _ (λ _, tied (lease_fact caps l))).
  - apply (wp_scope _ _ _ _ _). eapply wp_mono; [| |apply (wp_run_cancellable l); [done| |done]].
    + intros r σ1 H1. by eapply (wp_ret (lease_fact caps l)).
    + intros σ1 H1. exact H1.
    + intros σ1 H1. cbn beta. eapply wp_mono; [| |by apply (wp_drop_lease l (λ _, False))]; [|done].
      intros [] σ2 H2. by apply HD.
  - cbn beta. intros r σ1 H1. eapply wp_then; [by apply wp_drop_lease|]. cbn beta. intros _ σ2 H2.
    by apply (wp_finalize (of_own own_gone)).
Qed.

Lemma wp_run_io_acquired l plan D σ :
  (∀ σ, tied (of_own own_gone) σ → D σ) → tied (lease_fact caps l) σ →
  wp (run_io_acquired l plan) (λ _, tied (of_own own_gone)) D σ.
Proof. intros HD H. apply wp_advance_or_return; [done..|]. intros. by apply wp_polled. Qed.
End pieces.

(** ** Whole paths *)

(** The requirement set of a plan is one the registry built. *)
Lemma plan_pools rt spec opts path plan :
  Build.plan rt spec opts path = inr plan → ∃ pools, from_resolved pools = inr (vp_requirements plan).
Proof.
  unfold Build.plan. destruct (ec_physical_domain _); [|done].
  intros H. apply preflight_inr in H as (_ & _ & _ & _ & (pools & _ & Hf) & _). by exists pools.
Qed.

Section whole.
Context (rt : TokioRuntime).
Local Abbreviation P := (gv_policy (rt_governor rt)).
Local Abbreviation authority := (gv_authority (rt_governor rt)).
Context (Htyped : policies_typed P) (Hwf : policy_wf P).
Context (spec : TaskSpec) (opts : SubmitOptions) (path : RunPath).
Context {T E M : Type}.
Context (rely guarantee : relation (Host M)) (F : Host M → Prop).
Context (Hframe : frame P authority rely guarantee F) (Hissue : issues guarantee F).
Context (Hwatch : watches rely F).
Implicit Types (D : Host M → Prop) (σ : Host M).
Local Abbreviation tied := (tied P authority F).

(** What a path may demand: what its plan charges. *)
Definition path_caps : CapabilityRequirementSet :=
  match Build.plan rt spec opts path with inr plan => vp_requirements plan | inl _ => [] end.
Definition path_demands : ∀ X, op T E M X → Host M → Prop := demands P authority path_caps.

Local Abbreviation wp := (wp (acts P authority (T:=T) (E:=E)) suspends path_demands rely guarantee).

(** Acquisition first, then the rest of the path. *)
Lemma wp_acquired plan response_by (k : ExecutionLease → task (op T E M) (RunError E + T)) Q D σ :
  Build.plan rt spec opts path = inr plan →
  (∀ σ, tied clear σ → D σ) →
  (∀ e σ, RunError.is_governor e = true → tied clear σ → Q (inl e) σ) →
  (∀ l σ, tied (lease_fact (vp_requirements plan) l) σ → wp (k l) Q D σ) →
  tied issued_none σ →
  wp (lease ← acquire_execution_lease P (rt_cpu_capabilities rt) opts plan response_by; try lease k) Q D σ.
Proof.
  intros Hplan HD HQ Hk H. destruct (plan_pools _ _ _ _ _ Hplan) as [pools Hpools].
  unfold path_demands, path_caps in Hk |- *. rewrite Hplan in Hk. rewrite Hplan.
  eapply (Holding.wp_then P authority (vp_requirements plan) rely guarantee F Hframe).
  - by apply (wp_acquire_execution_lease P authority Htyped Hwf (vp_requirements plan) rely guarantee F
      Hframe Hwatch Hissue pools).
  - cbn beta. intros [e|l] σ1 H1; cbn [try].
    + eapply (Holding.wp_ret P authority (vp_requirements plan) rely guarantee F Hframe clear); [apply H1|].
      intros σ2. by apply HQ, H1.
    + apply Hk, H1.
Qed.

Lemma wp_polled_path plan D σ :
  Build.plan rt spec opts path = inr plan → (∀ σ, tied clear σ → D σ) → tied issued_none σ →
  wp (lease ← acquire_execution_lease P (rt_cpu_capabilities rt) opts plan None;
      try lease (λ lease, run_io_acquired lease plan)) (λ _, tied clear) D σ.
Proof.
  intros Hplan HD. apply wp_acquired; [done|done|by intros|]. intros l σ1 H1.
  unfold path_demands, path_caps. rewrite Hplan. eapply wp_mono; [| |apply (wp_run_io_acquired P authority Htyped Hwf
    (vp_requirements plan) rely guarantee F Hframe l plan D)]; [|done| |exact H1].
  - intros r σ2. apply tied_mono. by right.
  - intros σ2 H2. apply HD. eapply tied_mono; [|exact H2]. by right.
Qed.
End whole.

(** The paths that poll the caller's own future. *)
Definition run_polled (rt : TokioRuntime) {T E M : Type} (local : bool) (spec : TaskSpec)
    (opts : SubmitOptions) : task (op T E M) (RunError E + T) :=
  if local then run_local_with rt spec opts else run_io_with rt spec opts.
Definition polled_path (local : bool) : RunPath := if local then RunLocal else RunIo.

Section alone.
Context (P : PolicySet) (authority : N) {M : Type}.

(** A thread with nobody but the other callers around it. *)
Lemma frame_alone :
  frame (M:=M) P authority (rtc (interferes P authority)) (λ _ _, True) (λ _, True).
Proof.
  split; [apply _| |done..].
  intros σ σ' Hr _. split; [done|].
  induction Hr as [σ|σ σ1 σ' Hi _ [IHo IHw]]; [done|].
  assert (h_own σ1 = h_own σ ∧ rtc (foreign P authority (h_own σ)) (h_world σ) (h_world σ1)) as [Eo Hf].
  { destruct Hi as [a e w' σ Hroom Hs Hn| | |]; [|done..]. split; [done|]. apply rtc_once.
    split; [done|]. by exists a, e. }
  rewrite Eo in *. split; [done|]. by etransitivity.
Qed.

Lemma issues_alone : issues (M:=M) (λ _ _, True) (λ _, True).
Proof. by intros own w σ _ _. Qed.

Lemma watches_alone : watches (M:=M) (rtc (interferes P authority)) (λ _, True).
Proof.
  intros waker σ σ' Hr _. induction Hr as [|σ σ1 σ' Hi _ IH]; [done|]. intros Ha.
  by apply IH, (interferes_awake P authority _ σ).
Qed.

Definition alone (K : Fact) (σ : Host M) : Prop := tied P authority (λ _, True) K σ.

Lemma alone_stable K `{HL : !Lasting P authority K} σ σ' :
  interferes P authority σ σ' → alone K σ → alone K σ'.
Proof. intros Hi. apply (Holding.tied_rely P authority _ _ _ frame_alone K). by apply rtc_once. Qed.
End alone.

(** What every point of an acquisition's run, and its end, satisfy. *)
Lemma acquire_runs P authority plan pools arbiter {T E M : Type} (σ : Host M) :
  policies_typed P → policy_wf P → from_resolved pools = inr (vp_requirements plan) →
  reachable P authority (h_world σ) → h_own σ = None →
  Tasks.wp (acts P authority (T:=T) (E:=E)) suspends (demands P authority (vp_requirements plan))
    (rtc (interferes P authority)) (λ _ _, True) (acquire P plan arbiter)
    (answer P authority (vp_requirements plan) (λ _, True) clear) (alone P authority clear) σ.
Proof.
  intros Htyped Hwf Hpools Hw Ho.
  by apply (wp_acquire P authority Htyped Hwf _ _ _ _ (frame_alone P authority)
    (watches_alone P authority) issues_alone pools Hpools).
Qed.

(** C11: Acquisition leaks nothing.  Run among any other callers of the governor, and
    whether it returns or is dropped where it waits: what it hands out is the
    submission's own permit, granted, undispatched, charging exactly the pools of the
    plan; with an error, or dropped, nothing of the submission is left in the governor,
    neither a live permit nor a place in a queue nor a ticket. *)
Theorem acquire_settles P authority plan pools arbiter {T E M : Type} (σ σ' : Host M) out :
  policies_typed P → policy_wf P → from_resolved pools = inr (vp_requirements plan) →
  reachable P authority (h_world σ) → h_own σ = None →
  ends (acts P authority) suspends (interferes P authority)
    (acquire P plan arbiter : task (op T E M) (GovernorError + PermitId)) σ out σ' →
  reachable P authority (h_world σ') ∧
  match out with
  | Some (inr pid) =>
    ∃ ids, h_own σ' = Some ids ∧ pid = id_permit ids ∧
      own_granted ids (vp_requirements plan) (h_world σ')
  | _ => clear (h_own σ') (h_world σ')
  end.
Proof.
  intros Htyped Hwf Hpools Hw Ho He.
  pose proof (acquire_runs (T:=T) (E:=E) P authority plan pools arbiter σ Htyped Hwf Hpools Hw Ho) as Hwp.
  eapply (wp_ends _ _ _ (interferes P authority) (λ _ _, True)) in Hwp;
    [|intros σ1 σ2; by apply (alone_stable P authority clear)|exact He].
  destruct out as [[e|pid]|]; destruct Hwp as (_ & ? & HK); split; done.
Qed.

(** The notifier a task is parked on, if it is parked. *)
Definition parks_on {T E M} {X} (o : op T E M X) : option Waker :=
  match o with OPark _ waker _ => Some waker | _ => None end.
Fixpoint parked {T E M A} (p : task (op T E M) A) : option Waker :=
  match p with
  | Call o _ => parks_on o
  | Scope m _ _ => parked m
  | Ret _ | Loop _ _ _ => None
  end.

Lemma demanded_parked P authority {T E M A} caps (p : task (op T E M) A) (σ : Host M) waker :
  parked p = Some waker → demanded (demands P authority caps) p σ → awake waker σ.
Proof.
  induction p as [A a|A X o k IH|A I R body IHb i k IHk|A B m IHm c IHc k IHk]; cbn; try done.
  destruct o; try done. by intros [= <-] [_ ?].
Qed.

(** C12: An acquisition neither spins, nor gets stuck, nor sleeps through anything.  At
    any point of its run among any other callers: were the others to pause, it would
    stop after finitely many steps of its own; and it stops only when it has returned,
    when the live permits have come to 2^32, or parked on its notifier, neither
    cancelled nor late, while its request is still in the queue under that very notifier
    or a critical section of another caller, still under way, took it out and owes the
    notification.  Whatever ends the wait, promotion, a wait cycle or an accounting
    fault, nobody needs to poll. *)
Theorem acquire_wakes P authority plan pools arbiter {T E M : Type} (σ σ' : Host M) q :
  policies_typed P → policy_wf P → from_resolved pools = inr (vp_requirements plan) →
  reachable P authority (h_world σ) → h_own σ = None →
  rtc (moves (acts P authority) (interferes P authority))
    (acquire P plan arbiter : task (op T E M) (GovernorError + PermitId), σ) (q, σ') →
  lively (acts P authority) may_wait q σ' ∧
  ∀ waker, parked q = Some waker → ∃ ids, h_own σ' = Some ids ∧
    (queued_under ids waker (h_state σ') ∨ waker ∈ h_notified σ' ∨ waker ∈ h_owed σ').
Proof.
  intros Htyped Hwf Hpools Hw Ho Hr.
  pose proof (acquire_runs (T:=T) (E:=E) P authority plan pools arbiter σ Htyped Hwf Hpools Hw Ho) as Hwp.
  assert (∀ σ1 σ2 : Host M, interferes P authority σ1 σ2 → alone P authority clear σ1 →
    alone P authority clear σ2) as Hst by (intros σ1 σ2; by apply (alone_stable P authority clear)).
  split.
  - eapply (wp_runs_lively _ suspends _ (interferes P authority) (λ _ _, True));
      [exact Hst|intros X o; apply demands_may_wait|exact Hr|exact Hwp].
  - intros waker Hp. eapply (demanded_parked P authority); [exact Hp|].
    by eapply (wp_runs_demanded _ suspends _ (interferes P authority) (λ _ _, True)).
Qed.

(** The two kinds of plan a future can be polled under. *)
Lemma run_polled_plan rt local spec opts {T E M : Type} :
  (run_polled rt local spec opts : task (op T E M) (RunError E + T)) =
  match Build.plan rt spec opts (polled_path local) with
  | inl error => Ret (governor_error error)
  | inr plan =>
    lease ← acquire_execution_lease (gv_policy (rt_governor rt)) (rt_cpu_capabilities rt) opts plan None;
    try lease (λ lease, run_io_acquired lease plan)
  end.
Proof. by destruct local. Qed.

(** C7: A polled future ([run_io], [run_local]) is governed from end to end.  Whatever
    the other callers do, and whether the call returns or is dropped where it waits,
    nothing of the submission is left in the governor when it ends; the future is
    polled only while the submission's own permit is live, dispatched under a lease,
    charging exactly the pools of its plan; and at every point the call, left alone, ends
    or comes to a place where it may wait: parked with its wake-up still to come, or
    polling the future, in both cases neither cancelled nor late. *)
Theorem polled_settles rt local spec opts {T E M : Type} (σ σ' : Host M) out :
  let P := gv_policy (rt_governor rt) in let authority := gv_authority (rt_governor rt) in
  policies_typed P → policy_wf P → reachable P authority (h_world σ) → h_own σ = None →
  let run := (run_polled rt local spec opts : task (op T E M) (RunError E + T)) in
  (ends (acts P authority) suspends (interferes P authority) run σ out σ' →
   reachable P authority (h_world σ') ∧ clear (h_own σ') (h_world σ')) ∧
  (∀ q σ1, rtc (moves (acts P authority) (interferes P authority)) (run, σ) (q, σ1) →
   demanded (path_demands rt spec opts (polled_path local)) q σ1 ∧
   lively (acts P authority) may_wait q σ1).
Proof.
  intros P authority Htyped Hwf Hw Ho run.
  assert (Tasks.wp (acts P authority (T:=T) (E:=E)) suspends (path_demands rt spec opts (polled_path local))
    (rtc (interferes P authority)) (λ _ _, True) run (λ _, alone P authority clear)
    (alone P authority clear) σ) as Hwp.
  { unfold run. rewrite run_polled_plan. destruct (Build.plan _ _ _ _) as [e|plan] eqn:Hplan.
    - intros σ1 Hr. apply (Holding.tied_rely P authority _ _ _ (frame_alone P authority) clear _ _ Hr).
      split_and!; [done..|by left].
    - by apply (wp_polled_path rt Htyped Hwf spec opts (polled_path local) _ _ _
        (frame_alone P authority) issues_alone (watches_alone P authority)). }
  assert (∀ σ1 σ2 : Host M, interferes P authority σ1 σ2 → alone P authority clear σ1 →
    alone P authority clear σ2) as Hst by (intros σ1 σ2; by apply (alone_stable P authority clear)).
  split.
  - intros He. eapply (wp_ends _ _ _ (interferes P authority) (λ _ _, True)) in Hwp; [|exact Hst|exact He].
    destruct out; by destruct Hwp as (_ & ? & ?).
  - intros q σ1 Hr. split; [by eapply (wp_runs_demanded _ suspends _ (interferes P authority) (λ _ _, True))|].
    eapply (wp_runs_lively _ suspends _ (interferes P authority) (λ _ _, True));
      [exact Hst|intros X o; apply demands_may_wait|exact Hr|exact Hwp].
Qed.

(** ** A run *)

Section demo.
Local Open Scope string_scope.

(** A runtime over one unit of CPU, in a world where one request runs and one waits. *)
Definition demo_runtime : TokioRuntime := {|
  rt_config := mkRuntimeConfig TopologyConfig_new ResourceBudget_new
    {["ingest" := demo_class 1; "query" := demo_class 2]} [];
  rt_governor := mkGovernor 1 demo_policy Counters_initial GovernedState_default;
  rt_cpu_capabilities := mkExecutor true (Some 1) true (Some "cpu") false;
|}.
Definition demo_host {M} (w : World) : Host M := mkHost w 0 ∅ ∅ [] None NoWorker None ChannelOpen.
Definition demo_io : TaskSpec := with_operation "io" (task_base "query" AsyncIo).
Definition demo_plan : ValidatedDispatchPlan :=
  match Build.plan demo_runtime demo_io unbounded RunIo with
  | inr plan => plan
  | inl _ => mkPlan (mkValidated demo_io) [] DispatchKind.CallerFuture None None None
  end.


(** A run of the executable host is a run. *)
Lemma perform_ends {T E M A} answer fuel (p : task (op T E M) A) σ a :
  fst <$> execute (perform demo_policy 1 answer) fuel p σ = Some a →
  ∃ σ', ends (acts demo_policy 1) suspends (interferes demo_policy 1) p σ (Some a) σ'.
Proof.
  destruct (execute _ _ _ _) as [[a' σ']|] eqn:E'; [|done]. intros [= <-]. exists σ'.
  apply ends_returned. eapply execute_moves; [apply perform_acts|exact E'].
Qed.

Lemma acquire_settles_witness :
  ∃ (σ' : Host ()) ids,
    ends (acts demo_policy 1) suspends (interferes demo_policy 1)
      (acquire demo_policy demo_plan (mkArbiter None None Unbounded) : task (op N N ()) _)
      (demo_host World_initial) (Some (inr (mkPermitId 1 1))) σ' ∧
    h_own σ' = Some ids ∧ own_granted ids (vp_requirements demo_plan) (h_world σ').
Proof.
  destruct (perform_ends (T:=N) (E:=N) (M:=()) (inr 5) 1000
    (acquire demo_policy demo_plan (mkArbiter None None Unbounded)) (demo_host World_initial)
    (inr (mkPermitId 1 1))) as [σ' He]; [vm_compute; reflexivity|].
  destruct (plan_pools demo_runtime demo_io unbounded RunIo demo_plan) as [pools Hpools];
    [vm_compute; reflexivity|].
  destruct (acquire_settles demo_policy 1 demo_plan pools (mkArbiter None None Unbounded)
    (demo_host World_initial) σ' (Some (inr (mkPermitId 1 1))) demo_typed demo_wf Hpools
    (reachable_initial _ _) eq_refl He) as (_ & ids & Ho & _ & Hg).
  by exists σ', ids.
Defined.

(** The class is busy: the acquisition queues, and parks; the release of the permit
    before it takes its request out, and owes the notification. *)
Definition busy_host : Host () :=
  demo_host (default World_initial
    (run demo_policy 1 [LFresh; LAdmit 0 (demo_task "query" "a") None] World_initial)).
Definition parked_acquire : task (op N N ()) (GovernorError + PermitId) * Host () :=
  walk (perform demo_policy 1 (inr 5)) 100
    (acquire demo_policy demo_plan (mkArbiter None None Unbounded)) busy_host.
Definition after_release : option (TransitionEffects * Host ()) :=
  '(_, s, e) ← release_section demo_policy 1 (mkPermitId 1 1) None (h_state parked_acquire.2);
  Some (e, upd_owed (eff_wake e ++.) (upd_state s parked_acquire.2)).

Lemma busy_reachable : reachable demo_policy 1 (h_world busy_host).
Proof.
  apply (run_reachable demo_policy 1 [LFresh; LAdmit 0 (demo_task "query" "a") None] World_initial);
    [constructor|]. vm_compute. reflexivity.
Qed.

(** A release under another caller's identity is one of the others' actions. *)
Lemma release_interferes {M} P authority sampled pid s e out (σ : Host M) :
  spacious σ → (∀ ids, h_own σ = Some ids → pid ≠ id_permit ids) →
  release_section P sampled pid None (h_state σ) = Some (out, s, e) →
  interferes P authority σ (upd_owed (eff_wake e ++.) (upd_state s σ)).
Proof. intros Hroom Hown Hrel. eapply others_act; [done|by eapply step_release|done]. Qed.

Lemma after_release_runs :
  match after_release with
  | Some (e, σ) =>
    rtc (moves (acts demo_policy 1) (interferes demo_policy 1))
      (acquire demo_policy demo_plan (mkArbiter None None Unbounded), busy_host)
      (parked_acquire.1, σ)
  | None => False
  end.
Proof.
  unfold after_release.
  destruct (release_section _ _ _ _ _) as [[[out s] e]|] eqn:Hrel.
  - cbn [mbind option_bind]. etransitivity.
    + apply (walk_moves _ (interferes demo_policy 1) (perform demo_policy 1 (inr 5)) 100), perform_acts.
    + fold parked_acquire. destruct parked_acquire as [q σ] eqn:Eq. apply rtc_once, moves_env.
      eapply release_interferes; [| |exact Hrel].
      * replace σ with parked_acquire.2 by by rewrite Eq. vm_compute. discriminate.
      * intros ids. replace σ with parked_acquire.2 by by rewrite Eq. vm_compute. by intros [= <-].
  - enough (is_Some (release_section demo_policy 1 (mkPermitId 1 1) None (h_state parked_acquire.2)))
      as [? H] by congruence. vm_compute. by eexists.
Qed.

Lemma acquire_wakes_witness :
  match after_release with
  | Some (e, σ) =>
    ∃ ids, h_own σ = Some ids ∧
      (queued_under ids 0 (h_state σ) ∨ 0 ∈ h_notified σ ∨ 0 ∈ h_owed σ)
  | None => False
  end.
Proof.
  pose proof after_release_runs as H. destruct after_release as [[e σ]|]; [|exact H].
  destruct (plan_pools demo_runtime demo_io unbounded RunIo demo_plan) as [pools Hpools];
    [vm_compute; reflexivity|].
  apply (acquire_wakes (T:=N) (E:=N) demo_policy 1 demo_plan pools (mkArbiter None None Unbounded)
    busy_host σ parked_acquire.1 demo_typed demo_wf Hpools busy_reachable eq_refl H).
  vm_compute. reflexivity.
Defined.

Lemma polled_settles_witness :
  ∃ (σ' : Host ()),
    ends (acts demo_policy 1) suspends (interferes demo_policy 1)
      (run_polled demo_runtime false demo_io unbounded : task (op N N ()) _)
      (demo_host World_initial) (Some (inr 5)) σ' ∧
    clear (h_own σ') (h_world σ').
Proof.
  destruct (perform_ends (T:=N) (E:=N) (M:=()) (inr 5) 1000
    (run_polled demo_runtime false demo_io unbounded) (demo_host World_initial) (inr 5)) as [σ' He];
    [vm_compute; reflexivity|].
  destruct (polled_settles (T:=N) (E:=N) demo_runtime false demo_io unbounded (demo_host World_initial) σ'
    (Some (inr 5)) demo_typed demo_wf (reachable_initial _ _) eq_refl) as [Hends _].
  exists σ'. split; [exact He|]. exact (proj2 (Hends He)).
Defined.
End demo.
