(* ===== verification/Workers.v ===== *)
(** * Custody between a caller and its worker

    runtime/detached.rs, runtime/synchronous.rs and runtime.rs: who holds the lease of a
    detached job, and what each of the two threads promises the other while it moves
    from the caller into the executor, from the worker into the completion channel and
    back.  The proofs of Holding.v and Acquired.v apply to a thread wherever it holds
    the lease. *)

From S2P Require Import Prelude Contract Text Validation Kernel Errors Arbiter Executors.
From S2P Require Import PolicyCheck Requirements State Assess Admission Memory Observe Governor.
From S2P Require Import Policies Plan Build Builds Books Custody Ledger Invariant Sections Trace.
From S2P Require Import System Runs Fates Grips Contracts Owned Tasks Host Acquire Holding Acquired.
From S2P Require Import Threads Submit Paths.

(** ** Who holds the lease *)

Inductive Holder := ByCaller | ByWorker | InChannel.

Section custody.
Context (P : PolicySet) (authority : N) (Htyped : policies_typed P).
Context (caps : CapabilityRequirementSet).
Context {T E M : Type} `{!Carries M}.
(** A message without a lease says nothing but a governor's error. *)
Context (silent : M → Prop).
Implicit Types (σ : Host M) (m : M) (l : ExecutionLease).

Definition holder σ : Holder :=
  match h_worker σ, h_done σ with
  | NoWorker, _ => ByCaller
  | _, ChannelTaken m => match carried m with Some _ => ByCaller | None => ByWorker end
  | _, ChannelSent m => match carried m with Some _ => InChannel | None => ByWorker end
  | _, _ => ByWorker
  end.

(** A lease that is good where it lies: the submission's facts hold of it. *)
Definition good l σ : Prop :=
  reachable P authority (h_world σ) ∧ lease_fact caps l (h_own σ) (h_world σ).

(** ** What each thread may do *)

(** The caller: anything of its own before the job is handed over and after the lease
    came back; handing the job over; taking the message, or going away. *)
Inductive caller_moves : relation (Host M) :=
  | c_own own w σ : holder σ = ByCaller → caller_moves σ (upd_own own (upd_world w σ))
  | c_notified f σ : caller_moves σ (upd_notified f σ)
  | c_submit l σ :
      h_worker σ = NoWorker → h_done σ = ChannelOpen → good l σ →
      caller_moves σ (upd_worker (Submitted l) σ)
  | c_take m σ : h_done σ = ChannelSent m → caller_moves σ (upd_done (ChannelTaken m) σ)
  | c_leave σ : h_done σ = ChannelOpen → caller_moves σ (upd_done NoReceiver σ)
  | c_same σ : caller_moves σ σ.

(** The worker: anything of its own while it holds the lease; starting; sending one
    message, with the lease as good as it is; or dropping its senders. *)
Inductive worker_moves : relation (Host M) :=
  | w_own w σ : holder σ = ByWorker → worker_moves σ (upd_world w σ)
  | w_notified f σ : h_worker σ ≠ NoWorker → worker_moves σ (upd_notified f σ)
  | w_begin l σ : h_worker σ = Submitted l → worker_moves σ (upd_worker Begun σ)
  | w_started v σ : worker_moves σ (upd_started v σ)
  | w_send m σ :
      holder σ = ByWorker → h_done σ = ChannelOpen →
      match carried m with Some l => good l σ | None => silent m end →
      worker_moves σ (upd_done (ChannelSent m) σ)
  | w_leave σ : holder σ = ByWorker → worker_moves σ (upd_done (drop_senders (h_done σ)) σ)
  | w_same σ : worker_moves σ σ.

Abbreviation caller_rely := (others (interferes P authority) worker_moves).
Abbreviation worker_rely := (others (interferes P authority) caller_moves).

(** ** The three situations of a thread *)

(** The caller before the job is handed over. *)
Definition unsubmitted σ : Prop := h_worker σ = NoWorker ∧ h_done σ = ChannelOpen.
(** The caller with the lease back; the worker with the lease. *)
Definition returned σ : Prop := h_worker σ ≠ NoWorker ∧ holder σ = ByCaller.
Definition working σ : Prop := h_worker σ ≠ NoWorker ∧ holder σ = ByWorker.

(** The worker before it sends its message, and after. *)
Definition unsent σ : Prop :=
  h_worker σ ≠ NoWorker ∧ (h_done σ = ChannelOpen ∨ h_done σ = NoReceiver).
Definition sent σ : Prop := working σ ∧ h_done σ ≠ ChannelOpen.

Lemma unsent_working σ : unsent σ → working σ.
Proof. intros [H [Ed|Ed]]; (split; [done|]); unfold holder; rewrite Ed; by destruct (h_worker σ). Qed.

(** Everybody else's steps touch neither worker nor channel. *)
Lemma interferes_foreign σ σ' :
  interferes P authority σ σ' →
  h_worker σ' = h_worker σ ∧ h_done σ' = h_done σ ∧ h_own σ' = h_own σ ∧
  rtc (foreign P authority (h_own σ)) (h_world σ) (h_world σ').
Proof.
  intros [a e w' σ1 Hroom Hs Hn| | |]; split_and!; try done. apply rtc_once. split; [done|]. by exists a, e.
Qed.

Lemma interferes_holder σ σ' : interferes P authority σ σ' → holder σ' = holder σ.
Proof. intros H. destruct (interferes_foreign _ _ H) as (E1 & E2 & _). unfold holder. by rewrite E1, E2. Qed.

(** A frame whose condition others keep, one step at a time. *)
Lemma frame_steps (rely1 guarantee : relation (Host M)) (F : Host M → Prop) :
  (∀ σ σ', interferes P authority σ σ' → F σ → F σ') →
  (∀ σ σ', rely1 σ σ' → F σ → F σ' ∧ h_own σ' = h_own σ ∧ h_world σ' = h_world σ) →
  (∀ σ, F σ → guarantee σ σ) →
  (∀ w σ, F σ → F (upd_world w σ) ∧ guarantee σ (upd_world w σ)) →
  (∀ f σ, F σ → F (upd_notified f σ) ∧ guarantee σ (upd_notified f σ)) →
  frame P authority (others (interferes P authority) rely1) guarantee F.
Proof.
  intros H1 H2 H3 H4 H5. split; [apply others_preorder| |done..].
  intros σ σ' Hr. induction Hr as [σ|σ σ1 σ' Hs _ IH]; [done|]. intros HF.
  assert (F σ1 ∧ h_own σ1 = h_own σ ∧ rtc (foreign P authority (h_own σ)) (h_world σ) (h_world σ1))
    as (HF1 & Eo & Hf).
  { destruct Hs as [Hi|Hg].
    - destruct (interferes_foreign _ _ Hi) as (_ & _ & ? & ?). eauto.
    - destruct (H2 _ _ Hg HF) as (? & ? & ->). done. }
  destruct (IH HF1) as (HF' & Eo' & Hf'). rewrite Eo in *. split_and!; [done..|]. by etransitivity.
Qed.

Lemma frame_unsubmitted : frame P authority caller_rely caller_moves unsubmitted.
Proof.
  apply frame_steps.
  - intros σ σ' H [E1 E2]. destruct (interferes_foreign _ _ H) as (E3 & E4 & _).
    split; congruence.
  - intros σ σ' H [E1 E2].
    destruct H as [w σ H|f σ|l σ H|v σ|m σ H|σ H|σ]; try done; unfold holder in *; try congruence;
      by rewrite E1 in H.
  - intros. apply c_same.
  - intros w σ [E1 E2]. split; [done|]. pose proof (c_own (h_own σ) w σ) as H. destruct σ.
    apply H. unfold holder. cbn in *. by rewrite E1.
  - intros f σ HF. split; [done|apply c_notified].
Qed.

Lemma frame_returned : frame P authority caller_rely caller_moves returned.
Proof.
  apply frame_steps.
  - intros σ σ' H [E1 E2]. destruct (interferes_foreign _ _ H) as (E3 & _). split; [congruence|].
    by rewrite (interferes_holder _ _ H).
  - intros σ σ' H [E1 E2].
    destruct H as [w σ H|f σ|l σ H|v σ|m σ H|σ H|σ]; try done; try congruence.
    split; [|done]. split; [done|]. unfold holder in *. rewrite H in E2. cbn in *. done.
  - intros. apply c_same.
  - intros w σ HF. split; [done|]. pose proof (c_own (h_own σ) w σ) as H. destruct σ. apply H, HF.
  - intros f σ HF. split; [done|apply c_notified].
Qed.

(** The caller may only go away before the worker's message, and take it after. *)
Lemma frame_unsent : frame P authority worker_rely worker_moves unsent.
Proof.
  apply frame_steps.
  - intros σ σ' H [E1 E2]. destruct (interferes_foreign _ _ H) as (E3 & E4 & _).
    split; [congruence|]. by rewrite E4.
  - intros σ σ' H HF. pose proof (unsent_working _ HF) as [_ Hh]. destruct HF as [E1 E2].
    destruct H as [own w σ H|f σ|l σ H1 H2 H3|m σ H|σ H|σ]; try done; try congruence.
    + destruct E2; congruence.
    + split; [|done]. split; [done|by right].
  - intros. apply w_same.
  - intros w σ HF. split; [done|]. by apply w_own, unsent_working.
  - intros f σ HF. split; [done|apply w_notified, HF].
Qed.

Lemma frame_sent : frame P authority worker_rely worker_moves sent.
Proof.
  apply frame_steps.
  - intros σ σ' H [[E1 E2] Eo]. destruct (interferes_foreign _ _ H) as (E3 & E4 & _).
    split; [split; [congruence|by rewrite (interferes_holder _ _ H)]|by rewrite E4].
  - intros σ σ' H [[E1 E2] Eo].
    destruct H as [own w σ H|f σ|l σ H1 H2 H3|m σ H|σ H|σ]; try done; try congruence.
    split; [|done]. split; [|done]. split; [done|]. unfold holder in *. cbn. rewrite H in E2.
    destruct (h_worker σ); [done|..]; by destruct (carried m).
  - intros. apply w_same.
  - intros w σ HF. split; [done|]. apply w_own, HF.
  - intros f σ HF. split; [done|apply w_notified, HF].
Qed.

Lemma issues_unsubmitted : issues caller_moves unsubmitted.
Proof.
  intros own w σ [E1 E2] _. split; [done|]. apply c_own. unfold holder. by rewrite E1.
Qed.

(** Before the job is handed over there is no worker to take a notification away. *)
Lemma watches_unsubmitted : watches caller_rely unsubmitted.
Proof.
  intros waker σ σ' Hr. induction Hr as [σ|σ σ1 σ' Hs _ IH]; [done|]. intros HF Ha.
  destruct Hs as [Hi|Hm].
  - apply IH; [|by eapply interferes_awake]. destruct HF as [E1 E2].
    destruct (interferes_foreign _ _ Hi) as (E3 & E4 & _). split; congruence.
  - destruct HF as [E1 E2].
    destruct Hm as [w σ H|f σ|l σ H|v σ|m σ H|σ H|σ]; try done; try (by apply IH); try congruence;
      unfold holder in *; by rewrite E1 in H.
Qed.

(** ** Ends of the two threads *)

(** The worker is done: it has answered, and what it still holds is gone. *)
Definition finished σ : Prop :=
  h_worker σ ≠ NoWorker ∧ h_done σ ≠ ChannelOpen ∧
  (holder σ = ByWorker → reachable P authority (h_world σ) ∧ of_own own_gone (h_own σ) (h_world σ)).

(** The caller is done: the channel is settled, and what it still holds is gone. *)
Definition caller_closed σ : Prop :=
  match holder σ with
  | ByCaller => reachable P authority (h_world σ) ∧ clear (h_own σ) (h_world σ)
  | ByWorker => h_done σ ≠ ChannelOpen
  | InChannel => False
  end.

Lemma interferes_keeps K `{HL : !Lasting P authority K} σ σ' :
  interferes P authority σ σ' →
  reachable P authority (h_world σ) ∧ K (h_own σ) (h_world σ) →
  reachable P authority (h_world σ') ∧ K (h_own σ') (h_world σ').
Proof.
  intros Hi [Hw HK]. destruct (interferes_foreign _ _ Hi) as (_ & _ & -> & Hf).
  by eapply foreign_steps.
Qed.

Lemma finished_stable σ σ' : worker_rely σ σ' → finished σ → finished σ'.
Proof.
  intros Hr. induction Hr as [σ|σ σ1 σ' Hs _ IH]; [done|]. intros (H1 & Ho & H2). apply IH. clear IH.
  destruct Hs as [Hi|Hm].
  - destruct (interferes_foreign _ _ Hi) as (E1 & E2 & _). split; [by rewrite E1|]. split; [by rewrite E2|].
    rewrite (interferes_holder _ _ Hi). intros H. eapply interferes_keeps; [apply _|done|auto].
  - destruct Hm as [own w σ H|f σ|l σ E1 E2 E3|m σ H|σ H|σ]; try done; (split; [done|]); (split; [done|]).
    + intros H'. unfold holder in H, H'. cbn in H'. congruence.
    + intros H'. apply H2. unfold holder in *. cbn in H'. rewrite H. destruct (h_worker σ); [done|..];
        by destruct (carried m).
Qed.

Lemma closed_stable σ σ' : caller_rely σ σ' → caller_closed σ → caller_closed σ'.
Proof.
  intros Hr. induction Hr as [σ|σ σ1 σ' Hs _ IH]; [done|]. intros HC. apply IH. clear IH.
  unfold caller_closed in *. destruct Hs as [Hi|Hm].
  - rewrite (interferes_holder _ _ Hi). destruct (interferes_foreign _ _ Hi) as (_ & -> & _).
    destruct (holder σ); [|done..]. eapply interferes_keeps; [apply _|done|done].
  - destruct Hm as [w σ H|f σ|l σ H|v σ|m σ H1 H2 _|σ H|σ]; try done.
    + rewrite H in HC. by replace (holder (upd_world w σ)) with ByWorker.
    + replace (holder (upd_worker Begun σ)) with (holder σ); [done|].
      unfold holder. cbn. by rewrite H.
    + by rewrite H1 in HC.
    + rewrite H in HC. replace (holder (upd_done _ σ)) with ByWorker; [by destruct (h_done σ)|].
      symmetry. unfold holder in *. cbn. destruct (h_worker σ); [done|..]; by destruct (h_done σ).
Qed.

(** ** In between *)

(** The job lies with its executor, if it was handed over. *)
Definition ready σ : Prop :=
  (h_done σ = ChannelOpen ∨ h_done σ = NoReceiver) ∧
  match h_worker σ with NoWorker => True | Submitted l => good l σ | Begun => False end.

#[local] Instance lease_fact_lasts l : Lasting P authority (lease_fact caps l).
Proof. unfold lease_fact. destruct (el_custody l); apply _. Qed.

Lemma ready_stable σ σ' : worker_rely σ σ' → ready σ → ready σ'.
Proof.
  intros Hr. induction Hr as [σ|σ σ1 σ' Hs _ IH]; [done|]. intros [H1 H2]. apply IH. clear IH.
  destruct Hs as [Hi|Hm].
  - destruct (interferes_foreign _ _ Hi) as (E1 & E2 & _). split; [by rewrite E2|]. rewrite E1.
    destruct (h_worker σ); [done| |done]. eapply (interferes_keeps (lease_fact caps lease)); done.
  - destruct Hm as [own w σ H|f σ|l σ E1 E2 E3|m σ H|σ H|σ]; try done.
    + split; [done|]. cbn. unfold holder in H. destruct (h_worker σ); [done| |done].
      by destruct H1 as [Ed|Ed]; rewrite Ed in H.
    + exfalso. destruct H1; congruence.
    + split; [by right|done].
Qed.

(** The caller waits for the message. *)
Definition awaiting σ : Prop :=
  h_worker σ ≠ NoWorker ∧
  match h_done σ with
  | ChannelSent m => match carried m with Some l => good l σ | None => silent m end
  | ChannelOpen | NoSender => True
  | ChannelTaken _ | NoReceiver => False
  end.

Lemma awaiting_stable σ σ' : caller_rely σ σ' → awaiting σ → awaiting σ'.
Proof.
  intros Hr. induction Hr as [σ|σ σ1 σ' Hs _ IH]; [done|]. intros [H1 H2]. apply IH. clear IH.
  destruct Hs as [Hi|Hm].
  - destruct (interferes_foreign _ _ Hi) as (E1 & E2 & _). split; [by rewrite E1|]. rewrite E2.
    destruct (h_done σ) as [|m|m| |]; try done. destruct (carried m) as [l|]; [|done].
    eapply (interferes_keeps (lease_fact caps l)); done.
  - destruct Hm as [w σ H|f σ|l σ H|v σ|m σ E1 E2 E3|σ H|σ]; try done.
    + split; [done|]. cbn. unfold holder in H. destruct (h_done σ) as [|m|m| |]; try done.
      destruct (carried m); [|done]. by destruct (h_worker σ).
    + split; [done|]. cbn. by destruct (h_done σ).
Qed.

Lemma drop_message_Some m :
  (drop_message (Some m) : task (op T E M) ()) = match carried m with Some l => drop_lease l | None => Ret () end.
Proof. done. Qed.

(** ** The worker's rules *)

Section worker.
Local Abbreviation wp :=
  (wp (acts P authority (T:=T) (E:=E)) suspends (demands P authority caps) worker_rely worker_moves).
Local Abbreviation tied := (tied P authority unsent).
Local Abbreviation tied_sent := (Holding.tied P authority sent).
Context (Hwf : policy_wf P).
Local Abbreviation tied_rely := (Holding.tied_rely P authority worker_rely worker_moves unsent frame_unsent).
Implicit Types D : Host M → Prop.

Lemma gone_finished σ : tied_sent (of_own own_gone) σ → finished σ.
Proof. intros ([[H _] Ho] & ? & ?). by split. Qed.

Lemma wp_finished D σ : finished σ → wp (Ret ()) (λ _, finished) D σ.
Proof. intros H σ1 Hr. by eapply finished_stable. Qed.

Lemma wp_finish l D σ : tied_sent (lease_fact caps l) σ → wp (drop_lease l) (λ _, finished) D σ.
Proof.
  intros H. eapply wp_mono; [| |by apply (Holding.wp_drop_lease P authority Htyped Hwf caps worker_rely
    worker_moves sent frame_sent l D)]; [|done]. intros [] σ1. apply gone_finished.
Qed.

(** A call that needs the dispatched lease and changes nothing. *)
Lemma wp_work (F : Host M → Prop) (Hframe : frame P authority worker_rely worker_moves F) l {A X}
    (o : op T E M X) (k : X → task (op T E M) A) Q D σ :
  works X o = true → (∀ σ x σ', acts P authority X o σ x σ' → σ' = σ) →
  dispatched l → Holding.tied P authority F (lease_fact caps l) σ →
  (∀ x σ, Holding.tied P authority F (lease_fact caps l) σ → wp (k x) Q D σ) → wp (Call o k) Q D σ.
Proof.
  intros Ho Ha Hl H Hk σ1 Hr.
  assert (Holding.tied P authority F (lease_fact caps l) σ1) as H1
    by (by apply (Holding.tied_rely P authority worker_rely worker_moves F Hframe (lease_fact caps l) σ)).
  split; [by apply works_demands, (dispatched_covered P authority caps F l)|]. split; [by destruct o|].
  intros x σ2 Hx%Ha. subst. split; [apply w_same|]. by apply Hk.
Qed.

Lemma wp_send_started K `{HL : !Lasting P authority K} {A} at_ (k : () → task (op T E M) A) Q D σ :
  tied K σ → (∀ σ, tied K σ → wp (k ()) Q D σ) → wp (Call (OSendStarted at_) k) Q D σ.
Proof.
  intros H Hk σ1 Hr. assert (tied K σ1) as H1 by (by apply (tied_rely K σ)).
  split; [by apply free_demands|]. split; [done|]. intros [] σ2 ->. split; [apply w_started|]. by apply Hk.
Qed.

Lemma send_done_demands m σ : unsent σ → demands P authority caps _ (OSendDone m : op T E M _) σ.
Proof.
  intros [_ H]. split; [|done]. intros _ _. cbn. unfold act_send_done.
  destruct H as [-> | ->]; by eexists _, _.
Qed.

(** Sending the lease with the message; what cannot be delivered is dropped here. *)
Lemma wp_send_lease m l D σ :
  carried m = Some l → tied (lease_fact caps l) σ →
  wp (undelivered ← call (OSendDone m); drop_message undelivered) (λ _, finished) D σ.
Proof.
  intros Em H σ1 Hr.
  assert (tied (lease_fact caps l) σ1) as (HF & Hw & HK) by (by apply (tied_rely (lease_fact caps l) σ)).
  pose proof (unsent_working _ HF) as [H1 H2].
  split; [by apply send_done_demands|]. split; [done|]. intros x σ2 Hx. cbn in Hx. unfold act_send_done in Hx.
  destruct (h_done σ1) eqn:Ed; try done; destruct Hx as [-> ->].
  - split; [apply w_send; [done..|by rewrite Em]|]. cbn beta. apply wp_finished.
    split; [done|]. split; [done|]. intros H'. unfold holder in *. cbn in H'. rewrite Em in H'. by destruct (h_worker σ1).
  - split; [apply w_same|]. change (wp (drop_message (Some m)) (λ _, finished) D σ1).
    rewrite drop_message_Some, Em. apply wp_finish. split; [split; [done|congruence]|done].
Qed.

(** Replying and keeping the lease. *)
Lemma wp_send_silent K `{HL : !Lasting P authority K} m D σ :
  carried m = None → silent m → tied K σ →
  wp (undelivered ← call (OSendDone m); drop_message undelivered) (λ _, tied_sent K) D σ.
Proof.
  intros Em Hm H σ1 Hr. assert (tied K σ1) as (HF & Hw & HK) by (by apply (tied_rely K σ)).
  pose proof (unsent_working _ HF) as [H1 H2].
  split; [by apply send_done_demands|]. split; [done|]. intros x σ2 Hx. cbn in Hx. unfold act_send_done in Hx.
  destruct (h_done σ1) eqn:Ed; try done; destruct Hx as [-> ->].
  - split; [apply w_send; [done..|by rewrite Em]|]. cbn beta.
    eapply (Holding.wp_ret P authority caps _ _ sent frame_sent K); [|done].
    split; [|done]. split; [|done]. split; [done|]. unfold holder in *. cbn. rewrite Em. by destruct (h_worker σ1).
  - split; [apply w_same|]. change (wp (drop_message (Some m)) (λ _, tied_sent K) D σ1).
    rewrite drop_message_Some, Em. eapply (Holding.wp_ret P authority caps _ _ sent frame_sent K); [|done].
    split; [split; [done|congruence]|done].
Qed.
End worker.

(** ** The caller's rules *)

Section caller.
Local Abbreviation wp :=
  (wp (acts P authority (T:=T) (E:=E)) suspends (demands P authority caps) caller_rely caller_moves).
Local Abbreviation tied_back := (tied P authority returned).
Context (Hwf : policy_wf P).
Context {A : Type}.
Implicit Types (D : Host M → Prop) (Q : A → Host M → Prop).

Lemma back_closed σ : tied_back clear σ → caller_closed σ.
Proof. intros ([_ H] & ? & ?). unfold caller_closed. by rewrite H. Qed.
Lemma unsubmitted_closed σ : tied P authority unsubmitted clear σ → caller_closed σ.
Proof. intros ([H _] & ? & ?). unfold caller_closed, holder. by rewrite H. Qed.

Lemma wp_closed (a : A) Q D σ : caller_closed σ → (∀ σ, caller_closed σ → Q a σ) → wp (Ret a) Q D σ.
Proof. intros H HQ σ1 Hr. apply HQ. by eapply closed_stable. Qed.

(** Handing the job over, or keeping the lease. *)
Lemma wp_spawn on l (k : SpawnOutcome → task (op T E M) A) Q D σ :
  tied P authority unsubmitted (lease_fact caps l) σ →
  (∀ x σ, (∀ e, x ≠ SpawnRefused e) → (x = SpawnPanicked → on = CpuExecutorPort) →
     awaiting σ → wp (k x) Q D σ) →
  (∀ e σ, on = DedicatedThread → tied P authority unsubmitted (lease_fact caps l) σ →
     wp (k (SpawnRefused e)) Q D σ) →
  wp (Call (OSpawn on l) k) Q D σ.
Proof.
  intros H Hk He σ1 Hr.
  assert (tied P authority unsubmitted (lease_fact caps l) σ1) as H1
    by (by apply (Holding.tied_rely P authority _ _ _ frame_unsubmitted (lease_fact caps l) σ)).
  destruct H1 as ([E1 E2] & Hw & HK). split; [split; [|done]|].
  { intros _ _. by eexists SpawnTaken, _. }
  split; [done|]. intros x σ2 [_ Hx].
  assert (awaiting (upd_worker (Submitted l) σ1)) as Haw by (split; [done|cbn; by rewrite E2]).
  assert (caller_moves σ1 (upd_worker (Submitted l) σ1)) as Hm by (by apply c_submit).
  destruct x as [|e|], on; try done; subst; (split; [done || apply c_same|]);
    (by apply Hk) || by apply He.
Qed.

(** Going away: whoever then holds the lease ends it. *)
Lemma wp_drop_receiver D σ : awaiting σ →
  Tasks.wp (acts P authority (T:=T) (E:=E)) suspends (demands P authority caps) caller_rely caller_moves
    drop_receiver (λ _, caller_closed) D σ.
Proof.
  intros H σ1 Hr. destruct (awaiting_stable _ _ Hr H) as [H1 H2].
  split; [by apply free_demands|]. split; [done|]. intros x σ2 Hx. cbn in Hx. unfold act_drop_receiver in Hx.
  assert (∀ σ2, caller_moves σ1 σ2 → caller_closed σ2 → caller_moves σ1 σ2 ∧
    Tasks.wp (acts P authority (T:=T) (E:=E)) suspends (demands P authority caps) caller_rely caller_moves
      (drop_message None) (λ _, caller_closed) D σ2) as Hnone.
  { intros σ3 Hm Hc. split; [done|]. intros σ4 Hr'. by eapply closed_stable. }
  destruct (h_done σ1) as [|m|m| |] eqn:Ed; try done; destruct Hx as [-> ->].
  - apply Hnone; [by apply c_leave|]. unfold caller_closed, holder. cbn. by destruct (h_worker σ1).
  - destruct (carried m) as [l|] eqn:Em.
    + split; [by apply c_take|].
      change (Tasks.wp (acts P authority (T:=T) (E:=E)) suspends (demands P authority caps) caller_rely caller_moves
        (drop_message (Some m)) (λ _, caller_closed) D (upd_done (ChannelTaken m) σ1)).
      rewrite drop_message_Some, Em.
      eapply wp_mono; [| |apply (Holding.wp_drop_lease P authority Htyped Hwf caps _ _ _ frame_returned l D)];
        [|done|].
      * intros [] σ2 Hg. apply back_closed. eapply tied_mono; [|exact Hg]. by right.
      * destruct H2 as [Hw HK]. split; [split; [exact H1|]|done]. unfold holder. cbn. rewrite Em.
        by destruct (h_worker σ1).
    + split; [by apply c_take|].
      change (Tasks.wp (acts P authority (T:=T) (E:=E)) suspends (demands P authority caps) caller_rely caller_moves
        (drop_message (Some m)) (λ _, caller_closed) D (upd_done (ChannelTaken m) σ1)).
      rewrite drop_message_Some, Em. intros σ4 Hr'. eapply closed_stable; [exact Hr'|].
      unfold caller_closed, holder. cbn. rewrite Em. by destruct (h_worker σ1).
  - apply Hnone; [apply c_same|]. unfold caller_closed, holder. rewrite Ed. by destruct (h_worker σ1).
Qed.

(** What the wait ends with. *)
Definition received (x : DoneSelect M) σ : Prop :=
  match x with
  | DoneCancelled | DoneResponseBy | DoneExpired => awaiting σ
  | DoneReceived None => caller_closed σ
  | DoneReceived (Some m) =>
    match carried m with
    | Some l => tied_back (lease_fact caps l) σ
    | None => silent m ∧ caller_closed σ
    end
  end.

Lemma received_stable x σ σ' : caller_rely σ σ' → received x σ → received x σ'.
Proof.
  intros Hr. destruct x as [| | |[m|]]; cbn; try (by apply awaiting_stable); [|by apply closed_stable].
  destruct (carried m) as [l|].
  - by apply (Holding.tied_rely P authority _ _ _ frame_returned (lease_fact caps l)).
  - intros [? ?]. split; [done|]. by eapply closed_stable.
Qed.

Lemma wp_await_done cancel response_by run_budget (f : DoneSelect M → task (op T E M) A) Q D σ :
  (∀ σ, caller_closed σ → D σ) → awaiting σ →
  (∀ x σ, received x σ → wp (f x) Q D σ) →
  wp (selected ← guarded drop_receiver (call (OAwaitDone cancel response_by run_budget)); f selected) Q D σ.
Proof.
  intros HD H Hf. apply wp_bind; [apply others_preorder|]. apply (wp_scope _ _ _ _ _).
  intros σ1 Hr. pose proof (awaiting_stable _ _ Hr H) as H1. split; [split; [done|]|split].
  { destruct H1 as [_ H1]. by destruct (h_done σ1). }
  { intros _. eapply wp_mono; [| |by apply (wp_drop_receiver (λ _, False))]; [|done]. intros [] σ2. apply HD. }
  intros x σ2 Hx. cbn in Hx. assert (caller_moves σ1 σ2 ∧ received x σ2) as [Hm Hrec].
  { destruct H1 as [H1 H2]. destruct x as [| | |[m|]]; cbn in Hx.
    1-3: destruct Hx as [_ ->]; split; [apply c_same|by split].
    - destruct Hx as [Ed ->]. rewrite Ed in H2. split; [by apply c_take|]. cbn.
      destruct (carried m) as [l|] eqn:Em.
      + destruct H2. split; [split; [exact H1|]|done]. unfold holder. cbn. rewrite Em. by destruct (h_worker σ1).
      + split; [done|]. unfold caller_closed, holder. cbn. rewrite Em. by destruct (h_worker σ1).
    - destruct Hx as [Ed ->]. split; [apply c_same|]. cbn. unfold caller_closed, holder. rewrite Ed.
      by destruct (h_worker σ1). }
  split; [done|]. intros σ3 Hr3. cbn. intros σ4 Hr4.
  apply Hf. eapply received_stable; [|exact Hrec]. by etransitivity.
Qed.

End caller.

(** ** Answers *)

Section answers.
Local Abbreviation wp :=
  (wp (acts P authority (T:=T) (E:=E)) suspends (demands P authority caps) caller_rely caller_moves).
Local Abbreviation tied_back := (tied P authority returned).
Context (Hwf : policy_wf P).
Implicit Types D : Host M → Prop.

(** The work's own result, as opposed to a governor's error. *)
Definition worked (r : RunError E + T) : bool :=
  match r with inr _ | inl (RunError.Task _) => true | inl (RunError.Governor _) => false end.

(** The caller's end of a submission: the work's result comes with the permit gone. *)
Definition replied (r : RunError E + T) σ : Prop :=
  caller_closed σ ∧ (worked r = true → tied_back (of_own own_gone) σ).

Lemma replied_error e σ : caller_closed σ → replied (governor_error e) σ.
Proof. done. Qed.

Lemma replied_gone r σ : tied_back (of_own own_gone) σ → replied r σ.
Proof. intros H. split; [|done]. apply back_closed. eapply tied_mono; [|exact H]. by right. Qed.

Lemma replied_stable r σ σ' : caller_rely σ σ' → replied r σ → replied r σ'.
Proof.
  intros Hr [H1 H2]. split; [by eapply closed_stable|]. intros Hw.
  by apply (Holding.tied_rely P authority _ _ _ frame_returned (of_own own_gone) _ _ Hr), H2.
Qed.

(** Release, then answer. *)
Lemma wp_release_reply l r cancel response_by D σ :
  tied_back (lease_fact caps l) σ →
  wp (_ ← drop_lease l; finalize_released_response r cancel response_by) replied D σ.
Proof.
  intros H. eapply (Holding.wp_then P authority caps _ _ _ frame_returned).
  - by apply (Holding.wp_drop_lease P authority Htyped Hwf caps _ _ _ frame_returned l).
  - cbn beta. intros _ σ1 H1. eapply wp_mono; [| |by apply (Paths.wp_finalize P authority caps _ _ _
      frame_returned (of_own own_gone) _ _ _ D)]; [|done].
    intros r' σ2. apply replied_gone.
Qed.

(** Leave, then report. *)
Lemma wp_leave_reply e D σ :
  awaiting σ →
  wp (_ ← drop_receiver; Ret (governor_error e)) replied D σ.
Proof.
  intros H. apply wp_bind; [apply others_preorder|].
  eapply wp_mono; [| |by apply (wp_drop_receiver Hwf D)]; [|done]. cbn beta. intros [] σ1 H1.
  by apply wp_closed.
Qed.

(** Nothing was handed over: the lease goes back at once. *)
Lemma wp_refused_reply l e D σ :
  tied P authority unsubmitted (lease_fact caps l) σ →
  wp (_ ← drop_lease l; Ret (governor_error e)) replied D σ.
Proof.
  intros H. eapply (Holding.wp_then P authority caps _ _ _ frame_unsubmitted).
  - by apply (Holding.wp_drop_lease P authority Htyped Hwf caps _ _ _ frame_unsubmitted l).
  - cbn beta. intros _ σ1 H1. apply wp_closed; [|apply replied_error].
    apply unsubmitted_closed. eapply tied_mono; [|exact H1]. by right.
Qed.
End answers.
End custody.
