(* ===== verification/Detached.v ===== *)
(** * Detached jobs, end to end

    runtime/synchronous.rs, runtime/detached.rs and the requested-stack path of
    runtime.rs: the caller's half and the worker's body of every detached run path, run
    against each other and among all other callers. *)

From S2P Require Import Prelude Contract Text Validation Topology Kernel Errors Arbiter Executors.
From S2P Require Import PolicyCheck Requirements State Assess Admission Memory Observe Governor.
From S2P Require Import Policies Plan Build Builds Books Custody Ledger Invariant Sections Trace.
From S2P Require Import System Runs Fates Grips Contracts Owned Tasks Host Acquire HostRuns Holding.
From S2P Require Import Acquired Threads Submit Paths Workers.

(** ** Worker bodies *)

Section bodies.
Context (P : PolicySet) (authority : N) (Htyped : policies_typed P) (Hwf : policy_wf P).
Context (caps : CapabilityRequirementSet).
Context {T E : Type}.

(** A synchronous outcome always carries its lease. *)
Section synchronous.
Local Abbreviation M := (DetachedOutcome T E).
Definition never_silent : M → Prop := λ _, False.
Implicit Types (σ : Host M) (D : Host M → Prop).
Local Abbreviation worker_rely := (others (interferes P authority (M:=M)) (caller_moves P authority caps)).
Local Abbreviation worker_moves := (worker_moves P authority caps never_silent).
Local Abbreviation wp :=
  (wp (acts P authority (T:=T) (E:=E)) suspends (demands P authority caps) worker_rely worker_moves).
Local Abbreviation tied := (tied P authority unsent).
Local Abbreviation frame_unsent := (frame_unsent P authority caps never_silent).
Local Abbreviation wp_read := (Holding.wp_read P authority caps worker_rely worker_moves unsent frame_unsent).
Local Abbreviation wp_then := (Holding.wp_then P authority caps worker_rely worker_moves unsent frame_unsent).
Local Abbreviation wp_ret := (Holding.wp_ret P authority caps worker_rely worker_moves unsent frame_unsent).
Local Abbreviation wp_advance :=
  (Holding.wp_advance P authority Htyped caps worker_rely worker_moves unsent frame_unsent).

#[local] Existing Instance lease_fact_lasts.

(** The job runs under its lease, and the lease leaves with the outcome. *)
Lemma wp_run_detached_job l context response_by D σ :
  tied (lease_fact caps l) σ →
  wp (run_detached_job l context response_by) (λ _, finished P authority) D σ.
Proof.
  intros H. unfold run_detached_job.
  eapply (wp_read (lease_fact caps l)); [done..|by intros ??? [_ ->]|done|]. cbn beta.
  intros started σ1 _ _ H1.
  apply (wp_then _ _ (λ x : ExecutionLease * (RunError E + T), tied (lease_fact caps x.1))).
  - destruct (has_passed _ _); [by eapply (wp_ret (lease_fact caps l))|].
    eapply wp_then; [by apply (wp_advance l)|]. cbn beta. intros [l1 x] σ2 (H2 & Hd & _). cbn in H2, Hd.
    destruct x as [e|[]]; [by eapply (wp_ret (lease_fact caps l1))|].
    eapply (wp_send_started P authority caps never_silent (lease_fact caps l1)); [done|]. cbn beta.
    intros σ3 H3. eapply (wp_work P authority Htyped caps never_silent unsent frame_unsent l1);
      [done..| |by apply Hd|done|].
    { by intros ??? ->. }
    cbn beta. intros outcome σ4 H4.
    eapply wp_then; [by apply (wp_advance l1)|]. cbn beta. intros [l2 y] σ5 (H5 & _).
    by eapply (wp_ret (lease_fact caps l2)).
  - cbn beta. intros [l' result] σ2 H2.
    eapply (wp_read (lease_fact caps l')); [done..|by intros ??? [_ ->]|done|]. cbn beta.
    intros completed σ3 _ _ H3.
    by apply (wp_send_lease P authority Htyped caps never_silent Hwf _ l').
Qed.

(** A discarded job gives its lease back. *)
Lemma wp_discard_job l D σ :
  tied (lease_fact caps l) σ →
  wp (discard_job l) (λ _, finished P authority) D σ.
Proof.
  intros H. unfold discard_job.
  eapply wp_then; [by apply (Holding.wp_drop_lease P authority Htyped Hwf caps _ _ _ frame_unsent l)|].
  cbn beta. intros _ σ1 H1 σ2 Hr.
  assert (tied (of_own own_gone) σ2) as (HF & Hw & HK)
    by (by apply (Holding.tied_rely P authority _ _ _ frame_unsent (of_own own_gone) σ1)).
  split; [by apply free_demands|]. split; [done|]. intros [] σ3 ->. split; [by apply w_leave, unsent_working|].
  intros σ4 Hr'. eapply finished_stable; [done|exact Hr'|]. split; [apply HF|].
  split; [cbn; by destruct (h_done σ2)|done].
Qed.
End synchronous.

(** A requested-stack worker replies without the lease only to report a governor error. *)
Section requested_stack.
Local Abbreviation M := (AsyncThreadOutcome T E).
Definition governor_silent (m : M) : Prop :=
  match m with
  | AsyncTerminated (RunError.Task _) => False
  | _ => True
  end.
Implicit Types (σ : Host M) (D : Host M → Prop).
Local Abbreviation worker_rely := (others (interferes P authority (M:=M)) (caller_moves P authority caps)).
Local Abbreviation worker_moves := (worker_moves P authority caps governor_silent).
Local Abbreviation wp :=
  (wp (acts P authority (T:=T) (E:=E)) suspends (demands P authority caps) worker_rely worker_moves).
Local Abbreviation tied := (tied P authority unsent).
Local Abbreviation frame_unsent := (frame_unsent P authority caps governor_silent).
Local Abbreviation frame_sent := (frame_sent P authority caps governor_silent).
Local Abbreviation wp_read := (Holding.wp_read P authority caps worker_rely worker_moves unsent frame_unsent).
Local Abbreviation wp_then := (Holding.wp_then P authority caps worker_rely worker_moves unsent frame_unsent).
Local Abbreviation wp_ret := (Holding.wp_ret P authority caps worker_rely worker_moves unsent frame_unsent).
Local Abbreviation wp_advance :=
  (Holding.wp_advance P authority Htyped caps worker_rely worker_moves unsent frame_unsent).

#[local] Existing Instance lease_fact_lasts.

(** Reply, tear the runtime down under the lease, give it back. *)
Lemma wp_terminate e used l D σ :
  (used = true → dispatched l) → tied (lease_fact caps l) σ →
  wp (terminate (RunError.Governor e) used l) (λ _, finished P authority) D σ.
Proof.
  intros Hu H. unfold terminate.
  eapply wp_then.
  { by apply (wp_send_silent P authority caps governor_silent (lease_fact caps l)). }
  cbn beta. intros _ σ1 H1. destruct used.
  - eapply (wp_work P authority Htyped caps governor_silent sent frame_sent l); [done..|by intros ??? ->|by apply Hu|done|].
    cbn beta. intros _ σ2 H2. by apply (wp_finish P authority Htyped caps governor_silent Hwf).
  - eapply (Holding.wp_read P authority caps worker_rely worker_moves sent frame_sent (lease_fact caps l));
      [done..|by intros ??? ->|done|]. cbn beta. intros _ σ2 _ _ H2.
    by apply (wp_finish P authority Htyped caps governor_silent Hwf).
Qed.

Lemma wp_block_on l cancel deadline D σ :
  dispatched l → tied (lease_fact caps l) σ →
  wp (block_on cancel deadline) (λ _, tied (lease_fact caps l)) D σ.
Proof.
  intros Hl H. unfold block_on.
  eapply (wp_read (lease_fact caps l)); [done..|by intros ??? [_ ->]|done|]. cbn beta.
  intros [] σ1 _ _ H1; [by eapply (wp_ret (lease_fact caps l))|].
  eapply wp_then; [by apply (wp_completion_deadline P authority caps _ _ _ frame_unsent (lease_fact caps l))|].
  cbn beta. intros [e|at_] σ2 H2; [by eapply (wp_ret (lease_fact caps l))|].
  eapply (wp_work P authority Htyped caps governor_silent unsent frame_unsent l); [done..|by intros ??? [_ ->]|done|done|].
  cbn beta. intros x σ3 H3. by eapply (wp_ret (lease_fact caps l)).
Qed.

Lemma terminal_result_governor (r : RunError E + T) e :
  terminal_result r = Some e → ∃ error, e = RunError.Governor error.
Proof. destruct r as [[[]|]|]; cbn; try done; intros [= <-]; by eexists. Qed.

Lemma wp_requested_stack_worker cancel deadline l D σ :
  tied (lease_fact caps l) σ →
  wp (requested_stack_worker cancel deadline l) (λ _, finished P authority) D σ.
Proof.
  intros H. unfold requested_stack_worker.
  eapply (wp_read (lease_fact caps l)); [done..|by intros ??? ->|done|]. cbn beta.
  intros [detail|] σ1 _ _ H1.
  { eapply wp_then.
    - by apply (wp_send_silent P authority caps governor_silent (lease_fact caps l)).
    - cbn beta. intros _ σ2 H2. by apply (wp_finish P authority Htyped caps governor_silent Hwf). }
  eapply wp_then; [by apply (wp_advance l)|]. cbn beta. intros [l1 x] σ2 (H2 & Hd & _). cbn in H2, Hd.
  destruct x as [e|[]]; [by apply wp_terminate|]. specialize (Hd eq_refl).
  eapply wp_then; [by apply (wp_block_on l1)|]. cbn beta.
  intros [result|] σ3 H3; [|by apply wp_terminate].
  eapply wp_then; [by apply (wp_advance l1)|]. cbn beta. intros [l2 y] σ4 (H4 & _ & Hsame). cbn in H4, Hsame.
  assert (l2 = l1) as -> by (by destruct Hd as [token Ht]; eapply Hsame).
  destruct y as [e|[]]; [by apply wp_terminate|].
  destruct (terminal_result result) as [e|] eqn:Er.
  - apply terminal_result_governor in Er as [error ->]. by apply wp_terminate.
  - eapply (wp_work P authority Htyped caps governor_silent unsent frame_unsent l1); [done..|by intros ??? ->|done|done|].
    cbn beta. intros _ σ5 H5. by apply (wp_send_lease P authority Htyped caps governor_silent Hwf _ l1).
Qed.
End requested_stack.
End bodies.

(** ** Callers *)

Section callers.
Context (P : PolicySet) (authority : N) (Htyped : policies_typed P) (Hwf : policy_wf P).
Context (caps : CapabilityRequirementSet).
Context {T E : Type}.

Section synchronous.
Local Abbreviation M := (DetachedOutcome T E).
Implicit Types (σ : Host M) (D : Host M → Prop).
Local Abbreviation caller_rely :=
  (others (interferes P authority (M:=M)) (worker_moves P authority caps never_silent)).
Local Abbreviation wp :=
  (wp (acts P authority (T:=T) (E:=E)) suspends (demands P authority caps) caller_rely (caller_moves P authority caps)).
Local Abbreviation unsubmitted_lease l :=
  (tied P authority (unsubmitted (M:=M)) (lease_fact caps l)).
Local Abbreviation replied := (replied P authority (T:=T) (E:=E) (M:=M)).
Local Abbreviation caller_closed := (caller_closed P authority (M:=M)).
Local Abbreviation frame_unsubmitted := (frame_unsubmitted P authority caps never_silent).

(** Waiting for the outcome: a result is the caller's once its permit is gone. *)
Lemma wp_await_detached cancel budget context response_by D σ :
  (∀ σ, caller_closed σ → D σ) → awaiting P authority caps never_silent σ →
  wp (await_detached cancel budget context response_by) replied D σ.
Proof.
  intros HD H. apply (wp_await_done P authority Htyped caps never_silent Hwf); [done..|].
  intros x σ1 Hx. destruct x as [| | |[m|]]; cbn in Hx;
    try by apply (wp_leave_reply P authority Htyped caps never_silent Hwf).
  - by apply (wp_release_reply P authority Htyped caps never_silent Hwf).
  - by apply (wp_closed P authority Htyped caps never_silent).
Qed.

(** The dispatches, from the lease in hand. *)
Lemma wp_dispatched l k D σ :
  (∀ σ, caller_closed σ → D σ) → unsubmitted_lease l σ →
  (∀ l' σ, dispatched l' → unsubmitted_lease l' σ → wp (k l') replied D σ) →
  wp (advance_or_return l Accepted k) replied D σ.
Proof.
  intros HD H Hk. apply (wp_advance_or_return P authority Htyped Hwf caps _ _ _ frame_unsubmitted); [done..| |done].
  intros e σ1 H1. apply replied_error, unsubmitted_closed. eapply tied_mono; [|exact H1]. by right.
Qed.

Lemma wp_run_blocking_on_pool l plan response_by D σ :
  (∀ σ, caller_closed σ → D σ) → unsubmitted_lease l σ →
  wp (run_blocking_on_pool l plan response_by) replied D σ.
Proof.
  intros HD H. apply wp_dispatched; [done..|]. intros l1 σ1 _ H1.
  apply (wp_spawn P authority Htyped caps never_silent _ l1); [done|..].
  - intros x σ2 _ _ H2. by apply wp_await_detached.
  - done.
Qed.

Lemma wp_run_blocking_on_dedicated_thread l plan response_by D σ :
  (∀ σ, caller_closed σ → D σ) → unsubmitted_lease l σ →
  wp (run_blocking_on_dedicated_thread l plan response_by) replied D σ.
Proof.
  intros HD H. apply wp_dispatched; [done..|]. intros l1 σ1 _ H1.
  apply (wp_spawn P authority Htyped caps never_silent _ l1); [done|..].
  - intros x σ2 Hx Hon H2. destruct x as [|e|]; [by apply wp_await_detached|by destruct (Hx e)|].
    by apply wp_await_detached.
  - intros e σ2 _ H2. by apply (wp_refused_reply P authority Htyped caps never_silent Hwf).
Qed.

Lemma wp_run_cpu_acquired l plan response_by D σ :
  (∀ σ, caller_closed σ → D σ) → unsubmitted_lease l σ →
  wp (run_cpu_acquired l plan response_by) replied D σ.
Proof.
  intros HD H. apply wp_dispatched; [done..|]. intros l1 σ1 _ H1.
  apply (wp_spawn P authority Htyped caps never_silent _ l1); [done|..].
  - intros x σ2 Hx Hon H2. destruct x as [|e|]; [by apply wp_await_detached|by destruct (Hx e)|].
    by apply (wp_leave_reply P authority Htyped caps never_silent Hwf).
  - done.
Qed.
End synchronous.

Section requested_stack.
Local Abbreviation M := (AsyncThreadOutcome T E).
Implicit Types (σ : Host M) (D : Host M → Prop).
Local Abbreviation caller_rely :=
  (others (interferes P authority (M:=M)) (worker_moves P authority caps governor_silent)).
Local Abbreviation wp :=
  (wp (acts P authority (T:=T) (E:=E)) suspends (demands P authority caps) caller_rely (caller_moves P authority caps)).
Local Abbreviation replied := (replied P authority (T:=T) (E:=E) (M:=M)).
Local Abbreviation caller_closed := (caller_closed P authority (M:=M)).

Lemma wp_run_async_with_requested_stack_v1 plan l D σ :
  (∀ σ, caller_closed σ → D σ) → tied P authority (unsubmitted (M:=M)) (lease_fact caps l) σ →
  wp (run_async_with_requested_stack_v1 plan l) replied D σ.
Proof.
  intros HD H. apply (wp_advance_or_return P authority Htyped Hwf caps _ _ _
    (frame_unsubmitted P authority caps governor_silent)); [done..| |].
  { intros e σ1 H1. apply replied_error, unsubmitted_closed. eapply tied_mono; [|exact H1]. by right. }
  intros l1 σ1 _ H1. apply (wp_spawn P authority Htyped caps governor_silent _ l1); [done|..].
  2: { intros e σ2 _ H2. by apply (wp_refused_reply P authority Htyped caps governor_silent Hwf). }
  intros x σ2 Hx Hon H2. destruct x as [|e|]; [|by destruct (Hx e)|by specialize (Hon eq_refl)].
  apply (wp_await_done P authority Htyped caps governor_silent Hwf); [done..|].
  intros y σ3 Hy. destruct y as [| | |[[result l2|[error|error]]|]]; cbn in Hy;
    try by apply (wp_leave_reply P authority Htyped caps governor_silent Hwf).
  - by apply (wp_release_reply P authority Htyped caps governor_silent Hwf).
  - destruct Hy as [_ Hy]. by apply (wp_closed P authority Htyped caps governor_silent).
  - by destruct Hy.
  - by apply (wp_closed P authority Htyped caps governor_silent).
Qed.
End requested_stack.
End callers.

(** ** Whole paths *)

(** Nothing was submitted yet. *)
Definition fresh_host {M} (P : PolicySet) (authority : N) (σ : Host M) : Prop :=
  reachable P authority (h_world σ) ∧ h_own σ = None ∧ h_worker σ = NoWorker ∧ h_done σ = ChannelOpen.

(** A submission is over: its call ended, and its worker, if one was started. *)
Definition over {T E M} (c : Config (F:=op T E M) (Σ:=Host M) (A:=RunError E + T)) : Prop :=
  ((∃ r, cf_caller c = Calling (Ret r)) ∨ cf_caller c = Dropping (Ret ())) ∧
  (cf_worker c = Some (Ret ()) ∨ cf_worker c = None ∧ h_worker (cf_state c) = NoWorker).

Section whole.
Context (P : PolicySet) (authority : N) (Htyped : policies_typed P).
Context (caps : CapabilityRequirementSet).
Context {T E M : Type} `{!Carries M} (silent : M → Prop).
Local Abbreviation acts := (acts P authority (T:=T) (E:=E) (M:=M)).
Local Abbreviation wpc := (wp acts suspends (demands P authority caps)
  (others (interferes P authority) (worker_moves P authority caps silent)) (caller_moves P authority caps)).
Local Abbreviation wpw := (wp acts suspends (demands P authority caps)
  (others (interferes P authority) (caller_moves P authority caps)) (worker_moves P authority caps silent)).
Context (starts : Host M → task (op T E M) () → Host M → Prop).
Context (Hstarts : ∀ σ p σ', starts σ p σ' → ∃ l, h_worker σ = Submitted l ∧ σ' = upd_worker Begun σ ∧
  ∀ σ, tied P authority unsent (lease_fact caps l) σ → wpw p (λ _, finished P authority) (λ _, False) σ).

(** A submission on the move: no thread spins or is stuck, except where it may stand;
    and a call never waits for a worker that is over. *)
Definition on_the_move (c : Config (F:=op T E M) (Σ:=Host M) (A:=RunError E + T)) : Prop :=
  threads_lively acts may_wait c ∧
  (cf_worker c = Some (Ret ()) → h_done (cf_state c) ≠ ChannelOpen).

Lemma pair_settles (run : task (op T E M) (RunError E + T)) σ c :
  fresh_host P authority σ → wpc run (replied P authority) (caller_closed P authority) σ →
  rtc (pstep acts suspends starts (interferes P authority)) (mkConfig (Calling run) None σ) c →
  demands_met (demands P authority caps) c ∧ on_the_move c ∧
  (∀ r, cf_caller c = Calling (Ret r) → worked r = true →
     reachable P authority (h_world (cf_state c)) ∧
     of_own own_gone (h_own (cf_state c)) (h_world (cf_state c))) ∧
  (over c →
     reachable P authority (h_world (cf_state c)) ∧
     clear (h_own (cf_state c)) (h_world (cf_state c))).
Proof.
  intros (Hw & Ho & Hn & Hd) Hrun Hr.
  assert (pair_ok acts suspends (demands P authority caps) (interferes P authority) (caller_moves P authority caps)
    (worker_moves P authority caps silent) (replied P authority) (caller_closed P authority)
    (ready P authority caps) (λ _, finished P authority) c) as Hok.
  { eapply (pair_runs acts suspends (demands P authority caps) starts (interferes P authority)); [| | |split|exact Hr].
    - intros σ1 σ2. by apply closed_stable.
    - intros σ1 σ2. by apply ready_stable.
    - intros σ1 p σ2 (l & El & -> & Hp)%Hstarts [H1 H2]. rewrite El in H2. split; [by apply w_begin with l|].
      apply Hp. destruct H2 as [H2 H3]. by split.
    - exact Hrun.
    - split; [by left|]. cbn. by rewrite Hn. }
  split; [by apply pair_demanded in Hok|]. split.
  { split; [by eapply pair_lively in Hok; [|intros X o σ1; apply demands_may_wait]|].
    intros Hc. destruct c as [cl w σ']. cbn in *. subst w. by apply pair_worked in Hok as (_ & ? & _). }
  destruct c as [cl w σ']. cbn in *. split.
  - intros r -> Hwr. apply pair_returned in Hok as [_ Hok]. by destruct (Hok Hwr) as (_ & ? & ?).
  - intros [Hc Hwk]. cbn in Hc, Hwk. assert (caller_closed P authority σ') as HC.
    { destruct Hc as [[r ->]| ->]; [by apply pair_returned in Hok as [? _]|by apply pair_unwound in Hok]. }
    unfold caller_closed in HC. destruct (holder σ') eqn:Eh; [done| |done].
    destruct Hwk as [-> |[-> Hno]]; [|unfold holder in Eh; by rewrite Hno in Eh].
    apply pair_worked in Hok as (_ & _ & Hok). destruct (Hok Eh) as [? ?]. split; [done|]. by right.
Qed.
End whole.

(** ** Detached synchronous jobs *)

(** The response-bounded run path of a blocking or a CPU job; [run_blocking_with],
    [run_blocking_response_by], [run_cpu_with] and [run_cpu_response_by] are instances. *)
Definition run_sync (rt : TokioRuntime) {T E : Type} (cpu : bool) (spec : TaskSpec) (opts : SubmitOptions)
    (response_by : option Instant) : task (op T E (DetachedOutcome T E)) (RunError E + T) :=
  if cpu then run_cpu_with_response_boundary rt spec opts response_by
  else run_blocking_with_response_boundary rt spec opts response_by.
Definition sync_path (cpu : bool) : RunPath := if cpu then RunCpu else RunBlocking.

(** The context a worker reports itself under. *)
Definition worker_context (dispatch : DispatchKind) : string :=
  match dispatch with
  | DispatchKind.CpuExecutor => "cpu worker"
  | DispatchKind.DedicatedStackThread => "large-stack worker"
  | _ => "blocking worker"
  end.

(** What an executor makes of a job it took: it runs it, or, unless it is a thread of
    its own, drops it. *)
Inductive sync_starts (rt : TokioRuntime) {T E : Type} (cpu : bool) (spec : TaskSpec)
    (opts : SubmitOptions) (response_by : option Instant)
  : Host (DetachedOutcome T E) → task (op T E (DetachedOutcome T E)) () → Host (DetachedOutcome T E) → Prop :=
  | sync_runs plan l σ :
      Build.plan rt spec opts (sync_path cpu) = inr plan → h_worker σ = Submitted l →
      sync_starts rt cpu spec opts response_by σ
        (run_detached_job l (worker_context (vp_dispatch plan)) response_by) (upd_worker Begun σ)
  | sync_dropped plan l σ :
      Build.plan rt spec opts (sync_path cpu) = inr plan →
      vp_dispatch plan ≠ DispatchKind.DedicatedStackThread → h_worker σ = Submitted l →
      sync_starts rt cpu spec opts response_by σ (discard_job l) (upd_worker Begun σ).

(** The dispatch of a synchronous path, and the path around it. *)
Definition sync_dispatch {T E} (cpu : bool) (plan : ValidatedDispatchPlan) (response_by : option Instant)
    (lease : ExecutionLease) : task (op T E (DetachedOutcome T E)) (RunError E + T) :=
  if cpu then run_cpu_acquired lease plan response_by
  else match vp_dispatch plan with
       | DispatchKind.DedicatedStackThread => run_blocking_on_dedicated_thread lease plan response_by
       | _ => run_blocking_on_pool lease plan response_by
       end.

Lemma run_sync_plan rt {T E} cpu spec opts response_by :
  run_sync rt (T:=T) (E:=E) cpu spec opts response_by =
  match Build.plan rt spec opts (sync_path cpu) with
  | inl error => Ret (governor_error error)
  | inr plan =>
    if boundary_conflict opts response_by then Ret conflict_error
    else
      lease ← acquire_execution_lease (gv_policy (rt_governor rt)) (rt_cpu_capabilities rt) opts plan response_by;
      try lease (λ lease, unless_late lease response_by (sync_dispatch cpu plan response_by))
  end.
Proof. by destruct cpu. Qed.

Section sync.
Context (rt : TokioRuntime) (cpu : bool) (spec : TaskSpec) (opts : SubmitOptions).
Context (response_by : option Instant) {T E : Type}.
Local Abbreviation P := (gv_policy (rt_governor rt)).
Local Abbreviation authority := (gv_authority (rt_governor rt)).
Context (Htyped : policies_typed P) (Hwf : policy_wf P).
Local Abbreviation M := (DetachedOutcome T E).
Local Abbreviation caps := (path_caps rt spec opts (sync_path cpu)).
Local Abbreviation wpc := (wp (acts P authority (T:=T) (E:=E) (M:=M)) suspends (demands P authority caps)
  (others (interferes P authority) (worker_moves P authority caps never_silent))
  (caller_moves P authority caps)).
Implicit Types σ : Host M.

Lemma fresh_unsubmitted σ :
  fresh_host P authority σ → tied P authority unsubmitted issued_none σ.
Proof. by intros (? & ? & ? & ?). Qed.

Lemma replied_clear (e : RunError E) σ :
  RunError.is_governor e = true → tied P authority unsubmitted clear σ →
  replied P authority (T:=T) (inl e) σ.
Proof. intros He H. split; [by apply unsubmitted_closed|]. by destruct e. Qed.

Lemma wp_plan_error (e : GovernorError) D σ :
  fresh_host P authority σ → wpc (Ret (governor_error (E:=E) (A:=T) e)) (replied P authority) D σ.
Proof.
  intros H%fresh_unsubmitted.
  eapply (Holding.wp_ret P authority caps _ _ _ (frame_unsubmitted P authority caps never_silent) issued_none);
    [exact H|].
  intros σ1 H1. apply replied_clear; [done|]. eapply tied_mono; [|exact H1]. by left.
Qed.

(** Everything between the plan and the dispatch. *)
Lemma wp_sync_path plan (k : ExecutionLease → task (op T E M) (RunError E + T)) σ :
  Build.plan rt spec opts (sync_path cpu) = inr plan → fresh_host P authority σ →
  (∀ l σ, tied P authority unsubmitted (lease_fact caps l) σ →
     wpc (k l) (replied P authority) (caller_closed P authority) σ) →
  wpc (if boundary_conflict opts response_by then Ret conflict_error
       else
         lease ← acquire_execution_lease P (rt_cpu_capabilities rt) opts plan response_by;
         try lease (λ lease, unless_late lease response_by k))
    (replied P authority) (caller_closed P authority) σ.
Proof.
  intros Hplan Hf Hk. destruct (boundary_conflict _ _); [by apply wp_plan_error|].
  apply (wp_acquired rt Htyped Hwf spec opts (sync_path cpu) _ _ _
    (frame_unsubmitted P authority caps never_silent) (issues_unsubmitted P authority caps)
    (watches_unsubmitted P authority caps _)); [done|..].
  - apply unsubmitted_closed.
  - intros e σ1. apply replied_clear.
  - intros l σ1 H1. assert (vp_requirements plan = caps) as Ec by (unfold path_caps; by rewrite Hplan).
    rewrite Ec in H1.
    apply (wp_unless_late P authority Htyped Hwf caps _ _ _ (frame_unsubmitted P authority caps never_silent));
      [done| |intros σ2; apply Hk].
    intros e σ2 H2. apply replied_error, unsubmitted_closed. eapply tied_mono; [|exact H2]. by right.
  - by apply fresh_unsubmitted.
Qed.

Lemma wp_run_sync σ :
  fresh_host P authority σ →
  wpc (run_sync rt cpu spec opts response_by) (replied P authority) (caller_closed P authority) σ.
Proof.
  intros Hf. rewrite run_sync_plan.
  destruct (Build.plan rt spec opts (sync_path cpu)) as [e|plan] eqn:Hplan; [by apply wp_plan_error|].
  apply wp_sync_path; [done..|]. intros l σ1 H1. unfold sync_dispatch.
  destruct cpu; [by apply wp_run_cpu_acquired|].
  destruct (vp_dispatch plan); try (by apply wp_run_blocking_on_pool).
  by apply wp_run_blocking_on_dedicated_thread.
Qed.

Lemma sync_starts_body σ p σ' :
  sync_starts rt cpu spec opts response_by σ p σ' →
  ∃ l, h_worker σ = Submitted l ∧ σ' = upd_worker Begun σ ∧
    ∀ σ, tied P authority unsent (lease_fact caps l) σ →
      wp (acts P authority (T:=T) (E:=E)) suspends (demands P authority caps)
        (others (interferes P authority) (caller_moves P authority caps))
        (worker_moves P authority caps never_silent) p (λ _, finished P authority) (λ _, False) σ.
Proof.
  intros [plan l σ1 _ El|plan l σ1 _ _ El]; exists l; (split; [done|]; split; [done|]); intros σ2 H2.
  - by apply wp_run_detached_job.
  - by apply wp_discard_job.
Qed.
End sync.

(** C8: A detached blocking or CPU job keeps custody to its end.  Let the call, its
    worker and any other callers of the governor interleave in any way, the call being
    possibly dropped while it waits, and its executor running the job or dropping it.
    The job only ever runs while the submission's own permit is live, dispatched under
    a lease and charging exactly the pools of the plan, whatever answer its caller
    already has; the caller sees the job's own result only once the permit is gone; when
    the call and the worker are over, nothing of the submission is left; and at every
    point each of the two, left alone, ends or comes to a place where it may wait: the
    call parked with its wake-up still to come, or waiting for a worker that is not
    over, in both cases neither cancelled nor late. *)
Theorem detached_settles rt cpu spec opts response_by {T E : Type}
    (σ : Host (DetachedOutcome T E)) c :
  let P := gv_policy (rt_governor rt) in let authority := gv_authority (rt_governor rt) in
  policies_typed P → policy_wf P → fresh_host P authority σ →
  rtc (pstep (acts P authority) suspends (sync_starts rt cpu spec opts response_by) (interferes P authority))
    (mkConfig (Calling (run_sync rt cpu spec opts response_by)) None σ) c →
  demands_met (path_demands rt spec opts (sync_path cpu)) c ∧ on_the_move P authority c ∧
  (∀ r : RunError E + T, cf_caller c = Calling (Ret r) → worked r = true →
     of_own own_gone (h_own (cf_state c)) (h_world (cf_state c))) ∧
  (over c → clear (h_own (cf_state c)) (h_world (cf_state c))).
Proof.
  intros P authority Htyped Hwf Hf Hr.
  destruct (pair_settles P authority Htyped (path_caps rt spec opts (sync_path cpu)) never_silent
    (sync_starts rt cpu spec opts response_by) (sync_starts_body rt cpu spec opts response_by Htyped Hwf)
    (run_sync rt cpu spec opts response_by) σ c Hf
    (wp_run_sync rt cpu spec opts response_by Htyped Hwf σ Hf) Hr) as (H1 & H0 & H2 & H3).
  split; [exact H1|]. split; [exact H0|]. split; [intros r E1 E2; by apply (H2 r)|]. intros Ho. by apply H3.
Qed.

(** ** The requested-stack path *)

(** The thread always runs its body. *)
Inductive requested_stack_starts (rt : TokioRuntime) {T E : Type} (spec : TaskSpec) (opts : SubmitOptions)
  : Host (AsyncThreadOutcome T E) → task (op T E (AsyncThreadOutcome T E)) () →
    Host (AsyncThreadOutcome T E) → Prop :=
  | requested_stack_runs plan l σ :
      Build.plan rt spec opts RunRequestedStack = inr plan → h_worker σ = Submitted l →
      requested_stack_starts rt spec opts σ
        (requested_stack_worker (vp_cancel plan) (vp_deadline plan) l) (upd_worker Begun σ).

Section requested.
Context (rt : TokioRuntime) (spec : TaskSpec) (opts : SubmitOptions) {T E : Type}.
Local Abbreviation P := (gv_policy (rt_governor rt)).
Local Abbreviation authority := (gv_authority (rt_governor rt)).
Context (Htyped : policies_typed P) (Hwf : policy_wf P).
Local Abbreviation M := (AsyncThreadOutcome T E).
Local Abbreviation caps := (path_caps rt spec opts RunRequestedStack).
Local Abbreviation wpc := (wp (acts P authority (T:=T) (E:=E) (M:=M)) suspends (demands P authority caps)
  (others (interferes P authority) (worker_moves P authority caps governor_silent))
  (caller_moves P authority caps)).
Implicit Types σ : Host M.

Lemma wp_run_requested_stack σ :
  fresh_host P authority σ →
  wpc (run_async_with_requested_stack_with rt spec opts) (replied P authority) (caller_closed P authority) σ.
Proof.
  intros (Hw & Ho & Hn & Hd). unfold run_async_with_requested_stack_with.
  assert (tied P authority unsubmitted issued_none σ) as H by done.
  assert (∀ (e : RunError E) σ, RunError.is_governor e = true → tied P authority unsubmitted clear σ →
    replied P authority (T:=T) (inl e) σ) as Herr.
  { intros e σ1 He H1. split; [by apply unsubmitted_closed|]. by destruct e. }
  destruct (Build.plan rt spec opts RunRequestedStack) as [e|plan] eqn:Hplan.
  - eapply (Holding.wp_ret P authority caps _ _ _ (frame_unsubmitted P authority caps governor_silent)
      issued_none); [exact H|].
    intros σ1 H1. apply Herr; [done|]. eapply tied_mono; [|exact H1]. by left.
  - apply (wp_acquired rt Htyped Hwf spec opts RunRequestedStack _ _ _
      (frame_unsubmitted P authority caps governor_silent) (issues_unsubmitted P authority caps)
    (watches_unsubmitted P authority caps _)); [done|..].
    + apply unsubmitted_closed.
    + exact Herr.
    + intros l σ1 H1. assert (vp_requirements plan = caps) as Ec by (unfold path_caps; by rewrite Hplan).
      rewrite Ec in H1. by apply wp_run_async_with_requested_stack_v1.
    + exact H.
Qed.

Lemma requested_stack_body σ p σ' :
  requested_stack_starts rt spec opts σ p σ' →
  ∃ l, h_worker σ = Submitted l ∧ σ' = upd_worker Begun σ ∧
    ∀ σ, tied P authority unsent (lease_fact caps l) σ →
      wp (acts P authority (T:=T) (E:=E)) suspends (demands P authority caps)
        (others (interferes P authority) (caller_moves P authority caps))
        (worker_moves P authority caps governor_silent) p (λ _, finished P authority) (λ _, False) σ.
Proof.
  intros [plan l σ1 _ El]; exists l; (split; [done|]; split; [done|]); intros σ2 H2.
  by apply wp_requested_stack_worker.
Qed.
End requested.

(** C9: A future driven on a requested stack keeps custody until its own runtime is torn
    down.  Whatever the interleaving with its caller, which may be answered early or
    dropped, and with any other callers: the future is driven, and a runtime that drove
    it is dropped, only while the submission's own permit is live, dispatched under a
    lease and charging exactly the pools of the plan; the caller sees the future's own
    result only once the permit is gone; when the call and the thread are over, nothing
    of the submission is left; and at every point each of the two, left alone, ends or
    comes to a place where it may wait, the call only for a thread that is not over. *)
Theorem requested_stack_settles rt spec opts {T E : Type} (σ : Host (AsyncThreadOutcome T E)) c :
  let P := gv_policy (rt_governor rt) in let authority := gv_authority (rt_governor rt) in
  policies_typed P → policy_wf P → fresh_host P authority σ →
  rtc (pstep (acts P authority) suspends (requested_stack_starts rt spec opts) (interferes P authority))
    (mkConfig (Calling (run_async_with_requested_stack_with rt spec opts)) None σ) c →
  demands_met (path_demands rt spec opts RunRequestedStack) c ∧ on_the_move P authority c ∧
  (∀ r : RunError E + T, cf_caller c = Calling (Ret r) → worked r = true →
     of_own own_gone (h_own (cf_state c)) (h_world (cf_state c))) ∧
  (over c → clear (h_own (cf_state c)) (h_world (cf_state c))).
Proof.
  intros P authority Htyped Hwf Hf Hr.
  destruct (pair_settles P authority Htyped (path_caps rt spec opts RunRequestedStack) governor_silent
    (requested_stack_starts rt spec opts) (requested_stack_body rt spec opts Htyped Hwf)
    (run_async_with_requested_stack_with rt spec opts) σ c Hf
    (wp_run_requested_stack rt spec opts Htyped Hwf σ Hf) Hr) as (H1 & H0 & H2 & H3).
  split; [exact H1|]. split; [exact H0|]. split; [intros r E1 E2; by apply (H2 r)|]. intros Ho. by apply H3.
Qed.

(** ** Runs *)

Section demo.
Local Open Scope string_scope.

(** Whether the call answered the value [v] and the worker is done. *)
Definition ended {E M} (v : N) (c : Config (F:=op N E M) (Σ:=Host M) (A:=RunError E + N)) : bool :=
  match cf_caller c, cf_worker c with
  | Calling (Ret (inr v')), Some (Ret _) => (v' =? v)%N
  | _, _ => false
  end.

Lemma ended_over {E M} v (c : Config (F:=op N E M) (Σ:=Host M) (A:=RunError E + N)) :
  ended v c = true → cf_caller c = Calling (Ret (inr v)) ∧ over c.
Proof.
  unfold ended, over. destruct (cf_caller c) as [[[e|v']| | |]|]; try done.
  destruct (cf_worker c) as [[[]| | |]|]; try done. intros ->%N.eqb_eq.
  split; [done|]. split; [left; by eexists|by left].
Qed.

(** The executor that runs what it is given. *)
Definition sync_start (rt : TokioRuntime) {T E : Type} (cpu : bool) (spec : TaskSpec)
    (opts : SubmitOptions) (response_by : option Instant) (σ : Host (DetachedOutcome T E))
  : option (task (op T E (DetachedOutcome T E)) () * Host (DetachedOutcome T E)) :=
  match Build.plan rt spec opts (sync_path cpu), h_worker σ with
  | inr plan, Submitted l =>
    Some (run_detached_job l (worker_context (vp_dispatch plan)) response_by, upd_worker Begun σ)
  | _, _ => None
  end.

Lemma sync_start_ok rt {T E} cpu spec opts response_by (σ : Host (DetachedOutcome T E)) p σ' :
  sync_start rt cpu spec opts response_by σ = Some (p, σ') →
  sync_starts rt cpu spec opts response_by σ p σ'.
Proof.
  unfold sync_start. destruct (Build.plan _ _ _ _) as [e|plan] eqn:Hplan; [done|].
  destruct (h_worker σ) as [|l|] eqn:El; try done. intros [= <- <-]. by apply sync_runs.
Qed.

Definition demo_cpu : TaskSpec := demo_task "query" "job".

Lemma demo_fresh {M} P authority : fresh_host P authority (demo_host (M:=M) World_initial).
Proof. split; [apply reachable_initial|done]. Qed.

Lemma detached_settles_witness :
  ∃ c : Config (F:=op N () (DetachedOutcome N ())),
    rtc (pstep (acts demo_policy 1) suspends (sync_starts demo_runtime true demo_cpu unbounded None)
          (interferes demo_policy 1))
      (mkConfig (Calling (run_sync demo_runtime true demo_cpu unbounded None)) None (demo_host World_initial)) c ∧
    cf_caller c = Calling (Ret (inr 5)) ∧ of_own own_gone (h_own (cf_state c)) (h_world (cf_state c)).
Proof.
  set (c0 := mkConfig (F:=op N () (DetachedOutcome N ()))
    (Calling (run_sync demo_runtime true demo_cpu unbounded None)) None (demo_host World_initial)).
  set (c := drive (perform demo_policy 1 (inr 5)) (sync_start demo_runtime true demo_cpu unbounded None) 1000 c0).
  assert (ended 5 c = true) as [Hc Ho]%ended_over by (vm_compute; reflexivity).
  assert (rtc (pstep (acts demo_policy 1) suspends (sync_starts demo_runtime true demo_cpu unbounded None)
    (interferes demo_policy 1)) c0 c) as Hr.
  { apply drive_runs; [apply perform_acts|apply sync_start_ok]. }
  exists c. split; [exact Hr|]. split; [exact Hc|].
  destruct (detached_settles demo_runtime true demo_cpu unbounded None (demo_host World_initial) c
    demo_typed demo_wf (demo_fresh _ _) Hr) as (_ & _ & Hg & _). by apply (Hg (inr 5)).
Defined.

(** The built runtime of Builds.v, which has a pool for requested stacks. *)
Definition built_runtime : TokioRuntime :=
  match demo_build with Some (inr rt, _) => rt | _ => demo_runtime end.
Local Abbreviation built_policy := (gv_policy (rt_governor built_runtime)).
Local Abbreviation built_authority := (gv_authority (rt_governor built_runtime)).

Lemma built_wf : policy_wf built_policy.
Proof. apply validate_policy_inr. vm_compute. reflexivity. Qed.

Lemma built_typed : policies_typed built_policy.
Proof.
  intros class policy. unfold ps_class.
  assert (ps_classes built_policy = {["query" := mkClassPolicy 4 8 (mkPermitCost 1 1) Fifo Estimated
    OnTaskCompletion OvercommitReject QueueWithinDepth RetryNone CooperativeWithDeadline
    CheckpointPolicy_default false]}) as -> by (vm_compute; reflexivity).
  intros [_ <-]%lookup_singleton_Some. split; cbn; ulia.
Qed.

Definition demo_stacked : TaskSpec := {|
  ts_class := "query"; ts_operation := "op"; ts_root_operation_id := "op";
  ts_source := "internal"; ts_reason := ExplicitMapping; ts_scope := Root;
  ts_stack_size_bytes := Some 1048576;
  ts_stages := [mkStage "query" "solve" LargeStackCapability false None];
|}.

Definition requested_stack_start (rt : TokioRuntime) {T E : Type} (spec : TaskSpec)
    (opts : SubmitOptions) (σ : Host (AsyncThreadOutcome T E))
  : option (task (op T E (AsyncThreadOutcome T E)) () * Host (AsyncThreadOutcome T E)) :=
  match Build.plan rt spec opts RunRequestedStack, h_worker σ with
  | inr plan, Submitted l =>
    Some (requested_stack_worker (vp_cancel plan) (vp_deadline plan) l, upd_worker Begun σ)
  | _, _ => None
  end.

Lemma requested_stack_start_ok rt {T E} spec opts (σ : Host (AsyncThreadOutcome T E)) p σ' :
  requested_stack_start rt spec opts σ = Some (p, σ') → requested_stack_starts rt spec opts σ p σ'.
Proof.
  unfold requested_stack_start. destruct (Build.plan _ _ _ _) as [e|plan] eqn:Hplan; [done|].
  destruct (h_worker σ) as [|l|] eqn:El; try done. intros [= <- <-]. by apply requested_stack_runs.
Qed.

Lemma requested_stack_settles_witness :
  ∃ c : Config (F:=op N () (AsyncThreadOutcome N ())),
    rtc (pstep (acts built_policy built_authority) suspends
          (requested_stack_starts built_runtime demo_stacked unbounded)
          (interferes built_policy built_authority))
      (mkConfig (Calling (run_async_with_requested_stack_with built_runtime demo_stacked unbounded)) None
        (demo_host World_initial)) c ∧
    cf_caller c = Calling (Ret (inr 5)) ∧ of_own own_gone (h_own (cf_state c)) (h_world (cf_state c)).
Proof.
  set (c0 := mkConfig (F:=op N () (AsyncThreadOutcome N ()))
    (Calling (run_async_with_requested_stack_with built_runtime demo_stacked unbounded)) None
    (demo_host World_initial)).
  set (c := drive (perform built_policy built_authority (inr 5))
    (requested_stack_start built_runtime demo_stacked unbounded) 1000 c0).
  assert (ended 5 c = true) as [Hc Ho]%ended_over by (vm_compute; reflexivity).
  assert (rtc (pstep (acts built_policy built_authority) suspends
    (requested_stack_starts built_runtime demo_stacked unbounded) (interferes built_policy built_authority)) c0 c)
    as Hr by (apply drive_runs; [apply perform_acts|apply requested_stack_start_ok]).
  exists c. split; [exact Hr|]. split; [exact Hc|].
  destruct (requested_stack_settles built_runtime demo_stacked unbounded (demo_host World_initial) c
    built_typed built_wf (demo_fresh _ _) Hr) as (_ & _ & Hg & _). by apply (Hg (inr 5)).
Defined.
End demo.
