(* ===== verification/Drain.v ===== *)
(** * Graceful drain

    crates/taskmesh/src/runtime/drain.rs: [DrainSignal] and [TokioRuntime::drain].  The
    drain closes the engine's gate, then waits, woken by every call of the engine that
    may have returned custody, until a snapshot shows no class with work.  Its answer
    is the engine's: an [Ok] means that nothing is left and nothing can come back; and
    while it waits it never misses the last return of custody. *)

From S2P Require Import Prelude Contract Text Validation Kernel Errors Arbiter PolicyCheck.
From S2P Require Import Requirements State Assess Fairness Admission Memory Observe Governor.
From S2P Require Import Policies Books Custody Ledger Moves Reads Invariant Steps Selection.
From S2P Require Import Sections Trace System Queues Runs Fifo Consistency Fates Gates Snapshots.
From S2P Require Import Tasks Host.

(** ** The engine's gauges *)

(** [Outstanding], and [outstanding]: the classes with work still charged. *)
Record Outstanding := mkOutstanding { os_inflight : N; os_queued : N }.

#[export] Instance Outstanding_eq_dec : EqDecision Outstanding.
Proof. solve_decision. Defined.

Definition class_outstanding (c : ClassSnapshot) : option Outstanding :=
  if decide (0 < sn_inflight c ∨ 0 < sn_queued c)
  then Some (mkOutstanding (sn_inflight c) (sn_queued c)) else None.
Definition outstanding (sn : Snapshot) : gmap string Outstanding := omap class_outstanding (sn_classes sn).

(** Nothing is live and nothing waits. *)
Definition idle (s : GovernedState) : Prop := ∀ pid, ¬ known s pid.

Section gauges.
Context (P : PolicySet) (authority : N) (Htyped : policies_typed P).
Context (w : World) (Hw : reachable P authority w).

Lemma queued_projection s class : sn_queued (class_projection (class_state s class)) = queued s class.
Proof. unfold queued, class_state. by destruct (gs_classes s !! class). Qed.

Lemma outstanding_class class :
  is_Some (gs_classes (w_state w) !! class) →
  0 < cs_inflight (class_state (w_state w) class) ∨ 0 < queued (w_state w) class →
  is_Some (outstanding (snapshot P (w_state w)) !! class).
Proof.
  intros Hc Hpos. destruct (snapshot_covers P (w_state w) class) as [sn Hsn]; [by right|].
  unfold outstanding. rewrite lookup_omap, Hsn. cbn. apply snapshot_class in Hsn as ->.
  unfold class_outstanding. rewrite decide_True; [by eexists|]. by rewrite queued_projection.
Qed.

(** The snapshot shows no class with work exactly when nothing is left. *)
Lemma outstanding_idle : outstanding (snapshot P (w_state w)) = ∅ ↔ idle (w_state w).
Proof.
  destruct (reachable_inv P authority w Htyped Hw) as (B & HI & _).
  pose proof (books_ledger _ _ (inv_books _ _ _ HI)) as HL. split.
  - intros E pid. assert (∀ class, ¬ is_Some (outstanding (snapshot P (w_state w)) !! class)) as Hn.
    { intros class [x Hx]. by rewrite E, lookup_empty in Hx. }
    intros [[r Hr]|(class & q & Hq & _)].
    + apply (Hn (rec_class r)), outstanding_class.
      * by destruct (live_class _ _ _ HL Hr) as [c ->].
      * left. pose proof (live_inflight _ _ _ HL Hr). lia.
    + apply (Hn class), outstanding_class.
      * unfold waiting, class_state in Hq. destruct (gs_classes (w_state w) !! class); [done|].
        by apply elem_of_nil in Hq.
      * right. rewrite queued_waiting. destruct (waiting (w_state w) class); [by apply elem_of_nil in Hq|].
        cbn [length]. ulia.
  - intros Hi. apply map_empty. intros class. unfold outstanding. rewrite lookup_omap.
    destruct (sn_classes _ !! class) as [sn|] eqn:Hsn; [|done]. cbn. apply snapshot_class in Hsn as ->.
    unfold class_outstanding. rewrite decide_False; [done|]. rewrite queued_projection. intros [H|H].
    + pose proof (HL (GInflight class)) as Hg. cbn in Hg, H. rewrite Hg in H.
      apply msum_pos in H as (pid & r & Hr & _). apply (Hi pid). left. by eexists.
    + rewrite queued_waiting in H.
      destruct (waiting (w_state w) class) as [|q l] eqn:Eq; [cbn in H; lia|].
      apply (Hi (pr_permit_id q)). right. exists class, q. rewrite Eq. split; [by left|done].
Qed.
End gauges.

(** ** Who can make the engine idle *)

(** The calls that may return custody: they end in [drain_effects], so they ping. *)
Definition returning (a : Action) : bool :=
  match a with
  | AAdmitCompensate _ | AClaimCompensate _ | AAbandon _ | ARelease _ _ | AReconcile _
  | AStageRelease _ | AReap => true
  | AIssue | AAdmit _ | AClaimBegin _ | AClaimFinish _ | AAdvance _ | AContinue | AClose => false
  end.

Record stays_known (s s' : GovernedState) : Prop := {
  sk_permits pid : is_Some (gs_permits s !! pid) → is_Some (gs_permits s' !! pid);
  sk_waiting class : waiting s' class = waiting s class;
}.

Lemma stays_known_known s s' pid : stays_known s s' → known s pid → known s' pid.
Proof.
  intros [H1 H2] [Hp|(class & q & Hq & E)]; [left; auto|right]. exists class, q. by rewrite H2.
Qed.

Lemma same_charges_stays s s' : same_charges s s' → stays_known s s'.
Proof. intros H. split; [by rewrite (sc_permits _ _ H)|intros class; by apply same_charges_waiting]. Qed.

Lemma insert_stays s s' pid r :
  gs_permits s' = <[pid := r]> (gs_permits s) → (∀ class, waiting s' class = waiting s class) →
  stays_known s s'.
Proof.
  intros E Hq. split; [|done]. intros pid' Hp. rewrite E, lookup_insert_is_Some.
  destruct (decide (pid = pid')); auto.
Qed.

Lemma commit_time_stays sampled s : stays_known s (commit_time sampled s).2.
Proof. by split. Qed.

#[export] Instance stays_known_preorder : PreOrder stays_known.
Proof.
  split; [by split|]. intros s1 s2 s3 [A1 B1] [A2 B2]. split; [auto|]. intros class. by rewrite B2.
Qed.

Lemma claim_begin_stays sampled t s out s' e :
  claim_begin_section sampled t s = (out, s', e) → stays_known s s'.
Proof.
  unfold claim_begin_section. pose proof (commit_time_stays sampled s) as Hc.
  destruct (commit_time sampled s) as [now s1]. cbn [snd] in Hc. intros H. transitivity s1; [done|].
  destruct (gs_tickets s1 !! t) as [[class|pid|pid|reason|]|]; try (by simplify_eq);
    try (simplify_eq; apply same_charges_stays, forget_terminal_charges).
  destruct (gs_permits s1 !! pid) as [r|]; simplify_eq; [|done]. by eapply insert_stays.
Qed.

Lemma claim_finish_stays sampled t s out s' :
  claim_finish_section sampled t s = (out, s') → stays_known s s'.
Proof.
  unfold claim_finish_section. pose proof (commit_time_stays sampled s) as Hc.
  destruct (commit_time sampled s) as [now s1]. cbn [snd] in Hc. intros H. transitivity s1; [done|].
  destruct (gs_tickets s1 !! t) as [[class|pid|pid|reason|]|]; try (by simplify_eq);
    try (simplify_eq; apply same_charges_stays, forget_terminal_charges).
  destruct (gs_permits s1 !! pid) as [r|]; simplify_eq; [by eapply insert_stays|].
  apply same_charges_stays, record_terminal_charges.
Qed.

(** With the gate closed, a call that does not ping ends no permit and no wait. *)
Lemma quiet_stays P authority w a e w' :
  lstep P authority w a e w' → returning a = false → a ≠ AContinue →
  gs_admission_closed (w_state w) = true → stays_known (w_state w) (w_state w').
Proof.
  intros [ids k _|k _|sampled req caps waker ids out d s e' _ _ Ha|?????|sampled t out s e' H|???????
    |sampled t out s H|??????|???????|pid phase out nonces s H|????????|????????|??????|????|] Hr Hn Hc;
    try done; cbn [w_state with_state].
  - unfold admit_section in Ha. pose proof (commit_time_stays sampled (w_state w)) as Hs.
    assert (gs_admission_closed (commit_time sampled (w_state w)).2 = true) as Hc' by done.
    destruct (commit_time sampled (w_state w)) as [now s1]. cbn [snd] in *.
    unfold admit_request in Ha. rewrite Hc' in Ha. unfold refuse in Ha. by simplify_eq.
  - by eapply claim_begin_stays.
  - by eapply claim_finish_stays.
  - assert (∀ class, waiting s class = waiting (w_state w) class) as Hq.
    { intros class. by injection (sq_view _ _ (advance_queues _ _ _ _ _ _ _ H) class). }
    apply advance_phase_cases in H as [(_ & _ & _ & ->)|(r & Hp & _ & -> & _)]; [done|].
    by eapply insert_stays.
Qed.

(** An idle engine behind a closed gate stays idle. *)
Lemma idle_effect P authority w w' :
  effect P authority w w' → gs_admission_closed (w_state w) = true → idle (w_state w) → idle (w_state w').
Proof. intros He Hc Hi pid Hk. eapply Hi, effect_closed; eauto. Qed.

(** ** The drain's surroundings *)

(** [DrainReport] and [NotDrained]. *)
Record DrainReport := mkDrainReport { dr_elapsed : Duration; dr_classes_drained : N }.
Record NotDrained := mkNotDrained { nd_classes : gmap string Outstanding; nd_elapsed : Duration }.

(** [DrainSignal]: the mirror and the notifier; with the calls of the engine that
    still owe it a ping (their custody is returned, the mirror not read yet), and those
    that read it set and are about to notify. *)
Record DrainHost := mkDrainHost {
  dh_world : World;
  dh_now : Instant;
  dh_draining : bool;
  dh_owing : N;
  dh_pinging : N;
  dh_settled : bool;
}.

Inductive drain_op : Type → Type :=
  | DNow : drain_op Instant
  | DBegin : drain_op ()
  | DClose : drain_op ()
  | DNotified : drain_op ()
  | DSnapshot : drain_op Snapshot
  | DWait (deadline : option Instant) : drain_op bool.

Definition drain_suspends X (o : drain_op X) : bool := match o with DWait _ => true | _ => false end.

Definition upd_dh_world (w : World) (σ : DrainHost) : DrainHost :=
  mkDrainHost w (dh_now σ) (dh_draining σ) (dh_owing σ) (dh_pinging σ) (dh_settled σ).
Definition dh_state (σ : DrainHost) : GovernedState := w_state (dh_world σ).

Definition drain_acts (P : PolicySet) X (o : drain_op X) : DrainHost → X → DrainHost → Prop :=
  match o in drain_op X return DrainHost → X → DrainHost → Prop with
  | DNow => λ σ x σ', x = dh_now σ ∧ σ' = σ
  | DBegin => λ σ _ σ',
      σ' = mkDrainHost (dh_world σ) (dh_now σ) true (dh_owing σ) (dh_pinging σ) (dh_settled σ)
  | DClose => λ σ _ σ',
      room (N.of_nat PROMOTION_BUDGET) (dh_state σ) ∧
      σ' = upd_dh_world (with_state (close_admission (dh_state σ)) (dh_world σ)) σ
  | DNotified => λ σ _ σ',
      σ' = mkDrainHost (dh_world σ) (dh_now σ) (dh_draining σ) (dh_owing σ) (dh_pinging σ) false
  | DSnapshot => λ σ x σ', x = snapshot P (dh_state σ) ∧ σ' = σ
  | DWait deadline => λ σ x σ',
      σ' = σ ∧ if x : bool then dh_settled σ = true else has_passed (dh_now σ) deadline = true
  end.

(** Everybody else: critical sections, of which the returning ones owe a ping until the
    call reads the mirror and, if it is set, wakes every waiter; continuation passes of
    such calls; and time. *)
Inductive drain_env (P : PolicySet) (authority : N) : relation DrainHost :=
  | env_quiet a e w' σ :
      room (N.of_nat PROMOTION_BUDGET) (dh_state σ) → lstep P authority (dh_world σ) a e w' →
      returning a = false → a ≠ AContinue → drain_env P authority σ (upd_dh_world w' σ)
  | env_returning a e w' σ :
      room (N.of_nat PROMOTION_BUDGET) (dh_state σ) → lstep P authority (dh_world σ) a e w' →
      returning a = true →
      drain_env P authority σ
        (mkDrainHost w' (dh_now σ) (dh_draining σ) (dh_owing σ + 1) (dh_pinging σ) (dh_settled σ))
  | env_continue e w' σ :
      room (N.of_nat PROMOTION_BUDGET) (dh_state σ) → lstep P authority (dh_world σ) AContinue e w' →
      0 < dh_owing σ → drain_env P authority σ (upd_dh_world w' σ)
  | env_load σ :
      0 < dh_owing σ →
      drain_env P authority σ
        (mkDrainHost (dh_world σ) (dh_now σ) (dh_draining σ) (dh_owing σ - 1)
           (if dh_draining σ then dh_pinging σ + 1 else dh_pinging σ) (dh_settled σ))
  | env_ping σ :
      0 < dh_pinging σ →
      drain_env P authority σ
        (mkDrainHost (dh_world σ) (dh_now σ) (dh_draining σ) (dh_owing σ) (dh_pinging σ - 1) true)
  | env_time now σ :
      dh_now σ ≤ now →
      drain_env P authority σ
        (mkDrainHost (dh_world σ) now (dh_draining σ) (dh_owing σ) (dh_pinging σ) (dh_settled σ)).

(** ** [TokioRuntime::drain] *)

Definition settled_report (started now : Instant) (sn : Snapshot) : DrainReport :=
  mkDrainReport (now - started) (N.of_nat (size (sn_classes sn))).

(** The look after the deadline. *)
Definition final_look (started : Instant) : task drain_op (NotDrained + DrainReport) :=
  sn ← call DSnapshot;
  if decide (outstanding sn = ∅) then now ← call DNow; Ret (inr (settled_report started now sn))
  else now ← call DNow; Ret (inl (mkNotDrained (outstanding sn) (now - started))).

(** One round of the loop. *)
Definition drain_round (started : Instant) (deadline : option Instant)
  : task drain_op (() + (NotDrained + DrainReport)) :=
  _ ← call DNotified;
  sn ← call DSnapshot;
  if decide (outstanding sn = ∅) then
    now ← call DNow; Ret (inr (inr (settled_report started now sn)))
  else
    settled ← call (DWait deadline);
    if settled : bool then Ret (inl ()) else x ← final_look started; Ret (inr x).

Definition TokioRuntime_drain (timeout : Duration) : task drain_op (NotDrained + DrainReport) :=
  started ← call DNow;
  _ ← call DBegin;
  _ ← call DClose;
  loop () (λ _, drain_round started (instant_add started timeout)).

(** [is_draining]. *)
Definition is_draining (s : GovernedState) : bool := gs_admission_closed s.

(** ** Its promises *)

Section promises.
Context (P : PolicySet) (authority : N) (Htyped : policies_typed P).
Implicit Types σ : DrainHost.

(** The last return of custody cannot be missed: facing an idle engine, the drain's
    [Notified] is completed, or a call is on its way to complete it. *)
Definition wakeable σ : Prop :=
  idle (dh_state σ) → dh_settled σ = true ∨ 0 < dh_owing σ + dh_pinging σ.
Definition drain_demands X (o : drain_op X) σ : Prop :=
  match o with DWait _ => wakeable σ | _ => True end.

(** After the close: every return of custody will find the mirror set. *)
Record draining (started : Instant) σ : Prop := {
  dn_reachable : reachable P authority (dh_world σ);
  dn_closed : gs_admission_closed (dh_state σ) = true;
  dn_mirror : dh_draining σ = true;
  dn_started : started ≤ dh_now σ;
}.

(** Where the drain may stand still: waiting, the deadline not reached, while work is
    left or a notification is on its way. *)
Definition drain_may_wait X (o : drain_op X) σ : Prop :=
  match o with
  | DWait deadline =>
    has_passed (dh_now σ) deadline = false ∧ (idle (dh_state σ) → 0 < dh_owing σ + dh_pinging σ)
  | DClose => ¬ room (N.of_nat PROMOTION_BUDGET) (dh_state σ)
  | _ => False
  end.

Lemma drain_progress X (o : drain_op X) σ :
  drain_demands X o σ → (∃ x σ', drain_acts P X o σ x σ') ∨ drain_may_wait X o σ.
Proof.
  destruct o; cbn; try (intros _; left; by eexists (), _); try (intros _; left; by eexists _, _).
  - destruct (decide (room (N.of_nat PROMOTION_BUDGET) (dh_state σ))); [|by right]. left. by eexists (), _.
  - intros Hw. destruct (dh_settled σ) eqn:Es; [left; by exists true, σ|].
    destruct (has_passed (dh_now σ) deadline) eqn:Ep; [left; by exists false, σ|]. right. split; [done|].
    intros Hi. destruct (Hw Hi); [congruence|done].
Qed.

Lemma final_look_ends started σ :
  Tasks.wp (drain_acts P) drain_suspends (λ _ _ _, True) eq (λ _ _, True)
    (final_look started) (λ _ _, True) (λ _, True) σ.
Proof.
  intros σ1 <-. split; [done|]. split; [done|]. intros sn σ1 _. split; [done|].
  cbn [mbind task_mbind task_bind call].
  case_decide; intros σ2 <-; (split; [done|]); (split; [done|]); intros now σ3 _; (split; [done|]); by intros σ4 _.
Qed.

(** A round that nobody interferes with is the last one: it forgot its notification. *)
Lemma drain_round_last started deadline σ σ' :
  ¬ rtc (quiet_step (drain_acts P)) (drain_round started deadline, σ) (Ret (inl ()), σ').
Proof.
  intros Hr. assert (Tasks.wp (drain_acts P) drain_suspends (λ _ _ _, True) eq (λ _ _, True)
    (drain_round started deadline) (λ x _, x ≠ inl ()) (λ _, True) σ) as Hwp.
  { intros σ1 <-. split; [done|]. split; [done|]. intros [] σ1 ->. split; [done|].
    intros σ2 <-. split; [done|]. split; [done|]. intros sn σ2 [-> ->]. split; [done|].
    cbn [mbind task_mbind task_bind call]. case_decide.
    { intros σ2 <-. split; [done|]. split; [done|]. intros now σ2 _. split; [done|]. by intros σ3 <-. }
    intros σ2 <-. split; [done|]. split; [done|]. intros [] σ2 [-> Hs]; [done|]. split; [done|].
    cbn [mbind task_mbind task_bind call]. apply wp_bind; [apply _|].
    eapply wp_mono; [| |apply final_look_ends]; [|done]. by intros r σ3 _ σ4 <-. }
  exact (wp_returns _ _ _ eq (λ _ _, True) _ _ _ _ _ _ Hwp Hr eq_refl).
Qed.

(** What a step of anybody else does to the engine. *)
Lemma drain_env_world σ σ' :
  drain_env P authority σ σ' → reachable P authority (dh_world σ) →
  reachable P authority (dh_world σ') ∧
  (dh_world σ' = dh_world σ ∨ effect P authority (dh_world σ) (dh_world σ')) ∧
  dh_draining σ' = dh_draining σ ∧ dh_now σ ≤ dh_now σ'.
Proof.
  intros He Hw. assert (∀ a e w', room (N.of_nat PROMOTION_BUDGET) (dh_state σ) →
    lstep P authority (dh_world σ) a e w' →
    reachable P authority w' ∧ effect P authority (dh_world σ) w') as Hstep.
  { intros a e w' Hroom Hs. split; [eapply reachable_step; [done..|by eapply lstep_wstep]|].
    eapply effect_any, lstep_effect; [done|by eapply reachable_ok|done|exact Hs]. }
  destruct He as [a e w' σ Hroom Hs _ _|a e w' σ Hroom Hs _|e w' σ Hroom Hs _|σ _|σ _|now σ Hnow]; cbn;
    try (destruct (Hstep _ _ _ Hroom Hs) as [? ?]); split_and!; auto; lia.
Qed.

Lemma draining_stable started σ σ' :
  rtc (drain_env P authority) σ σ' → draining started σ → draining started σ'.
Proof.
  intros Hr. induction Hr as [σ|σ σ1 σ' He _ IH]; [done|]. intros [H1 H2 H3 H4]. apply IH.
  destruct (drain_env_world _ _ He H1) as (H5 & H6 & H7 & H8). split; [done| |congruence|lia].
  unfold dh_state in *. destruct H6 as [-> |H6]; [done|]. by apply (effect_switched _ _ _ _ H6).
Qed.

(** Nobody makes the engine idle behind the drain's back. *)
Lemma wakeable_stable started σ σ' :
  rtc (drain_env P authority) σ σ' → draining started σ → wakeable σ → wakeable σ'.
Proof.
  intros Hr. induction Hr as [σ|σ σ1 σ' He Hr IH]; [done|]. intros Hd Hwk.
  assert (draining started σ1) as Hd1 by (eapply draining_stable; [by apply rtc_once|done]).
  apply IH; [done|]. clear IH Hr. pose proof (dn_closed _ _ Hd) as Hc. pose proof (dn_mirror _ _ Hd) as Hm.
  unfold wakeable in *.
  destruct He as [a e w' σ Hroom Hs Hq Hn|a e w' σ Hroom Hs Hq|e w' σ Hroom Hs Ho|σ Ho|σ Ho|now σ Hnow];
    unfold dh_state in *; cbn in *; try (by (left + (right; lia))); try (intros _; right; lia).
  - intros Hi. apply Hwk. intros pid Hk. apply (Hi pid). eapply stays_known_known; [|exact Hk].
    by eapply quiet_stays.
  - rewrite Hm. intros _. right. lia.
  - done.
Qed.

Lemma idle_stable started σ σ' :
  rtc (drain_env P authority) σ σ' → draining started σ → idle (dh_state σ) → idle (dh_state σ').
Proof.
  intros Hr. induction Hr as [σ|σ σ1 σ' He Hr IH]; [done|]. intros Hd Hi.
  assert (draining started σ1) as Hd1 by (eapply draining_stable; [by apply rtc_once|done]).
  apply IH; [done|]. destruct (drain_env_world _ _ He (dn_reachable _ _ Hd)) as (_ & Hw & _).
  unfold dh_state in *. destruct Hw as [-> |Hw]; [done|]. eapply idle_effect; [exact Hw|apply Hd|done].
Qed.

(** ** The loop *)

Local Abbreviation wp :=
  (wp (drain_acts P) drain_suspends drain_demands (rtc (drain_env P authority)) (λ _ _, True)).

(** What the answers say. *)
Definition drained (started : Instant) (timeout : Duration) (r : NotDrained + DrainReport) σ : Prop :=
  draining started σ ∧
  match r with
  | inr _ => idle (dh_state σ)
  | inl nd => nd_classes nd ≠ ∅ ∧ timeout ≤ nd_elapsed nd
  end.

Lemma drained_stable started timeout r σ σ' :
  rtc (drain_env P authority) σ σ' → drained started timeout r σ → drained started timeout r σ'.
Proof.
  intros Hr [H1 H2]. split; [by eapply draining_stable|]. destruct r; [done|by eapply idle_stable].
Qed.

Lemma wp_report started timeout sn σ :
  draining started σ → idle (dh_state σ) →
  wp (now ← call DNow; Ret (inr (settled_report started now sn))) (drained started timeout)
    (draining started) σ.
Proof.
  intros H1 H2 σ1 Hr. split; [done|]. split; [done|]. intros now σ2 [_ ->]. split; [done|].
  intros σ3 Hr'. eapply drained_stable; [exact Hr'|]. eapply drained_stable; [exact Hr|]. by split.
Qed.

(** A look at the gauges. *)
Lemma look started σ :
  draining started σ → outstanding (snapshot P (dh_state σ)) = ∅ → idle (dh_state σ).
Proof. intros H. by apply (outstanding_idle P authority Htyped), (dn_reachable _ _ H). Qed.

Lemma wp_final_look started timeout σ :
  draining started σ → started + timeout ≤ dh_now σ →
  wp (final_look started) (drained started timeout) (draining started) σ.
Proof.
  intros H Ht σ1 Hr. pose proof (draining_stable _ _ _ Hr H) as H1.
  assert (∀ σ σ', rtc (drain_env P authority) σ σ' → draining started σ → dh_now σ ≤ dh_now σ') as Hnow.
  { clear -Htyped. intros σ σ' Hr. induction Hr as [σ|σ σ1 σ' He _ IH]; [done|]. intros Hd.
    destruct (drain_env_world _ _ He (dn_reachable _ _ Hd)) as (_ & _ & _ & Hn).
    transitivity (dh_now σ1); [done|]. apply IH. eapply draining_stable; [by apply rtc_once|done]. }
  pose proof (Hnow _ _ Hr H) as Hn1. split; [done|]. split; [done|]. intros sn σ2 [-> ->]. split; [done|].
  cbn. case_decide as Ho; [by apply wp_report; [|eapply look]|].
  intros σ3 Hr3. split; [done|]. split; [done|]. intros now σ4 [-> ->]. split; [done|].
  pose proof (Hnow _ _ Hr3 H1) as Hn3. intros σ5 Hr5. eapply drained_stable; [exact Hr5|].
  split; [by eapply draining_stable|]. split; [done|cbn; lia].
Qed.

Lemma wp_drain_round started timeout σ :
  draining started σ →
  wp (drain_round started (instant_add started timeout))
    (λ x σ, match x with inl _ => draining started σ | inr r => drained started timeout r σ end)
    (draining started) σ.
Proof.
  intros H σ1 Hr. pose proof (draining_stable _ _ _ Hr H) as H1.
  split; [done|]. split; [done|]. intros [] σ2 ->. split; [done|].
  intros σ3 Hr3. assert (draining started σ3) as H3.
  { eapply draining_stable; [exact Hr3|]. by destruct H1. }
  split; [done|]. split; [done|]. intros sn σ4 [-> ->]. split; [done|].
  cbn [mbind task_mbind task_bind call]. case_decide as Ho.
  { intros σ5 Hr5. split; [done|]. split; [done|]. intros now σ6 [_ ->].
    split; [done|]. intros σ7 Hr7. eapply drained_stable; [exact Hr7|].
    eapply drained_stable; [exact Hr5|]. split; [done|by eapply look]. }
  intros σ5 Hr5. pose proof (draining_stable _ _ _ Hr5 H3) as H5. split.
  { eapply (wakeable_stable started); [exact Hr5|done|]. intros Hi. destruct Ho.
    by apply (outstanding_idle P authority Htyped _ (dn_reachable _ _ H3)). }
  split; [done|]. intros settled σ6 [-> Hs]. split; [done|].
  cbn [mbind task_mbind task_bind call]. destruct settled; [intros σ7 Hr7; by eapply draining_stable|].
  apply has_passed_Some in Hs as (d & Hd & Hle). apply checked_add_Some in Hd as [-> _].
  apply wp_bind; [apply _|]. eapply wp_mono; [| |by apply (wp_final_look started timeout)]; [|done].
  intros r σ7 H7 σ8 Hr8. by eapply drained_stable.
Qed.

Lemma wp_drain timeout σ :
  reachable P authority (dh_world σ) →
  wp (TokioRuntime_drain timeout) (λ r σ, ∃ started, drained started timeout r σ)
    (λ σ, gs_admission_closed (dh_state σ) = true ∧ reachable P authority (dh_world σ)) σ.
Proof.
  intros Hw. assert (∀ σ σ', rtc (drain_env P authority) σ σ' → reachable P authority (dh_world σ) →
    reachable P authority (dh_world σ') ∧ dh_now σ ≤ dh_now σ' ∧ dh_draining σ' = dh_draining σ) as Hst.
  { clear -Htyped. intros σ σ' Hr. induction Hr as [σ|σ σ1 σ' He _ IH]; [done|]. intros Hd.
    destruct (drain_env_world _ _ He Hd) as (H1 & _ & H2 & H3). destruct (IH H1) as (? & ? & ?).
    split_and!; [done|lia|congruence]. }
  intros σ1 Hr1. destruct (Hst _ _ Hr1 Hw) as (H1 & _). split; [done|]. split; [done|].
  intros started σ2 [-> ->]. split; [done|].
  intros σ3 Hr3. destruct (Hst _ _ Hr3 H1) as (H3 & N3 & _). split; [done|]. split; [done|].
  intros [] σ4 ->. split; [done|].
  intros σ5 Hr5. destruct (Hst _ _ Hr5 H3) as (H5 & N5 & M5). cbn in N5, M5. split; [done|]. split; [done|].
  intros [] σ6 [Hroom ->]. split; [done|].
  assert (draining (dh_now σ1) (upd_dh_world (with_state (close_admission (dh_state σ5)) (dh_world σ5)) σ5))
    as Hd.
  { split; cbn; [|done|done|lia]. eapply reachable_step; [done..|]. eapply lstep_wstep, step_close. }
  apply (wp_loop _ _ _ _ _ (λ _, draining (dh_now σ1)) (λ _ _, 0%nat));
    [done|intros _ ??; apply draining_stable|by intros [] σ8 [] σ9 _ H%drain_round_last|].
  intros [] σ7 H7. eapply wp_mono; [| |by apply (wp_drain_round (dh_now σ1) timeout)].
  - intros [[]|r] σ8 H8; [done|]. intros σ9 Hr9. exists (dh_now σ1). by eapply drained_stable.
  - intros σ8 H8. split; apply H8.
Qed.
End promises.

(** C10: A drain tells the truth and never misses the end.  Whatever the engine's other
    callers do meanwhile: an [Ok] of [TokioRuntime::drain] means that the gate is
    closed, that no permit is live and no request waits, that every snapshot shows no
    class with work, and that this stays so for ever; a [NotDrained] lists classes
    with work and comes only once the timeout has elapsed, the gate staying closed;
    wherever the drain waits, if nothing is left then its wake-up has been delivered or
    a call that is still under way will deliver it; and left alone it ends, or waits,
    before its deadline, for work that is left or such a call. *)
Theorem drain_correct P authority timeout σ out σ' :
  policies_typed P → reachable P authority (dh_world σ) →
  (ends (drain_acts P) drain_suspends (drain_env P authority) (TokioRuntime_drain timeout) σ out σ' →
   is_draining (dh_state σ') = true ∧
   match out with
   | Some (inr _) =>
     ∀ w, later P authority (dh_world σ') w →
       idle (w_state w) ∧ is_draining (w_state w) = true ∧ outstanding (snapshot P (w_state w)) = ∅
   | Some (inl nd) => nd_classes nd ≠ ∅ ∧ timeout ≤ nd_elapsed nd
   | None => True
   end) ∧
  (∀ q σ1, rtc (moves (drain_acts P) (drain_env P authority)) (TokioRuntime_drain timeout, σ) (q, σ1) →
   demanded drain_demands q σ1 ∧ lively (drain_acts P) drain_may_wait q σ1).
Proof.
  intros Htyped Hw. pose proof (wp_drain P authority Htyped timeout σ Hw) as Hwp.
  assert (∀ σ σ', drain_env P authority σ σ' →
    gs_admission_closed (dh_state σ) = true ∧ reachable P authority (dh_world σ) →
    gs_admission_closed (dh_state σ') = true ∧ reachable P authority (dh_world σ')) as HD.
  { intros σ1 σ2 He [Hc Hw1]. destruct (drain_env_world P authority Htyped _ _ He Hw1) as (Hw2 & Hs & _).
    split; [|done]. unfold dh_state in *. destruct Hs as [-> |Hs]; [done|]. by apply (effect_switched _ _ _ _ Hs). }
  split.
  - intros He. eapply (wp_ends _ _ _ (drain_env P authority) (λ _ _, True)) in Hwp; [|exact HD|exact He].
    destruct out as [[nd|report]|]; [| |by destruct Hwp].
    + destruct Hwp as (started & Hd & Hnd). split; [apply Hd|done].
    + destruct Hwp as (started & Hd & Hi). split; [apply Hd|]. intros w Hl.
      destruct (later_keeps P authority Htyped (λ w, gs_admission_closed (w_state w) = true ∧ idle (w_state w)))
        with (w := dh_world σ') (w' := w) as [Hc Hi']; [|apply Hd|done|split; [apply Hd|done]|].
      { intros w1 w2 _ Heff [Hc1 Hi1]. split; [by apply (effect_switched _ _ _ _ Heff)|by eapply idle_effect]. }
      split_and!; [done..|]. exact (proj2 (outstanding_idle P authority Htyped w
        (later_reachable P authority _ w (dn_reachable _ _ _ _ Hd) Hl)) Hi').
  - intros q σ1 Hr. split.
    + eapply (wp_runs_demanded _ drain_suspends _ (drain_env P authority) (λ _ _, True));
        [exact HD|exact Hr|exact Hwp].
    + eapply (wp_runs_lively _ drain_suspends _ (drain_env P authority) (λ _ _, True));
        [exact HD|intros X o; apply drain_progress|exact Hr|exact Hwp].
Qed.

(** ** Runs *)

(** The drain alone with its engine; a wait whose deadline has passed ends. *)
Definition perform_drain (P : PolicySet) X (o : drain_op X) : DrainHost → option (X * DrainHost) :=
  match o in drain_op X return DrainHost → option (X * DrainHost) with
  | DNow => λ σ, Some (dh_now σ, σ)
  | DBegin => λ σ, Some ((), mkDrainHost (dh_world σ) (dh_now σ) true (dh_owing σ) (dh_pinging σ) (dh_settled σ))
  | DClose => λ σ,
      if decide (room (N.of_nat PROMOTION_BUDGET) (dh_state σ)) then
        Some ((), upd_dh_world (with_state (close_admission (dh_state σ)) (dh_world σ)) σ)
      else None
  | DNotified => λ σ,
      Some ((), mkDrainHost (dh_world σ) (dh_now σ) (dh_draining σ) (dh_owing σ) (dh_pinging σ) false)
  | DSnapshot => λ σ, Some (snapshot P (dh_state σ), σ)
  | DWait deadline => λ σ,
      if dh_settled σ then Some (true, σ)
      else if has_passed (dh_now σ) deadline then Some (false, σ) else None
  end.

Lemma perform_drain_acts P X (o : drain_op X) σ x σ' :
  perform_drain P X o σ = Some (x, σ') → drain_acts P X o σ x σ'.
Proof.
  destruct o; cbn; intros H; try (by simplify_eq).
  - case_decide; by simplify_eq.
  - destruct (dh_settled σ) eqn:Es; [by simplify_eq|].
    destruct (has_passed _ _) eqn:Ep; by simplify_eq.
Qed.

Definition drain_host (w : World) : DrainHost := mkDrainHost w 100 false 0 0 false.

Lemma perform_drain_ends timeout w fuel r :
  fst <$> execute (perform_drain demo_policy) fuel (TokioRuntime_drain timeout) (drain_host w) = Some r →
  ∃ σ', ends (drain_acts demo_policy) drain_suspends (drain_env demo_policy 1) (TokioRuntime_drain timeout)
    (drain_host w) (Some r) σ'.
Proof.
  destruct (execute _ _ _ _) as [[r' σ']|] eqn:E'; [|done]. intros [= <-]. exists σ'.
  apply ends_returned. eapply execute_moves; [apply perform_drain_acts|exact E'].
Qed.

(** An idle engine drains at once; a busy one is reported with its work. *)
Lemma drain_correct_witness :
  (∃ σ', ends (drain_acts demo_policy) drain_suspends (drain_env demo_policy 1) (TokioRuntime_drain 5)
     (drain_host World_initial) (Some (inr (mkDrainReport 0 2))) σ' ∧ idle (dh_state σ')) ∧
  (∃ σ' nd, ends (drain_acts demo_policy) drain_suspends (drain_env demo_policy 1) (TokioRuntime_drain 0)
     (drain_host demo_world) (Some (inl nd)) σ' ∧
     nd_classes nd !! "ingest"%string = Some (mkOutstanding 1 0) ∧ is_draining (dh_state σ') = true).
Proof.
  split.
  - destruct (perform_drain_ends 5 World_initial 100 (inr (mkDrainReport 0 2))) as [σ' He];
      [vm_compute; reflexivity|].
    exists σ'. split; [exact He|].
    destruct (drain_correct demo_policy 1 5 (drain_host World_initial) (Some (inr (mkDrainReport 0 2))) σ'
      demo_typed (reachable_initial _ _)) as [H _].
    destruct (H He) as [_ Hi]. destruct (Hi (dh_world σ')) as [Hi' _]; [constructor|exact Hi'].
  - assert (∃ nd, fst <$> execute (perform_drain demo_policy) 100 (TokioRuntime_drain 0) (drain_host demo_world) = Some (inl nd) ∧
      nd_classes nd !! "ingest"%string = Some (mkOutstanding 1 0)) as (nd & E & Hnd).
    { eexists. split; [vm_compute; reflexivity|vm_compute; reflexivity]. }
    apply perform_drain_ends in E as [σ' He]. exists σ', nd. split; [exact He|]. split; [exact Hnd|].
    destruct (drain_correct demo_policy 1 0 (drain_host demo_world) (Some (inl nd)) σ'
      demo_typed demo_reachable) as [H _].
    by destruct (H He) as [Hd _].
Defined.
